(* ===== verification/_CoqProject ===== *)
-Q . S2P
Prelude.v
Varint.v
Dgram.v
RustStr.v
Net.v
Endpoint.v
Rules.v
EchConfig.v
Base64.v
EchKey.v
Keygen.v
Quiche.v
Loopback.v
Io.v
Cmsg.v
FlushRef.v
Sockets.v
Tls.v
Client.v
ClientProps.v
Dialing.v
Server.v
ServerInv.v
ServerRuns.v
ServerProps.v
Orphans.v
Refine.v
Timing.v
Proxy.v
ProxyProps.v
Listen.v
Reload.v
Signals.v
Main.v
Tunnel.v
History.v
ServerFlow.v
ClientFlow.v
ClientRefine.v
Replies.v
EndToEnd.v
Delivery.v
UnitTests.v
EchTest.v
