(* ===== verification/Prelude.v ===== *)
(** * zeromasque: a verification development

    zeromasque is a MASQUE (CONNECT-UDP, RFC 9298) proxy and its client.  The client
    binds a local UDP socket and carries every datagram it receives there through one
    QUIC connection to the proxy, one flow per local source address; the proxy
    forwards each flow to the target its rule table pins for the endpoint.  This
    library models both programs and proves what they promise to their users.

    ** Parts and files

    - Prelude.v (this file): machine integers and bytes, [result] with its error
      monad, [panics] for Rust code that may panic, the state-and-error monad [stm],
      loops with fuel and their lemmas, tactics and hints.
    - RustStr.v: the string functions of the Rust library the sources use (splitting,
      trimming, UTF-8, lines, decimal numbers) and [hex] of src/util.rs.
    - Net.v: socket addresses and durations.
    - Varint.v (src/varint.rs) and Dgram.v (src/dgram.rs): the framing of HTTP
      datagrams.
    - Endpoint.v (src/endpoint.rs) and Rules.v (src/rules.rs): endpoint URIs and the
      rule table.
    - EchConfig.v, EchKey.v, Keygen.v (src/ech/*.rs): the ECHConfig wire format, PEM
      key bundles and key sets, and the key generator.  Base64.v states what the
      sources rely on of the base64 library, with an instance that meets it.
    - Quiche.v: the interfaces of code outside the repository, as type classes with
      their laws: a QUIC and HTTP/3 connection, UDP system calls, sockets, channels
      and the iteration order of hash maps.  Loopback.v: executable instances of all
      of them, on which the examples run.
    - Io.v (src/io.rs): send batches with segmentation offload, flushing a connection,
      splitting coalesced receives, the receive task.  Cmsg.v (src/io.rs): control
      messages as bytes in memory, and that writing and walking them implements the
      message lists of Io.v.  FlushRef.v: a flush without batches, and that the batched
      one is equivalent to it.
    - Sockets.v (src/quic.rs, src/io.rs, src/server.rs): socket options and the opening
      of target sockets, transparent ones included.
    - Tls.v (src/quic.rs): TLS and QUIC configurations as the sequence of calls that
      makes them, the SNI guard and the client's ECH callback.
    - Client.v (src/client.rs): dialing, the state of a session, one definition per
      step of [run_session] and the turn composed of them, the reconnect delays.
      ClientProps.v: the invariant of a session and its theorems; ClientRefine.v: a
      session's contract as a table of local sources, and that every turn implements it;
      Dialing.v: what a successful dial has done.
    - Server.v (src/server.rs): the state of the server, every handler, the turns of
      the main loop and of the target tasks.  ServerInv.v: the invariant and the step
      relation; ServerRuns.v: every loop ends; ServerProps.v: the theorems;
      Orphans.v: tasks whose flow is gone.
    - Refine.v: the server's contract as an abstract table of connections and flows with
      labelled steps, and the proof that every handler implements it.
    - Timing.v (src/util.rs, src/server.rs): the arms of a [select!] as instants, the
      turns of the server in time and the sweep of idle flows.
    - Proxy.v (src/client.rs): the whole client process [run_proxy], with the [select!]
      of its sessions, both receive tasks and the pauses between sessions;
      ProxyProps.v: its theorems.  Listen.v (src/server.rs): the server process
      [Server::run] in the same way, with its theorems.
    - Reload.v and Signals.v (src/reload.rs): hot reload, and SIGHUP from the signal mask
      to the reload task.
    - Main.v (src/main.rs, src/cli.rs): [main] and its commands up to their event loops;
      the states of a running server with reloads.
    - Tunnel.v: the requests, answers and framing of the two ends together.
    - History.v: the datagrams a connection or a socket has carried so far, and which
      operations add to them.  On these histories ServerFlow.v says what a target is
      sent, Replies.v what a connection is sent back, ClientFlow.v what a session sends
      in both directions, and EndToEnd.v puts one session and one connection of the
      server together.  Delivery.v is the converse: what arrives when nothing has to be
      dropped.
    - UnitTests.v (the tests modules of src/): the unit tests as definitions that run.  EchTest.v
      (src/ech_test.rs): the in-memory handshake of the ECH tests.

    ** How the code is modelled

    A Rust function is a Rocq function of the same name; [Result] is [result], a
    possible panic is the type [panics], so that a theorem has to exclude it.
    [&mut] arguments are threaded through; where a source mutates several objects in
    turn, a record holds them ([Tunnel], [Session], [Server]).  Integers are [Z] with
    the wrap-around written out where a conversion or shift can lose bits; lengths and
    counters that are bounded by buffers are [nat].  A [HashMap] is a [gmap]; code that
    iterates one does so in the order of [HashIter], of which nothing is known but
    that every entry comes once.  Asynchronous code is cut at its [select!]: a turn is
    a function of what the [select!] found ready, and the turns of the main loop, the
    target tasks, the receive task and the reload task interleave in the step relations
    [step] and [serving] and in the event sequences of [px_run] and [listen].  When a
    [select!] wakes up is the subject of Timing.v ([selects]): it takes an arm that
    completes first; which one when several do is left open.  Each handler reads the
    clock and the random generator at most once, as arguments; [process_client] has one
    instant where the source reads the clock for the requests and again for the
    datagrams.  The spawned target tasks are the [Runtime] of the server: dropping
    a flow closes the sender of its task, which then ends.

    Loops that wait for a socket or drain a library take fuel.  The fuel is never
    part of a result: the theorems either start from a run that returned, or show
    that from some amount of fuel on the function returns one and the same result
    ([settles] in this file), from laws such as that [poll] hands out finitely many
    events (classes [QuicheDrains], [QuicheSends], [UdpProgress]).

    ** What the theorems show

    - Formats: varints, datagrams, ECH configurations and lists, PEM bundles and the
      output of the key generator read back as written; decoding arbitrary bytes does
      not panic; when encoding panics is exact.
    - Configuration: which endpoints, rule files, key directories and requests are
      accepted, and what they mean; the TLS configurations are exactly the intended
      calls, the server's SNI guard accepts exactly the rules' hosts, the client
      verifies unless told not to.
    - Input and output: a flush puts every packet on the wire once and in order with
      and without segmentation offload, like one that does not batch; received segments
      are split exactly; target sockets are configured in the right order and
      connected to the target.
    - Server: every turn ends without a panic and keeps the invariant that routes,
      flows and tasks belong together; one packet affects one connection; requests
      have the stated outcome on every branch; idle flows are closed exactly when due;
      no target is ever connected to but those of rules that were read from the rule
      file.  The server refines the
      table of flows; its connection ids are well typed; packets are handled in order;
      a task whose flow is gone ends.
    - Time: a quiet second leads to a sweep, after which no idle flow is left; a busy
      loop never sweeps; neither loop waits for more than a second.
    - Reload: all or nothing; the rules, the configuration and the SNI guard in force are
      always those of the last reading of the files that was accepted; no SIGHUP is
      deadly or lost.
    - Client: the tables of a session are inverse to each other, turns end without a
      panic, a flow is a queue that opens when the proxy accepts it; a session refines a
      table of sources that lose datagrams only to a full buffer.  The process never
      gives up: it is dialing, in a session, or in a pause of bounded length; local
      datagrams are handed over in order across sessions; a dial makes the connection
      that was asked for.  The one state it does not recover from, a local receive task
      that has ended, is characterised.
    - Both ends: with the same endpoint URI the handshake name, the request and the
      answers are understood.  Every flow belongs to one local source: its target is
      sent only what came from this source, the source only what came from this target,
      nothing is made up, mixed or duplicated, in every reachable state of both; and
      those payloads for which the channels have room, and which QUIC and the sockets
      take, arrive once and in order.
    - Memory: the control messages of segmentation offload are written and read inside
      their buffers, at any word size and byte order; on a big-endian host the received
      segment size is misread, which is shown too.
    - Tests: the ECH tests join their ends by reliable byte streams; the unit tests are
      kept as regression tests of the model.

    ** What is not modelled

    QUIC, TLS, HTTP/3 and the kernel are the interfaces of Quiche.v; their laws are
    what the libraries document.  Command-line parsing (clap), JSON parsing (serde),
    the scheduling of the monoio runtime (delays between an arm completing and its
    task running), the text of log output, and the layout of msghdr and iovec are left
    out, as are the scripts of testing/ and the certificate that src/ech_test.rs signs
    for itself.  src/ech/mod.rs only declares modules.  An [.await] inside a turn
    is not a point at which other tasks interleave: what they would do there, they do
    between turns. *)

From Stdlib Require Export ZArith Lia.
From Stdlib Require Import Strings.Byte.
From stdpp Require Export base tactics option list list_numbers gmap strings sorting.

Declare Scope rust_scope.
Delimit Scope rust_scope with rust.

(** ** Bytes and machine integers *)

(** A Rust [u8] is a [Byte.byte]; a [u16], [u32], [u64] or [usize] value is a
    [Z] together with the range predicate [in_width]. *)
Abbreviation byte := Init.Byte.byte.
Abbreviation bytes := (list Init.Byte.byte).

Definition b2z (b : byte) : Z := Z.of_N (Byte.to_N b).

(** [x as u8]: keep the low eight bits. *)
Definition z2b (z : Z) : byte :=
  match Byte.of_N (Z.to_N (z mod 2 ^ 8)) with
  | Some b => b
  | None => x00
  end.

(** [x as uN]: keep the low [w] bits. *)
Definition wrap (w z : Z) : Z := (z mod 2 ^ w)%Z.

Definition in_width (w z : Z) : Prop := (0 ≤ z < 2 ^ w)%Z.

(** [x << n] on a [w]-bit integer: bits pushed out at the top are lost. *)
Definition shl (w z n : Z) : Z := wrap w (Z.shiftl z n).

(** [u16::to_be_bytes] and its siblings: [n] bytes, most significant first. *)
Fixpoint to_be_bytes (n : nat) (z : Z) : bytes :=
  match n with
  | O => []
  | S k => z2b (Z.shiftr z (8 * Z.of_nat k)) :: to_be_bytes k z
  end.

(** The accumulation loop [v = (v << 8) | b] on unbounded integers. *)
Definition be_acc (acc : Z) (l : bytes) : Z :=
  fold_left (λ v b, Z.lor (Z.shiftl v 8) (b2z b)) l acc.

Definition from_be_bytes (l : bytes) : Z := be_acc 0 l.

#[global] Instance byte_eq_dec : EqDecision byte := Byte.byte_eq_dec.
#[global] Program Instance byte_countable : Countable byte :=
  inj_countable Byte.to_N Byte.of_N _.
Next Obligation. intros b. apply Byte.of_to_N. Qed.
#[global] Instance byte_inhabited : Inhabited byte := populate x00.

(** ** Results, panics and loops *)

(** [Result<A, E>]; the error type comes first so that [result E] is a monad. *)
Inductive result (E A : Type) : Type :=
| Ok (a : A)
| Err (e : E).
Arguments Ok {E A} a.
Arguments Err {E A} e.

#[global] Instance result_ret {E} : MRet (result E) := λ A a, Ok a.
#[global] Instance result_bind {E} : MBind (result E) := λ A B k m,
  match m with Ok a => k a | Err e => Err e end.
#[global] Instance result_fmap {E} : FMap (result E) := λ A B f m,
  match m with Ok a => Ok (f a) | Err e => Err e end.

Definition is_ok {E A} (r : result E A) : bool :=
  match r with Ok _ => true | Err _ => false end.

(** [ok_or]. *)
Definition ok_or {E A} (e : E) (o : option A) : result E A :=
  match o with Some a => Ok a | None => Err e end.

(** [r.map_err(f)]. *)
Definition map_err {E F A} (f : E → F) (r : result E A) : result F A :=
  match r with Ok a => Ok a | Err e => Err (f e) end.

(** The early return [if c { bail!(e) }]. *)
Definition bail_if {E} (c : bool) (e : E) : result E unit :=
  if c then Err e else Ok tt.

(** Code that reads or updates a state and may fail: [&mut self] methods that
    return a [Result].  A failure keeps the state reached so far. *)
Definition stm (S E A : Type) : Type := S → result E A * S.

#[global] Instance stm_ret {S E} : MRet (stm S E) := λ A a s, (Ok a, s).
#[global] Instance stm_bind {S E} : MBind (stm S E) := λ A B k m s,
  match m s with
  | (Ok a, s) => k a s
  | (Err e, s) => (Err e, s)
  end.

Definition throw {S E A} (e : E) : stm S E A := λ s, (Err e, s).
Definition lift {S E A} (r : result E A) : stm S E A := λ s, (r, s).

(** [m?; k]: the value of [m] is not used. *)
Definition stm_then {S E A B} (m : stm S E A) (k : stm S E B) : stm S E B := m ≫= λ _, k.
Notation "m >>! k" := (stm_then m k) (at level 100, right associativity) : rust_scope.

(** The same with loops that may run out of fuel ([None]). *)
Definition fstm (S E A : Type) : Type := S → option (result E A * S).

#[global] Instance fstm_ret {S E} : MRet (fstm S E) := λ A a s, Some (Ok a, s).
#[global] Instance fstm_bind {S E} : MBind (fstm S E) := λ A B k m s,
  match m s with
  | Some (Ok a, s) => k a s
  | Some (Err e, s) => Some (Err e, s)
  | None => None
  end.

(** Code that may panic ([expect], slicing, overflow checks): a value or the
    panic itself. *)
Inductive panics (A : Type) : Type :=
| Returns (a : A)
| Panics.
Arguments Returns {A} a.
Arguments Panics {A}.

#[global] Instance panics_ret : MRet panics := λ A a, Returns a.
#[global] Instance panics_bind : MBind panics := λ A B k m,
  match m with Returns a => k a | Panics => Panics end.

Definition expect {A} (o : option A) : panics A :=
  match o with Some a => Returns a | None => Panics end.

(** [uN::try_from(x)]. *)
Definition try_from (w z : Z) : option Z :=
  if bool_decide (0 ≤ z < 2 ^ w)%Z then Some z else None.

(** [&l[n..]] panics when [n] is past the end. *)
Definition slice_from {A} (l : list A) (n : nat) : panics (list A) :=
  if bool_decide (n ≤ length l) then Returns (drop n l) else Panics.

(** A [loop] whose body either goes round again or leaves with a result; [None]
    when the fuel runs out. *)
Fixpoint loop {St R} (fuel : nat) (body : St → St + R) (s : St) : option R :=
  match fuel with
  | O => None
  | S fuel =>
      match body s with
      | inl s' => loop fuel body s'
      | inr r => Some r
      end
  end.

(** [slice::chunks(n)] for [n > 0]; the fuel is the length of the slice. *)
Fixpoint chunks_go {A} (fuel n : nat) (l : list A) : list (list A) :=
  match fuel, l with
  | S fuel, _ :: _ => take n l :: chunks_go fuel n (drop n l)
  | _, _ => []
  end.

Definition chunks {A} (n : nat) (l : list A) : list (list A) :=
  chunks_go (length l) n l.

(** A ASCII string literal as bytes. *)
Definition str (s : string) : bytes := String.list_byte_of_string s.

(** ** Tactics *)

(** Case analysis on the scrutinee of the first [match] or [if] of the goal or
    of a hypothesis, keeping the equation. *)
Ltac case_goal :=
  match goal with
  | |- context [ match ?x with _ => _ end ] => destruct x eqn:?
  end.
Ltac case_hyp H :=
  match type of H with
  | context [ match ?x with _ => _ end ] => destruct x eqn:?
  end.

(** Turn boolean tests in hypotheses into propositions. *)
Ltac bools :=
  repeat match goal with
  | H : bool_decide _ = true |- _ => apply bool_decide_eq_true in H
  | H : bool_decide _ = false |- _ => apply bool_decide_eq_false in H
  | H : (_ && _) = true |- _ => apply andb_true_iff in H as [? ?]
  | H : (_ || _) = false |- _ => apply orb_false_iff in H as [? ?]
  | H : negb _ = true |- _ => apply negb_true_iff in H
  | H : negb _ = false |- _ => apply negb_false_iff in H
  end.

Create HintDb rust discriminated.
#[global] Hint Constants Opaque : rust.
#[global] Hint Variables Opaque : rust.
Create Rewrite HintDb rust.

Ltac rust := autorewrite with rust; eauto with rust.

(** ** Lemmas on bytes and integers *)
Lemma b2z_range (b : byte) : (0 ≤ b2z b < 2 ^ 8)%Z.
Proof.
  unfold b2z. pose proof (Byte.to_N_bounded b) as H.
  change (2 ^ 8)%Z with 256%Z. split; [apply N2Z.is_nonneg | lia].
Qed.

Lemma b2z_z2b (z : Z) : b2z (z2b z) = (z mod 2 ^ 8)%Z.
Proof.
  unfold z2b. pose proof (Z.mod_pos_bound z (2 ^ 8) eq_refl) as Hb.
  destruct (Byte.of_N _) as [b|] eqn:E.
  - apply Byte.to_of_N in E. unfold b2z. rewrite E. lia.
  - apply Byte.of_N_None_iff in E. change (2 ^ 8)%Z with 256%Z in *. lia.
Qed.

Lemma b2z_inj (a b : byte) : b2z a = b2z b → a = b.
Proof.
  unfold b2z. intros H%N2Z.inj.
  pose proof (Byte.of_to_N a). pose proof (Byte.of_to_N b). congruence.
Qed.

Lemma z2b_b2z (b : byte) : z2b (b2z b) = b.
Proof.
  apply b2z_inj. rewrite b2z_z2b. apply Z.mod_small, b2z_range.
Qed.

Lemma z2b_wrap (w z : Z) : (8 ≤ w)%Z → z2b (z mod 2 ^ w) = z2b z.
Proof.
  intros Hw. apply b2z_inj. rewrite !b2z_z2b.
  rewrite Z.mod_mod_divide; [done|].
  exists (2 ^ (w - 8))%Z. rewrite <- Z.pow_add_r by lia. f_equal; lia.
Qed.

Lemma lor_shiftl_add (v b n : Z) :
  (0 ≤ n)%Z → (0 ≤ b < 2 ^ n)%Z → Z.lor (Z.shiftl v n) b = (v * 2 ^ n + b)%Z.
Proof.
  intros Hn Hb. rewrite <- Z.add_nocarry_lor.
  - by rewrite Z.shiftl_mul_pow2.
  - apply Z.bits_inj'. intros i Hi. rewrite Z.land_spec, Z.bits_0.
    destruct (decide (i < n)%Z).
    + by rewrite Z.shiftl_spec_low.
    + rewrite <- (Z.mod_small b (2 ^ n)), Z.mod_pow2_bits_high by lia.
      apply andb_false_r.
Qed.

Lemma be_acc_spec (l : bytes) (acc : Z) :
  be_acc acc l = (acc * 2 ^ (8 * Z.of_nat (length l)) + from_be_bytes l)%Z.
Proof.
  unfold from_be_bytes. revert acc. induction l as [|b l IH]; intros acc.
  - simpl. lia.
  - unfold be_acc in *. cbn [fold_left]. rewrite IH.
    rewrite (IH (Z.lor (Z.shiftl 0 8) (b2z b))).
    rewrite !lor_shiftl_add by (try lia; apply b2z_range).
    cbn [length]. rewrite Nat2Z.inj_succ.
    replace (8 * Z.succ (Z.of_nat (length l)))%Z
      with (8 + 8 * Z.of_nat (length l))%Z by lia.
    rewrite Z.pow_add_r by lia. lia.
Qed.

Lemma from_be_bytes_cons (b : byte) (l : bytes) :
  from_be_bytes (b :: l) =
  (b2z b * 2 ^ (8 * Z.of_nat (length l)) + from_be_bytes l)%Z.
Proof.
  unfold from_be_bytes at 1, be_acc. cbn [fold_left].
  rewrite lor_shiftl_add by (try lia; apply b2z_range).
  rewrite Z.mul_0_l, Z.add_0_l. apply be_acc_spec.
Qed.

Lemma from_be_bytes_range (l : bytes) :
  in_width (8 * Z.of_nat (length l)) (from_be_bytes l).
Proof.
  induction l as [|b l IH]; [by vm_compute|].
  rewrite from_be_bytes_cons. unfold in_width in *. cbn [length].
  rewrite Nat2Z.inj_succ.
  replace (8 * Z.succ (Z.of_nat (length l)))%Z
    with (8 + 8 * Z.of_nat (length l))%Z by lia.
  rewrite Z.pow_add_r by lia. pose proof (b2z_range b). nia.
Qed.

Lemma length_to_be_bytes (n : nat) (z : Z) : length (to_be_bytes n z) = n.
Proof. induction n; simpl; auto. Qed.

Lemma from_to_be_bytes (n : nat) (z : Z) :
  from_be_bytes (to_be_bytes n z) = (z mod 2 ^ (8 * Z.of_nat n))%Z.
Proof.
  induction n as [|n IH].
  - simpl. by rewrite Z.mod_1_r.
  - cbn [to_be_bytes]. rewrite from_be_bytes_cons, length_to_be_bytes, IH, b2z_z2b.
    rewrite Z.shiftr_div_pow2, Nat2Z.inj_succ by lia.
    replace (8 * Z.succ (Z.of_nat n))%Z with (8 * Z.of_nat n + 8)%Z by lia.
    rewrite Z.pow_add_r by lia.
    rewrite (Z.rem_mul_r z (2 ^ (8 * Z.of_nat n)) (2 ^ 8)) by lia. lia.
Qed.

Lemma from_to_be_bytes_small (n : nat) (z : Z) :
  in_width (8 * Z.of_nat n) z → from_be_bytes (to_be_bytes n z) = z.
Proof. intros H. rewrite from_to_be_bytes. by apply Z.mod_small. Qed.

Lemma try_from_Some (w z r : Z) : try_from w z = Some r ↔ r = z ∧ in_width w z.
Proof. unfold try_from, in_width. case_bool_decide; naive_solver. Qed.

Lemma try_from_in_width (w z : Z) : in_width w z → try_from w z = Some z.
Proof. intros. by apply try_from_Some. Qed.

(** ** Lemmas on loops *)

Section Loops.
Context {St R : Type} (body : St → St + R).

(** A measure that decreases at every turn makes the loop leave. *)
Lemma loop_terminates (P : St → Prop) (μ : St → nat) :
  (∀ s s', P s → body s = inl s' → P s' ∧ μ s' < μ s) →
  ∀ fuel s, P s → μ s < fuel → is_Some (loop fuel body s).
Proof.
  intros Hdec fuel. induction fuel as [|fuel IH]; intros s HP Hμ; [lia|].
  simpl. destruct (body s) as [s'|r] eqn:E; [|eauto].
  destruct (Hdec s s' HP E). apply IH; [done|lia].
Qed.

(** The invariant rule. *)
Lemma loop_invariant (P : St → Prop) (Q : R → Prop) :
  (∀ s s', P s → body s = inl s' → P s') →
  (∀ s r, P s → body s = inr r → Q r) →
  ∀ fuel s r, P s → loop fuel body s = Some r → Q r.
Proof.
  intros Hinl Hinr fuel. induction fuel as [|fuel IH]; intros s r HP; [done|].
  simpl. destruct (body s) as [s'|r'] eqn:E; intros Hr.
  - eapply IH; [|exact Hr]. eauto.
  - simplify_eq. eauto.
Qed.

(** More fuel never changes the result. *)
Lemma loop_mono fuel fuel' s r :
  loop fuel body s = Some r → fuel ≤ fuel' → loop fuel' body s = Some r.
Proof.
  revert fuel' s. induction fuel as [|fuel IH]; intros fuel' s Hl Hle; [done|].
  destruct fuel' as [|fuel']; [lia|]. simpl in *.
  destruct (body s); [|done]. apply IH; [done|lia].
Qed.
End Loops.

(** A fuelled computation settles when some fuel is enough: from there on it
    returns one and the same result. *)
Definition settles {A} (m : nat → option A) : Prop :=
  ∃ fuel r, ∀ fuel', fuel ≤ fuel' → m fuel' = Some r.

Lemma settles_const {A} (r : A) : settles (λ _, Some r).
Proof. by exists 0, r. Qed.

Lemma settles_ext {A} (m m' : nat → option A) : (∀ f, m f = m' f) → settles m → settles m'.
Proof. intros Heq (f & r & H). exists f, r. intros. rewrite <- Heq. auto. Qed.

(** Sequencing: the continuation settles on the result of the first part. *)
Lemma settles_then {A B} (m : nat → option A) (k : nat → A → option B) :
  settles m → (∀ r, (∃ f, m f = Some r) → settles (λ f, k f r)) →
  settles (λ f, match m f with Some r => k f r | None => None end).
Proof.
  intros (f1 & r1 & H1) Hk. destruct (Hk r1) as (f2 & r2 & H2); [by eauto|].
  exists (max f1 f2), r2. intros f Hf. rewrite H1 by lia. apply H2. lia.
Qed.

Lemma settles_bind {S E A B} (m : nat → fstm S E A) (k : nat → A → fstm S E B) (s : S) :
  settles (λ f, m f s) →
  (∀ a s', (∃ f, m f s = Some (Ok a, s')) → settles (λ f, k f a s')) →
  settles (λ f, (m f ≫= k f) s).
Proof.
  intros Hm Hk.
  apply (settles_then _ (λ f r, match r with
           | (Ok a, s') => k f a s' | (Err e, s') => Some (Err e, s') end)) in Hm.
  - revert Hm. apply settles_ext. intros f. unfold mbind, fstm_bind.
    by destruct (m f s) as [[[] ?]|].
  - intros [[a|e] s'] Hr; [by apply Hk|apply settles_const].
Qed.
(** A loop whose turns settle and decrease a measure settles. *)
Lemma settles_loop {St R} (body : nat → St → St + option R) (μ : St → nat) :
  (∀ s, ∃ f b, (∀ f', f ≤ f' → body f' s = b) ∧
        match b with inl s' => μ s' < μ s | inr o => is_Some o end) →
  ∀ s, settles (λ f, mjoin (loop f (body f) s)).
Proof.
  intros Hb s.
  assert (∃ f r, ∀ f1 f2, f ≤ f1 → f ≤ f2 → loop f1 (body f2) s = Some (Some r)) as (f & r & H).
  { remember (μ s) as n eqn:Hn. revert s Hn. induction (lt_wf n) as [n _ IH]. intros s ->.
    destruct (Hb s) as (f & [s'|o] & Hf & Hd).
    - destruct (IH _ Hd s' eq_refl) as (f0 & r & H). exists (S (max f f0)), r.
      intros [|f1] f2 H1 H2; [lia|]. simpl. rewrite Hf by lia. apply H; lia.
    - destruct Hd as [r ->]. exists (S f), r. intros [|f1] f2 H1 H2; [lia|].
      simpl. by rewrite Hf by lia. }
  exists f, r. intros f' Hf'. by rewrite H.
Qed.

(** ** Lemmas on lists *)

Section Chunks.
Context {A : Type}.
Implicit Types (l : list A) (n fuel : nat).

Lemma chunks_go_fuel fuel n l :
  0 < n → length l ≤ fuel → chunks_go fuel n l = chunks n l.
Proof.
  intros Hn. unfold chunks. revert l.
  assert (∀ f1 f2 l, length l ≤ f1 → length l ≤ f2 →
            chunks_go f1 n l = chunks_go f2 n l) as H.
  { induction f1 as [|f1 IH]; intros [|f2] [|x l] H1 H2; simpl in *; try done; try lia.
    f_equal. apply IH; rewrite length_drop; simpl; lia. }
  intros l Hl. by apply H.
Qed.

Lemma chunks_nil n : chunks n ([] : list A) = [].
Proof. done. Qed.

Lemma chunks_unfold n l :
  0 < n → l ≠ [] → chunks n l = take n l :: chunks n (drop n l).
Proof.
  intros Hn Hl. destruct l as [|x l]; [done|].
  unfold chunks at 1. cbn [length chunks_go]. f_equal.
  apply chunks_go_fuel; [done|]. rewrite length_drop. simpl. lia.
Qed.

Lemma chunks_app n l1 l2 :
  0 < n → length l1 = n → chunks n (l1 ++ l2) = l1 :: chunks n l2.
Proof.
  intros Hn H1. rewrite chunks_unfold; [|done|by destruct l1; simpl in *; [lia|]].
  by rewrite take_app_length', drop_app_length' by done.
Qed.

Lemma chunks_short n l : l ≠ [] → length l ≤ n → chunks n l = [l].
Proof.
  intros Hl Hn. rewrite chunks_unfold; [|by destruct l; simpl in *; [|lia]|done].
  by rewrite take_ge, drop_ge by done.
Qed.

Lemma chunks_ind n (P : list A → Prop) :
  0 < n → P [] → (∀ l, l ≠ [] → P (drop n l) → P l) → ∀ l, P l.
Proof.
  intros Hn H0 HS l. remember (length l) as k eqn:Hk. revert l Hk.
  induction (lt_wf k) as [k _ IH]. intros l ->.
  destruct (decide (l = [])) as [->|Hl]; [done|]. apply HS; [done|].
  eapply IH; [|done]. rewrite length_drop. destruct l; simpl in *; [done|lia].
Qed.

Lemma concat_chunks n l : 0 < n → concat (chunks n l) = l.
Proof.
  intros Hn. revert l. apply (chunks_ind n); [done|done|].
  intros l Hl IH. rewrite chunks_unfold by done. simpl. rewrite IH.
  apply take_drop.
Qed.

(** Every chunk is non-empty and at most [n] long. *)
Lemma chunks_length n l :
  0 < n → Forall (λ c, 0 < length c ≤ n) (chunks n l).
Proof.
  intros Hn. revert l. apply (chunks_ind n); [done|constructor|].
  intros l Hl IH. rewrite chunks_unfold by done. constructor; [|done].
  rewrite length_take. destruct l; simpl in *; [done|lia].
Qed.

(** Chunking undoes concatenation when every piece but the last has size [n]
    and the last one is non-empty and not longer. *)
Lemma chunks_concat n (ls : list (list A)) (last : list A) :
  0 < n → Forall (λ c, length c = n) ls → 0 < length last ≤ n →
  chunks n (concat ls ++ last) = ls ++ [last].
Proof.
  intros Hn Hls Hlast. induction Hls as [|c ls Hc _ IH]; simpl.
  - apply chunks_short; [|lia]. intros ->. simpl in *. lia.
  - rewrite <- app_assoc, chunks_app by done. by rewrite IH.
Qed.
End Chunks.

Lemma concat_snoc {A} (ls : list (list A)) (l : list A) :
  concat (ls ++ [l]) = concat ls ++ l.
Proof. by rewrite concat_app, concat_cons, concat_nil, app_nil_r. Qed.

(** There are only 256 bytes. *)
Lemma NoDup_bytes_length (l : bytes) : NoDup l → length l ≤ 256.
Proof.
  intros Hl. rewrite <- (length_fmap b2z). change 256 with (length (seqZ 0 256)).
  apply submseteq_length, NoDup_submseteq.
  - by apply (NoDup_fmap_2_strong b2z); [intros ? ? _ _; apply b2z_inj|].
  - intros z (b & -> & _)%list_elem_of_fmap. apply elem_of_seqZ.
    pose proof (b2z_range b). lia.
Qed.

Lemma forallb_app_2 {A} (f : A → bool) (l1 l2 : list A) :
  forallb f l1 = true → forallb f l2 = true → forallb f (l1 ++ l2) = true.
Proof. intros H1 H2. by rewrite forallb_app, H1, H2. Qed.

Lemma slice_from_le {A} (l : list A) (n : nat) :
  n ≤ length l → slice_from l n = Returns (drop n l).
Proof. intros. unfold slice_from. by rewrite bool_decide_true. Qed.

(** Splitting a bind of results that succeeded. *)
Lemma result_bind_Ok {E A B} (m : result E A) (k : A → result E B) (b : B) :
  m ≫= k = Ok b ↔ ∃ a, m = Ok a ∧ k a = Ok b.
Proof. unfold mbind, result_bind. destruct m; naive_solver. Qed.

Lemma Returns_inj {A} (a b : A) : Returns a = Returns b → a = b.
Proof. by intros [= ->]. Qed.

Lemma panics_bind_Returns {A B} (m : panics A) (k : A → panics B) (b : B) :
  m ≫= k = Returns b ↔ ∃ a, m = Returns a ∧ k a = Returns b.
Proof. unfold mbind, panics_bind. destruct m; naive_solver. Qed.

Lemma stm_bind_Ok {S E A B} (m : stm S E A) (k : A → stm S E B) (s s' : S) (b : B) :
  (m ≫= k) s = (Ok b, s') ↔ ∃ a s1, m s = (Ok a, s1) ∧ k a s1 = (Ok b, s').
Proof.
  unfold mbind, stm_bind. destruct (m s) as [[a|e] s1]; naive_solver.
Qed.

Lemma stm_then_Ok {S E A B} (m : stm S E A) (k : stm S E B) (s s' : S) (b : B) :
  stm_then m k s = (Ok b, s') ↔ ∃ a s1, m s = (Ok a, s1) ∧ k s1 = (Ok b, s').
Proof. apply stm_bind_Ok. Qed.

Lemma fstm_bind_Some {S E A B} (m : fstm S E A) (k : A → fstm S E B) (s s' : S) r :
  (m ≫= k) s = Some (r, s') →
  (∃ a s1, m s = Some (Ok a, s1) ∧ k a s1 = Some (r, s')) ∨
  (∃ e, m s = Some (Err e, s') ∧ r = Err e).
Proof.
  unfold mbind, fstm_bind. destruct (m s) as [[[a|e] s1]|]; naive_solver.
Qed.

Lemma bail_if_Ok {E} (c : bool) (e : E) u : bail_if c e = Ok u ↔ c = false.
Proof. destruct c, u; simpl; naive_solver. Qed.

#[global] Hint Rewrite @length_to_be_bytes @length_app @length_cons @length_nil : rust.
#[global] Hint Resolve b2z_range from_be_bytes_range : rust.

(** Unfold one bind of a successful computation in hypothesis [H]. *)
Tactic Notation "unbind" hyp(H) "as" simple_intropattern(p) :=
  first [ apply result_bind_Ok in H as p | apply panics_bind_Returns in H as p
        | apply stm_bind_Ok in H as p ].

(** ** Sequences of labelled steps *)

Inductive trace {L S : Type} (R : L → S → S → Prop) : list L → S → S → Prop :=
| trace_nil s : trace R [] s s
| trace_cons l ls s1 s2 s3 : R l s1 s2 → trace R ls s2 s3 → trace R (l :: ls) s1 s3.
#[export] Hint Constructors trace : core.

Section Trace.
Context {L S : Type} (R : L → S → S → Prop).

Lemma trace_app ls1 ls2 s1 s2 s3 : trace R ls1 s1 s2 → trace R ls2 s2 s3 → trace R (ls1 ++ ls2) s1 s3.
Proof. induction 1; simpl; eauto. Qed.

Lemma trace_one l s1 s2 : R l s1 s2 → trace R [l] s1 s2.
Proof. eauto. Qed.

(** A run whose labels all satisfy [P]. *)
Definition via (P : L → Prop) (s1 s2 : S) : Prop := ∃ ls, trace R ls s1 s2 ∧ Forall P ls.

Lemma via_refl P s : via P s s.
Proof. exists []. auto. Qed.

Lemma via_trans P s1 s2 s3 : via P s1 s2 → via P s2 s3 → via P s1 s3.
Proof.
  intros (l1 & H1 & P1) (l2 & H2 & P2). exists (l1 ++ l2). split; [by eapply trace_app|].
  by apply Forall_app.
Qed.

Lemma via_one (P : L → Prop) l s1 s2 : R l s1 s2 → P l → via P s1 s2.
Proof. intros H HP. exists [l]. split; eauto. Qed.
End Trace.
