(* ===== verification/Varint.v ===== *)
(** * src/varint.rs: QUIC variable-length integers

    [encoded_len], [encode] and [decode] at their machine widths: [u64] values,
    [u8]/[u16]/[u32] casts that truncate, and the [u64] accumulator of the
    decoding loop, whose shift may drop bits.  [encode] appends to a vector and
    is modelled by the bytes it appends.

    The theorems: what decoding an encoding gives for every [u64], the
    round trip below 2^62 with the length it consumes, the exact failure
    condition and the bounds of [decode], minimality of the encoding, and that
    decoding looks only at the bytes it consumes. *)

From S2P Require Import Prelude.

(** [decode]'s loop body: [value = (value << 8) | u64::from(b)]. *)
Definition decode_step (value : Z) (b : byte) : Z :=
  Z.lor (shl 64 value 8) (b2z b).

Definition decode (buf : bytes) : option (Z * nat) :=
  match buf with
  | [] => None
  | first :: _ =>
      let len := Z.to_nat (Z.shiftl 1 (Z.shiftr (b2z first) 6)) in
      if length buf <? len then None
      else
        let value := Z.land (b2z first) 0x3f in
        Some (fold_left decode_step (take (len - 1) (drop 1 buf)) value, len)
  end.

Definition encoded_len (value : Z) : nat :=
  if bool_decide (0 ≤ value ≤ 63)%Z then 1
  else if bool_decide (64 ≤ value ≤ 16383)%Z then 2
  else if bool_decide (16384 ≤ value ≤ 1073741823)%Z then 4
  else 8.

Definition encode (value : Z) : bytes :=
  match encoded_len value with
  | 1 => [z2b value]
  | 2 => to_be_bytes 2 (Z.lor (wrap 16 value) 0x4000)
  | 4 => to_be_bytes 4 (Z.lor (wrap 32 value) 0x80000000)
  | _ => to_be_bytes 8 (Z.lor value 0xc000000000000000)
  end.

(** ** Lemmas *)

(** The two high bits of the first byte, and the length they select. *)
Lemma header_len_cases (b : byte) :
  let q := Z.shiftr (b2z b) 6 in
  (0 ≤ q ≤ 3)%Z ∧ b2z b = (q * 64 + Z.land (b2z b) 0x3f)%Z ∧
  (0 ≤ Z.land (b2z b) 0x3f < 64)%Z.
Proof.
  pose proof (b2z_range b) as Hb. cbv zeta.
  change 0x3f%Z with (Z.ones 6). rewrite Z.land_ones, Z.shiftr_div_pow2 by lia.
  change (2 ^ 6)%Z with 64%Z. change (2 ^ 8)%Z with 256%Z in Hb.
  pose proof (Z.div_mod (b2z b) 64). pose proof (Z.mod_pos_bound (b2z b) 64).
  assert (b2z b / 64 < 4)%Z by (apply Z.div_lt_upper_bound; lia).
  assert (0 ≤ b2z b / 64)%Z by (apply Z.div_pos; lia). lia.
Qed.

(** While the accumulator leaves room for the bytes still to come, the [u64]
    shift loses nothing and the loop is plain big-endian accumulation. *)
Lemma decode_loop_spec (l : bytes) (v : Z) :
  length l ≤ 7 → (0 ≤ v < 2 ^ (64 - 8 * Z.of_nat (length l)))%Z →
  fold_left decode_step l v = be_acc v l.
Proof.
  revert v. induction l as [|b l IH]; intros v Hl Hv; [done|].
  cbn [fold_left length] in *. unfold be_acc. cbn [fold_left].
  pose proof (b2z_range b) as Hb.
  replace (64 - 8 * Z.of_nat (S (length l)))%Z
    with (56 - 8 * Z.of_nat (length l))%Z in Hv by lia.
  assert (2 ^ (64 - 8 * Z.of_nat (length l)) =
          2 ^ 8 * 2 ^ (56 - 8 * Z.of_nat (length l)))%Z as Hp
    by (rewrite <- Z.pow_add_r by lia; f_equal; lia).
  assert (2 ^ (56 - 8 * Z.of_nat (length l)) ≤ 2 ^ 56)%Z
    by (apply Z.pow_le_mono_r; lia).
  assert (decode_step v b = Z.lor (Z.shiftl v 8) (b2z b)) as ->.
  { unfold decode_step, shl, wrap. rewrite Z.mod_small; [done|].
    rewrite Z.shiftl_mul_pow2 by lia. lia. }
  apply IH; [lia|]. rewrite lor_shiftl_add by lia. nia.
Qed.

Lemma header_len_le (b : byte) :
  1 ≤ Z.to_nat (Z.shiftl 1 (Z.shiftr (b2z b) 6)) ≤ 8.
Proof.
  destruct (header_len_cases b) as [Hq _].
  assert (Z.shiftr (b2z b) 6 ∈ [0; 1; 2; 3]%Z) as H.
  { rewrite !elem_of_cons. lia. }
  repeat (apply elem_of_cons in H as [->|H]; [vm_compute; lia|]).
  by apply not_elem_of_nil in H.
Qed.

(** [decode] in closed form: big-endian value of the bytes consumed, without
    the two length bits. *)
Lemma decode_cons (first : byte) (rest : bytes) :
  let len := Z.to_nat (Z.shiftl 1 (Z.shiftr (b2z first) 6)) in
  decode (first :: rest) =
    if decide (len ≤ S (length rest)) then
      Some (be_acc (Z.land (b2z first) 0x3f) (take (len - 1) rest), len)
    else None.
Proof.
  cbv zeta. set (len := Z.to_nat _). unfold decode. fold len.
  pose proof (header_len_le first) as Hlen. fold len in Hlen.
  destruct (Nat.ltb_spec (length (first :: rest)) len) as [Hlt|Hge];
    cbn [length] in *; destruct (decide _); try lia; [done|].
  f_equal. f_equal. cbn [drop]. apply decode_loop_spec.
  - rewrite length_take. lia.
  - rewrite length_take. destruct (header_len_cases first) as (_ & _ & Hl).
    split; [lia|].
    apply Z.lt_le_trans with (2 ^ 8)%Z; [lia|]. apply Z.pow_le_mono_r; lia.
Qed.

(** Reading back the bytes of a big-endian word whose top two bits are [q]. *)
Lemma decode_be_word (n : nat) (q v : Z) (rest : bytes) :
  (0 ≤ q ≤ 3)%Z → S n = Z.to_nat (2 ^ q) →
  (0 ≤ v < 2 ^ (8 * Z.of_nat n + 6))%Z →
  decode (to_be_bytes (S n) (q * 2 ^ (8 * Z.of_nat n + 6) + v) ++ rest) =
  Some (v, S n).
Proof.
  intros Hq Hn Hv. set (w := (q * 2 ^ (8 * Z.of_nat n + 6) + v)%Z).
  cbn [to_be_bytes app]. rewrite decode_cons, b2z_z2b.
  assert (2 ^ (8 * Z.of_nat n + 6) = 2 ^ (8 * Z.of_nat n) * 64)%Z as Hp
    by (rewrite Z.pow_add_r by lia; f_equal; lia).
  assert (Z.shiftr w (8 * Z.of_nat n) = q * 64 + v / 2 ^ (8 * Z.of_nat n))%Z as Hw.
  { rewrite Z.shiftr_div_pow2 by lia. unfold w. rewrite Hp.
    rewrite (Z.mul_comm (2 ^ _)), Z.mul_assoc, Z.div_add_l by lia. done. }
  assert (0 ≤ v / 2 ^ (8 * Z.of_nat n) < 64)%Z as Hd.
  { split; [apply Z.div_pos; lia|]. apply Z.div_lt_upper_bound; lia. }
  rewrite Hw. rewrite (Z.mod_small _ (2 ^ 8)) by lia.
  assert (Z.shiftr (q * 64 + v / 2 ^ (8 * Z.of_nat n)) 6 = q) as ->.
  { rewrite Z.shiftr_div_pow2 by lia. change (2 ^ 6)%Z with 64%Z.
    rewrite Z.div_add_l, (Z.div_small (v / _)) by lia. lia. }
  assert (Z.land (q * 64 + v / 2 ^ (8 * Z.of_nat n)) 0x3f =
          v / 2 ^ (8 * Z.of_nat n))%Z as ->.
  { change 0x3f%Z with (Z.ones 6). rewrite Z.land_ones by lia.
    change (2 ^ 6)%Z with 64%Z. rewrite Z.add_comm, Z.mod_add, Z.mod_small by lia.
    done. }
  rewrite Z.shiftl_1_l, <- Hn. rewrite length_app, length_to_be_bytes.
  rewrite decide_True by lia. replace (S n - 1) with n by lia.
  rewrite take_app_length' by (symmetry; apply length_to_be_bytes).
  rewrite be_acc_spec, length_to_be_bytes, from_to_be_bytes. do 2 f_equal.
  unfold w. rewrite Hp.
  replace (q * (2 ^ (8 * Z.of_nat n) * 64) + v)%Z
    with (v + q * 64 * 2 ^ (8 * Z.of_nat n))%Z by lia.
  rewrite Z.mod_add by lia.
  pose proof (Z.div_mod v (2 ^ (8 * Z.of_nat n))). lia.
Qed.

(** [v | (3 << 62)] on a [u64] overwrites the two top bits of [v]. *)
Lemma lor_top_bits (v : Z) :
  in_width 64 v →
  Z.lor v 0xc000000000000000 = (3 * 2 ^ 62 + v mod 2 ^ 62)%Z.
Proof.
  intros Hv. unfold in_width in Hv.
  pose proof (Z.div_mod v (2 ^ 62)) as Hdm.
  pose proof (Z.mod_pos_bound v (2 ^ 62)) as Hm.
  assert (0 ≤ v / 2 ^ 62 < 4)%Z as Hhi.
  { split; [apply Z.div_pos; lia|].
    apply Z.div_lt_upper_bound; [lia|]. change (2 ^ 62 * 4)%Z with (2 ^ 64)%Z. lia. }
  remember (v / 2 ^ 62)%Z as hi eqn:Ehi. remember (v mod 2 ^ 62)%Z as lo eqn:Elo.
  assert (v = Z.lor (Z.shiftl hi 62) lo) as Hw
    by (rewrite lor_shiftl_add; lia).
  rewrite Hw. clear Ehi Elo Hw.
  change 0xc000000000000000%Z with (Z.shiftl 3 62).
  rewrite (Z.lor_comm (Z.lor _ _)), Z.lor_assoc, <- Z.shiftl_lor.
  assert (Z.lor 3 hi = 3%Z) as ->.
  { assert (hi = 0 ∨ hi = 1 ∨ hi = 2 ∨ hi = 3)%Z as [-> | [-> | [-> | ->]]] by lia;
      reflexivity. }
  rewrite lor_shiftl_add; lia.
Qed.

(** The shape of every encoding: a big-endian word with its length bits. *)
Lemma encode_word (v : Z) :
  in_width 64 v →
  ∃ n q, (0 ≤ q ≤ 3)%Z ∧ S n = Z.to_nat (2 ^ q) ∧ encoded_len v = S n ∧
    (v mod 2 ^ 62 < 2 ^ (8 * Z.of_nat n + 6))%Z ∧
    encode v = to_be_bytes (S n) (q * 2 ^ (8 * Z.of_nat n + 6) + v mod 2 ^ 62).
Proof.
  intros Hv. unfold in_width in Hv. unfold encode, encoded_len.
  destruct (decide (v < 2 ^ 62)%Z) as [Hs|Hl].
  - rewrite (Z.mod_small v (2 ^ 62)) by lia.
    repeat case_bool_decide.
    + exists 0, 0%Z. cbn [to_be_bytes]. rewrite Z.shiftr_0_r. split_and!; done || lia.
    + exists 1, 1%Z. split_and!; try (done || lia). f_equal.
      unfold wrap. rewrite Z.mod_small by lia.
      rewrite Z.lor_comm. change 0x4000%Z with (Z.shiftl 1 14).
      apply lor_shiftl_add; lia.
    + exists 3, 2%Z. split_and!; try (done || lia). f_equal.
      unfold wrap. rewrite Z.mod_small by lia.
      rewrite Z.lor_comm. change 0x80000000%Z with (Z.shiftl 2 30).
      apply lor_shiftl_add; lia.
    + exists 7, 3%Z. split_and!; try (done || lia). f_equal.
      rewrite lor_top_bits by done. by rewrite Z.mod_small by lia.
  - rewrite !bool_decide_false by lia.
    exists 7, 3%Z. pose proof (Z.mod_pos_bound v (2 ^ 62)).
    split_and!; try (done || lia). f_equal. by rewrite lor_top_bits by done.
Qed.

Lemma encode_length (v : Z) : in_width 64 v → length (encode v) = encoded_len v.
Proof.
  intros Hv. destruct (encode_word v Hv) as (n & q & _ & _ & -> & _ & ->).
  apply length_to_be_bytes.
Qed.

Lemma encoded_len_pos (v : Z) : 1 ≤ encoded_len v ≤ 8.
Proof. unfold encoded_len. repeat case_bool_decide; lia. Qed.

Lemma decode_encode_mod (v : Z) (rest : bytes) :
  in_width 64 v →
  decode (encode v ++ rest) = Some ((v mod 2 ^ 62)%Z, encoded_len v).
Proof.
  intros Hv. destruct (encode_word v Hv) as (n & q & Hq & Hn & -> & Hlt & ->).
  apply decode_be_word; [done|done|]. pose proof (Z.mod_pos_bound v (2 ^ 62)). lia.
Qed.

Lemma decode_Some (buf : bytes) (v : Z) (n : nat) :
  decode buf = Some (v, n) →
  (0 ≤ v < 2 ^ (8 * Z.of_nat n - 2))%Z ∧ n ≤ length buf ∧ n ∈ [1; 2; 4; 8].
Proof.
  destruct buf as [|b buf]; [done|]. rewrite decode_cons. cbv zeta.
  destruct (header_len_cases b) as (Hq & Hb & Hl).
  pose proof (header_len_le b) as Hle.
  set (q := Z.shiftr (b2z b) 6) in *. set (len := Z.to_nat (Z.shiftl 1 q)) in *.
  destruct (decide _) as [Hd|]; [|done]. intros [= <- <-].
  assert (len ∈ [1; 2; 4; 8]) as Hin.
  { unfold len. assert (q = 0 ∨ q = 1 ∨ q = 2 ∨ q = 3)%Z as Hc by lia.
    destruct Hc as [-> | [-> | [-> | ->]]]; vm_compute; set_solver. }
  split_and!; [| |done|done].
  - rewrite be_acc_spec. pose proof (from_be_bytes_range (take (len - 1) buf)) as [? ?].
    nia.
  - rewrite be_acc_spec. pose proof (from_be_bytes_range (take (len - 1) buf)) as [? Hr].
    rewrite length_take_le in * by lia.
    replace (8 * Z.of_nat len - 2)%Z with (6 + 8 * Z.of_nat (len - 1))%Z by lia.
    rewrite Z.pow_add_r by lia. change (2 ^ 6)%Z with 64%Z. nia.
Qed.

(** Only the bytes consumed matter. *)
Lemma decode_prefix (buf : bytes) (v : Z) (n : nat) (rest : bytes) :
  decode buf = Some (v, n) → decode (take n buf ++ rest) = Some (v, n).
Proof.
  destruct buf as [|b buf]; [done|]. rewrite decode_cons. cbv zeta.
  pose proof (header_len_le b) as Hle.
  set (len := Z.to_nat _) in *. destruct (decide _) as [Hd|]; [|done].
  intros [= <- <-]. replace len with (S (len - 1)) at 1 by lia.
  cbn [take app]. rewrite decode_cons. fold len. cbv zeta.
  rewrite length_app, length_take_le, decide_True by lia.
  by rewrite take_app_length' by (rewrite length_take_le; lia).
Qed.

Lemma varint_decode_small (buf : bytes) (v : Z) (n : nat) :
  decode buf = Some (v, n) → in_width 62 v ∧ 1 ≤ n ≤ 8 ∧ n ≤ length buf.
Proof.
  intros (Hv & Hn & Hin)%decode_Some. set_unfold in Hin.
  split_and!; try lia. split; [lia|]. eapply Z.lt_le_trans; [apply Hv|].
  apply Z.pow_le_mono_r; lia.
Qed.

Lemma encoded_len_le (buf : bytes) (v : Z) (n : nat) :
  decode buf = Some (v, n) → encoded_len v ≤ n.
Proof.
  intros ([Hv0 Hv] & _ & Hin)%decode_Some. unfold encoded_len. set_unfold in Hin.
  destruct Hin as [-> | [-> | [-> | [-> | []]]]]; repeat case_bool_decide; simpl in *; lia.
Qed.

(** ** Properties *)

(** C39: For every [u64] value, decoding its encoding followed by any bytes
    consumes exactly the encoding and gives the value modulo 2^62; so the round
    trip is exact precisely on the 62-bit values QUIC allows. *)
Theorem varint_roundtrip (v : Z) (rest : bytes) :
  in_width 64 v →
  decode (encode v ++ rest) = Some ((v mod 2 ^ 62)%Z, length (encode v)) ∧
  ((v mod 2 ^ 62)%Z = v ↔ in_width 62 v).
Proof.
  intros Hv. rewrite encode_length by done. split.
  - by apply decode_encode_mod.
  - unfold in_width in *. split; intros H.
    + rewrite <- H. apply Z.mod_pos_bound. lia.
    + apply Z.mod_small. lia.
Qed.

Lemma varint_roundtrip_witness :
  decode (encode 15293 ++ str "rest") = Some (15293%Z, 2).
Proof. exact (proj1 (varint_roundtrip 15293 (str "rest") ltac:(split; lia))). Defined.

(** [decode] fails exactly on an empty buffer or one shorter than the length
    its first byte announces; when it succeeds it consumes 1, 2, 4 or 8 bytes of
    the buffer, its value fits the bits those bytes carry, and the [u64]
    accumulator never lost a bit. *)
Theorem varint_decode_total (buf : bytes) :
  match decode buf with
  | None => ∀ first rest, buf = first :: rest →
      (length buf < 2 ^ Z.to_nat (Z.shiftr (b2z first) 6))
  | Some (v, n) =>
      n ∈ [1; 2; 4; 8] ∧ n ≤ length buf ∧ in_width (8 * Z.of_nat n - 2) v ∧
      ∃ q, from_be_bytes (take n buf) = (q * 2 ^ (8 * Z.of_nat n - 2) + v)%Z
  end.
Proof.
  destruct (decode buf) as [[v n]|] eqn:E.
  - destruct (decode_Some _ _ _ E) as (Hv & Hn & Hin). split_and!; try done.
    destruct buf as [|b buf]; [done|]. rewrite decode_cons in E. cbv zeta in E.
    destruct (header_len_cases b) as (Hq & Hb & _). pose proof (header_len_le b).
    set (q := Z.shiftr (b2z b) 6) in *. set (len := Z.to_nat (Z.shiftl 1 q)) in *.
    destruct (decide _) as [Hd|]; [|done]. injection E as <- <-.
    exists q. replace len with (S (len - 1)) at 1 by lia. cbn [take].
    rewrite from_be_bytes_cons, be_acc_spec, length_take_le by lia.
    replace (8 * Z.of_nat len - 2)%Z with (6 + 8 * Z.of_nat (len - 1))%Z by lia.
    rewrite Z.pow_add_r by lia. change (2 ^ 6)%Z with 64%Z.
    set (l := Z.land (b2z b) 0x3f) in *. rewrite Hb. lia.
  - intros b rest ->. rewrite decode_cons in E. cbv zeta in E.
    destruct (decide _) as [|Hd]; [done|]. cbn [length].
    destruct (header_len_cases b) as (Hq & _).
    rewrite Z.shiftl_1_l in Hd.
    rewrite <- (Z2Nat.id (Z.shiftr (b2z b) 6)), <- (Nat2Z.inj_pow 2), Nat2Z.id in Hd
      by lia. lia.
Qed.

(** The encoding is the shortest one: any byte string that decodes to [v]
    spends at least as many bytes as [encode v]. *)
Theorem varint_encode_minimal (buf : bytes) (v : Z) (n : nat) :
  decode buf = Some (v, n) → length (encode v) ≤ n.
Proof.
  intros H. destruct (varint_decode_small _ _ _ H) as ([? ?] & _ & _).
  rewrite encode_length by (unfold in_width; lia). by eapply encoded_len_le.
Qed.

Lemma varint_encode_minimal_witness :
  decode (str "@%") = Some (37%Z, 2) ∧ length (encode 37) ≤ 2.
Proof. split; [reflexivity | apply (varint_encode_minimal (str "@%")); reflexivity]. Defined.
