(* ===== verification/Dgram.v ===== *)
(** * src/dgram.rs: CONNECT-UDP HTTP/3 datagram framing

    [encode] and [decode] of [Quarter-Stream-ID | Context-ID | payload].  The two
    slices of [decode] are modelled with their bounds check, so that "never
    panics" is a theorem.  The theorems: the round trip, safety and exactness of
    [decode], and the size of the framing. *)

From S2P Require Import Prelude.
From S2P Require Import Varint.

Definition CONTEXT_ID_UDP : Z := 0.

(** [Vec::with_capacity(encoded_len(flow_id) + 1 + udp_payload.len())]. *)
Definition encode_capacity (flow_id : Z) (udp_payload : bytes) : nat :=
  Varint.encoded_len flow_id + 1 + length udp_payload.

Definition encode (flow_id : Z) (udp_payload : bytes) : bytes :=
  Varint.encode flow_id ++ Varint.encode CONTEXT_ID_UDP ++ udp_payload.

Record Parsed := mkParsed {
  flow_id : Z;
  context_id : Z;
  payload : bytes;
}.

Definition decode (buf : bytes) : panics (option Parsed) :=
  match Varint.decode buf with
  | None => Returns None
  | Some (fid, n1) =>
      rest ← slice_from buf n1;
      match Varint.decode rest with
      | None => Returns None
      | Some (cid, n2) =>
          pl ← slice_from buf (n1 + n2);
          Returns (Some (mkParsed fid cid pl))
      end
  end.

(** ** Lemmas *)

(** Both slices are in range. *)
Lemma decode_eq (buf : bytes) :
  decode buf = Returns (
    match Varint.decode buf with
    | None => None
    | Some (fid, n1) =>
        match Varint.decode (drop n1 buf) with
        | None => None
        | Some (cid, n2) => Some (mkParsed fid cid (drop n2 (drop n1 buf)))
        end
    end).
Proof.
  unfold decode. destruct (Varint.decode buf) as [[fid n1]|] eqn:E1; [|done].
  destruct (decode_Some _ _ _ E1) as (_ & Hn1 & _).
  rewrite slice_from_le by done. cbn.
  destruct (Varint.decode (drop n1 buf)) as [[cid n2]|] eqn:E2; [|done].
  destruct (decode_Some _ _ _ E2) as (_ & Hn2 & _). rewrite length_drop in Hn2.
  rewrite slice_from_le by lia. cbn. by rewrite drop_drop.
Qed.

Lemma decode_never_panics (buf : bytes) : ∃ o, decode buf = Returns o.
Proof. rewrite decode_eq. eauto. Qed.

Lemma decode_encode (fid : Z) (pl : bytes) :
  in_width 62 fid → decode (encode fid pl) = Returns (Some (mkParsed fid 0 pl)).
Proof.
  intros Hf. unfold in_width in Hf. rewrite decode_eq. unfold encode.
  rewrite decode_encode_mod, Z.mod_small by (unfold in_width; lia).
  rewrite drop_app_length' by (symmetry; rewrite encode_length; unfold in_width; lia).
  rewrite decode_encode_mod by done. cbn.
  done.
Qed.

Lemma encode_size (fid : Z) (pl : bytes) :
  in_width 64 fid → length (encode fid pl) = encode_capacity fid pl.
Proof.
  intros. unfold encode, encode_capacity.
  rewrite !length_app, !encode_length by done.
  change (encoded_len CONTEXT_ID_UDP) with 1. lia.
Qed.

(** The payload of a UDP datagram of the given flow. *)
Definition payload_for (fid : Z) (b : bytes) : option bytes :=
  match decode b with
  | Returns (Some p) =>
      if (flow_id p =? fid)%Z && (context_id p =? CONTEXT_ID_UDP)%Z then Some (payload p) else None
  | _ => None
  end.

Lemma payload_for_encode (fid fid' : Z) (data : bytes) :
  in_width 62 fid → payload_for fid' (encode fid data) =
  if (fid =? fid')%Z then Some data else None.
Proof. intros Hf. unfold payload_for. rewrite decode_encode by done. cbn. by destruct (fid =? fid')%Z. Qed.

(** ** Properties *)

(** A payload framed for a flow id that QUIC can carry is parsed back as
    that flow id, the UDP context and the same payload. *)
Theorem dgram_roundtrip (fid : Z) (pl : bytes) :
  in_width 62 fid →
  decode (encode fid pl) = Returns (Some (mkParsed fid CONTEXT_ID_UDP pl)).
Proof. apply decode_encode. Qed.

Lemma dgram_roundtrip_witness :
  decode (encode 7 (str "x")) = Returns (Some (mkParsed 7 CONTEXT_ID_UDP (str "x"))).
Proof. apply (dgram_roundtrip 7 (str "x")). split; lia. Defined.

(** [decode] never panics on any buffer.  When it accepts one, the payload
    is the rest of the buffer after two varints of at most eight bytes each, the
    ids are 62-bit, and framing the payload again for the same flow is never
    longer than the datagram received. *)
Theorem dgram_decode_safe (buf : bytes) :
  ∃ o, decode buf = Returns o ∧
  ∀ p, o = Some p →
    in_width 62 (flow_id p) ∧ in_width 62 (context_id p) ∧
    (∃ hdr, buf = hdr ++ payload p ∧ 2 ≤ length hdr ≤ 16) ∧
    length (encode (flow_id p) (payload p)) ≤ length buf.
Proof.
  eexists. split; [apply decode_eq|]. intros p.
  destruct (Varint.decode buf) as [[fid n1]|] eqn:E1; [|done].
  destruct (Varint.decode (drop n1 buf)) as [[cid n2]|] eqn:E2; [|done].
  intros [= <-]. cbn [flow_id context_id payload].
  pose proof (varint_decode_small _ _ _ E1) as (Hf & Hn1 & Hl1).
  pose proof (varint_decode_small _ _ _ E2) as (Hc & Hn2 & Hl2).
  pose proof (encoded_len_le _ _ _ E1) as Hm.
  rewrite length_drop in Hl2. rewrite !drop_drop.
  split_and!; [done|done| |].
  - exists (take (n1 + n2) buf). rewrite take_drop. split; [done|].
    rewrite length_take_le by lia. lia.
  - rewrite encode_size by (unfold in_width in *; lia). unfold encode_capacity.
    rewrite length_drop. lia.
Qed.

(** The framing costs exactly the capacity reserved for it: one context byte
    plus the varint of the flow id, between two and nine bytes in all, and two
    bytes only while the flow id is below 64. *)
Theorem dgram_overhead (fid : Z) (pl : bytes) :
  in_width 64 fid →
  length (encode fid pl) = encode_capacity fid pl ∧
  length pl + 2 ≤ length (encode fid pl) ≤ length pl + 9 ∧
  (length (encode fid pl) = length pl + 2 ↔ (fid < 64)%Z).
Proof.
  intros Hf. rewrite encode_size by done. unfold encode_capacity.
  pose proof (encoded_len_pos fid). unfold in_width in Hf. split_and!; [done|lia|lia|].
  unfold encoded_len. repeat case_bool_decide; lia.
Qed.

Lemma dgram_overhead_witness :
  length (encode 64 (str "abc")) = 6 ∧ ¬ (length (encode 64 (str "abc")) = 5).
Proof.
  split; [reflexivity|]. intros H.
  apply (proj2 (proj2 (dgram_overhead 64 (str "abc") ltac:(split; lia)))) in H.
  exact (Z.lt_irrefl 64 H).
Defined.
