(* ===== verification/RustStr.v ===== *)
(** * The string functions of Rust's standard library that the sources call

    A [&str], [String] or [&[u8]] is a list of bytes; a [&str] is one that
    [utf8_valid] accepts.  The functions work on bytes: every pattern the sources
    search for is ASCII, and UTF-8 continuation and lead bytes are never ASCII, so
    byte positions and character positions select the same substrings.

    Also here: [util.rs]'s [hex]. *)

From Stdlib Require Import Strings.Byte.
From S2P Require Import Prelude.

(** ** Searching and splitting *)

(** [s.find(c)] for an ASCII character. *)
Fixpoint find_byte (c : byte) (s : bytes) : option nat :=
  match s with
  | [] => None
  | x :: s => if bool_decide (x = c) then Some 0 else S <$> find_byte c s
  end.

(** [s.split_once(c)]: around the first occurrence. *)
Fixpoint split_once_byte (c : byte) (s : bytes) : option (bytes * bytes) :=
  match s with
  | [] => None
  | x :: s =>
      if bool_decide (x = c) then Some ([], s)
      else prod_map (cons x) id <$> split_once_byte c s
  end.

(** [s.rsplit_once(c)]: around the last occurrence. *)
Fixpoint rsplit_once_byte (c : byte) (s : bytes) : option (bytes * bytes) :=
  match s with
  | [] => None
  | x :: s =>
      match rsplit_once_byte c s with
      | Some (a, b) => Some (x :: a, b)
      | None => if bool_decide (x = c) then Some ([], s) else None
      end
  end.

Fixpoint strip_prefix (p s : bytes) : option bytes :=
  match p, s with
  | [], _ => Some s
  | x :: p, y :: s => if bool_decide (x = y) then strip_prefix p s else None
  | _ :: _, [] => None
  end.

Definition strip_suffix (p s : bytes) : option bytes :=
  reverse <$> strip_prefix (reverse p) (reverse s).

(** [s.split_once(p)] for a string pattern. *)
Fixpoint split_once (p s : bytes) : option (bytes * bytes) :=
  match strip_prefix p s with
  | Some rest => Some ([], rest)
  | None =>
      match s with
      | [] => None
      | x :: s => prod_map (cons x) id <$> split_once p s
      end
  end.

Definition starts_with (p s : bytes) : bool :=
  match strip_prefix p s with Some _ => true | None => false end.

Definition contains_byte (c : byte) (s : bytes) : bool := bool_decide (c ∈ s).

(** ** Characters *)

Definition in_range (lo hi : Z) (b : byte) : bool :=
  (lo <=? b2z b)%Z && (b2z b <=? hi)%Z.

Definition is_ascii_alphanumeric (b : byte) : bool :=
  in_range 0x30 0x39 b || in_range 0x41 0x5a b || in_range 0x61 0x7a b.

Definition byte_to_ascii_lowercase (b : byte) : byte :=
  if in_range 0x41 0x5a b then z2b (b2z b + 32) else b.

Definition to_ascii_lowercase (s : bytes) : bytes := map byte_to_ascii_lowercase s.

Definition eq_ignore_ascii_case (a b : bytes) : bool :=
  bool_decide (to_ascii_lowercase a = to_ascii_lowercase b).

(** [str::from_utf8(s).is_ok()], by the table of well-formed byte sequences. *)
Definition utf8_cont (b : byte) : bool := in_range 0x80 0xbf b.

Definition utf8_second3 (lead b : byte) : bool :=
  if in_range 0xe0 0xe0 lead then in_range 0xa0 0xbf b
  else if in_range 0xed 0xed lead then in_range 0x80 0x9f b
  else utf8_cont b.

Definition utf8_second4 (lead b : byte) : bool :=
  if in_range 0xf0 0xf0 lead then in_range 0x90 0xbf b
  else if in_range 0xf4 0xf4 lead then in_range 0x80 0x8f b
  else utf8_cont b.

Fixpoint utf8_valid (s : bytes) : bool :=
  match s with
  | [] => true
  | b0 :: s1 =>
      if in_range 0x00 0x7f b0 then utf8_valid s1
      else
        match s1 with
        | [] => false
        | b1 :: s2 =>
            if in_range 0xc2 0xdf b0 then utf8_cont b1 && utf8_valid s2
            else
              match s2 with
              | [] => false
              | b2 :: s3 =>
                  if in_range 0xe0 0xef b0 then
                    utf8_second3 b0 b1 && utf8_cont b2 && utf8_valid s3
                  else
                    match s3 with
                    | [] => false
                    | b3 :: s4 =>
                        in_range 0xf0 0xf4 b0 && utf8_second4 b0 b1 &&
                        utf8_cont b2 && utf8_cont b3 && utf8_valid s4
                    end
              end
        end
  end.

(** [String::from_utf8]. *)
Definition from_utf8 (s : bytes) : option bytes :=
  if utf8_valid s then Some s else None.

(** The Unicode [White_Space] characters by their UTF-8 length. *)
Definition ws1 (a : byte) : bool := in_range 0x09 0x0d a || in_range 0x20 0x20 a.
Definition ws2 (a b : byte) : bool :=
  in_range 0xc2 0xc2 a && (in_range 0x85 0x85 b || in_range 0xa0 0xa0 b).
Definition ws3 (a b c : byte) : bool :=
  (in_range 0xe1 0xe1 a && in_range 0x9a 0x9a b && in_range 0x80 0x80 c) ||
  (in_range 0xe2 0xe2 a && in_range 0x80 0x80 b &&
    (in_range 0x80 0x8a c || in_range 0xa8 0xa9 c || in_range 0xaf 0xaf c)) ||
  (in_range 0xe2 0xe2 a && in_range 0x81 0x81 b && in_range 0x9f 0x9f c) ||
  (in_range 0xe3 0xe3 a && in_range 0x80 0x80 b && in_range 0x80 0x80 c).

(** Drop whitespace characters, given how two and three bytes form one. *)
Fixpoint trim_with (w2 : byte → byte → bool) (w3 : byte → byte → byte → bool)
    (s : bytes) : bytes :=
  match s with
  | [] => []
  | b0 :: s1 =>
      if ws1 b0 then trim_with w2 w3 s1
      else
        match s1 with
        | [] => s
        | b1 :: s2 =>
            if w2 b0 b1 then trim_with w2 w3 s2
            else
              match s2 with
              | [] => s
              | b2 :: s3 => if w3 b0 b1 b2 then trim_with w2 w3 s3 else s
              end
        end
  end.

Definition trim_start (s : bytes) : bytes := trim_with ws2 ws3 s.
Definition trim_end (s : bytes) : bytes :=
  reverse (trim_with (λ b a, ws2 a b) (λ c b a, ws3 a b c) (reverse s)).
Definition trim (s : bytes) : bytes := trim_end (trim_start s).

(** [s.lines()]: split after each newline, dropping the newline and a carriage
    return before it; no empty last line. *)
Definition strip_cr (s : bytes) : bytes := default s (strip_suffix [x0d] s).

Fixpoint lines_go (acc s : bytes) : list bytes :=
  match s with
  | [] => match acc with [] => [] | _ => [acc] end
  | c :: s =>
      if bool_decide (c = x0a) then strip_cr acc :: lines_go [] s
      else lines_go (acc ++ [c]) s
  end.

Definition lines (s : bytes) : list bytes := lines_go [] s.

(** ** Numbers *)

Definition digit_of (b : byte) : option Z :=
  if in_range 0x30 0x39 b then Some (b2z b - 0x30)%Z else None.

Fixpoint parse_digits (acc : Z) (s : bytes) : option Z :=
  match s with
  | [] => Some acc
  | b :: s =>
      d ← digit_of b;
      v ← try_from 16 (acc * 10 + d);
      parse_digits v s
  end.

(** [s.parse::<u16>().ok()]: an optional plus sign and at least one digit. *)
Definition parse_u16 (s : bytes) : option Z :=
  match s with
  | [] => None
  | b :: rest =>
      let digits := if bool_decide (b = x2b) then rest else s in
      match digits with
      | [] => None
      | _ => parse_digits 0 digits
      end
  end.

Fixpoint dec_go (fuel : nat) (z : Z) (acc : bytes) : bytes :=
  match fuel with
  | O => acc
  | S fuel =>
      let acc := z2b (0x30 + z mod 10) :: acc in
      if (z <? 10)%Z then acc else dec_go fuel (z / 10) acc
  end.

(** [x.to_string()] for a [u16]: at most five digits. *)
Definition u16_to_string (z : Z) : bytes := dec_go 5 z [].

(** ** src/util.rs: [hex] *)

Definition hex_digit (d : Z) : byte :=
  if (d <? 10)%Z then z2b (0x30 + d) else z2b (0x61 + d - 10).

Definition hex_byte (b : byte) : bytes :=
  [hex_digit (b2z b / 16); hex_digit (b2z b mod 16)].

Definition hex (s : bytes) : bytes := s ≫= hex_byte.

(** ** Lemmas *)

Section Split.
Implicit Types (c : byte) (s a b p r : bytes).

Lemma split_once_byte_Some c s a b :
  split_once_byte c s = Some (a, b) ↔ s = a ++ c :: b ∧ c ∉ a.
Proof.
  revert a b. induction s as [|x s IH]; intros a b; simpl.
  - split; [done|]. intros [H _]. by destruct a.
  - case_bool_decide as Hx.
    + split.
      * intros [= <- <-]. split; [by rewrite Hx|set_solver].
      * intros [H Ha]. destruct a as [|y a]; simplify_eq/=; [done|set_solver].
    + rewrite fmap_Some. split.
      * intros ([a' b'] & [-> Ha]%IH & [= -> ->]). split; [done|set_solver].
      * intros [H Ha]. destruct a as [|y a]; simplify_eq/=.
        exists (a, b). split; [|done]. apply IH. split; [done|set_solver].
Qed.

Lemma split_once_byte_None c s : split_once_byte c s = None ↔ c ∉ s.
Proof.
  induction s as [|x s IH]; simpl; [set_solver|].
  case_bool_decide; [set_solver|]. rewrite fmap_None, IH. set_solver.
Qed.

Lemma split_once_byte_app c a b : c ∉ a → split_once_byte c (a ++ c :: b) = Some (a, b).
Proof. intros. by apply split_once_byte_Some. Qed.

Lemma rsplit_once_byte_None c s : rsplit_once_byte c s = None ↔ c ∉ s.
Proof.
  induction s as [|x s IH]; simpl; [set_solver|].
  destruct (rsplit_once_byte c s) as [[a b]|].
  - split; [done|]. rewrite elem_of_cons. intros H.
    assert (c ∉ s) as Hn by naive_solver. apply IH in Hn. done.
  - destruct IH as [IH _]. specialize (IH eq_refl). case_bool_decide; set_solver.
Qed.

Lemma rsplit_once_byte_Some c s a b :
  rsplit_once_byte c s = Some (a, b) ↔ s = a ++ c :: b ∧ c ∉ b.
Proof.
  revert a b. induction s as [|x s IH]; intros a b; simpl.
  - split; [done|]. intros [H _]. by destruct a.
  - destruct (rsplit_once_byte c s) as [[a' b']|] eqn:E.
    + destruct (proj1 (IH a' b') eq_refl) as [-> Hb']. split.
      * intros [= <- <-]. done.
      * intros [H Hb]. destruct a as [|y a]; simplify_eq/=; [set_solver|].
        assert (Some (a', b') = Some (a, b)) as [= -> ->] by (by apply IH). done.
    + apply rsplit_once_byte_None in E. case_bool_decide as Hx.
      * split; [intros [= <- <-]; by subst|].
        intros [H Hb]. destruct a as [|y a]; simplify_eq/=; [done|set_solver].
      * split; [done|]. intros [H Hb]. destruct a; simplify_eq/=; set_solver.
Qed.

Lemma find_byte_split c s :
  find_byte c s = (λ ab, length ab.1) <$> split_once_byte c s.
Proof.
  induction s as [|x s IH]; simpl; [done|]. case_bool_decide; [done|].
  rewrite IH. by destruct (split_once_byte c s) as [[??]|].
Qed.

Lemma find_byte_Some c s i :
  find_byte c s = Some i ↔ ∃ a b, s = a ++ c :: b ∧ length a = i ∧ c ∉ a.
Proof.
  rewrite find_byte_split, fmap_Some. split.
  - intros ([a b] & [-> Ha]%split_once_byte_Some & ->). eauto.
  - intros (a & b & -> & <- & Ha). exists (a, b). by rewrite split_once_byte_app.
Qed.

Lemma find_byte_None c s : find_byte c s = None ↔ c ∉ s.
Proof. by rewrite find_byte_split, fmap_None, split_once_byte_None. Qed.

Lemma strip_prefix_Some p s r : strip_prefix p s = Some r ↔ s = p ++ r.
Proof.
  revert s. induction p as [|x p IH]; intros s; simpl; [naive_solver|].
  destruct s as [|y s]; [naive_solver|]. case_bool_decide as Hx.
  - rewrite IH. naive_solver.
  - naive_solver.
Qed.

Lemma strip_prefix_app p r : strip_prefix p (p ++ r) = Some r.
Proof. by apply strip_prefix_Some. Qed.

Lemma strip_suffix_Some p s r : strip_suffix p s = Some r ↔ s = r ++ p.
Proof.
  unfold strip_suffix. rewrite fmap_Some. split.
  - intros (r' & H%strip_prefix_Some & ->).
    apply (f_equal reverse) in H. rewrite reverse_involutive, reverse_app in H.
    by rewrite reverse_involutive in H.
  - intros ->. exists (reverse r). rewrite reverse_app, strip_prefix_app.
    by rewrite reverse_involutive.
Qed.

Lemma strip_suffix_app p r : strip_suffix p (r ++ p) = Some r.
Proof. by apply strip_suffix_Some. Qed.

(** The pattern occurs in the string. *)
Definition occurs p s : Prop := ∃ a b, s = a ++ p ++ b.

Lemma split_once_Some p s a b : split_once p s = Some (a, b) → s = a ++ p ++ b.
Proof.
  revert a b. induction s as [|x s IH]; intros a b; simpl;
    destruct (strip_prefix p _) eqn:E; try done.
  - intros [= <- <-]. by apply strip_prefix_Some in E.
  - intros [= <- <-]. by apply strip_prefix_Some in E.
  - rewrite fmap_Some. intros ([a' b'] & H & [= -> ->]). simpl. f_equal. by apply IH.
Qed.

Lemma split_once_None p s : split_once p s = None ↔ ¬ occurs p s.
Proof.
  unfold occurs.
  induction s as [|x s IH]; simpl; destruct (strip_prefix p _) as [r|] eqn:E.
  - apply strip_prefix_Some in E. split; [done|]. intros H. destruct H.
    by exists [], r.
  - split; [|done]. intros _ (a & b & H). destruct a; [|done]. simpl in H.
    by rewrite H, strip_prefix_app in E.
  - apply strip_prefix_Some in E. split; [done|]. intros H. destruct H.
    by exists [], r.
  - rewrite fmap_None, IH. split.
    + intros H (a & b & Ha). destruct a as [|y a].
      * simpl in Ha. by rewrite Ha, strip_prefix_app in E.
      * simplify_eq/=. apply H. eauto.
    + intros H (a & b & ->). apply H. by exists (x :: a), b.
Qed.

Lemma occurs_nil p : p ≠ [] → ¬ occurs p [].
Proof. intros Hp (a & b & H). by destruct a, p. Qed.

Lemma split_once_first p s a b :
  p ≠ [] → split_once p s = Some (a, b) → ¬ occurs p a.
Proof.
  intros Hp. revert a b. induction s as [|x s IH]; intros a b; simpl;
    destruct (strip_prefix p _) as [r|] eqn:E; try done.
  - intros [= <- <-]. by apply occurs_nil.
  - intros [= <- <-]. by apply occurs_nil.
  - rewrite fmap_Some. intros ([a' b'] & H & [= -> ->]) ([|y u] & v & Ho).
    + apply split_once_Some in H. subst s. simpl in Ho.
      rewrite app_comm_cons, Ho, <- app_assoc, strip_prefix_app in E. done.
    + simplify_eq/=. eapply IH; [done|]. by exists u, v.
Qed.
End Split.

Lemma to_lower_idemp (b : byte) :
  byte_to_ascii_lowercase (byte_to_ascii_lowercase b) = byte_to_ascii_lowercase b.
Proof. destruct b; reflexivity. Qed.

Lemma to_ascii_lowercase_idemp (s : bytes) :
  to_ascii_lowercase (to_ascii_lowercase s) = to_ascii_lowercase s.
Proof.
  unfold to_ascii_lowercase. induction s; simpl; f_equal; [apply to_lower_idemp|done].
Qed.

#[global] Hint Rewrite to_ascii_lowercase_idemp : rust.

(** ** Lemmas on ASCII text, trimming and lines *)

Definition is_ascii (b : byte) : bool := in_range 0x00 0x7f b.
Definition is_graphic (b : byte) : bool := in_range 0x21 0x7e b.

Lemma is_graphic_ascii (b : byte) : is_graphic b = true → is_ascii b = true.
Proof. unfold is_graphic, is_ascii, in_range. lia. Qed.

Lemma utf8_valid_ascii_app (a s : bytes) :
  forallb is_ascii a = true → utf8_valid (a ++ s) = utf8_valid s.
Proof.
  induction a as [|b a IH]; simpl; [done|]. intros [Hb Ha]%andb_true_iff.
  unfold is_ascii in Hb. rewrite Hb. auto.
Qed.

Lemma utf8_valid_ascii (a : bytes) : forallb is_ascii a = true → utf8_valid a = true.
Proof. intros Ha. rewrite <- (app_nil_r a). by rewrite utf8_valid_ascii_app. Qed.

Lemma ascii_no_cont (c : byte) :
  is_ascii c = true →
  utf8_cont c = false ∧ (∀ x, utf8_second3 x c = false) ∧ (∀ x, utf8_second4 x c = false).
Proof.
  unfold is_ascii, utf8_second3, utf8_second4, utf8_cont, in_range. intros H.
  split_and!; intros; repeat case_match; lia.
Qed.

(** A text can be cut before and after an ASCII character. *)
Lemma utf8_valid_cut (a b : bytes) (c : byte) :
  is_ascii c = true → utf8_valid (a ++ c :: b) = true → utf8_valid a = true ∧ utf8_valid b = true.
Proof.
  intros Hc. destruct (ascii_no_cont c Hc) as (Hn & Hn3 & Hn4).
  remember (length a) as n eqn:E. revert a E. induction (lt_wf n) as [n _ IH]. intros a ->.
  assert (∀ a', length a' < length a → utf8_valid (a' ++ c :: b) = true →
    utf8_valid a' = true ∧ utf8_valid b = true) as Hrec by eauto. clear IH.
  destruct a as [|x0 a]; [cbn; unfold is_ascii in Hc; by rewrite Hc|].
  cbn [app utf8_valid]. destruct (in_range 0x00 0x7f x0); [apply Hrec; simpl; lia|].
  destruct a as [|x1 a]; cbn [app].
  { rewrite Hn, Hn3, Hn4, !andb_false_r. cbn. by repeat case_match. }
  destruct (in_range 0xc2 0xdf x0).
  { intros [-> H]%andb_true_iff. apply Hrec in H; [done|simpl; lia]. }
  destruct a as [|x2 a]; cbn [app].
  { rewrite Hn, !andb_false_r. cbn. by repeat case_match. }
  destruct (in_range 0xe0 0xef x0).
  { intros [-> H]%andb_true_iff. apply Hrec in H; [done|simpl; lia]. }
  destruct a as [|x3 a]; cbn [app]; [by rewrite Hn, !andb_false_r|].
  intros [-> H]%andb_true_iff. apply Hrec in H; [done|simpl; lia].
Qed.

(** A byte that is not whitespace in itself and never starts a longer one. *)
Lemma trim_with_stop w2 w3 (b : byte) (s : bytes) :
  ws1 b = false → (∀ c, w2 b c = false) → (∀ c d, w3 b c d = false) →
  trim_with w2 w3 (b :: s) = b :: s.
Proof.
  intros H1 H2 H3. cbn. rewrite H1. destruct s as [|c [|d s]]; [done| |];
    rewrite H2; [done|]. by rewrite H3.
Qed.

Lemma is_graphic_not_ws (b : byte) :
  is_graphic b = true →
  ws1 b = false ∧ (∀ c, ws2 b c = false) ∧ (∀ c d, ws3 b c d = false) ∧
  (∀ c, ws2 c b = false) ∧ (∀ c d, ws3 c d b = false).
Proof.
  unfold is_graphic, ws1, ws2, ws3, in_range. intros H. split_and!; intros; lia.
Qed.

Lemma trim_graphic (b1 b2 : byte) (s : bytes) :
  is_graphic b1 = true → is_graphic b2 = true →
  head s = Some b1 → last s = Some b2 → trim s = s.
Proof.
  intros H1 H2 Hh Hl. destruct s as [|x s]; [done|]. injection Hh as ->.
  destruct (is_graphic_not_ws _ H1) as (? & ? & ? & _).
  destruct (is_graphic_not_ws _ H2) as (? & _ & _ & ? & ?).
  unfold trim, trim_start. rewrite trim_with_stop by done. unfold trim_end.
  apply last_Some in Hl as [s' ->]. rewrite reverse_snoc.
  rewrite trim_with_stop by done.
  by rewrite reverse_cons, reverse_involutive.
Qed.

Lemma trim_all_graphic (s : bytes) :
  s ≠ [] → forallb is_graphic s = true → trim s = s.
Proof.
  intros Hs Hg. rewrite forallb_forall in Hg.
  destruct (head s) as [b1|] eqn:E1; [|by destruct s].
  destruct (last s) as [b2|] eqn:E2; [|by apply last_None in E2].
  apply (trim_graphic b1 b2); try done; apply Hg.
  - destruct s; simplify_eq/=. by left.
  - apply last_Some in E2 as [l ->]. apply in_or_app. right. by left.
Qed.

Lemma trim_with_ws w2 w3 (ws s : bytes) :
  forallb ws1 ws = true → trim_with w2 w3 (ws ++ s) = trim_with w2 w3 s.
Proof. induction ws as [|b ws IH]; cbn; [done|]. intros [-> Hb]%andb_true_iff. auto. Qed.

(** ASCII whitespace around a text without any. *)
Lemma trim_padded (ws1' ws2' s : bytes) :
  forallb ws1 ws1' = true → forallb ws1 ws2' = true → forallb is_graphic s = true →
  trim (ws1' ++ s ++ ws2') = s.
Proof.
  intros H1 H2 Hs. destruct (decide (s = [])) as [->|Hne].
  { unfold trim, trim_start. rewrite app_nil_l, trim_with_ws by done.
    rewrite <- (app_nil_r ws2'), trim_with_ws by done. done. }
  pose proof (trim_all_graphic s Hne Hs) as Ht. unfold trim, trim_start, trim_end in *.
  rewrite trim_with_ws by done. destruct s as [|b s]; [done|].
  assert (is_graphic b = true) as Hb by (cbn in Hs; by apply andb_true_iff in Hs as [? _]).
  destruct (is_graphic_not_ws b Hb) as (? & ? & ? & _).
  rewrite trim_with_stop in Ht by done. rewrite <- app_comm_cons, trim_with_stop by done.
  rewrite app_comm_cons, reverse_app, trim_with_ws; [done|].
  rewrite forallb_forall in *. intros x Hx. apply H2.
  by apply list_elem_of_In, elem_of_reverse, list_elem_of_In.
Qed.

Lemma strip_cr_id (l : bytes) : (x0d ∉ l) → strip_cr l = l.
Proof.
  intros Hl. unfold strip_cr. destruct (strip_suffix [x0d] l) as [r|] eqn:E; [|done].
  apply strip_suffix_Some in E as ->. set_solver.
Qed.

Lemma lines_go_line (acc l s : bytes) :
  (x0a ∉ l) → lines_go acc (l ++ x0a :: s) = strip_cr (acc ++ l) :: lines_go [] s.
Proof.
  revert acc. induction l as [|c l IH]; intros acc Hl; cbn.
  - by rewrite app_nil_r.
  - rewrite bool_decide_false by set_solver. rewrite IH by set_solver.
    by rewrite <- app_assoc.
Qed.

(** A line without line terminators comes back as it was written. *)
Lemma lines_line (l s : bytes) :
  (x0a ∉ l) → (x0d ∉ l) → lines (l ++ x0a :: s) = l :: lines s.
Proof. intros. unfold lines. by rewrite lines_go_line, strip_cr_id. Qed.

Lemma graphic_no_eol (l : bytes) :
  forallb is_graphic l = true → (x0a ∉ l) ∧ (x0d ∉ l).
Proof.
  rewrite forallb_forall. intros H.
  split; intros Hin%list_elem_of_In%H; by vm_compute in Hin.
Qed.

(** Printing and parsing a 16-bit number. *)
Lemma parse_digits_snoc (acc v d : Z) (s : bytes) (b : byte) :
  parse_digits acc s = Some v → digit_of b = Some d → in_width 16 (v * 10 + d) →
  parse_digits acc (s ++ [b]) = Some (v * 10 + d)%Z.
Proof.
  revert acc. induction s as [|c s IH]; intros acc.
  - intros [= ->] Hd Hw. cbn. rewrite Hd. cbn. by rewrite try_from_in_width.
  - cbn [app parse_digits]. destruct (digit_of c) as [e|]; [|done]. cbn [mbind option_bind].
    destruct (try_from 16 _) as [a|]; [|done]. apply IH.
Qed.

Lemma digit_of_digit (d : Z) :
  (0 ≤ d < 10)%Z → digit_of (z2b (0x30 + d)) = Some d ∧ z2b (0x30 + d) ≠ x2b.
Proof.
  intros Hd. assert (d ∈ seqZ 0 10) as Hin by (apply elem_of_seqZ; lia).
  apply (proj1 (Forall_forall (λ d, digit_of (z2b (0x30 + d)) = Some d ∧ z2b (0x30 + d) ≠ x2b)
    (seqZ 0 10))); [|done].
  repeat (constructor; [split; [reflexivity|discriminate]|]). constructor.
Qed.

Lemma dec_go_digits (fuel : nat) (z : Z) (acc : bytes) :
  in_width 16 z → (z < 10 ^ Z.of_nat fuel)%Z → 0 < fuel →
  ∃ b ds, dec_go fuel z acc = (b :: ds) ++ acc ∧ b ≠ x2b ∧ parse_digits 0 (b :: ds) = Some z.
Proof.
  revert z acc. induction fuel as [|fuel IH]; intros z acc Hw Hz Hf; [lia|]. unfold in_width in Hw.
  assert (0 ≤ z mod 10 < 10)%Z as Hm by (apply Z.mod_pos_bound; lia).
  destruct (digit_of_digit (z mod 10) Hm) as [Hd Hp]. cbn [dec_go].
  destruct (Z.ltb_spec z 10) as [Hlt|Hge].
  - exists (z2b (0x30 + z mod 10)), []. split; [done|]. split; [done|].
    cbn [parse_digits]. rewrite Hd. cbn [mbind option_bind]. rewrite Z.mod_small by lia.
    by rewrite try_from_in_width by (unfold in_width; lia).
  - pose proof (Z.div_mod z 10 ltac:(lia)) as Hdm.
    destruct (IH (z / 10)%Z (z2b (0x30 + z mod 10) :: acc)) as (b & ds & -> & Hb & Hv).
    + unfold in_width. lia.
    + rewrite Nat2Z.inj_succ, Z.pow_succ_r in Hz by lia. lia.
    + destruct fuel; [simpl in Hz; lia|lia].
    + exists b, (ds ++ [z2b (0x30 + z mod 10)]). split; [cbn; by rewrite <- app_assoc|].
      split; [done|]. rewrite app_comm_cons. rewrite (parse_digits_snoc _ _ (z mod 10) _ _ Hv Hd);
        [f_equal; lia|unfold in_width; lia].
Qed.

Lemma parse_u16_to_string (z : Z) : in_width 16 z → parse_u16 (u16_to_string z) = Some z.
Proof.
  intros Hz. destruct (dec_go_digits 5 z [] Hz) as (b & ds & E & Hb & Hv); [unfold in_width in Hz; lia..|].
  unfold u16_to_string. rewrite E, app_nil_r. cbn [parse_u16]. by rewrite bool_decide_false.
Qed.

Lemma parse_digits_ascii (acc v : Z) (s : bytes) :
  parse_digits acc s = Some v → forallb is_ascii s = true.
Proof.
  revert acc. induction s as [|b s IH]; intros acc; [done|]. cbn [parse_digits forallb].
  unfold digit_of. destruct (in_range 0x30 0x39 b) eqn:E; [|done]. cbn [mbind option_bind].
  destruct (try_from 16 _); [|done]. intros H%IH. rewrite H, andb_true_r.
  unfold is_ascii, in_range in *. lia.
Qed.

Lemma u16_to_string_utf8 (z : Z) : in_width 16 z → utf8_valid (u16_to_string z) = true.
Proof.
  intros Hz. apply utf8_valid_ascii.
  destruct (dec_go_digits 5 z [] Hz) as (b & ds & E & _ & Hv); [unfold in_width in Hz; lia..|].
  unfold u16_to_string. rewrite E, app_nil_r. by eapply parse_digits_ascii.
Qed.
