(* ===== verification/Net.v ===== *)
(** * Addresses and durations of Rust's standard library

    [std::net::IpAddr] and [SocketAddr] with the methods the sources call, and
    [std::time::Duration] as a number of nanoseconds. *)

From S2P Require Import Prelude.

Inductive IpAddr := IpV4 (a : Z) | IpV6 (a : Z).

Inductive SocketAddr :=
| SockV4 (ip port : Z)
| SockV6 (ip port flowinfo scope_id : Z).

#[global] Instance IpAddr_eq_dec : EqDecision IpAddr.
Proof. solve_decision. Defined.
#[global] Instance SocketAddr_eq_dec : EqDecision SocketAddr.
Proof. solve_decision. Defined.

#[global] Program Instance SocketAddr_countable : Countable SocketAddr :=
  inj_countable'
    (λ a, match a with
          | SockV4 i p => inl (i, p)
          | SockV6 i p f s => inr (i, p, f, s)
          end)
    (λ x, match x with
          | inl (i, p) => SockV4 i p
          | inr (i, p, f, s) => SockV6 i p f s
          end) _.
Next Obligation. by intros []. Qed.

Definition addr_ip (a : SocketAddr) : IpAddr :=
  match a with SockV4 i _ => IpV4 i | SockV6 i _ _ _ => IpV6 i end.
Definition addr_port (a : SocketAddr) : Z :=
  match a with SockV4 _ p => p | SockV6 _ p _ _ => p end.

Definition is_ipv4 (a : SocketAddr) : bool :=
  match a with SockV4 _ _ => true | SockV6 _ _ _ _ => false end.
Definition ip_is_ipv4 (a : IpAddr) : bool :=
  match a with IpV4 _ => true | IpV6 _ => false end.

(** [SocketAddr::new]. *)
Definition sock_new (ip : IpAddr) (port : Z) : SocketAddr :=
  match ip with IpV4 i => SockV4 i port | IpV6 i => SockV6 i port 0 0 end.

(** [IpAddr::to_canonical]: an IPv4-mapped IPv6 address becomes IPv4. *)
Definition to_canonical (ip : IpAddr) : IpAddr :=
  match ip with
  | IpV4 i => IpV4 i
  | IpV6 i =>
      if (Z.shiftr i 32 =? 0xffff)%Z then IpV4 (Z.land i 0xffffffff) else IpV6 i
  end.

(** "0.0.0.0:0" and "[::]:0". *)
Definition unspecified (v4 : bool) : SocketAddr :=
  if v4 then SockV4 0 0 else SockV6 0 0 0 0.

Definition from_secs (s : Z) : Z := (s * 1000000000)%Z.
Definition from_millis (ms : Z) : Z := (ms * 1000000)%Z.
