(* ===== verification/Endpoint.v ===== *)
(** * src/endpoint.rs: the proxy endpoint

    [Endpoint::parse] and [Endpoint::matches].  The theorems: the exact language
    [parse] accepts and what it returns, and that matching compares the path
    component only, query strings being ignored on both sides. *)

From Stdlib Require Import Strings.Byte.
From S2P Require Import Prelude.
From S2P Require Import RustStr.

Inductive EndpointError := NotAbsolute | NoAuthority.

Record Endpoint := mkEndpoint {
  authority : bytes;
  path : bytes;
}.

#[global] Instance Endpoint_eq_dec : EqDecision Endpoint.
Proof. solve_decision. Defined.

Definition path_only (p : bytes) : bytes :=
  match split_once_byte x3f p with
  | Some (path, _) => path
  | None => p
  end.

Definition parse (raw : bytes) : result EndpointError Endpoint :=
  after_scheme ← ok_or NotAbsolute (snd <$> split_once (str "://") raw);
  let '(authority, path) :=
    match find_byte x2f after_scheme with
    | Some idx => (take idx after_scheme, drop idx after_scheme)
    | None => (after_scheme, str "/")
    end in
  if bool_decide (authority = []) then Err NoAuthority
  else Ok (mkEndpoint authority path).

Definition matches (e : Endpoint) (p : bytes) : bool :=
  bool_decide (path_only p = path_only (path e)).

(** ** Lemmas *)

(** "://" cannot straddle the end of a scheme that does not contain it. *)
Lemma split_once_scheme (scheme rest : bytes) :
  ¬ occurs (str "://") scheme →
  split_once (str "://") (scheme ++ str "://" ++ rest) = Some (scheme, rest).
Proof.
  induction scheme as [|x t IH]; intros Hn; [done|].
  cbn [app split_once].
  destruct (strip_prefix _ _) as [r|] eqn:E.
  - apply strip_prefix_Some in E. destruct t as [|y [|z t]]; try done.
    destruct Hn. exists [], t. simpl in *. congruence.
  - rewrite IH; [done|]. intros (a & b & ->). apply Hn. by exists (x :: a), b.
Qed.

Lemma path_only_spec (p base : bytes) :
  path_only p = base ↔
  (x3f ∉ base) ∧ (p = base ∨ ∃ query, p = base ++ x3f :: query).
Proof.
  unfold path_only. destruct (split_once_byte x3f p) as [[a b]|] eqn:E.
  - apply split_once_byte_Some in E as [-> Ha]. split.
    + intros ->. eauto.
    + intros [Hb [<- | [q Hq]]]; [set_solver|].
      pose proof (split_once_byte_app x3f a b Ha) as H1.
      rewrite Hq, split_once_byte_app in H1 by done. congruence.
  - apply split_once_byte_None in E. split; [intros <-; eauto|].
    intros [Hb [<- | [q ->]]]; [done|set_solver].
Qed.

(** The two ways a URI's tail gives the request path. *)
Definition path_of_tail (tail p : bytes) : Prop :=
  (tail = [] ∧ p = str "/") ∨ (tail = p ∧ ∃ t, p = x2f :: t).

Lemma parse_Ok (raw : bytes) (e : Endpoint) :
  parse raw = Ok e ↔
  ∃ scheme tail,
    raw = scheme ++ str "://" ++ authority e ++ tail ∧
    ¬ occurs (str "://") scheme ∧
    authority e ≠ [] ∧ (x2f ∉ authority e) ∧ path_of_tail tail (path e).
Proof.
  unfold parse, path_of_tail. split.
  - intros H. apply result_bind_Ok in H as (rest & Hs & H).
    destruct (split_once _ raw) as [[scheme rest']|] eqn:E; simplify_eq/=.
    pose proof (split_once_first (str "://") _ _ _ ltac:(discriminate) E) as Hf.
    apply split_once_Some in E as ->. exists scheme.
    destruct (find_byte x2f rest) as [idx|] eqn:F.
    + apply find_byte_Some in F as (a & b & -> & <- & Ha).
      rewrite take_app_length, drop_app_length in H.
      case_bool_decide; simplify_eq/=. exists (x2f :: b). eauto 10.
    + apply find_byte_None in F. case_bool_decide; simplify_eq/=.
      exists []. rewrite app_nil_r. eauto 10.
  - intros (scheme & tail & -> & Hn & Ha & Hs & Ht).
    rewrite split_once_scheme by done. cbn.
    destruct e as [a p]. simpl in *. destruct Ht as [[-> ->] | [-> [t ->]]].
    + rewrite app_nil_r. rewrite (proj2 (find_byte_None _ _)) by done.
      by rewrite bool_decide_false.
    + rewrite (proj2 (find_byte_Some x2f (a ++ x2f :: t) (length a))) by eauto 6.
      by rewrite take_app_length, drop_app_length, bool_decide_false.
Qed.

(** ** Properties *)

(** [Endpoint::parse] accepts exactly the strings
    [scheme "://" authority tail] whose scheme part has no "://" and whose
    authority is non-empty and free of slashes; it returns that authority, and as
    path the tail, which starts with a slash, or "/" when the tail is empty. *)
Theorem endpoint_parse_iff (raw : bytes) (e : Endpoint) :
  parse raw = Ok e ↔
  ∃ scheme tail,
    raw = scheme ++ str "://" ++ authority e ++ tail ∧
    ¬ occurs (str "://") scheme ∧
    authority e ≠ [] ∧ (x2f ∉ authority e) ∧ path_of_tail tail (path e).
Proof. apply parse_Ok. Qed.

(** A request path matches an endpoint exactly when both have the same path
    component: equal bytes up to the first question mark, whatever query follows
    on either side. *)
Theorem endpoint_matches_iff (e : Endpoint) (p : bytes) :
  matches e p = true ↔
  ∃ base, (x3f ∉ base) ∧
    (p = base ∨ ∃ query, p = base ++ x3f :: query) ∧
    (path e = base ∨ ∃ query, path e = base ++ x3f :: query).
Proof.
  unfold matches. rewrite bool_decide_eq_true. split.
  - intros H. exists (path_only p).
    pose proof (proj1 (path_only_spec p _) eq_refl) as [? ?].
    symmetry in H. apply path_only_spec in H as [_ ?]. done.
  - intros (base & Hb & Hp & He).
    rewrite (proj2 (path_only_spec p base)) by done.
    by rewrite (proj2 (path_only_spec (path e) base)) by done.
Qed.
