(* ===== verification/Rules.v ===== *)
(** * src/rules.rs: the endpoint to target rule table

    The rule table, [RuleTable::load] and the queries on it.  The file system,
    serde_json and the resolver are parameters: [read_to_string], [from_str]
    (which yields the fields present in each JSON object) and [to_socket_addrs].

    The theorems: what a successful load contains and when it succeeds, first
    match semantics of [match_target], that the query string cannot influence the
    decision, and that [allowed_sni_hosts] is the duplicate-free set of the rules'
    lower-cased hosts. *)

From Stdlib Require Import Strings.Byte.
From S2P Require Import Prelude.
From S2P Require Import RustStr.
From S2P Require Import Net.
From S2P Require Import Endpoint.

Definition host_of_authority (authority : bytes) : bytes :=
  let unbracketed :=
    match rsplit_once_byte x3a authority with
    | Some (h, _) => h
    | None => authority
    end in
  match strip_prefix [x5b] authority with
  | Some rest =>
      match split_once_byte x5d rest with
      | Some (host, _) => host
      | None => unbracketed
      end
  | None => unbracketed
  end.

Definition default_idle_secs : Z := 35.

Record RuleSpec := mkRuleSpec {
  spec_endpoint : bytes;
  spec_target : bytes;
  spec_transparent : bool;
  spec_fwmark : option Z;
  spec_idle_timeout : Z;
}.

(** The fields a JSON object of the table may carry, and the defaults of the
    [serde(default)] attributes. *)
Record RuleFields := mkRuleFields {
  f_endpoint : bytes;
  f_target : bytes;
  f_transparent : option bool;
  f_fwmark : option Z;
  f_idle_timeout : option Z;
}.

Definition spec_of_fields (f : RuleFields) : RuleSpec := {|
  spec_endpoint := f_endpoint f;
  spec_target := f_target f;
  spec_transparent := default false (f_transparent f);
  spec_fwmark := f_fwmark f;
  spec_idle_timeout := default default_idle_secs (f_idle_timeout f);
|}.

Record Rule := mkRule {
  endpoint : Endpoint;
  target : SocketAddr;
  transparent : bool;
  fwmark : option Z;
  idle_timeout : option Z;
}.

Record RuleMatch := mkRuleMatch {
  m_target : SocketAddr;
  m_transparent : bool;
  m_fwmark : option Z;
  m_idle_timeout : option Z;
}.

Record RuleTable := mkRuleTable { rules : list Rule }.

Section Load.
Context {IoError JsonError PathBuf : Type}.
Context (read_to_string : PathBuf → result IoError bytes).
Context (from_str : bytes → result JsonError (list RuleFields)).
Context (to_socket_addrs : bytes → result IoError (list SocketAddr)).

Inductive LoadError :=
| ReadingTable (e : IoError)
| ParsingTable (e : JsonError)
| EmptyTable
| BadEndpoint (e : EndpointError)
| Resolving (e : IoError)
| NoAddresses.

Definition resolve (s : bytes) : result LoadError SocketAddr :=
  addrs ← map_err Resolving (to_socket_addrs s);
  ok_or NoAddresses (head addrs).

Definition load_rule (spec : RuleSpec) : result LoadError Rule :=
  endpoint ← map_err BadEndpoint (parse (spec_endpoint spec));
  target ← resolve (spec_target spec);
  Ok {|
    endpoint := endpoint;
    target := target;
    transparent := spec_transparent spec;
    fwmark := spec_fwmark spec;
    idle_timeout :=
      if bool_decide (spec_idle_timeout spec ≠ 0%Z)
      then Some (from_secs (spec_idle_timeout spec)) else None;
  |}.

Fixpoint load_rules (specs : list RuleSpec) : result LoadError (list Rule) :=
  match specs with
  | [] => Ok []
  | spec :: specs =>
      rule ← load_rule spec;
      rest ← load_rules specs;
      Ok (rule :: rest)
  end.

Definition load (path : PathBuf) : result LoadError RuleTable :=
  data ← map_err ReadingTable (read_to_string path);
  fields ← map_err ParsingTable (from_str data);
  let specs := map spec_of_fields fields in
  if bool_decide (specs = []) then Err EmptyTable
  else rs ← load_rules specs; Ok (mkRuleTable rs).
End Load.
Arguments LoadError : clear implicits.

Definition rule_matches (authority path : bytes) (r : Rule) : bool :=
  bool_decide (Endpoint.authority (endpoint r) = authority) &&
  matches (endpoint r) path.

Definition match_of (r : Rule) : RuleMatch :=
  mkRuleMatch (target r) (transparent r) (fwmark r) (idle_timeout r).

Definition match_target (t : RuleTable) (authority path : bytes) : option RuleMatch :=
  match_of <$> List.find (rule_matches authority path) (rules t).

Definition len (t : RuleTable) : nat := length (rules t).

(** One turn of the loop of [allowed_sni_hosts]. *)
Definition push_host (hosts : list bytes) (r : Rule) : list bytes :=
  let host := to_ascii_lowercase (host_of_authority (Endpoint.authority (endpoint r))) in
  if bool_decide (host ∈ hosts) then hosts else hosts ++ [host].

Definition allowed_sni_hosts (t : RuleTable) : list bytes :=
  fold_left push_host (rules t) [].

Definition privileged (r : Rule) : bool :=
  transparent r || bool_decide (fwmark r ≠ None).

Definition privileged_count (t : RuleTable) : nat :=
  length (List.filter privileged (rules t)).

(** ** Lemmas *)

Section LoadFacts.
Context {IoError JsonError PathBuf : Type}.
Context (read_to_string : PathBuf → result IoError bytes).
Context (from_str : bytes → result JsonError (list RuleFields)).
Context (to_socket_addrs : bytes → result IoError (list SocketAddr)).
Local Abbreviation load := (load (JsonError:=JsonError) read_to_string from_str to_socket_addrs).
Local Abbreviation load_rule := (load_rule (JsonError:=JsonError) to_socket_addrs).
Local Abbreviation load_rules := (load_rules (JsonError:=JsonError) to_socket_addrs).

(** The rule a JSON object stands for: its endpoint parsed, the first address
    its target resolves to, and the documented defaults (35 s of idle time, 0
    disabling the timeout). *)
Definition rule_for (f : RuleFields) (r : Rule) : Prop :=
  parse (f_endpoint f) = Ok (endpoint r) ∧
  (∃ more, to_socket_addrs (f_target f) = Ok (target r :: more)) ∧
  transparent r = default false (f_transparent f) ∧
  fwmark r = f_fwmark f ∧
  idle_timeout r =
    match f_idle_timeout f with
    | None => Some (from_secs 35)
    | Some s => if decide (s = 0%Z) then None else Some (from_secs s)
    end.

Lemma load_rule_iff (f : RuleFields) (r : Rule) :
  load_rule (spec_of_fields f) = Ok r ↔ rule_for f r.
Proof.
  unfold Rules.load_rule, resolve, rule_for. cbn.
  destruct (parse (f_endpoint f)) as [e|]; cbn; [|naive_solver].
  destruct (to_socket_addrs (f_target f)) as [[|a more]|]; cbn; [naive_solver| |naive_solver].
  destruct r as [e' t' tr fm idle]; cbn.
  destruct (f_idle_timeout f) as [s|]; cbn;
    repeat case_bool_decide; repeat case_decide; naive_solver.
Qed.

Lemma load_rules_iff (fs : list RuleFields) (rs : list Rule) :
  load_rules (map spec_of_fields fs) = Ok rs ↔ Forall2 rule_for fs rs.
Proof.
  revert rs. induction fs as [|f fs IH]; intros rs; cbn.
  - split; [by intros [= <-]|]. by intros ->%Forall2_nil_inv_l.
  - split.
    + intros H. unbind H as (r & Hr & H). unbind H as (rs' & Hrs & [= <-]).
      constructor; [by apply load_rule_iff|by apply IH].
    + intros (r & rs' & Hr & Hrs & ->)%Forall2_cons_inv_l.
      rewrite (proj2 (load_rule_iff f r)) by done. cbn.
      by rewrite (proj2 (IH rs')) by done.
Qed.

Lemma load_iff (path : PathBuf) (t : RuleTable) :
  load path = Ok t ↔
  ∃ data fs, read_to_string path = Ok data ∧ from_str data = Ok fs ∧
    fs ≠ [] ∧ Forall2 rule_for fs (rules t).
Proof.
  unfold Rules.load. destruct (read_to_string path) as [data|]; cbn;
    [|by split; [|intros (? & ? & ? & ?)]].
  destruct (from_str data) as [fs|] eqn:Efs; cbn; [|split; [done|]];
    [|intros (? & ? & ? & ? & ?); congruence].
  assert (map spec_of_fields fs = [] ↔ fs = []) as Hnil by (by destruct fs).
  case_bool_decide as He.
  - apply Hnil in He as ->. split; [done|].
    intros (? & ? & ? & ? & ? & ?). congruence.
  - rewrite Hnil in He. split.
    + intros H. unbind H as (rs & Hrs & [= <-]). apply load_rules_iff in Hrs.
      exists data, fs. done.
    + intros (data' & fs' & [= <-] & Hfs & _ & HF).
      assert (fs' = fs) as -> by congruence. apply load_rules_iff in HF.
      rewrite HF. cbn. by destruct t.
Qed.
End LoadFacts.

Lemma match_target_Some (t : RuleTable) (a p : bytes) (m : RuleMatch) :
  match_target t a p = Some m →
  ∃ r, r ∈ rules t ∧ rule_matches a p r = true ∧ m = match_of r.
Proof.
  unfold match_target. rewrite fmap_Some. intros (r & Hr & ->).
  apply List.find_some in Hr as [Hin Hm]. exists r.
  split_and!; [by apply list_elem_of_In|done|done].
Qed.

Lemma find_first {A} (f : A → bool) (l : list A) (x : A) :
  List.find f l = Some x ↔
  ∃ l1 l2, l = l1 ++ x :: l2 ∧ f x = true ∧ Forall (λ y, f y = false) l1.
Proof.
  induction l as [|y l IH]; cbn.
  - split; [done|]. intros (l1 & l2 & H & _). by destruct l1.
  - destruct (f y) eqn:E.
    + split; [intros [= ->]; by exists [], l|].
      intros ([|z l1] & l2 & H & Hx & Hl); simplify_eq/=; [done|].
      inversion Hl; congruence.
    + rewrite IH. split.
      * intros (l1 & l2 & -> & Hx & Hl). exists (y :: l1), l2.
        split_and!; [done|done|by constructor].
      * intros ([|z l1] & l2 & H & Hx & Hl); simplify_eq/=; [congruence|].
        inversion Hl; subst. eauto.
Qed.

Lemma path_only_query (p q : bytes) :
  x3f ∉ p → path_only (p ++ x3f :: q) = p.
Proof. intros Hp. apply path_only_spec. eauto. Qed.

Lemma matches_path_only (e : Endpoint) (p p' : bytes) :
  path_only p = path_only p' → matches e p = matches e p'.
Proof. intros H. unfold matches. by rewrite H. Qed.

Lemma match_target_path_only (t : RuleTable) (a p p' : bytes) :
  path_only p = path_only p' → match_target t a p = match_target t a p'.
Proof.
  intros H. unfold match_target. f_equal.
  induction (rules t) as [|r rs IH]; cbn; [done|].
  unfold rule_matches at 1 3. by rewrite (matches_path_only _ p p'), IH.
Qed.

(** The hosts collected so far stay duplicate-free and are exactly those of the
    rules already seen. *)
Lemma push_host_spec (rs : list Rule) (hosts : list bytes) :
  NoDup hosts →
  NoDup (fold_left push_host rs hosts) ∧
  ∀ h, h ∈ fold_left push_host rs hosts ↔
    h ∈ hosts ∨ ∃ r, r ∈ rs ∧
      h = to_ascii_lowercase (host_of_authority (Endpoint.authority (endpoint r))).
Proof.
  revert hosts. induction rs as [|r rs IH]; intros hosts Hnd; cbn [fold_left].
  - split; [done|]. set_solver.
  - destruct (IH (push_host hosts r)) as [Hnd' Hin].
    { unfold push_host. case_bool_decide; [done|]. apply NoDup_app.
      split_and!; [done|set_solver|apply NoDup_singleton]. }
    split; [done|]. intros h. rewrite Hin. unfold push_host.
    case_bool_decide; set_solver.
Qed.

Lemma allowed_sni_hosts_spec (t : RuleTable) :
  NoDup (allowed_sni_hosts t) ∧
  ∀ h, h ∈ allowed_sni_hosts t ↔ ∃ r, r ∈ rules t ∧
    h = to_ascii_lowercase (host_of_authority (Endpoint.authority (endpoint r))).
Proof.
  destruct (push_host_spec (rules t) [] NoDup_nil_2) as [? H].
  split; [done|]. intros h. unfold allowed_sni_hosts. rewrite H. set_solver.
Qed.

(** ** Properties *)

(** C34: Loading a rule table succeeds exactly when the file reads, its JSON
    parses to a non-empty list and every entry's endpoint parses and target
    resolves; the table then holds one rule per entry, in order, with the first
    resolved address and the documented defaults (35 s idle timeout, 0 disabling
    it). *)
Theorem rules_load_iff {IoError JsonError PathBuf : Type}
    (read_to_string : PathBuf → result IoError bytes)
    (from_str : bytes → result JsonError (list RuleFields))
    (to_socket_addrs : bytes → result IoError (list SocketAddr))
    (path : PathBuf) (t : RuleTable) :
  load read_to_string from_str to_socket_addrs path = Ok t ↔
  ∃ data fs, read_to_string path = Ok data ∧ from_str data = Ok fs ∧
    fs ≠ [] ∧ Forall2 (rule_for to_socket_addrs) fs (rules t).
Proof. apply load_iff. Qed.

(** C35: [match_target] decides by the first rule whose authority equals the
    request's byte for byte and whose path component matches; it gives [None]
    exactly when no rule does. *)
Theorem match_target_first (t : RuleTable) (a p : bytes) :
  match match_target t a p with
  | Some m => ∃ l1 r l2, rules t = l1 ++ r :: l2 ∧ m = match_of r ∧
      Endpoint.authority (endpoint r) = a ∧ matches (endpoint r) p = true ∧
      Forall (λ r', rule_matches a p r' = false) l1
  | None => Forall (λ r, rule_matches a p r = false) (rules t)
  end.
Proof.
  unfold match_target. destruct (List.find _ _) as [r|] eqn:E; cbn.
  - apply find_first in E as (l1 & l2 & -> & Hr & Hl). exists l1, r, l2.
    unfold rule_matches in Hr. bools. done.
  - apply Forall_forall. intros r Hr%list_elem_of_In. by eapply List.find_none in E.
Qed.

(** The query string of a request cannot influence where it is forwarded:
    any two paths with the same path component get the same decision, and a
    decision's target is always that of a rule of the table. *)
Theorem match_target_pinned (t : RuleTable) (a base q1 q2 : bytes) :
  x3f ∉ base →
  match_target t a (base ++ x3f :: q1) = match_target t a (base ++ x3f :: q2) ∧
  match_target t a (base ++ x3f :: q1) = match_target t a base ∧
  ∀ m, match_target t a base = Some m → m_target m ∈ map target (rules t).
Proof.
  intros Hb. split_and!.
  - apply match_target_path_only. by rewrite !path_only_query.
  - apply match_target_path_only. rewrite path_only_query by done.
    symmetry. apply path_only_spec. eauto.
  - intros m (r & Hr & _ & ->)%match_target_Some. cbn.
    apply list_elem_of_fmap. eauto.
Qed.

Definition sample_table : RuleTable := mkRuleTable [
  mkRule (mkEndpoint (str "a.example.com:4433") (str "/masque")) (SockV4 1 53) false None
    (Some (from_secs 35));
  mkRule (mkEndpoint (str "B.example.com") (str "/connect")) (SockV4 2 123) true (Some 7%Z)
    None ].

Lemma match_target_pinned_witness :
  match_target sample_table (str "a.example.com:4433") (str "/masque" ++ x3f :: str "h=1.2.3.4")
  = Some (match_of (mkRule (mkEndpoint (str "a.example.com:4433") (str "/masque"))
      (SockV4 1 53) false None (Some (from_secs 35)))).
Proof.
  rewrite (proj1 (proj2 (match_target_pinned sample_table (str "a.example.com:4433")
    (str "/masque") (str "h=1.2.3.4") [] (proj1 (split_once_byte_None x3f (str "/masque")) eq_refl)))).
  reflexivity.
Defined.

(** The SNI allow-list is duplicate-free and consists exactly of the
    lower-cased hosts, without port and brackets, of the rules' authorities. *)
Theorem allowed_sni_hosts_exact (t : RuleTable) :
  NoDup (allowed_sni_hosts t) ∧
  ∀ h, h ∈ allowed_sni_hosts t ↔ ∃ r, r ∈ rules t ∧
    h = to_ascii_lowercase (host_of_authority (Endpoint.authority (endpoint r))).
Proof. apply allowed_sni_hosts_spec. Qed.
