(* ===== verification/EchConfig.v ===== *)
(** * src/ech/config.rs: the ECHConfig wire format

    [Module Reader] is the byte reader, whose methods thread the position and may
    fail; [encode], [decode_from], [decode] and [encode_list] follow the source.
    [encode] panics (through [expect]) when a length does not fit its field.

    The theorems: the round trip, when [encode] panics, what [decode] accepts
    guarantees, tolerance of unknown trailing contents, and the list format. *)

From Equations Require Import Equations.
From S2P Require Import Prelude.
From S2P Require Import RustStr.

Definition ECH_CONFIG_VERSION_V18 : Z := 0xfe0d.
Definition HPKE_KEM_DHKEM_X25519 : Z := 0x0020.
Definition HPKE_KDF_HKDF_SHA256 : Z := 0x0001.
Definition HPKE_AEAD_AES_128_GCM : Z := 0x0001.

Inductive EchError :=
| ShortReadU8 | ShortReadU16 | ShortReadU24 | ShortRead (n : nat)
| UnsupportedVersion (v : Z) | InvalidCipherSuites | PublicNameNotUtf8
| TrailingBytes.

Record CipherSuite := mkCipherSuite { kdf_id : Z; aead_id : Z }.

Record EchConfig := mkEchConfig {
  config_id : byte;
  kem_id : Z;
  public_key : bytes;
  cipher_suites : list CipherSuite;
  maximum_name_length : byte;
  public_name : bytes;
}.

#[global] Instance CipherSuite_eq_dec : EqDecision CipherSuite.
Proof. solve_decision. Defined.
#[global] Instance EchConfig_eq_dec : EqDecision EchConfig.
Proof. solve_decision. Defined.

(** ** The reader *)

Module Reader.
Record t := mk { buf : bytes; pos : nat }.

Definition new (b : bytes) : t := mk b 0.
Definition remaining (r : t) : nat := length (buf r) - pos r.
Definition is_empty (r : t) : bool := remaining r =? 0.
Definition advance (n : nat) (r : t) : t := mk (buf r) (pos r + n).
Definition index (r : t) (i : nat) : byte := nth (pos r + i) (buf r) inhabitant.

Definition read_u8 : stm t EchError byte := λ r,
  if remaining r <? 1 then (Err ShortReadU8, r)
  else (Ok (index r 0), advance 1 r).

Definition read_u16 : stm t EchError Z := λ r,
  if remaining r <? 2 then (Err ShortReadU16, r)
  else (Ok (from_be_bytes [index r 0; index r 1]), advance 2 r).

Definition read_u24 : stm t EchError Z := λ r,
  if remaining r <? 3 then (Err ShortReadU24, r)
  else (Ok (from_be_bytes [z2b 0; index r 0; index r 1; index r 2]), advance 3 r).

Definition read_slice (n : nat) : stm t EchError bytes := λ r,
  if remaining r <? n then (Err (ShortRead n), r)
  else (Ok (take n (drop (pos r) (buf r))), advance n r).
End Reader.

(** ** Encoding *)

Definition encode_suite (cs : CipherSuite) : bytes :=
  to_be_bytes 2 (kdf_id cs) ++ to_be_bytes 2 (aead_id cs).

(** The [contents] vector, from the checked lengths. *)
Definition encode_contents (c : EchConfig) (pk_len cs_bytes_len pn_len : Z) : bytes :=
  [config_id c] ++ to_be_bytes 2 (kem_id c) ++
  to_be_bytes 2 pk_len ++ public_key c ++
  to_be_bytes 2 cs_bytes_len ++ (cipher_suites c ≫= encode_suite) ++
  [maximum_name_length c] ++ [z2b pn_len] ++ public_name c ++ [z2b 0; z2b 0].

Definition encode (c : EchConfig) : panics bytes :=
  pk_len ← expect (try_from 16 (Z.of_nat (length (public_key c))));
  cs_bytes_len ← expect (try_from 16 (Z.of_nat (length (cipher_suites c) * 4)));
  pn_len ← expect (try_from 8 (Z.of_nat (length (public_name c))));
  let contents := encode_contents c pk_len cs_bytes_len pn_len in
  contents_len ← expect (try_from 16 (Z.of_nat (length contents)));
  Returns (to_be_bytes 2 ECH_CONFIG_VERSION_V18 ++ to_be_bytes 2 contents_len ++ contents).

Fixpoint encode_list_body (configs : list EchConfig) : panics bytes :=
  match configs with
  | [] => Returns []
  | c :: cs => b ← encode c; rest ← encode_list_body cs; Returns (b ++ rest)
  end.

Definition encode_list (configs : list EchConfig) : panics bytes :=
  body ← encode_list_body configs;
  body_len ← expect (try_from 16 (Z.of_nat (length body)));
  Returns (to_be_bytes 2 body_len ++ body).

(** ** Decoding *)

Definition read_suite : stm Reader.t EchError CipherSuite :=
  kdf ← Reader.read_u16;
  aead ← Reader.read_u16;
  mret (mkCipherSuite kdf aead).

Lemma read_suite_remaining (r r' : Reader.t) (cs : CipherSuite) :
  read_suite r = (Ok cs, r') → Reader.remaining r' < Reader.remaining r.
Proof.
  unfold read_suite. intros H. unbind H as (kdf & r1 & H1 & H).
  unbind H as (aead & r2 & H2 & H). injection H as _ <-.
  unfold Reader.read_u16 in *.
  destruct (Nat.ltb_spec (Reader.remaining r) 2); [done|].
  injection H1 as _ <-.
  destruct (Nat.ltb_spec (Reader.remaining (Reader.advance 2 r)) 2); [done|].
  injection H2 as _ <-. unfold Reader.remaining in *. simpl in *. lia.
Qed.

(** A value together with the equation that defines it. *)
Definition inspect {A} (a : A) : {b | a = b} := exist _ a eq_refl.

(** [while !csr.is_empty() { cipher_suites.push(..) }] *)
Equations? read_suites (csr : Reader.t) (acc : list CipherSuite) :
    result EchError (list CipherSuite) by wf (Reader.remaining csr) lt :=
  read_suites csr acc with Reader.is_empty csr => {
  | true => Ok acc
  | false with inspect (read_suite csr) => {
    | exist _ (Ok cs, csr') _ => read_suites csr' (acc ++ [cs])
    | exist _ (Err e, _) _ => Err e } }.
Proof. by eapply read_suite_remaining. Qed.

Definition read_contents : stm Reader.t EchError EchConfig :=
  config_id ← Reader.read_u8;
  kem_id ← Reader.read_u16;
  pk_len ← Reader.read_u16;
  public_key ← Reader.read_slice (Z.to_nat pk_len);
  cs_bytes_len ← Reader.read_u16;
  if negb (cs_bytes_len mod 4 =? 0)%Z || (cs_bytes_len =? 0)%Z
  then throw InvalidCipherSuites
  else
    cs_bytes ← Reader.read_slice (Z.to_nat cs_bytes_len);
    cipher_suites ← lift (read_suites (Reader.new cs_bytes) []);
    maximum_name_length ← Reader.read_u8;
    pn_len ← Reader.read_u8;
    pn_bytes ← Reader.read_slice (Z.to_nat (b2z pn_len));
    public_name ← lift (ok_or PublicNameNotUtf8 (from_utf8 pn_bytes));
    ext_len ← Reader.read_u16;
    _ ← Reader.read_slice (Z.to_nat ext_len);
    mret (mkEchConfig config_id kem_id public_key cipher_suites
            maximum_name_length public_name).

Definition decode_contents (contents : bytes) : result EchError EchConfig :=
  fst (read_contents (Reader.new contents)).

Definition decode_from : stm Reader.t EchError EchConfig :=
  version ← Reader.read_u16;
  contents_len ← Reader.read_u16;
  contents ← Reader.read_slice (Z.to_nat contents_len);
  if negb (version =? ECH_CONFIG_VERSION_V18)%Z then throw (UnsupportedVersion version)
  else lift (decode_contents contents).

Definition decode (b : bytes) : result EchError EchConfig :=
  let '(res, r) := decode_from (Reader.new b) in
  cfg ← res;
  if negb (Reader.is_empty r) then Err TrailingBytes else Ok cfg.

Definition sample : EchConfig :=
  mkEchConfig (z2b 42) HPKE_KEM_DHKEM_X25519 (replicate 32 (z2b 0x11))
    [mkCipherSuite HPKE_KDF_HKDF_SHA256 HPKE_AEAD_AES_128_GCM] (z2b 0)
    (str "example.com").

Example sample_roundtrip : (b ← encode sample; Returns (decode b)) = Returns (Ok sample).
Proof. vm_compute. reflexivity. Qed.

(** ** Lemmas on the reader *)

(** The bytes still to be read, and reading [a] off the front of [s]. *)
Definition rest (r : Reader.t) : bytes := drop (Reader.pos r) (Reader.buf r).

Definition reads {A} (m : stm Reader.t EchError A) (s : bytes) (a : A) (s' : bytes) : Prop :=
  ∀ r, rest r = s → ∃ r', m r = (Ok a, r') ∧ rest r' = s'.

Lemma remaining_rest (r : Reader.t) : Reader.remaining r = length (rest r).
Proof. unfold Reader.remaining, rest. by rewrite length_drop. Qed.

Lemma is_empty_rest (r : Reader.t) : Reader.is_empty r = bool_decide (rest r = []).
Proof.
  unfold Reader.is_empty. rewrite remaining_rest. destruct (rest r) eqn:E; done.
Qed.

Lemma rest_advance (n : nat) (r : Reader.t) : rest (Reader.advance n r) = drop n (rest r).
Proof. unfold rest. cbn. by rewrite drop_drop. Qed.

Lemma rest_new (b : bytes) : rest (Reader.new b) = b.
Proof. done. Qed.

Lemma index_rest (r : Reader.t) (i : nat) : Reader.index r i = nth i (rest r) inhabitant.
Proof.
  unfold Reader.index, rest. generalize (Reader.buf r). generalize (Reader.pos r).
  intros p. induction p as [|p IH]; intros [|x l]; try done; destruct i; try done; apply IH.
Qed.

Section Reads.
Context {A B : Type}.

Lemma reads_bind (m : stm Reader.t EchError A) (k : A → stm Reader.t EchError B)
    s s1 s2 a b :
  reads m s a s1 → reads (k a) s1 b s2 → reads (m ≫= k) s b s2.
Proof.
  intros Hm Hk r Hr. destruct (Hm r Hr) as (r1 & E1 & Hr1).
  destruct (Hk r1 Hr1) as (r2 & E2 & Hr2). exists r2. split; [|done].
  apply stm_bind_Ok. eauto.
Qed.

Lemma reads_ret (a : A) s : reads (mret a) s a s.
Proof. intros r Hr. by exists r. Qed.

Lemma reads_lift (a : A) s : reads (lift (Ok a)) s a s.
Proof. intros r Hr. by exists r. Qed.
End Reads.

Lemma reads_u8 (b : byte) s : reads Reader.read_u8 (b :: s) b s.
Proof.
  intros r Hr. exists (Reader.advance 1 r). unfold Reader.read_u8.
  rewrite remaining_rest, rest_advance, index_rest, Hr. done.
Qed.

Lemma reads_u16 (z : Z) s :
  in_width 16 z → reads Reader.read_u16 (to_be_bytes 2 z ++ s) z s.
Proof.
  intros Hz r Hr. exists (Reader.advance 2 r). unfold Reader.read_u16.
  rewrite remaining_rest, rest_advance, !index_rest, Hr, length_app, length_to_be_bytes.
  split; [|done]. cbn [Nat.ltb Nat.leb Nat.add].
  change [_; _] with (to_be_bytes 2 z). by rewrite from_to_be_bytes_small.
Qed.

Lemma reads_slice (n : nat) (l s : bytes) :
  length l = n → reads (Reader.read_slice n) (l ++ s) l s.
Proof.
  intros Hl r Hr. exists (Reader.advance n r). unfold Reader.read_slice.
  rewrite remaining_rest, rest_advance. fold (rest r).
  rewrite Hr, length_app, take_app_length', drop_app_length' by done.
  destruct (Nat.ltb_spec (length l + length s) n); [lia|done].
Qed.

#[global] Hint Resolve reads_ret reads_lift reads_u8 reads_u16 reads_slice : rust.

(** What a successful read says about the bytes. *)
Lemma read_u8_inv r b r' : Reader.read_u8 r = (Ok b, r') → rest r = b :: rest r'.
Proof.
  unfold Reader.read_u8. rewrite remaining_rest, index_rest.
  destruct (rest r) as [|x l] eqn:E; [done|]. cbn. intros [= <- <-].
  by rewrite rest_advance, E.
Qed.

Lemma read_u16_inv r z r' :
  Reader.read_u16 r = (Ok z, r') →
  ∃ h, rest r = h ++ rest r' ∧ length h = 2 ∧ in_width 16 z ∧ z = from_be_bytes h.
Proof.
  unfold Reader.read_u16. rewrite remaining_rest, !index_rest.
  destruct (rest r) as [|x [|y l]] eqn:E; [done|done|]. cbn [length Nat.ltb Nat.leb nth].
  intros [= <- <-]. exists [x; y]. rewrite rest_advance, E.
  split_and!; try done. apply (from_be_bytes_range [x; y]).
Qed.

Lemma read_slice_inv n r l r' :
  Reader.read_slice n r = (Ok l, r') → rest r = l ++ rest r' ∧ length l = n.
Proof.
  unfold Reader.read_slice. rewrite remaining_rest. fold (rest r).
  destruct (Nat.ltb_spec (length (rest r)) n); [done|]. intros [= <- <-].
  rewrite rest_advance, take_drop, length_take_le by lia. done.
Qed.

(** ** Lemmas on configurations *)

Definition suite_ok (cs : CipherSuite) : Prop :=
  in_width 16 (kdf_id cs) ∧ in_width 16 (aead_id cs).

(** What the types of the fields and the wire format demand. *)
Record config_ok (c : EchConfig) : Prop := {
  ok_kem : in_width 16 (kem_id c);
  ok_pk : in_width 16 (Z.of_nat (length (public_key c)));
  ok_suites : Forall suite_ok (cipher_suites c);
  ok_suites_len : in_width 16 (Z.of_nat (length (cipher_suites c) * 4));
  ok_suites_ne : cipher_suites c ≠ [];
  ok_name_len : in_width 8 (Z.of_nat (length (public_name c)));
  ok_name : utf8_valid (public_name c) = true;
}.

(** The contents up to the extensions. *)
Definition fields (c : EchConfig) : bytes :=
  [config_id c] ++ to_be_bytes 2 (kem_id c) ++
  to_be_bytes 2 (Z.of_nat (length (public_key c))) ++ public_key c ++
  to_be_bytes 2 (Z.of_nat (length (cipher_suites c) * 4)) ++
  (cipher_suites c ≫= encode_suite) ++
  [maximum_name_length c] ++ [z2b (Z.of_nat (length (public_name c)))] ++ public_name c.

Definition lengths_fit (c : EchConfig) : Prop :=
  in_width 16 (Z.of_nat (length (public_key c))) ∧
  in_width 16 (Z.of_nat (length (cipher_suites c) * 4)) ∧
  in_width 8 (Z.of_nat (length (public_name c))) ∧
  in_width 16 (Z.of_nat (length (fields c) + 2)).

#[global] Instance lengths_fit_dec c : Decision (lengths_fit c).
Proof. unfold lengths_fit, in_width. apply _. Defined.

Lemma length_suites (l : list CipherSuite) : length (l ≫= encode_suite) = length l * 4.
Proof.
  induction l as [|cs l IH]; [done|]. rewrite bind_cons, length_app, IH. done.
Qed.

Lemma length_fields (c : EchConfig) :
  length (fields c) =
    9 + length (public_key c) + length (cipher_suites c) * 4 + length (public_name c).
Proof.
  unfold fields. rewrite !length_app, !length_to_be_bytes, length_suites.
  cbn [length]. lia.
Qed.

Lemma encode_eq (c : EchConfig) :
  encode c =
    if decide (lengths_fit c) then
      Returns (to_be_bytes 2 ECH_CONFIG_VERSION_V18 ++
        to_be_bytes 2 (Z.of_nat (length (fields c) + 2)) ++ fields c ++ [z2b 0; z2b 0])
    else Panics.
Proof.
  assert (encode_contents c (Z.of_nat (length (public_key c)))
            (Z.of_nat (length (cipher_suites c) * 4))
            (Z.of_nat (length (public_name c))) = fields c ++ [z2b 0; z2b 0]) as Hf.
  { unfold encode_contents, fields. by rewrite <- !app_assoc. }
  assert (length (fields c ++ [z2b 0; z2b 0]) = length (fields c) + 2) as Hl
    by (by rewrite length_app).
  unfold encode, lengths_fit.
  destruct (decide _) as [(H1 & H2 & H3 & H4)|Hn].
  - rewrite !(try_from_in_width _ (Z.of_nat (length (public_key c)))) by done.
    rewrite (try_from_in_width _ (Z.of_nat (length (cipher_suites c) * 4))) by done.
    rewrite (try_from_in_width _ (Z.of_nat (length (public_name c)))) by done.
    cbn [expect mbind panics_bind]. rewrite Hf, Hl.
    rewrite try_from_in_width by done. done.
  - destruct (try_from 16 (Z.of_nat (length (public_key c)))) as [?|] eqn:E1; [|done].
    apply try_from_Some in E1 as [-> ?].
    destruct (try_from 16 (Z.of_nat (length (cipher_suites c) * 4))) as [?|] eqn:E2; [|done].
    apply try_from_Some in E2 as [-> ?].
    destruct (try_from 8 (Z.of_nat (length (public_name c)))) as [?|] eqn:E3; [|done].
    apply try_from_Some in E3 as [-> ?].
    cbn [expect mbind panics_bind]. rewrite Hf, Hl.
    destruct (try_from 16 _) as [?|] eqn:E4; [|done]. apply try_from_Some in E4 as [-> ?].
    by destruct Hn.
Qed.

Lemma read_suites_step (r : Reader.t) (acc : list CipherSuite) :
  read_suites r acc =
    if Reader.is_empty r then Ok acc
    else match read_suite r with
         | (Ok cs, r') => read_suites r' (acc ++ [cs])
         | (Err e, _) => Err e
         end.
Proof.
  rewrite read_suites_equation_1. destruct (Reader.is_empty r); [done|].
  rewrite read_suites_clause_1_equation_2.
  destruct (inspect (read_suite r)) as [[[cs|e] r'] E];
    rewrite ?read_suites_clause_1_clause_2_equation_1,
      ?read_suites_clause_1_clause_2_equation_2; by rewrite E.
Qed.

Lemma read_suites_encode (l acc : list CipherSuite) (r : Reader.t) :
  Forall suite_ok l → rest r = l ≫= encode_suite → read_suites r acc = Ok (acc ++ l).
Proof.
  intros Hl. revert r acc. induction Hl as [|cs l [Hk Ha] _ IH]; intros r acc Hr;
    rewrite read_suites_step; rewrite is_empty_rest, Hr.
  - by rewrite app_nil_r.
  - assert (reads read_suite (encode_suite cs ++ (l ≫= encode_suite)) cs
              (l ≫= encode_suite)) as Hreads.
    { unfold read_suite, encode_suite. rewrite <- app_assoc.
      eapply reads_bind; [by apply reads_u16|]. eapply reads_bind; [by apply reads_u16|].
      destruct cs. apply reads_ret. }
    destruct (Hreads r Hr) as (r' & E & Hr').
    rewrite bool_decide_false by done. rewrite E, (IH r') by done.
    by rewrite <- app_assoc.
Qed.

(** The suites read are those encoded in the bytes. *)
Lemma read_suites_inv (r : Reader.t) (acc l : list CipherSuite) :
  read_suites r acc = Ok l →
  ∃ l', l = acc ++ l' ∧ Forall suite_ok l' ∧ length (rest r) = length l' * 4.
Proof.
  remember (Reader.remaining r) as n eqn:Hn. revert r acc Hn.
  induction (lt_wf n) as [n _ IH]. intros r acc ->.
  rewrite read_suites_step, is_empty_rest. case_bool_decide as He.
  - intros [= <-]. exists []. by rewrite app_nil_r, He.
  - destruct (read_suite r) as [[cs|e] r'] eqn:E; [|done]. intros H.
    pose proof (read_suite_remaining _ _ _ E) as Hlt.
    unfold read_suite in E. unbind E as (kdf & r1 & E1 & E). unbind E as (aead & r2 & E2 & E).
    injection E as <- <-.
    destruct (read_u16_inv _ _ _ E1) as (h1 & Hr1 & Hh1 & Hk & _).
    destruct (read_u16_inv _ _ _ E2) as (h2 & Hr2 & Hh2 & Ha & _).
    destruct (IH _ Hlt r2 _ eq_refl H) as (l' & -> & Hl' & Hlen).
    exists (mkCipherSuite kdf aead :: l'). rewrite <- app_assoc. split_and!; [done| |].
    + by constructor.
    + rewrite Hr1, Hr2, !length_app, Hh1, Hh2, Hlen. cbn. lia.
Qed.

Lemma decode_contents_fields (c : EchConfig) (ext extra : bytes) :
  config_ok c → in_width 16 (Z.of_nat (length ext)) →
  decode_contents (fields c ++ to_be_bytes 2 (Z.of_nat (length ext)) ++ ext ++ extra) = Ok c.
Proof.
  intros Hc Hext. destruct Hc.
  assert (∀ {A} (m : stm Reader.t EchError A) s a s',
            reads m s a s' → fst (m (Reader.new s)) = Ok a) as Hrun.
  { intros A m s a s' Hm. by destruct (Hm (Reader.new s) (rest_new s)) as (r' & -> & _). }
  unfold decode_contents. eapply Hrun. unfold read_contents, fields.
  rewrite <- !app_assoc. cbn [app].
  eapply reads_bind; [apply reads_u8|].
  eapply reads_bind; [by apply reads_u16|].
  eapply reads_bind; [by apply reads_u16|].
  eapply reads_bind; [apply reads_slice; by rewrite Nat2Z.id|].
  eapply reads_bind; [by apply reads_u16|].
  assert ((Z.of_nat (length (cipher_suites c) * 4) mod 4 =? 0)%Z = true) as ->.
  { rewrite Nat2Z.inj_mul. by rewrite Z.mod_mul. }
  assert ((Z.of_nat (length (cipher_suites c) * 4) =? 0)%Z = false) as ->.
  { apply Z.eqb_neq. by destruct (cipher_suites c). }
  cbn [negb orb].
  eapply reads_bind; [apply reads_slice; by rewrite length_suites, Nat2Z.id|].
  eapply reads_bind.
  { rewrite (read_suites_encode (cipher_suites c) []) by done. apply reads_lift. }
  eapply reads_bind; [apply reads_u8|].
  eapply reads_bind; [apply reads_u8|].
  eapply reads_bind.
  { apply reads_slice. rewrite b2z_z2b, Z.mod_small by done. by rewrite Nat2Z.id. }
  eapply reads_bind.
  { unfold from_utf8. rewrite ok_name0. apply reads_lift. }
  eapply reads_bind; [by apply reads_u16|].
  eapply reads_bind; [apply reads_slice; by rewrite Nat2Z.id|].
  destruct c. apply reads_ret.
Qed.

Lemma decode_contents_inv (b : bytes) (c : EchConfig) :
  decode_contents b = Ok c → config_ok c ∧ length (fields c) + 2 ≤ length b.
Proof.
  unfold decode_contents. destruct (read_contents (Reader.new b)) as [res r] eqn:E.
  cbn [fst]. intros ->. unfold read_contents in E.
  unbind E as (cid & r1 & H1%read_u8_inv & E). rewrite rest_new in H1.
  unbind E as (kem & r2 & (h2 & H2 & L2 & Hkem & _)%read_u16_inv & E).
  unbind E as (pkl & r3 & (h3 & H3 & L3 & Hpkl & _)%read_u16_inv & E).
  unbind E as (pk & r4 & [H4 L4]%read_slice_inv & E).
  unbind E as (csl & r5 & (h5 & H5 & L5 & Hcsl & _)%read_u16_inv & E).
  destruct (negb _ || _) eqn:Hchk; [done|]. bools.
  unbind E as (csb & r6 & [H6 L6]%read_slice_inv & E).
  unbind E as (css & r6' & Hs & E). injection Hs as Hs <-.
  apply read_suites_inv in Hs as (l' & -> & Hl' & Hlen). rewrite rest_new in Hlen.
  unbind E as (mnl & r7 & H7%read_u8_inv & E).
  unbind E as (pnl & r8 & H8%read_u8_inv & E).
  unbind E as (pn & r9 & [H9 L9]%read_slice_inv & E).
  unbind E as (pn' & r9' & Hpn & E). injection Hpn as Hpn <-.
  unbind E as (el & r10 & (h10 & H10 & L10 & Hel & _)%read_u16_inv & E).
  unbind E as (ext & r11 & [H11 L11]%read_slice_inv & E).
  injection E as <- <-. unfold from_utf8 in Hpn.
  destruct (utf8_valid pn) eqn:Hutf; [|done]. injection Hpn as <-.
  unfold in_width in *. pose proof (b2z_range pnl).
  change ([] ++ l') with l' in *. split.
  - constructor; cbn; unfold in_width; try done; try lia.
    intros ->. cbn in Hlen. lia.
  - apply (f_equal length) in H1, H2, H3, H4, H5, H6, H7, H8, H9, H10, H11.
    rewrite length_fields. cbn [public_key cipher_suites public_name].
    rewrite ?length_app, ?length_cons in *. lia.
Qed.

Lemma decode_frame (contents : bytes) :
  in_width 16 (Z.of_nat (length contents)) →
  ∀ s r, rest r = to_be_bytes 2 ECH_CONFIG_VERSION_V18 ++
           to_be_bytes 2 (Z.of_nat (length contents)) ++ contents ++ s →
  ∃ r', decode_from r = (decode_contents contents, r') ∧ rest r' = s.
Proof.
  intros Hl s r Hr. unfold decode_from.
  destruct (reads_u16 ECH_CONFIG_VERSION_V18 _ ltac:(done) r Hr) as (r1 & E1 & Hr1).
  destruct (reads_u16 _ _ Hl r1 Hr1) as (r2 & E2 & Hr2).
  destruct (reads_slice (Z.to_nat (Z.of_nat (length contents))) _ _
              ltac:(by rewrite Nat2Z.id) r2 Hr2) as (r3 & E3 & Hr3).
  exists r3. split; [|done]. unfold mbind, stm_bind. by rewrite E1, E2, E3.
Qed.

Lemma decode_framed (contents : bytes) :
  in_width 16 (Z.of_nat (length contents)) →
  decode (to_be_bytes 2 ECH_CONFIG_VERSION_V18 ++
          to_be_bytes 2 (Z.of_nat (length contents)) ++ contents) = decode_contents contents.
Proof.
  intros Hl. unfold decode.
  destruct (decode_frame contents Hl [] (Reader.new (to_be_bytes 2 ECH_CONFIG_VERSION_V18 ++
    to_be_bytes 2 (Z.of_nat (length contents)) ++ contents))) as (r' & -> & Hr').
  { by rewrite app_nil_r. }
  rewrite is_empty_rest, Hr'. by destruct (decode_contents contents).
Qed.

Lemma encode_Returns (c : EchConfig) (b : bytes) :
  encode c = Returns b →
  in_width 16 (Z.of_nat (length (fields c ++ [z2b 0; z2b 0]))) ∧
  b = to_be_bytes 2 ECH_CONFIG_VERSION_V18 ++
      to_be_bytes 2 (Z.of_nat (length (fields c ++ [z2b 0; z2b 0]))) ++
      fields c ++ [z2b 0; z2b 0].
Proof.
  rewrite encode_eq. destruct (decide _) as [(_ & _ & _ & H4)|]; [|done].
  intros [= <-]. rewrite length_app. done.
Qed.

Lemma decode_contents_encoded (c : EchConfig) :
  config_ok c → decode_contents (fields c ++ [z2b 0; z2b 0]) = Ok c.
Proof. intros Hc. by apply (decode_contents_fields c [] []). Qed.

Lemma decode_encode_config (c : EchConfig) (b : bytes) :
  config_ok c → encode c = Returns b → decode b = Ok c.
Proof.
  intros Hc [Hl ->]%encode_Returns. rewrite decode_framed by done.
  by apply decode_contents_encoded.
Qed.

Lemma decode_inv (b : bytes) (c : EchConfig) :
  decode b = Ok c →
  ∃ contents, decode_contents contents = Ok c ∧ length b = 4 + length contents ∧
    in_width 16 (Z.of_nat (length contents)).
Proof.
  unfold decode. destruct (decode_from _) as [[c'|e] r'] eqn:E; [|done]. cbn.
  rewrite is_empty_rest. case_bool_decide as Hr'; [|done]. intros [= ->].
  unfold decode_from in E.
  unbind E as (v & r1 & (h1 & H1 & L1 & _)%read_u16_inv & E).
  unbind E as (cl & r2 & (h2 & H2 & L2 & Hcl & _)%read_u16_inv & E).
  unbind E as (ct & r3 & [H3 L3]%read_slice_inv & E).
  destruct (negb _); [done|]. injection E as E <-. exists ct.
  rewrite rest_new in H1. unfold in_width in *.
  rewrite H1, H2, H3, Hr', !length_app, L1, L2. cbn. split_and!; [done|lia|lia|lia].
Qed.

Lemma decoded_config_encodes (b : bytes) (c : EchConfig) :
  decode b = Ok c →
  config_ok c ∧ ∃ b', encode c = Returns b' ∧ length b' ≤ length b.
Proof.
  intros (ct & Hct & Hlen & Hw)%decode_inv.
  destruct (decode_contents_inv _ _ Hct) as [Hc Hl]. split; [done|].
  rewrite encode_eq, decide_True.
  - eexists. split; [done|]. rewrite !length_app, !length_to_be_bytes. cbn [length]. lia.
  - destruct Hc. unfold lengths_fit, in_width in *. split_and!; done || lia.
Qed.

(** Reading a list's body configuration by configuration. *)
Fixpoint decode_many (n : nat) : stm Reader.t EchError (list EchConfig) :=
  match n with
  | O => mret []
  | S n => c ← decode_from; cs ← decode_many n; mret (c :: cs)
  end.

Lemma encode_list_body_Returns (cs : list EchConfig) (body : bytes) :
  Forall config_ok cs → encode_list_body cs = Returns body →
  reads (decode_many (length cs)) body cs [].
Proof.
  intros Hcs. assert (∀ body s, encode_list_body cs = Returns body →
    reads (decode_many (length cs)) (body ++ s) cs s) as H.
  { clear body. induction Hcs as [|c cs Hc _ IH]; intros body s; cbn.
    - intros [= <-]. apply reads_ret.
    - intros H. unbind H as (b & Hb & H). unbind H as (rst & Hrst & [= <-]).
      destruct (encode_Returns _ _ Hb) as [Hl ->].
      eapply reads_bind; [|eapply reads_bind; [by apply IH|apply reads_ret]].
      intros r Hr. destruct (decode_frame _ Hl (rst ++ s) r) as (r' & E & Hr').
      { by rewrite Hr, <- !app_assoc. }
      exists r'. by rewrite E, decode_contents_encoded by done. }
  intros Hb. rewrite <- (app_nil_r body). by apply H.
Qed.

Lemma encode_list_decodes (cs : list EchConfig) (b : bytes) :
  Forall config_ok cs → encode_list cs = Returns b →
  ∃ body r, b = to_be_bytes 2 (Z.of_nat (length body)) ++ body ∧
    in_width 16 (Z.of_nat (length body)) ∧
    decode_many (length cs) (Reader.new body) = (Ok cs, r) ∧ Reader.is_empty r = true.
Proof.
  intros Hcs H. unfold encode_list in H. unbind H as (body & Hbody & H).
  destruct (try_from 16 _) as [z|] eqn:E; [|done]. apply try_from_Some in E as [-> Hw].
  injection H as <-.
  destruct (encode_list_body_Returns cs body Hcs Hbody (Reader.new body))
    as (r & E & Hr); [done|].
  exists body, r. rewrite is_empty_rest, Hr. done.
Qed.

(** ** Properties *)

(** C36: Decoding the encoding of a configuration whose fields fit the wire
    format, with at least one cipher suite and a UTF-8 name, gives it back. *)
Theorem ech_roundtrip (c : EchConfig) (b : bytes) :
  config_ok c → encode c = Returns b → decode b = Ok c.
Proof. apply decode_encode_config. Qed.

Lemma sample_ok : config_ok sample.
Proof. split; try done. constructor; [by split; split | constructor]. Qed.

Lemma ech_roundtrip_witness :
  ∃ b, encode sample = Returns b ∧ decode b = Ok sample.
Proof.
  eexists. split; [vm_compute; reflexivity|].
  apply (ech_roundtrip sample); [apply sample_ok | vm_compute; reflexivity].
Defined.

(** [encode] panics exactly when a length does not fit its field: the key,
    the suites or the whole contents 16 bits, the public name 8 bits. *)
Theorem ech_encode_panics_iff (c : EchConfig) :
  encode c = Panics ↔
  (65535 < Z.of_nat (length (public_key c)) ∨
   65535 < Z.of_nat (length (cipher_suites c) * 4) ∨
   255 < Z.of_nat (length (public_name c)) ∨
   65535 < Z.of_nat (11 + length (public_key c) + length (cipher_suites c) * 4 +
                      length (public_name c)))%Z.
Proof.
  rewrite encode_eq. pose proof (length_fields c) as Hf.
  destruct (decide (lengths_fit c)) as [H|H]; unfold lengths_fit, in_width in H.
  - split; [done|]. lia.
  - split; [|done]. intros _. lia.
Qed.

(** Whatever [decode] accepts is well formed, encodes again without
    panicking into no more bytes, and that encoding decodes to the same
    configuration: decoding normalises (extensions and unknown contents are
    dropped) and normal forms are stable. *)
Theorem ech_decode_normalises (b : bytes) (c : EchConfig) :
  decode b = Ok c →
  config_ok c ∧ ∃ b', encode c = Returns b' ∧ length b' ≤ length b ∧ decode b' = Ok c.
Proof.
  intros H. destruct (decoded_config_encodes b c H) as [Hc (b' & Hb' & Hl)].
  split; [done|]. exists b'. split_and!; [done|done|]. by eapply decode_encode_config.
Qed.

Definition sample_bytes : bytes :=
  match encode sample with Returns b => b | Panics => [] end.

Lemma ech_decode_normalises_witness :
  decode sample_bytes = Ok sample ∧ config_ok sample.
Proof.
  split; [vm_compute; reflexivity|].
  apply (ech_decode_normalises sample_bytes sample). vm_compute. reflexivity.
Defined.

(** A reader ignores the extensions and whatever a future version appends to
    the contents: the known fields decode to the same configuration. *)
Theorem ech_ignores_unknown (c : EchConfig) (ext extra : bytes) :
  config_ok c → in_width 16 (Z.of_nat (length ext)) →
  let contents :=
    fields c ++ to_be_bytes 2 (Z.of_nat (length ext)) ++ ext ++ extra in
  in_width 16 (Z.of_nat (length contents)) →
  decode (to_be_bytes 2 ECH_CONFIG_VERSION_V18 ++
          to_be_bytes 2 (Z.of_nat (length contents)) ++ contents) = Ok c.
Proof.
  intros Hc He contents Hl. rewrite decode_framed by done.
  by apply decode_contents_fields.
Qed.

Lemma ech_ignores_unknown_witness :
  let contents := fields sample ++ to_be_bytes 2 3 ++ str "ext" ++ str "future" in
  decode (to_be_bytes 2 ECH_CONFIG_VERSION_V18 ++
          to_be_bytes 2 (Z.of_nat (length contents)) ++ contents) = Ok sample.
Proof.
  apply (ech_ignores_unknown sample (str "ext") (str "future"));
    [apply sample_ok | split; vm_compute; [discriminate | reflexivity]
    | split; vm_compute; [discriminate | reflexivity]].
Defined.

(** An ECHConfigList is its 16-bit body length followed by a body from which
    exactly the listed configurations are read back, in order, leaving nothing. *)
Theorem ech_list_roundtrip (cs : list EchConfig) (b : bytes) :
  Forall config_ok cs → encode_list cs = Returns b →
  ∃ body r, b = to_be_bytes 2 (Z.of_nat (length body)) ++ body ∧
    in_width 16 (Z.of_nat (length body)) ∧
    decode_many (length cs) (Reader.new body) = (Ok cs, r) ∧ Reader.is_empty r = true.
Proof. apply encode_list_decodes. Qed.

Lemma ech_list_roundtrip_witness :
  ∃ b body r, encode_list [sample; sample] = Returns b ∧
    b = to_be_bytes 2 (Z.of_nat (length body)) ++ body ∧
    decode_many 2 (Reader.new body) = (Ok [sample; sample], r).
Proof.
  assert (Forall config_ok [sample; sample]) as H by (repeat constructor; apply sample_ok).
  destruct (encode_list [sample; sample]) as [b|] eqn:E; [|vm_compute in E; discriminate].
  destruct (ech_list_roundtrip [sample; sample] b H E) as (body & r & Hb & _ & Hd & _).
  exists b, body, r. done.
Defined.
