(* ===== verification/Base64.v ===== *)
(** * The base64 interface

    The sources call the base64ct crate, which the development treats as the
    interface [Base64] with the laws its documentation promises.  The standard
    codec of RFC 4648 is an instance of both, so that every theorem that assumes
    the laws has a concrete application. *)

From Stdlib Require Import Strings.Byte.
From S2P Require Import Prelude.
From S2P Require Import RustStr.

(** [base64ct::Base64]: the standard alphabet with padding. *)
Class Base64 := {
  encode_string : bytes → bytes;
  decode_vec : bytes → option bytes;
}.

Definition b64_char (b : byte) : bool :=
  is_ascii_alphanumeric b || in_range 0x2b 0x2b b || in_range 0x2f 0x2f b ||
  in_range 0x3d 0x3d b.

Class Base64Laws `{Base64} : Prop := {
  decode_encode_string x : decode_vec (encode_string x) = Some x;
  encode_string_alphabet x : forallb b64_char (encode_string x) = true;
}.


Definition char6 (n : Z) : byte :=
  if (n <? 26)%Z then z2b (0x41 + n)
  else if (n <? 52)%Z then z2b (0x61 + n - 26)
  else if (n <? 62)%Z then z2b (0x30 + n - 52)
  else if (n <? 63)%Z then x2b else x2f.

Definition val6 (b : byte) : option Z :=
  if in_range 0x41 0x5a b then Some (b2z b - 0x41)%Z
  else if in_range 0x61 0x7a b then Some (b2z b - 0x61 + 26)%Z
  else if in_range 0x30 0x39 b then Some (b2z b - 0x30 + 52)%Z
  else if bool_decide (b = x2b) then Some 62%Z
  else if bool_decide (b = x2f) then Some 63%Z
  else None.

Definition pad : byte := x3d.

Fixpoint b64_encode (s : bytes) : bytes :=
  match s with
  | a :: b :: c :: s =>
      [char6 (b2z a / 4); char6 (b2z a mod 4 * 16 + b2z b / 16);
       char6 (b2z b mod 16 * 4 + b2z c / 64); char6 (b2z c mod 64)] ++ b64_encode s
  | [a; b] =>
      [char6 (b2z a / 4); char6 (b2z a mod 4 * 16 + b2z b / 16);
       char6 (b2z b mod 16 * 4); pad]
  | [a] => [char6 (b2z a / 4); char6 (b2z a mod 4 * 16); pad; pad]
  | [] => []
  end.

Fixpoint b64_decode (s : bytes) : option bytes :=
  match s with
  | [] => Some []
  | w :: x :: y :: z :: s =>
      w ← val6 w; x ← val6 x;
      if bool_decide (y = pad) then
        if bool_decide (z = pad) && bool_decide (s = [])
        then Some [z2b (w * 4 + x / 16)] else None
      else
        y ← val6 y;
        if bool_decide (z = pad) then
          if bool_decide (s = [])
          then Some [z2b (w * 4 + x / 16); z2b (x mod 16 * 16 + y / 4)] else None
        else
          z ← val6 z; rest ← b64_decode s;
          Some (z2b (w * 4 + x / 16) :: z2b (x mod 16 * 16 + y / 4) ::
                z2b (y mod 4 * 64 + z) :: rest)
  | _ => None
  end.

(** ** Lemmas *)
Lemma char6_spec (n : Z) :
  (0 ≤ n < 64)%Z →
  val6 (char6 n) = Some n ∧ char6 n ≠ pad ∧ b64_char (char6 n) = true.
Proof.
  intros Hn.
  assert (forallb (λ n, bool_decide (val6 (char6 n) = Some n) &&
            bool_decide (char6 n ≠ pad) && b64_char (char6 n)) (seqZ 0 64) = true) as H
    by (vm_compute; reflexivity).
  rewrite forallb_forall in H. specialize (H n).
  assert (In n (seqZ 0 64)) as Hin by (apply list_elem_of_In, elem_of_seqZ; lia).
  apply H in Hin. bools. done.
Qed.

Lemma z2b_eq (z : Z) (b : byte) : z = b2z b → z2b z = b.
Proof. intros ->. apply z2b_b2z. Qed.

Lemma bytes_ind3 (P : bytes → Prop) :
  P [] → (∀ a, P [a]) → (∀ a b, P [a; b]) →
  (∀ a b c s, P s → P (a :: b :: c :: s)) → ∀ s, P s.
Proof.
  intros H0 H1 H2 H3.
  assert (∀ s, P s ∧ (∀ a, P (a :: s)) ∧ (∀ a b, P (a :: b :: s))) as H; [|apply H].
  induction s as [|x s (IH1 & IH2 & IH3)]; [auto|]. auto.
Qed.

(** The quotients and remainders of three bytes are sextets. *)
Lemma sextets (a b : byte) :
  (0 ≤ b2z a / 4 < 64)%Z ∧ (0 ≤ b2z a mod 64 < 64)%Z ∧
  (0 ≤ b2z a mod 4 * 16 + b2z b / 16 < 64)%Z ∧
  (0 ≤ b2z a mod 16 * 4 + b2z b / 64 < 64)%Z ∧
  (0 ≤ b2z a mod 4 * 16 < 64)%Z ∧ (0 ≤ b2z a mod 16 * 4 < 64)%Z.
Proof.
  pose proof (b2z_range a). pose proof (b2z_range b).
  change (2 ^ 8)%Z with 256%Z in *. Z.div_mod_to_equations. lia.
Qed.

Lemma b64_decode_encode (s : bytes) : b64_decode (b64_encode s) = Some s.
Proof.
  induction s as [|a|a b|a b c s IH] using bytes_ind3; [done|..]; cbn [b64_encode app];
    cbn [b64_decode].
  - destruct (sextets a a) as (S1 & _ & _ & _ & S2 & _).
    destruct (char6_spec _ S1) as (-> & _ & _). destruct (char6_spec _ S2) as (-> & _ & _).
    cbn. do 2 f_equal. apply z2b_eq. pose proof (b2z_range a).
    change (2 ^ 8)%Z with 256%Z in *. Z.div_mod_to_equations. lia.
  - destruct (sextets a b) as (S1 & _ & S2 & _).
    destruct (sextets b b) as (_ & _ & _ & _ & _ & S3).
    destruct (char6_spec _ S1) as (-> & _ & _). destruct (char6_spec _ S2) as (-> & _ & _).
    destruct (char6_spec _ S3) as (-> & Hp & _). cbn.
    rewrite bool_decide_false by done. cbn.
    pose proof (b2z_range a). pose proof (b2z_range b). change (2 ^ 8)%Z with 256%Z in *.
    f_equal. f_equal; [|f_equal]; apply z2b_eq; Z.div_mod_to_equations; lia.
  - destruct (sextets a b) as (S1 & _ & S2 & _). destruct (sextets b c) as (_ & _ & _ & S3 & _).
    destruct (sextets c c) as (_ & S4 & _).
    destruct (char6_spec _ S1) as (-> & _ & _). destruct (char6_spec _ S2) as (-> & _ & _).
    destruct (char6_spec _ S3) as (-> & Hp & _). destruct (char6_spec _ S4) as (-> & Hq & _).
    cbn. rewrite !bool_decide_false by done. cbn. rewrite IH. cbn.
    pose proof (b2z_range a). pose proof (b2z_range b). pose proof (b2z_range c).
    change (2 ^ 8)%Z with 256%Z in *.
    f_equal. f_equal; [|f_equal; [|f_equal]]; apply z2b_eq; Z.div_mod_to_equations; lia.
Qed.

Lemma b64_encode_alphabet (s : bytes) : forallb b64_char (b64_encode s) = true.
Proof.
  induction s as [|a|a b|a b c s IH] using bytes_ind3; [done|..]; cbn [b64_encode app forallb].
  - destruct (sextets a a) as (S1 & _ & _ & _ & S2 & _).
    destruct (char6_spec _ S1) as (_ & _ & ->). by destruct (char6_spec _ S2) as (_ & _ & ->).
  - destruct (sextets a b) as (S1 & _ & S2 & _).
    destruct (sextets b b) as (_ & _ & _ & _ & _ & S3).
    destruct (char6_spec _ S1) as (_ & _ & ->). destruct (char6_spec _ S2) as (_ & _ & ->).
    by destruct (char6_spec _ S3) as (_ & _ & ->).
  - destruct (sextets a b) as (S1 & _ & S2 & _). destruct (sextets b c) as (_ & _ & _ & S3 & _).
    destruct (sextets c c) as (_ & S4 & _).
    destruct (char6_spec _ S1) as (_ & _ & ->). destruct (char6_spec _ S2) as (_ & _ & ->).
    destruct (char6_spec _ S3) as (_ & _ & ->). by destruct (char6_spec _ S4) as (_ & _ & ->).
Qed.

Definition Base64Std : Base64 := {|
  encode_string := b64_encode;
  decode_vec := b64_decode;
|}.

Lemma Base64Std_laws : @Base64Laws Base64Std.
Proof. split; [apply b64_decode_encode | apply b64_encode_alphabet]. Qed.

(** RFC 4648, section 10. *)
Example b64_vectors :
  map b64_encode [str "f"; str "fo"; str "foo"; str "foob"; str "fooba"; str "foobar"] =
  [str "Zg=="; str "Zm8="; str "Zm9v"; str "Zm9vYg=="; str "Zm9vYmE="; str "Zm9vYmFy"].
Proof. reflexivity. Qed.
