(* ===== verification/EchKey.v ===== *)
(** * src/ech/key.rs: PEM bundles of ECH keys

    [parse_pem_blocks], [parse_pem_bundle], [write_pem_block], [encode_pair_pem]
    and [EchKeySet::load].  Base64 is the interface of Base64.v; the file system is
    the record [FileSystem].  A path is its list of components, so that [sort]
    compares as [PathBuf] does.

    The theorems: printing pairs and parsing them back, over any number of pairs
    and blank lines; and what a loaded key set guarantees: well-formed
    configurations that encode, distinct identifiers, files read in name order
    with hidden ones skipped. *)

From Stdlib Require Import Strings.Byte.
From S2P Require Import Prelude.
From S2P Require Import RustStr.
From S2P Require Import EchConfig.
From S2P Require Import Base64.

(** ** Interfaces *)

Definition Path : Type := list bytes.

Record FileSystem (IoError : Type) := mkFileSystem {
  metadata_is_dir : Path → result IoError bool;
  (** the file names of a directory; an entry may fail to be read *)
  read_dir : Path → result IoError (list (option bytes));
  is_file : Path → bool;
  read : Path → result IoError bytes;
}.
Arguments metadata_is_dir {IoError}.
Arguments read_dir {IoError}.
Arguments is_file {IoError}.
Arguments read {IoError}.

(** ** Data *)

Definition PEM_LABEL_KEY : bytes := str "ECH PRIVATE KEY".
Definition PEM_LABEL_CONFIG : bytes := str "ECH CONFIG".

Record EchKeyPair := mkEchKeyPair { private_key : bytes; config : EchConfig }.
Record EchKeySet := mkEchKeySet { pairs : list EchKeyPair }.
Record PemBlock := mkPemBlock { label : bytes; body : bytes }.

Inductive PemError :=
| NotUtf8 | ExpectedBegin (line : bytes) | MissingEnd (label : bytes)
| InvalidBase64 (label : bytes)
| ConfigBeforeKey | UnexpectedLabel (label : bytes) | MissingConfig
| ExpectedConfig (found : bytes) | DecodingConfig (e : EchError).

Inductive KeyError (IoError : Type) :=
| StatFailed (e : IoError) | ReadDirFailed (e : IoError) | ReadFailed (e : IoError)
| EmptyDirectory | ParsingPem (p : Path) (e : PemError) | NoPairs (p : Path)
| DuplicateConfigId (id : byte).
Arguments StatFailed {IoError}.
Arguments ReadDirFailed {IoError}.
Arguments ReadFailed {IoError}.
Arguments EmptyDirectory {IoError}.
Arguments ParsingPem {IoError}.
Arguments NoPairs {IoError}.
Arguments DuplicateConfigId {IoError}.

(** The order of [PathBuf]: lexicographic on components, bytewise on each. *)
Fixpoint bytes_le (a b : bytes) : bool :=
  match a, b with
  | [], _ => true
  | _ :: _, [] => false
  | x :: a, y :: b =>
      (b2z x <? b2z y)%Z || (bool_decide (x = y) && bytes_le a b)
  end.

Fixpoint path_le (a b : Path) : bool :=
  match a, b with
  | [], _ => true
  | _ :: _, [] => false
  | x :: a, y :: b =>
      if bool_decide (x = y) then path_le a b else bytes_le x y
  end.

Definition path_order (a b : Path) : Prop := path_le a b = true.

#[global] Instance path_order_dec : RelDecision path_order :=
  λ a b, bool_eq_dec (path_le a b) true.

Section Pem.
Context `{Base64}.

(** ** Parsing *)

Definition begin_label (trimmed : bytes) : option bytes :=
  rest ← strip_prefix (str "-----BEGIN ") trimmed;
  strip_suffix (str "-----") rest.

Definition end_marker (label : bytes) : bytes :=
  str "-----END " ++ label ++ str "-----".

(** The two loops of [parse_pem_blocks], which share the line iterator: the outer
    one looks for a BEGIN line, the inner one collects base64 up to the END. *)
Fixpoint blocks_outer (lines : list bytes) (out : list PemBlock)
    : result PemError (list PemBlock) :=
  match lines with
  | [] => Ok out
  | line :: lines =>
      let trimmed := trim line in
      if bool_decide (trimmed = []) then blocks_outer lines out
      else
        match begin_label trimmed with
        | None => Err (ExpectedBegin trimmed)
        | Some label => blocks_inner lines out label []
        end
  end
with blocks_inner (lines : list bytes) (out : list PemBlock) (label b64 : bytes)
    : result PemError (list PemBlock) :=
  match lines with
  | [] => Err (MissingEnd label)
  | inner :: lines =>
      let t := trim inner in
      if bool_decide (t = end_marker label) then
        match decode_vec b64 with
        | None => Err (InvalidBase64 label)
        | Some body => blocks_outer lines (out ++ [mkPemBlock label body])
        end
      else if bool_decide (t = []) then blocks_inner lines out label b64
      else blocks_inner lines out label (b64 ++ t)
  end.

Definition parse_pem_blocks (b : bytes) : result PemError (list PemBlock) :=
  text ← ok_or NotUtf8 (from_utf8 b);
  blocks_outer (lines text) [].

(** The [while let Some(first) = iter.next()] loop of [parse_pem_bundle]. *)
Fixpoint pair_blocks (blocks : list PemBlock) (out : list EchKeyPair)
    : result PemError (list EchKeyPair) :=
  match blocks with
  | [] => Ok out
  | first :: blocks =>
      if bool_decide (label first = PEM_LABEL_KEY) then
        match blocks with
        | [] => Err MissingConfig
        | config_block :: blocks =>
            if negb (bool_decide (label config_block = PEM_LABEL_CONFIG))
            then Err (ExpectedConfig (label config_block))
            else
              config ← map_err DecodingConfig (decode (body config_block));
              pair_blocks blocks (out ++ [mkEchKeyPair (body first) config])
        end
      else if bool_decide (label first = PEM_LABEL_CONFIG) then Err ConfigBeforeKey
      else Err (UnexpectedLabel (label first))
  end.

Definition parse_pem_bundle (b : bytes) : result PemError (list EchKeyPair) :=
  blocks ← parse_pem_blocks b;
  pair_blocks blocks [].

(** ** Printing *)

Definition newline : bytes := [x0a].

Definition write_pem_block (label body : bytes) : bytes :=
  let encoded := encode_string body in
  str "-----BEGIN " ++ label ++ str "-----" ++ newline ++
  (chunks 64 encoded ≫= λ chunk, chunk ++ newline) ++
  str "-----END " ++ label ++ str "-----" ++ newline.

Definition encode_pair_pem (private_key : bytes) (config : EchConfig) : panics bytes :=
  cfg ← encode config;
  Returns (write_pem_block PEM_LABEL_KEY private_key ++
           write_pem_block PEM_LABEL_CONFIG cfg).

(** ** Loading *)

Section Load.
Context {IoError : Type} (fs : FileSystem IoError).

Definition visible (name : bytes) : bool :=
  utf8_valid name && negb (starts_with (str ".") name).

Definition dir_entries (path : Path) (names : list (option bytes)) : list Path :=
  merge_sort path_order
    (map (λ n, path ++ [n]) (List.filter visible (omap id names))).

Fixpoint read_entries (entries : list Path)
    : result (KeyError IoError) (list (Path * bytes)) :=
  match entries with
  | [] => Ok []
  | entry :: entries =>
      if is_file fs entry then
        b ← map_err ReadFailed (read fs entry);
        rest ← read_entries entries;
        Ok ((entry, b) :: rest)
      else read_entries entries
  end.

Definition read_bundles (path : Path) : result (KeyError IoError) (list (Path * bytes)) :=
  is_dir ← map_err StatFailed (metadata_is_dir fs path);
  if (is_dir : bool) then
    names ← map_err ReadDirFailed (read_dir fs path);
    bundles ← read_entries (dir_entries path names);
    if bool_decide (bundles = []) then Err EmptyDirectory else Ok bundles
  else
    b ← map_err ReadFailed (read fs path);
    Ok [(path, b)].

Fixpoint parse_bundles (bundles : list (Path * bytes))
    : result (KeyError IoError) (list EchKeyPair) :=
  match bundles with
  | [] => Ok []
  | (origin, b) :: bundles =>
      file_pairs ← map_err (ParsingPem origin) (parse_pem_bundle b);
      if bool_decide (file_pairs = []) then Err (NoPairs origin)
      else
        rest ← parse_bundles bundles;
        Ok (file_pairs ++ rest)
  end.

Definition pair_id (p : EchKeyPair) : byte := config_id (config p).

(** The two nested index loops: compare each pair with those after it. *)
Fixpoint check_ids (ps : list EchKeyPair) : result (KeyError IoError) unit :=
  match ps with
  | [] => Ok tt
  | p :: ps =>
      if existsb (λ q, bool_decide (pair_id p = pair_id q)) ps
      then Err (DuplicateConfigId (pair_id p))
      else check_ids ps
  end.

Definition load (path : Path) : result (KeyError IoError) EchKeySet :=
  bundles ← read_bundles path;
  ps ← parse_bundles bundles;
  _ ← check_ids ps;
  Ok (mkEchKeySet ps).
End Load.
End Pem.

Definition config_list_bytes (s : EchKeySet) : panics bytes :=
  encode_list (map config (pairs s)).

(** ** Lemmas: printing and parsing PEM *)

(** A label PEM lines can carry: printable ASCII. *)
Definition label_ok (l : bytes) : bool := forallb (in_range 0x20 0x7e) l.

Lemma label_ok_ascii (l : bytes) : label_ok l = true → forallb is_ascii l = true.
Proof.
  unfold label_ok. rewrite !forallb_forall. intros H b Hb%H.
  unfold is_ascii, in_range in *. lia.
Qed.

Lemma printable_no_eol (l : bytes) : label_ok l = true → (x0a ∉ l) ∧ (x0d ∉ l).
Proof.
  unfold label_ok. rewrite forallb_forall. intros H.
  split; intros Hin%list_elem_of_In%H; by vm_compute in Hin.
Qed.

(** A line framed by dashes is left alone by [trim]. *)
Lemma trim_dashes (p l : bytes) :
  head p = Some x2d → trim (p ++ l ++ str "-----") = p ++ l ++ str "-----".
Proof.
  intros Hp. apply (trim_graphic x2d x2d); [done|done| |].
  - by destruct p.
  - rewrite app_assoc, last_app. done.
Qed.

Definition begin_line (l : bytes) : bytes := str "-----BEGIN " ++ l ++ str "-----".

Lemma dashed_label_ok (p l : bytes) :
  label_ok p = true → label_ok l = true → label_ok (p ++ l ++ str "-----") = true.
Proof. unfold label_ok. intros Hp Hl. by rewrite !forallb_app, Hp, Hl. Qed.

Lemma begin_label_line (l : bytes) : begin_label (begin_line l) = Some l.
Proof.
  unfold begin_label, begin_line. rewrite strip_prefix_app. cbn -[strip_suffix].
  apply strip_suffix_app.
Qed.

(** A line of base64: graphic characters, no dash. *)
Definition b64_line (c : bytes) : Prop := c ≠ [] ∧ forallb b64_char c = true.

Lemma b64_char_graphic (b : byte) : b64_char b = true → is_graphic b = true.
Proof.
  unfold b64_char, is_ascii_alphanumeric, is_graphic, in_range. lia.
Qed.

Lemma b64_graphic (c : bytes) : forallb b64_char c = true → forallb is_graphic c = true.
Proof. rewrite !forallb_forall. intros H b Hb%H. by apply b64_char_graphic. Qed.

Lemma b64_line_not_end (c l : bytes) : forallb b64_char c = true → c ≠ end_marker l.
Proof. intros H ->. cbn in H. done. Qed.

Lemma lines_chunks (cs : list bytes) (s : bytes) :
  Forall b64_line cs →
  lines ((cs ≫= λ c, c ++ newline) ++ s) = cs ++ lines s.
Proof.
  induction 1 as [|c cs [_ Hc] _ IH]; [done|].
  rewrite bind_cons, <- !app_assoc. cbn [app].
  destruct (graphic_no_eol c (b64_graphic c Hc)).
  unfold newline at 1. cbn [app]. rewrite lines_line by done. by rewrite IH.
Qed.

Section PemFacts.
Context `{Base64Laws}.

Lemma blocks_inner_chunks (cs ls : list bytes) out l b64 :
  Forall b64_line cs →
  blocks_inner (cs ++ ls) out l b64 = blocks_inner ls out l (b64 ++ concat cs).
Proof.
  intros Hcs. revert b64. induction Hcs as [|c cs [Hne Hc] _ IH]; intros b64.
  - cbn. by rewrite app_nil_r.
  - cbn [app blocks_inner]. rewrite trim_all_graphic by (try apply b64_graphic; done).
    rewrite !bool_decide_false by (done || by apply b64_line_not_end).
    rewrite IH. cbn. by rewrite app_assoc.
Qed.

Lemma encoded_chunks (body : bytes) : Forall b64_line (chunks 64 (encode_string body)).
Proof.
  pose proof (encode_string_alphabet body) as Ha.
  pose proof (chunks_length 64 (encode_string body) ltac:(lia)) as Hlen.
  assert (Forall (λ c, forallb b64_char c = true) (chunks 64 (encode_string body))) as Hc.
  { rewrite <- (concat_chunks 64 (encode_string body)) in Ha by lia.
    clear Hlen. induction (chunks 64 (encode_string body)) as [|c cs IH]; [done|].
    cbn in Ha. rewrite forallb_app in Ha. bools. constructor; [done|]. by apply IH. }
  rewrite Forall_forall in *. intros c Hin. split; [|by apply Hc].
  apply Hlen in Hin. intros ->. cbn in Hin. lia.
Qed.

(** One printed block, whatever follows it. *)
Lemma blocks_outer_block (l b s : bytes) (out : list PemBlock) :
  label_ok l = true →
  blocks_outer (lines (write_pem_block l b ++ s)) out =
  blocks_outer (lines s) (out ++ [mkPemBlock l b]).
Proof.
  intros Hl. unfold write_pem_block.
  assert (∀ p, label_ok p = true → ∀ s,
            lines (p ++ l ++ str "-----" ++ newline ++ s) =
            (p ++ l ++ str "-----") :: lines s) as Hline.
  { intros p Hp s'. destruct (printable_no_eol _ (dashed_label_ok p l Hp Hl)).
    rewrite <- lines_line by done. by rewrite <- !app_assoc. }
  rewrite <- !app_assoc. rewrite Hline by done.
  rewrite lines_chunks by apply encoded_chunks. rewrite Hline by done.
  cbn [blocks_outer]. rewrite trim_dashes by done.
  rewrite bool_decide_false by done. fold (begin_line l). rewrite begin_label_line.
  rewrite blocks_inner_chunks by apply encoded_chunks.
  cbn [blocks_inner]. rewrite trim_dashes by done. rewrite bool_decide_true by done.
  rewrite concat_chunks by lia. cbn [app]. by rewrite decode_encode_string.
Qed.

Lemma blocks_outer_blank (k : nat) (s : bytes) (out : list PemBlock) :
  blocks_outer (lines (replicate k x0a ++ s)) out = blocks_outer (lines s) out.
Proof.
  induction k as [|k IH]; [done|]. cbn [replicate app].
  change (x0a :: replicate k x0a ++ s) with ([] ++ x0a :: (replicate k x0a ++ s)).
  rewrite lines_line by set_solver. done.
Qed.

Lemma write_pem_block_ascii (l b : bytes) :
  label_ok l = true → forallb is_ascii (write_pem_block l b) = true.
Proof.
  intros Hl%label_ok_ascii. unfold write_pem_block.
  rewrite !forallb_app, Hl. cbn [forallb str String.list_byte_of_string andb].
  assert (forallb is_ascii (chunks 64 (encode_string b) ≫= λ c, c ++ newline) = true) as ->;
    [|done].
  induction (encoded_chunks b) as [|c cs [_ Hc] _ IH]; [done|].
  rewrite bind_cons, !forallb_app, IH. cbn. rewrite !andb_true_r.
  apply forallb_forall. intros x Hx. apply is_graphic_ascii.
  by apply (proj1 (forallb_forall _ _) (b64_graphic c Hc)).
Qed.

(** ** Lemmas: bundles *)

(** Printing several pairs, each followed by some blank lines. *)
Fixpoint print_pairs (items : list (EchKeyPair * nat)) : panics bytes :=
  match items with
  | [] => Returns []
  | (p, k) :: items =>
      b ← encode_pair_pem (private_key p) (config p);
      rest ← print_pairs items;
      Returns (b ++ replicate k x0a ++ rest)
  end.

(** The blocks [print_pairs] writes. *)
Definition pair_blocks_of (p : EchKeyPair) (cfg : bytes) : list PemBlock :=
  [mkPemBlock PEM_LABEL_KEY (private_key p); mkPemBlock PEM_LABEL_CONFIG cfg].

Lemma print_pairs_blocks (items : list (EchKeyPair * nat)) (text : bytes) :
  print_pairs items = Returns text →
  forallb is_ascii text = true ∧
  ∃ cfgs, Forall2 (λ pk cfg, encode (config pk.1) = Returns cfg) items cfgs ∧
    ∀ out, blocks_outer (lines text) out =
      Ok (out ++ concat (zip_with (λ pk, pair_blocks_of pk.1) items cfgs)).
Proof.
  revert text. induction items as [|[p k] items IH]; intros text; cbn [print_pairs].
  - intros [= <-]. split; [done|]. exists []. split; [done|]. intros out. cbn.
    by rewrite app_nil_r.
  - intros Hp. unbind Hp as (b & Hb & Hp). unbind Hp as (rest & Hrest & Hp).
    apply Returns_inj in Hp as <-. unfold encode_pair_pem in Hb.
    unbind Hb as (cfg & Hcfg & Hb). apply Returns_inj in Hb as <-. destruct (IH _ Hrest) as (Ha & cfgs & HF & Hout). split.
    + apply forallb_app_2; [apply forallb_app_2; by apply write_pem_block_ascii|].
      apply forallb_app_2; [|done]. clear. by induction k.
    + exists (cfg :: cfgs). split; [by constructor|]. intros out.
      rewrite <- app_assoc. rewrite !blocks_outer_block by done.
      rewrite blocks_outer_blank, Hout. cbn. by rewrite <- !app_assoc.
Qed.

Lemma pair_blocks_print (items : list (EchKeyPair * nat)) (cfgs : list bytes) :
  Forall (λ pk, config_ok (config pk.1)) items →
  Forall2 (λ pk cfg, encode (config pk.1) = Returns cfg) items cfgs →
  ∀ out, pair_blocks (concat (zip_with (λ pk, pair_blocks_of pk.1) items cfgs)) out =
    Ok (out ++ map fst items).
Proof.
  intros Hok HF. induction HF as [|[p k] cfg items cfgs Hcfg _ IH]; intros out.
  - cbn. by rewrite app_nil_r.
  - inversion Hok as [|? ? Hp Hok']; subst.
    cbn [zip_with concat pair_blocks_of app pair_blocks label body fst] in *.
    rewrite !bool_decide_true by done. cbn [negb].
    rewrite (decode_encode_config _ _ Hp Hcfg). cbn.
    rewrite IH by done. rewrite <- app_assoc. by destruct p.
Qed.

Lemma parse_print_pairs (items : list (EchKeyPair * nat)) (text : bytes) :
  Forall (λ pk, config_ok (config pk.1)) items →
  print_pairs items = Returns text →
  parse_pem_bundle text = Ok (map fst items).
Proof.
  intros Hok (Ha & cfgs & HF & Hout)%print_pairs_blocks.
  unfold parse_pem_bundle, parse_pem_blocks, from_utf8.
  rewrite utf8_valid_ascii by done. cbn -[lines blocks_outer pair_blocks].
  rewrite Hout. cbn -[pair_blocks]. by rewrite (pair_blocks_print items).
Qed.
End PemFacts.

(** Every configuration of a parsed bundle was decoded, hence is well formed. *)
Definition pair_ok (p : EchKeyPair) : Prop :=
  config_ok (config p) ∧ ∃ b, encode (config p) = Returns b.

Lemma pair_blocks_decoded (blocks : list PemBlock) (out ps : list EchKeyPair) :
  pair_blocks blocks out = Ok ps → Forall pair_ok out → Forall pair_ok ps.
Proof.
  remember (length blocks) as n eqn:Hn. revert blocks out Hn.
  induction (lt_wf n) as [n _ IH]. intros blocks out -> Hb Hout.
  destruct blocks as [|k blocks]; cbn [pair_blocks] in Hb; [by injection Hb as <-|].
  case_bool_decide; [|by case_bool_decide].
  destruct blocks as [|c blocks]; [done|].
  case_bool_decide; [|done]. cbn [negb] in Hb. unbind Hb as (cfg & Hcfg & Hb).
  eapply IH; [| reflexivity | exact Hb |]; [cbn; lia|].
  apply Forall_app. split; [done|]. constructor; [|done]. cbn.
  destruct (decode _) as [cfg'|] eqn:E; [|done]. injection Hcfg as ->.
  unfold pair_ok. apply decoded_config_encodes in E as (? & b & ? & _). eauto.
Qed.

Section LoadFacts.
Context `{Base64} {IoError : Type} (fs : FileSystem IoError).

Lemma check_ids_iff (ps : list EchKeyPair) :
  check_ids (IoError:=IoError) ps = Ok tt ↔ NoDup (map pair_id ps).
Proof.
  induction ps as [|p ps IH]; cbn.
  - split; [constructor|done].
  - rewrite NoDup_cons, <- IH, list_elem_of_fmap.
    destruct (existsb _ _) eqn:E.
    + apply existsb_exists in E as (q & Hq & Hid). bools.
      split; [done|]. intros [Hn _]. destruct Hn. exists q.
      split; [done|by apply list_elem_of_In].
    + split; [|naive_solver]. intros Hc. split; [|done]. intros (q & Hid & Hq).
      assert (existsb (λ q, bool_decide (pair_id p = pair_id q)) ps = true) as H1;
        [|congruence].
      apply existsb_exists. exists q. rewrite bool_decide_true by done.
      split; [by apply list_elem_of_In|done].
Qed.

Lemma read_entries_Ok (entries : list Path) (bundles : list (Path * bytes)) :
  read_entries fs entries = Ok bundles →
  Forall2 (λ f fb, fb.1 = f ∧ read fs f = Ok fb.2) (List.filter (is_file fs) entries) bundles.
Proof.
  revert bundles. induction entries as [|e es IH]; intros bundles; cbn.
  - intros [= <-]. constructor.
  - destruct (is_file fs e); [|apply IH]. intros Hb. unbind Hb as (b & Hread & Hb).
    unbind Hb as (rest & Hrest & [= <-]). constructor; [|by apply IH].
    destruct (read fs e) eqn:E; [|done]. injection Hread as ->. done.
Qed.

(** The pairs of one file. *)
Definition file_pairs (f : Path) (ps : list EchKeyPair) : Prop :=
  ∃ b, read fs f = Ok b ∧ parse_pem_bundle b = Ok ps ∧ ps ≠ [].

Lemma parse_bundles_Ok (bundles : list (Path * bytes)) (ps : list EchKeyPair) :
  parse_bundles (IoError:=IoError) bundles = Ok ps →
  ∃ pss, Forall2 (λ fb ps, parse_pem_bundle fb.2 = Ok ps ∧ ps ≠ []) bundles pss ∧
    ps = concat pss.
Proof.
  revert ps. induction bundles as [|[f b] bundles IH]; intros ps; cbn.
  - intros [= <-]. exists []. split; [constructor|done].
  - intros Hb. unbind Hb as (fp & Hfp & Hb). case_bool_decide; [done|].
    unbind Hb as (rest & Hrest & [= <-]). destruct (IH _ Hrest) as (pss & HF & ->).
    exists (fp :: pss). split; [|done]. constructor; [|done]. cbn.
    destruct (parse_pem_bundle b); [|done]. by injection Hfp as ->.
Qed.

Lemma bundles_file_pairs (files : list Path) (bundles : list (Path * bytes))
    (pss : list (list EchKeyPair)) :
  Forall2 (λ f fb, fb.1 = f ∧ read fs f = Ok fb.2) files bundles →
  Forall2 (λ fb ps, parse_pem_bundle fb.2 = Ok ps ∧ ps ≠ []) bundles pss →
  Forall2 file_pairs files pss.
Proof.
  intros H1. revert pss. induction H1 as [|f fb files bundles [_ Hr] _ IH]; intros pss H2;
    inversion H2; subst; constructor; [|by apply IH].
  unfold file_pairs. naive_solver.
Qed.

Lemma load_Ok (path : Path) (ks : EchKeySet) :
  load fs path = Ok ks →
  NoDup (map pair_id (pairs ks)) ∧
  ∃ bundles pss, read_bundles fs path = Ok bundles ∧
    Forall2 (λ fb ps, parse_pem_bundle fb.2 = Ok ps ∧ ps ≠ []) bundles pss ∧
    pairs ks = concat pss.
Proof.
  unfold load. intros Hl. unbind Hl as (bundles & Hb & Hl). unbind Hl as (ps & Hps & Hl).
  unbind Hl as ([] & Hc%check_ids_iff & [= <-]). split; [done|].
  apply parse_bundles_Ok in Hps as (pss & HF & ->). eauto.
Qed.

Lemma read_bundles_ne (path : Path) bundles : read_bundles fs path = Ok bundles → bundles ≠ [].
Proof.
  unfold read_bundles. intros Hl. unbind Hl as ([] & _ & Hl).
  - unbind Hl as (names & _ & Hl). unbind Hl as (bs & _ & Hl).
    case_bool_decide; [done|]. by injection Hl as <-.
  - unbind Hl as (b & _ & [= <-]). done.
Qed.
End LoadFacts.

Lemma bytes_le_total (a b : bytes) : bytes_le a b = true ∨ bytes_le b a = true.
Proof.
  revert b. induction a as [|x a IH]; intros [|y b]; cbn; auto.
  destruct (decide (x = y)) as [->|Hne].
  - rewrite bool_decide_true by done. rewrite Z.ltb_irrefl. apply IH.
  - assert (b2z x ≠ b2z y) by (by intros ?%b2z_inj). lia.
Qed.

#[global] Instance path_order_total : Total path_order.
Proof.
  intros a. unfold path_order. induction a as [|x a IH]; intros [|y b]; cbn; auto.
  destruct (decide (x = y)) as [->|Hne].
  - rewrite !bool_decide_true by done. apply IH.
  - rewrite !bool_decide_false by done. apply bytes_le_total.
Qed.

(** ** Properties *)

(** A bundle printed from any number of key pairs with well-formed
    configurations, each followed by any number of blank lines, parses back to
    exactly those pairs in order. *)
Theorem pem_roundtrip `{Base64Laws} (items : list (EchKeyPair * nat)) (text : bytes) :
  Forall (λ pk, config_ok (config pk.1)) items →
  print_pairs items = Returns text →
  parse_pem_bundle text = Ok (map fst items).
Proof. apply parse_print_pairs. Qed.

Definition sample_pair : EchKeyPair := mkEchKeyPair (replicate 32 (z2b 0x55)) sample.

Lemma pem_roundtrip_witness :
  ∃ text, print_pairs (H:=Base64Std) [(sample_pair, 1); (sample_pair, 0)] = Returns text ∧
    parse_pem_bundle (H:=Base64Std) text = Ok [sample_pair; sample_pair].
Proof.
  destruct (print_pairs (H:=Base64Std) [(sample_pair, 1); (sample_pair, 0)]) as [text|] eqn:E;
    [|vm_compute in E; discriminate].
  exists text. split; [reflexivity|].
  apply (@pem_roundtrip Base64Std Base64Std_laws [(sample_pair, 1); (sample_pair, 0)] text);
    [|exact E].
  repeat (constructor; [exact sample_ok|]). constructor.
Defined.

(** What a key set is loaded from was decoded. *)
Lemma load_pairs_ok `{Base64} {IoError : Type} (fs : FileSystem IoError) path ks :
  load fs path = Ok ks → Forall pair_ok (pairs ks).
Proof.
  intros (_ & bundles & pss & _ & HF & ->)%load_Ok.
  induction HF as [|fb ps ? ? [Hps _] _ IH]; [constructor|].
  cbn. apply Forall_app. split; [|done].
  unfold parse_pem_bundle in Hps. unbind Hps as (blocks & _ & Hps).
  by apply pair_blocks_decoded in Hps; [|constructor].
Qed.

(** A key set that loads is non-empty, has at most 256 pairs with pairwise
    distinct config identifiers, and every configuration is well formed, so that
    encoding it for BoringSSL never panics. *)
Theorem keyset_load_sound `{Base64} {IoError : Type} (fs : FileSystem IoError)
    (path : Path) (ks : EchKeySet) :
  load fs path = Ok ks →
  pairs ks ≠ [] ∧ length (pairs ks) ≤ 256 ∧ NoDup (map pair_id (pairs ks)) ∧
  Forall pair_ok (pairs ks).
Proof.
  intros Hl. pose proof (load_pairs_ok _ _ _ Hl) as Hall.
  apply load_Ok in Hl as (Hnd & bundles & pss & Hb & HF & Hp). split_and!; [| |done|done].
  - rewrite Hp. apply read_bundles_ne in Hb. destruct HF as [|fb ps ? ? [_ Hne] _]; [done|].
    cbn. by destruct ps.
  - rewrite <- (length_map pair_id). by apply NoDup_bytes_length.
Qed.

(** A one-file system holding the printed sample pair. *)
Definition sample_pem : bytes :=
  match print_pairs (H:=Base64Std) [(sample_pair, 2)] with Returns t => t | Panics => [] end.

Definition sample_fs : FileSystem unit := {|
  metadata_is_dir p := Ok (bool_decide (p = [str "keys"]));
  read_dir _ := Ok [Some (str "b.pem"); Some (str ".swp"); None; Some (str "sub")];
  is_file p := bool_decide (last p ≠ Some (str "sub"));
  read _ := Ok sample_pem;
|}.

Lemma keyset_load_sound_witness :
  load (H:=Base64Std) sample_fs [str "keys"] = Ok (mkEchKeySet [sample_pair]) ∧
  length (pairs (mkEchKeySet [sample_pair])) ≤ 256.
Proof.
  assert (load (H:=Base64Std) sample_fs [str "keys"] = Ok (mkEchKeySet [sample_pair])) as E
    by (vm_compute; reflexivity).
  split; [exact E|].
  apply (keyset_load_sound (H:=Base64Std) sample_fs [str "keys"] _ E).
Defined.

(** Loading a directory takes its regular files with visible UTF-8 names, in
    the order of their names, each of which must parse to at least one pair, and
    concatenates their pairs; hidden files and subdirectories are skipped. *)
Theorem keyset_load_directory `{Base64} {IoError : Type} (fs : FileSystem IoError)
    (path : Path) (names : list (option bytes)) (ks : EchKeySet) :
  metadata_is_dir fs path = Ok true → read_dir fs path = Ok names →
  load fs path = Ok ks →
  ∃ entries pss,
    Sorted path_order entries ∧
    entries ≡ₚ map (λ n, path ++ [n]) (List.filter visible (omap id names)) ∧
    Forall2 (file_pairs fs) (List.filter (is_file fs) entries) pss ∧
    pairs ks = concat pss.
Proof.
  intros Hd Hn (_ & bundles & pss & Hb & HF & Hp)%load_Ok.
  unfold read_bundles in Hb. rewrite Hd in Hb. cbn in Hb. rewrite Hn in Hb. cbn in Hb.
  unbind Hb as (bs & Hbs & Hb). case_bool_decide; [done|]. injection Hb as ->.
  exists (dir_entries path names), pss. split_and!.
  - apply Sorted_merge_sort, _.
  - apply merge_sort_Permutation.
  - eapply bundles_file_pairs; [by apply read_entries_Ok|done].
  - done.
Qed.

Lemma keyset_load_directory_witness :
  ∃ entries pss, Sorted path_order entries ∧
    Forall2 (file_pairs (H:=Base64Std) sample_fs)
      (List.filter (is_file sample_fs) entries) pss ∧ [sample_pair] = concat pss.
Proof.
  destruct (keyset_load_directory (H:=Base64Std) sample_fs [str "keys"]
    [Some (str "b.pem"); Some (str ".swp"); None; Some (str "sub")]
    (mkEchKeySet [sample_pair]) ltac:(vm_compute; reflexivity) ltac:(reflexivity)
    ltac:(vm_compute; reflexivity)) as (entries & pss & Hs & _ & HF & Hp).
  exists entries, pss. split; [exact Hs|]. split; [exact HF|exact Hp].
Defined.
