(* ===== verification/Keygen.v ===== *)
(** * src/ech/keygen.rs: generating an ECH key

    [generate_hpke_x25519_keypair], [validate_public_name] and [run].  BoringSSL's
    HPKE functions are the record [HpkeFfi] of what each call returns; the random
    byte and the fate of the writes to stdout and stderr are arguments.

    The theorems: the exact names [validate_public_name] accepts, and that what
    [run] prints loads as a key set, alone or in a directory of such files, and is an
    ECHConfigList with exactly the generated configuration. *)

From Stdlib Require Import Strings.Byte.
From S2P Require Import Prelude.
From S2P Require Import RustStr.
From S2P Require Import EchConfig.
From S2P Require Import Base64.
From S2P Require Import EchKey.

Inductive KeygenError :=
| KeyNewFailed | GenerateFailed | PublicKeyFailed | PrivateKeyFailed
| NameLength | NameNoDot | NameInvalidChar (c : byte)
| WriteStdout | WriteStderr.

(** What the FFI calls return: a null pointer or not, success flags, and the
    32-byte output arrays with the length written. *)
Record HpkeFfi := mkHpkeFfi {
  key_new_null : bool;
  key_generate : bool;
  key_public_key : option (bytes * nat);
  key_private_key : option (bytes * nat);
}.

(** [buf[..n].to_vec()] panics past the end. *)
Definition slice_to {A} (l : list A) (n : nat) : panics (list A) :=
  if bool_decide (n ≤ length l) then Returns (take n l) else Panics.

Definition generate_hpke_x25519_keypair (ffi : HpkeFfi)
    : panics (result KeygenError (bytes * bytes)) :=
  if key_new_null ffi then Returns (Err KeyNewFailed)
  else if negb (key_generate ffi) then Returns (Err GenerateFailed)
  else
    match key_public_key ffi with
    | None => Returns (Err PublicKeyFailed)
    | Some (public_key, pub_len) =>
        match key_private_key ffi with
        | None => Returns (Err PrivateKeyFailed)
        | Some (private_key, priv_len) =>
            pub ← slice_to public_key pub_len;
            priv ← slice_to private_key priv_len;
            Returns (Ok (pub, priv))
        end
    end.

Definition name_char (c : byte) : bool :=
  is_ascii_alphanumeric c || bool_decide (c = x2e) || bool_decide (c = x2d).

Fixpoint check_name_chars (name : bytes) : result KeygenError unit :=
  match name with
  | [] => Ok tt
  | c :: name =>
      if negb (name_char c) then Err (NameInvalidChar c) else check_name_chars name
  end.

Definition validate_public_name (name : bytes) : result KeygenError unit :=
  if bool_decide (name = []) || bool_decide (253 < length name) then Err NameLength
  else if negb (contains_byte x2e name) then Err NameNoDot
  else check_name_chars name.

Record Output := mkOutput { stdout : bytes; stderr : bytes }.

Section Run.
Context `{Base64}.

Definition keygen_config (id : byte) (public_key public_name : bytes) : EchConfig := {|
  config_id := id;
  kem_id := HPKE_KEM_DHKEM_X25519;
  EchConfig.public_key := public_key;
  cipher_suites := [mkCipherSuite HPKE_KDF_HKDF_SHA256 HPKE_AEAD_AES_128_GCM];
  maximum_name_length := z2b 0;
  EchConfig.public_name := public_name;
|}.

Definition quote : bytes := [x22].
Definition backtick : bytes := [x60].

Definition guidance (public_name : bytes) (id : byte) (list_b64 : bytes) : bytes :=
  str "Generated ECH key for public name " ++ backtick ++ public_name ++ backtick ++
  str "." ++ newline ++
  str "config_id: 0x" ++ hex [id] ++ newline ++
  str "Publish the following base64-encoded ECHConfigList" ++ newline ++
  str "in an HTTPS DNS resource record's " ++ backtick ++ str "ech=" ++ backtick ++
  str " parameter:" ++ newline ++ newline ++
  str "  ech=" ++ quote ++ list_b64 ++ quote ++ newline ++ newline ++
  str "Run " ++ backtick ++ str "zeromasque serve --ech-key <FILE>" ++ backtick ++
  str " pointing at the PEM saved from stdout." ++ newline.

(** [run]: [random] is the byte drawn for the config id; [stdout_ok] and
    [stderr_ok] say whether the writes succeed. *)
Definition run (ffi : HpkeFfi) (random : byte) (stdout_ok stderr_ok : bool)
    (public_name : bytes) : panics (result KeygenError Output) :=
  match validate_public_name public_name with
  | Err e => Returns (Err e)
  | Ok _ =>
      keys ← generate_hpke_x25519_keypair ffi;
      match keys with
      | Err e => Returns (Err e)
      | Ok (public_key, private_key) =>
          let config := keygen_config random public_key public_name in
          pem ← encode_pair_pem private_key config;
          if negb stdout_ok then Returns (Err WriteStdout)
          else
            list_bytes ← encode_list [config];
            let list_b64 := encode_string list_bytes in
            if negb stderr_ok then Returns (Err WriteStderr)
            else Returns (Ok (mkOutput pem (guidance public_name random list_b64)))
      end
  end.
End Run.

(** ** Lemmas *)
Lemma check_name_chars_iff (name : bytes) :
  check_name_chars name = Ok tt ↔ forallb name_char name = true.
Proof.
  induction name as [|c name IH]; [done|]. cbn. destruct (name_char c); cbn; [done|].
  split; done.
Qed.

Lemma validate_public_name_Ok (name : bytes) :
  validate_public_name name = Ok tt ↔
  1 ≤ length name ≤ 253 ∧ x2e ∈ name ∧ forallb name_char name = true.
Proof.
  unfold validate_public_name, contains_byte.
  destruct (decide (name = [])) as [->|Hne]; [cbn; split; [done|]; lia|].
  assert (1 ≤ length name) by (destruct name; cbn; [done|lia]).
  rewrite (bool_decide_false (name = [])) by done. cbn [orb].
  case_bool_decide; cbn [orb]; [split; [done|lia]|].
  case_bool_decide; cbn [negb].
  - rewrite check_name_chars_iff. split; [|tauto]. intros. split_and!; try done. lia.
  - split; [done|]. tauto.
Qed.

Lemma name_char_ascii (c : byte) : name_char c = true → is_ascii c = true.
Proof.
  unfold name_char, is_ascii_alphanumeric, is_ascii, in_range. intros Hc.
  apply orb_true_iff in Hc as [Hc|Hc]; [|by bools; subst].
  apply orb_true_iff in Hc as [Hc|Hc]; [lia|by bools; subst].
Qed.

Lemma name_utf8 (name : bytes) : forallb name_char name = true → utf8_valid name = true.
Proof.
  intros Hn. apply utf8_valid_ascii, forallb_forall. intros c Hc.
  apply name_char_ascii. by apply (proj1 (forallb_forall _ _) Hn).
Qed.

(** The FFI fills 32-byte arrays and reports at most 32 bytes. *)
Definition ffi_ok (ffi : HpkeFfi) : Prop :=
  (∀ b n, key_public_key ffi = Some (b, n) → length b = 32 ∧ n ≤ 32) ∧
  (∀ b n, key_private_key ffi = Some (b, n) → length b = 32 ∧ n ≤ 32).

Lemma generate_Returns (ffi : HpkeFfi) :
  ffi_ok ffi →
  ∃ r, generate_hpke_x25519_keypair ffi = Returns r ∧
    ∀ pub priv, r = Ok (pub, priv) → length pub ≤ 32 ∧ length priv ≤ 32.
Proof.
  intros [Hpub Hpriv]. unfold generate_hpke_x25519_keypair, slice_to.
  destruct (key_new_null ffi); [by eexists|].
  destruct (key_generate ffi); cbn [negb]; [|by eexists].
  destruct (key_public_key ffi) as [[pb pn]|]; [|by eexists].
  destruct (key_private_key ffi) as [[sb sn]|]; [|by eexists].
  destruct (Hpub _ _ eq_refl), (Hpriv _ _ eq_refl).
  rewrite !bool_decide_true by lia. cbn. eexists. split; [done|].
  intros ? ? [= <- <-]. rewrite !length_take. lia.
Qed.

Lemma keygen_config_ok (id : byte) (pk name : bytes) :
  length pk ≤ 32 → validate_public_name name = Ok tt →
  config_ok (keygen_config id pk name) ∧ lengths_fit (keygen_config id pk name).
Proof.
  intros Hpk (Hl & _ & Hc)%validate_public_name_Ok.
  assert (in_width 16 (Z.of_nat (length pk))) by (unfold in_width; lia).
  assert (in_width 8 (Z.of_nat (length name))) by (unfold in_width; lia).
  split.
  - constructor; cbn; try done; [|by apply name_utf8].
    constructor; [by split; split|constructor].
  - unfold lengths_fit. rewrite length_fields. cbn. unfold in_width in *.
    split_and!; lia.
Qed.

(** ** Properties *)

(** [validate_public_name] accepts exactly the names of 1 to 253 bytes that
    contain a dot and only ASCII letters, digits, dots and dashes; such names are
    UTF-8 and fit the length byte of an ECHConfig. *)
Theorem public_name_iff (name : bytes) :
  (validate_public_name name = Ok tt ↔
   1 ≤ length name ≤ 253 ∧ x2e ∈ name ∧
   forallb (λ c, is_ascii_alphanumeric c || bool_decide (c = x2e) || bool_decide (c = x2d))
     name = true) ∧
  (validate_public_name name = Ok tt →
   utf8_valid name = true ∧ in_width 8 (Z.of_nat (length name))).
Proof.
  split; [apply validate_public_name_Ok|].
  intros (Hl & _ & Hc)%validate_public_name_Ok. split; [by apply name_utf8|].
  unfold in_width. lia.
Qed.

(** What [run] has printed on stdout, for the key pair it has generated. *)
Definition generates `{Base64} (text : bytes) (p : EchKeyPair) : Prop :=
  ∃ ffi id pub name out, ffi_ok ffi ∧
    generate_hpke_x25519_keypair ffi = Returns (Ok (pub, private_key p)) ∧
    run ffi id true true name = Returns (Ok out) ∧ stdout out = text ∧
    EchKey.config p = keygen_config id pub name.

Section Generated.
Context `{BL : Base64Laws}.

(** A working generator on a valid name: what it prints, and how that reads. *)
Lemma run_generates (ffi : HpkeFfi) (id : byte) (pub priv name : bytes) :
  ffi_ok ffi → generate_hpke_x25519_keypair ffi = Returns (Ok (pub, priv)) →
  validate_public_name name = Ok tt →
  let config := keygen_config id pub name in
  ∃ pem body r,
    run ffi id true true name = Returns (Ok (mkOutput pem
      (guidance name id (encode_string (to_be_bytes 2 (Z.of_nat (length body)) ++ body))))) ∧
    parse_pem_bundle pem = Ok [mkEchKeyPair priv config] ∧
    decode_many 1 (Reader.new body) = (Ok [config], r) ∧ Reader.is_empty r = true.
Proof.
  intros Hffi Hgen Hname config.
  assert (length pub ≤ 32) as Hpub.
  { destruct (generate_Returns ffi Hffi) as (r & Hr & Hlen). rewrite Hgen in Hr.
    apply Returns_inj in Hr. by destruct (Hlen pub priv). }
  destruct (keygen_config_ok id pub name Hpub Hname) as [Hc Hfit].
  fold config in Hc, Hfit.
  assert (∃ b, encode config = Returns b ∧ length b ≤ 400) as (b & Hb & Hbl).
  { rewrite encode_eq, decide_True by done. eexists. split; [done|].
    apply validate_public_name_Ok in Hname as (Hl & _).
    rewrite !length_app, !length_to_be_bytes, length_fields. cbn. lia. }
  assert (print_pairs [(mkEchKeyPair priv config, 0)] =
            Returns ((write_pem_block PEM_LABEL_KEY priv ++
                      write_pem_block PEM_LABEL_CONFIG b) ++ [] ++ [])) as Hpem.
  { cbn [print_pairs private_key EchKey.config]. unfold encode_pair_pem. by rewrite Hb. }
  rewrite !app_nil_r in Hpem.
  apply parse_print_pairs in Hpem; [|by apply Forall_singleton].
  assert (encode_list_body [config] = Returns b) as Hbody.
  { cbn [encode_list_body]. rewrite Hb. cbn. by rewrite app_nil_r. }
  destruct (encode_list_body_Returns [config] b ltac:(by apply Forall_singleton) Hbody
              (Reader.new b) eq_refl) as (r & Hr & Hrest).
  exists (write_pem_block PEM_LABEL_KEY priv ++ write_pem_block PEM_LABEL_CONFIG b), b, r.
  split_and!; [|exact Hpem|exact Hr|by rewrite is_empty_rest, Hrest].
  unfold run. rewrite Hname, Hgen. cbn [mbind panics_bind]. fold config.
  unfold encode_pair_pem. rewrite Hb. cbn [mbind panics_bind negb].
  unfold encode_list. rewrite Hbody. cbn [mbind panics_bind].
  rewrite try_from_in_width by (unfold in_width; lia). done.
Qed.

Lemma generates_parses text p : generates text p → parse_pem_bundle text = Ok [p].
Proof.
  intros (ffi & id & pub & name & out & Hffi & Hgen & Hrun & <- & Hc).
  assert (validate_public_name name = Ok tt) as Hname.
  { unfold run in Hrun. by destruct (validate_public_name name) as [[]|]. }
  destruct (run_generates ffi id pub (private_key p) name Hffi Hgen Hname)
    as (pem & body & r & Hrun' & Hp & _).
  rewrite Hrun in Hrun'. apply Returns_inj in Hrun'. injection Hrun' as ->.
  cbn [stdout]. rewrite Hp, <- Hc. by destruct p.
Qed.

Lemma parse_bundles_generated {IoError : Type} (bundles : list (Path * bytes)) ps :
  Forall2 (λ fb p, generates fb.2 p) bundles ps →
  parse_bundles (IoError := IoError) bundles = Ok ps.
Proof.
  induction 1 as [|[origin text] p bundles ps Hg _ IH]; [done|]. cbn [parse_bundles].
  cbn in Hg. rewrite (generates_parses _ _ Hg). cbn. by rewrite IH.
Qed.

Lemma read_entries_all {IoError : Type} (fs : FileSystem IoError) entries ps :
  Forall2 (λ entry p, ∃ text, read fs entry = Ok text ∧ generates text p)
    (List.filter (is_file fs) entries) ps →
  ∃ bundles, read_entries fs entries = Ok bundles ∧ Forall2 (λ fb p, generates fb.2 p) bundles ps.
Proof.
  revert ps. induction entries as [|e es IH]; intros ps; cbn [List.filter read_entries].
  - intros HF. inversion HF; subst. by exists [].
  - destruct (is_file fs e); [|apply IH]. intros HF.
    inversion HF as [|? p ? ps' (text & Hr & Hg) HF']; subst.
    destruct (IH ps' HF') as (bundles & Hb & HB). exists ((e, text) :: bundles).
    rewrite Hr. cbn. rewrite Hb. split; [done|]. by constructor.
Qed.

(** The identifier a check of the identifiers fails with occurs in two pairs. *)
Lemma check_ids_Err {IoError : Type} (ps : list EchKeyPair) :
  ¬ NoDup (map pair_id ps) →
  ∃ id l1 p l2 q l3, check_ids (IoError := IoError) ps = Err (DuplicateConfigId id) ∧
    ps = l1 ++ p :: l2 ++ q :: l3 ∧ pair_id p = id ∧ pair_id q = id.
Proof.
  induction ps as [|p ps IH]; intros Hn; [destruct Hn; constructor|]. cbn [check_ids].
  destruct (existsb _ ps) eqn:E.
  - apply existsb_exists in E as (q & Hq%list_elem_of_In & Hid). bools.
    apply list_elem_of_split in Hq as (l2 & l3 & ->).
    by exists (pair_id p), [], p, l2, q, l3.
  - destruct IH as (id & l1 & p' & l2 & q & l3 & Hc & -> & H1 & H2).
    { intros Hnd. apply Hn. cbn [map]. constructor; [|done].
      intros (q & Hq & Hin)%list_elem_of_fmap.
      rewrite <- not_true_iff_false, existsb_exists in E. apply E. exists q.
      split; [by apply list_elem_of_In|]. by apply bool_decide_eq_true. }
    exists id, (p :: l1), p', l2, q, l3. by split_and!.
Qed.

(** C37: With working FFI and streams, [run] on a valid name never panics and
    succeeds, and what it writes works.  Saved to a file, stdout is a key set
    [EchKeySet::load] accepts, that holds exactly the generated private key with a
    configuration for that name; and the base64 text shown on stderr decodes to an
    ECHConfigList from which exactly that configuration is read. *)
Theorem keygen_output_loads (ffi : HpkeFfi) (id : byte) (pub priv name : bytes) :
  ffi_ok ffi → generate_hpke_x25519_keypair ffi = Returns (Ok (pub, priv)) →
  validate_public_name name = Ok tt →
  let config := keygen_config id pub name in
  ∃ out list_bytes body r,
    run ffi id true true name = Returns (Ok out) ∧
    (∀ (IoError : Type) (fs : FileSystem IoError) (path : Path),
       metadata_is_dir fs path = Ok false → read fs path = Ok (stdout out) →
       EchKey.load fs path = Ok (mkEchKeySet [mkEchKeyPair priv config])) ∧
    stderr out = guidance name id (encode_string list_bytes) ∧
    decode_vec (encode_string list_bytes) = Some list_bytes ∧
    list_bytes = to_be_bytes 2 (Z.of_nat (length body)) ++ body ∧
    decode_many 1 (Reader.new body) = (Ok [config], r) ∧ Reader.is_empty r = true.
Proof.
  intros Hffi Hgen Hname config.
  destruct (run_generates ffi id pub priv name Hffi Hgen Hname) as (pem & body & r & Hrun & Hp & Hr & He).
  eexists _, (to_be_bytes 2 (Z.of_nat (length body)) ++ body), body, r.
  split_and!; [exact Hrun| |done|apply decode_encode_string|done|exact Hr|exact He].
  intros IoError fs path Hd Hread. unfold EchKey.load, read_bundles.
  rewrite Hd. cbn. rewrite Hread. cbn. by rewrite Hp.
Qed.

(** C38: Key rotation.  In a directory whose visible regular files each hold what
    [run] has printed for one key pair, [EchKeySet::load] takes the pairs of all files, in the
    order of the file names, when their config identifiers differ; when two agree it refuses
    the directory, naming an identifier that two of the pairs have. *)
Theorem generated_keys_load {IoError : Type} (fs : FileSystem IoError) (path : Path)
    (names : list (option bytes)) :
  metadata_is_dir fs path = Ok true → read_dir fs path = Ok names →
  ∃ entries, Sorted path_order entries ∧
    entries ≡ₚ map (λ n, path ++ [n]) (List.filter visible (omap id names)) ∧
    ∀ ps, ps ≠ [] →
      Forall2 (λ entry p, ∃ text, read fs entry = Ok text ∧ generates text p)
        (List.filter (is_file fs) entries) ps →
      (NoDup (map pair_id ps) → EchKey.load fs path = Ok (mkEchKeySet ps)) ∧
      (¬ NoDup (map pair_id ps) →
       ∃ id l1 p l2 q l3, EchKey.load fs path = Err (DuplicateConfigId id) ∧
         ps = l1 ++ p :: l2 ++ q :: l3 ∧ pair_id p = id ∧ pair_id q = id).
Proof.
  intros Hd Hn. exists (dir_entries path names). split_and!.
  - apply Sorted_merge_sort, _.
  - apply merge_sort_Permutation.
  - intros ps Hne HF.
    destruct (read_entries_all fs (dir_entries path names) ps HF) as (bundles & Hb & HF').
    assert (read_bundles fs path = Ok bundles) as Hrb.
    { unfold read_bundles. rewrite Hd. cbn. rewrite Hn. cbn. rewrite Hb. cbn.
      rewrite bool_decide_false; [done|]. intros ->. by inversion HF'; subst. }
    unfold EchKey.load. rewrite Hrb. cbn. rewrite (parse_bundles_generated bundles ps HF'). cbn. split.
    + intros Hnd%(check_ids_iff (IoError := IoError)). by rewrite Hnd.
    + intros Hnd. destruct (check_ids_Err (IoError := IoError) ps Hnd)
        as (id & l1 & p & l2 & q & l3 & -> & Hs). by exists id, l1, p, l2, q, l3.
Qed.
End Generated.

Definition sample_ffi : HpkeFfi :=
  mkHpkeFfi false true (Some (replicate 32 (z2b 0xab), 32)) (Some (replicate 32 (z2b 0x55), 32)).

Definition sample_stdout (id : byte) : bytes :=
  match run (H:=Base64Std) sample_ffi id true true (str "public.example.com") with
  | Returns (Ok out) => stdout out
  | _ => []
  end.

Definition sample_key (id : byte) : EchKeyPair :=
  mkEchKeyPair (replicate 32 (z2b 0x55))
    (keygen_config id (replicate 32 (z2b 0xab)) (str "public.example.com")).

(** A file "k.pem" and a directory of two generated keys. *)
Definition keygen_fs : FileSystem unit := {|
  metadata_is_dir p := Ok (negb (bool_decide (p = [str "k.pem"])));
  read_dir _ := Ok [Some (str "b.pem"); Some (str ".swp"); None; Some (str "a.pem")];
  is_file _ := true;
  read p := Ok (sample_stdout (if bool_decide (p = [str "keys"; str "a.pem"]) then z2b 7 else z2b 8));
|}.

Lemma keygen_output_loads_witness :
  ∃ out, run (H:=Base64Std) sample_ffi (z2b 8) true true (str "public.example.com") =
           Returns (Ok out) ∧
    EchKey.load (H:=Base64Std) keygen_fs [str "k.pem"] = Ok (mkEchKeySet [sample_key (z2b 8)]).
Proof.
  destruct (@keygen_output_loads Base64Std Base64Std_laws sample_ffi (z2b 8)
    (replicate 32 (z2b 0xab)) (replicate 32 (z2b 0x55)) (str "public.example.com")
    ltac:(split; intros ? ? [= <- <-]; cbn; lia) ltac:(vm_compute; reflexivity)
    ltac:(vm_compute; reflexivity)) as (out & _ & _ & _ & Hr & Hp & _).
  exists out. split; [exact Hr|]. apply (Hp unit keygen_fs [str "k.pem"]); [reflexivity|].
  cbn [read keygen_fs]. unfold sample_stdout.
  replace (if bool_decide _ then z2b 7 else z2b 8) with (z2b 8) by (vm_compute; reflexivity).
  rewrite Hr. reflexivity.
Defined.

Lemma sample_generates (id : byte) : generates (H:=Base64Std) (sample_stdout id) (sample_key id).
Proof.
  destruct (@run_generates Base64Std Base64Std_laws sample_ffi id
    (replicate 32 (z2b 0xab)) (replicate 32 (z2b 0x55)) (str "public.example.com")
    ltac:(split; intros ? ? [= <- <-]; cbn; lia) ltac:(vm_compute; reflexivity)
    ltac:(vm_compute; reflexivity)) as (pem & body & r & Hr & _).
  exists sample_ffi, id, (replicate 32 (z2b 0xab)), (str "public.example.com").
  eexists. split; [split; intros ? ? [= <- <-]; cbn; lia|]. split; [vm_compute; reflexivity|].
  split; [exact Hr|]. split; [|reflexivity]. unfold sample_stdout. by rewrite Hr.
Qed.

Lemma generated_keys_load_witness :
  EchKey.load (H:=Base64Std) keygen_fs [str "keys"] =
    Ok (mkEchKeySet [sample_key (z2b 7); sample_key (z2b 8)]).
Proof.
  destruct (@generated_keys_load Base64Std Base64Std_laws unit keygen_fs [str "keys"]
    [Some (str "b.pem"); Some (str ".swp"); None; Some (str "a.pem")] eq_refl eq_refl)
    as (entries & Hs & Hp & H).
  assert (entries = [[str "keys"; str "a.pem"]; [str "keys"; str "b.pem"]]) as ->.
  { symmetry in Hp. apply Permutation_length_2_inv in Hp as [-> | ->]; [|reflexivity].
    exfalso. inversion Hs as [|? ? _ Hh]; subst. inversion Hh as [|? ? Ho]; subst.
    vm_compute in Ho. discriminate Ho. }
  apply H; [done| |].
  - constructor; [|constructor; [|constructor]]; eexists; (split; [reflexivity|]).
    + apply (sample_generates (z2b 7)).
    + apply (sample_generates (z2b 8)).
  - apply (bool_decide_unpack _). vm_compute. exact I.
Defined.

Lemma public_name_witness :
  validate_public_name (str "public.example.com") = Ok tt ∧
  utf8_valid (str "public.example.com") = true.
Proof.
  assert (validate_public_name (str "public.example.com") = Ok tt) as E
    by (vm_compute; reflexivity).
  split; [exact E|]. apply (proj2 (public_name_iff (str "public.example.com")) E).
Defined.
