(* ===== verification/Quiche.v ===== *)
(** * The interfaces of the crates and system calls the sources use

    quiche (QUIC and HTTP/3 connections), the UDP socket system calls, and the
    channels of the futures crate are third-party code: they appear here as type
    classes of operations, which every definition of the following files takes as
    a parameter, and as classes of laws that state documented behaviour.  The
    mutation of a connection is explicit: an operation returns the connection it
    leaves behind. *)

From S2P Require Import Prelude.
From S2P Require Import Net.

(** ** quiche *)

(** [quiche::Error], as far as the sources distinguish its values. *)
Inductive QError := Done | BufferTooShort | StreamLimit | QOther (code : Z).

(** [quiche::h3::Error]. *)
Inductive H3Error := H3Done | StreamBlocked | TransportError (e : QError) | H3Other (code : Z).

Record Header := mkHeader { h_name : bytes; h_value : bytes }.

(** [quiche::h3::Event]. *)
Inductive Event :=
| Headers (list : list Header)
| Data
| Finished
| Reset (code : Z)
| OtherEvent.

Inductive Shutdown := ShutdownRead | ShutdownWrite.

(** [quiche::Connection] and [quiche::h3::Connection].  Stream ids and sizes are
    integers; [dgram_recv] and [send] are given the size of the caller's buffer
    and return the bytes they put at its front. *)
Class Quiche (Conn H3 H3Config : Type) := {
  recv : Conn → bytes → SocketAddr → SocketAddr → result QError Z * Conn;
  send : Conn → nat → result QError (bytes * SocketAddr) * Conn;
  is_established : Conn → bool;
  is_in_early_data : Conn → bool;
  is_closed : Conn → bool;
  timeout : Conn → option Z;
  on_timeout : Conn → Conn;
  send_ack_eliciting : Conn → Conn;
  dgram_send : Conn → bytes → result QError unit * Conn;
  dgram_recv : Conn → nat → result QError bytes * Conn;
  stream_shutdown : Conn → Z → Shutdown → Z → Conn;
  with_transport : Conn → H3Config → result H3Error H3 * Conn;
  poll : H3 → Conn → result H3Error (Z * Event) * (H3 * Conn);
  recv_body : H3 → Conn → Z → nat → result H3Error nat * (H3 * Conn);
  send_response : H3 → Conn → Z → list Header → bool → result H3Error unit * (H3 * Conn);
  send_request : H3 → Conn → list Header → bool → result H3Error Z * (H3 * Conn);
}.

(** Draining loops end: every event, datagram or body chunk delivered is gone from
    the connection's queues, and answering a request does not add any ("poll
    should be called repeatedly until it returns Done", and likewise for the
    others). *)
Class QuicheDrains {Conn H3 H3Config : Type} (Q : Quiche Conn H3 H3Config) := {
  events : H3 → Conn → nat;
  datagrams : Conn → nat;
  body_chunks : H3 → Conn → Z → nat;
  poll_drains h c ev h' c' :
    poll h c = (Ok ev, (h', c')) → events h' c' < events h c;
  response_keeps h c i hs fin r h' c' :
    send_response h c i hs fin = (r, (h', c')) → events h' c' ≤ events h c;
  body_keeps h c i n r h' c' :
    recv_body h c i n = (r, (h', c')) → events h' c' ≤ events h c;
  body_drains h c i n k h' c' :
    recv_body h c i n = (Ok k, (h', c')) → k ≠ 0 →
    body_chunks h' c' i < body_chunks h c i;
  dgram_drains c n b c' :
    dgram_recv c n = (Ok b, c') → datagrams c' < datagrams c;
  dgram_send_keeps c b r c' :
    dgram_send c b = (r, c') → ∀ h, events h c' ≤ events h c;
}.

(** Stream ids: those of events are below 2^62, and a client's requests use each id of a
    client-initiated bidirectional stream, a multiple of four, once, in increasing
    order. *)
Class QuicheStreams {Conn H3 H3Config : Type} (Q : Quiche Conn H3 H3Config) := {
  next_request : H3 → Z;
  poll_stream h c i ev h' c' :
    poll h c = (Ok (i, ev), (h', c')) → (0 ≤ i < 2 ^ 62)%Z;
  poll_next h c r h' c' :
    poll h c = (r, (h', c')) → next_request h' = next_request h;
  request_next h c hs fin r h' c' :
    send_request h c hs fin = (r, (h', c')) →
    (0 ≤ next_request h)%Z ∧ (next_request h mod 4 = 0)%Z ∧
    match r with
    | Ok i => i = next_request h ∧ next_request h' = (i + 4)%Z
    | Err _ => next_request h' = next_request h
    end;
}.

(** [send] "writes a single QUIC packet" of at least one byte into the buffer it is
    given, and a connection has only finitely many packets to send. *)
Class QuicheSends {Conn H3 H3Config : Type} (Q : Quiche Conn H3 H3Config) := {
  outgoing : Conn → nat;
  send_length c n p to c' :
    send c n = (Ok (p, to), c') → 0 < length p ≤ n;
  send_drains c n p to c' :
    send c n = (Ok (p, to), c') → outgoing c' < outgoing c;
}.

(** What was queued for sending: [dgram_send] adds the datagram when it succeeds and
    drops it otherwise. *)
Class QuicheDgrams {Conn H3 H3Config : Type} (Q : Quiche Conn H3 H3Config) := {
  dg_log : Conn → list bytes;
  dgram_send_log c b r c' :
    dgram_send c b = (r, c') → dg_log c' = if is_ok r then dg_log c ++ [b] else dg_log c;
}.

(** The parts of quiche a server uses before it has a connection. *)
Inductive PacketType := Initial | Retry | Handshake | ZeroRTT | VersionNegotiation | Short.
#[global] Instance PacketType_eq_dec : EqDecision PacketType.
Proof. solve_decision. Defined.

Record QHeader := mkQHeader { hd_ty : PacketType; hd_version : Z; hd_dcid : bytes; hd_scid : bytes }.

Class QuicheServer (Conn Config : Type) := {
  header_from_slice : bytes → nat → result QError QHeader;
  version_is_supported : Z → bool;
  quiche_accept : bytes → SocketAddr → SocketAddr → Config → result QError Conn * Config;
  negotiate_version : bytes → bytes → nat → result QError bytes;
}.

(** Accepting a connection reads the configuration and leaves it as it was. *)
Class QuicheAccepts {Conn Config} (Q : QuicheServer Conn Config) : Prop :=
  accept_keeps scid to from (cfg : Config) r cfg' :
    quiche_accept scid to from cfg = (r, cfg') → cfg' = cfg.

(** ... and to open one. *)
Class QuicheClient (Conn Config : Type) := {
  quiche_connect : option bytes → bytes → SocketAddr → SocketAddr → Config →
    result QError Conn * Config;
}.

(** ** UDP sockets *)

(** [std::io::Error]: an errno, or the error the sources make for a short send. *)
Inductive io_error := OsError (errno : Z) | WriteZero | InvalidData.

Definition EAGAIN : Z := 11.
Definition EINTR : Z := 4.
Definition EINVAL : Z := 22.
Definition EIO : Z := 5.
Definition ENOTSUP : Z := 95.
Definition EADDRINUSE : Z := 98.

Definition raw_os_error (e : io_error) : option Z :=
  match e with OsError n => Some n | _ => None end.
Definition would_block (e : io_error) : bool :=
  match e with OsError n => (n =? EAGAIN)%Z | _ => false end.
Definition interrupted (e : io_error) : bool :=
  match e with OsError n => (n =? EINTR)%Z | _ => false end.

(** A [sockaddr_storage] as the kernel fills it: the family and the bytes that
    follow. *)
Record sockaddr_storage := mkStorage { ss_family : Z; ss_data : bytes }.

(** A control message carrying a [u16]. *)
Record cmsghdr := mkCmsg { cmsg_level : Z; cmsg_type : Z; cmsg_data : Z }.

Definition SOL_UDP : Z := 17.
Definition UDP_SEGMENT : Z := 103.
Definition UDP_GRO : Z := 104.

(** [sendmsg] to an address (none on a connected socket) with control messages,
    waiting for writability, and [recvmsg] into a buffer of the given capacity,
    which yields the bytes, the peer and the control messages. *)
Class UdpSys (Sock : Type) := {
  sendmsg : Sock → option SocketAddr → bytes → list cmsghdr → result io_error Z * Sock;
  writable : Sock → result io_error unit * Sock;
  recvmsg : Sock → nat → result io_error (bytes * sockaddr_storage * list cmsghdr) * Sock;
}.

(** The segment size a [sendmsg] asks the kernel for. *)
Definition udp_segment (control : list cmsghdr) : option Z :=
  cmsg_data <$> List.find (λ m, (cmsg_level m =? SOL_UDP)%Z && (cmsg_type m =? UDP_SEGMENT)%Z) control.

(** The datagrams one [sendmsg] puts on the wire: the payload itself, or with
    [UDP_SEGMENT] its segments. *)
Definition segments (gso : option Z) (payload : bytes) : list bytes :=
  match gso with
  | None => [payload]
  | Some seg => chunks (Z.to_nat seg) payload
  end.

(** What the kernel accepts as one segmented send: a positive segment size, at
    most 64 segments and 65507 bytes of payload. *)
Definition gso_acceptable (gso : option Z) (payload : bytes) : Prop :=
  match gso with
  | None => True
  | Some seg =>
      (0 < seg)%Z ∧ length (segments gso payload) ≤ 64 ∧
      (Z.of_nat (length payload) ≤ 65507)%Z
  end.

(** A UDP send is all or nothing, and an acceptable one puts its segments on the
    wire in order. *)
Class UdpLaws {Sock : Type} (U : UdpSys Sock) := {
  wire : Sock → list (option SocketAddr * bytes);
  sendmsg_ok s to p control n s' :
    gso_acceptable (udp_segment control) p →
    sendmsg s to p control = (Ok n, s') →
    n = Z.of_nat (length p) ∧
    wire s' = wire s ++ map (pair to) (segments (udp_segment control) p);
  sendmsg_err s to p control e s' :
    sendmsg s to p control = (Err e, s') → wire s' = wire s;
  writable_wire s r s' : writable s = (r, s') → wire s' = wire s;
}.

(** Waiting for writability makes progress: a socket that would block does so only
    finitely many times in a row. *)
Class UdpProgress {Sock : Type} (U : UdpSys Sock) := {
  blocked : Sock → nat;
  writable_progress s to p control e s1 s2 :
    sendmsg s to p control = (Err e, s1) → would_block e = true →
    writable s1 = (Ok tt, s2) → blocked s2 < blocked s;
}.

(** ** Socket setup *)

(** What has been done to a socket, in order. *)
Inductive sockop :=
| SetOpt (level optname value : Z)
| BoundTo (a : SocketAddr)
| ConnectedTo (a : SocketAddr)
| SetNonblocking
| ReuseAddr.

(** Creating and configuring UDP sockets: [std::net::UdpSocket], [socket2::Socket],
    [setsockopt] with its return code and errno, and monoio's [from_std]. *)
Class SocketApi (Sock Os : Type) := {
  udp_bind : Os → SocketAddr → result io_error Sock * Os;
  socket_new : Os → bool → result io_error Sock * Os;
  setsockopt : Sock → Z → Z → Z → Z * Z * Sock;
  sock_bind : Sock → SocketAddr → result io_error unit * Sock;
  sock_connect : Sock → SocketAddr → result io_error unit * Sock;
  set_nonblocking : Sock → result io_error unit * Sock;
  set_reuse_address : Sock → result io_error unit * Sock;
  from_std : Sock → result io_error Sock;
}.

(** A call that succeeds takes effect, one that fails does not, and adopting a
    socket changes nothing. *)
Class SocketLaws {Sock Os : Type} (A : SocketApi Sock Os) := {
  history : Sock → list sockop;
  udp_bind_log os a s os' : udp_bind os a = (Ok s, os') → history s = [BoundTo a];
  socket_new_log os v6 s os' : socket_new os v6 = (Ok s, os') → history s = [];
  setsockopt_log s l o v rc en s' :
    setsockopt s l o v = (rc, en, s') →
    history s' = if (rc =? 0)%Z then history s ++ [SetOpt l o v] else history s;
  sock_bind_log s a r s' :
    sock_bind s a = (r, s') → history s' = if is_ok r then history s ++ [BoundTo a] else history s;
  sock_connect_log s a r s' :
    sock_connect s a = (r, s') →
    history s' = if is_ok r then history s ++ [ConnectedTo a] else history s;
  set_nonblocking_log s r s' :
    set_nonblocking s = (r, s') →
    history s' = if is_ok r then history s ++ [SetNonblocking] else history s;
  set_reuse_log s r s' :
    set_reuse_address s = (r, s') →
    history s' = if is_ok r then history s ++ [ReuseAddr] else history s;
  from_std_log s s' : from_std s = Ok s' → history s' = history s;
}.

(** Sending and receiving leave the configuration of a socket alone. *)
Class SocketIoLaws {Sock Os : Type} (A : SocketApi Sock Os) (L : SocketLaws A) (U : UdpSys Sock) := {
  sendmsg_history s to p control r s' :
    sendmsg s to p control = (r, s') → history s' = history s;
  writable_history s r s' : writable s = (r, s') → history s' = history s;
  recvmsg_history s n r s' : recvmsg s n = (r, s') → history s' = history s;
}.

(** ** Channels *)

(** The bounded channels of [futures::channel::mpsc]: [try_send] reports whether the
    message was queued, [try_recv] takes the oldest message, and [chan_closed] tells
    a sender that the receiver is gone. *)
Class Mpsc (Chan : Type → Type) := {
  channel {A} : nat → Chan A;
  try_send {A} : Chan A → A → bool * Chan A;
  try_recv {A} : Chan A → option A * Chan A;
  chan_closed {A} : Chan A → bool;
}.

(** A channel is a queue; [try_send] puts the message at its end or leaves it
    alone. *)
Class MpscLaws {Chan : Type → Type} (M : Mpsc Chan) := {
  queued {A} : Chan A → list A;
  channel_queued {A} n : queued (channel n : Chan A) = [];
  try_send_queued {A} (t : Chan A) a b t' :
    try_send t a = (b, t') → queued t' = if b then queued t ++ [a] else queued t;
  try_recv_queued {A} (t : Chan A) o t' :
    try_recv t = (o, t') → queued t = option_list o ++ queued t' ∧ (o = None → queued t' = []);
}.

(** ** Hash maps *)

(** A [HashMap] is a [gmap]; iterating it visits every entry once in an order that
    is not specified. *)
Class HashIter := {
  iter {K} `{Countable K} {V} : gmap K V → list (K * V);
  iter_perm {K} `{Countable K} {V} (m : gmap K V) : iter m ≡ₚ map_to_list m;
}.

(** The order in which the map itself lists its entries. *)
Definition HashIterStd : HashIter := {|
  iter _ _ _ _ m := map_to_list m;
  iter_perm _ _ _ _ m := reflexivity _;
|}.
