(* ===== verification/Loopback.v ===== *)
(** * Concrete connections and sockets

    Small executable instances of the interfaces of Quiche.v and of their laws: a
    connection is a set of queues with a log of the datagrams it has handed out, a socket
    a log of what was put on the wire and of what was received.  The
    examples of the following files run the models on them, which also shows that
    the laws can be met. *)

From S2P Require Import Prelude.
From S2P Require Import Net.
From S2P Require Import Quiche.

(** ** A connection made of queues *)

Record lconn := mkLconn {
  l_out : list (bytes * SocketAddr);
  l_dg_in : list bytes;
  l_dg_out : list bytes;
  l_events : list (Z * Event);
  l_responses : list (Z * list Header * bool);
  l_requests : list (list Header);
  l_shut : list (Z * Z);
  l_established : bool;
  l_closed : bool;
  l_dg_seen : list bytes;
}.

Definition idle_conn : lconn := mkLconn [] [] [] [] [] [] [] true false [].

(** [send] hands out the first packet when it fits the buffer. *)
Definition l_send (c : lconn) (n : nat) : result QError (bytes * SocketAddr) * lconn :=
  match l_out c with
  | [] => (Err Done, c)
  | (p, to) :: rest =>
      let c' := mkLconn rest (l_dg_in c) (l_dg_out c) (l_events c) (l_responses c)
                  (l_requests c) (l_shut c) (l_established c) (l_closed c) (l_dg_seen c) in
      if (0 <? length p) && (length p <=? n) then (Ok (p, to), c')
      else (Err BufferTooShort, c')
  end.

Definition l_dgram_recv (c : lconn) (n : nat) : result QError bytes * lconn :=
  match l_dg_in c with
  | [] => (Err Done, c)
  | b :: rest =>
      (if length b <=? n then Ok b else Err BufferTooShort,
       mkLconn (l_out c) rest (l_dg_out c) (l_events c) (l_responses c)
         (l_requests c) (l_shut c) (l_established c) (l_closed c)
         (l_dg_seen c ++ if length b <=? n then [b] else []))
  end.

Definition l_poll (h : Z) (c : lconn) : result H3Error (Z * Event) * (Z * lconn) :=
  match l_events c with
  | [] => (Err H3Done, (h, c))
  | (i, ev) :: rest =>
      (if bool_decide (0 ≤ i < 2 ^ 62)%Z && (i mod 4 =? 0)%Z then Ok (i, ev) else Err (H3Other 0),
       (h, mkLconn (l_out c) (l_dg_in c) (l_dg_out c) rest (l_responses c)
         (l_requests c) (l_shut c) (l_established c) (l_closed c) (l_dg_seen c)))
  end.

(** The HTTP/3 connection is the number of requests sent so far. *)
Definition l_next (h : Z) : Z := (4 * Z.abs h)%Z.

Definition LoopQuiche : Quiche lconn Z unit := {|
  recv c p _ _ := (Ok (Z.of_nat (length p)), c);
  send := l_send;
  is_established := l_established;
  is_in_early_data _ := false;
  is_closed := l_closed;
  timeout _ := None;
  on_timeout c := c;
  send_ack_eliciting c := c;
  dgram_send c b :=
    (Ok tt, mkLconn (l_out c) (l_dg_in c) (l_dg_out c ++ [b]) (l_events c) (l_responses c)
       (l_requests c) (l_shut c) (l_established c) (l_closed c) (l_dg_seen c));
  dgram_recv := l_dgram_recv;
  stream_shutdown c i _ code :=
    mkLconn (l_out c) (l_dg_in c) (l_dg_out c) (l_events c) (l_responses c)
      (l_requests c) (l_shut c ++ [(i, code)]) (l_established c) (l_closed c) (l_dg_seen c);
  with_transport c _ := (Ok 0%Z, c);
  poll := l_poll;
  recv_body h c _ _ := (Err H3Done, (h, c));
  send_response h c i hs fin :=
    (Ok tt, (h, mkLconn (l_out c) (l_dg_in c) (l_dg_out c) (l_events c)
       (l_responses c ++ [(i, hs, fin)]) (l_requests c) (l_shut c) (l_established c) (l_closed c) (l_dg_seen c)));
  send_request h c hs fin :=
    if negb (l_next h <? 2 ^ 62)%Z then (Err StreamBlocked, (h, c))
    else (Ok (l_next h), ((Z.abs h + 1)%Z, mkLconn (l_out c) (l_dg_in c) (l_dg_out c) (l_events c)
       (l_responses c) (l_requests c ++ [hs]) (l_shut c) (l_established c) (l_closed c) (l_dg_seen c)));
|}.

#[local] Existing Instance LoopQuiche.

Definition LoopDrains : QuicheDrains LoopQuiche.
Proof.
  refine {| events := λ _ c, length (l_events c); datagrams := λ c, length (l_dg_in c);
            body_chunks := λ _ _ _, 0 |}; simpl.
  - intros h c ev h' c'. unfold l_poll. destruct (l_events c) as [|[i e] l]; [done|].
    destruct (_ && _); intros [= <- <- <-]. simpl. lia.
  - by intros ?????? ?? [= <- <- <-].
  - by intros ?????? ? [= <- <- <-].
  - done.
  - intros c n b c'. unfold l_dgram_recv. destruct (l_dg_in c) as [|d l]; [done|].
    case_match; intros [= <- <-]. simpl. lia.
  - by intros c b r c' [= <- <-] h.
Defined.

Definition LoopStreams : QuicheStreams LoopQuiche.
Proof.
  refine {| next_request := l_next |}; simpl.
  - intros h c i ev h' c'. unfold l_poll. destruct (l_events c) as [|[j e] l]; [done|].
    destruct (_ && _) eqn:E; [|done]. intros [= <- <- <- <-].
    by apply andb_true_iff in E as [E1%bool_decide_eq_true _].
  - intros h c r h' c'. unfold l_poll.
    destruct (l_events c) as [|[j e] l]; by intros [= <- <- <-].
  - intros h c hs fin r h' c' E.
    assert (0 ≤ l_next h ∧ l_next h mod 4 = 0)%Z as [H0 Hm].
    { unfold l_next. split; [lia|]. apply Z.mod_divide; [done|]. exists (Z.abs h). lia. }
    split; [done|]. split; [done|]. destruct (negb _); injection E as <- <- <-; [done|].
    unfold l_next. lia.
Defined.

Definition LoopDgrams : QuicheDgrams LoopQuiche.
Proof. refine {| dg_log := l_dg_out |}; simpl. by intros c b r c' [= <- <-]. Defined.

Definition LoopSends : QuicheSends LoopQuiche.
Proof.
  refine {| outgoing := λ c, length (l_out c) |}; simpl.
  - intros c n p to c'. unfold l_send. destruct (l_out c) as [|[q d] l]; [done|].
    destruct (_ && _) eqn:E; [|done]. intros [= <- <- <-].
    apply andb_true_iff in E as [E1 E2]. apply Nat.ltb_lt in E1. by apply Nat.leb_le in E2.
  - intros c n p to c'. unfold l_send. destruct (l_out c) as [|[q d] l]; [done|].
    destruct (_ && _); [|done]. intros [= <- <- <-]. simpl. lia.
Defined.

(** A server side whose packets are a type byte (zero for Initial), a version byte and
    a 16-byte connection id; the configuration says which connection an accepted
    client starts with. *)
Definition l_fresh (c : lconn) : lconn :=
  mkLconn (l_out c) (l_dg_in c) [] (l_events c) (l_responses c) (l_requests c) (l_shut c)
    (l_established c) (l_closed c) [].

Definition LoopServerOf {Config : Type} (start : Config → lconn) : QuicheServer lconn Config := {|
  header_from_slice p n :=
    match p with
    | ty :: v :: rest =>
        if length rest <? n then Err (QOther 1)
        else Ok (mkQHeader (if (b2z ty =? 0)%Z then Initial else Short) (b2z v) (take n rest) [])
    | _ => Err (QOther 1)
    end;
  version_is_supported v := (v =? 1)%Z;
  quiche_accept _ _ _ cfg := (Ok (l_fresh (start cfg)), cfg);
  negotiate_version scid dcid n := Ok (take n (scid ++ dcid));
|}.

Definition LoopServer : QuicheServer lconn lconn := LoopServerOf id.

Lemma LoopAccepts {Config : Type} (start : Config → lconn) : QuicheAccepts (LoopServerOf start).
Proof. by intros scid to from cfg r cfg' [= _ <-]. Qed.

(** ** A socket that logs its datagrams *)

(** The next [ls_blocks] sends would block; [ls_gso] is the kernel's support for
    segmented sends; addresses in [ls_busy] cannot be bound. *)
Record lsock := mkLsock {
  ls_wire : list (option SocketAddr * bytes);
  ls_inbox : list (bytes * sockaddr_storage * list cmsghdr);
  ls_blocks : nat;
  ls_gso : bool;
  ls_log : list sockop;
  ls_busy : list SocketAddr;
  ls_seen : list bytes;
}.

#[global] Instance gso_acceptable_dec gso p : Decision (gso_acceptable gso p).
Proof. destruct gso; simpl; apply _. Defined.

(** The peer of a connected socket is an echo service. *)
Definition l_echo (to : option SocketAddr) (ps : list bytes) :
    list (bytes * sockaddr_storage * list cmsghdr) :=
  match to with Some _ => [] | None => map (λ p, (p, mkStorage 0 [], [])) ps end.

Definition l_sendmsg (s : lsock) (to : option SocketAddr) (p : bytes) (control : list cmsghdr) :
    result io_error Z * lsock :=
  let gso := udp_segment control in
  if 0 <? ls_blocks s then (Err (OsError EAGAIN), s)
  else if bool_decide (gso = None) || ls_gso s && bool_decide (gso_acceptable gso p) then
    (Ok (Z.of_nat (length p)),
     mkLsock (ls_wire s ++ map (pair to) (segments gso p)) (ls_inbox s ++ l_echo to (segments gso p))
       (ls_blocks s) (ls_gso s) (ls_log s) (ls_busy s) (ls_seen s))
  else (Err (OsError EINVAL), s).

Definition LoopUdp : UdpSys lsock := {|
  sendmsg := l_sendmsg;
  writable s := (Ok tt, mkLsock (ls_wire s) (ls_inbox s) (pred (ls_blocks s)) (ls_gso s) (ls_log s) (ls_busy s) (ls_seen s));
  recvmsg s n :=
    match ls_inbox s with
    | [] => (Err (OsError EAGAIN), s)
    | (b, a, c) :: rest => (Ok (take n b, a, c), mkLsock (ls_wire s) rest (ls_blocks s) (ls_gso s) (ls_log s) (ls_busy s) (ls_seen s ++ [take n b]))
    end;
|}.

Definition LoopUdpLaws : UdpLaws LoopUdp.
Proof.
  refine {| wire := ls_wire |}; simpl.
  - intros s to p control n s' Ha. unfold l_sendmsg. cbv zeta.
    destruct (0 <? ls_blocks s); [done|]. destruct (_ || _); [|done]. by intros [= <- <-].
  - intros s to p control e s'. unfold l_sendmsg. cbv zeta.
    destruct (0 <? ls_blocks s); [by intros [= _ <-]|].
    destruct (_ || _); [done|by intros [= _ <-]].
  - by intros s r s' [= _ <-].
Defined.

Definition LoopUdpProgress : UdpProgress LoopUdp.
Proof.
  refine {| blocked := ls_blocks |}; simpl.
  intros s to p control e s1 s2. unfold l_sendmsg. cbv zeta.
  destruct (0 <? ls_blocks s) eqn:E; [|destruct (_ || _); [done|]; by intros [= <- _]].
  intros [= _ <-] _ [= <-]. simpl. apply Nat.ltb_lt in E. lia.
Defined.

Definition idle_sock : lsock := mkLsock [] [] 0 true [] [] [].

(** Configuring it: the world outside is the list of addresses in use. *)
Definition l_did (s : lsock) (op : sockop) : lsock :=
  mkLsock (ls_wire s) (ls_inbox s) (ls_blocks s) (ls_gso s) (ls_log s ++ [op]) (ls_busy s) (ls_seen s).

Definition LoopSockets : SocketApi lsock (list SocketAddr) := {|
  udp_bind os a := (Ok (mkLsock [] [] 0 true [BoundTo a] os []), os);
  socket_new os _ := (Ok (mkLsock [] [] 0 true [] os []), os);
  setsockopt s l o v := (0%Z, 0%Z, l_did s (SetOpt l o v));
  sock_bind s a :=
    if bool_decide (a ∈ ls_busy s) then (Err (OsError EADDRINUSE), s)
    else (Ok tt, l_did s (BoundTo a));
  sock_connect s a := (Ok tt, l_did s (ConnectedTo a));
  set_nonblocking s := (Ok tt, l_did s SetNonblocking);
  set_reuse_address s := (Ok tt, l_did s ReuseAddr);
  from_std s := Ok s;
|}.

Definition LoopSocketLaws : SocketLaws LoopSockets.
Proof.
  refine {| history := ls_log |}; simpl; try naive_solver.
  intros s a r s'. case_bool_decide; by intros [= <- <-].
Defined.

Definition LoopSocketIo : SocketIoLaws LoopSockets LoopSocketLaws LoopUdp.
Proof.
  split; simpl.
  - intros s to p control r s'. unfold l_sendmsg. cbv zeta.
    repeat case_match; by intros [= <- <-].
  - by intros s r s' [= <- <-].
  - intros s n r s'. destruct (ls_inbox s) as [|[[b a] c] l]; by intros [= <- <-].
Defined.

(** ** A channel that holds [n] messages *)

Record lchan (A : Type) := mkLchan { lc_queue : list A; lc_cap : nat }.
Arguments mkLchan {A}.
Arguments lc_queue {A}.
Arguments lc_cap {A}.

Definition LoopMpsc : Mpsc lchan := {|
  channel _ n := mkLchan [] n;
  try_send _ t a :=
    if length (lc_queue t) <? lc_cap t then (true, mkLchan (lc_queue t ++ [a]) (lc_cap t))
    else (false, t);
  try_recv _ t :=
    match lc_queue t with
    | [] => (None, t)
    | a :: q => (Some a, mkLchan q (lc_cap t))
    end;
  chan_closed _ _ := false;
|}.

Definition LoopMpscLaws : MpscLaws LoopMpsc.
Proof.
  refine {| queued := @lc_queue |}; simpl; [done|..].
  - intros A t a b t'. by case_match; intros [= <- <-].
  - intros A t o t'. destruct (lc_queue t) eqn:E; intros [= <- <-]; by rewrite ?E.
Defined.
