(* ===== verification/Io.v ===== *)
(** * UDP input and output (src/io.rs)

    Batching of outgoing packets into segmented sends (GSO), the flush of a
    connection, splitting of coalesced receives (GRO) and the receive task.  The
    awaited loops take fuel; the socket and the connection are threaded through
    explicitly. *)

From S2P Require Import Prelude.
From S2P Require Import Net.
From S2P Require Import Quiche.
From S2P Require Import Loopback.

Definition RECV_BUF : nat := Z.to_nat 65535.
Definition CHANNEL_CAP : nat := 1024.
Definition MAX_UDP_PAYLOAD : nat := 1400.
Definition MAX_DATAGRAM_SIZE : nat := MAX_UDP_PAYLOAD.
Definition SEND_BATCH : nat := 32.
Definition RECV_BATCH : nat := 32.

(** ** Send batches *)

Module SendBatch.
Record t := mk {
  to : option SocketAddr;
  segment_size : nat;
  packets : list bytes;
}.

Definition new : t := mk None 0 [].

(** Its callers see to it that the batch is empty, as [debug_assert!] demands: it is new,
    was just taken, or has been tested ([push_first_ok] assumes it). *)
Definition push_first (b : t) (packet : bytes) (dest : SocketAddr) : t :=
  mk (Some dest) (length packet) (packets b ++ [packet]).

(** The packet comes back when it does not fit the batch. *)
Definition try_push (b : t) (packet : bytes) (dest : SocketAddr) : option bytes * t :=
  if bool_decide (packets b = []) then (None, push_first b packet dest)
  else
    let compatible :=
      bool_decide (to b = Some dest) &&
      (length packet <=? segment_size b) &&
      ((length packet =? segment_size b) || (length (packets b) <? SEND_BATCH)) in
    if compatible then (None, mk (to b) (segment_size b) (packets b ++ [packet]))
    else (Some packet, b).

Definition ends_with_short_segment (b : t) : bool :=
  match last (packets b) with
  | Some p => length p <? segment_size b
  | None => false
  end.

Definition take (b : t) : option (SocketAddr * nat * list bytes) * t :=
  match to b with
  | None => (None, b)
  | Some dest => (Some (dest, segment_size b, packets b), mk None 0 [])
  end.
End SendBatch.

(** ** Sending *)

(** [linux] is [cfg!(target_os = "linux")]. *)
Definition set_udp_segment_cmsg (linux : bool) (segment_size : Z) : list cmsghdr :=
  if linux then [mkCmsg SOL_UDP UDP_SEGMENT segment_size] else [mkCmsg 0 0 0].

Definition is_gso_unsupported (e : io_error) : bool :=
  match raw_os_error e with
  | Some n => (n =? EINVAL)%Z || (n =? EIO)%Z || (n =? ENOTSUP)%Z
  | None => false
  end.

(** The check after [libc::sendmsg]: a short send is an error. *)
Definition check_sent (payload : bytes) (r : result io_error Z) : result io_error unit :=
  match r with
  | Err e => Err e
  | Ok n => if (n =? Z.of_nat (length payload))%Z then Ok tt else Err WriteZero
  end.

Section Send.
Context {Sock : Type} `{U : UdpSys Sock} (linux : bool).

Definition sendmsg_udp (s : Sock) (to : SocketAddr) (payload : bytes)
    (gso_segment_size : option nat) : result io_error unit * Sock :=
  let control :=
    match gso_segment_size with
    | Some segment_size => set_udp_segment_cmsg linux (wrap 16 (Z.of_nat segment_size))
    | None => []
    end in
  let '(r, s) := sendmsg s (Some to) payload control in
  (check_sent payload r, s).

Definition sendmsg_udp_connected (s : Sock) (payload : bytes) : result io_error unit * Sock :=
  let '(r, s) := sendmsg s None payload [] in
  (check_sent payload r, s).

(** One turn of [loop { match sendmsg { WouldBlock => writable().await?, .. } }]. *)
Definition retry (m : Sock → result io_error unit * Sock) (s : Sock) :
    Sock + (result io_error unit * Sock) :=
  match m s with
  | (Ok _, s) => inr (Ok tt, s)
  | (Err e, s) =>
      if would_block e then
        match writable s with
        | (Ok _, s) => inl s
        | (Err e, s) => inr (Err e, s)
        end
      else inr (Err e, s)
  end.

Definition send_payload (fuel : nat) (to : SocketAddr) (payload : bytes)
    (gso_segment_size : option nat) : fstm Sock io_error unit := λ s,
  loop fuel (retry (λ s, sendmsg_udp s to payload gso_segment_size)) s.

Definition send_udp_connected (fuel : nat) (buf : bytes) : fstm Sock io_error unit := λ s,
  loop fuel (retry (λ s, sendmsg_udp_connected s buf)) s.

(** [for packet in packets { send_payload(.., None).await? }]. *)
Fixpoint send_each (fuel : nat) (to : SocketAddr) (packets : list bytes) :
    fstm Sock io_error unit :=
  match packets with
  | [] => mret tt
  | packet :: packets =>
      send_payload fuel to packet None ≫= λ _, send_each fuel to packets
  end.

Definition send_packets (fuel : nat) (to : SocketAddr) (segment_size : nat)
    (packets : list bytes) : fstm Sock io_error unit := λ s,
  let use_gso := linux && (1 <? length packets) in
  if negb use_gso && (1 <? length packets) then send_each fuel to packets s
  else
    let payload := concat packets in
    match send_payload fuel to payload (if use_gso then Some segment_size else None) s with
    | None => None
    | Some (Ok _, s) => Some (Ok tt, s)
    | Some (Err e, s) =>
        if use_gso && is_gso_unsupported e then send_each fuel to packets s
        else Some (Err e, s)
    end.

Definition send_batch (fuel : nat) (s : Sock) (batch : SendBatch.t) :
    option (result io_error unit * Sock * SendBatch.t) :=
  match SendBatch.take batch with
  | (None, batch) => Some (Ok tt, s, batch)
  | (Some (to, segment_size, packets), batch) =>
      match send_packets fuel to segment_size packets s with
      | None => None
      | Some (r, s) => Some (r, s, batch)
      end
  end.

Definition send_udp (fuel : nat) (s : Sock) (buf : bytes) (to : SocketAddr) :
    option (result io_error unit * Sock) :=
  fst <$> send_batch fuel s (SendBatch.push_first SendBatch.new buf to).

(** ** Flushing a connection *)

Context {Conn H3 H3Config : Type} `{Q : Quiche Conn H3 H3Config}.

Inductive FlushError := ConnSend (e : QError) | SendFailed (e : io_error).

Record flushing := mkFlushing { f_batch : SendBatch.t; f_conn : Conn; f_sock : Sock }.

(** [send_batch(socket, &mut batch).await?]. *)
Definition flush_batch (fuel : nat) : fstm flushing FlushError unit := λ st,
  match send_batch fuel (f_sock st) (f_batch st) with
  | None => None
  | Some (r, s, b) => Some (map_err SendFailed r, mkFlushing b (f_conn st) s)
  end.

(** [batch.push_first(pending, info.to)]. *)
Definition flush_pending (pending : bytes) (to : SocketAddr) : fstm flushing FlushError unit := λ st,
  Some (Ok tt, mkFlushing (SendBatch.push_first (f_batch st) pending to) (f_conn st) (f_sock st)).

(** [if let Some(pending) = batch.try_push(out, info.to) { .. }]. *)
Definition flush_push (fuel : nat) (out : bytes) (to : SocketAddr) :
    fstm flushing FlushError unit := λ st,
  match SendBatch.try_push (f_batch st) out to with
  | (None, b) => Some (Ok tt, mkFlushing b (f_conn st) (f_sock st))
  | (Some pending, b) =>
      (flush_batch fuel ≫= λ _, flush_pending pending to)
        (mkFlushing b (f_conn st) (f_sock st))
  end.

(** [if batch.ends_with_short_segment() { .. }]. *)
Definition flush_short (fuel : nat) : fstm flushing FlushError unit := λ st,
  if SendBatch.ends_with_short_segment (f_batch st) then flush_batch fuel st
  else Some (Ok tt, st).

(** One turn of the inner loop; [false] is [break 'flush]. *)
Definition flush_one (fuel : nat) : fstm flushing FlushError bool := λ st,
  match send (f_conn st) MAX_DATAGRAM_SIZE with
  | (Ok (out, to), c) =>
      (flush_push fuel out to ≫= λ _, flush_short fuel ≫= λ _, mret true)
        (mkFlushing (f_batch st) c (f_sock st))
  | (Err Done, c) => Some (Ok false, mkFlushing (f_batch st) c (f_sock st))
  | (Err e, c) => Some (Err (ConnSend e), mkFlushing (f_batch st) c (f_sock st))
  end.

(** [for _ in 0..n]. *)
Fixpoint flush_round (fuel n : nat) : fstm flushing FlushError bool :=
  match n with
  | O => mret true
  | S n => flush_one fuel ≫= λ more : bool, if more then flush_round fuel n else mret false
  end.

(** One turn of ['flush: loop] and the send after it. *)
Definition flush_turn (fuel : nat) (st : flushing) :
    flushing + option (result FlushError unit * flushing) :=
  match flush_round fuel SEND_BATCH st with
  | Some (Ok true, st) =>
      match flush_batch fuel st with
      | Some (Ok _, st) => inl st
      | r => inr r
      end
  | Some (Ok false, st) => inr (flush_batch fuel st)
  | Some (Err e, st) => inr (Some (Err e, st))
  | None => inr None
  end.

Definition flush_connection (fuel : nat) (s : Sock) (c : Conn) :
    option (result FlushError unit * flushing) :=
  mjoin (loop fuel (flush_turn fuel) (mkFlushing SendBatch.new c s)).
End Send.

(** ** Receiving *)

Definition AF_INET : Z := 2.
Definition AF_INET6 : Z := 10.

(** [u32] fields the sources copy without conversion, on a little-endian host. *)
Definition from_ne_bytes (l : bytes) : Z := from_be_bytes (rev l).

(** The [len] bytes at an offset of the storage after its family. *)
Definition field (st : sockaddr_storage) (off len : nat) : bytes :=
  take len (drop off (ss_data st)).

Definition socket_addr_from_storage (st : sockaddr_storage) : result io_error SocketAddr :=
  if (ss_family st =? AF_INET)%Z then
    Ok (SockV4 (from_be_bytes (field st 2 4)) (from_be_bytes (field st 0 2)))
  else if (ss_family st =? AF_INET6)%Z then
    Ok (SockV6 (from_be_bytes (field st 6 16)) (from_be_bytes (field st 0 2))
          (from_ne_bytes (field st 2 4)) (from_ne_bytes (field st 22 4)))
  else Err InvalidData.

Definition recv_gro_segment_size (linux : bool) (control : list cmsghdr) : option Z :=
  if linux then
    cmsg_data <$> List.find (λ m, (cmsg_level m =? SOL_UDP)%Z && (cmsg_type m =? UDP_GRO)%Z) control
  else None.

Section Recv.
Context {Sock : Type} `{U : UdpSys Sock} (linux : bool).

Definition recv_udp_connected (s : Sock) (buf_size : nat) : result io_error bytes * Sock :=
  match recvmsg s buf_size with
  | (Ok (buf, _, _), s) => (Ok buf, s)
  | (Err e, s) => (Err e, s)
  end.

Definition recv_capacity (segment_size : nat) : nat :=
  max (min (segment_size * RECV_BATCH) (Z.to_nat 65535)) segment_size.

(** The coalesced datagrams of one receive. *)
Definition split_gro (gro_size : option Z) (buf : bytes) : list bytes :=
  match gro_size with
  | Some s =>
      if (0 <? s)%Z && (s <? Z.of_nat (length buf))%Z then chunks (Z.to_nat s) buf else [buf]
  | None => [buf]
  end.

Definition recv_udp_segments (s : Sock) (segment_size : nat) :
    result io_error (list (bytes * SocketAddr)) * Sock :=
  match recvmsg s (recv_capacity segment_size) with
  | (Err e, s) => (Err e, s)
  | (Ok (buf, addr, control), s) =>
      (from ← socket_addr_from_storage addr;
       mret (map (λ c, (c, from)) (split_gro (recv_gro_segment_size linux control) buf)), s)
  end.

Context {Chan : Type → Type} `{M : Mpsc Chan}.
Local Abbreviation Tx := (Chan (bytes * SocketAddr)%type).

(** [for (buf, from) in segments { let _ = tx.try_send(..) }]. *)
Definition forward (tx : Tx) (segments : list (bytes * SocketAddr)) : Tx :=
  fold_left (λ tx p, snd (try_send tx p)) segments tx.

(** [for _ in 0..n]; [false] is the [return] of the task. *)
Fixpoint recv_round (n : nat) (buf_size : nat) (st : Sock * Tx) : bool * (Sock * Tx) :=
  match n with
  | O => (true, st)
  | S n =>
      match recv_udp_segments st.1 buf_size with
      | (Ok segments, s) => recv_round n buf_size (s, forward st.2 segments)
      | (Err e, s) =>
          if would_block e then (true, (s, st.2))
          else if interrupted e then recv_round n buf_size (s, st.2)
          else (false, (s, st.2))
      end
  end.

(** What ends the wait at the top of the task's loop. *)
Inductive wake := Readable | ReadableErr | Cancelled.

(** One turn of the task; [false] is the end of the task. *)
Definition spawn_udp_recv (buf_size : nat) (w : wake) (st : Sock * Tx) : bool * (Sock * Tx) :=
  match w with
  | Cancelled | ReadableErr => (false, st)
  | Readable => recv_round RECV_BATCH buf_size st
  end.
End Recv.

Arguments mkFlushing {Sock Conn}.
Arguments f_batch {Sock Conn}.
Arguments f_conn {Sock Conn}.
Arguments f_sock {Sock Conn}.

(** ** What a batch holds *)

(** The datagrams a batch stands for. *)
Definition pend (b : SendBatch.t) : list (option SocketAddr * bytes) :=
  match SendBatch.to b with
  | None => []
  | Some t => map (pair (Some t)) (SendBatch.packets b)
  end.

(** The batch invariant: every packet but the last has the segment size, the last
    is not empty and not longer, and nothing exceeds a datagram. *)
Definition batch_ok (b : SendBatch.t) : Prop :=
  match SendBatch.to b with
  | None => SendBatch.packets b = []
  | Some _ =>
      ∃ init lst, SendBatch.packets b = init ++ [lst] ∧
        Forall (λ p, length p = SendBatch.segment_size b) init ∧
        0 < length lst ≤ SendBatch.segment_size b ∧
        SendBatch.segment_size b ≤ MAX_DATAGRAM_SIZE
  end.

(** Between two turns of the inner loop no segment is short. *)
Definition batch_full (b : SendBatch.t) : Prop :=
  batch_ok b ∧ SendBatch.ends_with_short_segment b = false.

Definition batch_len (b : SendBatch.t) : nat := length (SendBatch.packets b).

Lemma batch_full_lengths b :
  batch_full b → Forall (λ p, length p = SendBatch.segment_size b) (SendBatch.packets b).
Proof.
  intros [Hok Hs]. unfold batch_ok, SendBatch.ends_with_short_segment in *.
  destruct (SendBatch.to b); [|rewrite Hok; constructor].
  destruct Hok as (init & lst & Hp & Hinit & Hl & _). rewrite Hp in *.
  rewrite last_snoc in Hs. apply Nat.ltb_ge in Hs.
  apply Forall_app. split; [done|]. constructor; [lia|constructor].
Qed.

Lemma push_first_ok b p to :
  SendBatch.packets b = [] → 0 < length p ≤ MAX_DATAGRAM_SIZE →
  batch_full (SendBatch.push_first b p to) ∧
  pend (SendBatch.push_first b p to) = [(Some to, p)] ∧
  batch_len (SendBatch.push_first b p to) = 1.
Proof.
  intros Hb Hp. unfold SendBatch.push_first, batch_full, batch_ok, pend, batch_len,
    SendBatch.ends_with_short_segment. rewrite Hb. simpl.
  repeat split; [|by apply Nat.ltb_irrefl]. exists [], p.
  repeat split; [constructor|lia..].
Qed.

(** What [try_push] does to a batch without a short segment. *)
Lemma try_push_spec b p to r b' :
  batch_full b → 0 < length p ≤ MAX_DATAGRAM_SIZE →
  SendBatch.try_push b p to = (r, b') →
  match r with
  | None => batch_ok b' ∧ pend b' = pend b ++ [(Some to, p)] ∧ batch_len b' = S (batch_len b)
  | Some p' => p' = p ∧ b' = b
  end.
Proof.
  intros Hb Hp. unfold SendBatch.try_push. case_bool_decide as He.
  - intros [= <- <-]. destruct (push_first_ok b p to He Hp) as ([Hok _] & Hpend & Hlen).
    split; [done|]. rewrite Hpend, Hlen. unfold batch_len. rewrite He.
    split; [|done]. unfold pend. by destruct (SendBatch.to b); rewrite ?He.
  - destruct (_ && _) eqn:Hc; intros [= <- <-]; [|done]. bools.
    pose proof (batch_full_lengths _ Hb) as Hall. destruct Hb as [Hok _].
    unfold batch_ok, pend, batch_len in *. simpl. rewrite H in *.
    destruct Hok as (init & lst & Hpk & _ & _ & Hmax).
    repeat split.
    + exists (SendBatch.packets b), p. repeat split; try done; [lia|].
      by apply Nat.leb_le.
    + by rewrite map_app.
    + rewrite length_app. simpl. lia.
Qed.

(** [take] empties the batch. *)
Definition batch_empty (b : SendBatch.t) : Prop :=
  SendBatch.to b = None ∧ SendBatch.packets b = [].

Lemma batch_empty_full b : batch_empty b → batch_full b ∧ pend b = [] ∧ batch_len b = 0.
Proof.
  intros [Ht Hp]. unfold batch_full, batch_ok, pend, batch_len,
    SendBatch.ends_with_short_segment. by rewrite Ht, Hp.
Qed.

(** ** What a send puts on the wire *)

Section WireFacts.
Context {Sock : Type} `{L : UdpLaws Sock} (linux : bool).
Implicit Types (s : Sock) (to : SocketAddr).

Lemma retry_wire (m : Sock → result io_error unit * Sock) l :
  (∀ s s', m s = (Ok tt, s') → wire s' = wire s ++ l) →
  (∀ s e s', m s = (Err e, s') → wire s' = wire s) →
  ∀ fuel s r s', loop fuel (retry m) s = Some (r, s') →
  wire s' = wire s ++ (if is_ok r then l else []).
Proof.
  intros Hok Herr fuel s r s' Hl.
  eapply (loop_invariant _ (λ x, wire x = wire s)
            (λ o, wire o.2 = wire s ++ (if is_ok o.1 then l else []))) in Hl; [done|..|done].
  - intros x x' Hx. unfold retry. destruct (m x) as [[[]|e] y] eqn:E; [done|].
    destruct (would_block e); [|done].
    destruct (writable y) as [[[]|] z] eqn:E2; [|done]. intros [= ->].
    rewrite (writable_wire _ _ _ E2). apply Herr in E. congruence.
  - intros x o Hx. unfold retry. destruct (m x) as [[[]|e] y] eqn:E.
    + intros [= <-]. simpl. apply Hok in E. congruence.
    + apply Herr in E. destruct (would_block e).
      * destruct (writable y) as [[[]|] z] eqn:E2; intros [= <-].
        simpl. rewrite (writable_wire _ _ _ E2), app_nil_r. congruence.
      * intros [= <-]. simpl. rewrite app_nil_r. congruence.
Qed.

(** The datagrams of one [send_payload]. *)
Definition payload_segments (gso : option nat) (p : bytes) : list bytes :=
  segments (Z.of_nat <$> gso) p.

Definition gso_fits (gso : option nat) (p : bytes) : Prop :=
  match gso with
  | None => True
  | Some seg =>
      linux = true ∧ 0 < seg ≤ MAX_DATAGRAM_SIZE ∧ length (chunks seg p) ≤ 64 ∧
      (Z.of_nat (length p) ≤ 65507)%Z
  end.

Lemma gso_control gso p (control : list cmsghdr) :
  gso_fits gso p →
  control = match gso with
            | Some seg => set_udp_segment_cmsg linux (wrap 16 (Z.of_nat seg))
            | None => [] end →
  gso_acceptable (udp_segment control) p ∧
  segments (udp_segment control) p = payload_segments gso p.
Proof.
  intros Hf ->. destruct gso as [seg|]; [|done]. destruct Hf as (-> & Hs & Hn & Hp).
  cbn [set_udp_segment_cmsg udp_segment List.find]. simpl.
  assert (wrap 16 (Z.of_nat seg) = Z.of_nat seg) as ->.
  { apply Z.mod_small. unfold MAX_DATAGRAM_SIZE, MAX_UDP_PAYLOAD in Hs. lia. }
  unfold payload_segments. simpl. rewrite Nat2Z.id. repeat split; [lia|done|done].
Qed.

Lemma send_payload_wire fuel to p gso s r s' :
  gso_fits gso p →
  send_payload linux fuel to p gso s = Some (r, s') →
  wire s' = wire s ++ (if is_ok r then map (pair (Some to)) (payload_segments gso p) else []).
Proof.
  intros Hf. destruct (gso_control gso p _ Hf eq_refl) as [Ha Hs].
  apply (retry_wire (λ s, sendmsg_udp linux s to p gso)); clear s r s'.
  - intros s s'. unfold sendmsg_udp. destruct (sendmsg _ _ _ _) as [[n|e] x] eqn:E; [|done].
    cbn [check_sent]. destruct (n =? _)%Z; [|done]. intros [= <-].
    eapply sendmsg_ok in E as [_ E]; [|exact Ha]. by rewrite E, Hs.
  - intros s e s'. unfold sendmsg_udp. destruct (sendmsg _ _ _ _) as [[n|e'] x] eqn:E.
    + cbn [check_sent]. eapply sendmsg_ok in E as [-> E]; [|exact Ha]. by rewrite Z.eqb_refl.
    + intros [= _ <-]. by apply sendmsg_err in E.
Qed.

Lemma send_udp_connected_wire fuel p s r s' :
  send_udp_connected fuel p s = Some (r, s') →
  wire s' = wire s ++ (if is_ok r then [(None, p)] else []).
Proof.
  apply (retry_wire (λ s, sendmsg_udp_connected s p)); clear s r s'.
  - intros s s'. unfold sendmsg_udp_connected.
    destruct (sendmsg _ _ _ _) as [[n|e] x] eqn:E; [|done].
    cbn [check_sent]. destruct (n =? _)%Z; [|done]. intros [= <-].
    by apply sendmsg_ok in E as [_ E].
  - intros s e s'. unfold sendmsg_udp_connected.
    destruct (sendmsg _ _ _ _) as [[n|e'] x] eqn:E.
    + cbn [check_sent]. apply sendmsg_ok in E as [-> E]; [|done]. by rewrite Z.eqb_refl.
    + intros [= _ <-]. by apply sendmsg_err in E.
Qed.

Lemma send_each_wire fuel to ps s r s' :
  send_each linux fuel to ps s = Some (r, s') →
  ∃ ps', ps' `prefix_of` ps ∧ wire s' = wire s ++ map (pair (Some to)) ps' ∧
         (r = Ok tt → ps' = ps).
Proof.
  revert s. induction ps as [|p ps IH]; intros s; cbn [send_each].
  - intros [= <- <-]. exists []. by rewrite app_nil_r.
  - intros [([] & s1 & H1 & H2)|(e & H1 & ->)]%fstm_bind_Some;
      apply send_payload_wire in H1; try done.
    + destruct (IH _ H2) as (ps' & Hp & Hw & Hr). exists (p :: ps').
      repeat split; [by apply prefix_cons| |naive_solver].
      rewrite Hw, H1. simpl. by rewrite <- app_assoc.
    + exists []. repeat split; [apply prefix_nil|done|done].
Qed.

Lemma concat_length_le (ps : list bytes) n :
  Forall (λ p, length p ≤ n) ps → length (concat ps) ≤ length ps * n.
Proof. induction 1; simpl; [lia|]. rewrite length_app. lia. Qed.

Lemma prefix_map {A B} (f : A → B) (l k : list A) :
  l `prefix_of` k → map f l `prefix_of` map f k.
Proof. intros [x ->]. rewrite map_app. by eexists. Qed.

(** The segmented send of a batch is acceptable and its segments are the packets. *)
Lemma batch_segments init lst seg :
  let ps := init ++ [lst] in
  let gso := if linux && (1 <? length ps) then Some seg else None in
  Forall (λ p, length p = seg) init → 0 < length lst ≤ seg →
  seg ≤ MAX_DATAGRAM_SIZE → length ps ≤ SEND_BATCH →
  negb (linux && (1 <? length ps)) && (1 <? length ps) = false →
  gso_fits gso (concat ps) ∧ payload_segments gso (concat ps) = ps.
Proof.
  intros ps gso Hinit Hlst Hmax Hlen Hg. unfold gso, payload_segments.
  destruct (1 <? length ps) eqn:Hn; [destruct linux eqn:Hlin; [|done]|]; simpl.
  - assert (chunks seg (concat ps) = ps) as Hch.
    { unfold ps. rewrite concat_snoc. apply chunks_concat; [lia|done|done]. }
    rewrite Nat2Z.id, Hch. split; [|done]. unfold SEND_BATCH in *.
    repeat split; [done|lia|done|lia|].
    assert (Forall (λ p, length p ≤ 1400) ps) as Hc%concat_length_le.
    { apply Forall_app. unfold MAX_DATAGRAM_SIZE, MAX_UDP_PAYLOAD in *.
      split; [|constructor; [lia|done]].
      eapply Forall_impl; [exact Hinit|]. simpl. intros. lia. }
    nia.
  - rewrite andb_false_r. split; [done|]. simpl. unfold ps in *.
    apply Nat.ltb_ge in Hn. rewrite length_app in Hn. simpl in Hn.
    destruct init; [|simpl in Hn; lia]. simpl. by rewrite app_nil_r.
Qed.

(** A batch goes out whole and in order, or a prefix of it does and the error is
    returned. *)
Lemma send_packets_wire fuel to init lst seg s r s' :
  let ps := init ++ [lst] in
  Forall (λ p, length p = seg) init → 0 < length lst ≤ seg →
  seg ≤ MAX_DATAGRAM_SIZE → length ps ≤ SEND_BATCH →
  send_packets linux fuel to seg ps s = Some (r, s') →
  ∃ ps', ps' `prefix_of` ps ∧ wire s' = wire s ++ map (pair (Some to)) ps' ∧
         (r = Ok tt → ps' = ps).
Proof.
  intros ps Hinit Hlst Hmax Hlen. unfold send_packets.
  destruct (negb _ && _) eqn:Hg; [apply send_each_wire|].
  destruct (batch_segments init lst seg Hinit Hlst Hmax Hlen Hg) as [Hf Hs].
  fold ps in Hf, Hs. cbv zeta.
  destruct (send_payload _ _ _ _ _ _) as [[r2 s2]|] eqn:E2; [|done].
  apply send_payload_wire in E2; [|done]. rewrite Hs in E2. destruct r2 as [[]|e].
  - intros [= <- <-]. by exists ps.
  - simpl in E2. rewrite app_nil_r in E2. destruct (_ && is_gso_unsupported e).
    + intros (ps' & Hps & Hw & Hr)%send_each_wire. exists ps'. by rewrite Hw, E2.
    + intros [= <- <-]. exists []. rewrite app_nil_r.
      repeat split; [apply prefix_nil|done|done].
Qed.

Lemma send_batch_wire fuel b s r s' b' :
  batch_ok b → batch_len b ≤ SEND_BATCH →
  send_batch linux fuel s b = Some (r, s', b') →
  batch_empty b' ∧
  ∃ l, l `prefix_of` pend b ∧ wire s' = wire s ++ l ∧ (r = Ok tt → l = pend b).
Proof.
  intros Hok Hlen. unfold send_batch, SendBatch.take, batch_ok, pend, batch_len in *.
  destruct (SendBatch.to b) as [t|] eqn:Ht.
  2:{ intros [= <- <- <-]. split; [done|]. exists []. by rewrite app_nil_r. }
  destruct Hok as (init & lst & Hp & Hinit & Hlst & Hmax). rewrite Hp in *.
  destruct (send_packets _ _ _ _ _ _) as [[r1 s1]|] eqn:E; [|done].
  intros [= <- <- <-]. split; [done|].
  apply send_packets_wire in E as (ps' & Hps & Hw & Hr); [|done..].
  exists (map (pair (Some t)) ps'). rewrite Hw.
  split; [by apply prefix_map|]. split; [done|]. intros ->. by rewrite Hr.
Qed.
End WireFacts.

(** ** The flush delivers what the connection produced *)

Section FlushFacts.
Context {Sock : Type} `{L : UdpLaws Sock} (linux : bool).
Context {Conn H3 H3Config : Type} `{QS : QuicheSends Conn H3 H3Config}.
Local Abbreviation flushing := (flushing (Sock := Sock) (Conn := Conn)).
Implicit Types (st : flushing).

(** The packets [conn.send] hands out, in order. *)
Inductive produced (c : Conn) : list (option SocketAddr * bytes) → Conn → Prop :=
| produced_nil : produced c [] c
| produced_snoc l c1 p to c2 :
    produced c l c1 → send c1 MAX_DATAGRAM_SIZE = (Ok (p, to), c2) →
    produced c (l ++ [(Some to, p)]) c2.

(** What went on the wire, then what is in the batch, is what was produced. *)
Definition flushed (c0 : Conn) (s0 : Sock) st : Prop :=
  ∃ l sent, produced c0 l (f_conn st) ∧
    wire (f_sock st) = wire s0 ++ sent ∧ l = sent ++ pend (f_batch st).

(** After a failure a prefix of what was produced is on the wire. *)
Definition cut_short (c0 : Conn) (s0 : Sock) (c : Conn) (s : Sock) : Prop :=
  ∃ l l', produced c0 l c ∧ l' `prefix_of` l ∧ wire s = wire s0 ++ l'.

(** The end of a flush: the connection had nothing more, it failed, or the socket
    did. *)
Definition flush_post (c0 : Conn) (s0 : Sock) (r : result FlushError unit) st : Prop :=
  match r with
  | Ok _ => ∃ l c1, produced c0 l c1 ∧
      send c1 MAX_DATAGRAM_SIZE = (Err Done, f_conn st) ∧ wire (f_sock st) = wire s0 ++ l
  | Err (ConnSend e) => ∃ c1, e ≠ Done ∧
      send c1 MAX_DATAGRAM_SIZE = (Err e, f_conn st) ∧ cut_short c0 s0 c1 (f_sock st)
  | Err (SendFailed _) =>
      cut_short c0 s0 (f_conn st) (f_sock st) ∨
      ∃ c1, send c1 MAX_DATAGRAM_SIZE = (Err Done, f_conn st) ∧ cut_short c0 s0 c1 (f_sock st)
  end.

(** The invariant of the inner loop after [k] turns. *)
Definition flush_inv (c0 : Conn) (s0 : Sock) (k : nat) st : Prop :=
  flushed c0 s0 st ∧ batch_full (f_batch st) ∧ batch_len (f_batch st) ≤ k.

Lemma flushed_cut c0 s0 st : flushed c0 s0 st → cut_short c0 s0 (f_conn st) (f_sock st).
Proof.
  intros (l & sent & Hl & Hw & ->). exists (sent ++ pend (f_batch st)), sent.
  repeat split; [done|by eexists|done].
Qed.

Lemma flush_batch_spec fuel c0 s0 st r st' :
  flushed c0 s0 st → batch_ok (f_batch st) → batch_len (f_batch st) ≤ SEND_BATCH →
  flush_batch linux fuel st = Some (r, st') →
  f_conn st' = f_conn st ∧
  match r with
  | Ok _ => flushed c0 s0 st' ∧ batch_empty (f_batch st')
  | Err e => (∃ e', e = SendFailed e') ∧ cut_short c0 s0 (f_conn st') (f_sock st')
  end.
Proof.
  intros (l & sent & Hl & Hw & ->) Hok Hlen. unfold flush_batch.
  destruct (send_batch _ _ _ _) as [[[r' s'] b']|] eqn:E; [|done].
  apply send_batch_wire in E as [Hemp (l' & Hpre & Hw' & Hr)]; [|done..].
  rewrite Hw, <- app_assoc in Hw'.
  intros [= <- <-]. split; [done|]. destruct r' as [[]|e]; simpl.
  - rewrite Hr in Hw' by done. split; [|done].
    exists (sent ++ pend (f_batch st)), (sent ++ pend (f_batch st)). cbn [f_conn f_sock f_batch].
    repeat split; [done|done|]. destruct Hemp as [He _]. unfold pend at 3. rewrite He.
    by rewrite app_nil_r.
  - split; [by eexists|]. exists (sent ++ pend (f_batch st)), (sent ++ l').
    repeat split; [done|by apply prefix_app|done].
Qed.

Lemma flush_push_spec fuel c0 s0 k st c p to r st' :
  flush_inv c0 s0 k st → k < SEND_BATCH →
  send (f_conn st) MAX_DATAGRAM_SIZE = (Ok (p, to), c) →
  flush_push linux fuel p to (mkFlushing (f_batch st) c (f_sock st)) = Some (r, st') →
  match r with
  | Ok _ => flushed c0 s0 st' ∧ batch_ok (f_batch st') ∧ batch_len (f_batch st') ≤ S k
  | Err e => (∃ e', e = SendFailed e') ∧ cut_short c0 s0 (f_conn st') (f_sock st')
  end.
Proof.
  intros (Hfl & Hfull & Hlen) Hk Hs. pose proof (send_length _ _ _ _ _ Hs) as Hp.
  unfold flush_push. cbn [f_batch f_conn f_sock].
  destruct (SendBatch.try_push _ _ _) as [o b] eqn:Et.
  pose proof (try_push_spec _ _ _ _ _ Hfull Hp Et) as Ht. destruct o as [p'|].
  - destruct Ht as [-> ->].
    destruct (flush_batch linux fuel st) as [[r1 st1]|] eqn:Eb.
    2:{ unfold mbind, fstm_bind. unfold flush_batch in *. cbn [f_batch f_conn f_sock] in *.
        by destruct (send_batch _ _ _ _) as [[[? ?] ?]|]. }
    assert (flush_batch linux fuel (mkFlushing (f_batch st) c (f_sock st))
            = Some (r1, mkFlushing (f_batch st1) c (f_sock st1))) as Eb'.
    { unfold flush_batch in *. cbn [f_batch f_conn f_sock] in *.
      destruct (send_batch _ _ _ _) as [[[? ?] ?]|]; naive_solver. }
    apply (flush_batch_spec _ c0 s0) in Eb as [Hc Hr]; [|done|by apply Hfull|lia].
    unfold mbind, fstm_bind. rewrite Eb'. destruct r1 as [[]|e].
    + unfold flush_pending. intros [= <- <-]. cbn [f_batch f_conn f_sock].
      destruct Hr as [(l & sent & Hl & Hw & ->) [He1 He2]].
      destruct (push_first_ok (f_batch st1) p to He2 Hp) as ([Hok _] & Hpe & Hln).
      repeat split; [|done|lia]. rewrite Hc in Hl.
      eexists _, sent. cbn [f_batch f_conn f_sock].
      split; [by eapply produced_snoc|]. split; [done|].
      unfold pend at 1. rewrite He1, app_nil_r. by rewrite Hpe.
    + intros [= <- <-]. cbn [f_batch f_conn f_sock].
      destruct Hr as [He (l & l' & Hl & Hpre & Hw)]. split; [done|]. rewrite Hc in Hl.
      exists (l ++ [(Some to, p)]), l'.
      repeat split; [by eapply produced_snoc|by apply prefix_app_r|done].
  - destruct Ht as (Hok & Hpe & Hln). intros [= <- <-]. cbn [f_batch f_conn f_sock].
    repeat split; [|done|lia]. destruct Hfl as (l & sent & Hl & Hw & ->).
    eexists _, sent. cbn [f_batch f_conn f_sock].
    split; [by eapply produced_snoc|]. split; [done|]. by rewrite Hpe, app_assoc.
Qed.
(** A turn of the inner loop takes one packet and keeps the invariant. *)
Lemma flush_one_spec fuel c0 s0 k st r st' :
  flush_inv c0 s0 k st → k < SEND_BATCH →
  flush_one linux fuel st = Some (r, st') →
  match r with
  | Ok true => flush_inv c0 s0 (S k) st'
  | Ok false => ∃ c1, send c1 MAX_DATAGRAM_SIZE = (Err Done, f_conn st') ∧
      flush_inv c0 s0 k (mkFlushing (f_batch st') c1 (f_sock st'))
  | Err e => flush_post c0 s0 (Err e) st'
  end.
Proof.
  intros Hinv Hk. unfold flush_one.
  destruct (send _ _) as [[[p to]|e] c] eqn:Es.
  2:{ pose proof (flushed_cut _ _ _ (proj1 Hinv)) as Hcut. destruct st as [b c1 s].
      destruct e; intros [= <- <-]; simpl in *; eauto 10. }
  intros [([] & st1 & H1 & H2)|(e & H1 & ->)]%fstm_bind_Some;
    apply (flush_push_spec _ c0 s0 k) in H1; try done.
  2:{ destruct H1 as [[e' ->] Hc]. by left. }
  destruct H1 as (Hfl & Hok & Hln).
  apply fstm_bind_Some in H2 as [([] & st2 & H2 & [= <- <-])|(e & H2 & ->)];
    unfold flush_short in H2; destruct (SendBatch.ends_with_short_segment _) eqn:Ee;
    try (apply (flush_batch_spec _ c0 s0) in H2 as [Hc H2]; [|done|done|lia]);
    simplify_eq.
  - destruct H2 as [Hf He]. destruct (batch_empty_full _ He) as (? & ? & Hl).
    split; [done|]. split; [done|lia].
  - by repeat split.
  - destruct H2 as [[e' ->] Hcut]. by left.
Qed.

Lemma flush_round_spec fuel c0 s0 n k st r st' :
  flush_inv c0 s0 k st → k + n ≤ SEND_BATCH →
  flush_round linux fuel n st = Some (r, st') →
  match r with
  | Ok true => flush_inv c0 s0 (k + n) st'
  | Ok false => ∃ c1, send c1 MAX_DATAGRAM_SIZE = (Err Done, f_conn st') ∧
      flush_inv c0 s0 (k + n) (mkFlushing (f_batch st') c1 (f_sock st'))
  | Err e => flush_post c0 s0 (Err e) st'
  end.
Proof.
  revert k st. induction n as [|n IH]; intros k st Hinv Hn; cbn [flush_round].
  - intros [= <- <-]. by rewrite Nat.add_0_r.
  - intros [(more & st1 & H1 & H2)|(e & H1 & ->)]%fstm_bind_Some;
      apply (flush_one_spec _ c0 s0 k) in H1; try done; try lia.
    destruct more.
    + rewrite <- Nat.add_succ_comm. eapply IH; [done|lia|done].
    + injection H2 as <- <-. destruct H1 as (c1 & Hs & Hf & Hb & Hl).
      exists c1. split; [done|]. split; [done|]. split; [done|lia].
Qed.

Lemma flush_turn_spec fuel c0 s0 st :
  flush_inv c0 s0 0 st →
  match flush_turn linux fuel st with
  | inl st' => flush_inv c0 s0 0 st'
  | inr (Some (r, st')) => flush_post c0 s0 r st'
  | inr None => True
  end.
Proof.
  intros Hinv. unfold flush_turn.
  destruct (flush_round _ _ _ _) as [[[[]|e] st1]|] eqn:E; [| | |done];
    apply (flush_round_spec _ c0 s0 _ 0) in E; try done.
  - destruct E as (Hfl & Hb & Hl).
    destruct (flush_batch _ _ _) as [[[[]|e] st2]|] eqn:E2; [| |done];
      apply (flush_batch_spec _ c0 s0) in E2 as [Hc E2]; try done; try apply Hb.
    + destruct E2 as [Hf He]. destruct (batch_empty_full _ He) as (? & ? & Hl2).
      split; [done|]. split; [done|lia].
    + destruct E2 as [[e' ->] Hcut]. by left.
  - destruct E as (c1 & Hs & Hfl & Hb & Hl).
    destruct (flush_batch _ _ _) as [[r st2]|] eqn:E2; [|done].
    assert (flush_batch linux fuel (mkFlushing (f_batch st1) c1 (f_sock st1))
            = Some (r, mkFlushing (f_batch st2) c1 (f_sock st2)) ∧ f_conn st2 = f_conn st1)
      as [E3 Hc2].
    { unfold flush_batch in *. cbn [f_batch f_conn f_sock] in *.
      destruct (send_batch _ _ _ _) as [[[? ?] ?]|]; naive_solver. }
    apply (flush_batch_spec _ c0 s0) in E3 as [_ E3]; try done; try apply Hb.
    rewrite <- Hc2 in Hs. cbn [f_batch f_conn f_sock] in *. destruct r as [[]|e].
    + destruct E3 as [(l & sent & Hl3 & Hw & ->) [He _]]. exists (sent ++ []), c1.
      unfold pend in Hl3. cbn [f_batch f_conn f_sock] in *. rewrite He in Hl3.
      repeat split; [done|done|]. by rewrite app_nil_r.
    + destruct E3 as [[e' ->] Hcut]. right. eauto.
Qed.

Lemma flush_connection_spec fuel c s r st' :
  flush_connection linux fuel s c = Some (r, st') → flush_post c s r st'.
Proof.
  unfold flush_connection. intros H.
  destruct (loop _ _ _) as [o|] eqn:E; [|done]. simpl in H. subst o.
  eapply (loop_invariant _ (flush_inv c s 0)
    (λ o, match o with Some (r, st') => flush_post c s r st' | None => True end)) in E;
    [done|..].
  - intros x x' Hx Ht. pose proof (flush_turn_spec fuel _ _ _ Hx) as Hs. by rewrite Ht in Hs.
  - intros x o Hx Ht. pose proof (flush_turn_spec fuel _ _ _ Hx) as Hs. by rewrite Ht in Hs.
  - repeat split; [|done|done..]. exists [], []. repeat split; [constructor|].
    by rewrite app_nil_r.
Qed.
End FlushFacts.

(** ** The flush returns *)

Section FlushReturns.
Context {Sock : Type} {U : UdpSys Sock} {P : UdpProgress U} (linux : bool).
Context {Conn H3 H3Config : Type} `{QS : QuicheSends Conn H3 H3Config}.
Local Abbreviation flushing := (flushing (Sock := Sock) (Conn := Conn)).
Implicit Types (st : flushing) (s : Sock).

Lemma retry_settles (m : Sock → result io_error unit * Sock) :
  (∀ s e s1 s2, m s = (Err e, s1) → would_block e = true → writable s1 = (Ok tt, s2) →
     blocked s2 < blocked s) →
  ∀ s, settles (λ f, loop f (retry m) s).
Proof.
  intros Hm s.
  destruct (loop_terminates (retry m) (λ _, True) blocked) with (S (blocked s)) s as [r Hr];
    [|done|lia|].
  - intros x x' _. unfold retry. destruct (m x) as [[[]|e] y] eqn:E; [done|].
    destruct (would_block e) eqn:Hw; [|done].
    destruct (writable y) as [[[]|] z] eqn:E2; [|done]. intros [= <-]. eauto.
  - exists (S (blocked s)), r. intros f Hf. by eapply loop_mono.
Qed.

Lemma send_payload_settles to p gso s : settles (λ f, send_payload linux f to p gso s).
Proof.
  apply retry_settles. clear s. intros s e s1 s2. unfold sendmsg_udp.
  destruct (sendmsg _ _ _ _) as [[n|e'] x] eqn:E; cbn [check_sent].
  - destruct (n =? _)%Z; [done|]. by intros [= <- <-].
  - intros [= <- <-]. eauto using writable_progress.
Qed.

Lemma send_udp_connected_settles p s : settles (λ f, send_udp_connected f p s).
Proof.
  apply retry_settles. clear s. intros s e s1 s2. unfold sendmsg_udp_connected.
  destruct (sendmsg _ _ _ _) as [[n|e'] x] eqn:E; cbn [check_sent].
  - destruct (n =? _)%Z; [done|]. by intros [= <- <-].
  - intros [= <- <-]. eauto using writable_progress.
Qed.

Lemma send_each_settles to ps s : settles (λ f, send_each linux f to ps s).
Proof.
  revert s. induction ps as [|p ps IH]; intros s; cbn [send_each]; [apply settles_const|].
  apply (settles_bind _ (λ f _, send_each linux f to ps)); [apply send_payload_settles|auto].
Qed.

Lemma send_batch_settles b s : settles (λ f, send_batch linux f s b).
Proof.
  unfold send_batch. destruct (SendBatch.take b) as [[[[to seg] ps]|] b']; [|apply settles_const].
  apply (settles_then (λ f, send_packets linux f to seg ps s)
           (λ _ (r : result io_error unit * Sock), let '(r, s) := r in Some (r, s, b')));
    [|intros []; intros; apply settles_const].
  unfold send_packets. destruct (negb _ && _); [apply send_each_settles|]. cbv zeta.
  set (g := if linux && _ then Some seg else None).
  apply (settles_ext (λ f, match send_payload linux f to (concat ps) g s with
    | Some r => match r with
        | (Ok _, s) => Some (Ok tt, s)
        | (Err e, s) => if (linux && (1 <? length ps)) && is_gso_unsupported e
                        then send_each linux f to ps s else Some (Err e, s) end
    | None => None end)).
  { intros f. by destruct (send_payload _ _ _ _ _ _) as [[[] ?]|]. }
  apply (settles_then _ (λ f (r : result io_error unit * Sock), _));
    [apply send_payload_settles|].
  intros [[a|e] s'] _; [apply settles_const|].
  destruct (_ && is_gso_unsupported e); [apply send_each_settles|apply settles_const].
Qed.

Lemma flush_batch_settles st : settles (λ f, flush_batch linux f st).
Proof.
  unfold flush_batch.
  apply (settles_then _ (λ _ (r : result io_error unit * Sock * SendBatch.t),
           let '(r, s, b) := r in Some (map_err SendFailed r, mkFlushing b (f_conn st) s)));
    [apply send_batch_settles|]. intros [[r s] b] _. apply settles_const.
Qed.

Lemma flush_one_settles st : settles (λ f, flush_one linux f st).
Proof.
  unfold flush_one.
  destruct (send _ _) as [[[p to]|[]] c]; try apply settles_const.
  apply (settles_bind _ (λ f _, flush_short linux f ≫= λ _, mret true)).
  - unfold flush_push. cbn [f_batch f_conn f_sock].
    destruct (SendBatch.try_push _ _ _) as [[p'|] b]; [|apply settles_const].
    apply (settles_bind _ (λ _ _, flush_pending p' to)); [apply flush_batch_settles|].
    intros. apply settles_const.
  - intros [] st1 _. apply (settles_bind _ (λ _ _, mret true)); [|intros; apply settles_const].
    unfold flush_short. case_match; [apply flush_batch_settles|apply settles_const].
Qed.

Lemma flush_round_settles n st : settles (λ f, flush_round linux f n st).
Proof.
  revert st. induction n as [|n IH]; intros st; cbn [flush_round]; [apply settles_const|].
  apply (settles_bind _ (λ f (more : bool), if more then flush_round linux f n else mret false));
    [apply flush_one_settles|]. intros [] st1 _; [apply IH|apply settles_const].
Qed.

(** Every turn of the inner loop takes a packet from the connection. *)
Lemma flush_batch_conn f st r st' :
  flush_batch linux f st = Some (r, st') → f_conn st' = f_conn st.
Proof. unfold flush_batch. destruct (send_batch _ _ _ _) as [[[? ?] ?]|]; naive_solver. Qed.

Lemma flush_one_drains f st st' :
  flush_one linux f st = Some (Ok true, st') → outgoing (f_conn st') < outgoing (f_conn st).
Proof.
  unfold flush_one. destruct (send _ _) as [[[p to]|[]] c] eqn:E; try done.
  apply send_drains in E.
  intros [([] & st1 & H1 & H2)|(e & H1 & ?)]%fstm_bind_Some; [|done].
  apply fstm_bind_Some in H2 as [([] & st2 & H2 & [= <-])|(e & H2 & ?)]; [|done].
  assert (f_conn st1 = c) as <-.
  { unfold flush_push in H1. cbn [f_batch f_conn f_sock] in H1.
    destruct (SendBatch.try_push _ _ _) as [[p'|] b]; [|by injection H1 as <-].
    apply fstm_bind_Some in H1 as [([] & st3 & Hb & [= <-])|(e & _ & ?)]; [|done].
    by apply flush_batch_conn in Hb. }
  assert (f_conn st2 = f_conn st1) as ->; [|done].
  unfold flush_short in H2. case_match; [by apply flush_batch_conn in H2|by injection H2 as <-].
Qed.

Lemma flush_round_drains f n st st' :
  flush_round linux f n st = Some (Ok true, st') → outgoing (f_conn st') + n ≤ outgoing (f_conn st).
Proof.
  revert st. induction n as [|n IH]; intros st; cbn [flush_round].
  - intros [= <-]. lia.
  - intros [([] & st1 & H1 & H2)|(e & _ & ?)]%fstm_bind_Some; try done.
    apply IH in H2. apply flush_one_drains in H1. lia.
Qed.

Lemma flush_connection_settles s (c : Conn) : settles (λ f, flush_connection linux f s c).
Proof.
  apply (settles_loop (flush_turn linux) (λ st, outgoing (f_conn st))). clear s c. intros st.
  destruct (flush_round_settles SEND_BATCH st) as (f1 & [r1 st1] & H1).
  destruct (flush_batch_settles st1) as (f2 & [r2 st2] & H2).
  exists (max f1 f2). eexists. split.
  - intros f Hf. unfold flush_turn. rewrite H1, H2 by lia. reflexivity.
  - pose proof (H1 f1 (le_n _)) as Hr. pose proof (H2 f2 (le_n _)) as Hb.
    destruct r1 as [[]|e]; [|by eauto..]. destruct r2 as [[]|e]; [|by eauto].
    apply flush_batch_conn in Hb. apply flush_round_drains in Hr. rewrite Hb.
    unfold SEND_BATCH in Hr. lia.
Qed.
End FlushReturns.

(** ** Receiving *)

(** The kernel's layout of an address. *)
Definition storage_of (a : SocketAddr) : sockaddr_storage :=
  match a with
  | SockV4 ip port =>
      mkStorage AF_INET (to_be_bytes 2 port ++ to_be_bytes 4 ip ++ replicate 8 (z2b 0))
  | SockV6 ip port flow scope =>
      mkStorage AF_INET6 (to_be_bytes 2 port ++ rev (to_be_bytes 4 flow) ++
        to_be_bytes 16 ip ++ rev (to_be_bytes 4 scope))
  end.

Definition addr_ok (a : SocketAddr) : Prop :=
  match a with
  | SockV4 ip port => in_width 32 ip ∧ in_width 16 port
  | SockV6 ip port flow scope =>
      in_width 128 ip ∧ in_width 16 port ∧ in_width 32 flow ∧ in_width 32 scope
  end.

Lemma field_at fam (pre x post : bytes) (off len : nat) :
  length pre = off → length x = len → field (mkStorage fam (pre ++ x ++ post)) off len = x.
Proof.
  intros <- <-. unfold field. cbn [ss_data]. by rewrite drop_app_length, take_app_length.
Qed.

Lemma field_front fam (x post : bytes) (len : nat) :
  length x = len → field (mkStorage fam (x ++ post)) 0 len = x.
Proof. by apply (field_at fam []). Qed.

Lemma split_gro_concat g buf : concat (split_gro g buf) = buf.
Proof.
  unfold split_gro. destruct g as [z|]; [|apply app_nil_r].
  destruct (_ && _) eqn:E; [|apply app_nil_r]. bools. apply concat_chunks. lia.
Qed.

(** Splitting recovers coalesced datagrams. *)
Lemma split_gro_coalesced (init : list bytes) (lst : bytes) (seg : nat) :
  Forall (λ p, length p = seg) init → 0 < length lst ≤ seg →
  split_gro (Some (Z.of_nat seg)) (concat init ++ lst) = init ++ [lst].
Proof.
  intros Hi Hl. unfold split_gro. destruct (_ && _) eqn:E.
  - rewrite Nat2Z.id. apply chunks_concat; [lia|done|done].
  - destruct Hi as [|p init Hp Hi]; [done|]. exfalso.
    rewrite concat_cons, !length_app in E.
    apply andb_false_iff in E as [E%Z.ltb_ge|E%Z.ltb_ge]; simpl in *; lia.
Qed.

Section RecvFacts.
Context {Sock : Type} `{U : UdpSys Sock} (linux : bool).
Context {Chan : Type → Type} `{CL : MpscLaws Chan}.
Local Abbreviation Tx := (Chan (bytes * SocketAddr)%type).
Implicit Types (s : Sock) (tx : Tx).

(** What the kernel delivers in at most [n] receives. *)
Inductive received (buf_size : nat) s : nat → list (bytes * SocketAddr) → Sock → Prop :=
| received_nil : received buf_size s 0 [] s
| received_snoc n l s1 r s2 :
    received buf_size s n l s1 → recv_udp_segments linux s1 buf_size = (r, s2) →
    received buf_size s (S n) (l ++ match r with Ok segs => segs | Err _ => [] end) s2.

Lemma forward_queued segs tx :
  ∃ l, sublist l segs ∧ queued (forward tx segs) = queued tx ++ l.
Proof.
  revert tx. induction segs as [|x segs IH]; intros tx.
  - exists []. by rewrite app_nil_r.
  - change (forward tx (x :: segs)) with (forward (snd (try_send tx x)) segs).
    destruct (try_send tx x) as [b tx'] eqn:E. apply try_send_queued in E. cbn [snd].
    destruct (IH tx') as (l & Hl & Hq). rewrite Hq, E. destruct b.
    + exists (x :: l). split; [by constructor|]. by rewrite <- app_assoc.
    + exists l. split; [by constructor|done].
Qed.

Lemma recv_round_spec n bs s0 k l0 tx0 l0' b st st' :
  received bs s0 k l0 st.1 → sublist l0' l0 → queued st.2 = queued tx0 ++ l0' →
  recv_round linux n bs st = (b, st') →
  ∃ k' l l', k' ≤ k + n ∧ received bs s0 k' l st'.1 ∧ sublist l' l ∧
             queued st'.2 = queued tx0 ++ l'.
Proof.
  revert k l0 l0' st. induction n as [|n IH]; intros k l0 l0' st Hr Hs Hq; cbn [recv_round].
  - intros [= _ <-]. exists k, l0, l0'. repeat split; [lia|done..].
  - destruct (recv_udp_segments linux st.1 bs) as [r s] eqn:E.
    pose proof (received_snoc _ _ _ _ _ _ _ Hr E) as Hr'. destruct r as [segs|e].
    + destruct (forward_queued segs st.2) as (l & Hl & Hf).
      intros H. apply (IH (S k) (l0 ++ segs) (l0' ++ l)) in H as (k' & l1 & l2 & Hk & H);
        [|exact Hr'|by apply sublist_app|cbn [snd]; by rewrite Hf, Hq, app_assoc].
      exists k', l1, l2. split; [lia|done].
    + rewrite app_nil_r in Hr'. destruct (would_block e); [|destruct (interrupted e)].
      * intros [= _ <-]. exists (S k), l0, l0'. repeat split; [lia|done..].
      * intros H. apply (IH (S k) l0 l0') in H as (k' & l1 & l2 & Hk & H); [|done..].
        exists k', l1, l2. split; [lia|done].
      * intros [= _ <-]. exists (S k), l0, l0'. repeat split; [lia|done..].
Qed.
End RecvFacts.

(** ** Properties *)

Section Theorems.
Context {Sock : Type} {U : UdpSys Sock}.
Context {Conn H3 H3Config : Type} `{QS : QuicheSends Conn H3 H3Config}.

(** C18: Flushing a connection returns, for every socket and every connection, once the
    fuel is large enough, and then always with the same result.  When it succeeds,
    the datagrams added to the wire are exactly the packets the connection produced
    until it had no more, one datagram per packet, in order and each to its own
    address, however they were batched into segmented sends and whether or not the
    kernel supports those; when it fails, they are a prefix of what was produced. *)
Theorem flush_delivers {L : UdpLaws U} {P : UdpProgress U} (linux : bool) (s : Sock) (c : Conn) :
  ∃ fuel0 r st,
    (∀ fuel, fuel0 ≤ fuel → flush_connection linux fuel s c = Some (r, st)) ∧
    flush_post c s r st.
Proof.
  destruct (flush_connection_settles linux s c) as (f & [r st] & H).
  exists f, r, st. split; [exact H|]. exact (flush_connection_spec linux f c s r st (H f (le_n f))).
Qed.

(** C20: The datagrams of one receive: whatever segment size the kernel reports, their
    concatenation is what was received and they all come from the peer; and when
    the kernel coalesced datagrams of one size with a last one that is not larger,
    exactly those datagrams come back. *)
Theorem recv_segments_exact (linux : bool) (s s' : Sock) (n : nat) (buf : bytes)
    (addr : sockaddr_storage) (control : list cmsghdr) (from : SocketAddr) :
  recvmsg s (recv_capacity n) = (Ok (buf, addr, control), s') →
  socket_addr_from_storage addr = Ok from →
  ∃ ps, recv_udp_segments linux s n = (Ok (map (λ p, (p, from)) ps), s') ∧
    concat ps = buf ∧
    ∀ init lst seg,
      recv_gro_segment_size linux control = Some (Z.of_nat seg) →
      Forall (λ p, length p = seg) init → 0 < length lst ≤ seg →
      buf = concat init ++ lst → ps = init ++ [lst].
Proof.
  intros Hr Ha. exists (split_gro (recv_gro_segment_size linux control) buf).
  unfold recv_udp_segments. rewrite Hr, Ha. split; [done|].
  split; [apply split_gro_concat|]. intros init lst seg -> Hi Hl ->.
  by apply split_gro_coalesced.
Qed.

(** One wake-up of the receive task makes at most [RECV_BATCH] receives and queues,
    in order, a subsequence of the datagrams they delivered: it may drop datagrams
    when the channel is full, but never reorders, duplicates or invents any. *)
Theorem recv_task_forwards {Chan : Type → Type} `{CL : MpscLaws Chan}
    (linux : bool) (buf_size : nat) (w : wake) (st : Sock * Chan (bytes * SocketAddr)%type) :
  let '(_, st') := spawn_udp_recv linux buf_size w st in
  ∃ n l l', n ≤ RECV_BATCH ∧ received linux buf_size st.1 n l st'.1 ∧ sublist l' l ∧
    queued st'.2 = queued st.2 ++ l'.
Proof.
  assert (received linux buf_size st.1 0 [] st.1) as H0 by constructor.
  assert (queued st.2 = queued st.2 ++ []) as Hq by by rewrite app_nil_r.
  destruct w; cbn [spawn_udp_recv].
  - destruct (recv_round _ _ _ _) as [b st'] eqn:E.
    by apply (recv_round_spec linux _ _ _ _ _ _ _ _ _ _ H0 (sublist_nil) Hq) in E.
  - exists 0, [], []. repeat split; [lia|done..].
  - exists 0, [], []. repeat split; [lia|done..].
Qed.
End Theorems.

(** The peer address read back from the kernel's storage is the address that was
    stored, with its port, flow information and scope; any family other than IPv4
    and IPv6 is an error. *)
Theorem socket_addr_roundtrip :
  (∀ a, addr_ok a → socket_addr_from_storage (storage_of a) = Ok a) ∧
  (∀ st, ss_family st ∉ [AF_INET; AF_INET6] → socket_addr_from_storage st = Err InvalidData).
Proof.
  split.
  - intros [ip port|ip port flow scope] Ha.
    + destruct Ha as [Hi Hp]. unfold socket_addr_from_storage. cbn [storage_of].
      rewrite (field_at _ (to_be_bytes 2 port) (to_be_bytes 4 ip)) by done.
      rewrite (field_front _ (to_be_bytes 2 port)) by done.
      by rewrite !from_to_be_bytes_small.
    + destruct Ha as (Hi & Hp & Hf & Hs). unfold socket_addr_from_storage, from_ne_bytes.
      cbn [storage_of]. rewrite (field_front _ (to_be_bytes 2 port)) by done.
      rewrite (field_at _ (to_be_bytes 2 port)) by done.
      rewrite (app_assoc (to_be_bytes 2 port)), (field_at _ (_ ++ _)) by done.
      rewrite (app_assoc (_ ++ _)), <- (app_nil_r (rev (to_be_bytes 4 scope))).
      rewrite (field_at _ (_ ++ _)) by done. rewrite !rev_involutive.
      by rewrite !from_to_be_bytes_small.
  - intros [fam d] Hf. unfold socket_addr_from_storage. cbn [ss_family] in *.
    rewrite !not_elem_of_cons in Hf. destruct Hf as (H1 & H2 & _).
    by rewrite (proj2 (Z.eqb_neq _ _) H1), (proj2 (Z.eqb_neq _ _) H2).
Qed.

(** A connection with four packets for two peers, over a socket that would block
    twice. *)
Definition sample_conn : lconn :=
  mkLconn [(str "abc", SockV4 1 1); (str "def", SockV4 1 1); (str "gh", SockV4 1 1);
           (str "ijk", SockV4 2 2)] [] [] [] [] [] [] true false [].
Definition sample_sock (gso : bool) : lsock := mkLsock [] [] 2 gso [] [] [].

Lemma flush_delivers_witness :
  (∀ gso, match flush_connection (U := LoopUdp) (Q := LoopQuiche) true 9 (sample_sock gso) sample_conn with
     | Some (Ok _, st) => ls_wire (f_sock st) =
         [(Some (SockV4 1 1), str "abc"); (Some (SockV4 1 1), str "def");
          (Some (SockV4 1 1), str "gh"); (Some (SockV4 2 2), str "ijk")]
     | _ => False end) ∧
  ∃ fuel0 r st,
    (∀ fuel, fuel0 ≤ fuel →
       flush_connection (U := LoopUdp) (Q := LoopQuiche) true fuel (sample_sock true) sample_conn = Some (r, st)) ∧
    flush_post (L := LoopUdpLaws) (Q := LoopQuiche) sample_conn (sample_sock true) r st.
Proof.
  split; [intros []; vm_compute; reflexivity|].
  exact (flush_delivers (U := LoopUdp) (QS := LoopSends) (L := LoopUdpLaws) (P := LoopUdpProgress)
           true (sample_sock true) sample_conn).
Defined.

Definition sample_recv : lsock :=
  mkLsock [] [(str "abcdefgh", storage_of (SockV4 9 7), [mkCmsg SOL_UDP UDP_GRO 3])] 0 true [] [] [].

Lemma recv_segments_exact_witness :
  ∃ ps, recv_udp_segments (U := LoopUdp) true sample_recv 1400
          = (Ok (map (λ p, (p, SockV4 9 7)) ps), mkLsock [] [] 0 true [] [] [str "abcdefgh"]) ∧
    ps = [str "abc"; str "def"] ++ [str "gh"].
Proof.
  destruct (recv_segments_exact (U := LoopUdp) true sample_recv (mkLsock [] [] 0 true [] [] [str "abcdefgh"]) 1400
    (str "abcdefgh") (storage_of (SockV4 9 7)) [mkCmsg SOL_UDP UDP_GRO 3] (SockV4 9 7))
    as (ps & H1 & _ & H2).
  - vm_compute. reflexivity.
  - vm_compute. reflexivity.
  - exists ps. split; [exact H1|].
    apply (H2 [str "abc"; str "def"] (str "gh") 3); [reflexivity| |simpl; lia|reflexivity].
    repeat constructor.
Defined.
