(* ===== verification/Cmsg.v ===== *)
(** * The control buffers of sendmsg and recvmsg (src/io.rs)

    Io.v exchanges ancillary data with the kernel as a list of messages.  Here is the
    [unsafe] code below it, on the bytes of the buffer: [cmsg_space], [cmsg_len],
    [set_udp_segment_cmsg] and [recv_gro_segment_size].  A read or write through a raw
    pointer that leaves the buffer is [Undefined].  The macros of cmsg(3) are the
    interface [Cmsg] with what the manual promises of them; [LinuxCmsg] is their
    definition for Linux at either word size.

    The theorems: the buffer the sender fills is read back as the one message of
    Io.v, with every access in bounds; reading the segment size of a coalesced receive
    stays in bounds and terminates on any host, and agrees with Io.v on little-endian
    ones.  On a big-endian host it does not: the kernel stores an [int], the code reads its
    first two bytes. *)

From Stdlib Require Import Strings.Byte.
From S2P Require Import Prelude.
From S2P Require Import Quiche.
From S2P Require Import Io.

(** ** Accesses through raw pointers *)

(** The result of [unsafe] code: a value, or an access outside of the buffer. *)
Inductive unsafe (A : Type) : Type :=
| Sound (a : A)
| Undefined.
Arguments Sound {A} a.
Arguments Undefined {A}.

#[global] Instance unsafe_ret : MRet unsafe := λ A a, Sound a.
#[global] Instance unsafe_bind : MBind unsafe := λ A B k m,
  match m with Sound a => k a | Undefined => Undefined end.

(** The byte order of the host. *)
Inductive endian := Little | Big.

(** An unsigned integer of [n] bytes in memory. *)
Definition to_ne_bytes (e : endian) (n : nat) (z : Z) : bytes :=
  match e with Big => to_be_bytes n z | Little => rev (to_be_bytes n z) end.

Definition from_ne (e : endian) (l : bytes) : Z :=
  match e with Big => from_be_bytes l | Little => from_be_bytes (rev l) end.

(** [*(p as *const uN)] and [*(p as *mut uN) = z], [n] bytes at offset [off]. *)
Definition load (e : endian) (n off : nat) (buf : bytes) : unsafe Z :=
  if bool_decide (off + n ≤ length buf) then Sound (from_ne e (take n (drop off buf)))
  else Undefined.

Definition store (e : endian) (n off : nat) (z : Z) (buf : bytes) : unsafe bytes :=
  if bool_decide (off + n ≤ length buf)
  then Sound (take off buf ++ to_ne_bytes e n z ++ drop (off + n) buf)
  else Undefined.

(** ** The interface of cmsg(3) *)

(** Pointers into the control buffer are offsets; the null pointer is [None].  The
    buffer stands for [msg_control] and [msg_controllen]. *)
Class Cmsg := {
  usize_len : nat;                             (* size_of::<usize>() *)
  CMSG_SPACE : nat → nat;
  CMSG_LEN : nat → nat;
  CMSG_DATA : nat → nat;
  CMSG_FIRSTHDR : bytes → option nat;
  CMSG_NXTHDR : endian → bytes → nat → option nat;
}.

Section Code.
Context `{Cmsg} (e : endian).

(** [struct cmsghdr { cmsg_len: size_t, cmsg_level: c_int, cmsg_type: c_int }]. *)
Definition off_level : nat := usize_len.
Definition off_type : nat := usize_len + 4.
Definition sizeof_cmsghdr : nat := usize_len + 8.

Definition cmsg_space (len : nat) : nat := CMSG_SPACE len.
Definition cmsg_len (len : nat) : nat := CMSG_LEN len.

(** What the buffer holds for [CMSG_FIRSTHDR] null is a null dereference. *)
Definition set_udp_segment_cmsg (control : bytes) (segment_size : Z) : unsafe bytes :=
  match CMSG_FIRSTHDR control with
  | None => Undefined
  | Some cmsg =>
      control ← store e 4 (cmsg + off_level) SOL_UDP control;
      control ← store e 4 (cmsg + off_type) UDP_SEGMENT control;
      control ← store e usize_len cmsg (Z.of_nat (cmsg_len 2)) control;
      store e 2 (CMSG_DATA cmsg) segment_size control
  end.

(** The condition of the walk: the level is [SOL_UDP], and then the type [UDP_GRO]. *)
Definition is_gro (control : bytes) (cmsg : nat) : unsafe bool :=
  level ← load e 4 (cmsg + off_level) control;
  if (level =? SOL_UDP)%Z then
    type ← load e 4 (cmsg + off_type) control;
    mret (type =? UDP_GRO)%Z
  else mret false.

(** One turn of [while !cmsg.is_null()]. *)
Definition gro_turn (control : bytes) (cmsg : option nat) :
    option nat + unsafe (option Z) :=
  match cmsg with
  | None => inr (Sound None)
  | Some cmsg =>
      match is_gro control cmsg with
      | Sound true => inr (size ← load e 2 (CMSG_DATA cmsg) control; mret (Some size))
      | Sound false => inl (CMSG_NXTHDR e control cmsg)
      | Undefined => inr Undefined
      end
  end.

Definition recv_gro_segment_size (fuel : nat) (control : bytes) : option (unsafe (option Z)) :=
  loop fuel (gro_turn control) (CMSG_FIRSTHDR control).
End Code.

(** What cmsg(3) says of the macros on Linux: the header is a word and two integers,
    the data follow it, a message occupies [CMSG_SPACE] bytes, and the next header is
    the one after those bytes if a message fits there. *)
Class CmsgLaws `{Cmsg} : Prop := {
  usize_word : usize_len = 4 ∨ usize_len = 8;
  cmsg_len_eq n : CMSG_LEN n = sizeof_cmsghdr + n;
  cmsg_data_eq h : CMSG_DATA h = h + sizeof_cmsghdr;
  cmsg_space_ge n : CMSG_LEN n ≤ CMSG_SPACE n;
  firsthdr_eq control :
    CMSG_FIRSTHDR control = if sizeof_cmsghdr <=? length control then Some 0 else None;
  nxthdr_bounds e control h h' : CMSG_NXTHDR e control h = Some h' →
    h < h' ∧ h' + sizeof_cmsghdr ≤ length control;
  nxthdr_none e control h n :
    load e usize_len h control = Sound (Z.of_nat (CMSG_LEN n)) →
    length control < h + CMSG_SPACE n + sizeof_cmsghdr → CMSG_NXTHDR e control h = None;
  nxthdr_some e control h n m :
    load e usize_len h control = Sound (Z.of_nat (CMSG_LEN n)) →
    load e usize_len (h + CMSG_SPACE n) control = Sound (Z.of_nat (CMSG_LEN m)) →
    h + CMSG_SPACE n + CMSG_SPACE m ≤ length control →
    CMSG_NXTHDR e control h = Some (h + CMSG_SPACE n);
}.

(** ** What the kernel reads and writes *)

Record message := mkMessage { level : Z; type : Z; data : bytes }.

(** The messages that lie in a control buffer from an offset to its end. *)
Fixpoint laid_out `{Cmsg} (e : endian) (control : bytes) (off : nat) (ms : list message) : Prop :=
  match ms with
  | [] => off = length control
  | m :: ms =>
      off + CMSG_SPACE (length (data m)) ≤ length control ∧
      load e usize_len off control = Sound (Z.of_nat (CMSG_LEN (length (data m)))) ∧
      load e 4 (off + off_level) control = Sound (level m) ∧
      load e 4 (off + off_type) control = Sound (type m) ∧
      take (length (data m)) (drop (CMSG_DATA off) control) = data m ∧
      laid_out e control (off + CMSG_SPACE (length (data m))) ms
  end.

(** A message as Io.v has it: its data as one integer. *)
Definition as_cmsg (e : endian) (m : message) : cmsghdr :=
  mkCmsg (level m) (type m) (from_ne e (data m)).

(** ** Lemmas: memory *)
Lemma length_to_ne_bytes (e : endian) n z : length (to_ne_bytes e n z) = n.
Proof. destruct e; cbn; [rewrite length_rev|]; apply length_to_be_bytes. Qed.

Lemma from_to_ne_bytes (e : endian) n z :
  in_width (8 * Z.of_nat n) z → from_ne e (to_ne_bytes e n z) = z.
Proof. intros Hz. destruct e; cbn; [rewrite rev_involutive|]; by apply from_to_be_bytes_small. Qed.

Lemma load_Sound (e : endian) n off buf :
  off + n ≤ length buf → load e n off buf = Sound (from_ne e (take n (drop off buf))).
Proof. intros. unfold load. by rewrite bool_decide_true. Qed.

Lemma load_inv (e : endian) n off buf z : load e n off buf = Sound z → off + n ≤ length buf.
Proof. unfold load. by case_bool_decide. Qed.

(** A store keeps the length of the buffer, is read back, and changes nothing else. *)
Lemma store_Sound (e : endian) n off z buf :
  off + n ≤ length buf → ∃ buf', store e n off z buf = Sound buf' ∧
    length buf' = length buf ∧ take n (drop off buf') = to_ne_bytes e n z ∧
    ∀ k o, o + k ≤ off ∨ off + n ≤ o → take k (drop o buf') = take k (drop o buf).
Proof.
  intros Hb. unfold store. rewrite bool_decide_true by done. eexists. split; [done|].
  assert (length (take off buf) = off) as Ht by (rewrite length_take; lia).
  split_and!.
  - rewrite !length_app, length_to_ne_bytes, length_take, length_drop. lia.
  - rewrite drop_app_length' by done. by rewrite take_app_length' by (by rewrite length_to_ne_bytes).
  - intros k o [Ho|Ho].
    + rewrite drop_app_le by lia. rewrite take_app_le by (rewrite length_drop; lia).
      rewrite <- (take_drop off buf) at 2. rewrite drop_app_le by lia.
      by rewrite take_app_le by (rewrite length_drop; lia).
    + rewrite drop_app_ge by lia. rewrite drop_app_ge by (rewrite length_to_ne_bytes; lia).
      rewrite drop_drop, length_to_ne_bytes, Ht. do 2 f_equal. lia.
Qed.

Lemma load_eq (e : endian) n off buf bs :
  off + n ≤ length buf → take n (drop off buf) = bs → load e n off buf = Sound (from_ne e bs).
Proof. intros Hb <-. by apply load_Sound. Qed.

(** ** Lemmas: the sender *)

Section Facts.
Context `{HC : CmsgLaws} (e : endian).

Lemma sizeof_cmsghdr_small : 0 < sizeof_cmsghdr ≤ 16.
Proof. unfold sizeof_cmsghdr. destruct usize_word as [-> | ->]; lia. Qed.

Lemma cmsg_len_fits (n : nat) : n ≤ 4 → in_width (8 * Z.of_nat usize_len) (Z.of_nat (CMSG_LEN n)).
Proof.
  intros Hn. pose proof sizeof_cmsghdr_small. rewrite cmsg_len_eq. unfold in_width.
  destruct usize_word as [-> | ->]; cbn; lia.
Qed.

(** The four stores of [set_udp_segment_cmsg] on a buffer of [cmsg_space(2)] bytes. *)
Lemma set_udp_segment_cmsg_laid_out (control : bytes) (segment_size : Z) :
  length control = cmsg_space 2 → in_width 16 segment_size →
  ∃ control', set_udp_segment_cmsg e control segment_size = Sound control' ∧
    length control' = cmsg_space 2 ∧
    laid_out e control' 0
      [mkMessage SOL_UDP UDP_SEGMENT (to_ne_bytes e 2 segment_size)].
Proof.
  intros Hlen Hw. pose proof (cmsg_space_ge 2) as Hsp. unfold cmsg_space in *.
  pose proof (cmsg_len_eq 2) as Hle. pose proof (cmsg_data_eq 0) as Hda.
  unfold set_udp_segment_cmsg.
  rewrite firsthdr_eq. unfold sizeof_cmsghdr in *.
  destruct (Nat.leb_spec (usize_len + 8) (length control)) as [_|]; [|lia].
  cbn [Nat.add].
  destruct (store_Sound e 4 off_level SOL_UDP control) as (c1 & E1 & L1 & R1 & F1);
    [unfold off_level; lia|].
  destruct (store_Sound e 4 off_type UDP_SEGMENT c1) as (c2 & E2 & L2 & R2 & F2);
    [unfold off_type; lia|].
  destruct (store_Sound e usize_len 0 (Z.of_nat (cmsg_len 2)) c2) as (c3 & E3 & L3 & R3 & F3);
    [lia|].
  destruct (store_Sound e 2 (CMSG_DATA 0) segment_size c3) as (c4 & E4 & L4 & R4 & F4); [lia|].
  exists c4. cbn. rewrite E1. cbn. rewrite E2. cbn. rewrite E3. cbn. rewrite E4.
  split; [done|]. split; [lia|]. unfold off_level, off_type in *.
  rewrite length_to_ne_bytes. split_and!; [lia|..|lia].
  - erewrite load_eq; [|lia|]. 2: { rewrite F4 by lia. exact R3. }
    rewrite from_to_ne_bytes; [done|]. apply cmsg_len_fits. lia.
  - erewrite load_eq; [|lia|]. 2: { rewrite F4, F3, F2 by lia. exact R1. }
    by rewrite from_to_ne_bytes.
  - erewrite load_eq; [|lia|]. 2: { rewrite F4, F3 by lia. exact R2. }
    by rewrite from_to_ne_bytes.
  - exact R4.
Qed.

(** ** Lemmas: the receiver *)

(** The segment size a message holds, as the code reads it. *)
Definition read_size (m : message) : Z := from_ne e (take 2 (data m)).

Definition gro_message (m : message) : bool := (level m =? SOL_UDP)%Z && (type m =? UDP_GRO)%Z.

Lemma is_gro_laid_out (control : bytes) (off : nat) (m : message) (ms : list message) :
  laid_out e control off (m :: ms) → is_gro e control off = Sound (gro_message m).
Proof.
  intros (_ & _ & Hl & Ht & _ & _). unfold is_gro. rewrite Hl, Ht. cbn.
  unfold gro_message. by destruct (_ =? _)%Z.
Qed.

Lemma laid_out_data (control : bytes) (off : nat) (m : message) (ms : list message) :
  laid_out e control off (m :: ms) → 2 ≤ length (data m) →
  load e 2 (CMSG_DATA off) control = Sound (read_size m).
Proof.
  intros (Hs & _ & _ & _ & Hd & _) H2. apply load_eq.
  - pose proof (cmsg_space_ge (length (data m))). rewrite cmsg_len_eq, cmsg_data_eq in *. lia.
  - unfold read_size. rewrite <- Hd, take_take. f_equal. lia.
Qed.

(** The next header is that of the next message. *)
Lemma nxthdr_laid_out (control : bytes) (off : nat) (m : message) (ms : list message) :
  laid_out e control off (m :: ms) →
  CMSG_NXTHDR e control off =
  match ms with [] => None | _ => Some (off + CMSG_SPACE (length (data m))) end.
Proof.
  intros (Hs & Hl & _ & _ & _ & Hr). pose proof sizeof_cmsghdr_small. destruct ms as [|m' ms].
  - cbn in Hr. eapply nxthdr_none; [exact Hl|]. lia.
  - destruct Hr as (Hs' & Hl' & _). by eapply nxthdr_some.
Qed.

(** The walk over the messages from an offset on. *)
Lemma walk_laid_out (control : bytes) (ms : list message) (off fuel : nat) :
  laid_out e control off ms → ms ≠ [] → length ms ≤ fuel →
  Forall (λ m, gro_message m = true → 2 ≤ length (data m)) ms →
  loop (S fuel) (gro_turn e control) (Some off) =
    Some (Sound (read_size <$> List.find gro_message ms)).
Proof.
  revert off fuel. induction ms as [|m ms IH]; intros off fuel Hl Hne Hf Hd; [done|].
  inversion Hd as [|? ? Hm Hd']; subst. cbn [loop gro_turn].
  rewrite (is_gro_laid_out _ _ _ _ Hl). cbn [List.find].
  destruct (gro_message m) eqn:Eg.
  - rewrite (laid_out_data _ _ _ _ Hl) by auto. done.
  - rewrite (nxthdr_laid_out _ _ _ _ Hl). destruct fuel as [|fuel]; [cbn in Hf; lia|].
    destruct ms as [|m' ms]; [done|].
    apply IH; [by destruct Hl as (_ & _ & _ & _ & _ & ?)|done|cbn in *; lia|done].
Qed.

(** Every message takes room, so the length of the buffer is enough fuel. *)
Lemma laid_out_length (control : bytes) (ms : list message) (off : nat) :
  laid_out e control off ms → off + length ms * sizeof_cmsghdr ≤ length control.
Proof.
  revert off. induction ms as [|m ms IH]; intros off; cbn [laid_out length].
  - intros ->. lia.
  - intros (Hs & _ & _ & _ & _ & Hr). apply IH in Hr.
    pose proof (cmsg_space_ge (length (data m))). rewrite cmsg_len_eq in *. lia.
Qed.

Lemma recv_gro_laid_out (control : bytes) (ms : list message) (fuel : nat) :
  laid_out e control 0 ms →
  Forall (λ m, gro_message m = true → 2 ≤ length (data m)) ms → length control < fuel →
  recv_gro_segment_size e fuel control =
    Some (Sound (read_size <$> List.find gro_message ms)).
Proof.
  intros Hl Hd Hf. unfold recv_gro_segment_size. rewrite firsthdr_eq.
  pose proof (laid_out_length _ _ _ Hl) as Hlen. pose proof sizeof_cmsghdr_small.
  destruct fuel as [|fuel]; [lia|]. destruct ms as [|m ms].
  - cbn in Hl. rewrite <- Hl. destruct (Nat.leb_spec sizeof_cmsghdr 0); [lia|]. done.
  - cbn [length] in Hlen. destruct (Nat.leb_spec sizeof_cmsghdr (length control)); [|lia].
    apply walk_laid_out; [done..| |done]. cbn [length]. nia.
Qed.
End Facts.

(** The low half of an integer that fits it is all of it. *)
Lemma from_be_bytes_app (a b : bytes) :
  from_be_bytes (a ++ b) =
  (from_be_bytes a * 2 ^ (8 * Z.of_nat (length b)) + from_be_bytes b)%Z.
Proof. unfold from_be_bytes at 1, be_acc. rewrite fold_left_app. apply be_acc_spec. Qed.

Lemma from_ne_little_low (d : bytes) :
  2 ≤ length d → (from_ne Little d < 2 ^ 16)%Z →
  from_ne Little (take 2 d) = from_ne Little d.
Proof.
  intros H2 Hlt. cbn in *. rewrite <- (take_drop 2 d) in Hlt |- * at 2.
  rewrite rev_app_distr, from_be_bytes_app in *.
  rewrite length_rev, length_take, Nat.min_l in * by done.
  pose proof (from_be_bytes_range (rev (drop 2 d))) as Hh.
  pose proof (from_be_bytes_range (rev (take 2 d))) as Hr. unfold in_width in *.
  change (8 * Z.of_nat 2)%Z with 16%Z in *. nia.
Qed.

(** The high half of an integer that fits the low one is zero. *)
Lemma from_ne_big_high (s : Z) :
  in_width 16 s → from_ne Big (take 2 (to_ne_bytes Big 4 s)) = 0%Z.
Proof.
  intros Hs. cbn [from_ne to_ne_bytes].
  assert (from_be_bytes (to_be_bytes 4 s) = s) as Hv.
  { apply from_to_be_bytes_small. unfold in_width in *. cbn in *. lia. }
  rewrite <- (take_drop 2 (to_be_bytes 4 s)), from_be_bytes_app in Hv at 1.
  rewrite length_drop, length_to_be_bytes in Hv.
  pose proof (from_be_bytes_range (take 2 (to_be_bytes 4 s))) as Hh.
  pose proof (from_be_bytes_range (drop 2 (to_be_bytes 4 s))) as Hl.
  unfold in_width in *. change (8 * Z.of_nat (4 - 2))%Z with 16%Z in *. nia.
Qed.

(** On a little-endian host the code reads the value of the message. *)
Lemma find_gro_little (ms : list message) :
  Forall (λ m, gro_message m = true →
    2 ≤ length (data m) ∧ (from_ne Little (data m) < 2 ^ 16)%Z) ms →
  read_size Little <$> List.find gro_message ms =
  cmsg_data <$> List.find (λ m, (cmsg_level m =? SOL_UDP)%Z && (cmsg_type m =? UDP_GRO)%Z)
    (map (as_cmsg Little) ms).
Proof.
  induction 1 as [|m ms Hm _ IH]; [done|]. cbn [List.find map].
  change (cmsg_level (as_cmsg Little m)) with (level m).
  change (cmsg_type (as_cmsg Little m)) with (type m). fold (gro_message m).
  destruct (gro_message m) eqn:E; [|exact IH].
  destruct (Hm eq_refl). cbn -[from_ne take]. f_equal. by apply from_ne_little_low.
Qed.

(** On a big-endian host the code reads the high half of an [int], which is zero. *)
Lemma find_gro_big (ms : list message) :
  Forall (λ m, gro_message m = true → ∃ s, in_width 16 s ∧ data m = to_ne_bytes Big 4 s) ms →
  read_size Big <$> List.find gro_message ms =
  (λ _, 0%Z) <$> Io.recv_gro_segment_size true (map (as_cmsg Big) ms).
Proof.
  unfold Io.recv_gro_segment_size. induction 1 as [|m ms Hm _ IH]; [done|]. cbn [List.find map].
  change (cmsg_level (as_cmsg Big m)) with (level m).
  change (cmsg_type (as_cmsg Big m)) with (type m). fold (gro_message m).
  destruct (gro_message m); [|exact IH]. destruct (Hm eq_refl) as (s & Hs & Hd).
  cbn -[from_ne take to_ne_bytes]. f_equal. unfold read_size. rewrite Hd. by apply from_ne_big_high.
Qed.

(** ** Linux *)

(** The macros for words of [w] bytes. *)
Section Linux.
Context (w : nat).

Definition CMSG_ALIGN (n : nat) : nat := (n + (w - 1)) / w * w.

(** The length field of a header, when it lies in the buffer and the message does. *)
Definition linux_len (e : endian) (control : bytes) (h : nat) : option nat :=
  match load e w h control with
  | Sound z => if (z <=? Z.of_nat (length control))%Z then Some (Z.to_nat z) else None
  | Undefined => None
  end.

(** The address arithmetic of [CMSG_NXTHDR]: null when the length is too short for a
    header, or the next header or its message would end past the buffer. *)
Definition linux_nxthdr (e : endian) (control : bytes) (h : nat) : option nat :=
  len ← linux_len e control h;
  let next := h + CMSG_ALIGN len in
  if (len <? w + 8) || (length control <? next + (w + 8)) then None
  else
    next_len ← linux_len e control next;
    if length control <? next + CMSG_ALIGN next_len then None else Some next.

Definition LinuxCmsg : Cmsg := {|
  usize_len := w;
  CMSG_SPACE n := CMSG_ALIGN n + CMSG_ALIGN (w + 8);
  CMSG_LEN n := CMSG_ALIGN (w + 8) + n;
  CMSG_DATA h := h + (w + 8);
  CMSG_FIRSTHDR control := if w + 8 <=? length control then Some 0 else None;
  CMSG_NXTHDR := linux_nxthdr;
|}.

Context (Hw : w = 4 ∨ w = 8).

Lemma align_ge (n : nat) : n ≤ CMSG_ALIGN n.
Proof. unfold CMSG_ALIGN. destruct Hw as [-> | ->]; pose proof (Nat.div_mod_eq (n + 3) 4);
  pose proof (Nat.div_mod_eq (n + 7) 8); pose proof (Nat.mod_upper_bound (n + 3) 4);
  pose proof (Nat.mod_upper_bound (n + 7) 8); cbn [Nat.sub]; lia. Qed.

Lemma align_hdr : CMSG_ALIGN (w + 8) = w + 8.
Proof. unfold CMSG_ALIGN. destruct Hw as [-> | ->]; reflexivity. Qed.

(** Aligning a message rounds up its data. *)
Lemma align_hdr_add (n : nat) : CMSG_ALIGN (w + 8 + n) = CMSG_ALIGN n + (w + 8).
Proof.
  unfold CMSG_ALIGN. destruct Hw as [-> | ->]; cbn [Nat.sub].
  - replace (4 + 8 + n + 3) with (n + 3 + 3 * 4) by lia. rewrite Nat.div_add by lia. lia.
  - replace (8 + 8 + n + 7) with (n + 7 + 2 * 8) by lia. rewrite Nat.div_add by lia. lia.
Qed.

Lemma linux_len_eq (e : endian) (control : bytes) (h n : nat) :
  load e w h control = Sound (Z.of_nat n) → n ≤ length control →
  linux_len e control h = Some n.
Proof.
  intros E Hn. unfold linux_len. rewrite E.
  destruct (Z.leb_spec (Z.of_nat n) (Z.of_nat (length control))); [|lia]. by rewrite Nat2Z.id.
Qed.

Lemma LinuxCmsg_laws : @CmsgLaws LinuxCmsg.
Proof.
  split; unfold sizeof_cmsghdr;
    cbn [usize_len CMSG_SPACE CMSG_LEN CMSG_DATA CMSG_FIRSTHDR CMSG_NXTHDR LinuxCmsg].
  - done.
  - intros n. by rewrite align_hdr.
  - done.
  - intros n. pose proof (align_ge n). lia.
  - done.
  - intros e control h h' Hn. unfold linux_nxthdr in Hn.
    destruct (linux_len e control h) as [len|] eqn:El; [|done]. cbn [mbind option_bind] in Hn.
    destruct (_ || _) eqn:Eb in Hn; [done|]. bools.
    destruct (linux_len e control (h + CMSG_ALIGN len)) as [next_len|]; [|done]. cbn [mbind option_bind] in Hn.
    destruct (_ <? _) eqn:Ec in Hn; [done|]. injection Hn as <-.
    pose proof (align_ge len).
    repeat match goal with Hx : (_ <? _) = false |- _ => apply Nat.ltb_ge in Hx end. lia.
  - intros e control h n E Hlt. unfold linux_nxthdr. rewrite align_hdr in *.
    destruct (linux_len e control h) as [len|] eqn:El; [|done]. cbn [mbind option_bind].
    unfold linux_len in El. rewrite E in El.
    destruct (_ <=? _)%Z in El; [|done]. injection El as <-. rewrite Nat2Z.id, align_hdr_add.
    destruct (length control <? h + (CMSG_ALIGN n + (w + 8)) + (w + 8)) eqn:Ex.
    + by rewrite orb_true_r.
    + apply Nat.ltb_ge in Ex. lia.
  - intros e control h n m E E' Hle. unfold linux_nxthdr. rewrite align_hdr in *.
    pose proof (align_ge n). pose proof (align_ge m).
    rewrite (linux_len_eq _ _ _ _ E) by lia. cbn [mbind option_bind]. rewrite align_hdr_add.
    destruct (_ || _) eqn:Eb.
    { apply orb_true_iff in Eb as [Eb%Nat.ltb_lt | Eb%Nat.ltb_lt]; lia. }
    rewrite (linux_len_eq _ _ _ _ E') by lia. cbn [mbind option_bind]. rewrite align_hdr_add.
    by rewrite (proj2 (Nat.ltb_ge _ _)) by lia.
Qed.
End Linux.

(** A buffer of [cmsg_space(size_of::<u16>())] bytes holds the [int] the kernel reports
    a segment size in. *)
Lemma linux_space_int (w : nat) :
  w = 4 ∨ w = 8 → cmsg_len (H := LinuxCmsg w) 4 ≤ cmsg_space (H := LinuxCmsg w) 2.
Proof. intros [-> | ->]; cbn; lia. Qed.

(** ** Properties *)

(** C21: On a control buffer of [cmsg_space(2)] zero bytes, [set_udp_segment_cmsg] writes
    inside the buffer only, for every word size and byte order, and leaves exactly one
    message there, of the length the kernel asks of a [UDP_SEGMENT], which stands for
    the one Io.v hands to [sendmsg]. *)
Theorem segment_cmsg_sound `{HC : CmsgLaws} (e : endian) (segment_size : Z) :
  in_width 16 segment_size →
  ∃ control m, set_udp_segment_cmsg e (replicate (cmsg_space 2) x00) segment_size = Sound control ∧
    length control = cmsg_space 2 ∧ laid_out e control 0 [m] ∧
    load e usize_len 0 control = Sound (Z.of_nat (cmsg_len 2)) ∧
    [as_cmsg e m] = Io.set_udp_segment_cmsg true segment_size.
Proof.
  intros Hw.
  destruct (set_udp_segment_cmsg_laid_out e (replicate (cmsg_space 2) x00) segment_size)
    as (control & E & Hlen & Hl); [by rewrite length_replicate|done|].
  exists control, (mkMessage SOL_UDP UDP_SEGMENT (to_ne_bytes e 2 segment_size)).
  split_and!; [done|done|done| |].
  - destruct Hl as (_ & Hl & _). cbn in Hl. by rewrite length_to_ne_bytes in Hl.
  - unfold as_cmsg. cbn. by rewrite from_to_ne_bytes.
Qed.

Lemma segment_cmsg_sound_witness :
  ∃ control m,
    set_udp_segment_cmsg (H := LinuxCmsg 8) Little (replicate 24 x00) 1200 = Sound control ∧
    laid_out (H := LinuxCmsg 8) Little control 0 [m] ∧
    [as_cmsg Little m] = Io.set_udp_segment_cmsg true 1200.
Proof.
  destruct (@segment_cmsg_sound (LinuxCmsg 8) (LinuxCmsg_laws 8 (or_intror eq_refl)) Little 1200)
    as (control & m & E & _ & Hl & _ & Hm); [by vm_compute|].
  exists control, m. auto.
Defined.

(** C22: Reading the segment size of a receive.  Take a control buffer in which the kernel
    has laid out any messages, those of type [UDP_GRO] with an [int] that fits 16 bits.
    On any host, of either word size and byte order, the walk ends and reads inside the
    buffer only; it finds nothing if there is no such message, and otherwise it reads
    the first half of the [int] of the first one.  On a little-endian host that is the
    size that Io.v takes from the list of messages; on a big-endian host it is 0.  The
    fuel is the length of the buffer. *)
Theorem gro_cmsg_sound `{HC : CmsgLaws} (e : endian) (control : bytes) (ms : list message) (fuel : nat) :
  laid_out e control 0 ms →
  Forall (λ m, gro_message m = true → ∃ s, in_width 16 s ∧ data m = to_ne_bytes e 4 s) ms →
  length control < fuel →
  ∃ size, recv_gro_segment_size e fuel control = Some (Sound size) ∧
    size = (λ m, from_ne e (take 2 (data m))) <$> List.find gro_message ms ∧
    match e with
    | Little => size = Io.recv_gro_segment_size true (map (as_cmsg Little) ms)
    | Big => size = (λ _, 0%Z) <$> Io.recv_gro_segment_size true (map (as_cmsg Big) ms)
    end.
Proof.
  intros Hl Hd Hf. exists (read_size e <$> List.find gro_message ms). split; [|split; [done|]].
  - apply recv_gro_laid_out; [done| |done]. eapply Forall_impl; [exact Hd|].
    intros m Hm Hg. destruct (Hm Hg) as (s & _ & ->). rewrite length_to_ne_bytes. lia.
  - destruct e.
    + apply find_gro_little. eapply Forall_impl; [exact Hd|]. intros m Hm Hg.
      destruct (Hm Hg) as (s & Hs & ->). rewrite length_to_ne_bytes. split; [lia|].
      rewrite from_to_ne_bytes; unfold in_width in *; cbn in *; lia.
    + apply find_gro_big. exact Hd.
Qed.

(** The buffer of one receive on 64-bit Linux with segments of 1200 bytes. *)
Definition sample_control (e : endian) : bytes :=
  to_ne_bytes e 8 20 ++ to_ne_bytes e 4 SOL_UDP ++ to_ne_bytes e 4 UDP_GRO ++
  to_ne_bytes e 4 1200 ++ replicate 4 x00.

Definition sample_messages (e : endian) : list message :=
  [mkMessage SOL_UDP UDP_GRO (to_ne_bytes e 4 1200)].

(** Segments of 1200 bytes are read as 1200 on a little-endian host and as 0 on a
    big-endian one, where [split_gro] then hands the receive on in one piece. *)
Lemma gro_cmsg_sound_witness :
  recv_gro_segment_size (H := LinuxCmsg 8) Little 25 (sample_control Little) =
    Some (Sound (Some 1200%Z)) ∧
  recv_gro_segment_size (H := LinuxCmsg 8) Big 25 (sample_control Big) = Some (Sound (Some 0%Z)) ∧
  ∀ buf, split_gro (Some 0%Z) buf = [buf].
Proof.
  split; [|split; [|reflexivity]].
  - destruct (@gro_cmsg_sound (LinuxCmsg 8) (LinuxCmsg_laws 8 (or_intror eq_refl)) Little
      (sample_control Little) (sample_messages Little) 25) as (size & -> & _ & ->).
    + repeat split; first [vm_compute; reflexivity | vm_compute; lia].
    + constructor; [|constructor]. intros _. exists 1200%Z. split; [by vm_compute|reflexivity].
    + vm_compute. lia.
    + vm_compute. reflexivity.
  - destruct (@gro_cmsg_sound (LinuxCmsg 8) (LinuxCmsg_laws 8 (or_intror eq_refl)) Big
      (sample_control Big) (sample_messages Big) 25) as (size & -> & _ & ->).
    + repeat split; first [vm_compute; reflexivity | vm_compute; lia].
    + constructor; [|constructor]. intros _. exists 1200%Z. split; [by vm_compute|reflexivity].
    + vm_compute. lia.
    + vm_compute. reflexivity.
Defined.
