(* ===== verification/FlushRef.v ===== *)
(** * Batching is invisible

    A reference for [flush_connection] that sends every packet of the connection in a
    datagram of its own as soon as it is produced, without batches, segmentation offload
    or fallback; and the proof that the batched flush puts the same on the wire. *)

From S2P Require Import Prelude.
From S2P Require Import Net.
From S2P Require Import Quiche.
From S2P Require Import Loopback.
From S2P Require Import Io.

Section Reference.
Context {Sock : Type} {U : UdpSys Sock} {L : UdpLaws U} {UP : UdpProgress U}.
Context {Conn H3 H3Config : Type} `{QS : QuicheSends Conn H3 H3Config}.
Context (linux : bool).

(** One packet, one datagram. *)
Definition plain_turn (fuel : nat) (cs : Conn * Sock) :
    (Conn * Sock) + option (result FlushError unit * (Conn * Sock)) :=
  let '(c, s) := cs in
  match send c MAX_DATAGRAM_SIZE with
  | (Ok (out, to), c) =>
      match send_payload linux fuel to out None s with
      | None => inr None
      | Some (Ok _, s) => inl (c, s)
      | Some (Err e, s) => inr (Some (Err (SendFailed e), (c, s)))
      end
  | (Err Done, c) => inr (Some (Ok tt, (c, s)))
  | (Err e, c) => inr (Some (Err (ConnSend e), (c, s)))
  end.

Definition flush_plain (fuel : nat) (s : Sock) (c : Conn) :
    option (result FlushError unit * (Conn * Sock)) :=
  mjoin (loop fuel (plain_turn fuel) (c, s)).

Lemma flush_plain_settles s c : settles (λ f, flush_plain f s c).
Proof.
  apply (settles_loop plain_turn (λ cs, outgoing cs.1)). clear s c. intros [c s].
  unfold plain_turn. destruct (send c _) as [[[out to]|e] c'] eqn:E.
  - destruct (send_payload_settles linux to out None s) as (f & [[u|e] s'] & H);
      exists f; eexists; (split; [intros f' Hf'; rewrite (H f' Hf'); reflexivity|]); [|by eexists].
    cbn [fst]. by eapply send_drains.
  - exists 0. eexists. split; [reflexivity|]. destruct e; by eexists.
Qed.

Lemma flush_plain_spec fuel s0 c0 r c s :
  flush_plain fuel s0 c0 = Some (r, (c, s)) → r = Ok tt →
  ∃ l c1, produced c0 l c1 ∧ send c1 MAX_DATAGRAM_SIZE = (Err Done, c) ∧ wire s = wire s0 ++ l.
Proof.
  unfold flush_plain. destruct (loop _ _ _) as [o|] eqn:El; [|done]. cbn. intros -> ->.
  eapply (loop_invariant _ (λ cs : Conn * Sock, ∃ l, produced c0 l cs.1 ∧ wire cs.2 = wire s0 ++ l)
    (λ o, match o with
          | Some (Ok _, (c, s)) => ∃ l c1, produced c0 l c1 ∧
              send c1 MAX_DATAGRAM_SIZE = (Err Done, c) ∧ wire s = wire s0 ++ l
          | _ => True
          end)) in El; [exact El|..].
  - intros [c1 s1] cs' (l & Hl & Hw). unfold plain_turn. cbn [fst snd] in *.
    destruct (send c1 _) as [[[out to]|e] c2] eqn:E; [|by destruct e].
    destruct (send_payload _ _ _ _ _ _) as [[[u|e] s2]|] eqn:Es; try done. intros [= <-].
    apply send_payload_wire in Es; [|done]. exists (l ++ [(Some to, out)]). split.
    + by eapply produced_snoc.
    + cbn [snd]. rewrite Es, Hw, <- app_assoc. done.
  - intros [c1 s1] o (l & Hl & Hw). unfold plain_turn. cbn [fst snd] in *.
    destruct (send c1 _) as [[[out to]|e] c2] eqn:E.
    + by destruct (send_payload _ _ _ _ _ _) as [[[u|e] s2]|] eqn:Es; intros [= <-].
    + destruct e; intros [= <-]; try done. by exists l, c1.
  - exists []. split; [constructor|]. by rewrite app_nil_r.
Qed.

(** What a connection produces until it has nothing more is determined. *)
Lemma produced_at c l c' : produced c l c' →
  ∀ n, n < length l → ∃ c1 p to c2, produced c (take n l) c1 ∧ send c1 MAX_DATAGRAM_SIZE = (Ok (p, to), c2).
Proof.
  induction 1 as [|l c1 p to c2 H IH Hs]; intros n; [cbn; lia|]. rewrite length_app. cbn [length].
  intros Hn. destruct (decide (n < length l)) as [Hl|Hl].
  - rewrite take_app_le by lia. by apply IH.
  - assert (n = length l) as -> by lia. rewrite take_app_length. eauto 6.
Qed.

Lemma produced_same c l1 c1 : produced c l1 c1 →
  ∀ l2 c2, produced c l2 c2 → length l1 = length l2 → l1 = l2 ∧ c1 = c2.
Proof.
  induction 1 as [|l c1 p to c1' H IH Hs]; intros l2 c2 H2 Hlen.
  - destruct H2; [done|]. rewrite length_app in Hlen. cbn in Hlen. lia.
  - destruct H2 as [|l' c3 p' to' c3' H2 Hs2]; rewrite !length_app in Hlen; cbn in Hlen; [lia|].
    destruct (IH l' c3 H2) as [-> ->]; [lia|]. rewrite Hs in Hs2. by simplify_eq.
Qed.

Lemma produced_done c l1 c1 c1' e1 l2 c2 c2' e2 :
  produced c l1 c1 → send c1 MAX_DATAGRAM_SIZE = (Err e1, c1') →
  produced c l2 c2 → send c2 MAX_DATAGRAM_SIZE = (Err e2, c2') → l1 = l2 ∧ c1 = c2.
Proof.
  assert (∀ l1 c1 c1' e1 l2 c2, produced c l1 c1 → send c1 MAX_DATAGRAM_SIZE = (Err e1, c1') →
    produced c l2 c2 → length l1 < length l2 → False) as Hlt.
  { intros l1' c3 c3' e3 l2' c4 H1 Hs H2 Hl. destruct (produced_at _ _ _ H2 _ Hl) as (d & p & to & d' & Hd & Hsd).
    destruct (produced_same _ _ _ H1 _ _ Hd) as [_ ->]; [rewrite length_take; lia|]. congruence. }
  intros H1 Hs1 H2 Hs2. destruct (lt_eq_lt_dec (length l1) (length l2)) as [[Hl|Hl]|Hl].
  - by destruct (Hlt _ _ _ _ _ _ H1 Hs1 H2 Hl).
  - by eapply produced_same.
  - by destruct (Hlt _ _ _ _ _ _ H2 Hs2 H1 Hl).
Qed.
End Reference.

Section Equivalence.
Context {Sock : Type} {U : UdpSys Sock} {L : UdpLaws U} {UP : UdpProgress U}.
Context {Conn H3 H3Config : Type} `{QS : QuicheSends Conn H3 H3Config}.

(** C19: The batched flush is equivalent to the reference that sends one datagram per
    packet.  On any two sockets (one may do segmentation offload and the other not, one
    may block where the other does not) and on any two platforms both come to a result,
    and when both succeed they leave the connection in the same state and have added the
    same datagrams, in the same order and to the same addresses, to the wire. *)
Theorem flush_equivalence (linux linux' : bool) (s s' : Sock) (c : Conn) :
  ∃ fuel0 r st r' c1 s1,
    (∀ fuel, fuel0 ≤ fuel → flush_connection linux fuel s c = Some (r, st)) ∧
    (∀ fuel, fuel0 ≤ fuel → flush_plain linux' fuel s' c = Some (r', (c1, s1))) ∧
    (r = Ok tt → r' = Ok tt →
     f_conn st = c1 ∧ ∃ l, wire (f_sock st) = wire s ++ l ∧ wire s1 = wire s' ++ l).
Proof.
  destruct (flush_connection_settles linux s c) as (f1 & [r st] & H1).
  destruct (flush_plain_settles linux' s' c) as (f2 & [r' [c1 s1]] & H2).
  exists (max f1 f2), r, st, r', c1, s1. split_and!; [intros; apply H1; lia|intros; apply H2; lia|].
  intros -> ->. pose proof (flush_connection_spec linux f1 c s _ st (H1 f1 (le_n f1))) as (l & d & Hl & Hd & Hw).
  destruct (flush_plain_spec _ _ _ _ _ _ _ (H2 f2 (le_n f2)) eq_refl) as (l' & d' & Hl' & Hd' & Hw').
  destruct (produced_done _ _ _ _ _ _ _ _ _ Hl Hd Hl' Hd') as [<- <-].
  split; [congruence|]. eauto.
Qed.
End Equivalence.

(** Four packets, two of them coalesced into one segmented send by the batched flush. *)
Lemma flush_equivalence_witness :
  (∃ fuel0 r st r' c1 s1,
    (∀ fuel, fuel0 ≤ fuel → flush_connection (U := LoopUdp) (Q := LoopQuiche) true fuel
       (sample_sock true) sample_conn = Some (r, st)) ∧
    (∀ fuel, fuel0 ≤ fuel → flush_plain (U := LoopUdp) (Q := LoopQuiche) false fuel
       (sample_sock false) sample_conn = Some (r', (c1, s1))) ∧
    (r = Ok tt → r' = Ok tt → f_conn st = c1 ∧
       ∃ l, ls_wire (f_sock st) = [] ++ l ∧ ls_wire s1 = [] ++ l)) ∧
  option_map (λ x, ls_wire x.2.2)
    (flush_plain (U := LoopUdp) (Q := LoopQuiche) false 9 (sample_sock false) sample_conn) =
  Some [(Some (SockV4 1 1), str "abc"); (Some (SockV4 1 1), str "def");
        (Some (SockV4 1 1), str "gh"); (Some (SockV4 2 2), str "ijk")].
Proof.
  split; [|vm_compute; reflexivity].
  exact (flush_equivalence (L := LoopUdpLaws) (UP := LoopUdpProgress) (QS := LoopSends) true false
    (sample_sock true) (sample_sock false) sample_conn).
Defined.
