(* ===== verification/Sockets.v ===== *)
(** * Opening and configuring UDP sockets

    The socket options of src/quic.rs, the listeners of src/io.rs and the target
    sockets of src/server.rs, transparent ones included. *)

From S2P Require Import Prelude.
From S2P Require Import Net.
From S2P Require Import Quiche.
From S2P Require Import Loopback.

Definition SOL_SOCKET : Z := 1.
Definition SO_SNDBUF : Z := 7.
Definition SO_RCVBUF : Z := 8.
Definition SO_MARK : Z := 36.
Definition SOL_IP : Z := 0.
Definition IP_TRANSPARENT : Z := 19.
Definition SOL_IPV6 : Z := 41.
Definition IPV6_TRANSPARENT : Z := 75.

Definition SOCKET_BUFFER_BYTES : Z := 8 * 1024 * 1024.

(** [x as libc::c_int] for a [u32]. *)
Definition as_c_int (z : Z) : Z := if (z <? 2 ^ 31)%Z then z else (z - 2 ^ 32)%Z.

Inductive BindError :=
| Binding (e : io_error)
| SettingNonblocking (e : io_error)
| Adopting (e : io_error)
| Connecting (e : io_error)
| SettingFwmark (e : io_error)
| TransparentBind (e : io_error)
| FamiliesDiffer
| FwmarkUnsupported
| TransparentUnsupported.

Definition addr_in_use (e : io_error) : bool :=
  match e with OsError n => (n =? EADDRINUSE)%Z | _ => false end.

Section Sockets.
Context {Sock Os : Type} `{A : SocketApi Sock Os} (linux : bool).

Definition set_sockopt_int (level optname value : Z) : stm Sock io_error unit := λ s,
  let '(rc, errno, s) := setsockopt s level optname value in
  (if (rc =? 0)%Z then Ok tt else Err (OsError errno), s).

(** Failures are logged and ignored. *)
Definition enlarge_udp_buffers (s : Sock) : Sock :=
  fold_left (λ s opt, snd (set_sockopt_int SOL_SOCKET opt SOCKET_BUFFER_BYTES s))
    [SO_RCVBUF; SO_SNDBUF] s.

Definition enable_udp_gro (s : Sock) : Sock :=
  if linux then snd (set_sockopt_int SOL_UDP UDP_GRO 1 s) else s.

Definition bind_udp (os : Os) (addr : SocketAddr) : result BindError Sock * Os :=
  match udp_bind os addr with
  | (Err e, os) => (Err (Binding e), os)
  | (Ok socket, os) =>
      match set_nonblocking socket with
      | (Err e, _) => (Err (SettingNonblocking e), os)
      | (Ok _, socket) => (map_err Adopting (from_std (enable_udp_gro socket)), os)
      end
  end.

Definition set_so_mark (mark : Z) : stm Sock io_error unit :=
  set_sockopt_int SOL_SOCKET SO_MARK (as_c_int mark).

(** [if let Some(mark) = fwmark { set_so_mark(..)? }]. *)
Definition apply_fwmark (fwmark : option Z) : stm Sock io_error unit :=
  match fwmark with Some mark => set_so_mark mark | None => mret tt end.

(** The same under [#[cfg(target_os = "linux")]]. *)
Definition apply_fwmark_linux (fwmark : option Z) : stm Sock io_error unit :=
  if linux then apply_fwmark fwmark else mret tt.

(** The configuration of a transparent socket, from its creation on. *)
Definition transparent_setup (is_v6 : bool) (fwmark : option Z) (src target : SocketAddr) :
    stm Sock io_error unit :=
  ((if is_v6 then set_sockopt_int SOL_IPV6 IPV6_TRANSPARENT 1
    else set_sockopt_int SOL_IP IP_TRANSPARENT 1) >>!
   apply_fwmark fwmark >>!
   set_reuse_address >>!
   (λ s, sock_bind s src) >>!
   (λ s, sock_connect s target) >>!
   set_nonblocking)%rust.

Definition make (is_v6 : bool) (fwmark : option Z) (target : SocketAddr) (os : Os)
    (src : SocketAddr) : result io_error Sock * Os :=
  match socket_new os is_v6 with
  | (Err e, os) => (Err e, os)
  | (Ok sock, os) =>
      match transparent_setup is_v6 fwmark src target (enlarge_udp_buffers sock) with
      | (Ok _, sock) => (Ok sock, os)
      | (Err e, _) => (Err e, os)
      end
  end.

(** The address family both sides share, as [is_v6]. *)
Definition shared_family (src_ip : IpAddr) (target : SocketAddr) : option bool :=
  match ip_is_ipv4 src_ip, is_ipv4 target with
  | true, true => Some false
  | false, false => Some true
  | _, _ => None
  end.

Definition bind_target_transparent (os : Os) (target client_addr : SocketAddr)
    (fwmark : option Z) : result BindError Sock * Os :=
  if linux then
    let src_ip := to_canonical (addr_ip client_addr) in
    match shared_family src_ip target with
    | None => (Err FamiliesDiffer, os)
    | Some is_v6 =>
        let '(r, os) :=
          match make is_v6 fwmark target os (sock_new src_ip (addr_port client_addr)) with
          | (Ok s, os) => (Ok s, os)
          | (Err e, os) =>
              if addr_in_use e then
                let '(r, os) := make is_v6 fwmark target os (sock_new src_ip 0) in
                (map_err TransparentBind r, os)
              else (Err (TransparentBind e), os)
          end in
        (r ≫= λ s, map_err Adopting (from_std s), os)
    end
  else (Err TransparentUnsupported, os).

Definition bind_target (os : Os) (target client_addr : SocketAddr) (transparent : bool)
    (fwmark : option Z) : result BindError Sock * Os :=
  if transparent then bind_target_transparent os target client_addr fwmark
  else if negb linux && bool_decide (fwmark ≠ None) then (Err FwmarkUnsupported, os)
  else
    match udp_bind os (unspecified (is_ipv4 target)) with
    | (Err e, os) => (Err (Binding e), os)
    | (Ok s, os) =>
        match apply_fwmark_linux fwmark (enlarge_udp_buffers s) with
        | (Err e, _) => (Err (SettingFwmark e), os)
        | (Ok _, s) =>
            match sock_connect s target with
            | (Err e, _) => (Err (Connecting e), os)
            | (Ok _, s) =>
                match set_nonblocking s with
                | (Err e, _) => (Err (SettingNonblocking e), os)
                | (Ok _, s) => (map_err Adopting (from_std s), os)
                end
            end
        end
    end.
End Sockets.

(** ** What a target socket has been through *)

Definition buffer_opt (op : sockop) : Prop :=
  op = SetOpt SOL_SOCKET SO_RCVBUF SOCKET_BUFFER_BYTES ∨
  op = SetOpt SOL_SOCKET SO_SNDBUF SOCKET_BUFFER_BYTES.

Definition mark_ops (fwmark : option Z) : list sockop :=
  match fwmark with Some m => [SetOpt SOL_SOCKET SO_MARK (as_c_int m)] | None => [] end.

Definition transparent_opt (is_v6 : bool) : sockop :=
  if is_v6 then SetOpt SOL_IPV6 IPV6_TRANSPARENT 1 else SetOpt SOL_IP IP_TRANSPARENT 1.

(** The life of a plain target socket, and of a transparent one bound to the
    client's address with the given port. *)
Definition plain_history (target : SocketAddr) (fwmark : option Z) (bufs : list sockop) :
    list sockop :=
  [BoundTo (unspecified (is_ipv4 target))] ++ bufs ++ mark_ops fwmark ++
  [ConnectedTo target; SetNonblocking].

Definition transparent_history (target : SocketAddr) (src_ip : IpAddr) (port : Z)
    (is_v6 : bool) (fwmark : option Z) (bufs : list sockop) : list sockop :=
  bufs ++ [transparent_opt is_v6] ++ mark_ops fwmark ++
  [ReuseAddr; BoundTo (sock_new src_ip port); ConnectedTo target; SetNonblocking].

Section SocketFacts.
Context {Sock Os : Type} `{L : SocketLaws Sock Os} (linux : bool).
Implicit Types (s : Sock) (os : Os).

Lemma set_sockopt_int_log l o v r s s' :
  set_sockopt_int l o v s = (r, s') →
  history s' = if is_ok r then history s ++ [SetOpt l o v] else history s.
Proof.
  unfold set_sockopt_int. destruct (setsockopt s l o v) as [[rc en] s1] eqn:E.
  apply setsockopt_log in E. intros [= <- <-]. rewrite E. by destruct (rc =? 0)%Z.
Qed.

Lemma enlarge_log s :
  ∃ bufs, Forall buffer_opt bufs ∧ history (enlarge_udp_buffers s) = history s ++ bufs.
Proof.
  unfold enlarge_udp_buffers. cbn [fold_left].
  destruct (set_sockopt_int SOL_SOCKET SO_RCVBUF _ s) as [r1 s1] eqn:E1. cbn [snd].
  destruct (set_sockopt_int SOL_SOCKET SO_SNDBUF _ s1) as [r2 s2] eqn:E2. cbn [snd].
  apply set_sockopt_int_log in E1, E2. rewrite E2, E1.
  exists ((if is_ok r1 then [SetOpt SOL_SOCKET SO_RCVBUF SOCKET_BUFFER_BYTES] else []) ++
          (if is_ok r2 then [SetOpt SOL_SOCKET SO_SNDBUF SOCKET_BUFFER_BYTES] else [])).
  split.
  - destruct r1, r2; simpl; repeat first [apply Forall_nil_2 | apply Forall_cons_2]; unfold buffer_opt; auto.
  - destruct (is_ok r1), (is_ok r2); simpl; by rewrite <- ?app_assoc, ?app_nil_r.
Qed.

Lemma apply_fwmark_log m s u s' :
  apply_fwmark m s = (Ok u, s') → history s' = history s ++ mark_ops m.
Proof.
  destruct m; simpl; [apply set_sockopt_int_log|]. intros [= <- <-]. by rewrite app_nil_r.
Qed.

Lemma make_log is_v6 m target os src s os' :
  make is_v6 m target os src = (Ok s, os') →
  ∃ bufs, Forall buffer_opt bufs ∧
    history s = bufs ++ [transparent_opt is_v6] ++ mark_ops m ++
                [ReuseAddr; BoundTo src; ConnectedTo target; SetNonblocking].
Proof.
  unfold make. destruct (socket_new os is_v6) as [[s0|e] os0] eqn:E0; [|done].
  apply socket_new_log in E0. destruct (enlarge_log s0) as (bufs & Hb & Hl).
  rewrite E0 in Hl. simpl in Hl.
  destruct (transparent_setup _ _ _ _ _) as [[u|e] s1] eqn:E1; [|done].
  intros [= <- _]. exists bufs. split; [done|]. unfold transparent_setup in E1.
  apply stm_then_Ok in E1 as (u1 & s2 & E2 & E1). apply stm_then_Ok in E1 as (u2 & s3 & E3 & E1).
  apply stm_then_Ok in E1 as (u3 & s4 & E4 & E1). apply stm_then_Ok in E1 as (u4 & s5 & E5 & E1).
  apply stm_then_Ok in E1 as (u5 & s6 & E6 & E1).
  assert (history s2 = bufs ++ [transparent_opt is_v6]) as H2.
  { rewrite <- Hl. destruct is_v6; by apply set_sockopt_int_log in E2. }
  apply apply_fwmark_log in E3. apply set_reuse_log in E4. apply sock_bind_log in E5.
  apply sock_connect_log in E6. apply set_nonblocking_log in E1. simpl in *.
  rewrite E1, E6, E5, E4, E3, H2. by rewrite <- !app_assoc.
Qed.

Lemma transparent_log os target client m s os' :
  bind_target_transparent linux os target client m = (Ok s, os') →
  linux = true ∧
  ∃ is_v6 port bufs, shared_family (to_canonical (addr_ip client)) target = Some is_v6 ∧
    (port = addr_port client ∨ port = 0%Z) ∧ Forall buffer_opt bufs ∧
    history s = transparent_history target (to_canonical (addr_ip client)) port is_v6 m bufs.
Proof.
  unfold bind_target_transparent. destruct linux; [|done].
  destruct (shared_family _ _) as [v6|] eqn:Ef; [|done].
  intros H. split; [done|]. exists v6.
  destruct (make _ _ _ _ (sock_new _ (addr_port client))) as [[s1|e] os1] eqn:E1.
  - apply make_log in E1 as (bufs & Hb & Hl). exists (addr_port client), bufs.
    injection H as H _. simpl in H. destruct (from_std s1) as [s2|] eqn:E2; [|done].
    apply from_std_log in E2. injection H as <-. rewrite E2. auto.
  - destruct (addr_in_use e); [|done].
    destruct (make _ _ _ _ (sock_new _ 0)) as [[s1|e2] os2] eqn:E2; [|done].
    apply make_log in E2 as (bufs & Hb & Hl). exists 0%Z, bufs.
    injection H as H _. simpl in H. destruct (from_std s1) as [s2|] eqn:E3; [|done].
    apply from_std_log in E3. injection H as <-. rewrite E3. auto.
Qed.

Lemma plain_log os target client m s os' :
  bind_target linux os target client false m = (Ok s, os') →
  (m ≠ None → linux = true) ∧
  ∃ bufs, Forall buffer_opt bufs ∧ history s = plain_history target m bufs.
Proof.
  unfold bind_target. destruct (negb linux && _) eqn:Em; [done|].
  destruct (udp_bind _ _) as [[s0|e] os0] eqn:E0; [|done]. apply udp_bind_log in E0.
  destruct (enlarge_log s0) as (bufs & Hb & Hl).
  destruct (apply_fwmark_linux linux m _) as [[u|e] s1] eqn:E1; [|done].
  destruct (sock_connect _ _) as [[u2|e] s2] eqn:E2; [|done]. apply sock_connect_log in E2.
  destruct (set_nonblocking _) as [[u3|e] s3] eqn:E3; [|done]. apply set_nonblocking_log in E3.
  destruct (from_std s3) as [s4|] eqn:E4; [|done]. apply from_std_log in E4.
  intros [= <- _].
  assert ((m ≠ None → linux = true) ∧ history s1 = history (enlarge_udp_buffers s0) ++ mark_ops m)
    as [Hm H1].
  { unfold apply_fwmark_linux in E1. destruct linux; [by apply apply_fwmark_log in E1|]. simpl in Em. bools.
    destruct m; [exfalso; naive_solver|]. injection E1 as _ <-. by rewrite app_nil_r. }
  split; [done|]. exists bufs. split; [done|]. unfold plain_history.
  rewrite E4, E3, E2, H1, Hl, E0. simpl. by rewrite <- !app_assoc.
Qed.

(** The only address such a socket was connected to. *)
Lemma buffer_not_connect bufs a : Forall buffer_opt bufs → ConnectedTo a ∉ bufs.
Proof. intros Hb Hin. rewrite Forall_forall in Hb. by destruct (Hb _ Hin). Qed.

Lemma bind_target_connects os os' target client transparent m s a :
  bind_target linux os target client transparent m = (Ok s, os') →
  ConnectedTo a ∈ history s ↔ a = target.
Proof.
  assert (ConnectedTo a ∉ mark_ops m) as Hm by (destruct m; set_solver).
  destruct transparent.
  - intros (_ & v6 & port & bufs & _ & _ & Hb & ->)%transparent_log.
    unfold transparent_history, transparent_opt. pose proof (buffer_not_connect bufs a Hb).
    destruct v6; set_solver.
  - intros (_ & bufs & Hb & ->)%plain_log. unfold plain_history.
    pose proof (buffer_not_connect bufs a Hb). set_solver.
Qed.

(** C31: The socket of a flow is connected to the target of its rule and to nothing
    else.  A plain one was bound to the unspecified address of the target's family;
    a transparent one, which exists only on Linux, had the transparent option set
    before it was bound to the client's own address (canonicalised, with the
    client's port or, when that is taken, an ephemeral one), and the families of
    the client and the target agree.  A mark the rule asks for was set before
    connecting. *)
Theorem bind_target_history os os' target client (transparent : bool) fwmark s :
  bind_target linux os target client transparent fwmark = (Ok s, os') →
  (transparent = true ∨ fwmark ≠ None → linux = true) ∧
  ∃ bufs, Forall buffer_opt bufs ∧
    if transparent then
      ∃ is_v6 port, shared_family (to_canonical (addr_ip client)) target = Some is_v6 ∧
        (port = addr_port client ∨ port = 0%Z) ∧
        history s = transparent_history target (to_canonical (addr_ip client)) port is_v6 fwmark bufs
    else history s = plain_history target fwmark bufs.
Proof.
  destruct transparent.
  - intros (Hl & v6 & port & bufs & ? & ? & ? & ?)%transparent_log. eauto 10.
  - intros [Hl H]%plain_log. split; [|done]. intros [|]; auto.
Qed.
End SocketFacts.

(** An IPv4-mapped client whose port is taken. *)
Definition mapped_client : SocketAddr := SockV6 (0xffff * 2 ^ 32 + 7) 99 0 0.

Lemma bind_target_history_witness :
  let s := mkLsock [] [] 0 true (transparent_history (SockV4 1 53) (IpV4 7) 0 false (Some 5%Z)
             [SetOpt SOL_SOCKET SO_RCVBUF SOCKET_BUFFER_BYTES;
              SetOpt SOL_SOCKET SO_SNDBUF SOCKET_BUFFER_BYTES]) [SockV4 7 99] [] in
  bind_target (A := LoopSockets) true [SockV4 7 99] (SockV4 1 53) mapped_client true (Some 5%Z)
    = (Ok s, [SockV4 7 99]) ∧
  ∃ bufs, Forall buffer_opt bufs ∧ ∃ is_v6 port,
    shared_family (to_canonical (addr_ip mapped_client)) (SockV4 1 53) = Some is_v6 ∧
    (port = addr_port mapped_client ∨ port = 0%Z) ∧
    history (SocketLaws := LoopSocketLaws) s =
      transparent_history (SockV4 1 53) (to_canonical (addr_ip mapped_client)) port is_v6 (Some 5%Z) bufs.
Proof.
  intros s.
  assert (bind_target (A := LoopSockets) true [SockV4 7 99] (SockV4 1 53) mapped_client true (Some 5%Z)
    = (Ok s, [SockV4 7 99])) as H by (vm_compute; reflexivity).
  split; [exact H|]. exact (proj2 (bind_target_history (L := LoopSocketLaws) true _ _ _ _ true _ _ H)).
Defined.
