(* ===== verification/Tls.v ===== *)
(** * TLS and QUIC configuration (src/quic.rs)

    A BoringSSL context, and the quiche configuration made from it, is the sequence
    of calls that configured it; whether the library accepts a call is a parameter.
    The two callbacks the sources install are functions of their own. *)

From S2P Require Import Prelude.
From S2P Require Import RustStr.
From S2P Require Import Endpoint.
From S2P Require Import Rules.
From S2P Require Import EchConfig.
From S2P Require Import Base64.
From S2P Require Import EchKey.
From S2P Require Import Io.

Definition TLS1_3 : Z := 0x0304.
Definition PROTOCOL_VERSION : Z := 1.
Definition ALPN_H3 : list bytes := [str "h3"].
Definition IDLE_TIMEOUT_MS : Z := 10000.
Definition DGRAM_QUEUE_LEN : Z := 65536.

Inductive VerifyMode := VerifyNone | VerifyPeer.

(** [Verify]. *)
Inductive Verify := Roots (ca_file : option Path) | Insecure.

(** The calls on the context builder and on the configuration. *)
Inductive call :=
| NewContext
| SetMinProto (v : Z)
| SetMaxProto (v : Z)
| CertificateChainFile (p : Path)
| PrivateKeyFile (p : Path)
| CheckPrivateKey
| EchKeysNew
| HpkeKey (private_key : bytes)
| EchAddKey (retry : bool) (config : bytes) (private_key : bytes)
| SetEchKeys
| SelectCertificateCallback (allowed_hosts : list bytes)
| SetVerify (m : VerifyMode)
| SetDefaultVerifyPaths
| SetCaFile (p : Path)
| InfoCallback (ech_config_list : bytes)
| ConfigWithContext (version : Z)
| SetApplicationProtos (protos : list bytes)
| SetMaxIdleTimeout (ms : Z)
| SetCcAlgorithmName (name : bytes)
| SetMaxRecvUdpPayloadSize (n : nat)
| SetMaxSendUdpPayloadSize (n : nat)
| SetInitialMaxData (n : Z)
| SetInitialMaxStreamDataBidiLocal (n : Z)
| SetInitialMaxStreamDataBidiRemote (n : Z)
| SetInitialMaxStreamDataUni (n : Z)
| SetInitialMaxStreamsBidi (n : Z)
| SetInitialMaxStreamsUni (n : Z)
| SetDisableActiveMigration (b : bool)
| EnableDgram (b : bool) (recv_len send_len : Z)
(* the test of src/ech_test.rs *)
| NewConnector
| SetCertificate (cert : bytes)
| SetPrivateKey (key : bytes)
| IntoSsl (server_name : bytes).

Definition Config : Type := list call.

(** A call the library refused, or a panic of the source's own code. *)
Inductive TlsError := Refused (c : call) | Panicked.

(** ** The callbacks *)

(** The closure of [install_sni_guard] on the SNI of a ClientHello. *)
Definition sni_guard (allowed_hosts : list bytes) (servername : option bytes) : bool :=
  match servername with
  | None => false
  | Some sni => existsb (λ h, eq_ignore_ascii_case h sni) allowed_hosts
  end.

Inductive InfoMode := HandshakeStart | OtherMode.

(** The closure of [install_client_ech]: the config list it installs, if any. *)
Definition client_ech_callback (list : bytes) (mode : InfoMode) : option bytes :=
  match mode with HandshakeStart => Some list | OtherMode => None end.

(** ** Building configurations *)

Section Build.
(** [accepts log c]: after the calls of [log], the library accepts [c]. *)
Context (accepts : list call → call → bool).

(** A call whose error is propagated. *)
Definition try_call (c : call) : stm Config TlsError unit := λ log,
  if accepts log c then (Ok tt, log ++ [c]) else (Err (Refused c), log).

(** A call that can not fail. *)
Definition do_call (c : call) : stm Config TlsError unit := λ log, (Ok tt, log ++ [c]).

(** A call whose error is ignored; the result says whether it succeeded. *)
Definition attempt (c : call) (log : Config) : bool * Config :=
  if accepts log c then (true, log ++ [c]) else (false, log).

Local Open Scope rust_scope.

Definition apply_transport_params : stm Config TlsError unit :=
  try_call (SetApplicationProtos ALPN_H3) >>!
  do_call (SetMaxIdleTimeout IDLE_TIMEOUT_MS) >>!
  try_call (SetCcAlgorithmName (str "bbr2_gcongestion")) >>!
  do_call (SetMaxRecvUdpPayloadSize MAX_UDP_PAYLOAD) >>!
  do_call (SetMaxSendUdpPayloadSize MAX_UDP_PAYLOAD) >>!
  do_call (SetInitialMaxData 10000000) >>!
  do_call (SetInitialMaxStreamDataBidiLocal 2000000) >>!
  do_call (SetInitialMaxStreamDataBidiRemote 2000000) >>!
  do_call (SetInitialMaxStreamDataUni 2000000) >>!
  do_call (SetInitialMaxStreamsBidi 128) >>!
  do_call (SetInitialMaxStreamsUni 128) >>!
  do_call (SetDisableActiveMigration true) >>!
  do_call (EnableDgram true DGRAM_QUEUE_LEN DGRAM_QUEUE_LEN).

(** [keys.add_key(true, &pair.config.encode(), key)]: encoding may panic. *)
Definition add_ech_key (pair : EchKeyPair) : stm Config TlsError unit :=
  match EchConfig.encode (config pair) with
  | Returns b => try_call (EchAddKey true b (private_key pair))
  | Panics => throw Panicked
  end.

(** [for pair in &ech.pairs { .. }]. *)
Fixpoint add_ech_keys (pairs : list EchKeyPair) : stm Config TlsError unit :=
  match pairs with
  | [] => mret tt
  | p :: pairs =>
      try_call (HpkeKey (private_key p)) >>!
      add_ech_key p >>!
      add_ech_keys pairs
  end.

Definition install_ech_keys (ech : EchKeySet) : stm Config TlsError unit :=
  try_call EchKeysNew >>! add_ech_keys (pairs ech) >>! try_call SetEchKeys.

Definition install_sni_guard (allowed_hosts : list bytes) : stm Config TlsError unit :=
  do_call (SelectCertificateCallback allowed_hosts).

Definition build_server_config (cert_path key_path : Path) (ech : option EchKeySet)
    (allowed_sni_hosts : list bytes) : stm Config TlsError unit :=
  try_call NewContext >>!
  try_call (SetMinProto TLS1_3) >>!
  try_call (SetMaxProto TLS1_3) >>!
  try_call (CertificateChainFile cert_path) >>!
  try_call (PrivateKeyFile key_path) >>!
  try_call CheckPrivateKey >>!
  (match ech with Some ech => install_ech_keys ech | None => mret tt end) >>!
  install_sni_guard allowed_sni_hosts >>!
  try_call (ConfigWithContext PROTOCOL_VERSION) >>!
  apply_transport_params.

Definition CA_BUNDLE_PATHS : list Path :=
  [[str "etc"; str "ssl"; str "certs"; str "ca-certificates.crt"];
   [str "etc"; str "pki"; str "tls"; str "certs"; str "ca-bundle.crt"];
   [str "etc"; str "ssl"; str "cert.pem"];
   [str "etc"; str "ssl"; str "ca-bundle.pem"]].

(** [exists] is [Path::exists]. *)
Fixpoint load_bundles (exists_ : Path → bool) (paths : list Path) (log : Config) : Config :=
  match paths with
  | [] => log
  | path :: paths =>
      if exists_ path then
        match attempt (SetCaFile path) log with
        | (true, log) => log
        | (false, log) => load_bundles exists_ paths log
        end
      else load_bundles exists_ paths log
  end.

Definition load_system_roots (exists_ : Path → bool) (log : Config) : Config :=
  load_bundles exists_ CA_BUNDLE_PATHS (attempt SetDefaultVerifyPaths log).2.

Definition install_client_ech (list : bytes) : stm Config TlsError unit :=
  do_call (InfoCallback list).

Definition apply_verify (exists_ : Path → bool) (verify : Verify) : stm Config TlsError unit :=
  match verify with
  | Insecure => do_call (SetVerify VerifyNone)
  | Roots ca_file =>
      do_call (SetVerify VerifyPeer) >>!
      (λ log, (Ok tt, load_system_roots exists_ log)) >>!
      match ca_file with Some ca => try_call (SetCaFile ca) | None => mret tt end
  end.

Definition build_client_config (exists_ : Path → bool) (verify : Verify)
    (ech_config_list : option bytes) : stm Config TlsError unit :=
  try_call NewContext >>!
  try_call (SetMinProto TLS1_3) >>!
  try_call (SetMaxProto TLS1_3) >>!
  apply_verify exists_ verify >>!
  (match ech_config_list with Some list => install_client_ech list | None => mret tt end) >>!
  try_call (ConfigWithContext PROTOCOL_VERSION) >>!
  apply_transport_params.

(** The configuration built from nothing. *)
Definition run_build (m : stm Config TlsError unit) : result TlsError Config :=
  match m [] with (Ok _, log) => Ok log | (Err e, _) => Err e end.
End Build.

(** [build_h3_config], given the answer of [quiche::h3::Config::new]: extended CONNECT
    is enabled. *)
Definition build_h3_config {H3Config E : Type} (new : result E H3Config)
    (enable_extended_connect : H3Config → bool → H3Config) : result E H3Config :=
  h3 ← new; mret (enable_extended_connect h3 true).

(** ** What is configured *)

(** Run from any log, [m] makes the calls [l], or stops with the error of a refused
    call after some of them. *)
Definition makes (m : stm Config TlsError unit) (l : list call) : Prop :=
  ∀ log r log', m log = (r, log') →
  match r with
  | Ok _ => log' = log ++ l
  | Err e => ∃ c l', e = Refused c ∧ c ∈ l ∧ l' `prefix_of` l ∧ log' = log ++ l'
  end.

Lemma makes_try accepts c : makes (try_call accepts c) [c].
Proof.
  intros log r log'. unfold try_call. destruct (accepts log c); intros [= <- <-]; [done|].
  exists c, []. rewrite app_nil_r. split_and!; [done|by left|apply prefix_nil|done].
Qed.

Lemma makes_do c : makes (do_call c) [c].
Proof. by intros log r log' [= <- <-]. Qed.

Lemma makes_ret : makes (mret tt) [].
Proof. intros log r log' [= <- <-]. by rewrite app_nil_r. Qed.

Lemma makes_then m k l l' : makes m l → makes k l' → makes (stm_then m k) (l ++ l').
Proof.
  intros Hm Hk log r log'. unfold stm_then, mbind, stm_bind.
  destruct (m log) as [[u|e] log1] eqn:E; apply Hm in E.
  - subst log1. intros H. apply Hk in H. destruct r as [v|e].
    + by rewrite H, app_assoc.
    + destruct H as (c & l2 & -> & Hc & Hp & ->). exists c, (l ++ l2).
      split_and!; [done|set_solver|by apply prefix_app|by rewrite app_assoc].
  - intros [= <- <-]. destruct E as (c & l2 & -> & Hc & Hp & ->). exists c, l2.
    split_and!; [done|set_solver|by apply prefix_app_r|done].
Qed.
Create HintDb tls discriminated.
#[local] Hint Resolve makes_try makes_do makes_ret : tls.

Definition transport_calls : list call :=
  [SetApplicationProtos ALPN_H3; SetMaxIdleTimeout IDLE_TIMEOUT_MS;
   SetCcAlgorithmName (str "bbr2_gcongestion");
   SetMaxRecvUdpPayloadSize MAX_UDP_PAYLOAD; SetMaxSendUdpPayloadSize MAX_UDP_PAYLOAD;
   SetInitialMaxData 10000000; SetInitialMaxStreamDataBidiLocal 2000000;
   SetInitialMaxStreamDataBidiRemote 2000000; SetInitialMaxStreamDataUni 2000000;
   SetInitialMaxStreamsBidi 128; SetInitialMaxStreamsUni 128; SetDisableActiveMigration true;
   EnableDgram true DGRAM_QUEUE_LEN DGRAM_QUEUE_LEN].

Lemma makes_transport accepts : makes (apply_transport_params accepts) transport_calls.
Proof.
  unfold apply_transport_params, transport_calls.
  do 12 (eapply (makes_then _ _ [_] (_ :: _)); [auto with tls|]). auto with tls.
Qed.

(** The keys of a key set, each advertised as a retry configuration. *)
Definition ech_key_calls (p : EchKeyPair) : list call :=
  match EchConfig.encode (config p) with
  | Returns b => [HpkeKey (private_key p); EchAddKey true b (private_key p)]
  | Panics => []
  end.

Definition ech_calls (ech : option EchKeySet) : list call :=
  match ech with
  | Some ks => [EchKeysNew] ++ concat (map ech_key_calls (pairs ks)) ++ [SetEchKeys]
  | None => []
  end.

Lemma makes_ech_keys accepts ps :
  Forall pair_ok ps → makes (add_ech_keys accepts ps) (concat (map ech_key_calls ps)).
Proof.
  induction 1 as [|p ps [_ [b Hb]] _ IH]; cbn [add_ech_keys map concat]; [apply makes_ret|].
  unfold add_ech_key, ech_key_calls at 1. rewrite Hb.
  eapply (makes_then _ _ [_] (_ :: _)); [auto with tls|].
  eapply (makes_then _ _ [_]); [auto with tls|done].
Qed.

Definition server_calls (cert key : Path) (ech : option EchKeySet) (hosts : list bytes) : list call :=
  [NewContext; SetMinProto TLS1_3; SetMaxProto TLS1_3; CertificateChainFile cert;
   PrivateKeyFile key; CheckPrivateKey] ++ ech_calls ech ++
  [SelectCertificateCallback hosts; ConfigWithContext PROTOCOL_VERSION] ++ transport_calls.

Lemma ech_calls_no_guard ech h : SelectCertificateCallback h ∉ ech_calls ech.
Proof.
  destruct ech as [ks|]; [|apply not_elem_of_nil]. unfold ech_calls.
  assert (SelectCertificateCallback h ∉ concat (map ech_key_calls (pairs ks))) as Hn.
  { induction (pairs ks) as [|p ps IH]; cbn; [apply not_elem_of_nil|].
    unfold ech_key_calls at 1. destruct (encode _); set_solver. }
  set_solver.
Qed.

Definition keys_ok (ech : option EchKeySet) : Prop :=
  match ech with Some ks => Forall pair_ok (pairs ks) | None => True end.

Lemma makes_server accepts cert key ech hosts :
  keys_ok ech → makes (build_server_config accepts cert key ech hosts) (server_calls cert key ech hosts).
Proof.
  intros Hk. unfold build_server_config, server_calls.
  do 6 (eapply (makes_then _ _ [_] (_ ++ _)); [auto with tls|]).
  eapply (makes_then _ _ (ech_calls ech) (_ :: _)).
  - destruct ech as [ks|]; [|apply makes_ret]. unfold install_ech_keys, ech_calls.
    eapply (makes_then _ _ [_]); [auto with tls|].
    apply makes_then; [by apply makes_ech_keys|auto with tls].
  - eapply (makes_then _ _ [_] (_ :: _)); [apply makes_do|].
    eapply (makes_then _ _ [_]); [auto with tls|apply makes_transport].
Qed.

Lemma run_build_makes m l :
  makes m l →
  match run_build m with
  | Ok cfg => cfg = l
  | Err e => ∃ c, e = Refused c ∧ c ∈ l
  end.
Proof.
  intros Hm. unfold run_build. destruct (m []) as [[u|e] log] eqn:E; apply Hm in E; [done|].
  destruct E as (c & _ & -> & Hc & _). eauto.
Qed.

(** The CA files a client configuration loads: the first known bundle that exists and
    loads, if any. *)
Lemma load_bundles_calls accepts ex paths log :
  ∃ l, load_bundles accepts ex paths log = log ++ l ∧
    ∀ c, c ∈ l → ∃ p, p ∈ paths ∧ ex p = true ∧ c = SetCaFile p.
Proof.
  revert log. induction paths as [|p paths IH]; intros log; cbn [load_bundles].
  - exists []. rewrite app_nil_r. split; [done|]. by intros c ?%not_elem_of_nil.
  - destruct (ex p) eqn:Ep.
    + unfold attempt. destruct (accepts log (SetCaFile p)).
      * exists [SetCaFile p]. split; [done|]. intros c ->%list_elem_of_singleton.
        exists p. split_and!; [by left|done|done].
      * destruct (IH log) as (l & Hl & Hc). exists l. split; [done|].
        intros c (q & Hq & He & ->)%Hc. exists q. split_and!; [by right|done|done].
    + destruct (IH log) as (l & Hl & Hc). exists l. split; [done|].
      intros c (q & Hq & He & ->)%Hc. exists q. split_and!; [by right|done|done].
Qed.

Definition is_root_call (c : call) : Prop :=
  c = SetDefaultVerifyPaths ∨ ∃ p, c = SetCaFile p.

Lemma load_system_roots_calls accepts ex log :
  ∃ l, load_system_roots accepts ex log = log ++ l ∧ Forall is_root_call l.
Proof.
  unfold load_system_roots.
  destruct (load_bundles_calls accepts ex CA_BUNDLE_PATHS (attempt accepts SetDefaultVerifyPaths log).2)
    as (l & -> & Hl).
  assert (Forall is_root_call l) as Hall.
  { apply Forall_forall. intros c (p & _ & _ & ->)%Hl. right. eauto. }
  unfold attempt. destruct (accepts log SetDefaultVerifyPaths); cbn [snd].
  - exists (SetDefaultVerifyPaths :: l). rewrite <- app_assoc. split; [done|].
    constructor; [by left|done].
  - by exists l.
Qed.

(** The calls of a client configuration, with the trust anchors that were loaded. *)
Definition client_calls (verify : Verify) (roots : list call) (ech : option bytes) : list call :=
  [NewContext; SetMinProto TLS1_3; SetMaxProto TLS1_3] ++
  match verify with
  | Insecure => [SetVerify VerifyNone]
  | Roots ca => SetVerify VerifyPeer :: roots ++
      match ca with Some p => [SetCaFile p] | None => [] end
  end ++
  match ech with Some l => [InfoCallback l] | None => [] end ++
  ConfigWithContext PROTOCOL_VERSION :: transport_calls.

Lemma stm_then_makes m (k : stm Config TlsError unit) l log u log' :
  makes m l → stm_then m k log = (Ok u, log') → k (log ++ l) = (Ok u, log').
Proof.
  intros Hm (u1 & log1 & H1%Hm & H2)%stm_then_Ok. by rewrite <- H1.
Qed.

Lemma apply_verify_calls accepts ex verify log u log' :
  apply_verify accepts ex verify log = (Ok u, log') →
  ∃ roots, Forall is_root_call roots ∧
    log' = log ++ match verify with
      | Insecure => [SetVerify VerifyNone]
      | Roots ca => SetVerify VerifyPeer :: roots ++
          match ca with Some p => [SetCaFile p] | None => [] end
      end.
Proof.
  destruct verify as [ca|]; cbn [apply_verify].
  - intros H. eapply (stm_then_makes _ _ [_]) in H; [|apply makes_do].
    apply stm_then_Ok in H as (u1 & log1 & [= <- <-] & H).
    destruct (load_system_roots_calls accepts ex (log ++ [SetVerify VerifyPeer])) as (l & Hl & Hr).
    rewrite Hl in H. exists l. split; [done|]. destruct ca as [p|].
    + apply makes_try in H. rewrite H. by rewrite <- !app_assoc.
    + injection H as _ <-. by rewrite app_nil_r, <- app_assoc.
  - intros [= <- <-]. by exists [].
Qed.

Lemma client_config_calls accepts ex verify ech cfg :
  run_build (build_client_config accepts ex verify ech) = Ok cfg →
  ∃ roots, Forall is_root_call roots ∧ cfg = client_calls verify roots ech.
Proof.
  unfold run_build. destruct (build_client_config _ _ _ _ _) as [[u|e] log] eqn:H; [|done].
  intros [= <-]. unfold build_client_config in H.
  do 3 (eapply (stm_then_makes _ _ [_]) in H; [|apply makes_try]).
  apply stm_then_Ok in H as (u1 & log1 & (roots & Hr & ->)%apply_verify_calls & H).
  exists roots. split; [done|].
  eapply (stm_then_makes _ _ (match ech with Some l => [InfoCallback l] | None => [] end)) in H;
    [|destruct ech; [apply makes_do|apply makes_ret]].
  eapply (stm_then_makes _ _ [_]) in H; [|apply makes_try].
  apply makes_transport in H. rewrite H. unfold client_calls. by rewrite <- !app_assoc.
Qed.

(** ** Properties *)

(** The guard installed for a rule table lets a handshake through exactly when the
    ClientHello carries a server name and that name is, up to ASCII case, the host of
    some rule's endpoint. *)
Theorem sni_guard_iff (t : RuleTable) (servername : option bytes) :
  sni_guard (allowed_sni_hosts t) servername = true ↔
  ∃ sni r, servername = Some sni ∧ r ∈ rules t ∧
    to_ascii_lowercase sni =
    to_ascii_lowercase (host_of_authority (Endpoint.authority (endpoint r))).
Proof.
  destruct servername as [sni|]; cbn [sni_guard]; [|naive_solver].
  rewrite existsb_exists. setoid_rewrite <- list_elem_of_In.
  setoid_rewrite (proj2 (allowed_sni_hosts_spec t)).
  unfold eq_ignore_ascii_case. setoid_rewrite bool_decide_eq_true. split.
  - intros (h & (r & Hr & ->) & He). exists sni, r. split_and!; [done|done|].
    by rewrite to_ascii_lowercase_idemp in He.
  - intros (s & r & [= <-] & Hr & He). eexists. split; [by exists r|].
    by rewrite to_ascii_lowercase_idemp.
Qed.

(** C32: Building the server configuration from a key set that was loaded never panics.
    When it succeeds the configuration is exactly: TLS 1.3 as the lowest and the
    highest version, the certificate and key (checked against each other), every ECH
    key in order as a retry configuration, the SNI guard for the given hosts, then
    the QUIC parameters; when it fails, it is because one of these calls was
    refused. *)
Theorem server_config_exact `{Base64} {IoError : Type} (fs : FileSystem IoError)
    (accepts : list call → call → bool) (cert key ech_path : Path) (ks : EchKeySet)
    (hosts : list bytes) (with_ech : bool) :
  EchKey.load fs ech_path = Ok ks →
  let ech := if with_ech then Some ks else None in
  match run_build (build_server_config accepts cert key ech hosts) with
  | Ok cfg => cfg = server_calls cert key ech hosts
  | Err e => ∃ c, e = Refused c ∧ c ∈ server_calls cert key ech hosts
  end.
Proof.
  intros Hl. cbv zeta. apply run_build_makes, makes_server.
  destruct with_ech; [|done]. by apply load_pairs_ok in Hl.
Qed.

(** The key set of the sample files. *)
Definition sample_keys : EchKeySet :=
  match EchKey.load (H := Base64Std) sample_fs [str "k.pem"] with
  | Ok ks => ks
  | Err _ => mkEchKeySet []
  end.

Lemma sample_keys_load : EchKey.load (H := Base64Std) sample_fs [str "k.pem"] = Ok sample_keys.
Proof.
  assert (is_ok (EchKey.load (H := Base64Std) sample_fs [str "k.pem"]) = true) as Hok
    by (vm_compute; reflexivity).
  unfold sample_keys. destruct (EchKey.load _ _) as [ks|e]; [reflexivity|discriminate Hok].
Qed.

Lemma server_config_exact_witness :
  run_build (build_server_config (λ _ _, true) [str "c"] [str "k"] (Some sample_keys) [str "h"])
  = Ok (server_calls [str "c"] [str "k"] (Some sample_keys) [str "h"]).
Proof.
  pose proof (server_config_exact (H := Base64Std) sample_fs (λ _ _, true) [str "c"] [str "k"]
    [str "k.pem"] sample_keys [str "h"] true sample_keys_load) as H. cbv zeta in H. cbv iota in H.
  assert (is_ok (run_build (build_server_config (λ _ _, true) [str "c"] [str "k"]
    (Some sample_keys) [str "h"])) = true) as Hok by (vm_compute; reflexivity).
  destruct (run_build _) as [cfg|e]; [rewrite H; reflexivity|discriminate Hok].
Defined.

Lemma client_config_members (accepts : list call → call → bool) (ex : Path → bool)
    (verify : Verify) (ech : option bytes) (cfg : Config) :
  run_build (build_client_config accepts ex verify ech) = Ok cfg →
  (∀ v, SetMinProto v ∈ cfg ∨ SetMaxProto v ∈ cfg ↔ v = TLS1_3) ∧
  (SetVerify VerifyNone ∈ cfg ↔ verify = Insecure) ∧
  (SetVerify VerifyPeer ∈ cfg ↔ verify ≠ Insecure) ∧
  (∀ ca, verify = Roots (Some ca) → SetCaFile ca ∈ cfg) ∧
  (∀ l, InfoCallback l ∈ cfg ↔ ech = Some l) ∧
  (∀ l, client_ech_callback l HandshakeStart = Some l).
Proof.
  intros (roots & Hr & ->)%client_config_calls. rewrite Forall_forall in Hr.
  assert (∀ v, (SetMinProto v ∉ roots) ∧ (SetMaxProto v ∉ roots)) as H1.
  { intros v. split; intros [|[p ?]]%Hr; discriminate. }
  assert (∀ m, SetVerify m ∉ roots) as H2 by (intros m [|[p ?]]%Hr; discriminate).
  assert (∀ l, InfoCallback l ∉ roots) as H3 by (intros l [|[p ?]]%Hr; discriminate).
  unfold client_calls, transport_calls. split_and!; try done.
  - intros v. destruct (H1 v). destruct verify as [[p|]|], ech; set_solver.
  - specialize (H2 VerifyNone). destruct verify as [[p|]|], ech; set_solver.
  - specialize (H2 VerifyPeer). destruct verify as [[p|]|], ech; set_solver.
  - intros ca ->. set_solver.
  - intros l. specialize (H3 l). destruct verify as [[p|]|], ech; set_solver.
Qed.

(** A client configuration that was built offers only TLS 1.3.  It verifies the
    server unless it was asked not to: [VerifyNone] occurs exactly in insecure mode
    and [VerifyPeer] exactly otherwise, and then the extra CA file, when given, was
    loaded.  The ECH list is installed exactly when there is one, to be offered at
    the start of every handshake. *)
Theorem client_config_verifies (accepts : list call → call → bool) (ex : Path → bool)
    (verify : Verify) (ech : option bytes) (cfg : Config) :
  run_build (build_client_config accepts ex verify ech) = Ok cfg →
  (∀ v, SetMinProto v ∈ cfg ∨ SetMaxProto v ∈ cfg ↔ v = TLS1_3) ∧
  (SetVerify VerifyNone ∈ cfg ↔ verify = Insecure) ∧
  (SetVerify VerifyPeer ∈ cfg ↔ verify ≠ Insecure) ∧
  (∀ ca, verify = Roots (Some ca) → SetCaFile ca ∈ cfg) ∧
  (∀ l, InfoCallback l ∈ cfg ↔ ech = Some l) ∧
  (∀ l, client_ech_callback l HandshakeStart = Some l).
Proof. apply client_config_members. Qed.

Lemma client_config_verifies_witness :
  ∃ cfg, run_build (build_client_config (λ _ _, true) (λ _, true) (Roots None) (Some (str "x"))) = Ok cfg ∧
    (SetVerify VerifyPeer ∈ cfg ↔ Roots None ≠ Insecure).
Proof.
  eexists. split; [reflexivity|].
  exact (proj1 (proj2 (proj2 (client_config_verifies (λ _ _, true) (λ _, true) (Roots None)
    (Some (str "x")) _ eq_refl)))).
Defined.
