(* ===== verification/Client.v ===== *)
(** * The tunnelling client (src/client.rs)

    One session is a QUIC connection to the proxy with two tables: the flow of each
    local source address and the source of each flow.  Received packets, timers and
    the order in which hash maps are visited are arguments; draining loops take
    fuel. *)

From Stdlib Require Import Strings.Byte.
From S2P Require Import Prelude.
From S2P Require Import RustStr.
From S2P Require Import Net.
From S2P Require Import Dgram.
From S2P Require Import Endpoint.
From S2P Require Import Quiche.
From S2P Require Import Io.
From S2P Require Import Sockets.
From S2P Require Import EchKey.
From S2P Require Import Tls.

Definition KEEPALIVE : Z := from_secs 1.
Definition MAX_PENDING : nat := 32.
Definition RECONNECT_MIN : Z := from_millis 100.
Definition RECONNECT_MAX : Z := from_secs 5.

(** ** Dialing *)

Definition host_of (authority : bytes) : bytes :=
  match strip_prefix [x5b] authority ≫= λ rest,
          (λ end_, take end_ rest) <$> find_byte x5d rest with
  | Some host => host
  | None =>
      match rsplit_once_byte x3a authority with
      | Some (h, _) => h
      | None => authority
      end
  end.

Inductive DialError (IoError : Type) :=
| DialTls (e : TlsError)
| DialResolve (e : IoError)
| DialNoAddress
| DialBind (e : BindError)
| DialLocalAddr (e : io_error)
| DialConnect (e : QError).
Arguments DialTls {IoError}.
Arguments DialResolve {IoError}.
Arguments DialNoAddress {IoError}.
Arguments DialBind {IoError}.
Arguments DialLocalAddr {IoError}.
Arguments DialConnect {IoError}.

Record ConnectParams := mkParams {
  cp_endpoint : Endpoint;
  cp_proxy_addr : option SocketAddr;
  cp_verify : Verify;
  cp_ech_config_list : option bytes;
}.

Record Dialed (Conn Sock : Type) := mkDialed {
  di_socket : Sock;
  di_conn : Conn;
  di_local_addr : SocketAddr;
  di_path : bytes;
  di_authority : bytes;
}.
Arguments mkDialed {Conn Sock}.
Arguments di_socket {Conn Sock}.
Arguments di_conn {Conn Sock}.
Arguments di_local_addr {Conn Sock}.
Arguments di_path {Conn Sock}.
Arguments di_authority {Conn Sock}.

Section Dial.
Context {Conn Sock Os IoError : Type}.
Context `{SA : SocketApi Sock Os} `{QC : QuicheClient Conn Config}.
Context (linux : bool) (to_socket_addrs : bytes → result IoError (list SocketAddr)).
Context (accepts : list call → call → bool) (exists_ : Path → bool).
Context (sock_local_addr : Sock → result io_error SocketAddr).

Definition resolve_authority (authority : bytes) : result (DialError IoError) SocketAddr :=
  match to_socket_addrs authority with
  | Err e => Err (DialResolve e)
  | Ok addrs => ok_or DialNoAddress (head addrs)
  end.

(** [scid] is what the random generator fills in. *)
Definition dial (p : ConnectParams) (scid : bytes) (os : Os) :
    result (DialError IoError) (Dialed Conn Sock) * Os :=
  match run_build (build_client_config accepts exists_ (cp_verify p) (cp_ech_config_list p)) with
  | Err e => (Err (DialTls e), os)
  | Ok config =>
      match (match cp_proxy_addr p with
             | Some addr => Ok addr
             | None => resolve_authority (authority (cp_endpoint p))
             end) with
      | Err e => (Err e, os)
      | Ok proxy_addr =>
          let server_name := host_of (authority (cp_endpoint p)) in
          match bind_udp linux os (unspecified (is_ipv4 proxy_addr)) with
          | (Err e, os) => (Err (DialBind e), os)
          | (Ok socket, os) =>
              let socket := enlarge_udp_buffers socket in
              match sock_local_addr socket with
              | Err e => (Err (DialLocalAddr e), os)
              | Ok local_addr =>
                  match fst (quiche_connect (Some server_name) scid local_addr proxy_addr config) with
                  | Err e => (Err (DialConnect e), os)
                  | Ok conn =>
                      (Ok (mkDialed socket conn local_addr (path (cp_endpoint p))
                             (authority (cp_endpoint p))), os)
                  end
              end
          end
      end
  end.
End Dial.

Definition connect_headers (authority path : bytes) : list Header :=
  [mkHeader (str ":method") (str "CONNECT");
   mkHeader (str ":protocol") (str "connect-udp");
   mkHeader (str ":scheme") (str "https");
   mkHeader (str ":authority") authority;
   mkHeader (str ":path") path;
   mkHeader (str "capsule-protocol") (str "?1")].

Definition status_of (headers : list Header) : option Z :=
  h ← List.find (λ h, bool_decide (h_name h = str ":status")) headers;
  s ← from_utf8 (h_value h);
  parse_u16 s.

(** ** Sessions *)

Record FlowState := mkFlowState {
  fs_flow_id : option Z;
  fs_established : bool;
  fs_pending : list bytes;
}.

Definition new_flow : FlowState := mkFlowState None false [].

(** The connection and the two tables. *)
Record Tunnel (Conn : Type) := mkTunnel {
  tn_conn : Conn;
  tn_by_addr : gmap SocketAddr FlowState;
  tn_flows : gmap Z SocketAddr;
}.
Arguments mkTunnel {Conn}.
Arguments tn_conn {Conn}.
Arguments tn_by_addr {Conn}.
Arguments tn_flows {Conn}.

Section Session.
Context {Conn H3 H3Config Sock : Type}.
Context `{Q : Quiche Conn H3 H3Config} `{U : UdpSys Sock} `{HI : HashIter}.
Context (linux : bool).
Local Abbreviation Tunnel := (Tunnel Conn).

(** Every outcome of [dgram_send] is only logged. *)
Definition send_datagram (c : Conn) (flow_id : Z) (data : bytes) : Conn :=
  snd (dgram_send c (Dgram.encode flow_id data)).

(** One local datagram. *)
Definition queue_local (t : Tunnel) (p : bytes * SocketAddr) : Tunnel :=
  let '(data, src) := p in
  let st := default new_flow (tn_by_addr t !! src) in
  match fs_established st, fs_flow_id st with
  | true, Some fid =>
      mkTunnel (send_datagram (tn_conn t) fid data) (<[src := st]> (tn_by_addr t)) (tn_flows t)
  | _, _ =>
      let st :=
        if length (fs_pending st) <? MAX_PENDING then
          mkFlowState (fs_flow_id st) (fs_established st) (fs_pending st ++ [data])
        else st in
      mkTunnel (tn_conn t) (<[src := st]> (tn_by_addr t)) (tn_flows t)
  end.

(** One turn of the loop of [open_pending_flows]; the list collects [dropped]. *)
Definition open_one (headers : list Header) (s : H3 * Tunnel * list SocketAddr)
    (p : SocketAddr * FlowState) : H3 * Tunnel * list SocketAddr :=
  let '(h, t, dropped) := s in
  let '(src, st) := p in
  match fs_flow_id st with
  | Some _ => s
  | None =>
      match send_request h (tn_conn t) headers false with
      | (Ok stream_id, (h, c)) =>
          let fid := (stream_id / 4)%Z in
          (h, mkTunnel c
                (<[src := mkFlowState (Some fid) (fs_established st) (fs_pending st)]> (tn_by_addr t))
                (<[fid := src]> (tn_flows t)), dropped)
      | (Err StreamBlocked, (h, c)) => (h, mkTunnel c (tn_by_addr t) (tn_flows t), dropped)
      | (Err _, (h, c)) => (h, mkTunnel c (tn_by_addr t) (tn_flows t), dropped ++ [src])
      end
  end.

(** [for src in dropped { by_addr.remove(&src) }]. *)
Definition remove_sources (dropped : list SocketAddr) (t : Tunnel) : Tunnel :=
  mkTunnel (tn_conn t) (fold_left (λ m src, delete src m) dropped (tn_by_addr t)) (tn_flows t).

Definition open_pending_flows (authority path : bytes) (h : H3) (t : Tunnel) : H3 * Tunnel :=
  let '(h, t, dropped) :=
    fold_left (open_one (connect_headers authority path)) (iter (tn_by_addr t)) (h, t, []) in
  (h, remove_sources dropped t).

(** [if let Some(src) = flows.remove(&fid) { by_addr.remove(&src) }]. *)
Definition close_flow (fid : Z) (t : Tunnel) : Tunnel :=
  match tn_flows t !! fid with
  | Some src => mkTunnel (tn_conn t) (delete src (tn_by_addr t)) (delete fid (tn_flows t))
  | None => t
  end.

(** The proxy accepted the flow: release what was buffered. *)
Definition establish (fid : Z) (t : Tunnel) : Tunnel :=
  match tn_flows t !! fid with
  | None => t
  | Some src =>
      match tn_by_addr t !! src with
      | None => t
      | Some st =>
          mkTunnel (fold_left (λ c data, send_datagram c fid data) (fs_pending st) (tn_conn t))
            (<[src := mkFlowState (fs_flow_id st) true []]> (tn_by_addr t)) (tn_flows t)
      end
  end.

(** One event of the response loop. *)
Definition on_response (stream_id : Z) (ev : Event) (t : Tunnel) : Tunnel :=
  let fid := (stream_id / 4)%Z in
  match ev with
  | Headers list =>
      match status_of list with
      | Some s => if (200 <=? s)%Z && (s <? 300)%Z then establish fid t else close_flow fid t
      | None => t
      end
  | Finished | Reset _ => close_flow fid t
  | _ => t
  end.

Definition poll_responses (fuel : nat) (h : H3) (t : Tunnel) : option (H3 * Tunnel) :=
  loop fuel (λ s : H3 * Tunnel,
    let '(h, t) := s in
    match poll h (tn_conn t) with
    | (Ok (stream_id, ev), (h, c)) =>
        inl (h, on_response stream_id ev (mkTunnel c (tn_by_addr t) (tn_flows t)))
    | (Err _, (h, c)) => inr (h, mkTunnel c (tn_by_addr t) (tn_flows t))
    end) (h, t).

(** One tunnelled datagram: the local source it is for, and its payload. *)
Definition tunnel_target (flows : gmap Z SocketAddr) (buf : bytes) :
    panics (option (SocketAddr * bytes)) :=
  parsed ← Dgram.decode buf;
  mret (match parsed with
        | None => None
        | Some p =>
            if negb (context_id p =? CONTEXT_ID_UDP)%Z then None
            else (λ src, (src, payload p)) <$> flows !! flow_id p
        end).

(** One turn of [route_tunnel_datagrams]. *)
Definition route_one (fuel : nat) (flows : gmap Z SocketAddr) (s : Conn * Sock) :
    (Conn * Sock) + option (panics (Conn * Sock)) :=
  let '(c, lsock) := s in
  match dgram_recv c MAX_DATAGRAM_SIZE with
  | (Err _, c) => inr (Some (Returns (c, lsock)))
  | (Ok buf, c) =>
      match tunnel_target flows buf with
      | Panics => inr (Some Panics)
      | Returns None => inl (c, lsock)
      | Returns (Some (src, data)) =>
          match send_udp linux fuel lsock data src with
          | None => inr None
          | Some (_, lsock) => inl (c, lsock)
          end
      end
  end.

Definition route_tunnel_datagrams (fuel : nat) (flows : gmap Z SocketAddr) (c : Conn)
    (lsock : Sock) : option (panics (Conn * Sock)) :=
  mjoin (loop fuel (route_one fuel flows) (c, lsock)).

(** ** The session loop *)

Record Session := mkClientSession {
  se_qsock : Sock;
  se_lsock : Sock;
  se_local_addr : SocketAddr;
  se_authority : bytes;
  se_path : bytes;
  se_http3 : option H3;
  se_established : bool;
  se_tunnel : Tunnel;
}.

Definition set_tunnel (s : Session) (t : Tunnel) : Session :=
  mkClientSession (se_qsock s) (se_lsock s) (se_local_addr s) (se_authority s) (se_path s)
    (se_http3 s) (se_established s) t.

Definition set_tunnel_conn (s : Session) (c : Conn) : Session :=
  set_tunnel s (mkTunnel c (tn_by_addr (se_tunnel s)) (tn_flows (se_tunnel s))).

(** The receive tasks share the sockets. *)
Definition set_sockets (s : Session) (qsock lsock : Sock) : Session :=
  mkClientSession qsock lsock (se_local_addr s) (se_authority s) (se_path s)
    (se_http3 s) (se_established s) (se_tunnel s).

(** What one turn of the loop found after the [select!] and the draining of both
    channels: the packets, the timers, and whether the receive task has ended. *)
Record Wakeup := mkWakeup {
  wk_proxy_pkts : list (bytes * SocketAddr);
  wk_local_pkts : list (bytes * SocketAddr);
  wk_timeout : bool;
  wk_keepalive : bool;
  wk_recv_ended : bool;
}.

Definition recv_packets (local_addr : SocketAddr) (pkts : list (bytes * SocketAddr)) (c : Conn) : Conn :=
  fold_left (λ c p, snd (recv c p.1 local_addr p.2)) pkts c.

(** HTTP/3 once the connection is ready; [None] when it can not be set up. *)
Definition start_http3 (h3_config : H3Config) (s : Session) : option Session :=
  let c := tn_conn (se_tunnel s) in
  if (is_established c || is_in_early_data c) && bool_decide (se_http3 s = None)
  then
    match with_transport c h3_config with
    | (Ok h3, c) =>
        Some (mkClientSession (se_qsock s) (se_lsock s) (se_local_addr s) (se_authority s)
                (se_path s) (Some h3) true
                (mkTunnel c (tn_by_addr (se_tunnel s)) (tn_flows (se_tunnel s))))
    | (Err _, _) => None
    end
  else Some s.

(** [if let Some(h3) = http3.as_mut() { .. }]. *)
Definition serve_http3 (fuel : nat) (s : Session) : option (panics Session) :=
  match se_http3 s with
  | None => Some (Returns s)
  | Some h =>
      let '(h, t) := open_pending_flows (se_authority s) (se_path s) h (se_tunnel s) in
      match poll_responses fuel h t with
      | None => None
      | Some (h, t) =>
          match route_tunnel_datagrams fuel (tn_flows t) (tn_conn t) (se_lsock s) with
          | None => None
          | Some Panics => Some Panics
          | Some (Returns (c, lsock)) =>
              Some (Returns (mkClientSession (se_qsock s) lsock (se_local_addr s) (se_authority s)
                (se_path s) (Some h) (se_established s) (mkTunnel c (tn_by_addr t) (tn_flows t))))
          end
      end
  end.

(** One turn of the loop of [run_session]: go on, or return [established], which is
    given with what the session leaves behind. *)
Definition session_turn (fuel : nat) (h3_config : H3Config) (w : Wakeup) (s : Session) :
    option (panics (Session + Session)) :=
  if wk_recv_ended w then Some (Returns (inr s))
  else
  let c := recv_packets (se_local_addr s) (wk_proxy_pkts w) (tn_conn (se_tunnel s)) in
  let c := if wk_timeout w then on_timeout c else c in
  let c := if wk_keepalive w then send_ack_eliciting c else c in
  let s := set_tunnel_conn s c in
  if is_closed c then Some (Returns (inr s))
  else
    match start_http3 h3_config s with
    | None => Some (Returns (inr s))
    | Some s =>
        let s := set_tunnel s (fold_left queue_local (wk_local_pkts w) (se_tunnel s)) in
        match serve_http3 fuel s with
        | None => None
        | Some Panics => Some Panics
        | Some (Returns s) =>
            match flush_connection linux fuel (se_qsock s) (tn_conn (se_tunnel s)) with
            | None => None
            | Some (Err _, _) => Some (Returns (inr s))
            | Some (Ok _, st) =>
                Some (Returns (inl (mkClientSession (f_sock st) (se_lsock s) (se_local_addr s)
                  (se_authority s) (se_path s) (se_http3 s) (se_established s)
                  (mkTunnel (f_conn st) (tn_by_addr (se_tunnel s)) (tn_flows (se_tunnel s))))))
            end
        end
    end.

(** The start of [run_session] after a successful dial: the initial flush; [inr] when it
    fails. *)
Definition session_start (fuel : nat) (d : Dialed Conn Sock) (lsock : Sock) :
    option (Session + bool) :=
  match flush_connection linux fuel (di_socket d) (di_conn d) with
  | None => None
  | Some (Err _, _) => Some (inr false)
  | Some (Ok _, st) =>
      Some (inl (mkClientSession (f_sock st) lsock (di_local_addr d) (di_authority d) (di_path d)
        None false (mkTunnel (f_conn st) ∅ ∅)))
  end.

(** The loop of [run_session] over what its turns find; [inl] while it goes on. *)
Fixpoint session_loop (fuel : nat) (h3_config : H3Config) (ws : list Wakeup) (s : Session) :
    option (panics (Session + bool)) :=
  match ws with
  | [] => Some (Returns (inl s))
  | w :: ws =>
      match session_turn fuel h3_config w s with
      | Some (Returns (inl s)) => session_loop fuel h3_config ws s
      | Some (Returns (inr s)) => Some (Returns (inr (se_established s)))
      | Some Panics => Some Panics
      | None => None
      end
  end.

(** [run_session], given what [dial] and [build_h3_config] answer. *)
Definition run_session {E1 E2 : Type} (fuel : nat) (dialed : result E1 (Dialed Conn Sock))
    (h3_config : result E2 H3Config) (lsock : Sock) (ws : list Wakeup) :
    option (panics (Session + bool)) :=
  match dialed with
  | Err _ => Some (Returns (inr false))
  | Ok d =>
      match h3_config with
      | Err _ => Some (Returns (inr false))
      | Ok h3_config =>
          match session_start fuel d lsock with
          | None => None
          | Some (inr established) => Some (Returns (inr established))
          | Some (inl s) => session_loop fuel h3_config ws s
          end
      end
  end.
End Session.

Arguments mkClientSession {Conn H3 Sock}.
Arguments se_qsock {Conn H3 Sock}.
Arguments se_lsock {Conn H3 Sock}.
Arguments se_local_addr {Conn H3 Sock}.
Arguments se_authority {Conn H3 Sock}.
Arguments se_path {Conn H3 Sock}.
Arguments se_http3 {Conn H3 Sock}.
Arguments se_established {Conn H3 Sock}.
Arguments se_tunnel {Conn H3 Sock}.

(** ** Reconnecting *)

(** One turn of the loop of [run_proxy] after a session that did or did not get
    established: how long to sleep, and the next backoff. *)
Definition reconnect (established : bool) (backoff : Z) : Z * Z :=
  let backoff := if established then RECONNECT_MIN else backoff in
  (backoff, Z.min (backoff * 2) RECONNECT_MAX).

(** The sleeps of [run_proxy] over the sessions it has gone through. *)
Fixpoint sleeps (backoff : Z) (sessions : list bool) : list Z :=
  match sessions with
  | [] => []
  | e :: sessions => let '(d, b) := reconnect e backoff in d :: sleeps b sessions
  end.

Definition run_proxy_sleeps (sessions : list bool) : list Z := sleeps RECONNECT_MIN sessions.
