(* ===== verification/ClientProps.v ===== *)
(** * What the client does

    The tables of a session agree with each other, a session's turns end without
    panicking, datagrams of a source leave in order and not before the proxy has
    accepted the flow, and the reconnect delays are bounded. *)

From S2P Require Import Prelude.
From S2P Require Import RustStr.
From S2P Require Import Net.
From S2P Require Import Dgram.
From S2P Require Import Quiche.
From S2P Require Import Loopback.
From S2P Require Import Io.
From S2P Require Import Client.

(** ** The invariant of a session *)

Definition flow_ok (st : FlowState) : Prop :=
  length (fs_pending st) ≤ MAX_PENDING ∧
  (fs_established st = true → fs_pending st = [] ∧ is_Some (fs_flow_id st)).

Section Inv.
Context {Conn H3 H3Config : Type} `{QT : QuicheStreams Conn H3 H3Config} `{HI : HashIter}.
Local Abbreviation Tunnel := (Tunnel Conn).
Implicit Types (t : Tunnel) (h : H3).

(** [flows] and the flow ids of [by_addr] are inverse to each other, and the ids in use
    are those of streams already opened, below [bound]. *)
Record tunnel_ok (bound : Z) t : Prop := {
  to_inverse fid src : tn_flows t !! fid = Some src ↔
    ∃ st, tn_by_addr t !! src = Some st ∧ fs_flow_id st = Some fid;
  to_flow src st : tn_by_addr t !! src = Some st → flow_ok st;
  to_bound fid src : tn_flows t !! fid = Some src → (0 ≤ fid ∧ 4 * fid < bound)%Z;
}.

Lemma tunnel_ok_conn b t c :
  tunnel_ok b t → tunnel_ok b (mkTunnel c (tn_by_addr t) (tn_flows t)).
Proof. by intros []. Qed.

(** Replacing the state of a source by one with the same flow id. *)
Lemma tunnel_ok_set b t c src st st' :
  tunnel_ok b t → default None (fs_flow_id <$> tn_by_addr t !! src) = fs_flow_id st' →
  flow_ok st' → (fs_flow_id st' = None ∨ tn_by_addr t !! src = Some st) →
  tunnel_ok b (mkTunnel c (<[src := st']> (tn_by_addr t)) (tn_flows t)).
Proof.
  intros [Hi Hf Hb] Hid Hok Hsrc. split; cbn [tn_by_addr tn_flows]; [|..|done].
  - intros fid src'. rewrite Hi. destruct (decide (src' = src)) as [->|Hne].
    + rewrite lookup_insert_eq. split.
      * intros (s & Hs & Hfid). rewrite Hs in Hid. simpl in Hid. exists st'. split; congruence.
      * intros (s & [= <-] & Hfid). destruct (tn_by_addr t !! src) as [s|] eqn:E.
        -- exists s. split; [done|]. simpl in Hid. congruence.
        -- destruct Hsrc; congruence.
    + by rewrite lookup_insert_ne.
  - intros src' s. rewrite lookup_insert_Some. intros [[<- <-]|[_ Hs]]; [done|eauto].
Qed.

Lemma queue_local_ok b t p : tunnel_ok b t → tunnel_ok b (queue_local t p).
Proof.
  destruct p as [data src]. intros Ht. unfold queue_local.
  set (st := default new_flow (tn_by_addr t !! src)).
  assert (flow_ok st) as Hst.
  { unfold st. destruct (tn_by_addr t !! src) eqn:E; [by eapply to_flow|].
    split; [unfold MAX_PENDING; simpl; lia|done]. }
  assert (default None (fs_flow_id <$> tn_by_addr t !! src) = fs_flow_id st) as Hid.
  { unfold st. by destruct (tn_by_addr t !! src). }
  assert (fs_flow_id st = None ∨ tn_by_addr t !! src = Some st) as Hor.
  { unfold st. destruct (tn_by_addr t !! src); [by right|by left]. }
  assert (fs_established st = false ∨ fs_flow_id st = None →
    let st' := if length (fs_pending st) <? MAX_PENDING
               then mkFlowState (fs_flow_id st) (fs_established st) (fs_pending st ++ [data]) else st in
    tunnel_ok b (mkTunnel (tn_conn t) (<[src := st']> (tn_by_addr t)) (tn_flows t))) as Hq.
  { intros Hne. destruct (length (fs_pending st) <? MAX_PENDING) eqn:E; cbv zeta iota.
    - apply Nat.ltb_lt in E. apply (tunnel_ok_set _ _ _ _ st); [done|done|..|by destruct Hor; auto].
      split; cbn [fs_pending fs_established fs_flow_id].
      + rewrite length_app. simpl. lia.
      + intros He. destruct Hst as [_ Hst]. destruct (Hst He) as [_ [x Hx]]. destruct Hne; congruence.
    - by apply (tunnel_ok_set _ _ _ _ st). }
  destruct (fs_established st) eqn:He; [|by auto].
  destruct (fs_flow_id st) as [fid|] eqn:Hfid; [|by auto].
  apply (tunnel_ok_set _ _ _ _ st); congruence || auto.
Qed.

Lemma queue_locals_ok b l t : tunnel_ok b t → tunnel_ok b (fold_left queue_local l t).
Proof. revert t. induction l; intros t Ht; simpl; [done|]. by apply IHl, queue_local_ok. Qed.

Lemma close_flow_ok b t fid : tunnel_ok b t → tunnel_ok b (close_flow fid t).
Proof.
  intros [Hi Hf Hb]. unfold close_flow. destruct (tn_flows t !! fid) as [src|] eqn:E; [|by split].
  pose proof E as (st & Hst & Hfid)%Hi. split; cbn [tn_by_addr tn_flows].
  - intros fid' src'. rewrite lookup_delete_Some, Hi. setoid_rewrite lookup_delete_Some.
    split.
    + intros [Hne (s & Hs & Hfs)]. exists s. split_and!; try done. congruence.
    + intros (s & [Hne Hs] & Hfs). split; [|eauto]. intros <-.
      assert (tn_flows t !! fid = Some src') by (apply Hi; eauto). congruence.
  - intros src' s [_ Hs]%lookup_delete_Some. eauto.
  - intros fid' src' [_ Hs]%lookup_delete_Some. eauto.
Qed.

Lemma establish_ok b t fid : tunnel_ok b t → tunnel_ok b (establish fid t).
Proof.
  intros Ht. unfold establish. destruct (tn_flows t !! fid) as [src|] eqn:E; [|done].
  apply (to_inverse _ _ Ht) in E as (st & Hst & Hfid). rewrite Hst.
  apply (tunnel_ok_set _ _ _ _ st); [done|by rewrite Hst| |by right].
  split; [unfold MAX_PENDING; simpl; lia|]. simpl. rewrite Hfid. by eauto.
Qed.

Lemma on_response_ok b t i ev : tunnel_ok b t → tunnel_ok b (on_response i ev t).
Proof.
  intros Ht. unfold on_response. destruct ev; try done; try by apply close_flow_ok.
  destruct (status_of _); [|done]. destruct (_ && _); [by apply establish_ok|by apply close_flow_ok].
Qed.

Lemma poll_responses_ok fuel h t h' t' :
  tunnel_ok (next_request h) t → poll_responses fuel h t = Some (h', t') →
  tunnel_ok (next_request h') t' ∧ next_request h' = next_request h.
Proof.
  intros Ht Hl. unfold poll_responses in Hl.
  eapply (loop_invariant _ (λ s, tunnel_ok (next_request s.1) s.2 ∧ next_request s.1 = next_request h)
    (λ s, tunnel_ok (next_request s.1) s.2 ∧ next_request s.1 = next_request h)) in Hl; [done|..|done].
  - intros [h1 t1] [h2 t2] [H1 H2]. cbn [fst snd] in *.
    destruct (poll _ _) as [[[i ev]|e] [h3 c3]] eqn:E; [|done]. apply poll_next in E.
    intros [= <- <-]. rewrite E. split; [|done]. by apply on_response_ok, tunnel_ok_conn.
  - intros [h1 t1] [h2 t2] [H1 H2]. cbn [fst snd] in *.
    destruct (poll _ _) as [[[i ev]|e] [h3 c3]] eqn:E; [done|]. apply poll_next in E.
    intros [= <- <-]. rewrite E. split; [|done]. by apply tunnel_ok_conn.
Qed.

(** ** Opening flows *)

(** A source without a flow gets the next stream. *)
Lemma opened_ok t c src st next :
  tunnel_ok next t → tn_by_addr t !! src = Some st → fs_flow_id st = None →
  (0 ≤ next)%Z → (next mod 4 = 0)%Z →
  let fid := (next / 4)%Z in
  tunnel_ok (next + 4)
    (mkTunnel c (<[src := mkFlowState (Some fid) (fs_established st) (fs_pending st)]> (tn_by_addr t))
       (<[fid := src]> (tn_flows t))).
Proof.
  intros [Hi Hf Hb] Hsrc Hfid H0 Hm fid.
  assert (4 * fid = next)%Z as H4.
  { unfold fid. apply Z.mod_divide in Hm as [k Hk]; [|done]. rewrite Hk, Z.div_mul by done. lia. }
  assert (tn_flows t !! fid = None) as Hfresh.
  { destruct (tn_flows t !! fid) eqn:Ef; [|done]. apply Hb in Ef. lia. }
  split; cbn [tn_by_addr tn_flows].
  - intros fid' src'. rewrite !lookup_insert_Some, Hi. setoid_rewrite lookup_insert_Some. split.
    + intros [[<- <-]|[Hnf (s & Hs & Hfs)]]; [by eexists; split; [by left|]|].
      exists s. split; [|done]. right. split; [congruence|done].
    + intros (s & [[<- <-]|[Hns Hs]] & Hfs).
      * left. by injection Hfs as <-.
      * right. split; [|eauto]. intros <-.
        assert (tn_flows t !! fid = Some src') by (apply Hi; eauto). congruence.
  - intros src' s. rewrite lookup_insert_Some. intros [[<- <-]|[_ Hs]]; [|eauto].
    destruct (Hf _ _ Hsrc) as [Hl He]. split; [done|]. cbn [fs_established fs_pending fs_flow_id].
    intros Hest. destruct (He Hest) as [_ [x Hx]]. congruence.
  - intros fid' src'. rewrite lookup_insert_Some. intros [[<- _]|[_ Hs]]; [lia|]. apply Hb in Hs. lia.
Qed.

(** The state of the loop of [open_pending_flows] with the entries [rest] to go. *)
Record opening (rest : list (SocketAddr * FlowState)) (s : H3 * Tunnel * list SocketAddr) : Prop := {
  op_ok : tunnel_ok (next_request s.1.1) s.1.2;
  op_rest p : p ∈ rest → tn_by_addr s.1.2 !! p.1 = Some p.2;
  op_nodup : NoDup rest.*1;
  op_dropped src : src ∈ s.2 → (src ∉ rest.*1) ∧
    ∀ st, tn_by_addr s.1.2 !! src = Some st → fs_flow_id st = None;
}.

Lemma open_one_ok hs p rest s : opening (p :: rest) s → opening rest (open_one hs s p).
Proof.
  destruct s as [[h t] dropped], p as [src st]. intros [Hok Hr Hnd Hd]. cbn [fst snd] in *.
  rewrite fmap_cons in Hnd. apply NoDup_cons in Hnd as [Hni Hnd]. cbn [fst] in *.
  assert (tn_by_addr t !! src = Some st) as Hsrc by (apply (Hr (src, st)); by left).
  assert (∀ q, q ∈ rest → q.1 ≠ src) as Hne.
  { intros q Hq Heq. apply Hni. rewrite <- Heq. by apply list_elem_of_fmap_2. }
  assert (∀ d, d ∈ dropped → (d ∉ rest.*1) ∧ d ≠ src) as Hd1.
  { intros d [H1 _]%Hd. rewrite fmap_cons, not_elem_of_cons in H1. by destruct H1. }
  cbn [open_one]. destruct (fs_flow_id st) as [fid0|] eqn:Hfid.
  { split; cbn [fst snd]; [done|intros; apply Hr; by right|done|].
    intros d Hin. split; [by apply Hd1|]. by apply Hd. }
  destruct (send_request h (tn_conn t) hs false) as [r [h' c]] eqn:E.
  apply request_next in E as (H0 & Hm & Hr').
  assert (∀ d, next_request h' = next_request h → opening rest
    (h', mkTunnel c (tn_by_addr t) (tn_flows t), d) ↔
    (∀ s0, s0 ∈ d → (s0 ∉ rest.*1) ∧ ∀ st, tn_by_addr t !! s0 = Some st → fs_flow_id st = None)) as Hkeep.
  { intros d Hn. split; [by intros [_ _ _ ?]|]. intros Hdd.
    split; cbn [fst snd]; [rewrite Hn; by apply tunnel_ok_conn|intros; apply Hr; by right|done|done]. }
  destruct r as [i|e].
  - destruct Hr' as [-> Hn]. split; cbn [fst snd tn_by_addr tn_flows].
    + rewrite Hn. by apply opened_ok.
    + intros q Hq. rewrite lookup_insert_ne by (symmetry; by apply Hne). apply Hr. by right.
    + done.
    + intros d Hin. split; [by apply Hd1|]. intros s. rewrite lookup_insert_ne; [by apply Hd|].
      intros Heq. by apply (Hd1 d).
  - assert (∀ s0, s0 ∈ dropped → (s0 ∉ rest.*1) ∧
      ∀ st, tn_by_addr t !! s0 = Some st → fs_flow_id st = None) as Hdd.
    { intros d Hin. split; [by apply Hd1|]. by apply Hd. }
    assert (∀ s0, s0 ∈ dropped ++ [src] → (s0 ∉ rest.*1) ∧
      ∀ st, tn_by_addr t !! s0 = Some st → fs_flow_id st = None) as Hdd'.
    { intros d [Hin| ->%list_elem_of_singleton]%elem_of_app; [by apply Hdd|].
      split; [done|]. intros s. by rewrite Hsrc; intros [= <-]. }
    destruct e; by apply Hkeep.
Qed.

Lemma open_fold_ok hs rest s : opening rest s → opening [] (fold_left (open_one hs) rest s).
Proof.
  revert s. induction rest as [|p rest IH]; intros s Hs; simpl; [done|]. by apply IH, open_one_ok.
Qed.

Lemma fold_delete_lookup {A} `{Countable K} (l : list K) (m : gmap K A) k :
  fold_left (λ m x, delete x m) l m !! k = if decide (k ∈ l) then None else m !! k.
Proof.
  revert m. induction l as [|x l IH]; intros m; cbn [fold_left]; [done|]. rewrite IH.
  destruct (decide (k = x)) as [->|Hne].
  - rewrite lookup_delete_eq, (decide_True (P := x ∈ x :: l)) by by left. by case_decide.
  - rewrite lookup_delete_ne by done. by destruct (decide (k ∈ l)), (decide (k ∈ x :: l)); set_solver.
Qed.

Lemma open_pending_flows_ok au pa h t h' t' :
  tunnel_ok (next_request h) t → open_pending_flows au pa h t = (h', t') →
  tunnel_ok (next_request h') t'.
Proof.
  intros Ht. unfold open_pending_flows. pose proof (iter_perm (tn_by_addr t)) as Hp.
  pose proof (open_fold_ok (connect_headers au pa) (iter (tn_by_addr t)) (h, t, [])) as Ho.
  destruct (fold_left _ _ _) as [[h1 t1] dropped]. intros [= <- <-].
  destruct Ho as [[Hi Hf Hb] _ _ Hd].
  { split; cbn [fst snd]; [done|..].
    - intros [src st]. rewrite Hp. apply elem_of_map_to_list.
    - rewrite Hp. apply NoDup_fst_map_to_list.
    - by intros src ?%not_elem_of_nil. }
  cbn [fst snd] in *. split; cbn [remove_sources tn_by_addr tn_flows]; [|..|done].
  - intros fid src. rewrite Hi. setoid_rewrite fold_delete_lookup. case_decide as Hin; [|done].
    split; [|naive_solver]. intros (st & Hst & Hfid). apply Hd in Hin as [_ Hin].
    apply Hin in Hst. congruence.
  - intros src st. rewrite fold_delete_lookup. case_decide; [done|]. apply Hf.
Qed.
End Inv.

(** ** Turns of a session *)

Section Turns.
Context {Conn H3 H3Config Sock : Type}.
Context `{Q : Quiche Conn H3 H3Config} {QT : QuicheStreams Q} {QD : QuicheDrains Q} {QSe : QuicheSends Q}.
Context {U : UdpSys Sock} {UP : UdpProgress U} `{HI : HashIter} (linux : bool).
Local Abbreviation Tunnel := (Tunnel Conn).
Local Abbreviation Session := (Session (Conn := Conn) (H3 := H3) (Sock := Sock)).
Implicit Types (t : Tunnel) (s : Session).

Lemma tunnel_target_returns flows buf : ∃ o, tunnel_target flows buf = Returns o.
Proof. unfold tunnel_target. destruct (decode_never_panics buf) as [o ->]. by eexists. Qed.

Lemma route_no_panic fuel flows c ls r :
  route_tunnel_datagrams linux fuel flows c ls = Some r → ∃ x, r = Returns x.
Proof.
  unfold route_tunnel_datagrams. intros H. destruct (loop _ _ _) as [o|] eqn:E; [|done].
  simpl in H. subst o.
  eapply (loop_invariant _ (λ _, True) (λ o, ∀ r, o = Some r → ∃ x, r = Returns x)) in E;
    [by apply E|..]; try done.
  intros [c1 s1] o _. unfold route_one. destruct (dgram_recv _ _) as [[buf|e] c2].
  - destruct (tunnel_target_returns flows buf) as [[[src data]|] ->]; [|done].
    destruct (send_udp _ _ _ _ _) as [[r0 s2]|]; [done|]. by intros [= <-].
  - intros [= <-] r' [= <-]. eauto.
Qed.

Lemma send_datagrams_events h fid l (c : Conn) :
  events h (fold_left (λ c data, send_datagram c fid data) l c) ≤ events h c.
Proof.
  revert c. induction l as [|d l IH]; intros c; simpl; [done|]. etransitivity; [apply IH|].
  unfold send_datagram. destruct (dgram_send _ _) as [r c'] eqn:E. by eapply dgram_send_keeps in E.
Qed.

Lemma on_response_events h i ev t : events h (tn_conn (on_response i ev t)) ≤ events h (tn_conn t).
Proof.
  assert (∀ fid, tn_conn (close_flow fid t) = tn_conn t) as Hc.
  { intros fid. unfold close_flow. by case_match. }
  unfold on_response. destruct ev; try done; try by rewrite Hc.
  destruct (status_of _); [|done]. destruct (_ && _); [|by rewrite Hc].
  unfold establish. destruct (tn_flows t !! _) as [src|]; [|done].
  destruct (tn_by_addr t !! src); [|done]. apply send_datagrams_events.
Qed.

Lemma poll_responses_settles h t : settles (λ f, poll_responses f h t).
Proof.
  unfold poll_responses. set (body := λ s : H3 * Tunnel, _).
  destruct (loop_terminates body (λ _, True) (λ x, events x.1 (tn_conn x.2)))
    with (S (events h (tn_conn t))) (h, t) as [r Hr]; [|done|simpl; lia|].
  - intros [h1 t1] [h2 t2] _. unfold body. cbn [fst snd].
    destruct (poll _ _) as [[[i ev]|e] [h3 c3]] eqn:E; [|done]. apply poll_drains in E.
    intros [= <- <-]. split; [done|].
    eapply Nat.le_lt_trans; [apply on_response_events|]. done.
  - exists (S (events h (tn_conn t))), r. intros f Hf. by eapply loop_mono.
Qed.

Lemma route_settles flows c ls : settles (λ f, route_tunnel_datagrams linux f flows c ls).
Proof.
  apply (settles_loop (λ f, route_one linux f flows) (λ x, datagrams x.1)). clear c ls.
  intros [c ls]. unfold route_one. destruct (dgram_recv _ _) as [[buf|e] c'] eqn:E.
  2:{ exists 0. eexists. split; [reflexivity|by eexists]. }
  apply dgram_drains in E.
  destruct (tunnel_target_returns flows buf) as [[[src data]|] ->].
  - unfold send_udp. destruct (send_batch_settles linux (SendBatch.push_first SendBatch.new data src) ls)
      as (f & [[r ls'] b] & Hr).
    exists f. eexists. split; [intros f' Hf'; rewrite Hr by done; reflexivity|done].
  - exists 0. eexists. by split; [reflexivity|].
Qed.

Lemma serve_http3_settles s : settles (λ f, serve_http3 linux f s).
Proof.
  unfold serve_http3. destruct (se_http3 s) as [h|]; [|apply settles_const].
  destruct (open_pending_flows _ _ _ _) as [h1 t1].
  destruct (poll_responses_settles h1 t1) as (f1 & [h2 t2] & H1).
  destruct (route_settles (tn_flows t2) (tn_conn t2) (se_lsock s)) as (f2 & r & H2).
  exists (max f1 f2). destruct r as [[c ls]|]; eexists; intros f Hf;
    rewrite H1 by lia; rewrite H2 by lia; reflexivity.
Qed.

Lemma session_turn_settles h3c w s : settles (λ f, session_turn linux f h3c w s).
Proof.
  unfold session_turn. destruct (wk_recv_ended w); [apply settles_const|]. cbv zeta.
  destruct (is_closed _); [apply settles_const|].
  destruct (start_http3 _ _) as [s1|]; [|apply settles_const].
  destruct (serve_http3_settles (set_tunnel s1 (fold_left queue_local (wk_local_pkts w) (se_tunnel s1))))
    as (f1 & [s2|] & H1).
  2:{ exists f1. eexists. intros f Hf. rewrite H1 by done. reflexivity. }
  destruct (flush_connection_settles linux (se_qsock s2) (tn_conn (se_tunnel s2))) as (f2 & [[u|e] st] & H2);
    exists (max f1 f2); eexists; intros f Hf; rewrite H1 by lia; rewrite H2 by lia; reflexivity.
Qed.

(** The invariant of a session: without HTTP/3 there are no flows. *)
Definition session_ok s : Prop :=
  tunnel_ok (match se_http3 s with Some h => next_request h | None => 0%Z end) (se_tunnel s).

Lemma start_http3_ok h3c s s' : session_ok s → start_http3 h3c s = Some s' → session_ok s'.
Proof.
  intros Hs. unfold start_http3. destruct (_ && _) eqn:E; [|by intros [= <-]].
  bools. destruct (with_transport _ _) as [[h|e] c]; [|done]. intros [= <-].
  unfold session_ok in *. rewrite H0 in Hs. cbn [se_http3 se_tunnel].
  destruct Hs as [Hi Hf Hb]. split; [done|done|]. intros fid src Hfs. apply Hb in Hfs. lia.
Qed.

Lemma serve_http3_ok fuel s r :
  session_ok s → serve_http3 linux fuel s = Some r → ∃ s', r = Returns s' ∧ session_ok s'.
Proof.
  unfold session_ok, serve_http3. intros Hs. destruct (se_http3 s) as [h|] eqn:Eh.
  2:{ intros [= <-]. exists s. by rewrite Eh. }
  destruct (open_pending_flows _ _ _ _) as [h1 t1] eqn:Eo. eapply open_pending_flows_ok in Eo; [|done].
  destruct (poll_responses _ _ _) as [[h2 t2]|] eqn:Ep; [|done].
  eapply poll_responses_ok in Ep as [Ep _]; [|done].
  destruct (route_tunnel_datagrams _ _ _ _ _) as [r'|] eqn:Er; [|done].
  apply route_no_panic in Er as [[c ls] ->]. intros [= <-]. eexists. split; [reflexivity|].
  by apply tunnel_ok_conn.
Qed.

Lemma session_turn_ok fuel h3c w s r :
  session_ok s → session_turn linux fuel h3c w s = Some r →
  ∃ x, r = Returns x ∧ ∀ s', x = inl s' → session_ok s'.
Proof.
  intros Hs. unfold session_turn. destruct (wk_recv_ended w); [intros [= <-]; by eexists|]. cbv zeta.
  destruct (is_closed _); [intros [= <-]; by eexists|].
  destruct (start_http3 _ _) as [s1|] eqn:E1; [|intros [= <-]; by eexists].
  eapply start_http3_ok in E1; [|by apply tunnel_ok_conn].
  destruct (serve_http3 _ _ _) as [r2|] eqn:E2; [|done].
  eapply serve_http3_ok in E2 as (s2 & -> & H2); [|by apply queue_locals_ok].
  destruct (flush_connection _ _ _ _) as [[[u|e] st]|]; [| |done].
  - intros [= <-]. eexists. split; [reflexivity|]. intros s' [= <-]. by apply tunnel_ok_conn.
  - intros [= <-]. by eexists.
Qed.

(** The states a session goes through; between its turns the receive tasks use the
    sockets. *)
Inductive session_reachable : Session → Prop :=
| session_begins fuel d lsock s :
    session_start linux fuel d lsock = Some (inl s) → session_reachable s
| session_goes_on fuel h3c w s s' :
    session_reachable s → session_turn linux fuel h3c w s = Some (Returns (inl s')) →
    session_reachable s'
| session_receives s qsock lsock :
    session_reachable s → session_reachable (set_sockets s qsock lsock).

Lemma session_reachable_ok s : session_reachable s → session_ok s.
Proof.
  induction 1 as [fuel d ls s H|fuel h3c w s s' _ IH H|s q l _ IH]; [..|exact IH].
  - unfold session_start in H. destruct (flush_connection _ _ _ _) as [[[u|e] st]|]; try done.
    injection H as <-. split; cbn [se_tunnel tn_by_addr tn_flows].
    + intros fid src. setoid_rewrite lookup_empty. naive_solver.
    + intros src st0 H. by rewrite lookup_empty in H.
    + intros fid src H. by rewrite lookup_empty in H.
  - eapply session_turn_ok in H as (x & [= <-] & Hx); eauto.
Qed.

(** The session reports what it has: it is established when HTTP/3 is there. *)
Definition reports s : Prop := se_established s = true ↔ is_Some (se_http3 s).

Lemma start_http3_reports h3c s s' : reports s → start_http3 h3c s = Some s' → reports s'.
Proof.
  unfold reports, start_http3. intros Hs. destruct (_ && _); [|by intros [= <-]].
  destruct (with_transport _ _) as [[h|e] c]; [|done]. intros [= <-]. cbn. by eauto.
Qed.

Lemma serve_http3_reports fuel s s' :
  reports s → serve_http3 linux fuel s = Some (Returns s') →
  reports s' ∧ se_established s' = se_established s.
Proof.
  unfold reports, serve_http3. intros Hs. destruct (se_http3 s) as [h|] eqn:E; [|intros [= <-]; by rewrite E].
  destruct (open_pending_flows _ _ _ _) as [h1 t1]. destruct (poll_responses _ _ _) as [[h2 t2]|]; [|done].
  destruct (route_tunnel_datagrams _ _ _ _ _) as [[[c ls]|]|]; try done. intros [= <-]. cbn.
  split; [|done]. rewrite Hs. split; eauto.
Qed.

Lemma start_http3_keeps h3c s s' :
  start_http3 h3c s = Some s' → se_established s = true → se_established s' = true.
Proof.
  unfold start_http3. destruct (_ && _); [|by intros [= <-]].
  by destruct (with_transport _ _) as [[h|e] c]; [intros [= <-]|].
Qed.

(** What a turn reports when it ends the session, and when it goes on. *)
Lemma session_turn_reports fuel h3c w s x :
  reports s → session_turn linux fuel h3c w s = Some (Returns x) →
  match x with
  | inl s' => reports s' ∧ (se_established s = true → se_established s' = true)
  | inr s' => se_established s = true → se_established s' = true
  end.
Proof.
  intros Hs. unfold session_turn. destruct (wk_recv_ended w); [by intros [= <-]|]. cbv zeta.
  destruct (is_closed _); [by intros [= <-]|].
  destruct (start_http3 _ _) as [s1|] eqn:E1; [|by intros [= <-]].
  pose proof (start_http3_keeps _ _ _ E1) as Hk. apply start_http3_reports in E1; [|done].
  destruct (serve_http3 _ _ _) as [[s2|]|] eqn:E2; [|done..].
  apply serve_http3_reports in E2 as [E2 He]; [|done]. cbn [set_tunnel se_established] in *.
  destruct (flush_connection _ _ _ _) as [[[u|e] st]|]; [| |done]; intros [= <-].
  - split; [done|]. cbn. rewrite He. done.
  - rewrite He. done.
Qed.

Lemma session_reachable_reports s : session_reachable s → reports s.
Proof.
  induction 1 as [fuel d ls s H|fuel h3c w s s' _ IH H|s q l _ IH]; [..|exact IH].
  - unfold session_start in H. destruct (flush_connection _ _ _ _) as [[[u|e] st]|]; try done.
    injection H as <-. unfold reports. cbn. split; [done|by intros []].
  - by apply session_turn_reports in H as [H _].
Qed.

(** C15: In every state of a session the two tables are inverse to each other: a flow id
    leads to the source that holds it and to no other.  No source has more than
    [MAX_PENDING] datagrams waiting, and a source whose flow is established has a
    flow id and nothing waiting.  The session counts as established exactly when it
    has an HTTP/3 connection. *)
Theorem client_coherent s :
  session_reachable s →
  let t := se_tunnel s in
  (∀ fid src, tn_flows t !! fid = Some src ↔
     ∃ st, tn_by_addr t !! src = Some st ∧ fs_flow_id st = Some fid) ∧
  (∀ src st, tn_by_addr t !! src = Some st →
     length (fs_pending st) ≤ MAX_PENDING ∧
     (fs_established st = true → fs_pending st = [] ∧ is_Some (fs_flow_id st))) ∧
  (se_established s = true ↔ is_Some (se_http3 s)).
Proof.
  intros Hs. pose proof (session_reachable_reports s Hs). apply session_reachable_ok in Hs as [Hi Hf _].
  by split_and!.
Qed.

Lemma session_loop_app fuel h3c ws1 ws2 s :
  session_loop linux fuel h3c (ws1 ++ ws2) s =
  match session_loop linux fuel h3c ws1 s with
  | Some (Returns (inl s')) => session_loop linux fuel h3c ws2 s'
  | r => r
  end.
Proof.
  revert s. induction ws1 as [|w ws1 IH]; intros s; cbn [app session_loop]; [done|].
  destruct (session_turn _ _ _ _ _) as [[[s'|b]|]|]; auto.
Qed.

Lemma session_loop_returns h3c ws s :
  session_reachable s →
  ∃ fuel0 x, (∀ fuel, fuel0 ≤ fuel → session_loop linux fuel h3c ws s = Some (Returns x)) ∧
    (∀ s', x = inl s' → session_reachable s') ∧
    (se_established s = true → ∀ b, x = inr b → b = true).
Proof.
  revert s. induction ws as [|w ws IH]; intros s Hs; cbn [session_loop].
  { exists 0, (inl s). split_and!; [done| |done]. by intros s' [= <-]. }
  destruct (session_turn_settles h3c w s) as (f & r & H).
  destruct (session_turn_ok f h3c w s r (session_reachable_ok _ Hs) (H f (le_n f))) as (x & -> & _).
  pose proof (session_turn_reports f h3c w s x (session_reachable_reports _ Hs) (H f (le_n f))) as Hrep.
  destruct x as [s1|s1].
  - destruct (IH s1) as (f1 & x & H1 & Hx & Hb).
    { eapply session_goes_on; [exact Hs|]. by apply (H f). }
    exists (max f f1), x. split_and!; [|done|].
    + intros fuel Hf. rewrite H by lia. apply H1. lia.
    + intros He. apply Hb. by apply Hrep.
  - exists f, (inr (se_established s1)). split_and!; [by intros fuel Hf; rewrite H by lia|done|].
    intros He b' [= <-]. by apply Hrep.
Qed.

Lemma session_start_settles d ls : settles (λ f, session_start linux f d ls).
Proof.
  unfold session_start.
  destruct (flush_connection_settles linux (di_socket d) (di_conn d)) as (f & [[u|e] st] & H);
    exists f; eexists; intros f' Hf'; rewrite H by lia; reflexivity.
Qed.

(** A session always comes to a result, whatever its turns receive and whichever
    timers fire, and it never panics: from some fuel on it returns one and the same
    outcome, which is a reachable state when it goes on.  It ends with [false], so
    that the backoff keeps growing, when dialing, the HTTP/3 configuration or the
    initial flush fails, and with [true] whenever HTTP/3 was once set up. *)
Theorem client_session_runs {E1 E2 : Type} (dialed : result E1 (Dialed Conn Sock))
    (h3c : result E2 H3Config) (lsock : Sock) (ws : list Wakeup) :
  ∃ fuel0 x, (∀ fuel, fuel0 ≤ fuel → run_session linux fuel dialed h3c lsock ws = Some (Returns x)) ∧
    match dialed, h3c with
    | Ok d, Ok cfg =>
        (∀ s, x = inl s → session_reachable s) ∧
        (∀ f, (∀ fuel, f ≤ fuel → session_start linux fuel d lsock = Some (inr false)) → x = inr false) ∧
        (∀ f ws1 ws2 s, ws = ws1 ++ ws2 → is_Some (se_http3 s) →
           (∀ fuel, f ≤ fuel → run_session linux fuel dialed h3c lsock ws1 = Some (Returns (inl s))) →
           x ≠ inr false)
    | _, _ => x = inr false
    end.
Proof.
  destruct dialed as [d|e]; [|by exists 0, (inr false)].
  destruct h3c as [cfg|e]; [|by exists 0, (inr false)]. cbn [run_session].
  destruct (session_start_settles d lsock) as (f & [s|b] & H).
  - assert (session_reachable s) as Hs by (eapply session_begins; by apply (H f)).
    destruct (session_loop_returns cfg ws s Hs) as (f1 & x & H1 & Hx & _).
    exists (max f f1), x. split; [intros fuel Hf; rewrite H by lia; apply H1; lia|].
    split_and!; [done| |].
    + intros f2 H2. specialize (H2 (max f f2) ltac:(lia)). rewrite H in H2 by lia. done.
    + intros f2 ws1 ws2 s2 -> Hh H2.
      assert (session_reachable s2) as Hs2.
      { destruct (session_loop_returns cfg ws1 s Hs) as (f3 & y & H3' & Hy & _).
        specialize (H2 (max f (max f2 f3)) ltac:(lia)). rewrite H, H3' in H2 by lia.
        apply Hy. congruence. }
      destruct (session_loop_returns cfg ws2 s2 Hs2) as (f3 & y & H3' & _ & Hy).
      specialize (H2 (max (max f f1) (max f2 f3)) ltac:(lia)). rewrite H in H2 by lia.
      specialize (H1 (max (max f f1) (max f2 f3)) ltac:(lia)).
      rewrite session_loop_app, H2, H3' in H1 by lia. assert (y = x) as -> by congruence.
      intros ->. discriminate (Hy (proj2 (session_reachable_reports _ Hs2) Hh) false eq_refl).
  - assert (b = false) as ->.
    { specialize (H f (le_n f)). unfold session_start in H.
      destruct (flush_connection _ _ _ _) as [[[u|e] st]|]; congruence. }
    exists f, (inr false). split; [intros fuel Hf; by rewrite H by lia|]. split_and!; [done|done|].
    intros f2 ws1 ws2 s2 -> _ H2. specialize (H2 (max f f2) ltac:(lia)). rewrite H in H2 by lia. done.
Qed.
End Turns.

(** ** Order *)

Section Fifo.
Context {Conn H3 H3Config : Type} `{QG : QuicheDgrams Conn H3 H3Config} `{HI : HashIter}.
Local Abbreviation Tunnel := (Tunnel Conn).
Implicit Types (t : Tunnel) (c : Conn).

Definition payloads (fid : Z) c : list bytes := omap (payload_for fid) (dg_log c).

(** What a flow has sent, then what its source has waiting: an abstract queue. *)
Definition flow_queue t (fid : Z) (src : SocketAddr) : list bytes :=
  payloads fid (tn_conn t) ++ fs_pending (default new_flow (tn_by_addr t !! src)).

Lemma send_datagram_payloads fid fid' c data :
  in_width 62 fid →
  ∃ l, sublist l [data] ∧
    payloads fid' (send_datagram c fid data) = payloads fid' c ++ (if (fid =? fid')%Z then l else []) ∧
    (is_ok (dgram_send c (Dgram.encode fid data)).1 = true → l = [data]).
Proof.
  intros Hf. unfold send_datagram, payloads.
  destruct (dgram_send _ _) as [r c'] eqn:E. apply dgram_send_log in E. cbn [fst snd]. rewrite E.
  destruct (is_ok r).
  - exists [data]. split; [done|]. split; [|done]. rewrite omap_app. simpl.
    rewrite payload_for_encode by done. by destruct (fid =? fid')%Z.
  - exists []. split; [apply sublist_nil_l|]. split; [|done]. destruct (fid =? fid')%Z; by rewrite app_nil_r.
Qed.

Lemma send_datagrams_payloads fid fid' l c :
  in_width 62 fid →
  ∃ l', sublist l' l ∧
    payloads fid' (fold_left (λ c data, send_datagram c fid data) l c) =
    payloads fid' c ++ (if (fid =? fid')%Z then l' else []).
Proof.
  intros Hf. revert c. induction l as [|d l IH]; intros c; cbn [fold_left].
  - exists []. split; [done|]. destruct (fid =? fid')%Z; by rewrite app_nil_r.
  - destruct (send_datagram_payloads fid fid' c d Hf) as (l1 & Hl1 & H1 & _).
    destruct (IH (send_datagram c fid d)) as (l2 & Hl2 & H2). exists (l1 ++ l2).
    split; [by apply (sublist_app _ [d])|]. rewrite H2, H1, <- app_assoc.
    f_equal. by destruct (fid =? fid')%Z.
Qed.

Lemma queue_local_known t data src st fid :
  tn_by_addr t !! src = Some st → fs_flow_id st = Some fid →
  queue_local t (data, src) =
  if fs_established st then
    mkTunnel (send_datagram (tn_conn t) fid data) (<[src := st]> (tn_by_addr t)) (tn_flows t)
  else
    mkTunnel (tn_conn t)
      (<[src := if length (fs_pending st) <? MAX_PENDING
                then mkFlowState (Some fid) false (fs_pending st ++ [data]) else st]> (tn_by_addr t))
      (tn_flows t).
Proof.
  intros Hs Hf. unfold queue_local. rewrite Hs. change (default new_flow (Some st)) with st.
  destruct st as [? [] ?]; simpl in Hf; by rewrite Hf.
Qed.

Lemma queue_local_unknown t data src' src :
  fs_flow_id (default new_flow (tn_by_addr t !! src')) = None → src' ≠ src →
  tn_conn (queue_local t (data, src')) = tn_conn t ∧
  tn_by_addr (queue_local t (data, src')) !! src = tn_by_addr t !! src.
Proof.
  intros Hf Hne. unfold queue_local. rewrite Hf. destruct (fs_established _); simpl;
    by rewrite lookup_insert_ne.
Qed.

(** Each flow is a queue.  A local datagram is added at the end of the queue of its
    source's flow or dropped, whether it is sent at once or has to wait, and no other
    flow's queue changes; before the proxy has accepted the flow nothing is handed to
    the connection.  When the proxy accepts, what waited is sent in the order of
    arrival: the queue keeps its order and at most loses datagrams the connection
    refused. *)
Theorem tunnel_fifo t (b fid : Z) (src : SocketAddr) (st : FlowState) :
  tunnel_ok b t → (b ≤ 2 ^ 62)%Z → tn_by_addr t !! src = Some st → fs_flow_id st = Some fid →
  (∀ data src',
     ∃ l, sublist l [data] ∧
       flow_queue (queue_local t (data, src')) fid src =
       flow_queue t fid src ++ (if bool_decide (src' = src) then l else [])) ∧
  (fs_established st = false → ∀ data, tn_conn (queue_local t (data, src)) = tn_conn t) ∧
  sublist (flow_queue (establish fid t) fid src) (flow_queue t fid src).
Proof.
  intros Hok Hb Hst Hfid.
  assert (∀ src st fid, tn_by_addr t !! src = Some st → fs_flow_id st = Some fid →
            tn_flows t !! fid = Some src ∧ in_width 62 fid) as Hids.
  { intros s0 st0 f0 H1 H2. assert (tn_flows t !! f0 = Some s0) as Hf by (apply (to_inverse _ _ Hok); eauto).
    split; [done|]. apply (to_bound _ _ Hok) in Hf. unfold in_width. lia. }
  destruct (Hids _ _ _ Hst Hfid) as [Hfl Hw].
  pose proof (to_flow _ _ Hok src st Hst) as [_ Hest]. split_and!.
  - intros data src'. destruct (fs_flow_id (default new_flow (tn_by_addr t !! src'))) as [fid'|] eqn:Hf'.
    2:{ exists []. split; [apply sublist_nil_l|]. assert (src' ≠ src) by (intros ->; rewrite Hst in Hf'; simpl in Hf'; congruence).
        rewrite bool_decide_false, app_nil_r by done. unfold flow_queue.
        by destruct (queue_local_unknown t data src' src Hf') as [-> ->]. }
    destruct (tn_by_addr t !! src') as [st'|] eqn:E'; [|done]. simpl in Hf'.
    destruct (Hids _ _ _ E' Hf') as [Hfl' Hw'].
    pose proof (to_flow _ _ Hok src' st' E') as [_ Hest'].
    assert (src' ≠ src → fid' ≠ fid) as Hne by (intros Hn ->; congruence).
    rewrite (queue_local_known _ _ _ _ _ E' Hf'). unfold flow_queue.
    destruct (fs_established st') eqn:Ee; cbn [tn_conn tn_by_addr].
    + destruct (send_datagram_payloads fid' fid (tn_conn t) data Hw') as (l & Hl & -> & _).
      exists l. split; [done|]. destruct (Hest' eq_refl) as [Hp _].
      case_bool_decide as Hs; [subst src'|].
      * rewrite lookup_insert_eq, E'. assert (fid' = fid) as -> by congruence.
        rewrite Z.eqb_refl. simpl. by rewrite Hp, !app_nil_r.
      * rewrite lookup_insert_ne by done. apply Hne in Hs. apply Z.eqb_neq in Hs.
        by rewrite Hs, !app_nil_r.
    + case_bool_decide as Hs; [subst src'|].
      * rewrite lookup_insert_eq, E'. unfold default, from_option, id.
        destruct (length (fs_pending st') <? MAX_PENDING); cbn [fs_pending].
        -- exists [data]. by rewrite app_assoc.
        -- exists []. rewrite app_nil_r. split; [apply sublist_nil_l|done].
      * exists []. rewrite lookup_insert_ne by done. rewrite app_nil_r.
        split; [apply sublist_nil_l|done].
  - intros He data. by rewrite (queue_local_known _ _ _ _ _ Hst Hfid), He.
  - unfold flow_queue, establish. rewrite Hfl, Hst. cbn [tn_conn tn_by_addr]. rewrite lookup_insert_eq. unfold default, from_option, id. cbn [fs_pending].
    destruct (send_datagrams_payloads fid fid (fs_pending st) (tn_conn t) Hw) as (l' & Hl & ->).
    rewrite Z.eqb_refl, app_nil_r. by apply sublist_app.
Qed.

(** When the proxy refuses, finishes or resets a flow, its source is forgotten and
    the id with it, so that the next datagram of that source starts a flow afresh;
    other sources keep their flows. *)
Theorem closed_flow_reopens t (b fid : Z) (src : SocketAddr) :
  tunnel_ok b t → tn_flows t !! fid = Some src →
  let t' := close_flow fid t in
  tn_flows t' !! fid = None ∧ tn_by_addr t' !! src = None ∧
  (∀ data, tn_by_addr (queue_local t' (data, src)) !! src = Some (mkFlowState None false [data])) ∧
  (∀ src', src' ≠ src → tn_by_addr t' !! src' = tn_by_addr t !! src') ∧
  (∀ fid', fid' ≠ fid → tn_flows t' !! fid' = tn_flows t !! fid').
Proof.
  intros Hok Hf. cbv zeta. unfold close_flow. rewrite Hf. cbn [tn_flows tn_by_addr].
  split_and!.
  - by rewrite lookup_delete_eq.
  - by rewrite lookup_delete_eq.
  - intros data. unfold queue_local. cbn [tn_by_addr tn_conn tn_flows].
    rewrite lookup_delete_eq. simpl. by rewrite lookup_insert_eq.
  - intros src' Hs. by rewrite lookup_delete_ne.
  - intros fid' Hs. by rewrite lookup_delete_ne.
Qed.
End Fifo.

(** ** Reconnecting *)

Definition backoff_after (k : nat) : Z := Z.min (RECONNECT_MIN * 2 ^ Z.of_nat k) RECONNECT_MAX.

Lemma sleeps_failures k j :
  sleeps (backoff_after j) (replicate k false) = backoff_after <$> seq j k.
Proof.
  revert j. induction k as [|k IH]; intros j; [done|]. cbn [replicate sleeps reconnect seq fmap list_fmap].
  f_equal. rewrite <- IH. f_equal. unfold backoff_after.
  replace (Z.of_nat (S j)) with (Z.of_nat j + 1)%Z by lia. rewrite Z.pow_add_r by lia.
  unfold RECONNECT_MIN, RECONNECT_MAX, from_millis, from_secs.
  pose proof (Z.pow_pos_nonneg 2 (Z.of_nat j) ltac:(lia) ltac:(lia)). lia.
Qed.

Lemma sleeps_bounds b l :
  (RECONNECT_MIN ≤ b ≤ RECONNECT_MAX)%Z →
  Forall (λ d, RECONNECT_MIN ≤ d ≤ RECONNECT_MAX)%Z (sleeps b l).
Proof.
  revert b. induction l as [|e l IH]; intros b Hb; cbn [sleeps reconnect]; [constructor|].
  assert (RECONNECT_MIN ≤ (if e then RECONNECT_MIN else b) ≤ RECONNECT_MAX)%Z as Hd.
  { destruct e; [|done]. by vm_compute. }
  constructor; [done|]. apply IH. unfold RECONNECT_MIN, RECONNECT_MAX, from_millis, from_secs in *. lia.
Qed.

Lemma sleeps_app b l l' : ∃ b', sleeps b (l ++ l') = sleeps b l ++ sleeps b' l'.
Proof.
  revert b. induction l as [|e l IH]; intros b; [by exists b|]. cbn [sleeps reconnect app].
  destruct (IH (Z.min ((if e then RECONNECT_MIN else b) * 2) RECONNECT_MAX)) as [b' ->]. by exists b'.
Qed.

(** The client never waits less than 100 ms or more than 5 s before it reconnects;
    after a session that was established the delays start again at 100 ms and double
    with every further failure, up to 5 s. *)
Theorem reconnect_backoff (sessions : list bool) (k : nat) :
  Forall (λ d, RECONNECT_MIN ≤ d ≤ RECONNECT_MAX)%Z (run_proxy_sleeps sessions) ∧
  run_proxy_sleeps (replicate k false) = backoff_after <$> seq 0 k ∧
  ∃ before, run_proxy_sleeps (sessions ++ true :: replicate k false) =
    before ++ (backoff_after <$> seq 0 (S k)).
Proof.
  unfold run_proxy_sleeps. split_and!.
  - apply sleeps_bounds. by vm_compute.
  - apply (sleeps_failures k 0).
  - destruct (sleeps_app RECONNECT_MIN sessions (true :: replicate k false)) as [b' ->].
    exists (sleeps RECONNECT_MIN sessions). f_equal. cbn [sleeps reconnect seq fmap list_fmap].
    f_equal. apply (sleeps_failures k 1).
Qed.

(** ** A run *)

(** A session in which one local source has sent "ping", got flow 0 and the proxy's 200,
    and "pong" has come back. *)
Definition sample_conn : lconn :=
  mkLconn [(str "hello", SockV4 1 443)] [Dgram.encode 0 (str "pong")] []
    [(0%Z, Headers [mkHeader (str ":status") (str "200")])] [] [] [] true false [].

Local Abbreviation LSession := (Session (Conn := lconn) (H3 := Z) (Sock := lsock)).

Definition sample_start : option (LSession + bool) :=
  session_start (Q := LoopQuiche) (U := LoopUdp) true 9
    (mkDialed idle_sock sample_conn (SockV4 9 9) (str "/masque") (str "a.example.com:4433")) idle_sock.

Definition sample_se0 : LSession :=
  match sample_start with
  | Some (inl s) => s
  | _ => mkClientSession idle_sock idle_sock (SockV4 9 9) [] [] None false (mkTunnel idle_conn ∅ ∅)
  end.

Lemma sample_start_ok : sample_start = Some (inl sample_se0).
Proof.
  assert (match sample_start with Some (inl _) => true | _ => false end = true)
    as H by (vm_compute; reflexivity).
  unfold sample_se0. by destruct sample_start as [[s|]|].
Qed.

Definition sample_turn : option (panics (LSession + LSession)) :=
  session_turn (Q := LoopQuiche) (U := LoopUdp) (HI := HashIterStd) true 9 tt
    (mkWakeup [] [(str "ping", SockV4 2 7)] false false false) sample_se0.

Definition sample_se1 : LSession :=
  match sample_turn with Some (Returns (inl s)) => s | _ => sample_se0 end.

Lemma sample_turn_ok : sample_turn = Some (Returns (inl sample_se1)).
Proof.
  assert (match sample_turn with Some (Returns (inl _)) => true | _ => false end = true)
    as H by (vm_compute; reflexivity).
  unfold sample_se1. by destruct sample_turn as [[[s|]|]|].
Qed.

Lemma sample_session_reachable :
  session_reachable (Q := LoopQuiche) (U := LoopUdp) (HI := HashIterStd) true sample_se1.
Proof.
  eapply session_goes_on; [|exact sample_turn_ok]. eapply session_begins. exact sample_start_ok.
Qed.

(** "ping" went out on flow 0 once the 200 was there, and "pong" reached the source. *)
Lemma sample_session_effects :
  l_dg_out (tn_conn (se_tunnel sample_se1)) = [Dgram.encode 0 (str "ping")] ∧
  ls_wire (se_lsock sample_se1) = [(Some (SockV4 2 7), str "pong")].
Proof. vm_compute. split; reflexivity. Qed.

Lemma client_coherent_witness :
  (∃ st, tn_by_addr (se_tunnel sample_se1) !! SockV4 2 7 = Some st ∧ fs_flow_id st = Some 0%Z) ∧
  tn_flows (se_tunnel sample_se1) !! 0%Z = Some (SockV4 2 7).
Proof.
  assert (tn_flows (se_tunnel sample_se1) !! 0%Z = Some (SockV4 2 7)) as H by (vm_compute; reflexivity).
  split; [|exact H].
  exact (proj1 (proj1 (client_coherent (QT := LoopStreams) (HI := HashIterStd) true
    sample_se1 sample_session_reachable) 0%Z (SockV4 2 7)) H).
Defined.

Lemma sample_tunnel_ok : tunnel_ok 4 (se_tunnel sample_se1).
Proof.
  pose proof (session_reachable_ok (QT := LoopStreams) true _ sample_session_reachable) as H.
  unfold session_ok in H. assert (se_http3 sample_se1 = Some 1%Z) as E by (vm_compute; reflexivity).
  rewrite E in H. exact H.
Qed.

Lemma tunnel_fifo_witness :
  ∃ l, sublist l [str "more"] ∧
    flow_queue (QG := LoopDgrams) (queue_local (Q := LoopQuiche) (se_tunnel sample_se1)
      (str "more", SockV4 2 7)) 0 (SockV4 2 7) =
    flow_queue (QG := LoopDgrams) (se_tunnel sample_se1) 0 (SockV4 2 7) ++ l.
Proof.
  destruct (tn_by_addr (se_tunnel sample_se1) !! SockV4 2 7) as [st|] eqn:E.
  - assert (fs_flow_id st = Some 0%Z) as Hf.
    { assert ((tn_by_addr (se_tunnel sample_se1) !! SockV4 2 7) ≫= fs_flow_id = Some 0%Z) as H
        by (vm_compute; reflexivity). rewrite E in H. exact H. }
    destruct (tunnel_fifo (QG := LoopDgrams) (se_tunnel sample_se1) 4 0 (SockV4 2 7) st
      sample_tunnel_ok ltac:(lia) E Hf) as [H _].
    exact (H (str "more") (SockV4 2 7)).
  - exfalso. assert (bool_decide (is_Some (tn_by_addr (se_tunnel sample_se1) !! SockV4 2 7)) = true) as H
      by (vm_compute; reflexivity). rewrite E in H. discriminate H.
Defined.

Lemma closed_flow_reopens_witness :
  tn_by_addr (close_flow 0 (se_tunnel sample_se1)) !! SockV4 2 7 = None.
Proof.
  exact (proj1 (proj2 (closed_flow_reopens (Q := LoopQuiche) (se_tunnel sample_se1) 4 0 (SockV4 2 7)
    sample_tunnel_ok ltac:(vm_compute; reflexivity)))).
Defined.
