(* ===== verification/Dialing.v ===== *)
(** * Dialing (src/client.rs, [dial])

    What a dial that succeeded has done: the connection it returns was made with the
    configuration the options ask for, under the name in the endpoint, to the right
    address, over a socket that is bound in that address's family and connected to
    nothing. *)

From S2P Require Import Prelude.
From S2P Require Import RustStr.
From S2P Require Import Net.
From S2P Require Import Endpoint.
From S2P Require Import Quiche.
From S2P Require Import Loopback.
From S2P Require Import Sockets.
From S2P Require Import EchKey.
From S2P Require Import Tls.
From S2P Require Import Client.

Section Dialing.
Context {Conn Sock Os IoError : Type}.
Context `{SL : SocketLaws Sock Os} `{QC : QuicheClient Conn Config}.
Context (linux : bool) (to_socket_addrs : bytes → result IoError (list SocketAddr)).
Context (accepts : list call → call → bool) (exists_ : Path → bool).
Context (sock_local_addr : Sock → result io_error SocketAddr).

(** Options a socket for [bind_udp] is given. *)
Definition gro_opt (op : sockop) : Prop := op = SetOpt SOL_UDP UDP_GRO 1.

Lemma bind_udp_log os addr s os' :
  bind_udp linux os addr = (Ok s, os') →
  ∃ gro, Forall gro_opt gro ∧ (linux = false → gro = []) ∧
    history s = [BoundTo addr; SetNonblocking] ++ gro.
Proof.
  unfold bind_udp. destruct (udp_bind os addr) as [[s0|e] os1] eqn:Eb; [|done].
  apply udp_bind_log in Eb. destruct (set_nonblocking s0) as [[u|e] s1] eqn:En; [|done].
  apply set_nonblocking_log in En. cbn [is_ok] in En. rewrite Eb in En.
  destruct (from_std _) as [s2|e] eqn:Ef; [|done]. apply from_std_log in Ef.
  intros [= <- _]. unfold enable_udp_gro in Ef. destruct linux.
  - destruct (set_sockopt_int SOL_UDP UDP_GRO 1 s1) as [r s3] eqn:Es. apply set_sockopt_int_log in Es.
    cbn [snd] in Ef. rewrite Ef, Es, En. destruct (is_ok r).
    + exists [SetOpt SOL_UDP UDP_GRO 1]. split_and!; [by constructor|done|done].
    + exists []. split_and!; [constructor|done|done].
  - rewrite Ef, En. by exists [].
Qed.

(** C33: A dial that succeeds has done what it was asked to.  The connection was opened
    under the host of the endpoint's authority, to the overriding proxy address or else
    to the first address the authority resolves to, with a configuration that verifies
    the server exactly when it is not told otherwise and offers exactly the given ECH
    list; from a socket that is bound, in the family of that address, to a port of the
    system's choice and connected nowhere, and whose address the connection was told.
    What the session asks for later, its authority and path, is the endpoint's. *)
Theorem dialed_as_configured (p : ConnectParams) (scid : bytes) (os os' : Os) (d : Dialed Conn Sock) :
  dial linux to_socket_addrs accepts exists_ sock_local_addr p scid os = (Ok d, os') →
  ∃ config addr gro bufs,
    (quiche_connect (Some (host_of (authority (cp_endpoint p)))) scid (di_local_addr d) addr config).1
      = Ok (di_conn d) ∧
    match cp_proxy_addr p with
    | Some a => addr = a
    | None => ∃ rest, to_socket_addrs (authority (cp_endpoint p)) = Ok (addr :: rest)
    end ∧
    (SetVerify VerifyPeer ∈ config ↔ cp_verify p ≠ Insecure) ∧
    (SetVerify VerifyNone ∈ config ↔ cp_verify p = Insecure) ∧
    (∀ l, InfoCallback l ∈ config ↔ cp_ech_config_list p = Some l) ∧
    history (di_socket d) = [BoundTo (unspecified (is_ipv4 addr)); SetNonblocking] ++ gro ++ bufs ∧
    Forall gro_opt gro ∧ Forall buffer_opt bufs ∧
    sock_local_addr (di_socket d) = Ok (di_local_addr d) ∧
    di_authority d = authority (cp_endpoint p) ∧ di_path d = path (cp_endpoint p).
Proof.
  unfold dial. destruct (run_build _) as [config|e] eqn:Ec; [|done].
  destruct (match cp_proxy_addr p with Some a => Ok a | None => _ end) as [addr|e] eqn:Ea; [|done].
  destruct (bind_udp _ _ _) as [[s|e] os1] eqn:Eb; [|done].
  destruct (sock_local_addr _) as [la|e] eqn:El; [|done].
  destruct (quiche_connect _ _ _ _ _).1 as [c|e] eqn:Eq; [|done]. intros [= <- _].
  apply client_config_members in Ec as (_ & Hn & Hp & _ & Hl & _).
  apply bind_udp_log in Eb as (gro & Hg & _ & Hh). destruct (enlarge_log s) as (bufs & Hb & He).
  exists config, addr, gro, bufs. cbn [di_conn di_local_addr di_socket di_authority di_path].
  split_and!; try done.
  - destruct (cp_proxy_addr p) as [a|]; [by injection Ea as ->|].
    unfold resolve_authority in Ea. destruct (to_socket_addrs _) as [[|a l]|]; [done| |done].
    injection Ea as ->. eauto.
  - by rewrite He, Hh, <- app_assoc.
Qed.
End Dialing.

(** A dial in a world in which every call succeeds. *)
Definition loop_connect : QuicheClient lconn Config := {|
  quiche_connect _ _ _ _ config := (Ok idle_conn, config);
|}.

Definition sample_params : ConnectParams :=
  mkParams (mkEndpoint (str "a.example.com:443") (str "/m")) None (Roots None) None.

Definition sample_dial : result (DialError unit) (Dialed lconn lsock) * list SocketAddr :=
  dial (SA := LoopSockets) (QC := loop_connect) true (λ _, Ok [SockV4 1 443]) (λ _ _, true) (λ _, true)
    (λ _, Ok (SockV4 9 9)) sample_params (replicate 20 (z2b 1)) [].

Lemma dialed_as_configured_witness :
  ∃ d os' config addr, sample_dial = (Ok d, os') ∧ addr = SockV4 1 443 ∧
    (quiche_connect (QuicheClient := loop_connect) (Some (host_of (str "a.example.com:443")))
       (replicate 20 (z2b 1)) (di_local_addr d) addr config).1 = Ok (di_conn d) ∧
    (SetVerify VerifyPeer ∈ config ↔ Roots None ≠ Insecure).
Proof.
  assert (is_ok sample_dial.1 = true) as Hok by (vm_compute; reflexivity).
  destruct sample_dial as [[d|e] os'] eqn:Ed; [|discriminate Hok].
  destruct (dialed_as_configured (SL := LoopSocketLaws) (QC := loop_connect) true (λ _, Ok [SockV4 1 443])
    (λ _ _, true) (λ _, true) (λ _, Ok (SockV4 9 9)) sample_params (replicate 20 (z2b 1)) [] os' d Ed)
    as (config & addr & gro & bufs & H1 & (rest & H2) & H4 & _).
  exists d, os', config, addr. injection H2 as H2 _.
  split_and!; [reflexivity|symmetry; exact H2|exact H1|exact H4].
Defined.
