(* ===== verification/Server.v ===== *)
(** * The proxy server (src/server.rs)

    The state of the server and every operation on it.  A [HashMap] is a [gmap]
    iterated in an unspecified order; the sending half of a flow's channel is the
    number of the task that owns the receiving half, and dropping it clears the
    [t_sender] flag of that task.  Randomness and the clock are arguments, read once
    per handler.  Loops that run until quiche reports that nothing is left take
    fuel ([None] when it runs out), and what would panic is a value. *)

From S2P Require Import Prelude.
From S2P Require Import RustStr.
From S2P Require Import Net.
From S2P Require Import Dgram.
From S2P Require Import Endpoint.
From S2P Require Import Rules.
From S2P Require Import Quiche.
From S2P Require Import Io.
From S2P Require Import Sockets.

Definition LOCAL_CONN_ID_LEN : nat := 16.
Definition CAPSULE_PROTOCOL_TRUE : bytes := str "?1".

(** A connection id of [LOCAL_CONN_ID_LEN] bytes. *)
Abbreviation Scid := bytes.

Definition scid_try_from (dcid : bytes) : option Scid :=
  if length dcid =? LOCAL_CONN_ID_LEN then Some dcid else None.

(** ** CONNECT-UDP requests *)

Record ConnectRequest := mkRequest { rq_authority : bytes; rq_path : bytes }.

Record pseudo := mkPseudo {
  ps_method : option bytes;
  ps_protocol : option bytes;
  ps_authority : option bytes;
  ps_path : option bytes;
}.

(** One turn of [for h in headers { match h.name() { .. } }]. *)
Definition read_header (p : pseudo) (h : Header) : pseudo :=
  if bool_decide (h_name h = str ":method") then
    mkPseudo (Some (h_value h)) (ps_protocol p) (ps_authority p) (ps_path p)
  else if bool_decide (h_name h = str ":protocol") then
    mkPseudo (ps_method p) (Some (h_value h)) (ps_authority p) (ps_path p)
  else if bool_decide (h_name h = str ":authority") then
    mkPseudo (ps_method p) (ps_protocol p) (Some (h_value h)) (ps_path p)
  else if bool_decide (h_name h = str ":path") then
    mkPseudo (ps_method p) (ps_protocol p) (ps_authority p) (Some (h_value h))
  else p.

(** The error is the HTTP status to reply with. *)
Definition parse_request (headers : list Header) : result Z ConnectRequest :=
  let p := fold_left read_header headers (mkPseudo None None None None) in
  if negb (bool_decide (ps_method p = Some (str "CONNECT"))) then Err 405%Z
  else if negb (bool_decide (ps_protocol p = Some (str "connect-udp"))) then Err 501%Z
  else
    authority ← ok_or 400%Z (ps_authority p);
    authority ← ok_or 400%Z (from_utf8 authority);
    path ← ok_or 400%Z (ps_path p);
    path ← ok_or 400%Z (from_utf8 path);
    mret (mkRequest authority path).

Definition status_headers (status : Z) : list Header :=
  [mkHeader (str ":status") (u16_to_string status)].

Definition accepted_headers : list Header :=
  [mkHeader (str ":status") (str "200");
   mkHeader (str "capsule-protocol") CAPSULE_PROTOCOL_TRUE].

(** ** State *)

Record ToClient := mkToClient { tc_conn_id : Scid; tc_flow_id : Z; tc_payload : bytes }.

(** [fl_to_target] names the task the channel leads to. *)
Record Flow := mkFlow {
  fl_to_target : nat;
  fl_last_activity : Z;
  fl_idle_timeout : option Z;
}.

(** A running [target_task]: its socket, the channel from the client, whether the
    channel still has a sender, and the ids it was given. *)
Record Task (Sock : Type) (Chan : Type → Type) := mkTask {
  t_sock : Sock;
  t_inbox : Chan bytes;
  t_sender : bool;
  t_conn_id : Scid;
  t_flow_id : Z;
}.
Arguments mkTask {Sock Chan}.
Arguments t_sock {Sock Chan}.
Arguments t_inbox {Sock Chan}.
Arguments t_sender {Sock Chan}.
Arguments t_conn_id {Sock Chan}.
Arguments t_flow_id {Sock Chan}.

(** The spawned tasks, the number of the next one, and the operating system. *)
Record Runtime (Sock Os : Type) (Chan : Type → Type) := mkRuntime {
  rt_tasks : gmap nat (Task Sock Chan);
  rt_next : nat;
  rt_os : Os;
}.
Arguments mkRuntime {Sock Os Chan}.
Arguments rt_tasks {Sock Os Chan}.
Arguments rt_next {Sock Os Chan}.
Arguments rt_os {Sock Os Chan}.

Record Client (Conn H3 : Type) := mkClient {
  cl_conn : Conn;
  cl_http3 : option H3;
  cl_flows : gmap Z Flow;
  cl_peer : SocketAddr;
}.
Arguments mkClient {Conn H3}.
Arguments cl_conn {Conn H3}.
Arguments cl_http3 {Conn H3}.
Arguments cl_flows {Conn H3}.
Arguments cl_peer {Conn H3}.

Record Server (Conn H3 H3Config Config Sock Os : Type) (Chan : Type → Type) := mkServer {
  sv_socket : Sock;
  sv_local_addr : SocketAddr;
  sv_config : Config;
  sv_rules : RuleTable;
  sv_h3_config : H3Config;
  sv_clients : gmap Scid (Client Conn H3);
  sv_routes : gmap bytes Scid;
  sv_to_client : Chan ToClient;
  sv_rt : Runtime Sock Os Chan;
}.
Arguments mkServer {Conn H3 H3Config Config Sock Os Chan}.
Arguments sv_socket {Conn H3 H3Config Config Sock Os Chan}.
Arguments sv_local_addr {Conn H3 H3Config Config Sock Os Chan}.
Arguments sv_config {Conn H3 H3Config Config Sock Os Chan}.
Arguments sv_rules {Conn H3 H3Config Config Sock Os Chan}.
Arguments sv_h3_config {Conn H3 H3Config Config Sock Os Chan}.
Arguments sv_clients {Conn H3 H3Config Config Sock Os Chan}.
Arguments sv_routes {Conn H3 H3Config Config Sock Os Chan}.
Arguments sv_to_client {Conn H3 H3Config Config Sock Os Chan}.
Arguments sv_rt {Conn H3 H3Config Config Sock Os Chan}.

(** ** Dropping flows *)

Section Drop.
Context {Sock Os : Type} {Chan : Type → Type}.
Local Abbreviation Runtime := (Runtime Sock Os Chan).

Definition close_sender (t : Task Sock Chan) : Task Sock Chan :=
  mkTask (t_sock t) (t_inbox t) false (t_conn_id t) (t_flow_id t).

(** Dropping a [Flow] drops the sender in it. *)
Definition drop_flow (f : Flow) (rt : Runtime) : Runtime :=
  mkRuntime (alter close_sender (fl_to_target f) (rt_tasks rt)) (rt_next rt) (rt_os rt).

Definition drop_flows (flows : gmap Z Flow) (rt : Runtime) : Runtime :=
  foldr (λ p, drop_flow p.2) rt (map_to_list flows).

(** [flows.remove(&flow_id)]. *)
Definition remove_flow (flow_id : Z) (flows : gmap Z Flow) (rt : Runtime) :
    gmap Z Flow * Runtime :=
  (delete flow_id flows,
   match flows !! flow_id with Some f => drop_flow f rt | None => rt end).

(** [flows.insert(flow_id, flow)]: the flow it replaces is dropped. *)
Definition insert_flow (flow_id : Z) (f : Flow) (flows : gmap Z Flow) (rt : Runtime) :
    gmap Z Flow * Runtime :=
  (<[flow_id := f]> flows,
   match flows !! flow_id with Some f0 => drop_flow f0 rt | None => rt end).
End Drop.

(** ** Serving one connection *)

(** The [&mut] arguments of [handle_connect_request]. *)
Record Session (Conn H3 Sock Os : Type) (Chan : Type → Type) := mkSession {
  ss_conn : Conn;
  ss_http3 : H3;
  ss_flows : gmap Z Flow;
  ss_rt : Runtime Sock Os Chan;
}.
Arguments mkSession {Conn H3 Sock Os Chan}.
Arguments ss_conn {Conn H3 Sock Os Chan}.
Arguments ss_http3 {Conn H3 Sock Os Chan}.
Arguments ss_flows {Conn H3 Sock Os Chan}.
Arguments ss_rt {Conn H3 Sock Os Chan}.

Section Serve.
Context {Conn H3 H3Config Config Sock Os : Type} {Chan : Type → Type}.
Context `{Q : Quiche Conn H3 H3Config} `{QV : QuicheServer Conn Config}.
Context `{U : UdpSys Sock} `{SA : SocketApi Sock Os} `{M : Mpsc Chan} `{HI : HashIter}.
Context (linux : bool).
Local Abbreviation Session := (Session Conn H3 Sock Os Chan).
Local Abbreviation Client := (Client Conn H3).
Local Abbreviation Runtime := (Runtime Sock Os Chan).
Local Abbreviation Server := (Server Conn H3 H3Config Config Sock Os Chan).

(** [http3.send_response(conn, stream_id, headers, fin)]. *)
Definition respond (st : Session) (stream_id : Z) (headers : list Header) (fin : bool) :
    result H3Error unit * Session :=
  let '(r, (h, c)) := send_response (ss_http3 st) (ss_conn st) stream_id headers fin in
  (r, mkSession c h (ss_flows st) (ss_rt st)).

Definition respond_status (st : Session) (stream_id status : Z) : Session :=
  snd (respond st stream_id (status_headers status) true).

(** [monoio::spawn(target_task(..))] with the channel to it. *)
Definition spawn_target (sock : Sock) (conn_id : Scid) (flow_id : Z) (rt : Runtime) :
    nat * Runtime :=
  (rt_next rt,
   mkRuntime (<[rt_next rt := mkTask sock (channel CHANNEL_CAP) true conn_id flow_id]> (rt_tasks rt))
     (S (rt_next rt)) (rt_os rt)).

Definition set_os (rt : Runtime) (os : Os) : Runtime := mkRuntime (rt_tasks rt) (rt_next rt) os.

(** The end of [handle_connect_request], from the spawned task on. *)
Definition open_flow (now : Z) (conn_id : Scid) (stream_id : Z) (rule : RuleMatch)
    (sock : Sock) (st : Session) : Session :=
  let flow_id := (stream_id / 4)%Z in
  let '(i, rt) := spawn_target sock conn_id flow_id (ss_rt st) in
  let '(flows, rt) := insert_flow flow_id (mkFlow i now (m_idle_timeout rule)) (ss_flows st) rt in
  match respond (mkSession (ss_conn st) (ss_http3 st) flows rt) stream_id accepted_headers false with
  | (Ok _, st) => st
  | (Err _, st) =>
      let '(flows, rt) := remove_flow flow_id (ss_flows st) (ss_rt st) in
      mkSession (ss_conn st) (ss_http3 st) flows rt
  end.

Definition handle_connect_request (now : Z) (rules : RuleTable) (client_addr : SocketAddr)
    (conn_id : Scid) (stream_id : Z) (headers : list Header) (st : Session) : Session :=
  match parse_request headers with
  | Err status => respond_status st stream_id status
  | Ok req =>
      match match_target rules (rq_authority req) (rq_path req) with
      | None => respond_status st stream_id 404
      | Some rule =>
          let '(r, os) := bind_target linux (rt_os (ss_rt st)) (m_target rule) client_addr
                            (m_transparent rule) (m_fwmark rule) in
          let st := mkSession (ss_conn st) (ss_http3 st) (ss_flows st) (set_os (ss_rt st) os) in
          match r with
          | Err _ => respond_status st stream_id 502
          | Ok sock => open_flow now conn_id stream_id rule sock st
          end
      end
  end.

(** [while let Ok(n) = http3.recv_body(..) { if n == 0 { break } }]. *)
Definition drain_body (fuel : nat) (stream_id : Z) (h : H3) (c : Conn) : option (H3 * Conn) :=
  loop fuel (λ hc : H3 * Conn,
    match recv_body hc.1 hc.2 stream_id 4096 with
    | (Ok n, hc) => if n =? 0 then inr hc else inl hc
    | (Err _, hc) => inr hc
    end) (h, c).

(** One turn of the event loop. *)
Definition on_event (fuel : nat) (now : Z) (rules : RuleTable) (client_addr : SocketAddr)
    (conn_id : Scid) (st : Session) : Session + option Session :=
  match poll (ss_http3 st) (ss_conn st) with
  | (Err _, (h, c)) => inr (Some (mkSession c h (ss_flows st) (ss_rt st)))
  | (Ok (stream_id, ev), (h, c)) =>
      let st := mkSession c h (ss_flows st) (ss_rt st) in
      match ev with
      | Headers list => inl (handle_connect_request now rules client_addr conn_id stream_id list st)
      | Data =>
          match drain_body fuel stream_id h c with
          | Some (h, c) => inl (mkSession c h (ss_flows st) (ss_rt st))
          | None => inr None
          end
      | Finished | Reset _ =>
          let '(flows, rt) := remove_flow (stream_id / 4) (ss_flows st) (ss_rt st) in
          inl (mkSession c h flows rt)
      | OtherEvent => inl st
      end
  end.

(** [flow.to_target.try_send(payload)]: a task that has ended receives nothing. *)
Definition send_to_target (i : nat) (payload : bytes) (rt : Runtime) : Runtime :=
  mkRuntime
    (alter (λ t, mkTask (t_sock t) (snd (try_send (t_inbox t) payload)) (t_sender t)
                   (t_conn_id t) (t_flow_id t)) i (rt_tasks rt))
    (rt_next rt) (rt_os rt).

(** The body of the [Ok(len)] arm of [drain_client_datagrams]. *)
Definition on_datagram (now : Z) (buf : bytes) (st : Session) : panics Session :=
  parsed ← Dgram.decode buf;
  match parsed with
  | None => mret st
  | Some p =>
      if negb (context_id p =? CONTEXT_ID_UDP)%Z then mret st
      else
        match ss_flows st !! flow_id p with
        | Some f =>
            mret (mkSession (ss_conn st) (ss_http3 st)
              (<[flow_id p := mkFlow (fl_to_target f) now (fl_idle_timeout f)]> (ss_flows st))
              (send_to_target (fl_to_target f) (payload p) (ss_rt st)))
        | None => mret st
        end
  end.

Definition drain_client_datagrams (fuel : nat) (now : Z) (st : Session) : option (panics Session) :=
  loop fuel (λ st : Session,
    match dgram_recv (ss_conn st) MAX_DATAGRAM_SIZE with
    | (Ok buf, c) =>
        match on_datagram now buf (mkSession c (ss_http3 st) (ss_flows st) (ss_rt st)) with
        | Returns st => inl st
        | Panics => inr Panics
        end
    | (Err _, c) => inr (Returns (mkSession c (ss_http3 st) (ss_flows st) (ss_rt st)))
    end) st.

Definition process_client (fuel : nat) (now : Z) (conn_id : Scid) (h3_config : H3Config)
    (rules : RuleTable) (client : Client) (rt : Runtime) : option (panics (Client * Runtime)) :=
  if negb (is_established (cl_conn client) || is_in_early_data (cl_conn client)) then
    Some (Returns (client, rt))
  else
    let '(h3, c) :=
      match cl_http3 client with
      | Some h3 => (Some h3, cl_conn client)
      | None =>
          match with_transport (cl_conn client) h3_config with
          | (Ok h3, c) => (Some h3, c)
          | (Err _, c) => (None, c)
          end
      end in
    match h3 with
    | None => Some (Returns (mkClient c None (cl_flows client) (cl_peer client), rt))
    | Some h3 =>
        match mjoin (loop fuel (on_event fuel now rules (cl_peer client) conn_id)
                 (mkSession c h3 (cl_flows client) rt)) with
        | None => None
        | Some st =>
            match drain_client_datagrams fuel now st with
            | None => None
            | Some Panics => Some Panics
            | Some (Returns st) =>
                Some (Returns (mkClient (ss_conn st) (Some (ss_http3 st)) (ss_flows st)
                                 (cl_peer client), ss_rt st))
            end
        end
    end.

(** ** The server's operations *)

Inductive NewError := NoLocalAddr (e : io_error) | NoH3Config (e : H3Error).

(** [Server::new], given what the socket and [build_h3_config] answer. *)
Definition server_new (socket : Sock) (local_addr : result io_error SocketAddr)
    (h3_config : result H3Error H3Config) (config : Config) (rules : RuleTable) (os : Os) :
    result NewError Server :=
  local_addr ← map_err NoLocalAddr local_addr;
  h3_config ← map_err NoH3Config h3_config;
  mret (mkServer socket local_addr config rules h3_config ∅ ∅ (channel CHANNEL_CAP)
          (mkRuntime ∅ 0 os)).

(** The reload task's [*server_config.config.borrow_mut() = config] and the same for
    the rules. *)
Definition set_server_config (config : Config) (rules : RuleTable) (sv : Server) : Server :=
  mkServer (sv_socket sv) (sv_local_addr sv) config rules (sv_h3_config sv)
    (sv_clients sv) (sv_routes sv) (sv_to_client sv) (sv_rt sv).

Definition set_clients (sv : Server) (clients : gmap Scid Client) (rt : Runtime) : Server :=
  mkServer (sv_socket sv) (sv_local_addr sv) (sv_config sv) (sv_rules sv) (sv_h3_config sv)
    clients (sv_routes sv) (sv_to_client sv) rt.

Definition set_socket (sv : Server) (s : Sock) : Server :=
  mkServer s (sv_local_addr sv) (sv_config sv) (sv_rules sv) (sv_h3_config sv)
    (sv_clients sv) (sv_routes sv) (sv_to_client sv) (sv_rt sv).

(** [scid] is what the random generator fills in.  A connection already under that
    id is dropped with its flows. *)
Definition accept (sv : Server) (scid : Scid) (original_dcid : bytes) (from : SocketAddr) :
    result QError Scid * Server :=
  let '(r, cfg) := quiche_accept scid (sv_local_addr sv) from (sv_config sv) in
  match r with
  | Err e =>
      (Err e, mkServer (sv_socket sv) (sv_local_addr sv) cfg (sv_rules sv) (sv_h3_config sv)
                (sv_clients sv) (sv_routes sv) (sv_to_client sv) (sv_rt sv))
  | Ok conn =>
      (Ok scid,
       mkServer (sv_socket sv) (sv_local_addr sv) cfg (sv_rules sv) (sv_h3_config sv)
         (<[scid := mkClient conn None ∅ from]> (sv_clients sv))
         (<[original_dcid := scid]> (sv_routes sv))
         (sv_to_client sv)
         (match sv_clients sv !! scid with
          | Some old => drop_flows (cl_flows old) (sv_rt sv)
          | None => sv_rt sv
          end))
  end.

Definition send_version_negotiation (fuel : nat) (sv : Server) (hdr : QHeader)
    (from : SocketAddr) : option Server :=
  match negotiate_version (hd_scid hdr) (hd_dcid hdr) MAX_DATAGRAM_SIZE with
  | Err _ => Some sv
  | Ok out =>
      match send_udp linux fuel (sv_socket sv) out from with
      | None => None
      | Some (_, s) => Some (set_socket sv s)
      end
  end.

(** Where a packet goes. *)
Inductive routing := ToConnection (k : Scid) | Unknown.

Definition route (sv : Server) (dcid : bytes) : routing :=
  match scid_try_from dcid ≫= λ s, if bool_decide (is_Some (sv_clients sv !! s)) then Some s else None with
  | Some scid => ToConnection scid
  | None =>
      match sv_routes sv !! dcid with
      | Some scid => ToConnection scid
      | None => Unknown
      end
  end.

(** From [self.clients.get_mut(&conn_key).unwrap()] on. *)
Definition deliver (fuel : nat) (now : Z) (sv : Server) (k : Scid) (pkt : bytes)
    (from : SocketAddr) : option (panics Server) :=
  match sv_clients sv !! k with
  | None => Some Panics
  | Some client =>
      let '(r, c) := recv (cl_conn client) pkt (sv_local_addr sv) from in
      let client := mkClient c (cl_http3 client) (cl_flows client) from in
      match r with
      | Err _ => Some (Returns (set_clients sv (<[k := client]> (sv_clients sv)) (sv_rt sv)))
      | Ok _ =>
          match process_client fuel now k (sv_h3_config sv) (sv_rules sv) client (sv_rt sv) with
          | None => None
          | Some Panics => Some Panics
          | Some (Returns (client, rt)) =>
              Some (Returns (set_clients sv (<[k := client]> (sv_clients sv)) rt))
          end
      end
  end.

Definition on_packet (fuel : nat) (now : Z) (rnd : Scid) (sv : Server) (pkt : bytes)
    (from : SocketAddr) : option (panics Server) :=
  match header_from_slice pkt LOCAL_CONN_ID_LEN with
  | Err _ => Some (Returns sv)
  | Ok hdr =>
      match route sv (hd_dcid hdr) with
      | ToConnection k => deliver fuel now sv k pkt from
      | Unknown =>
          if negb (bool_decide (hd_ty hdr = Initial)) then Some (Returns sv)
          else if negb (version_is_supported (hd_version hdr)) then
            Returns <$> send_version_negotiation fuel sv hdr from
          else
            match accept sv rnd (hd_dcid hdr) from with
            | (Err _, sv) => Some (Returns sv)
            | (Ok k, sv) => deliver fuel now sv k pkt from
            end
      end
  end.

Definition touch (now : Z) (f : Flow) : Flow :=
  mkFlow (fl_to_target f) now (fl_idle_timeout f).

Definition on_target_payload (tc : ToClient) (now : Z) (sv : Server) : Server :=
  match sv_clients sv !! tc_conn_id tc with
  | None => sv
  | Some client =>
      let '(_, c) := dgram_send (cl_conn client) (Dgram.encode (tc_flow_id tc) (tc_payload tc)) in
      let client := mkClient c (cl_http3 client)
                      (alter (touch now) (tc_flow_id tc) (cl_flows client)) (cl_peer client) in
      set_clients sv (<[tc_conn_id tc := client]> (sv_clients sv)) (sv_rt sv)
  end.

(** [for client in self.clients.values_mut() { f(client) }]. *)
Definition for_clients (f : Scid → Client → Client) (sv : Server) : Server :=
  set_clients sv (map_imap (λ k c, Some (f k c)) (sv_clients sv)) (sv_rt sv).

Definition set_conn (client : Client) (c : Conn) : Client :=
  mkClient c (cl_http3 client) (cl_flows client) (cl_peer client).

Definition on_timeouts (sv : Server) : Server :=
  for_clients (λ _ c, set_conn c (on_timeout (cl_conn c))) sv.

(** The flushes happen in the order of the iteration; errors are logged. *)
Definition flush_client (fuel : nat) (k : Scid) (sv : Server) : option Server :=
  match sv_clients sv !! k with
  | None => Some sv
  | Some client =>
      match flush_connection linux fuel (sv_socket sv) (cl_conn client) with
      | None => None
      | Some (_, st) =>
          Some (set_socket (set_clients sv (<[k := set_conn client (f_conn st)]> (sv_clients sv))
                              (sv_rt sv)) (f_sock st))
      end
  end.

Definition flush_all (fuel : nat) (sv : Server) : option Server :=
  fold_left (λ o p, o ≫= flush_client fuel p.1) (iter (sv_clients sv)) (Some sv).

(** The closure of [clients.retain(..)] on one entry. *)
Definition reap_client (sv : Server) (p : Scid * Client) : Server :=
  if is_closed (cl_conn p.2) then
    mkServer (sv_socket sv) (sv_local_addr sv) (sv_config sv) (sv_rules sv) (sv_h3_config sv)
      (delete p.1 (sv_clients sv))
      (filter (λ r, r.2 ≠ p.1) (sv_routes sv))
      (sv_to_client sv)
      (drop_flows (cl_flows p.2) (sv_rt sv))
  else sv.

Definition reap_closed (sv : Server) : Server :=
  fold_left reap_client (iter (sv_clients sv)) sv.

(** [now.duration_since(last)] saturates at zero. *)
Definition idle_expired (now : Z) (f : Flow) : bool :=
  match fl_idle_timeout f with
  | Some d => (d <=? Z.max 0 (now - fl_last_activity f))%Z
  | None => false
  end.

Definition expired (now : Z) (flows : gmap Z Flow) : list Z :=
  (filter (λ p, idle_expired now p.2 = true) (iter flows)).*1.

(** [for flow_id in expired { .. }]. *)
Definition expire_flow (st : Conn * gmap Z Flow * Runtime) (flow_id : Z) :
    Conn * gmap Z Flow * Runtime :=
  let '(c, flows, rt) := st in
  let '(flows, rt) := remove_flow flow_id flows rt in
  let stream_id := wrap 64 (flow_id * 4) in
  (stream_shutdown (stream_shutdown c stream_id ShutdownWrite 0x100) stream_id ShutdownRead 0x100,
   flows, rt).

Definition sweep_client (now : Z) (sv : Server) (p : Scid * Client) : Server :=
  let '(c, flows, rt) :=
    fold_left expire_flow (expired now (cl_flows p.2)) (cl_conn p.2, cl_flows p.2, sv_rt sv) in
  set_clients sv (<[p.1 := mkClient c (cl_http3 p.2) flows (cl_peer p.2)]> (sv_clients sv)) rt.

Definition sweep_idle_flows (now : Z) (sv : Server) : Server :=
  fold_left (sweep_client now) (iter (sv_clients sv)) sv.

Definition min_timeout (sv : Server) : option Z :=
  fold_left (λ acc d, match acc with Some m => Some (Z.min m d) | None => Some d end)
    (omap (λ p, timeout (cl_conn p.2)) (iter (sv_clients sv))) None.

(** ** The main loop *)

(** Packets as the receive task queued them, each with the clock and the random
    bytes of its handler. *)
Record Arrival := mkArrival { ar_data : bytes; ar_from : SocketAddr; ar_now : Z; ar_rnd : Scid }.

(** The arm of [select!] that is ready. *)
Inductive arm :=
| ArmPackets (first : option Arrival) (burst : list Arrival)
| ArmTarget (now : Z)
| ArmTimeout
| ArmSweep (now : Z).

Definition on_packets (fuel : nat) (burst : list Arrival) (sv : Server) : option (panics Server) :=
  fold_left (λ o a,
    match o with
    | Some (Returns sv) => on_packet fuel (ar_now a) (ar_rnd a) sv (ar_data a) (ar_from a)
    | o => o
    end) burst (Some (Returns sv)).

(** [while let Ok(tc) = self.to_client_rx.try_recv() { .. }], [next()] included. *)
Definition drain_targets (fuel : nat) (now : Z) (sv : Server) : option Server :=
  loop fuel (λ sv : Server,
    match try_recv (sv_to_client sv) with
    | (None, ch) => inr (mkServer (sv_socket sv) (sv_local_addr sv) (sv_config sv) (sv_rules sv)
        (sv_h3_config sv) (sv_clients sv) (sv_routes sv) ch (sv_rt sv))
    | (Some tc, ch) => inl (on_target_payload tc now (mkServer (sv_socket sv) (sv_local_addr sv)
        (sv_config sv) (sv_rules sv) (sv_h3_config sv) (sv_clients sv) (sv_routes sv) ch (sv_rt sv)))
    end) sv.

(** One turn of [run]; [inr] when the receive task has ended. *)
Definition run_turn (fuel : nat) (a : arm) (sv : Server) : option (panics (Server + Server)) :=
  let finish (sv : Server) := (λ sv, Returns (inl (reap_closed sv))) <$> flush_all fuel sv in
  match a with
  | ArmPackets None _ => Some (Returns (inr sv))
  | ArmPackets (Some first) burst =>
      match on_packets fuel (first :: burst) sv with
      | Some (Returns sv) => finish sv
      | Some Panics => Some Panics
      | None => None
      end
  | ArmTarget now => drain_targets fuel now sv ≫= finish
  | ArmTimeout => finish (on_timeouts sv)
  | ArmSweep now => finish (sweep_idle_flows now sv)
  end.
End Serve.

(** ** Target tasks *)

(** The arm of [select!] that is ready in [target_task]. *)
Inductive task_wake := FromClient | TargetReadable | TargetReadableErr.

Section TargetTask.
Context {Conn H3 H3Config Config Sock Os : Type} {Chan : Type → Type}.
Context `{U : UdpSys Sock} `{M : Mpsc Chan}.
Local Abbreviation Task := (Task Sock Chan).
Local Abbreviation Server := (Server Conn H3 H3Config Config Sock Os Chan).

Definition set_sock (t : Task) (s : Sock) : Task :=
  mkTask s (t_inbox t) (t_sender t) (t_conn_id t) (t_flow_id t).

(** [for _ in 0..n]; [false] is the [return] of the task. *)
Fixpoint recv_target (n : nat) (t : Task) (to_client : Chan ToClient) :
    bool * Task * Chan ToClient :=
  match n with
  | O => (true, t, to_client)
  | S n =>
      match recv_udp_connected (t_sock t) RECV_BUF with
      | (Ok buf, s) =>
          let '(sent, to_client) := try_send to_client (mkToClient (t_conn_id t) (t_flow_id t) buf) in
          if negb sent && chan_closed to_client then (false, set_sock t s, to_client)
          else recv_target n (set_sock t s) to_client
      | (Err e, s) =>
          if would_block e then (true, set_sock t s, to_client)
          else if interrupted e then recv_target n (set_sock t s) to_client
          else (false, set_sock t s, to_client)
      end
  end.

(** One turn of the task's loop; [None] when the task has ended.  With an empty
    channel that still has a sender the arm is not ready and nothing happens. *)
Definition target_task (fuel : nat) (w : task_wake) (t : Task) (to_client : Chan ToClient) :
    option (option Task * Chan ToClient) :=
  match w with
  | FromClient =>
      match try_recv (t_inbox t) with
      | (Some payload, ch) =>
          match send_udp_connected fuel payload (t_sock t) with
          | None => None
          | Some (_, s) =>
              Some (Some (mkTask s ch (t_sender t) (t_conn_id t) (t_flow_id t)), to_client)
          end
      | (None, ch) => Some (if t_sender t then Some t else None, to_client)
      end
  | TargetReadable =>
      let '(running, t, to_client) := recv_target RECV_BATCH t to_client in
      Some (if running then Some t else None, to_client)
  | TargetReadableErr => Some (None, to_client)
  end.

(** The same on the whole state. *)
Definition run_task (fuel : nat) (i : nat) (w : task_wake) (sv : Server) : option Server :=
  match rt_tasks (sv_rt sv) !! i with
  | None => Some sv
  | Some t =>
      match target_task fuel w t (sv_to_client sv) with
      | None => None
      | Some (o, to_client) =>
          Some (mkServer (sv_socket sv) (sv_local_addr sv) (sv_config sv) (sv_rules sv)
            (sv_h3_config sv) (sv_clients sv) (sv_routes sv) to_client
            (mkRuntime (partial_alter (λ _, o) i (rt_tasks (sv_rt sv)))
               (rt_next (sv_rt sv)) (rt_os (sv_rt sv))))
      end
  end.
End TargetTask.
