(* ===== verification/ServerInv.v ===== *)
(** * The server's invariant

    Who holds which task: every flow of a connection leads to a task of its own
    that was started for it, every task that still has a sender is held by exactly
    the flow it was started for, and routes lead to live connections.  Every
    operation of Server.v keeps the invariant. *)

From S2P Require Import Prelude.
From S2P Require Import RustStr.
From S2P Require Import Net.
From S2P Require Import Dgram.
From S2P Require Import Rules.
From S2P Require Import Quiche.
From S2P Require Import Io.
From S2P Require Import Sockets.
From S2P Require Import Server.

(** ** Flows and tasks *)

Section Owned.
Context {Sock Os : Type} {Chan : Type → Type} `{M : Mpsc Chan}.
Local Abbreviation Runtime := (Runtime Sock Os Chan).
Implicit Types (rt : Runtime) (F : gmap Z Flow) (k : Scid).

(** The flows [F] of connection [k] and its tasks belong together. *)
Record owned k F rt : Prop := {
  owned_task fid f : F !! fid = Some f →
    fl_to_target f < rt_next rt ∧
    ∀ t, rt_tasks rt !! fl_to_target f = Some t →
      t_sender t = true ∧ t_conn_id t = k ∧ t_flow_id t = fid;
  owned_flow i t : rt_tasks rt !! i = Some t → t_conn_id t = k → t_sender t = true →
    ∃ f, F !! t_flow_id t = Some f ∧ fl_to_target f = i;
}.

Definition rt_ok rt : Prop := ∀ i t, rt_tasks rt !! i = Some t → i < rt_next rt.

Definition tasks_all (P : Sock → Prop) rt : Prop :=
  ∀ i t, rt_tasks rt !! i = Some t → P (t_sock t).

(** Only tasks of connection [k] that have a sender changed, and none changed hands. *)
Record frame k rt rt' : Prop := {
  frame_next : rt_next rt ≤ rt_next rt';
  frame_old i t' : rt_tasks rt' !! i = Some t' → i < rt_next rt →
    ∃ t, rt_tasks rt !! i = Some t ∧ t_conn_id t = t_conn_id t' ∧ (t_conn_id t' ≠ k → t = t');
  frame_new i t' : rt_tasks rt' !! i = Some t' → rt_next rt ≤ i → t_conn_id t' = k;
  frame_kept i t : rt_tasks rt !! i = Some t → t_conn_id t ≠ k ∨ t_sender t = false →
    rt_tasks rt' !! i = Some t;
}.

Lemma frame_refl k rt : rt_ok rt → frame k rt rt.
Proof. intros Hok. split; [lia|naive_solver| |done]. intros i t Ht ?. apply Hok in Ht. lia. Qed.

Lemma frame_trans k rt1 rt2 rt3 : frame k rt1 rt2 → frame k rt2 rt3 → frame k rt1 rt3.
Proof.
  intros [n1 o1 w1 k1] [n2 o2 w2 k2]. split; [lia|..|auto].
  - intros i t3 H3 Hi. destruct (o2 i t3 H3) as (t2 & H2 & Hc & He); [lia|].
    destruct (o1 i t2 H2 Hi) as (t1 & H1 & Hc1 & He1). exists t1.
    repeat split; [done|congruence|]. intros Hk. rewrite He1 by congruence. auto.
  - intros i t3 H3 Hi. destruct (decide (i < rt_next rt2)); [|apply (w2 i); [done|lia]].
    destruct (o2 i t3 H3) as (t2 & H2 & Hc & _); [done|]. rewrite <- Hc. eauto.
Qed.

(** What happens to one connection does not disturb the others. *)
Lemma owned_frame k k' F rt rt' :
  k' ≠ k → frame k rt rt' → owned k' F rt → owned k' F rt'.
Proof.
  intros Hk [n o w kp] [Ht Hf]. split.
  - intros fid f Hfid. destruct (Ht fid f Hfid) as [Hlt Htask]. split; [lia|].
    intros t' Ht'. destruct (o _ _ Ht' Hlt) as (t & H & Hc & He).
    destruct (Htask t H) as (? & Hck & ?). rewrite <- He; [done|congruence].
  - intros i t' Ht' Hc Hs. destruct (decide (i < rt_next rt)) as [Hi|Hi].
    + destruct (o _ _ Ht' Hi) as (t & H & Hc' & He). rewrite He in H by congruence. eauto.
    + apply w in Ht'; [congruence|lia].
Qed.

(** Only the destinations of the flows matter. *)
Lemma owned_ext k F F' rt :
  fl_to_target <$> F' = fl_to_target <$> F → owned k F rt → owned k F' rt.
Proof.
  intros Heq [Ht Hf].
  assert (∀ fid f', F' !! fid = Some f' → ∃ f, F !! fid = Some f ∧ fl_to_target f = fl_to_target f')
    as H1.
  { intros fid f' H. assert ((fl_to_target <$> F) !! fid = Some (fl_to_target f')) as H2
      by by rewrite <- Heq, lookup_fmap, H.
    apply lookup_fmap_Some in H2. naive_solver. }
  assert (∀ fid f, F !! fid = Some f → ∃ f', F' !! fid = Some f' ∧ fl_to_target f = fl_to_target f')
    as H2.
  { intros fid f H. assert ((fl_to_target <$> F') !! fid = Some (fl_to_target f)) as H3
      by by rewrite Heq, lookup_fmap, H.
    apply lookup_fmap_Some in H3. naive_solver. }
  split.
  - intros fid f' H. destruct (H1 _ _ H) as (f & Hf1 & <-). eauto.
  - intros i t Hi Hc Hs. destruct (Hf i t Hi Hc Hs) as (f & Hfl & <-).
    destruct (H2 _ _ Hfl) as (f' & ? & ?). eauto.
Qed.

(** Replacing a task of [k] by one with the same ids and sender. *)
Lemma alter_owned k F rt i (g : Task Sock Chan → Task Sock Chan) :
  (∀ t, t_sender (g t) = t_sender t ∧ t_conn_id (g t) = t_conn_id t ∧ t_flow_id (g t) = t_flow_id t) →
  owned k F rt → owned k F (mkRuntime (alter g i (rt_tasks rt)) (rt_next rt) (rt_os rt)).
Proof.
  intros Hg [Ht Hf]. split; simpl.
  - intros fid f Hfid. destruct (Ht fid f Hfid) as [Hlt Htask]. split; [done|].
    intros t'. rewrite lookup_alter_Some. intros [[-> (t & H & ->)]|[_ H]]; [|by auto].
    destruct (Hg t) as (-> & -> & ->). auto.
  - intros j t'. rewrite lookup_alter_Some. intros [[-> (t & H & ->)]|[_ H]]; [|by auto].
    destruct (Hg t) as (-> & -> & ->). eauto.
Qed.

Lemma alter_frame k rt i (g : Task Sock Chan → Task Sock Chan) :
  rt_ok rt → (∀ t, t_conn_id (g t) = t_conn_id t) →
  (∀ t, rt_tasks rt !! i = Some t → t_conn_id t = k ∧ t_sender t = true) →
  frame k rt (mkRuntime (alter g i (rt_tasks rt)) (rt_next rt) (rt_os rt)).
Proof.
  intros Hok Hg Hi. split; simpl; [done|..].
  - intros j t'. rewrite lookup_alter_Some. intros [[-> (t & H & ->)]|[_ H]] _; [|by eauto].
    exists t. rewrite Hg. split; [done|]. split; [done|]. intros Hc. by apply Hi in H as [? _].
  - intros j t'. rewrite lookup_alter_Some. intros [[-> (t & H & ->)]|[_ H]] Hj;
      apply Hok in H; lia.
  - intros j t H Hc. rewrite lookup_alter_ne; [done|]. intros ->. apply Hi in H as [? ?].
    destruct Hc; congruence.
Qed.

Lemma alter_ok rt i (g : Task Sock Chan → Task Sock Chan) :
  rt_ok rt → rt_ok (mkRuntime (alter g i (rt_tasks rt)) (rt_next rt) (rt_os rt)).
Proof.
  intros Hok j t'. simpl. rewrite lookup_alter_Some.
  intros [[-> (t & H & _)]|[_ H]]; by apply Hok in H.
Qed.

Lemma alter_all P rt i (g : Task Sock Chan → Task Sock Chan) :
  (∀ t, t_sock (g t) = t_sock t) → tasks_all P rt →
  tasks_all P (mkRuntime (alter g i (rt_tasks rt)) (rt_next rt) (rt_os rt)).
Proof.
  intros Hg HP j t'. simpl. rewrite lookup_alter_Some.
  intros [[-> (t & H & ->)]|[_ H]]; [rewrite Hg|]; by apply HP in H.
Qed.

(** Dropping a flow that was taken out of the map closes its task. *)
Lemma drop_owned k F rt fid f :
  F !! fid = Some f → owned k F rt → owned k (delete fid F) (drop_flow f rt).
Proof.
  intros Hfid [Ht Hf]. destruct (Ht fid f Hfid) as [Hlt Htask]. split; simpl.
  - intros fid' f' [Hne Hf']%lookup_delete_Some. destruct (Ht fid' f' Hf') as [Hlt' Htask'].
    split; [done|]. intros t'. rewrite lookup_alter_Some. intros [[Heq (t & H & ->)]|[_ H]]; [|by auto].
    destruct (Htask' t H) as (_ & _ & ?). rewrite <- Heq in H.
    destruct (Htask t H) as (_ & _ & ?). congruence.
  - intros i t'. rewrite lookup_alter_Some. intros [[<- (t & H & ->)]|[Hne H]] Hc Hs; [done|].
    destruct (Hf i t' H Hc Hs) as (f0 & Hf0 & Hi). exists f0. split; [|done].
    apply lookup_delete_Some. split; [|done]. intros Heq. rewrite <- Heq in Hf0. congruence.
Qed.

Lemma drop_frame k F rt fid f :
  rt_ok rt → F !! fid = Some f → owned k F rt → frame k rt (drop_flow f rt).
Proof.
  intros Hok Hfid Ho. apply alter_frame; [done|done|].
  intros t H. by apply (owned_task _ _ _ Ho fid f Hfid) in H as (? & ? & _).
Qed.

Lemma remove_flow_owned k F rt fid F' rt' :
  rt_ok rt → owned k F rt → remove_flow fid F rt = (F', rt') →
  owned k F' rt' ∧ frame k rt rt' ∧ rt_ok rt'.
Proof.
  unfold remove_flow. intros Hok Ho [= <- <-]. destruct (F !! fid) as [f|] eqn:E.
  - split; [by apply drop_owned|]. split; [by eapply drop_frame|by apply alter_ok].
  - rewrite delete_id by done. auto using frame_refl.
Qed.

Lemma remove_flow_all P F rt fid : tasks_all P rt → tasks_all P (remove_flow fid F rt).2.
Proof. intros HP. simpl. case_match; [by apply alter_all|done]. Qed.

(** Dropping all the flows of a connection that goes away. *)
Lemma drop_list_owned k F rt (l : list (Z * Flow)) :
  rt_ok rt → owned k F rt → NoDup l.*1 → (∀ p, p ∈ l → F !! p.1 = Some p.2) →
  let F' := foldr (λ p, delete p.1) F l in
  let rt' := foldr (λ p, drop_flow p.2) rt l in
  owned k F' rt' ∧ frame k rt rt' ∧ rt_ok rt' ∧ (∀ fid, fid ∉ l.*1 → F' !! fid = F !! fid).
Proof.
  intros Hok Ho. induction l as [|[fid f] l IH]; intros Hnd HF; simpl.
  - auto using frame_refl.
  - apply NoDup_cons in Hnd as [Hni Hnd].
    destruct IH as (Ho' & Hfr & Hok' & Hl); [done|intros; apply HF; by right|].
    assert (foldr (λ p, delete p.1) F l !! fid = Some f) as Hfid.
    { rewrite Hl by done. apply (HF (fid, f)). by left. }
    split_and!.
    + by apply drop_owned.
    + eapply frame_trans; [done|]. by eapply drop_frame.
    + by apply alter_ok.
    + intros fid' [Hne Hni']%not_elem_of_cons. rewrite lookup_delete_ne by done. auto.
Qed.

Lemma drop_flows_owned k F rt :
  rt_ok rt → owned k F rt →
  owned k ∅ (drop_flows F rt) ∧ frame k rt (drop_flows F rt) ∧ rt_ok (drop_flows F rt).
Proof.
  intros Hok Ho.
  destruct (drop_list_owned k F rt (map_to_list F)) as (H1 & H2 & H3 & _);
    [done|done|apply NoDup_fst_map_to_list|by intros [fid f]; apply elem_of_map_to_list|].
  split; [|done]. eapply owned_ext; [|exact H1]. f_equal.
  assert (∀ (l : list (Z * Flow)) fid, fid ∈ l.*1 → foldr (λ p, delete p.1) F l !! fid = None) as Hd.
  { induction l as [|[fid' f'] l IH]; intros fid; [by intros ?%not_elem_of_nil|].
    simpl. intros [->|Hin]%elem_of_cons; [by rewrite lookup_delete_eq|].
    rewrite lookup_delete_None. auto. }
  symmetry. apply map_empty. intros fid. destruct (F !! fid) as [f|] eqn:E.
  - apply Hd, list_elem_of_fmap. exists (fid, f). split; [done|]. by apply elem_of_map_to_list.
  - clear H1 H2 H3. induction (map_to_list F) as [|p l IH]; simpl; [done|].
    rewrite lookup_delete_None. auto.
Qed.

Lemma drop_flows_all P F rt : tasks_all P rt → tasks_all P (drop_flows F rt).
Proof.
  intros HP. unfold drop_flows. induction (map_to_list F); simpl; [done|by apply alter_all].
Qed.

(** A new flow with its own new task. *)
Lemma spawn_owned k F rt fid sock now idle :
  rt_ok rt → owned k F rt → F !! fid = None →
  let rt' := (spawn_target sock k fid rt).2 in
  owned k (<[fid := mkFlow (rt_next rt) now idle]> F) rt' ∧ frame k rt rt' ∧ rt_ok rt'.
Proof.
  intros Hok [Ht Hf] Hfid. simpl. set (t0 := mkTask sock _ true k fid).
  split_and!; [split|split|]; simpl; try lia.
  - intros fid' f'. rewrite lookup_insert_Some. intros [[<- <-]|[Hne Hf']]; simpl.
    + split; [lia|]. intros t. rewrite lookup_insert_eq. by intros [= <-].
    + destruct (Ht fid' f' Hf') as [Hlt Htask]. split; [lia|]. by rewrite lookup_insert_ne by lia.
  - intros j t. rewrite lookup_insert_Some. intros [[<- <-]|[Hne Hj]] Hc Hs; simpl.
    + eexists. by rewrite lookup_insert_eq.
    + destruct (Hf j t Hj Hc Hs) as (f & Hfl & Hto). exists f. split; [|done].
      rewrite lookup_insert_ne; [done|]. intros Heq. rewrite <- Heq in Hfl. congruence.
  - intros j t. rewrite lookup_insert_Some. intros [[<- _]|[_ Hj]] ?; [lia|eauto].
  - intros j t. rewrite lookup_insert_Some. intros [[_ <-]|[_ Hj]] ?; [done|].
    apply Hok in Hj. lia.
  - intros j t Hj Hc. rewrite lookup_insert_ne; [done|]. intros <-. apply Hok in Hj. lia.
  - intros j t. simpl. rewrite lookup_insert_Some.
    intros [[<- _]|[_ Hj]]; [lia|]. apply Hok in Hj. lia.
Qed.

(** Opening a flow is dropping the one it replaces, then adding it. *)
Lemma insert_spawned k F rt fid sock f :
  owned k F rt → fl_to_target f = rt_next rt →
  insert_flow fid f F (spawn_target sock k fid rt).2 =
  (<[fid := f]> (remove_flow fid F rt).1, (spawn_target sock k fid (remove_flow fid F rt).2).2).
Proof.
  intros Ho Hf. unfold insert_flow, remove_flow. cbn [fst snd]. f_equal.
  - by rewrite insert_delete_eq.
  - destruct (F !! fid) as [f0|] eqn:E; [|done].
    destruct (owned_task _ _ _ Ho fid f0 E) as [Hlt _].
    unfold drop_flow, spawn_target. simpl. f_equal. apply map_eq. intros j.
    destruct (decide (j = rt_next rt)) as [->|Hj].
    + rewrite lookup_insert_eq, lookup_alter_ne, lookup_insert_eq by lia. done.
    + rewrite lookup_insert_ne by done.
      destruct (decide (j = fl_to_target f0)) as [->|Hj0].
      * by rewrite !lookup_alter_eq, lookup_insert_ne by lia.
      * by rewrite !lookup_alter_ne, lookup_insert_ne by done.
Qed.

Lemma open_owned k F rt fid sock now idle F' rt' :
  rt_ok rt → owned k F rt →
  insert_flow fid (mkFlow (rt_next rt) now idle) F (spawn_target sock k fid rt).2 = (F', rt') →
  owned k F' rt' ∧ frame k rt rt' ∧ rt_ok rt'.
Proof.
  intros Hok Ho. rewrite (insert_spawned k) by done.
  destruct (remove_flow fid F rt) as [F0 rt0] eqn:E.
  assert (F0 !! fid = None ∧ rt_next rt0 = rt_next rt) as [HF0 Hn].
  { unfold remove_flow in E. injection E as <- <-. rewrite lookup_delete_eq. by case_match. }
  apply (remove_flow_owned k) in E as (Ho0 & Hfr & Hok0); [|done..]. cbn [fst snd].
  intros [= <- <-]. rewrite <- Hn.
  destruct (spawn_owned k F0 rt0 fid sock now idle) as (H1 & H2 & H3); [done..|].
  split_and!; [done|by eapply frame_trans|done].
Qed.

Lemma spawn_all P rt sock k fid :
  P sock → tasks_all P rt → tasks_all P (spawn_target sock k fid rt).2.
Proof.
  intros HP Hall j t. simpl. rewrite lookup_insert_Some. intros [[_ <-]|[_ Hj]]; [done|].
  by apply Hall in Hj.
Qed.
End Owned.

(** ** Serving one connection *)

(** Flow ids are quarters of stream ids. *)
Definition fids_ok (F : gmap Z Flow) : Prop :=
  ∀ fid f, F !! fid = Some f → (0 ≤ fid < 2 ^ 60)%Z.

Lemma fids_ok_delete F fid : fids_ok F → fids_ok (delete fid F).
Proof. intros H i f [_ Hi]%lookup_delete_Some. eauto. Qed.

Lemma fids_ok_insert F fid f : (0 ≤ fid < 2 ^ 60)%Z → fids_ok F → fids_ok (<[fid := f]> F).
Proof. intros Hf H i f'. rewrite lookup_insert_Some. intros [[<- _]|[_ Hi]]; eauto. Qed.

Lemma quarter_range i : (0 ≤ i < 2 ^ 62)%Z → (0 ≤ i / 4 < 2 ^ 60)%Z.
Proof. intros. split; [apply Z.div_pos; lia|]. apply Z.div_lt_upper_bound; lia. Qed.

Section SessionInv.
Context {Conn H3 H3Config Config Sock Os : Type} {Chan : Type → Type}.
Context `{QS : QuicheStreams Conn H3 H3Config} `{QV : QuicheServer Conn Config}.
Context `{U : UdpSys Sock} `{SA : SocketApi Sock Os} `{M : Mpsc Chan} `{HI : HashIter}.
Context (linux : bool) (P : Sock → Prop).
Local Abbreviation Session := (Session Conn H3 Sock Os Chan).
Local Abbreviation Runtime := (Runtime Sock Os Chan).
Implicit Types (st : Session) (rt : Runtime) (k : Scid).

(** Every socket opened for a rule of the table satisfies [P]. *)
Definition opens (rules : RuleTable) : Prop :=
  ∀ a p rule os client sock os',
    match_target rules a p = Some rule →
    bind_target linux os (m_target rule) client (m_transparent rule) (m_fwmark rule) = (Ok sock, os') →
    P sock.

(** The invariant of connection [k] since the runtime was [rt0]. *)
Record sess_ok k rt0 st : Prop := {
  so_owned : owned k (ss_flows st) (ss_rt st);
  so_frame : frame k rt0 (ss_rt st);
  so_ok : rt_ok (ss_rt st);
  so_fids : fids_ok (ss_flows st);
  so_all : tasks_all P (ss_rt st);
}.

Lemma sess_ok_conn k rt0 st c h :
  sess_ok k rt0 st → sess_ok k rt0 (mkSession c h (ss_flows st) (ss_rt st)).
Proof. by intros []. Qed.

Lemma sess_ok_os k rt0 st os :
  sess_ok k rt0 st → sess_ok k rt0 (mkSession (ss_conn st) (ss_http3 st) (ss_flows st) (set_os (ss_rt st) os)).
Proof.
  intros [Ho Hf Hk Hi Ha].
  split; [by destruct Ho; split|by destruct Hf; split|done|done|done].
Qed.

Lemma respond_ok k rt0 st i hs fin r st' :
  sess_ok k rt0 st → respond st i hs fin = (r, st') → sess_ok k rt0 st'.
Proof.
  unfold respond. destruct (send_response _ _ _ _ _) as [r' [h c]]. intros H [= _ <-].
  by apply sess_ok_conn.
Qed.

Lemma respond_status_ok k rt0 st i status :
  sess_ok k rt0 st → sess_ok k rt0 (respond_status st i status).
Proof.
  intros H. unfold respond_status. destruct (respond _ _ _ _) eqn:E. by eapply respond_ok.
Qed.

Lemma remove_ok k rt0 st c h fid F' rt' :
  sess_ok k rt0 st → remove_flow fid (ss_flows st) (ss_rt st) = (F', rt') →
  sess_ok k rt0 (mkSession c h F' rt').
Proof.
  intros [Ho Hf Hk Hi Ha] E. pose proof (remove_flow_all _ (ss_flows st) _ fid Ha) as Ha'.
  rewrite E in Ha'. pose proof E as E2. unfold remove_flow in E2. injection E2 as <- _.
  apply (remove_flow_owned k) in E as (H1 & H2 & H4); [|done..].
  split; simpl; [done|by eapply frame_trans|done|by apply fids_ok_delete|done].
Qed.

(** A flow with its new task, before the answer. *)
Lemma insert_ok k rt0 st now i idle sock F' rt' :
  sess_ok k rt0 st → (0 ≤ i < 2 ^ 62)%Z → P sock →
  insert_flow (i / 4) (mkFlow (rt_next (ss_rt st)) now idle) (ss_flows st)
    (spawn_target sock k (i / 4) (ss_rt st)).2 = (F', rt') →
  sess_ok k rt0 (mkSession (ss_conn st) (ss_http3 st) F' rt').
Proof.
  intros [Ho Hf Hk Hi Ha] Hr HP E.
  assert (tasks_all P rt') as Ha'.
  { injection E as _ <-. destruct (ss_flows st !! _); [apply alter_all; [done|]|];
      by apply (spawn_all P (ss_rt st) sock k (i / 4)). }
  pose proof E as E2. injection E2 as <- _. apply (open_owned k) in E as (H1 & H2 & H4); [|done..].
  split; simpl; [done|by eapply frame_trans|done|apply fids_ok_insert; [by apply quarter_range|done]|done].
Qed.

Lemma open_flow_ok k rt0 st now i rule sock :
  sess_ok k rt0 st → (0 ≤ i < 2 ^ 62)%Z → P sock →
  sess_ok k rt0 (open_flow now k i rule sock st).
Proof.
  intros Hs Hr HP. unfold open_flow.
  destruct (spawn_target sock k (i / 4) (ss_rt st)) as [j rt1] eqn:Es.
  destruct (insert_flow _ _ _ rt1) as [F' rt'] eqn:E. injection Es as <- <-.
  eapply insert_ok in E; [|done..].
  destruct (respond _ _ _ _) as [[u|e] st'] eqn:Er; [by eapply respond_ok|].
  eapply respond_ok in Er; [|exact E].
  destruct (remove_flow _ _ _) as [F'' rt''] eqn:Ed. by apply (remove_ok _ _ st' _ _ (i / 4)).
Qed.

Lemma handle_connect_request_ok k rt0 st now rules from i hs :
  opens rules → sess_ok k rt0 st → (0 ≤ i < 2 ^ 62)%Z →
  sess_ok k rt0 (handle_connect_request linux now rules from k i hs st).
Proof.
  intros Hop Hs Hi. unfold handle_connect_request.
  destruct (parse_request hs) as [req|status]; [|by apply respond_status_ok].
  destruct (match_target _ _ _) as [rule|] eqn:Em; [|by apply respond_status_ok].
  destruct (bind_target _ _ _ _ _ _) as [[sock|e] os] eqn:Eb.
  - apply open_flow_ok; [by apply sess_ok_os|done|by eapply Hop].
  - by apply respond_status_ok, sess_ok_os.
Qed.

Lemma on_event_ok k rt0 st fuel now rules from :
  opens rules → sess_ok k rt0 st →
  match on_event linux fuel now rules from k st with
  | inl st' | inr (Some st') => sess_ok k rt0 st'
  | inr None => True
  end.
Proof.
  intros Hop Hs. unfold on_event.
  destruct (poll _ _) as [[[i ev]|e] [h c]] eqn:Ep; [|by apply sess_ok_conn].
  apply poll_stream in Ep as Hi. destruct ev.
  - apply handle_connect_request_ok; [done|by apply sess_ok_conn|done].
  - destruct (drain_body _ _ _ _) as [[h' c']|]; [|done]. cbn [ss_flows ss_rt]. by apply sess_ok_conn.
  - cbn [ss_flows ss_rt]. destruct (remove_flow _ _ _) as [F' rt'] eqn:E.
    by apply (remove_ok _ _ st _ _ (i / 4)).
  - cbn [ss_flows ss_rt]. destruct (remove_flow _ _ _) as [F' rt'] eqn:E.
    by apply (remove_ok _ _ st _ _ (i / 4)).
  - by apply sess_ok_conn.
Qed.

Lemma on_datagram_ok k rt0 st now buf :
  sess_ok k rt0 st → ∃ st', on_datagram now buf st = Returns st' ∧ sess_ok k rt0 st'.
Proof.
  intros Hs. unfold on_datagram. destruct (decode_never_panics buf) as [o ->].
  cbn [mbind panics_bind]. destruct o as [p|]; [|by eexists].
  destruct (negb _); [by eexists|]. destruct (ss_flows st !! flow_id p) as [f|] eqn:Ef; [|by eexists].
  eexists. split; [reflexivity|]. destruct Hs as [Ho Hf Hk Hi Ha].
  split; cbn [ss_flows ss_rt].
  - apply alter_owned; [done|]. eapply owned_ext; [|exact Ho].
    rewrite fmap_insert. simpl. apply insert_id. by rewrite lookup_fmap, Ef.
  - eapply frame_trans; [exact Hf|]. apply alter_frame; [done|done|].
    intros t Ht. by apply (owned_task _ _ _ Ho _ _ Ef) in Ht as (? & ? & _).
  - by apply alter_ok.
  - apply fids_ok_insert; [by eapply Hi|done].
  - by apply alter_all.
Qed.

Lemma drain_client_datagrams_ok k rt0 st fuel now r :
  sess_ok k rt0 st → drain_client_datagrams fuel now st = Some r →
  ∃ st', r = Returns st' ∧ sess_ok k rt0 st'.
Proof.
  intros Hs. unfold drain_client_datagrams.
  apply (loop_invariant _ (sess_ok k rt0) (λ r, ∃ st', r = Returns st' ∧ sess_ok k rt0 st'));
    [..|exact Hs].
  - intros s s' H. destruct (dgram_recv _ _) as [[b|e] c]; [|done].
    destruct (on_datagram_ok k rt0 _ now b (sess_ok_conn _ _ _ c (ss_http3 s) H)) as (s1 & -> & H1).
    by intros [= <-].
  - intros s r' H. destruct (dgram_recv _ _) as [[b|e] c].
    + destruct (on_datagram_ok k rt0 _ now b (sess_ok_conn _ _ _ c (ss_http3 s) H)) as (s1 & -> & H1).
      done.
    + intros [= <-]. eexists. split; [reflexivity|]. by apply sess_ok_conn.
Qed.

(** What [process_client] leaves behind. *)
Definition client_ok k rt0 (cl : Client Conn H3) rt : Prop :=
  owned k (cl_flows cl) rt ∧ frame k rt0 rt ∧ rt_ok rt ∧ fids_ok (cl_flows cl) ∧ tasks_all P rt.

Lemma process_client_ok k rt0 fuel now h3c rules cl rt r :
  opens rules → client_ok k rt0 cl rt →
  process_client linux fuel now k h3c rules cl rt = Some r →
  ∃ cl' rt', r = Returns (cl', rt') ∧ client_ok k rt0 cl' rt' ∧ cl_peer cl' = cl_peer cl.
Proof.
  intros Hop Hc. unfold process_client.
  destruct (negb _); [intros [= <-]; by eexists _, _|].
  destruct (match cl_http3 cl with Some h3 => _ | None => _ end) as [[h3|] c];
    [|intros [= <-]; by eexists _, _].
  destruct (mjoin _) as [st|] eqn:El; [|done].
  assert (sess_ok k rt0 st) as Hst.
  { destruct (loop _ _ _) as [o|] eqn:E; [|done]. simpl in El. subst o.
    eapply (loop_invariant _ (sess_ok k rt0)
      (λ o, match o with Some s => sess_ok k rt0 s | None => True end)) in E; [done|..].
    - intros s s' Hs He. pose proof (on_event_ok _ _ _ fuel now rules (cl_peer cl) Hop Hs) as H.
      by rewrite He in H.
    - intros s o Hs He. pose proof (on_event_ok _ _ _ fuel now rules (cl_peer cl) Hop Hs) as H.
      by rewrite He in H.
    - destruct Hc as (? & ? & ? & ? & ?). by split. }
  destruct (drain_client_datagrams _ _ _) as [p|] eqn:Ed; [|done].
  eapply drain_client_datagrams_ok in Ed as (st' & -> & [? ? ? ? ?]); [|exact Hst].
  intros [= <-]. eexists _, _. split; [reflexivity|]. by split_and!.
Qed.
End SessionInv.

(** ** The whole server *)

Section ServerInv.
Context {Conn H3 H3Config Config Sock Os : Type} {Chan : Type → Type}.
Context `{QS : QuicheStreams Conn H3 H3Config} `{QV : QuicheServer Conn Config}.
Context `{U : UdpSys Sock} `{SA : SocketApi Sock Os} `{M : Mpsc Chan} `{HI : HashIter}.
Context (linux : bool) (P : Sock → Prop).
Local Abbreviation Server := (Server Conn H3 H3Config Config Sock Os Chan).
Local Abbreviation Runtime := (Runtime Sock Os Chan).
Implicit Types (sv : Server) (rt : Runtime) (k : Scid).

Definition flows_of sv k : gmap Z Flow :=
  match sv_clients sv !! k with Some c => cl_flows c | None => ∅ end.

Record server_ok sv : Prop := {
  sv_routes_ok d k : sv_routes sv !! d = Some k → is_Some (sv_clients sv !! k);
  sv_owned k : owned k (flows_of sv k) (sv_rt sv);
  sv_rt_ok : rt_ok (sv_rt sv);
  sv_fids k : fids_ok (flows_of sv k);
  sv_all : tasks_all P (sv_rt sv);
}.

Lemma flows_of_Some sv k c : sv_clients sv !! k = Some c → flows_of sv k = cl_flows c.
Proof. unfold flows_of. by intros ->. Qed.

Lemma client_ok_of sv k cl c h peer :
  server_ok sv → sv_clients sv !! k = Some cl →
  client_ok P k (sv_rt sv) (mkClient (Conn := Conn) (H3 := H3) c h (cl_flows cl) peer) (sv_rt sv).
Proof.
  intros [Hr Ho Hk Hf Ha] Hcl. rewrite <- (flows_of_Some _ _ _ Hcl).
  split_and!; [apply Ho|by apply frame_refl|done|apply Hf|done].
Qed.

(** Changing one connection and its tasks keeps the invariant. *)
Lemma set_client_ok sv k cl rt' :
  server_ok sv → client_ok P k (sv_rt sv) cl rt' →
  server_ok (set_clients sv (<[k := cl]> (sv_clients sv)) rt').
Proof.
  intros [Hr Ho Hk Hf Ha] (H1 & H2 & H4 & H5 & H6).
  split; cbn [set_clients sv_routes sv_clients sv_rt]; try done.
  - intros d k' Hd. destruct (decide (k' = k)) as [->|Hne]; [by rewrite lookup_insert_eq|].
    rewrite lookup_insert_ne by done. eauto.
  - intros k'. unfold flows_of. simpl. destruct (decide (k' = k)) as [->|Hne].
    + by rewrite lookup_insert_eq.
    + rewrite lookup_insert_ne by done. by eapply owned_frame; [..|apply Ho].
  - intros k'. unfold flows_of. simpl. destruct (decide (k' = k)) as [->|Hne].
    + by rewrite lookup_insert_eq.
    + rewrite lookup_insert_ne by done. apply (Hf k').
Qed.

(** Fields the invariant does not mention. *)
Lemma server_ok_same sv sv' :
  sv_clients sv' = sv_clients sv → sv_routes sv' = sv_routes sv → sv_rt sv' = sv_rt sv →
  server_ok sv → server_ok sv'.
Proof.
  intros Hc Hr Ht [H1 H2 H4 H5 H6].
  split; unfold flows_of in *; rewrite ?Hc, ?Hr, ?Ht; done.
Qed.

Lemma set_socket_ok sv s : server_ok sv → server_ok (set_socket sv s).
Proof. by apply server_ok_same. Qed.

Lemma deliver_ok sv fuel now k pkt from r :
  opens linux P (sv_rules sv) → server_ok sv → is_Some (sv_clients sv !! k) →
  deliver linux fuel now sv k pkt from = Some r →
  ∃ sv', r = Returns sv' ∧ server_ok sv' ∧ sv_rules sv' = sv_rules sv.
Proof.
  intros Hop Hs [cl Hcl]. unfold deliver. rewrite Hcl.
  destruct (recv _ _ _ _) as [[n|e] c] eqn:Er.
  - destruct (process_client _ _ _ _ _ _ _ _) as [p|] eqn:Ep; [|done].
    eapply process_client_ok in Ep as (cl' & rt' & -> & Hc & _);
      [|exact Hop|by apply client_ok_of].
    intros [= <-]. eexists. split; [reflexivity|]. split; [by apply set_client_ok|done].
  - intros [= <-]. eexists. split; [reflexivity|].
    split; [apply set_client_ok; [done|by apply client_ok_of]|done].
Qed.

Lemma route_ok sv d k : server_ok sv → route sv d = ToConnection k → is_Some (sv_clients sv !! k).
Proof.
  intros Hs. unfold route. destruct (scid_try_from d) as [s|] eqn:E; simpl.
  - case_bool_decide; [by intros [= <-]|].
    destruct (sv_routes sv !! d) eqn:Hd; [|done]. intros [= <-]. by eapply sv_routes_ok.
  - destruct (sv_routes sv !! d) eqn:Hd; [|done]. intros [= <-]. by eapply sv_routes_ok.
Qed.

Lemma accept_ok sv rnd d from r sv' :
  server_ok sv → accept sv rnd d from = (r, sv') →
  server_ok sv' ∧ sv_rules sv' = sv_rules sv ∧ (∀ k, r = Ok k → is_Some (sv_clients sv' !! k)).
Proof.
  intros Hs. unfold accept. destruct (quiche_accept _ _ _ _) as [[c|e] cfg].
  2:{ intros [= <- <-]. split; [by eapply server_ok_same; [..|exact Hs]|done]. }
  intros [= <- <-]. cbn [sv_clients sv_rules].
  split; [|split; [done|intros k [= <-]; by rewrite lookup_insert_eq]].
  set (rt' := match sv_clients sv !! rnd with Some old => _ | None => _ end).
  assert (client_ok P rnd (sv_rt sv) (mkClient (Conn := Conn) (H3 := H3) c None ∅ from) rt') as Hcl.
  { destruct Hs as [Hr Ho Hk Hf Ha]. specialize (Ho rnd). unfold flows_of in Ho. unfold rt'.
    destruct (sv_clients sv !! rnd) as [old|].
    - destruct (drop_flows_owned rnd (cl_flows old) (sv_rt sv)) as (H1 & H2 & H4); [done..|].
      split_and!; [done..|by apply drop_flows_all].
    - split_and!; [done|by apply frame_refl|done..]. }
  pose proof (set_client_ok _ _ _ _ Hs Hcl) as [Hr Ho Hk Hf Ha].
  split; [|exact Ho|exact Hk|exact Hf|exact Ha].
  cbn [sv_routes sv_clients set_clients] in *. intros d' k. rewrite lookup_insert_Some.
  intros [[_ <-]|[_ Hd]]; [by rewrite lookup_insert_eq|eauto].
Qed.

(** No packet makes the server panic, and every packet keeps the invariant. *)
Lemma on_packet_ok sv fuel now rnd pkt from r :
  opens linux P (sv_rules sv) → server_ok sv →
  on_packet linux fuel now rnd sv pkt from = Some r →
  ∃ sv', r = Returns sv' ∧ server_ok sv' ∧ sv_rules sv' = sv_rules sv.
Proof.
  intros Hop Hs. unfold on_packet.
  destruct (header_from_slice _ _) as [hdr|e]; [|intros [= <-]; by eauto].
  destruct (route _ _) as [k|] eqn:Er.
  - apply deliver_ok; [done|done|by eapply route_ok].
  - destruct (negb _); [intros [= <-]; by eauto|].
    destruct (negb _).
    + unfold send_version_negotiation.
      destruct (negotiate_version _ _ _) as [out|e]; [|intros [= <-]; by eauto].
      destruct (send_udp _ _ _ _ _) as [[r' s]|]; [|done].
      intros [= <-]. eexists. split; [reflexivity|].
      split; [by eapply server_ok_same; [..|exact Hs]|done].
    + destruct (accept _ _ _ _) as [[k|e] sv'] eqn:Ea;
        apply accept_ok in Ea as (Hs' & Hru & Hk); try done.
      * intros H. apply deliver_ok in H as (sv2 & -> & H2 & H4); [|by rewrite Hru|done|auto].
        eexists. split; [reflexivity|]. by rewrite H4.
      * intros [= <-]. by eauto.
Qed.

Lemma on_target_payload_ok sv tc now : server_ok sv → server_ok (on_target_payload tc now sv).
Proof.
  intros Hs. unfold on_target_payload.
  destruct (sv_clients sv !! tc_conn_id tc) as [cl|] eqn:E; [|done].
  destruct (dgram_send _ _) as [r c]. apply set_client_ok; [done|].
  destruct (client_ok_of sv (tc_conn_id tc) cl c (cl_http3 cl) (cl_peer cl) Hs E)
    as (H1 & H2 & H4 & H5 & H6). split_and!; try done; cbn [cl_flows] in *.
  - eapply owned_ext; [|exact H1]. apply map_eq. intros i. rewrite !lookup_fmap.
    destruct (decide (tc_flow_id tc = i)) as [<-|Hne].
    + rewrite lookup_alter_eq. by destruct (cl_flows cl !! _).
    + by rewrite lookup_alter_ne.
  - intros fid f. rewrite lookup_alter_Some.
    intros [[<- (f0 & Hf0 & _)]|[_ Hf0]]; by apply H5 in Hf0.
Qed.

Lemma on_timeouts_ok sv : server_ok sv → server_ok (on_timeouts sv).
Proof.
  intros [Hr Ho Hk Hf Ha]. unfold on_timeouts, for_clients.
  assert (∀ k, map_imap (λ _ c, Some (set_conn c (on_timeout (cl_conn c)))) (sv_clients sv) !! k
            = (λ c, set_conn c (on_timeout (cl_conn c))) <$> sv_clients sv !! k) as Hl.
  { intros k. rewrite map_lookup_imap. by destruct (sv_clients sv !! k). }
  split; cbn [set_clients sv_routes sv_clients sv_rt]; try done.
  - intros d k Hd. rewrite Hl. destruct (Hr d k Hd) as [c ->]. by eexists.
  - intros k. specialize (Ho k). unfold flows_of in *. cbn [set_clients sv_clients].
    rewrite Hl. by destruct (sv_clients sv !! k).
  - intros k. specialize (Hf k). unfold flows_of in *. cbn [set_clients sv_clients].
    rewrite Hl. by destruct (sv_clients sv !! k).
Qed.

Lemma flush_client_ok sv fuel k sv' :
  server_ok sv → flush_client linux fuel k sv = Some sv' →
  server_ok sv' ∧ sv_rules sv' = sv_rules sv.
Proof.
  intros Hs. unfold flush_client. destruct (sv_clients sv !! k) as [cl|] eqn:E.
  2:{ by intros [= <-]. }
  destruct (flush_connection _ _ _ _) as [[r st]|]; [|done]. intros [= <-].
  split; [|done]. apply set_socket_ok, set_client_ok; [done|].
  by apply client_ok_of.
Qed.

Lemma flush_all_ok sv fuel sv' :
  server_ok sv → flush_all linux fuel sv = Some sv' →
  server_ok sv' ∧ sv_rules sv' = sv_rules sv.
Proof.
  unfold flush_all. generalize (iter (sv_clients sv)). intros l. revert sv.
  induction l as [|p l IH]; intros sv Hs; simpl; [by intros [= <-]|].
  destruct (flush_client linux fuel p.1 sv) as [sv1|] eqn:E.
  - apply flush_client_ok in E as [H1 <-]; [|done]. by apply IH.
  - intros H. exfalso. clear -H. induction l; simpl in H; [done|auto].
Qed.

(** Iterating over the clients while changing only the entry at hand. *)
Lemma fold_clients_ok (I : Server → Prop) (f : Server → Scid * Client Conn H3 → Server) sv :
  (∀ sv p, I sv → sv_clients sv !! p.1 = Some p.2 → I (f sv p)) →
  (∀ sv p k, k ≠ p.1 → sv_clients (f sv p) !! k = sv_clients sv !! k) →
  I sv → I (fold_left f (iter (sv_clients sv)) sv).
Proof.
  intros Hf Hother. pose proof (iter_perm (sv_clients sv)) as Hp.
  assert (NoDup (iter (sv_clients sv)).*1) as Hnd.
  { rewrite Hp. apply NoDup_fst_map_to_list. }
  assert (∀ p, p ∈ iter (sv_clients sv) → sv_clients sv !! p.1 = Some p.2) as Hin.
  { intros [k c]. rewrite Hp. apply elem_of_map_to_list. }
  clear Hp. revert Hnd Hin. generalize (iter (sv_clients sv)). intros l. revert sv.
  induction l as [|p l IH]; intros sv Hnd Hin Hsv; simpl; [done|].
  apply NoDup_cons in Hnd as [Hni Hnd]. apply IH; [done|..].
  - intros q Hq. rewrite Hother; [apply Hin; by right|]. intros Heq. apply Hni. fold (fmap fst l).
    rewrite <- Heq. by apply list_elem_of_fmap_2.
  - apply Hf; [done|]. apply Hin. by left.
Qed.

Lemma reap_client_ok sv p :
  server_ok sv → sv_clients sv !! p.1 = Some p.2 → server_ok (reap_client sv p).
Proof.
  intros [Hr Ho Hk Hf Ha] Hp. unfold reap_client. destruct (is_closed _); [|done].
  pose proof (Ho p.1) as Hop. rewrite (flows_of_Some _ _ _ Hp) in Hop.
  destruct (drop_flows_owned p.1 (cl_flows p.2) (sv_rt sv)) as (H1 & H2 & H4); [done..|].
  split; cbn [sv_routes sv_clients sv_rt]; try done.
  - intros d k [Hd Hne]%map_lookup_filter_Some. simpl in Hne. rewrite lookup_delete_ne by done. eauto.
  - intros k. unfold flows_of. cbn [sv_clients]. destruct (decide (k = p.1)) as [->|Hne].
    + by rewrite lookup_delete_eq.
    + rewrite lookup_delete_ne by done. by eapply owned_frame; [..|apply Ho].
  - intros k. unfold flows_of. cbn [sv_clients]. destruct (decide (k = p.1)) as [->|Hne].
    + by rewrite lookup_delete_eq.
    + rewrite lookup_delete_ne by done. apply (Hf k).
  - by apply drop_flows_all.
Qed.

Lemma reap_closed_ok sv : server_ok sv → server_ok (reap_closed sv).
Proof.
  apply fold_clients_ok; [apply reap_client_ok|]. clear sv. intros sv p k Hk.
  unfold reap_client. destruct (is_closed _); [|done]. simpl. by rewrite lookup_delete_ne.
Qed.

Lemma expire_flows_ok k rt0 c h peer F rt (l : list Z) :
  client_ok P k rt0 (mkClient (Conn := Conn) (H3 := H3) c h F peer) rt →
  let '(c', F', rt') := fold_left expire_flow l (c, F, rt) in
  client_ok P k rt0 (mkClient c' h F' peer) rt'.
Proof.
  revert c F rt. induction l as [|fid l IH]; intros c F rt Hc; [exact Hc|].
  cbn [fold_left]. unfold expire_flow at 2. destruct (remove_flow fid F rt) as [F' rt'] eqn:E.
  apply IH. destruct Hc as (H1 & H2 & H4 & H5 & H6). cbn [cl_flows] in *.
  pose proof (remove_flow_all P F rt fid H6) as H7. rewrite E in H7.
  pose proof E as E2. injection E2 as <- _.
  apply (remove_flow_owned k) in E as (? & ? & ?); [|done..].
  split_and!; [done|by eapply frame_trans|done|by apply fids_ok_delete|done].
Qed.

Lemma sweep_ok sv now : server_ok sv → server_ok (sweep_idle_flows now sv).
Proof.
  apply fold_clients_ok; clear sv.
  - intros sv p Hs Hp. unfold sweep_client.
    pose proof (expire_flows_ok p.1 (sv_rt sv) (cl_conn p.2) (cl_http3 p.2) (cl_peer p.2)
      (cl_flows p.2) (sv_rt sv) (expired now (cl_flows p.2))
      (client_ok_of _ _ _ _ _ _ Hs Hp)) as H.
    destruct (fold_left _ _ _) as [[c F] rt]. by apply set_client_ok.
  - intros sv p k Hk. unfold sweep_client. destruct (fold_left _ _ _) as [[c F] rt].
    simpl. by rewrite lookup_insert_ne.
Qed.
End ServerInv.

(** ** Target tasks and runs of the server *)

(** Sending and receiving keep [P]. *)
Record keeps {Sock} `{U : UdpSys Sock} (P : Sock → Prop) : Prop := {
  keeps_send s to p control r s' : P s → sendmsg s to p control = (r, s') → P s';
  keeps_writable s r s' : P s → writable s = (r, s') → P s';
  keeps_recv s n r s' : P s → recvmsg s n = (r, s') → P s';
}.

Section Runs.
Context {Conn H3 H3Config Config Sock Os : Type} {Chan : Type → Type}.
Context `{QS : QuicheStreams Conn H3 H3Config} `{QV : QuicheServer Conn Config}.
Context `{U : UdpSys Sock} `{SA : SocketApi Sock Os} `{M : Mpsc Chan} `{HI : HashIter}.
Context (linux : bool) (P : Sock → Prop) (HP : keeps P).
Local Abbreviation Server := (Server Conn H3 H3Config Config Sock Os Chan).
Implicit Types (sv : Server) (t : Task Sock Chan).

Definition same_task t t' : Prop :=
  t_sender t' = t_sender t ∧ t_conn_id t' = t_conn_id t ∧ t_flow_id t' = t_flow_id t ∧
  P (t_sock t').

Lemma send_udp_connected_keeps fuel p s r s' :
  P s → send_udp_connected fuel p s = Some (r, s') → P s'.
Proof.
  intros Hs Hl. unfold send_udp_connected in Hl.
  eapply (loop_invariant _ P (λ o, P o.2)) in Hl; [done|..|done].
  - intros x x' Hx. unfold retry, sendmsg_udp_connected.
    destruct (sendmsg _ _ _ _) as [r0 y] eqn:E. apply (keeps_send _ HP) in E; [|done].
    destruct (check_sent _ _); [done|]. destruct (would_block _); [|done].
    destruct (writable y) as [[u|e'] z] eqn:E2; [|done]. apply (keeps_writable _ HP) in E2; [|done].
    by intros [= <-].
  - intros x o Hx. unfold retry, sendmsg_udp_connected.
    destruct (sendmsg _ _ _ _) as [r0 y] eqn:E. apply (keeps_send _ HP) in E; [|done].
    destruct (check_sent _ _); [by intros [= <-]|]. destruct (would_block _); [|by intros [= <-]].
    destruct (writable y) as [[u|e'] z] eqn:E2; [done|]. apply (keeps_writable _ HP) in E2; [|done].
    by intros [= <-].
Qed.

Lemma recv_target_keeps n t ch b t' ch' :
  P (t_sock t) → recv_target n t ch = (b, t', ch') → same_task t t'.
Proof.
  revert t ch. induction n as [|n IH]; intros t ch Ht; cbn [recv_target].
  - by intros [= _ <- _].
  - unfold recv_udp_connected. destruct (recvmsg _ _) as [[[[buf a] c]|e] s] eqn:E;
      apply (keeps_recv _ HP) in E; try done.
    + destruct (try_send _ _) as [sent ch1]. destruct (_ && _); [by intros [= _ <- _]|].
      intros H. by apply IH in H.
    + destruct (would_block e); [by intros [= _ <- _]|].
      destruct (interrupted e); [|by intros [= _ <- _]]. intros H. by apply IH in H.
Qed.

Lemma target_task_keeps fuel w t ch t' ch' :
  P (t_sock t) → target_task fuel w t ch = Some (Some t', ch') → same_task t t'.
Proof.
  intros Ht. destruct w; cbn [target_task].
  - destruct (try_recv _) as [[p|] c].
    + destruct (send_udp_connected _ _ _) as [[r s]|] eqn:E; [|done].
      apply send_udp_connected_keeps in E; [|done]. by intros [= <- _].
    + destruct (t_sender t) eqn:Es; [|done]. by intros [= <- _].
  - destruct (recv_target _ _ _) as [[b t1] c] eqn:E. apply recv_target_keeps in E; [|done].
    destruct b; [|done]. by intros [= <- _].
  - done.
Qed.

Lemma run_task_ok sv fuel i w sv' :
  server_ok P sv → run_task fuel i w sv = Some sv' → server_ok P sv' ∧ sv_rules sv' = sv_rules sv.
Proof.
  intros [Hr Ho Hk Hf Ha]. unfold run_task.
  destruct (rt_tasks (sv_rt sv) !! i) as [t|] eqn:Et; [|by intros [= <-]; split; [split|]].
  destruct (target_task _ _ _ _) as [[o ch]|] eqn:E; [|done]. intros [= <-]. split; [|done].
  assert (∀ j t', partial_alter (λ _, o) i (rt_tasks (sv_rt sv)) !! j = Some t' →
            ∃ t0, rt_tasks (sv_rt sv) !! j = Some t0 ∧ same_task t0 t') as Hback.
  { intros j t'. destruct (decide (i = j)) as [<-|Hne].
    - rewrite lookup_partial_alter_eq. intros ->. exists t. split; [done|].
      eapply target_task_keeps; [|exact E]. by apply Ha in Et.
    - rewrite lookup_partial_alter_ne by done. intros Hj. exists t'. split; [done|].
      split_and!; [done..|]. by apply Ha in Hj. }
  split; cbn [sv_routes sv_clients sv_rt]; [exact Hr| | |exact Hf|].
  - intros k. specialize (Ho k). unfold flows_of in *. cbn [sv_clients]. destruct Ho as [H1 H2].
    split; cbn [rt_tasks rt_next].
    + intros fid f Hfid. destruct (H1 fid f Hfid) as [Hlt Ht]. split; [done|].
      intros t' Ht'. destruct (Hback _ _ Ht') as (t0 & H0 & (-> & -> & -> & _)). auto.
    + intros j t' Ht'. destruct (Hback _ _ Ht') as (t0 & H0 & (-> & -> & -> & _)). eauto.
  - intros j t' Ht'. destruct (Hback _ _ Ht') as (t0 & H0 & _). by apply Hk in H0.
  - intros j t' Ht'. by destruct (Hback _ _ Ht') as (t0 & H0 & (_ & _ & _ & ?)).
Qed.

Lemma drain_targets_ok sv fuel now sv' :
  server_ok P sv → drain_targets fuel now sv = Some sv' →
  server_ok P sv' ∧ sv_rules sv' = sv_rules sv.
Proof.
  intros Hs Hl. unfold drain_targets in Hl.
  eapply (loop_invariant _ (λ s, server_ok P s ∧ sv_rules s = sv_rules sv)
    (λ s, server_ok P s ∧ sv_rules s = sv_rules sv)) in Hl; [done|..|done].
  - intros s s' [H1 H2]. destruct (try_recv _) as [[tc|] ch]; [|done]. intros [= <-]. split.
    + apply on_target_payload_ok. by eapply server_ok_same; [..|exact H1].
    + unfold on_target_payload. cbn [sv_clients]. destruct (sv_clients s !! _); [|done].
      by destruct (dgram_send _ _).
  - intros s s' [H1 H2]. destruct (try_recv _) as [[tc|] ch]; [done|]. intros [= <-].
    split; [by eapply server_ok_same; [..|exact H1]|done].
Qed.

(** The steps of the system: the handlers of the main loop, a turn of a target task,
    a reload and a turn of the receive task, in any order. *)
Inductive step (Allowed : RuleTable → Prop) sv : Server → Prop :=
| step_packet fuel now rnd pkt from sv' :
    length rnd = LOCAL_CONN_ID_LEN →
    on_packet linux fuel now rnd sv pkt from = Some (Returns sv') → step Allowed sv sv'
| step_targets fuel now sv' : drain_targets fuel now sv = Some sv' → step Allowed sv sv'
| step_timeout : step Allowed sv (on_timeouts sv)
| step_sweep now : step Allowed sv (sweep_idle_flows now sv)
| step_flush fuel k sv' : flush_client linux fuel k sv = Some sv' → step Allowed sv sv'
| step_reap : step Allowed sv (reap_closed sv)
| step_task fuel i w sv' : run_task fuel i w sv = Some sv' → step Allowed sv sv'
| step_reload config rules : Allowed rules → step Allowed sv (set_server_config config rules sv)
| step_recv w b s' (tx tx' : Chan (bytes * SocketAddr)%type) :
    spawn_udp_recv linux MAX_DATAGRAM_SIZE w (sv_socket sv, tx) = (b, (s', tx')) →
    step Allowed sv (set_socket sv s').

(** The states a server started with an allowed rule table can reach. *)
Definition reachable (Allowed : RuleTable → Prop) sv : Prop :=
  ∃ sv0 socket addr h3 config rules os,
    server_new socket addr h3 config rules os = Ok sv0 ∧ Allowed rules ∧
    rtc (step Allowed) sv0 sv.

Lemma fold_rules {A} (f : Server → A → Server) l sv :
  (∀ sv a, sv_rules (f sv a) = sv_rules sv) → sv_rules (fold_left f l sv) = sv_rules sv.
Proof. intros Hf. revert sv. induction l; intros sv; simpl; [done|]. by rewrite IHl. Qed.

Lemma step_ok Allowed sv sv' :
  (∀ rules, Allowed rules → opens linux P rules) →
  step Allowed sv sv' → server_ok P sv ∧ Allowed (sv_rules sv) →
  server_ok P sv' ∧ Allowed (sv_rules sv').
Proof.
  intros Hop Hst [Hs Ha]. destruct Hst.
  - apply on_packet_ok with (P := P) in H0 as (sv2 & [= <-] & H2 & ->); auto.
  - by apply drain_targets_ok in H as [H2 ->].
  - split; [by apply on_timeouts_ok|done].
  - split; [by apply sweep_ok|]. unfold sweep_idle_flows. rewrite fold_rules; [done|].
    intros s p. unfold sweep_client. by destruct (fold_left _ _ _) as [[c F] rt].
  - by apply flush_client_ok with (P := P) in H as [H2 ->].
  - split; [by apply reap_closed_ok|]. unfold reap_closed. rewrite fold_rules; [done|].
    intros s p. unfold reap_client. by destruct (is_closed _).
  - by apply run_task_ok in H as [H2 ->].
  - split; [by eapply server_ok_same; [..|exact Hs]|done].
  - split; [by apply set_socket_ok|done].
Qed.

Lemma server_new_ok socket addr h3 config rules os sv :
  server_new socket addr h3 config rules os = Ok sv → server_ok P sv ∧ sv_rules sv = rules.
Proof.
  unfold server_new. intros (a & _ & H)%result_bind_Ok. apply result_bind_Ok in H as (h & _ & [= <-]).
  split; [|done]. split; unfold flows_of; cbn [sv_routes sv_clients sv_rt].
  - intros d k H. by rewrite lookup_empty in H.
  - intros k. rewrite lookup_empty. split; cbn [rt_tasks]; intros ? ? H; by rewrite lookup_empty in H.
  - intros i t H. cbn [rt_tasks] in H. by rewrite lookup_empty in H.
  - intros k fid f H. by rewrite !lookup_empty in H.
  - intros i t H. cbn [rt_tasks] in H. by rewrite lookup_empty in H.
Qed.

Lemma reachable_ok Allowed sv :
  (∀ rules, Allowed rules → opens linux P rules) →
  reachable Allowed sv → server_ok P sv ∧ Allowed (sv_rules sv).
Proof.
  intros Hop (sv0 & so & ad & h3 & cf & ru & os & Hn & Ha & Hr).
  apply server_new_ok in Hn as [Hn <-]. assert (server_ok P sv0 ∧ Allowed (sv_rules sv0)) as H0 by done.
  clear Hn Ha. induction Hr as [|a b c Hab _ IH]; [done|]. apply IH. by eapply step_ok.
Qed.
End Runs.
