(* ===== verification/ServerRuns.v ===== *)
(** * Every turn of the server ends

    The draining loops of the handlers finish, so each handler and each turn of the
    main loop returns once the fuel is large enough. *)

From S2P Require Import Prelude.
From S2P Require Import Net.
From S2P Require Import Dgram.
From S2P Require Import Rules.
From S2P Require Import Quiche.
From S2P Require Import Io.
From S2P Require Import Sockets.
From S2P Require Import Server.

Section Ends.
Context {Conn H3 H3Config Config Sock Os : Type} {Chan : Type → Type}.
Context `{QD : QuicheDrains Conn H3 H3Config} {QSe : QuicheSends Q} `{QV : QuicheServer Conn Config}.
Context {U : UdpSys Sock} {UP : UdpProgress U} `{SA : SocketApi Sock Os} `{ML : MpscLaws Chan} `{HI : HashIter}.
Context (linux : bool).
Local Abbreviation Server := (Server Conn H3 H3Config Config Sock Os Chan).
Local Abbreviation Session := (Session Conn H3 Sock Os Chan).
Implicit Types (sv : Server) (st : Session).

Definition st_events st : nat := events (ss_http3 st) (ss_conn st).

Lemma respond_events st i hs fin r st' :
  respond st i hs fin = (r, st') → st_events st' ≤ st_events st.
Proof.
  unfold respond. destruct (send_response _ _ _ _ _) as [r' [h c]] eqn:E.
  intros [= _ <-]. by apply response_keeps in E.
Qed.

Lemma respond_status_events st i status : st_events (respond_status st i status) ≤ st_events st.
Proof.
  unfold respond_status. destruct (respond _ _ _ _) as [r st'] eqn:E. by apply respond_events in E.
Qed.

Lemma handle_events now rules from k i hs st :
  st_events (handle_connect_request linux now rules from k i hs st) ≤ st_events st.
Proof.
  unfold handle_connect_request.
  destruct (parse_request hs) as [req|]; [|apply respond_status_events].
  destruct (match_target _ _ _) as [rule|]; [|apply respond_status_events].
  destruct (bind_target _ _ _ _ _ _) as [[sock|e] os].
  2:{ etransitivity; [apply respond_status_events|done]. }
  unfold open_flow. destruct (spawn_target _ _ _ _) as [j rt]. destruct (insert_flow _ _ _ _) as [F rt'].
  destruct (respond _ _ _ _) as [[u|e] st'] eqn:E; apply respond_events in E; [done|].
  by destruct (remove_flow _ _ _).
Qed.

Lemma drain_body_settles i h (c : Conn) : settles (λ f, drain_body f i h c).
Proof.
  unfold drain_body. set (body := λ hc : H3 * Conn, _).
  destruct (loop_terminates body (λ _, True) (λ hc, body_chunks hc.1 hc.2 i))
    with (S (body_chunks h c i)) (h, c) as [r Hr]; [|done|simpl; lia|].
  - intros [h1 c1] [h2 c2] _. unfold body. cbn [fst snd].
    destruct (recv_body _ _ _ _) as [[n|e] [h3 c3]] eqn:E; [|done].
    destruct (n =? 0) eqn:En; [done|]. apply Nat.eqb_neq in En. intros [= <- <-].
    split; [done|]. by eapply body_drains.
  - exists (S (body_chunks h c i)), r. intros f Hf. by eapply loop_mono.
Qed.

Lemma drain_body_events f i h (c : Conn) h' c' :
  drain_body f i h c = Some (h', c') → events h' c' ≤ events h c.
Proof.
  unfold drain_body. intros Hl.
  eapply (loop_invariant _ (λ hc, events hc.1 hc.2 ≤ events h c)
    (λ hc, events hc.1 hc.2 ≤ events h c)) in Hl; [done|..|done].
  - intros [h1 c1] [h2 c2] H. cbn [fst snd] in *.
    destruct (recv_body _ _ _ _) as [[n|e] [h3 c3]] eqn:E; [|done]. apply body_keeps in E.
    case_match; [done|]. intros [= <- <-]. lia.
  - intros [h1 c1] [h2 c2] H. cbn [fst snd] in *.
    destruct (recv_body _ _ _ _) as [[n|e] [h3 c3]] eqn:E; apply body_keeps in E.
    + case_match; [|done]. intros [= <- <-]. lia.
    + intros [= <- <-]. lia.
Qed.

(** A turn of the event loop consumes an event or ends the loop. *)
Lemma on_event_settles now rules from k st :
  ∃ f b, (∀ f', f ≤ f' → on_event linux f' now rules from k st = b) ∧
    match b with inl st' => st_events st' < st_events st | inr o => is_Some o end.
Proof.
  unfold on_event. destruct (poll _ _) as [[[i ev]|e] [h c]] eqn:Ep.
  2:{ exists 0. eexists. split; [reflexivity|by eexists]. }
  apply poll_drains in Ep. destruct ev.
  - exists 0. eexists. split; [reflexivity|]. eapply Nat.le_lt_trans; [apply handle_events|done].
  - destruct (drain_body_settles i h c) as (f & [h' c'] & Hf). exists f. eexists.
    split; [intros f' Hf'; rewrite Hf by done; reflexivity|].
    pose proof (drain_body_events f i h c h' c' (Hf f (le_n _))).
    unfold st_events in *. cbn [ss_http3 ss_conn] in *. lia.
  - destruct (remove_flow _ _ _) as [F rt]. exists 0. eexists. by split; [reflexivity|].
  - destruct (remove_flow _ _ _) as [F rt]. exists 0. eexists. by split; [reflexivity|].
  - exists 0. eexists. by split; [reflexivity|].
Qed.

Lemma on_datagram_conn now b st st' : on_datagram now b st = Returns st' → ss_conn st' = ss_conn st.
Proof.
  unfold on_datagram. destruct (Dgram.decode b) as [o|]; [|done]. cbn [mbind panics_bind].
  destruct o as [p|]; [|by intros [= <-]]. destruct (negb _); [by intros [= <-]|].
  destruct (ss_flows st !! _); by intros [= <-].
Qed.

Lemma drain_client_datagrams_settles now st : settles (λ f, drain_client_datagrams f now st).
Proof.
  unfold drain_client_datagrams. set (body := λ st : Session, _).
  destruct (loop_terminates body (λ _, True) (λ st, datagrams (ss_conn st)))
    with (S (datagrams (ss_conn st))) st as [r Hr]; [|done|lia|].
  - intros s s' _. unfold body. destruct (dgram_recv _ _) as [[b|e] c] eqn:E; [|done].
    apply dgram_drains in E. destruct (on_datagram _ _ _) as [s1|] eqn:Eo; [|done].
    apply on_datagram_conn in Eo. intros [= <-]. split; [done|]. by rewrite Eo.
  - exists (S (datagrams (ss_conn st))), r. intros f Hf. by eapply loop_mono.
Qed.

Lemma process_client_settles now k h3c rules cl rt :
  settles (λ f, process_client linux f now k h3c rules cl rt).
Proof.
  unfold process_client. destruct (negb _); [apply settles_const|].
  destruct (match cl_http3 cl with Some h3 => _ | None => _ end) as [[h3|] c]; [|apply settles_const].
  apply (settles_then _ (λ f (s : Session), match drain_client_datagrams f now s with
    | None => None | Some Panics => Some Panics
    | Some (Returns st) => Some (Returns (mkClient (ss_conn st) (Some (ss_http3 st)) (ss_flows st)
                                 (cl_peer cl), ss_rt st)) end)).
  - apply (settles_loop (λ f, on_event linux f now rules (cl_peer cl) k) st_events).
    intros s. apply on_event_settles.
  - intros s _. destruct (drain_client_datagrams_settles now s) as (f & r & Hr).
    exists f. destruct r as [st|]; eexists; intros f' Hf'; rewrite Hr by done; reflexivity.
Qed.

Lemma deliver_settles now sv k pkt from : settles (λ f, deliver linux f now sv k pkt from).
Proof.
  unfold deliver. destruct (sv_clients sv !! k) as [cl|]; [|apply settles_const].
  destruct (recv _ _ _ _) as [[n|e] c]; [|apply settles_const].
  destruct (process_client_settles now k (sv_h3_config sv) (sv_rules sv)
    (mkClient c (cl_http3 cl) (cl_flows cl) from) (sv_rt sv)) as (f & r & Hr).
  exists f. destruct r as [[cl' rt']|]; eexists; intros f' Hf'; rewrite Hr by done; reflexivity.
Qed.

Lemma on_packet_settles now rnd sv pkt from : settles (λ f, on_packet linux f now rnd sv pkt from).
Proof.
  unfold on_packet. destruct (header_from_slice _ _) as [hdr|e]; [|apply settles_const].
  destruct (route _ _) as [k|]; [apply deliver_settles|].
  destruct (negb _); [apply settles_const|]. destruct (negb _).
  - unfold send_version_negotiation. destruct (negotiate_version _ _ _) as [out|e];
      [|apply settles_const].
    unfold send_udp. destruct (send_batch_settles linux (SendBatch.push_first SendBatch.new out from)
      (sv_socket sv)) as (f & [[r s] b] & Hr).
    exists f. eexists. intros f' Hf'. rewrite Hr by done. reflexivity.
  - destruct (accept _ _ _ _) as [[k|e] sv']; [apply deliver_settles|apply settles_const].
Qed.

Lemma flush_client_settles k sv : settles (λ f, flush_client linux f k sv).
Proof.
  unfold flush_client. destruct (sv_clients sv !! k) as [cl|]; [|apply settles_const].
  destruct (flush_connection_settles linux (sv_socket sv) (cl_conn cl)) as (f & [r st] & Hr).
  exists f. eexists. intros f' Hf'. rewrite Hr by done. reflexivity.
Qed.

Lemma flush_all_settles sv : settles (λ f, flush_all linux f sv).
Proof.
  unfold flush_all. generalize (iter (sv_clients sv)). intros l. revert sv.
  induction l as [|p l IH]; intros sv; [apply settles_const|]. cbn [fold_left].
  destruct (flush_client_settles p.1 sv) as (f1 & sv1 & H1).
  destruct (IH sv1) as (f2 & sv2 & H2). exists (max f1 f2), sv2. intros f Hf.
  cbn [mbind option_bind]. rewrite H1 by lia. apply H2. lia.
Qed.

Lemma on_target_payload_chan tc now sv :
  sv_to_client (on_target_payload tc now sv) = sv_to_client sv.
Proof.
  unfold on_target_payload. destruct (sv_clients sv !! _); [|done]. by destruct (dgram_send _ _).
Qed.

Lemma drain_targets_settles now sv : settles (λ f, drain_targets f now sv).
Proof.
  unfold drain_targets. set (body := λ sv : Server, _).
  destruct (loop_terminates body (λ _, True) (λ sv, length (queued (sv_to_client sv))))
    with (S (length (queued (sv_to_client sv)))) sv as [r Hr]; [|done|lia|].
  - intros s s' _. unfold body. destruct (try_recv _) as [[tc|] ch] eqn:E; [|done].
    apply try_recv_queued in E as [E _]. intros [= <-]. split; [done|].
    rewrite on_target_payload_chan. cbn [sv_to_client]. rewrite E. simpl. lia.
  - exists (S (length (queued (sv_to_client sv)))), r. intros f Hf. by eapply loop_mono.
Qed.

Lemma on_packets_settles l sv : settles (λ f, on_packets linux f l sv).
Proof.
  unfold on_packets. revert sv. induction l as [|a l IH]; intros sv; [apply settles_const|].
  cbn [fold_left].
  destruct (on_packet_settles (ar_now a) (ar_rnd a) sv (ar_data a) (ar_from a)) as (f1 & r1 & H1).
  destruct r1 as [sv1|].
  - destruct (IH sv1) as (f2 & r2 & H2). exists (max f1 f2), r2. intros f Hf.
    rewrite H1 by lia. apply H2. lia.
  - exists f1, Panics. intros f Hf. rewrite H1 by lia. clear. induction l; simpl; auto.
Qed.

Lemma run_turn_settles a sv : settles (λ f, run_turn linux f a sv).
Proof.
  assert (∀ sv, settles (λ f, (λ sv, Returns (inl (reap_closed sv)) : panics (Server + Server))
                              <$> flush_all linux f sv)) as Hfin.
  { intros s. destruct (flush_all_settles s) as (f & r & Hr). exists f. eexists.
    intros f' Hf'. rewrite Hr by done. reflexivity. }
  unfold run_turn. destruct a as [[first|] burst|now| |now]; [|apply settles_const|..]; try apply Hfin.
  - destruct (on_packets_settles (first :: burst) sv) as (f1 & [sv1|] & H1).
    + destruct (Hfin sv1) as (f2 & r2 & H2). exists (max f1 f2), r2. intros f Hf.
      rewrite H1 by lia. apply H2. lia.
    + exists f1, Panics. intros f Hf. by rewrite H1 by lia.
  - destruct (drain_targets_settles now sv) as (f1 & sv1 & H1).
    destruct (Hfin sv1) as (f2 & r2 & H2). exists (max f1 f2), r2. intros f Hf.
    rewrite H1 by lia. apply H2. lia.
Qed.
End Ends.
