(* ===== verification/ServerProps.v ===== *)
(** * What the server does

    The properties of src/server.rs: safety and progress of every turn, the
    invariant of reachable states, where a client's traffic can go, and the exact
    effect of the handlers. *)

From S2P Require Import Prelude.
From S2P Require Import RustStr.
From S2P Require Import Net.
From S2P Require Import Dgram.
From S2P Require Import Endpoint.
From S2P Require Import Rules.
From S2P Require Import Quiche.
From S2P Require Import Loopback.
From S2P Require Import Io.
From S2P Require Import Sockets.
From S2P Require Import Server.
From S2P Require Import ServerInv.
From S2P Require Import ServerRuns.

(** ** Requests *)

(** The value of the last header of a given name. *)
Definition last_value (name : bytes) (hs : list Header) : option bytes :=
  last (h_value <$> filter (λ h, h_name h = name) hs).

Lemma last_value_snoc name hs h :
  last_value name (hs ++ [h]) =
  if bool_decide (h_name h = name) then Some (h_value h) else last_value name hs.
Proof.
  unfold last_value. rewrite filter_app, fmap_app. case_bool_decide as H.
  - rewrite filter_cons_True by done. simpl. by rewrite last_snoc.
  - rewrite filter_cons_False by done. simpl. by rewrite app_nil_r.
Qed.

Lemma read_headers_last hs :
  fold_left read_header hs (mkPseudo None None None None) =
  mkPseudo (last_value (str ":method") hs) (last_value (str ":protocol") hs)
    (last_value (str ":authority") hs) (last_value (str ":path") hs).
Proof.
  induction hs as [|h hs IH] using rev_ind; [done|].
  assert (NoDup [str ":method"; str ":protocol"; str ":authority"; str ":path"]) as Hnd
    by (apply (bool_decide_unpack _); vm_compute; exact I).
  rewrite !NoDup_cons, !not_elem_of_cons in Hnd.
  destruct Hnd as ((? & ? & ? & _) & (? & ? & _) & (? & _) & _).
  rewrite fold_left_app, IH, !last_value_snoc. cbn [fold_left]. unfold read_header.
  repeat case_bool_decide; try congruence; done.
Qed.

Lemma from_utf8_Some s s' : from_utf8 s = Some s' ↔ s' = s ∧ utf8_valid s = true.
Proof. unfold from_utf8. destruct (utf8_valid s); naive_solver. Qed.

Lemma ok_or_Ok {E A} (e : E) (o : option A) a : ok_or e o = Ok a ↔ o = Some a.
Proof. destruct o; simpl; naive_solver. Qed.

(** A request is accepted exactly when its last [:method] is CONNECT, its last
    [:protocol] is connect-udp and its last [:authority] and [:path] are there and
    valid UTF-8, which then are the request's; otherwise the status is 405 for
    another method, 501 for another protocol and 400 for the rest. *)
Theorem parse_request_iff (hs : list Header) :
  let method := last_value (str ":method") hs in
  let protocol := last_value (str ":protocol") hs in
  (∀ req, parse_request hs = Ok req ↔
     method = Some (str "CONNECT") ∧ protocol = Some (str "connect-udp") ∧
     last_value (str ":authority") hs = Some (rq_authority req) ∧
     utf8_valid (rq_authority req) = true ∧
     last_value (str ":path") hs = Some (rq_path req) ∧ utf8_valid (rq_path req) = true) ∧
  (∀ status, parse_request hs = Err status →
     (status = 405%Z ∧ method ≠ Some (str "CONNECT")) ∨
     (status = 501%Z ∧ method = Some (str "CONNECT") ∧ protocol ≠ Some (str "connect-udp")) ∨
     (status = 400%Z ∧ method = Some (str "CONNECT") ∧ protocol = Some (str "connect-udp"))).
Proof.
  cbv zeta. unfold parse_request. rewrite read_headers_last.
  cbn [ps_method ps_protocol ps_authority ps_path].
  generalize (last_value (str ":method") hs), (last_value (str ":protocol") hs),
    (last_value (str ":authority") hs), (last_value (str ":path") hs). intros m pr au pa.
  case_bool_decide as Hm; cbn [negb]; [|split; [intros req; split; [done|by intros (? & _)]|
    intros s [= <-]; by left]].
  case_bool_decide as Hp; cbn [negb]; [|split; [intros req; split; [done|by intros (_ & ? & _)]|
    intros s [= <-]; right; by left]].
  split.
  - intros [a p]. cbn [rq_authority rq_path]. rewrite result_bind_Ok. setoid_rewrite result_bind_Ok.
    setoid_rewrite result_bind_Ok. setoid_rewrite result_bind_Ok.
    setoid_rewrite ok_or_Ok. setoid_rewrite from_utf8_Some. split.
    + intros (a0 & Ha & a1 & [-> Hua] & p0 & Hpa & p1 & [-> Hup] & [= -> ->]). by split_and!.
    + intros (_ & _ & Ha & Hua & Hpa & Hup). naive_solver.
  - intros s H. right. right. split; [|done]. revert H.
    destruct au as [a|]; cbn [ok_or mbind result_bind]; [|by intros [= <-]].
    destruct (from_utf8 a) as [a'|]; cbn [ok_or mbind result_bind]; [|by intros [= <-]].
    destruct pa as [p|]; cbn [ok_or mbind result_bind]; [|by intros [= <-]].
    destruct (from_utf8 p) as [p'|]; cbn [ok_or mbind result_bind]; [done|by intros [= <-]].
Qed.

(** ** Handlers *)
Lemma fold_min_spec (l : list Z) acc :
  match fold_left (λ acc d, match acc with Some m => Some (Z.min m d) | None => Some d end) l acc with
  | None => l = [] ∧ acc = None
  | Some m => (m ∈ l ∨ acc = Some m) ∧ (∀ d, d ∈ l ∨ acc = Some d → (m ≤ d)%Z)
  end.
Proof.
  revert acc. induction l as [|x l IH]; intros acc; simpl.
  - destruct acc; [|done]. split; [by right|]. intros d [?%not_elem_of_nil|[= <-]]; [done|lia].
  - specialize (IH (match acc with Some m => Some (Z.min m x) | None => Some x end)).
    destruct (fold_left _ l _) as [m|]; [|by destruct IH, acc].
    destruct IH as [H1 H2]. split.
    + destruct H1 as [H1|H1]; [left; by right|]. destruct acc as [a|]; simplify_eq; [|by left; left].
      destruct (Z.min_spec a x) as [[_ ->]|[_ ->]]; [by right|by left; left].
    + intros d. rewrite elem_of_cons. intros [[->|Hd]|Hd]; [|by apply H2; left|].
      * destruct acc as [a|]; [specialize (H2 (Z.min a x))|specialize (H2 x)];
          (etransitivity; [apply H2; by right|lia]).
      * subst acc. specialize (H2 (Z.min d x)). etransitivity; [apply H2; by right|lia].
Qed.

Section Handlers.
Context {Conn H3 H3Config Config Sock Os : Type} {Chan : Type → Type}.
Context `{Q : Quiche Conn H3 H3Config} `{QV : QuicheServer Conn Config}.
Context `{U : UdpSys Sock} `{SA : SocketApi Sock Os} `{M : Mpsc Chan} `{HI : HashIter}.
Context (linux : bool).
Local Abbreviation Server := (Server Conn H3 H3Config Config Sock Os Chan).
Local Abbreviation Session := (Session Conn H3 Sock Os Chan).
Local Abbreviation Client := (Client Conn H3).
Implicit Types (sv : Server) (st : Session).

(** The request was refused with a final status and nothing else changed. *)
Definition refused (stream_id status : Z) st st' : Prop :=
  ss_flows st' = ss_flows st ∧ rt_tasks (ss_rt st') = rt_tasks (ss_rt st) ∧
  (ss_http3 st', ss_conn st') =
    (send_response (ss_http3 st) (ss_conn st) stream_id
       [mkHeader (str ":status") (u16_to_string status)] true).2.

(** The request was accepted for a rule, with a socket to its target: 200 was answered on
    the stream, which stays open, and a new task [n] of the connection [k] and of the flow
    of the stream owns the socket.  If the response was taken, the flow leads to the task;
    if not, there is no such flow and the task has no sender.  A flow the stream had
    before is replaced, so its task loses its sender; the other flows and tasks are as they
    were. *)
Definition accepted (now : Z) (k : Scid) (i : Z) (r : Rule) (sock : Sock) st st' : Prop :=
  let fid := (i / 4)%Z in
  let n := rt_next (ss_rt st) in
  let '(res, (h, c)) := send_response (ss_http3 st) (ss_conn st) i
    [mkHeader (str ":status") (str "200"); mkHeader (str "capsule-protocol") (str "?1")] false in
  ss_http3 st' = h ∧ ss_conn st' = c ∧
  ss_flows st' !! fid = (if is_ok res then Some (mkFlow n now (idle_timeout r)) else None) ∧
  (∀ fid', fid' ≠ fid → ss_flows st' !! fid' = ss_flows st !! fid') ∧
  ((∀ f, ss_flows st !! fid = Some f → fl_to_target f ≠ n) →
   rt_tasks (ss_rt st') !! n = Some (mkTask sock (channel CHANNEL_CAP) (is_ok res) k fid)) ∧
  (∀ j, j ≠ n → rt_tasks (ss_rt st') !! j =
     (λ t, if bool_decide (fl_to_target <$> ss_flows st !! fid = Some j) then close_sender t else t) <$>
       rt_tasks (ss_rt st) !! j).

(** A CONNECT request for UDP proxying (RFC 9298 over RFC 9220). *)
Definition connect_udp (hs : list Header) : Prop :=
  last_value (str ":method") hs = Some (str "CONNECT") ∧
  last_value (str ":protocol") hs = Some (str "connect-udp").

(** The value of a header that has to be there in UTF-8. *)
Definition text_of (name : bytes) (hs : list Header) (v : bytes) : Prop :=
  last_value name hs = Some v ∧ utf8_valid v = true.

(** What the rules say of a request: the status it is refused with, or the rule it is
    served by, the first one with its authority and path. *)
Inductive verdict (table : RuleTable) (hs : list Header) : result Z Rule → Prop :=
| not_connect : last_value (str ":method") hs ≠ Some (str "CONNECT") → verdict table hs (Err 405%Z)
| not_udp :
    last_value (str ":method") hs = Some (str "CONNECT") →
    last_value (str ":protocol") hs ≠ Some (str "connect-udp") → verdict table hs (Err 501%Z)
| no_authority : connect_udp hs → (∀ v, ¬ text_of (str ":authority") hs v) → verdict table hs (Err 400%Z)
| no_path : connect_udp hs → (∀ v, ¬ text_of (str ":path") hs v) → verdict table hs (Err 400%Z)
| no_rule a p :
    connect_udp hs → text_of (str ":authority") hs a → text_of (str ":path") hs p →
    Forall (λ r, rule_matches a p r = false) (rules table) → verdict table hs (Err 404%Z)
| first_rule a p l1 r l2 :
    connect_udp hs → text_of (str ":authority") hs a → text_of (str ":path") hs p →
    rules table = l1 ++ r :: l2 → rule_matches a p r = true →
    Forall (λ r', rule_matches a p r' = false) l1 → verdict table hs (Ok r).

(** The code comes to one of the verdicts. *)
Definition decided (table : RuleTable) (hs : list Header) : result Z RuleMatch :=
  req ← parse_request hs;
  ok_or 404%Z (match_target table (rq_authority req) (rq_path req)).

Lemma text_of_dec name hs : (∃ v, text_of name hs v) ∨ ∀ v, ¬ text_of name hs v.
Proof.
  unfold text_of. destruct (last_value name hs) as [v|]; [|right; naive_solver].
  destruct (utf8_valid v) eqn:E; [left; by exists v|right]. intros v' [[= ->] ?]. congruence.
Qed.

Lemma parse_request_text hs a p :
  connect_udp hs → text_of (str ":authority") hs a → text_of (str ":path") hs p →
  parse_request hs = Ok (mkRequest a p).
Proof. intros [] [] []. by apply parse_request_iff. Qed.

Lemma parse_request_untexted hs name :
  connect_udp hs → name = str ":authority" ∨ name = str ":path" → (∀ v, ¬ text_of name hs v) →
  parse_request hs = Err 400%Z.
Proof.
  intros [Hm Hp] Hn Ht. destruct (parse_request hs) as [req|status] eqn:E.
  - apply parse_request_iff in E as (_ & _ & ? & ? & ? & ?). exfalso.
    destruct Hn as [-> | ->]; by eapply Ht.
  - apply parse_request_iff in E. naive_solver.
Qed.

Lemma verdict_total table hs : ∃ v, verdict table hs v.
Proof.
  destruct (decide (last_value (str ":method") hs = Some (str "CONNECT"))) as [Hm|Hm];
    [|by eexists; apply not_connect].
  destruct (decide (last_value (str ":protocol") hs = Some (str "connect-udp"))) as [Hp|Hp];
    [|by eexists; apply not_udp].
  destruct (text_of_dec (str ":authority") hs) as [[a Ha]|Ha]; [|by eexists; apply no_authority].
  destruct (text_of_dec (str ":path") hs) as [[p Hpa]|Hpa]; [|by eexists; apply no_path].
  destruct (List.find (rule_matches a p) (rules table)) as [r|] eqn:E.
  - apply find_first in E as (l1 & l2 & Hl & Hr & Hf). eexists. by eapply first_rule.
  - eexists. eapply no_rule; [done|exact Ha|exact Hpa|].
    apply Forall_forall. intros r Hr%list_elem_of_In. by eapply List.find_none in E.
Qed.

Lemma verdict_decided table hs v : verdict table hs v → decided table hs = match_of <$> v.
Proof.
  unfold decided. destruct 1 as [Hm|Hm Hp|Hc Ha|Hc Hp|a p Hc Ha Hp Hf|a p l1 r l2 Hc Ha Hp Hl Hr Hf].
  - destruct (parse_request hs) eqn:E; apply parse_request_iff in E; naive_solver.
  - destruct (parse_request hs) eqn:E; apply parse_request_iff in E; naive_solver.
  - by rewrite (parse_request_untexted hs (str ":authority")) by auto.
  - by rewrite (parse_request_untexted hs (str ":path")) by auto.
  - rewrite (parse_request_text hs a p) by done. cbn. unfold match_target.
    destruct (List.find _ _) as [r|] eqn:E; [|done]. apply List.find_some in E as [Hin Hr].
    rewrite Forall_forall in Hf. rewrite (Hf r) in Hr; [done|by apply list_elem_of_In].
  - rewrite (parse_request_text hs a p) by done. cbn. unfold match_target.
    rewrite (proj2 (find_first (rule_matches a p) (rules table) r)); [done|]. by exists l1, l2.
Qed.

Lemma respond_status_refused st st0 i status :
  ss_flows st0 = ss_flows st → rt_tasks (ss_rt st0) = rt_tasks (ss_rt st) →
  ss_http3 st0 = ss_http3 st → ss_conn st0 = ss_conn st →
  refused i status st (respond_status st0 i status).
Proof.
  intros H1 H2 H4 H5. unfold refused, respond_status, respond. rewrite H4, H5.
  fold (status_headers status). by destruct (send_response _ _ _ _ _) as [r [h c]].
Qed.

(** The tasks after the flow of a stream was replaced. *)
Lemma replaced_lookup (o : option Flow) (rt : Runtime Sock Os Chan) j :
  rt_tasks (match o with Some f => drop_flow f rt | None => rt end) !! j =
  (λ t, if bool_decide (fl_to_target <$> o = Some j) then close_sender t else t) <$> rt_tasks rt !! j.
Proof.
  destruct o as [f|]; cbn [fmap option_fmap option_map].
  - cbn [drop_flow rt_tasks]. destruct (decide (fl_to_target f = j)) as [<-|Hne].
    + rewrite lookup_alter_eq, bool_decide_true by done. done.
    + rewrite lookup_alter_ne, bool_decide_false by congruence. by destruct (_ !! j).
  - rewrite bool_decide_false by done. by destruct (_ !! j).
Qed.

Lemma open_flow_accepted now k i r sock st os :
  accepted now k i r sock st
    (open_flow now k i (match_of r) sock (mkSession (ss_conn st) (ss_http3 st) (ss_flows st) (set_os (ss_rt st) os))).
Proof.
  unfold accepted, open_flow, spawn_target, insert_flow, remove_flow, respond, set_os.
  cbn [ss_conn ss_http3 ss_flows ss_rt rt_next rt_tasks rt_os]. fold accepted_headers.
  destruct (send_response _ _ _ _ _) as [[u|e] [h c]];
    cbn [ss_conn ss_http3 ss_flows ss_rt rt_next rt_tasks rt_os is_ok]; split_and!; try done.
  - by rewrite lookup_insert_eq.
  - intros fid' Hne. by rewrite lookup_insert_ne.
  - intros Hn. rewrite replaced_lookup. cbn [rt_tasks]. rewrite lookup_insert_eq. cbn.
    rewrite bool_decide_false; [done|]. by intros (f & Hf & Hfn)%fmap_Some; eapply Hn.
  - intros j Hj. rewrite replaced_lookup. cbn [rt_tasks]. by rewrite lookup_insert_ne.
  - by rewrite lookup_delete_eq.
  - intros fid' Hne. by rewrite lookup_delete_ne, lookup_insert_ne.
  - intros Hn. rewrite lookup_insert_eq. cbn [drop_flow rt_tasks fl_to_target].
    rewrite lookup_alter_eq, replaced_lookup. cbn [rt_tasks]. rewrite lookup_insert_eq. cbn.
    rewrite bool_decide_false; [done|]. by intros (f & Hf & Hfn)%fmap_Some; eapply Hn.
  - intros j Hj. rewrite lookup_insert_eq. cbn [drop_flow rt_tasks fl_to_target].
    rewrite lookup_alter_ne, replaced_lookup by done. cbn [rt_tasks]. by rewrite lookup_insert_ne.
Qed.

(** C7: What a request leads to.  Every request has a verdict, and the handler carries it
    out.  A request that is not CONNECT is refused with 405, one for another protocol than
    connect-udp with 501, one whose authority or path is missing or not UTF-8 with 400, and
    one that no rule matches with 404, each as a final response and with no change to flows
    or tasks.  For the first rule with the authority and path of the request a socket to
    the target of the rule is opened; when that fails the request is refused with 502, and
    otherwise it is [accepted]: 200, a new task with the socket and the flow that leads to
    it. *)
Theorem connect_request_outcome (now : Z) (table : RuleTable) (from : SocketAddr) (k : Scid)
    (i : Z) (hs : list Header) st :
  let st' := handle_connect_request linux now table from k i hs st in
  (∃ v, verdict table hs v) ∧
  (∀ status, verdict table hs (Err status) → refused i status st st') ∧
  (∀ r, verdict table hs (Ok r) →
     match (bind_target linux (rt_os (ss_rt st)) (target r) from (transparent r) (fwmark r)).1 with
     | Err _ => refused i 502 st st'
     | Ok sock => accepted now k i r sock st st'
     end).
Proof.
  cbv zeta. split_and!; [apply verdict_total|..].
  - intros status Hv%verdict_decided. unfold decided in Hv. unfold handle_connect_request.
    destruct (parse_request hs) as [req|s]; cbn in Hv; [|injection Hv as ->; by apply respond_status_refused].
    destruct (match_target _ _ _); cbn in Hv; [done|]. injection Hv as <-. by apply respond_status_refused.
  - intros r Hv%verdict_decided. unfold decided in Hv. unfold handle_connect_request.
    destruct (parse_request hs) as [req|s]; cbn in Hv; [|done].
    destruct (match_target _ _ _); cbn in Hv; [|done]. injection Hv as ->.
    cbn [match_of m_target m_transparent m_fwmark].
    destruct (bind_target _ _ _ _ _ _) as [[sock|e] os]; cbn [fst];
      [apply open_flow_accepted|by apply respond_status_refused].
Qed.

(** A packet that does not belong to a connection and does not open one changes
    nothing: malformed ones, and those for an unknown connection that are not
    Initial packets; an Initial of an unsupported version only makes the listening
    socket send a version negotiation. *)
Theorem stray_packets_ignored (fuel : nat) (now : Z) (rnd : Scid) sv (pkt : bytes) (from : SocketAddr) :
  match header_from_slice pkt LOCAL_CONN_ID_LEN with
  | Err _ => on_packet linux fuel now rnd sv pkt from = Some (Returns sv)
  | Ok hdr =>
      route sv (hd_dcid hdr) = Unknown →
      (hd_ty hdr ≠ Initial → on_packet linux fuel now rnd sv pkt from = Some (Returns sv)) ∧
      (hd_ty hdr = Initial → version_is_supported (hd_version hdr) = false →
       ∀ r, on_packet linux fuel now rnd sv pkt from = Some r →
       ∃ s, r = Returns (set_socket sv s))
  end.
Proof.
  unfold on_packet. destruct (header_from_slice _ _) as [hdr|e]; [|done].
  intros ->. split.
  - intros Ht. by rewrite bool_decide_false.
  - intros Ht Hv r. rewrite bool_decide_true, Hv by done. cbn [negb].
    unfold send_version_negotiation. destruct (negotiate_version _ _ _).
    + destruct (send_udp _ _ _ _ _) as [[r' s]|]; [|done]. intros [= <-]. by exists s.
    + intros [= <-]. exists (sv_socket sv). by destruct sv.
Qed.

(** The timer the main loop waits for is the earliest one of all connections. *)
Theorem min_timeout_least sv :
  match min_timeout sv with
  | None => ∀ k c, sv_clients sv !! k = Some c → timeout (cl_conn c) = None
  | Some m =>
      (∃ k c, sv_clients sv !! k = Some c ∧ timeout (cl_conn c) = Some m) ∧
      ∀ k c d, sv_clients sv !! k = Some c → timeout (cl_conn c) = Some d → (m ≤ d)%Z
  end.
Proof.
  unfold min_timeout. set (l := omap _ _).
  assert (∀ d, d ∈ l ↔ ∃ k c, sv_clients sv !! k = Some c ∧ timeout (cl_conn c) = Some d) as Hl.
  { intros d. unfold l. rewrite list_elem_of_omap. setoid_rewrite iter_perm. split.
    - intros ([k c] & Hin%elem_of_map_to_list & Ht). eauto.
    - intros (k & c & Hk & Ht). exists (k, c). by rewrite elem_of_map_to_list. }
  pose proof (fold_min_spec l None) as Hfold.
  destruct (fold_left _ l None) as [m|].
  - destruct Hfold as [[Hm|?] Hle]; [|done]. split; [by apply Hl|].
    intros k c d Hk Ht. apply Hle. left. apply Hl. eauto.
  - destruct Hfold as [He _]. intros k c Hk. destruct (timeout (cl_conn c)) as [d|] eqn:Ht; [|done].
    assert (d ∈ l) as Hd by (apply Hl; eauto). rewrite He in Hd. by apply not_elem_of_nil in Hd.
Qed.
End Handlers.

(** ** Reaping and sweeping *)

Section Sweeps.
Context {Conn H3 H3Config Config Sock Os : Type} {Chan : Type → Type}.
Context `{Q : Quiche Conn H3 H3Config} `{M : Mpsc Chan} `{HI : HashIter}.
Local Abbreviation Server := (Server Conn H3 H3Config Config Sock Os Chan).
Local Abbreviation Client := (Client Conn H3).
Implicit Types (sv : Server) (c : Client).

(** A loop over the clients whose body maps the entry at hand by [g]. *)
Lemma fold_list_lookup (g : Scid * Client → option Client) (f : Server → Scid * Client → Server) l sv k :
  (∀ sv p, sv_clients sv !! p.1 = Some p.2 →
     sv_clients (f sv p) = partial_alter (λ _, g p) p.1 (sv_clients sv)) →
  NoDup l.*1 → (∀ p, p ∈ l → sv_clients sv !! p.1 = Some p.2) →
  sv_clients (fold_left f l sv) !! k =
  match list_find (λ p : Scid * Client, p.1 = k) l with
  | Some (_, p) => g p
  | None => sv_clients sv !! k
  end.
Proof.
  intros Hf. revert sv. induction l as [|p l IH]; intros sv Hnd Hin; simpl; [done|].
  apply NoDup_cons in Hnd as [Hni Hnd].
  assert (∀ q, q ∈ l → q.1 ≠ p.1) as Hne.
  { intros q Hq Heq. apply Hni. fold (fmap fst l). rewrite <- Heq. by apply list_elem_of_fmap_2. }
  assert (sv_clients sv !! p.1 = Some p.2) as Hp by (apply Hin; by left).
  rewrite IH; [|done|].
  - rewrite Hf by done. destruct (decide (p.1 = k)) as [<-|Hk].
    + destruct (list_find _ l) as [[i q]|] eqn:E.
      * apply list_find_Some in E as (Hi & Hq & _). exfalso.
        by apply (Hne q); [by eapply list_elem_of_lookup_2|].
      * by rewrite lookup_partial_alter_eq.
    + destruct (list_find _ l) as [[i q]|]; simpl; [done|]. by rewrite lookup_partial_alter_ne.
  - intros q Hq. rewrite Hf, lookup_partial_alter_ne by (try done; intros ?; by apply (Hne q)).
    apply Hin. by right.
Qed.

Lemma fold_clients_lookup (g : Scid * Client → option Client) (f : Server → Scid * Client → Server) sv :
  (∀ sv p, sv_clients sv !! p.1 = Some p.2 →
     sv_clients (f sv p) = partial_alter (λ _, g p) p.1 (sv_clients sv)) →
  ∀ k, sv_clients (fold_left f (iter (sv_clients sv)) sv) !! k
       = sv_clients sv !! k ≫= λ c, g (k, c).
Proof.
  intros Hf k. pose proof (iter_perm (sv_clients sv)) as Hp.
  assert (∀ k c, (k, c) ∈ iter (sv_clients sv) ↔ sv_clients sv !! k = Some c) as Hin.
  { intros k' c. rewrite Hp. apply elem_of_map_to_list. }
  rewrite (fold_list_lookup g);
    [|done|rewrite Hp; apply NoDup_fst_map_to_list|by intros [k' c] ?%Hin].
  destruct (list_find _ _) as [[i [k' c]]|] eqn:E.
  - apply list_find_Some in E as (Hi & Hq & _). simpl in Hq. subst k'.
    apply list_elem_of_lookup_2, Hin in Hi. by rewrite Hi.
  - apply list_find_None in E. destruct (sv_clients sv !! k) as [c|] eqn:Ek; [|done].
    apply Hin in Ek. rewrite Forall_forall in E. by apply E in Ek.
Qed.

Definition reaped (p : Scid * Client) : option Client :=
  if is_closed (cl_conn p.2) then None else Some p.2.

Lemma reap_routes sv l d k :
  sv_routes (fold_left reap_client l sv) !! d = Some k ↔
  sv_routes sv !! d = Some k ∧
  ∀ p : Scid * Client, p ∈ l → is_closed (cl_conn p.2) = true → p.1 ≠ k.
Proof.
  revert sv. induction l as [|p l IH]; intros sv; cbn [fold_left].
  - split; [|by intros [? _]]. intros H. split; [done|]. by intros p ?%not_elem_of_nil.
  - rewrite IH. setoid_rewrite elem_of_cons. unfold reap_client.
    destruct (is_closed (cl_conn p.2)) eqn:E; cbn [sv_routes];
      rewrite ?map_lookup_filter_Some; cbn [snd]; split.
    + intros [[Hd Hne] Hl]. split; [done|]. intros q [->|Hq] Hc; [congruence|auto].
    + intros [Hd Hl]. split; [split; [done|]|by auto]. intros ->. by apply (Hl p); [left|..].
    + intros [Hd Hl]. split; [done|]. intros q [->|Hq] Hc; [congruence|auto].
    + intros [Hd Hl]. auto.
Qed.

(** Reaping removes exactly the closed connections, whatever the order in which the
    map is visited, and with them exactly the routes that lead to one of them. *)
Theorem reap_closed_exact sv :
  (∀ k, sv_clients (reap_closed sv) !! k =
        sv_clients sv !! k ≫= λ c, if is_closed (cl_conn c) then None else Some c) ∧
  (∀ d k, sv_routes (reap_closed sv) !! d = Some k ↔
     sv_routes sv !! d = Some k ∧
     ∀ c, sv_clients sv !! k = Some c → is_closed (cl_conn c) = false).
Proof.
  unfold reap_closed. split.
  - apply (fold_clients_lookup reaped). intros s p Hp. unfold reap_client, reaped.
    destruct (is_closed (cl_conn p.2)) eqn:E; [done|].
    apply map_eq. intros k. destruct (decide (p.1 = k)) as [<-|Hk].
    + by rewrite lookup_partial_alter_eq.
    + by rewrite lookup_partial_alter_ne.
  - intros d k. rewrite reap_routes. setoid_rewrite iter_perm. split.
    + intros [Hd Hl]. split; [done|]. intros c Hc. destruct (is_closed (cl_conn c)) eqn:E; [|done].
      exfalso. by apply (Hl (k, c)); [apply elem_of_map_to_list|..].
    + intros [Hd Hl]. split; [done|]. intros [k' c] Hin%elem_of_map_to_list Hc Heq.
      simpl in *. subst k'. apply Hl in Hin. congruence.
Qed.
(** The two halves of a stream are shut down. *)
Definition shut (c : Conn) (stream_id : Z) : Conn :=
  stream_shutdown (stream_shutdown c stream_id ShutdownWrite 0x100) stream_id ShutdownRead 0x100.

Lemma expire_fold l (c : Conn) F (rt : Runtime Sock Os Chan) :
  (fold_left expire_flow l (c, F, rt)).1 =
  (fold_left shut ((λ fid, wrap 64 (fid * 4)) <$> l) c, filter (λ p, p.1 ∉ l) F).
Proof.
  revert c F rt. induction l as [|fid l IH]; intros c F rt.
  - cbn [fold_left fst fmap list_fmap]. f_equal. symmetry. apply map_filter_id.
    intros. apply not_elem_of_nil.
  - cbn [fold_left fmap list_fmap]. unfold expire_flow at 2, remove_flow. rewrite IH. f_equal.
    apply map_eq. intros i. apply option_eq. intros f.
    rewrite !map_lookup_filter_Some, lookup_delete_Some. cbn [fst]. rewrite not_elem_of_cons.
    naive_solver.
Qed.

Definition swept now (p : Scid * Client) : option Client :=
  let ids := expired now (cl_flows p.2) in
  Some (mkClient (fold_left shut ((λ fid, wrap 64 (fid * 4)) <$> ids) (cl_conn p.2)) (cl_http3 p.2)
          (filter (λ q, q.1 ∉ ids) (cl_flows p.2)) (cl_peer p.2)).

Lemma elem_of_expired now F fid :
  fid ∈ expired now F ↔ ∃ f, F !! fid = Some f ∧ idle_expired now f = true.
Proof.
  unfold expired. rewrite list_elem_of_fmap. setoid_rewrite list_elem_of_filter.
  setoid_rewrite iter_perm. split.
  - intros ([i f] & -> & He & Hin%elem_of_map_to_list). eauto.
  - intros (f & Hf & He). exists (fid, f). by rewrite elem_of_map_to_list.
Qed.

Lemma expired_nodup now F : NoDup (expired now F).
Proof.
  unfold expired. eapply (sublist_NoDup _ (iter F).*1).
  - rewrite iter_perm. apply NoDup_fst_map_to_list.
  - apply fmap_sublist, sublist_filter.
Qed.

Lemma sweep_lookup now sv k :
  sv_clients (sweep_idle_flows now sv) !! k = sv_clients sv !! k ≫= λ c, swept now (k, c).
Proof.
  apply (fold_clients_lookup (swept now)). intros s p _. unfold sweep_client, swept.
  pose proof (expire_fold (expired now (cl_flows p.2)) (cl_conn p.2) (cl_flows p.2) (sv_rt s)) as H.
  destruct (fold_left expire_flow _ _) as [[c F] rt]. cbn [fst] in H. by injection H as -> ->.
Qed.

(** C28: A sweep closes exactly the flows that have been idle for at least their
    timeout: every other flow and every connection stays, and each closed flow's
    request stream (four times the flow id, which does not overflow) is shut down in
    both directions with the code 0x100, once. *)
Theorem sweep_exact (now : Z) sv (k : Scid) c :
  sv_clients sv !! k = Some c → fids_ok (cl_flows c) →
  ∃ c' ids, sv_clients (sweep_idle_flows now sv) !! k = Some c' ∧
    cl_flows c' = filter (λ p, idle_expired now p.2 = false) (cl_flows c) ∧
    NoDup ids ∧
    (∀ fid, fid ∈ ids ↔ ∃ f, cl_flows c !! fid = Some f ∧ idle_expired now f = true) ∧
    cl_conn c' = fold_left shut ((λ fid, 4 * fid)%Z <$> ids) (cl_conn c) ∧
    cl_http3 c' = cl_http3 c ∧ cl_peer c' = cl_peer c.
Proof.
  intros Hc Hf. rewrite sweep_lookup, Hc. eexists _, (expired now (cl_flows c)).
  split; [reflexivity|]. cbn [cl_flows cl_conn cl_http3 cl_peer snd]. split_and!; try done.
  - apply map_eq. intros i. apply option_eq. intros f.
    rewrite !map_lookup_filter_Some. cbn [fst snd]. rewrite elem_of_expired. split.
    + intros [Hi Hn]. split; [done|]. destruct (idle_expired now f) eqn:E; [|done]. exfalso; eauto.
    + intros [Hi He]. split; [done|]. intros (f' & Hf' & He'). congruence.
  - apply expired_nodup.
  - intros fid. apply elem_of_expired.
  - f_equal. apply list_fmap_ext. intros j fid Hj%list_elem_of_lookup_2.
    apply elem_of_expired in Hj as (f & Hj & _). apply Hf in Hj.
    unfold wrap. rewrite Z.mod_small; lia.
Qed.
End Sweeps.

(** ** Reachable states *)
Lemma keeps_True {Sock} `{U : UdpSys Sock} : keeps (λ _ : Sock, True).
Proof. by split. Qed.

Section Global.
Context {Conn H3 H3Config Config Sock Os : Type} {Chan : Type → Type}.
Context `{Q : Quiche Conn H3 H3Config} {QD : QuicheDrains Q} {QT : QuicheStreams Q} {QSe : QuicheSends Q}.
Context `{QV : QuicheServer Conn Config}.
Context {U : UdpSys Sock} {UP : UdpProgress U} `{SL : SocketLaws Sock Os}.
Context `{ML : MpscLaws Chan} `{HI : HashIter}.
Context (linux : bool).
Local Abbreviation Server := (Server Conn H3 H3Config Config Sock Os Chan).
Implicit Types (sv : Server) (k : Scid).
Local Abbreviation anything := (λ _ : Sock, True).

Lemma opens_anything rules : opens linux anything rules.
Proof. done. Qed.

Lemma reachable_anything Allowed sv : reachable linux Allowed sv → server_ok anything sv.
Proof. intros H. by eapply reachable_ok in H as [? _]; [|apply keeps_True|]. Qed.

Lemma on_packets_ok l sv fuel r :
  server_ok anything sv → on_packets linux fuel l sv = Some r →
  ∃ sv', r = Returns sv' ∧ server_ok anything sv'.
Proof.
  unfold on_packets. revert sv. induction l as [|a l IH]; intros sv Hs; cbn [fold_left].
  - intros [= <-]. eauto.
  - destruct (on_packet _ _ _ _ _ _ _) as [r1|] eqn:E.
    + eapply on_packet_ok in E as (sv1 & -> & H1 & _); [|apply opens_anything|done]. by apply IH.
    + intros H. exfalso. clear -H. induction l; simpl in H; [done|auto].
Qed.

Lemma run_turn_ok a sv fuel r :
  server_ok anything sv → run_turn linux fuel a sv = Some r →
  ∃ x, r = Returns x ∧ server_ok anything (match x with inl sv' | inr sv' => sv' end).
Proof.
  intros Hs.
  assert (∀ sv r, server_ok anything sv →
    (λ sv, Returns (inl (reap_closed sv)) : panics (Server + Server)) <$> flush_all linux fuel sv = Some r →
    ∃ x, r = Returns x ∧ server_ok anything (match x with inl sv' | inr sv' => sv' end)) as Hfin.
  { intros s r' Hs' (s' & [H _]%(flush_all_ok linux anything) & ->)%fmap_Some; [|done].
    eexists. split; [reflexivity|]. by apply reap_closed_ok. }
  unfold run_turn. destruct a as [[first|] burst|now| |now].
  - destruct (on_packets _ _ _ _) as [p|] eqn:E; [|done].
    apply on_packets_ok in E as (sv' & -> & H); [|done]. by apply Hfin.
  - intros [= <-]. by eexists.
  - intros (s & H & Hr)%bind_Some. eapply drain_targets_ok in H as [H _]; [|done].
    by eapply Hfin.
  - apply Hfin. by apply on_timeouts_ok.
  - apply Hfin. by apply sweep_ok.
Qed.

(** From every reachable state, and whatever the main loop is woken by (any packet
    bytes, replies of targets, timers), the turn ends and does not panic: there is a
    fuel from which on it always returns the same state, for which the invariant
    holds again. *)
Theorem server_turn_returns (Allowed : RuleTable → Prop) sv (a : arm) :
  reachable linux Allowed sv →
  ∃ fuel0 x, (∀ fuel, fuel0 ≤ fuel → run_turn linux fuel a sv = Some (Returns x)) ∧
    server_ok anything (match x with inl sv' | inr sv' => sv' end).
Proof.
  intros Hr%reachable_anything. destruct (run_turn_settles linux a sv) as (f & r & H).
  destruct (run_turn_ok a sv f r Hr (H f (le_n f))) as (x & -> & Hx). by exists f, x.
Qed.

(** C5: In every reachable state: a route leads to a live connection; the task a flow
    leads to, as long as it runs, was started for that very flow of that very
    connection and has a sender; and a task that has a sender is the one its flow
    leads to.  So every datagram of a flow goes to its own task, and a task whose
    flow or connection is gone has lost its sender and will end. *)
Theorem server_coherent (Allowed : RuleTable → Prop) sv :
  reachable linux Allowed sv →
  (∀ d k, sv_routes sv !! d = Some k → is_Some (sv_clients sv !! k)) ∧
  (∀ k c fid f t, sv_clients sv !! k = Some c → cl_flows c !! fid = Some f →
     rt_tasks (sv_rt sv) !! fl_to_target f = Some t →
     t_sender t = true ∧ t_conn_id t = k ∧ t_flow_id t = fid) ∧
  (∀ i t, rt_tasks (sv_rt sv) !! i = Some t → t_sender t = true →
     ∃ c f, sv_clients sv !! t_conn_id t = Some c ∧ cl_flows c !! t_flow_id t = Some f ∧
            fl_to_target f = i).
Proof.
  intros [Hr Ho Hk Hf Ha]%reachable_anything. split_and!; [done|..].
  - intros k c fid f t Hc Hfid Ht. specialize (Ho k). rewrite (flows_of_Some _ _ _ Hc) in Ho.
    by apply (owned_task _ _ _ Ho fid f Hfid).
  - intros i t Ht Hs. destruct (owned_flow _ _ _ (Ho (t_conn_id t)) i t Ht eq_refl Hs)
      as (f & Hfl & Hi). unfold flows_of in Hfl.
    destruct (sv_clients sv !! t_conn_id t) as [c|]; [eauto|]. by rewrite lookup_empty in Hfl.
Qed.

Lemma reachable_pinned {SI : SocketIoLaws _ SL U} (Allowed : RuleTable → Prop) sv (i : nat)
    (t : Task Sock Chan) :
  reachable linux Allowed sv → rt_tasks (sv_rt sv) !! i = Some t →
  ∃ table r, Allowed table ∧ r ∈ rules table ∧
    ∀ a, ConnectedTo a ∈ history (t_sock t) ↔ a = target r.
Proof.
  intros Hr Ht.
  set (P := λ s, ∃ table r, Allowed table ∧ r ∈ rules table ∧
              ∀ a, ConnectedTo a ∈ history s ↔ a = target r).
  assert (keeps P) as HP.
  { split; unfold P.
    - intros s to p control r s' H E. apply sendmsg_history in E. by rewrite E.
    - intros s r s' H E. apply writable_history in E. by rewrite E.
    - intros s n r s' H E. apply recvmsg_history in E. by rewrite E. }
  eapply (reachable_ok linux P HP) in Hr as [Hs _].
  - by apply (sv_all _ _ Hs) in Ht.
  - intros table Ha a p m os client sock os' Hm Hb.
    apply match_target_Some in Hm as (r & Hin & _ & ->). exists table, r.
    split_and!; [done|done|]. intros b. by eapply bind_target_connects in Hb.
Qed.

(** The client never selects a destination: in every reachable state the socket of
    every target task was connected to the target of a rule of a table that was in
    force, and to nothing else. *)
Theorem targets_pinned {SI : SocketIoLaws _ SL U} (Allowed : RuleTable → Prop) sv (i : nat)
    (t : Task Sock Chan) :
  reachable linux Allowed sv → rt_tasks (sv_rt sv) !! i = Some t →
  ∃ table r, Allowed table ∧ r ∈ rules table ∧
    ∀ a, ConnectedTo a ∈ history (t_sock t) ↔ a = target r.
Proof. apply reachable_pinned. Qed.

(** A step that concerns connection [k] only. *)
Definition only k sv sv' : Prop :=
  (∀ k', k' ≠ k → sv_clients sv' !! k' = sv_clients sv !! k') ∧ frame k (sv_rt sv) (sv_rt sv').

Lemma deliver_only sv fuel now k pkt from sv' :
  server_ok anything sv → deliver linux fuel now sv k pkt from = Some (Returns sv') → only k sv sv'.
Proof.
  intros Hs. unfold deliver. destruct (sv_clients sv !! k) as [cl|] eqn:Hcl; [|done].
  destruct (recv _ _ _ _) as [[n|e] c].
  - destruct (process_client _ _ _ _ _ _ _ _) as [p|] eqn:Ep; [|done].
    eapply process_client_ok in Ep as (cl' & rt' & -> & Hc & _);
      [|apply opens_anything|by apply client_ok_of].
    intros [= <-]. split; [|by apply Hc]. intros k' Hk. simpl. by rewrite lookup_insert_ne.
  - intros [= <-]. split.
    + intros k' Hk. simpl. by rewrite lookup_insert_ne.
    + apply frame_refl. apply (sv_rt_ok _ _ Hs).
Qed.

Lemma accept_only sv rnd d from k sv' :
  server_ok anything sv → accept sv rnd d from = (Ok k, sv') → k = rnd ∧ only k sv sv'.
Proof.
  intros Hs. unfold accept. destruct (quiche_accept _ _ _ _) as [[c|e] cfg]; [|done].
  intros [= <- <-]. split; [done|]. split; cbn [sv_clients sv_rt].
  - intros k' Hk. by rewrite lookup_insert_ne.
  - destruct Hs as [Hr Ho Hk Hf Ha]. specialize (Ho rnd). unfold flows_of in Ho.
    destruct (sv_clients sv !! rnd); [by apply drop_flows_owned|by apply frame_refl].
Qed.

Lemma on_packet_only sv fuel now rnd pkt from sv' :
  server_ok anything sv → on_packet linux fuel now rnd sv pkt from = Some (Returns sv') →
  ∃ k, only k sv sv'.
Proof.
  intros Hs. assert (only [] sv sv) as Hrefl.
  { split; [done|]. apply frame_refl. apply (sv_rt_ok _ _ Hs). }
  unfold on_packet. destruct (header_from_slice _ _) as [hdr|e]; [|intros [= <-]; by eauto].
  destruct (route _ _) as [k|].
  { intros H. exists k. by eapply deliver_only. }
  destruct (negb _); [intros [= <-]; by eauto|]. destruct (negb _).
  - unfold send_version_negotiation. destruct (negotiate_version _ _ _) as [out|e];
      [|intros [= <-]; by eauto].
    destruct (send_udp _ _ _ _ _) as [[r s]|]; [|done]. intros [= <-]. by exists [].
  - destruct (accept _ _ _ _) as [[k|e] sv1] eqn:Ea.
    + pose proof Ea as Ea2. apply accept_ok with (P := anything) in Ea2 as (Hs1 & _ & _); [|done].
      apply accept_only in Ea as [-> [Hc Hf]]; [|done]. intros Hd.
      apply deliver_only in Hd as [Hc' Hf']; [|done]. exists rnd. split.
      * intros k' Hk. by rewrite Hc', Hc.
      * by eapply frame_trans.
    + unfold accept in Ea. destruct (quiche_accept _ _ _ _) as [[c|e'] cfg]; [done|].
      injection Ea as _ <-. intros [= <-]. by exists [].
Qed.

(** C6: A packet concerns one connection: all the others, their flows and the tasks
    that were started for them are exactly as before, and the tasks it starts belong
    to that connection. *)
Theorem packet_isolation (Allowed : RuleTable → Prop) sv sv' (fuel : nat) (now : Z) (rnd : Scid)
    (pkt : bytes) (from : SocketAddr) :
  reachable linux Allowed sv →
  on_packet linux fuel now rnd sv pkt from = Some (Returns sv') →
  ∃ k,
    (∀ k', k' ≠ k → sv_clients sv' !! k' = sv_clients sv !! k') ∧
    (∀ i t, rt_tasks (sv_rt sv) !! i = Some t → t_conn_id t ≠ k →
       rt_tasks (sv_rt sv') !! i = Some t) ∧
    (∀ i t, rt_tasks (sv_rt sv') !! i = Some t → t_conn_id t ≠ k →
       rt_tasks (sv_rt sv) !! i = Some t).
Proof.
  intros Hr%reachable_anything Hp. apply on_packet_only in Hp as (k & Hc & [n o w kp]); [|done].
  exists k. split_and!; [done|by eauto|]. intros i t Ht Hk.
  destruct (decide (i < rt_next (sv_rt sv))) as [Hi|Hi].
  - destruct (o i t Ht Hi) as (t0 & H0 & _ & He). by rewrite <- He.
  - exfalso. apply Hk, (w i); [done|lia].
Qed.
End Global.

(** ** Datagrams *)

Section Datagrams.
Context {Conn H3 Sock Os : Type} {Chan : Type → Type}.
Context `{M : Mpsc Chan}.
Local Abbreviation Session := (Session Conn H3 Sock Os Chan).
Implicit Types (st : Session).

(** A task with one more payload offered to its channel. *)
Definition offered (pl : bytes) (t : Task Sock Chan) : Task Sock Chan :=
  mkTask (t_sock t) (snd (try_send (t_inbox t) pl)) (t_sender t) (t_conn_id t) (t_flow_id t).

(** What becomes of a datagram from a client.  One that does not decode, carries
    another context or names no flow of its connection changes nothing; any other
    is offered, as its payload, to the channel of the task of that flow and to no
    other, and the flow counts as active now. *)
Theorem datagram_routed (now : Z) (buf : bytes) st :
  ∃ o, Dgram.decode buf = Returns o ∧
  match o with
  | Some p =>
      match ss_flows st !! flow_id p with
      | Some f =>
          if (context_id p =? CONTEXT_ID_UDP)%Z then
            ∃ st', on_datagram now buf st = Returns st' ∧
              ss_conn st' = ss_conn st ∧ ss_http3 st' = ss_http3 st ∧
              ss_flows st' = <[flow_id p := touch now f]> (ss_flows st) ∧
              (∀ i, rt_tasks (ss_rt st') !! i =
                 if decide (i = fl_to_target f) then offered (payload p) <$> rt_tasks (ss_rt st) !! i
                 else rt_tasks (ss_rt st) !! i)
          else on_datagram now buf st = Returns st
      | None => on_datagram now buf st = Returns st
      end
  | None => on_datagram now buf st = Returns st
  end.
Proof.
  unfold on_datagram. destruct (decode_never_panics buf) as [o ->]. exists o. split; [done|].
  cbn [mbind panics_bind]. destruct o as [p|]; [|done].
  destruct (ss_flows st !! flow_id p) as [f|], (context_id p =? CONTEXT_ID_UDP)%Z; try done.
  eexists. split; [reflexivity|]. split_and!; try done. intros i. simpl.
  destruct (decide (i = fl_to_target f)) as [->|Hne].
  - by rewrite lookup_alter_eq.
  - by rewrite lookup_alter_ne.
Qed.
End Datagrams.

(** ** Target tasks *)

Section Relay.
Context {Sock : Type} {Chan : Type → Type} {U : UdpSys Sock} {UP : UdpProgress U} {UL : UdpLaws U}.
Context `{ML : MpscLaws Chan}.
Implicit Types (t : Task Sock Chan) (ch : Chan ToClient).

(** At most [n] payloads were queued for the client, all under the ids of the task,
    which still has the same ids and channel. *)
Definition relayed (n : nat) t t' ch ch' : Prop :=
  t_conn_id t' = t_conn_id t ∧ t_flow_id t' = t_flow_id t ∧ t_inbox t' = t_inbox t ∧
  ∃ l, length l ≤ n ∧ queued ch' = queued ch ++ l ∧
    Forall (λ tc, tc_conn_id tc = t_conn_id t ∧ tc_flow_id tc = t_flow_id t) l.

Lemma relayed_none n t s ch : relayed n t (set_sock t s) ch ch.
Proof.
  split_and!; try done. exists []. rewrite app_nil_r. split_and!; [simpl; lia|done|constructor].
Qed.

Lemma relayed_send n t s ch pl sent ch' :
  try_send ch (mkToClient (t_conn_id t) (t_flow_id t) pl) = (sent, ch') →
  relayed (S n) t (set_sock t s) ch ch'.
Proof.
  intros H%try_send_queued. split_and!; try done. eexists. split_and!; cycle 1.
  - rewrite H. instantiate (1 := if sent then [_] else []). destruct sent; [done|].
    by rewrite app_nil_r.
  - destruct sent; by repeat constructor.
  - destruct sent; simpl; lia.
Qed.

Lemma relayed_trans n m t t1 t2 ch ch1 ch2 :
  relayed n t t1 ch ch1 → relayed m t1 t2 ch1 ch2 → relayed (n + m) t t2 ch ch2.
Proof.
  intros (H1 & H2 & H4 & l & Hl & Hq & Hf) (E1 & E2 & E4 & l' & Hl' & Hq' & Hf').
  split_and!; try congruence. exists (l ++ l'). split_and!.
  - rewrite length_app. lia.
  - by rewrite Hq', Hq, app_assoc.
  - apply Forall_app. split; [done|]. by rewrite H1, H2 in Hf'.
Qed.

Lemma recv_target_relayed n t ch b t' ch' :
  recv_target n t ch = (b, t', ch') → relayed n t t' ch ch'.
Proof.
  revert t ch. induction n as [|n IH]; intros t ch; cbn [recv_target].
  { intros [= _ <- <-]. destruct t. apply relayed_none. }
  destruct (recv_udp_connected _ _) as [[buf|e] s].
  - destruct (try_send _ _) as [sent ch1] eqn:Es. destruct (_ && _).
    + intros [= _ <- <-]. by eapply relayed_send.
    + intros H%IH. eapply (relayed_trans 1); [by eapply relayed_send|exact H].
  - destruct (would_block e); [intros [= _ <- <-]; apply relayed_none|].
    destruct (interrupted e); [|intros [= _ <- <-]; apply relayed_none].
    intros H%IH. eapply (relayed_trans 1); [by apply relayed_none|exact H].
Qed.

(** One turn of a target task always returns.  Woken by the client's channel, it
    sends the oldest queued payload to the target as one datagram (or drops it when
    the socket fails) and touches nothing else, and it ends exactly when the channel
    is empty and has lost its sender; woken by the target, it queues at most
    [RECV_BATCH] replies, all marked with the connection and the flow it was
    started for. *)
Theorem target_task_relays (w : task_wake) t ch :
  ∃ fuel0 o ch', (∀ fuel, fuel0 ≤ fuel → target_task fuel w t ch = Some (o, ch')) ∧
  match w with
  | FromClient =>
      queued ch' = queued ch ∧
      match queued (t_inbox t), o with
      | pl :: rest, Some t' =>
          queued (t_inbox t') = rest ∧ t_conn_id t' = t_conn_id t ∧ t_flow_id t' = t_flow_id t ∧
          t_sender t' = t_sender t ∧
          (wire (t_sock t') = wire (t_sock t) ++ [(None, pl)] ∨ wire (t_sock t') = wire (t_sock t))
      | [], _ => o = if t_sender t then Some t else None
      | _, None => False
      end
  | TargetReadable => ∃ t', relayed RECV_BATCH t t' ch ch' ∧ (o = Some t' ∨ o = None)
  | TargetReadableErr => o = None ∧ ch' = ch
  end.
Proof.
  destruct w; cbn [target_task].
  - destruct (try_recv (t_inbox t)) as [[pl|] c] eqn:E; apply try_recv_queued in E as [E En].
    + destruct (send_udp_connected_settles pl (t_sock t)) as (f & [r s] & H).
      exists f. eexists _, _. split; [intros f' Hf'; rewrite H by done; reflexivity|].
      rewrite E. cbn [option_list app]. split; [done|]. split_and!; try done.
      pose proof (send_udp_connected_wire f pl (t_sock t) r s (H f (le_n f))) as Hw.
      cbn [t_sock]. rewrite Hw. destruct (is_ok r); [by left|right]. by rewrite app_nil_r.
    + exists 0. eexists _, _. split; [reflexivity|]. split; [done|].
      rewrite E, En by done. done.
  - destruct (recv_target _ _ _) as [[b t'] ch'] eqn:E. apply recv_target_relayed in E.
    exists 0. eexists _, _. split; [reflexivity|]. exists t'. split; [done|]. destruct b; auto.
  - exists 0. eexists _, _. by split.
Qed.
End Relay.

(** ** A run *)

(** A server with the sample rules whose clients each open flow 0 and send "ping" on
    it, and its state after the first packet. *)
Definition sample_request : list Header :=
  [mkHeader (str ":method") (str "CONNECT"); mkHeader (str ":protocol") (str "connect-udp");
   mkHeader (str ":authority") (str "a.example.com:4433"); mkHeader (str ":path") (str "/masque")].

Definition sample_template : lconn :=
  mkLconn [(str "hello", SockV4 5 5)] [Dgram.encode 0 (str "ping")] [] [(0%Z, Headers sample_request)]
    [] [] [] true false [].

Definition sample_pkt (b : byte) : bytes := z2b 0 :: z2b 1 :: replicate 16 b.

Local Abbreviation LServer := (Server lconn Z unit lconn lsock (list SocketAddr) lchan).

Definition sample_new : result NewError LServer :=
  server_new (M := LoopMpsc) idle_sock (Ok (SockV4 1 443)) (Ok tt) sample_template sample_table [].

Definition sample_sv0 : LServer :=
  mkServer idle_sock (SockV4 1 443) sample_template sample_table tt ∅ ∅ (mkLchan [] CHANNEL_CAP)
    (mkRuntime ∅ 0 []).

Definition sample_packet (id : byte) (sv : LServer) : option (panics LServer) :=
  on_packet (Q := LoopQuiche) (QV := LoopServer) (U := LoopUdp) (SA := LoopSockets) (M := LoopMpsc)
    true 9 1000 (replicate 16 id) sv (sample_pkt id) (SockV4 5 5).

Definition returned (o : option (panics LServer)) (sv : LServer) : LServer :=
  match o with Some (Returns sv') => sv' | _ => sv end.

Definition sample_sv1 : LServer := returned (sample_packet (z2b 7) sample_sv0) sample_sv0.

Lemma sample_step : sample_packet (z2b 7) sample_sv0 = Some (Returns sample_sv1).
Proof.
  assert (match sample_packet (z2b 7) sample_sv0 with Some (Returns _) => true | _ => false end = true)
    as H by (vm_compute; reflexivity).
  unfold sample_sv1. by destruct (sample_packet (z2b 7) sample_sv0) as [[sv|]|].
Qed.

Definition sample_allowed (t : RuleTable) : Prop := t = sample_table.

Local Abbreviation lreachable :=
  (reachable (Q := LoopQuiche) (QV := LoopServer) (U := LoopUdp) (SA := LoopSockets)
     (M := LoopMpsc) (HI := HashIterStd) true sample_allowed).

Lemma sample_reachable : lreachable sample_sv1.
Proof.
  exists sample_sv0, idle_sock, (Ok (SockV4 1 443)), (Ok tt), sample_template, sample_table, [].
  split; [reflexivity|]. split; [reflexivity|]. apply rtc_once.
  eapply (step_packet _ _ _ 9 1000 (replicate 16 (z2b 7)) (sample_pkt (z2b 7)) (SockV4 5 5)); [reflexivity|].
  exact sample_step.
Qed.

(** The flow is there and its task has the payload. *)
Lemma sample_task :
  match rt_tasks (sv_rt sample_sv1) !! 0 with
  | Some t => lc_queue (t_inbox t) = [str "ping"] ∧ t_sender t = true
  | None => False
  end.
Proof. vm_compute. split; reflexivity. Qed.

Lemma server_turn_returns_witness :
  ∃ fuel0 x, (∀ fuel, fuel0 ≤ fuel →
    run_turn (Q := LoopQuiche) (QV := LoopServer) (U := LoopUdp) (SA := LoopSockets)
      (M := LoopMpsc) (HI := HashIterStd) true fuel (ArmSweep 99) sample_sv1 = Some (Returns x)) ∧
    server_ok (λ _, True) (match x with inl sv' | inr sv' => sv' end).
Proof.
  exact (server_turn_returns (QD := LoopDrains) (QT := LoopStreams) (QSe := LoopSends)
    (UP := LoopUdpProgress) (A := LoopSockets) (ML := LoopMpscLaws) (HI := HashIterStd)
    true sample_allowed sample_sv1 (ArmSweep 99) sample_reachable).
Defined.

Lemma server_coherent_witness :
  ∃ t c f, rt_tasks (sv_rt sample_sv1) !! 0 = Some t ∧
    sv_clients sample_sv1 !! t_conn_id t = Some c ∧ cl_flows c !! t_flow_id t = Some f ∧
    fl_to_target f = 0.
Proof.
  pose proof sample_task as Hs. destruct (rt_tasks (sv_rt sample_sv1) !! 0) as [t|] eqn:E; [|destruct Hs].
  destruct (proj2 (proj2 (server_coherent (QT := LoopStreams) (HI := HashIterStd)
    true sample_allowed sample_sv1 sample_reachable)) 0 t E (proj2 Hs)) as (c & f & H).
  exists t, c, f. split; [reflexivity|exact H].
Defined.

Lemma targets_pinned_witness :
  ∃ t table r, rt_tasks (sv_rt sample_sv1) !! 0 = Some t ∧ sample_allowed table ∧ r ∈ rules table ∧
    ∀ a, ConnectedTo a ∈ history (SocketLaws := LoopSocketLaws) (t_sock t) ↔ a = target r.
Proof.
  destruct (rt_tasks (sv_rt sample_sv1) !! 0) as [t|] eqn:E.
  - destruct (targets_pinned (QT := LoopStreams) (SL := LoopSocketLaws) (SI := LoopSocketIo)
      (HI := HashIterStd) true sample_allowed sample_sv1 0 t sample_reachable E) as (table & r & H).
    exists t, table, r. split; [reflexivity|exact H].
  - exfalso. pose proof sample_task as H. rewrite E in H. exact H.
Defined.

Lemma packet_isolation_witness :
  ∃ sv' k, sample_packet (z2b 8) sample_sv1 = Some (Returns sv') ∧
    (∀ k', k' ≠ k → sv_clients sv' !! k' = sv_clients sample_sv1 !! k').
Proof.
  destruct (sample_packet (z2b 8) sample_sv1) as [[sv'|]|] eqn:E.
  - destruct (packet_isolation (QT := LoopStreams) (HI := HashIterStd) true sample_allowed sample_sv1 sv'
      9 1000 (replicate 16 (z2b 8)) (sample_pkt (z2b 8)) (SockV4 5 5) sample_reachable E)
      as (k & H & _). exists sv', k. split; [reflexivity|exact H].
  - exfalso. assert (match sample_packet (z2b 8) sample_sv1 with Some (Returns _) => true | _ => false end = true)
      as H by (vm_compute; reflexivity). rewrite E in H. discriminate H.
  - exfalso. assert (match sample_packet (z2b 8) sample_sv1 with Some (Returns _) => true | _ => false end = true)
      as H by (vm_compute; reflexivity). rewrite E in H. discriminate H.
Defined.

(** The flow has been idle for 50 seconds, its rule allows 35. *)
Lemma sweep_exact_witness :
  ∃ c c' ids, sv_clients sample_sv1 !! replicate 16 (z2b 7) = Some c ∧
    sv_clients (sweep_idle_flows (Q := LoopQuiche) (HI := HashIterStd) (from_secs 50) sample_sv1)
      !! replicate 16 (z2b 7) = Some c' ∧
    cl_flows c' = filter (λ p, idle_expired (from_secs 50) p.2 = false) (cl_flows c) ∧
    cl_conn c' = fold_left (shut (Q := LoopQuiche)) ((λ fid, 4 * fid)%Z <$> ids) (cl_conn c) ∧
    l_shut (cl_conn c') = [(0, 0x100); (0, 0x100)]%Z.
Proof.
  destruct (sv_clients sample_sv1 !! replicate 16 (z2b 7)) as [c|] eqn:E.
  - destruct (sweep_exact (Q := LoopQuiche) (HI := HashIterStd) (from_secs 50) sample_sv1
      (replicate 16 (z2b 7)) c E) as (c' & ids & H1 & H2 & _ & _ & H4 & _).
    + pose proof (sv_fids _ _ (reachable_anything (QT := LoopStreams) (HI := HashIterStd) true
        sample_allowed sample_sv1 sample_reachable) (replicate 16 (z2b 7))) as H.
      rewrite (flows_of_Some _ _ _ E) in H. exact H.
    + exists c, c', ids. split_and!; [reflexivity|exact H1|exact H2|exact H4|].
      assert (option_map (λ c : Client lconn Z, l_shut (cl_conn c))
        (sv_clients (sweep_idle_flows (Q := LoopQuiche) (HI := HashIterStd) (from_secs 50) sample_sv1)
           !! replicate 16 (z2b 7)) = Some [(0, 0x100); (0, 0x100)]%Z) as Hs by (vm_compute; reflexivity).
      rewrite H1 in Hs. injection Hs as Hs. exact Hs.
  - exfalso. assert (is_Some (sv_clients sample_sv1 !! replicate 16 (z2b 7))) as [c H]
      by (apply (bool_decide_unpack _); vm_compute; exact I). rewrite E in H. discriminate H.
Defined.

(** The sample request opens its flow, and a request for another protocol is refused. *)
Definition sample_session : Session lconn Z lsock (list SocketAddr) lchan :=
  mkSession idle_conn 0%Z ∅ (mkRuntime ∅ 0 []).

Definition sample_other : list Header :=
  [mkHeader (str ":method") (str "CONNECT"); mkHeader (str ":protocol") (str "websocket")].

Definition sample_handle (hs : list Header) : Session lconn Z lsock (list SocketAddr) lchan :=
  handle_connect_request (Q := LoopQuiche) (SA := LoopSockets) (M := LoopMpsc) true 1000 sample_table
    (SockV4 5 5) (str "k") 0 hs sample_session.

Lemma sample_verdict : ∃ r, verdict sample_table sample_request (Ok r).
Proof.
  destruct (rules sample_table) as [|r l] eqn:E; [vm_compute in E; discriminate E|].
  exists r. eapply (first_rule _ _ (str "a.example.com:4433") (str "/masque") []); [| | |exact E| |done].
  - split; vm_compute; reflexivity.
  - split; vm_compute; reflexivity.
  - split; vm_compute; reflexivity.
  - vm_compute in E. injection E as <- _. vm_compute. reflexivity.
Qed.

Lemma connect_request_outcome_witness :
  (∃ r sock, accepted (Q := LoopQuiche) (M := LoopMpsc) 1000 (str "k") 0 r sock sample_session
     (sample_handle sample_request)) ∧
  refused (Q := LoopQuiche) 0 501 sample_session (sample_handle sample_other) ∧
  u16_to_string 501 = str "501".
Proof.
  split; [|split; [|vm_compute; reflexivity]].
  - destruct sample_verdict as [r Hr].
    pose proof (proj2 (proj2 (connect_request_outcome (Q := LoopQuiche) (SA := LoopSockets) (M := LoopMpsc)
      true 1000 sample_table (SockV4 5 5) (str "k") 0 sample_request sample_session)) r Hr) as H.
    destruct (bind_target _ _ _ _ _ _) as [[sock|e] os] eqn:E; cbn [fst] in H.
    + exists r, sock. exact H.
    + exfalso. destruct H as [H _]. vm_compute in H. discriminate H.
  - apply (proj1 (proj2 (connect_request_outcome (Q := LoopQuiche) (SA := LoopSockets) (M := LoopMpsc)
      true 1000 sample_table (SockV4 5 5) (str "k") 0 sample_other sample_session))).
    apply not_udp; [vm_compute; reflexivity|vm_compute; discriminate].
Defined.
