(* ===== verification/Orphans.v ===== *)
(** * Tasks without a flow

    A target task whose flow is gone has lost its sender.  No step of the server gives
    it new work: it sends what is still queued for it, and then it ends and its socket
    is closed. *)

From S2P Require Import Prelude.
From S2P Require Import Net.
From S2P Require Import Rules.
From S2P Require Import Quiche.
From S2P Require Import Loopback.
From S2P Require Import Io.
From S2P Require Import Sockets.
From S2P Require Import Server.
From S2P Require Import ServerInv.
From S2P Require Import ServerProps.

(** Turns woken by the client's channel. *)
Definition client_turn (w : task_wake) : nat := match w with FromClient => 1 | _ => 0 end.

Definition client_turns (ws : list task_wake) : nat := sum_list (client_turn <$> ws).

Section Orphans.
Context {Conn H3 H3Config Config Sock Os : Type} {Chan : Type → Type}.
Context `{Q : Quiche Conn H3 H3Config} {QT : QuicheStreams Q} `{QV : QuicheServer Conn Config}.
Context {U : UdpSys Sock} {UP : UdpProgress U} `{SA : SocketApi Sock Os}.
Context `{ML : MpscLaws Chan} `{HI : HashIter}.
Context (linux : bool) (Allowed : RuleTable → Prop).
Local Abbreviation Server := (Server Conn H3 H3Config Config Sock Os Chan).
Local Abbreviation Runtime := (Runtime Sock Os Chan).
Local Abbreviation anything := (λ _ : Sock, True).
Implicit Types (sv : Server) (rt : Runtime) (t : Task Sock Chan).

(** Task [i] has ended, or it has no sender and fewer than [q] payloads left; so [q] of
    its turns are enough, and with [q = 0] it has ended. *)
Definition winding_down (i q : nat) rt : Prop :=
  i < rt_next rt ∧
  ∀ t, rt_tasks rt !! i = Some t → t_sender t = false ∧ length (queued (t_inbox t)) < q.

Lemma frame_winding k i q rt rt' : frame k rt rt' → winding_down i q rt → winding_down i q rt'.
Proof.
  intros [n o w kp] [Hi Ht]. split; [lia|]. intros t' Ht'. destruct (o i t' Ht' Hi) as (t & H & _).
  pose proof (Ht t H) as [Hs Hq]. specialize (kp i t H (or_intror Hs)). by simplify_eq.
Qed.

Lemma reap_winding i q sv :
  server_ok anything sv → winding_down i q (sv_rt sv) → winding_down i q (sv_rt (reap_closed sv)).
Proof.
  intros Hok Hw.
  assert (server_ok anything (reap_closed sv) ∧ winding_down i q (sv_rt (reap_closed sv))) as [_ H];
    [|exact H].
  unfold reap_closed.
  apply (fold_clients_ok (λ s, server_ok anything s ∧ winding_down i q (sv_rt s))); [..|done].
  - intros s p [H1 H2] Hp. split; [by apply reap_client_ok|]. unfold reap_client.
    destruct (is_closed _); [|done]. cbn [sv_rt]. eapply frame_winding; [|exact H2].
    apply (drop_flows_owned p.1); [apply (sv_rt_ok _ _ H1)|].
    rewrite <- (flows_of_Some _ _ _ Hp). apply (sv_owned _ _ H1).
  - intros s p k Hk. unfold reap_client. destruct (is_closed _); [|done]. cbn. by rewrite lookup_delete_ne.
Qed.

Lemma sweep_winding i q now sv :
  server_ok anything sv → winding_down i q (sv_rt sv) →
  winding_down i q (sv_rt (sweep_idle_flows now sv)).
Proof.
  intros Hok Hw.
  assert (server_ok anything (sweep_idle_flows now sv) ∧ winding_down i q (sv_rt (sweep_idle_flows now sv)))
    as [_ H]; [|exact H].
  unfold sweep_idle_flows.
  apply (fold_clients_ok (λ s, server_ok anything s ∧ winding_down i q (sv_rt s))); [..|done].
  - intros s p [H1 H2] Hp. unfold sweep_client.
    pose proof (expire_flows_ok anything p.1 (sv_rt s) (cl_conn p.2) (cl_http3 p.2) (cl_peer p.2)
      (cl_flows p.2) (sv_rt s) (expired now (cl_flows p.2)) (client_ok_of _ _ _ _ _ _ _ H1 Hp)) as H.
    destruct (fold_left _ _ _) as [[c F] rt]. split; [by apply set_client_ok|].
    destruct H as (_ & Hf & _). by eapply frame_winding.
  - intros s p k Hk. unfold sweep_client. destruct (fold_left _ _ _) as [[c F] rt]. cbn.
    by rewrite lookup_insert_ne.
Qed.

Lemma recv_target_inbox n t ch b t' ch' :
  recv_target n t ch = (b, t', ch') → t_inbox t' = t_inbox t ∧ t_sender t' = t_sender t.
Proof.
  revert t ch. induction n as [|n IH]; intros t ch; cbn [recv_target]; [by intros [= _ <- _]|].
  destruct (recv_udp_connected _ _) as [[buf|e] s].
  - destruct (try_send _ _) as [sent ch1]. destruct (_ && _); [by intros [= _ <- _]|]. by intros H%IH.
  - destruct (would_block e); [by intros [= _ <- _]|].
    destruct (interrupted e); [by intros H%IH|by intros [= _ <- _]].
Qed.

(** A turn of a task returns. *)
Lemma target_task_settles w t ch : settles (λ f, target_task f w t ch).
Proof.
  destruct w; cbn [target_task].
  - destruct (try_recv _) as [[p|] c]; [|apply settles_const].
    destruct (send_udp_connected_settles p (t_sock t)) as (f & [r s] & H).
    exists f. eexists. intros f' Hf'. by rewrite (H f' Hf').
  - destruct (recv_target _ _ _) as [[b t1] c]. apply settles_const.
  - apply settles_const.
Qed.

(** What a turn of a task without sender leaves. *)
Lemma target_task_winding fuel w t ch o ch' :
  t_sender t = false → target_task fuel w t ch = Some (o, ch') →
  match o with
  | Some t' => t_sender t' = false ∧
      length (queued (t_inbox t')) + client_turn w ≤ length (queued (t_inbox t))
  | None => True
  end.
Proof.
  intros Hs. destruct w; cbn [target_task].
  - destruct (try_recv _) as [[p|] c] eqn:E; apply try_recv_queued in E as [E _].
    + destruct (send_udp_connected _ _ _) as [[r s]|]; [|done]. intros [= <- _].
      split; [done|]. rewrite E. cbn. lia.
    + rewrite Hs. by intros [= <- _].
  - destruct (recv_target _ _ _) as [[b t'] c] eqn:E. apply recv_target_inbox in E as [Hi Hse].
    intros [= <- _]. destruct b; [|done]. rewrite Hi, Hse. split; [done|]. cbn. lia.
  - by intros [= <- _].
Qed.

(** A turn woken by the client's channel: one payload less, or the end. *)
Lemma own_turn_winding fuel i w q sv sv' :
  run_task fuel i w sv = Some sv' → winding_down i q (sv_rt sv) →
  winding_down i (q - client_turn w) (sv_rt sv').
Proof.
  intros Hr [Hi Ht]. unfold run_task in Hr. destruct (rt_tasks (sv_rt sv) !! i) as [t|] eqn:E.
  - destruct (Ht t eq_refl) as [Hs Hq]. destruct (target_task _ _ _ _) as [[o ch]|] eqn:Et; [|done].
    injection Hr as <-. apply target_task_winding in Et; [|done]. split; [done|].
    cbn [sv_rt rt_tasks]. rewrite lookup_partial_alter_eq. intros t' ->. destruct Et as [Hs' Hq'].
    split; [done|]. lia.
  - injection Hr as <-. split; [done|]. intros t Hti. congruence.
Qed.

Lemma run_task_winding fuel j w i q sv sv' :
  run_task fuel j w sv = Some sv' → winding_down i q (sv_rt sv) → winding_down i q (sv_rt sv').
Proof.
  intros Hr Hw. destruct (decide (j = i)) as [->|Hne].
  - apply (own_turn_winding _ _ _ q) in Hr as [Hi Ht]; [|done]. split; [done|].
    intros t H. apply Ht in H as [? ?]. split; [done|]. lia.
  - unfold run_task in Hr. destruct (rt_tasks (sv_rt sv) !! j) as [t|]; [|by injection Hr as <-].
    destruct (target_task _ _ _ _) as [[o ch]|]; [|done]. injection Hr as <-.
    destruct Hw as [Hi Ht]. split; [done|]. intros t'. cbn [sv_rt rt_tasks].
    rewrite lookup_partial_alter_ne by done. auto.
Qed.

(** Handlers that leave the tasks alone. *)
Lemma drain_targets_rt fuel now sv sv' : drain_targets fuel now sv = Some sv' → sv_rt sv' = sv_rt sv.
Proof.
  unfold drain_targets. apply (loop_invariant _ (λ s, sv_rt s = sv_rt sv) (λ s, sv_rt s = sv_rt sv)); [..|done].
  - intros s s' H. destruct (try_recv _) as [[tc|] ch]; [|done]. intros [= <-]. rewrite <- H.
    unfold on_target_payload. cbn [sv_clients]. destruct (sv_clients s !! _); [|done].
    by destruct (dgram_send _ _).
  - intros s s' H. by destruct (try_recv _) as [[tc|] ch]; [|intros [= <-]].
Qed.

Lemma step_winding i q sv sv' :
  server_ok anything sv → step linux Allowed sv sv' →
  winding_down i q (sv_rt sv) → winding_down i q (sv_rt sv').
Proof.
  intros Hok Hst Hw.
  destruct Hst as [fuel now rnd pkt from sv' Hl H|fuel now sv' H| |now|fuel k sv' H| |fuel j w sv' H| |].
  - apply on_packet_only in H as (k & _ & Hf); [|done]. by eapply frame_winding.
  - apply drain_targets_rt in H. by rewrite H.
  - exact Hw.
  - by apply sweep_winding.
  - unfold flush_client in H. destruct (sv_clients sv !! k); [|by injection H as <-].
    destruct (flush_connection _ _ _ _) as [[r st]|]; [|done]. by injection H as <-.
  - by apply reap_winding.
  - by eapply run_task_winding.
  - exact Hw.
  - exact Hw.
Qed.
(** Runs of the system in which task [i] gets the turns [ws] (and perhaps others). *)
Inductive runs_with (i : nat) : list task_wake → Server → Server → Prop :=
| runs_done sv : runs_with i [] sv sv
| runs_own fuel w ws sv1 sv2 sv3 :
    run_task fuel i w sv1 = Some sv2 → runs_with i ws sv2 sv3 → runs_with i (w :: ws) sv1 sv3
| runs_step ws sv1 sv2 sv3 :
    step linux Allowed sv1 sv2 → runs_with i ws sv2 sv3 → runs_with i ws sv1 sv3.

Lemma runs_winding i ws q sv sv' :
  runs_with i ws sv sv' → server_ok anything sv ∧ Allowed (sv_rules sv) →
  winding_down i q (sv_rt sv) →
  (server_ok anything sv' ∧ Allowed (sv_rules sv')) ∧ winding_down i (q - client_turns ws) (sv_rt sv').
Proof.
  intros H. revert q. induction H as [sv|fuel w ws sv1 sv2 sv3 Hr _ IH|ws sv1 sv2 sv3 Hs _ IH];
    intros q [Hok Ha] Hw.
  - cbn. by rewrite Nat.sub_0_r.
  - replace (q - client_turns (w :: ws)) with (q - client_turn w - client_turns ws)
      by (unfold client_turns; cbn; lia).
    apply IH; [|by eapply own_turn_winding].
    eapply run_task_ok in Hr as [H1 ->]; [done|apply keeps_True|done].
  - apply IH; [|by eapply step_winding].
    eapply step_ok; [apply keeps_True|intros; apply opens_anything|done|done].
Qed.

(** C29: A task whose flow is gone ends: whatever the system does meanwhile, once it has
    had more turns for its channel than payloads were left in it, the task is no more
    (and never comes back); and a turn of it always returns. *)
Theorem orphan_task_ends (i : nat) t (ws : list task_wake) sv sv' :
  reachable linux Allowed sv → rt_tasks (sv_rt sv) !! i = Some t → t_sender t = false →
  runs_with i ws sv sv' →
  (length (queued (t_inbox t)) < client_turns ws → rt_tasks (sv_rt sv') !! i = None) ∧
  ∀ w, ∃ fuel0 sv2, ∀ fuel, fuel0 ≤ fuel → run_task fuel i w sv' = Some sv2.
Proof.
  intros Hr Ht Hs Hrun. split.
  - intros Hlt. apply (reachable_ok linux anything) in Hr as [Hok Ha]; [|apply keeps_True|intros; apply opens_anything].
    destruct (runs_winding i ws (S (length (queued (t_inbox t)))) sv sv' Hrun) as [_ [_ Hw]]; [done| |].
    + split; [by apply (sv_rt_ok _ _ Hok) in Ht|]. intros t' Ht'. simplify_eq. split; [done|lia].
    + destruct (rt_tasks (sv_rt sv') !! i) as [t'|] eqn:E; [|done]. destruct (Hw t' eq_refl). lia.
  - intros w. unfold run_task. destruct (rt_tasks (sv_rt sv') !! i) as [t'|]; [|by exists 0; eexists].
    destruct (target_task_settles w t' (sv_to_client sv')) as (f & [o ch] & H).
    exists f. eexists. intros f' Hf'. by rewrite (H f' Hf').
Qed.
End Orphans.

(** The sample's flow is swept with "ping" still queued: its task ends with its second
    turn. *)
Local Abbreviation LServer := (Server lconn Z unit lconn lsock (list SocketAddr) lchan).

Definition swept_sv : LServer :=
  sweep_idle_flows (Q := LoopQuiche) (HI := HashIterStd) (from_secs 50) sample_sv1.

Definition task_turn (sv : LServer) : LServer :=
  match run_task (U := LoopUdp) (M := LoopMpsc) 9 0 FromClient sv with Some sv => sv | None => sv end.

Definition turn_returns (sv : LServer) : bool :=
  match run_task (U := LoopUdp) (M := LoopMpsc) 9 0 FromClient sv with Some _ => true | None => false end.

Lemma task_turn_returns (sv : LServer) :
  turn_returns sv = true → run_task (U := LoopUdp) (M := LoopMpsc) 9 0 FromClient sv = Some (task_turn sv).
Proof. unfold turn_returns, task_turn. by destruct (run_task _ _ _ sv). Qed.

Lemma swept_reachable :
  reachable (Q := LoopQuiche) (QV := LoopServer) (U := LoopUdp) (SA := LoopSockets)
    (M := LoopMpsc) (HI := HashIterStd) true sample_allowed swept_sv.
Proof.
  destruct sample_reachable as (s0 & so & ad & h3 & cf & ru & os & H1 & H2 & H4).
  exists s0, so, ad, h3, cf, ru, os. split_and!; [done..|]. eapply rtc_r; [exact H4|]. apply step_sweep.
Qed.

Lemma orphan_task_ends_witness :
  ∃ t, rt_tasks (sv_rt swept_sv) !! 0 = Some t ∧ lc_queue (t_inbox t) = [str "ping"] ∧
    rt_tasks (sv_rt (task_turn (task_turn swept_sv))) !! 0 = None.
Proof.
  assert (match rt_tasks (sv_rt swept_sv) !! 0 with
    | Some t => negb (t_sender t) && bool_decide (lc_queue (t_inbox t) = [str "ping"]) | None => false end = true)
    as H by (vm_compute; reflexivity).
  destruct (rt_tasks (sv_rt swept_sv) !! 0) as [t|] eqn:E; [|discriminate H].
  exists t. apply andb_true_iff in H as [H1%negb_true_iff H2%bool_decide_eq_true_1].
  split_and!; [reflexivity|exact H2|].
  refine (proj1 (orphan_task_ends (Q := LoopQuiche) (QT := LoopStreams) (QV := LoopServer)
    (UP := LoopUdpProgress) (SA := LoopSockets) (ML := LoopMpscLaws) (HI := HashIterStd)
    true sample_allowed 0 t [FromClient; FromClient] swept_sv _ swept_reachable E H1 _) _).
  - eapply runs_own; [apply task_turn_returns; vm_compute; reflexivity|].
    eapply runs_own; [apply task_turn_returns; vm_compute; reflexivity|]. apply runs_done.
  - change (length (lc_queue (t_inbox t)) < 2). rewrite H2. cbn. lia.
Defined.
