(* ===== verification/Refine.v ===== *)
(** * The server as a table of flows

    What the server promises, without packets, sockets and tasks: a table of
    connections, each with its flows, which are opened under a rule, used, closed by
    the client, expired when idle and dropped with their connection.  Every step of
    Server.v is a sequence of steps of this table, and each handler causes only the
    kinds of steps it is there for. *)

From S2P Require Import Prelude.
From S2P Require Import Net.
From S2P Require Import Dgram.
From S2P Require Import Rules.
From S2P Require Import Quiche.
From S2P Require Import Loopback.
From S2P Require Import Io.
From S2P Require Import Sockets.
From S2P Require Import Server.
From S2P Require Import ServerInv.
From S2P Require Import ServerProps.

(** ** The specification *)

(** A flow: when it was last used and how long it may stay idle. *)
Record AFlow := mkAFlow { af_active : Z; af_timeout : option Z }.

Record Table := mkTable { tb_rules : RuleTable; tb_conns : gmap Scid (gmap Z AFlow) }.

Inductive flow_label :=
| FOpen (fid : Z) (now : Z) (r : Rule)
| FClose (fid : Z)
| FTouch (fid : Z) (now : Z)
| FExpire (fid : Z) (now : Z).

Inductive flow_step (t : RuleTable) : flow_label → gmap Z AFlow → gmap Z AFlow → Prop :=
| flow_opens fid now r F :
    r ∈ rules t → flow_step t (FOpen fid now r) F (<[fid := mkAFlow now (idle_timeout r)]> F)
| flow_closes fid F : flow_step t (FClose fid) F (delete fid F)
| flow_touched fid now F f :
    F !! fid = Some f → flow_step t (FTouch fid now) F (<[fid := mkAFlow now (af_timeout f)]> F)
| flow_expires fid now F f d :
    F !! fid = Some f → af_timeout f = Some d → (d ≤ Z.max 0 (now - af_active f))%Z →
    flow_step t (FExpire fid now) F (delete fid F).

Inductive label :=
| Connect (k : Scid)
| Disconnect (k : Scid)
| OnFlow (k : Scid) (l : flow_label)
| Reload (t : RuleTable).

Inductive table_step : label → Table → Table → Prop :=
| table_connect k t C : table_step (Connect k) (mkTable t C) (mkTable t (<[k := ∅]> C))
| table_disconnect k t C : table_step (Disconnect k) (mkTable t C) (mkTable t (delete k C))
| table_flow k l t C F F' :
    C !! k = Some F → flow_step t l F F' →
    table_step (OnFlow k l) (mkTable t C) (mkTable t (<[k := F']> C))
| table_reload t' t C : table_step (Reload t') (mkTable t C) (mkTable t' C).

(** ** What each handler may do *)

Inductive kind :=
| ByPacket (now : Z) (scid : Scid)
| ByTargets (now : Z)
| BySweep (now : Z)
| ByReap
| ByReload
| Silent.

Definition flow_permits (K : kind) (l : flow_label) : Prop :=
  match K, l with
  | ByPacket now _, FOpen _ now' _ => now' = now
  | ByPacket _ _, FClose _ => True
  | (ByPacket now _ | ByTargets now), FTouch _ now' => now' = now
  | BySweep now, FExpire _ now' => now' = now
  | _, _ => False
  end.

Definition permits (K : kind) (l : label) : Prop :=
  match K, l with
  | ByPacket _ scid, Connect k => k = scid
  | ByReap, Disconnect _ => True
  | ByReload, Reload _ => True
  | _, OnFlow _ l => flow_permits K l
  | _, _ => False
  end.

(** The handlers of the server by kind; flushes, timers and target tasks are silent. *)
Section Kinds.
Context {Conn H3 H3Config Config Sock Os : Type} {Chan : Type → Type}.
Context `{Q : Quiche Conn H3 H3Config} `{QV : QuicheServer Conn Config}.
Context `{U : UdpSys Sock} `{SA : SocketApi Sock Os} `{M : Mpsc Chan} `{HI : HashIter}.
Context (linux : bool).
Local Abbreviation Server := (Server Conn H3 H3Config Config Sock Os Chan).
Local Abbreviation Session := (Server.Session Conn H3 Sock Os Chan).
Implicit Types (sv : Server) (st : Session).

Inductive handles : kind → Server → Server → Prop :=
| handles_packet fuel now rnd pkt from sv sv' :
    on_packet linux fuel now rnd sv pkt from = Some (Returns sv') → handles (ByPacket now rnd) sv sv'
| handles_targets fuel now sv sv' : drain_targets fuel now sv = Some sv' → handles (ByTargets now) sv sv'
| handles_sweep now sv : handles (BySweep now) sv (sweep_idle_flows now sv)
| handles_reap sv : handles ByReap sv (reap_closed sv)
| handles_reload config rules sv : handles ByReload sv (set_server_config config rules sv)
| handles_timeout sv : handles Silent sv (on_timeouts sv)
| handles_flush fuel sv sv' : flush_all linux fuel sv = Some sv' → handles Silent sv sv'
| handles_task fuel i w sv sv' : run_task fuel i w sv = Some sv' → handles Silent sv sv'.

(** ** The abstraction *)

Definition abs_flow (f : Flow) : AFlow := mkAFlow (fl_last_activity f) (fl_idle_timeout f).
Definition abs_flows (F : gmap Z Flow) : gmap Z AFlow := abs_flow <$> F.
Definition abs sv : Table := mkTable (sv_rules sv) ((λ c, abs_flows (cl_flows c)) <$> sv_clients sv).

Local Abbreviation flows_via now rnd t := (via (flow_step t) (flow_permits (ByPacket now rnd))).

Lemma abs_flows_insert fid f F : abs_flows (<[fid := f]> F) = <[fid := abs_flow f]> (abs_flows F).
Proof. apply fmap_insert. Qed.

Lemma abs_flows_delete fid F : abs_flows (delete fid F) = delete fid (abs_flows F).
Proof. apply fmap_delete. Qed.

Lemma handle_connect_request_via now rnd t from k i hs st :
  flows_via now rnd t (abs_flows (ss_flows st))
    (abs_flows (ss_flows (handle_connect_request linux now t from k i hs st))).
Proof.
  assert (∀ st status, ss_flows (respond_status st i status) = ss_flows st) as Hr.
  { intros s status. unfold respond_status, respond. by destruct (send_response _ _ _ _ _) as [r [h c]]. }
  unfold handle_connect_request. destruct (parse_request hs); [|rewrite Hr; apply via_refl].
  destruct (match_target _ _ _) as [m|] eqn:Em; [|rewrite Hr; apply via_refl].
  apply match_target_Some in Em as (r & Hin & _ & ->).
  destruct (bind_target _ _ _ _ _ _) as [[sock|e] os]; [|rewrite Hr; apply via_refl].
  unfold open_flow, spawn_target, insert_flow, remove_flow, respond, set_os.
  cbn [ss_conn ss_http3 ss_flows ss_rt rt_next rt_tasks rt_os].
  assert (∀ n, flows_via now rnd t (abs_flows (ss_flows st))
    (abs_flows (<[(i / 4)%Z := mkFlow n now (m_idle_timeout (match_of r))]> (ss_flows st)))) as Ho.
  { intros n. rewrite abs_flows_insert. by eapply (via_one _ _ (FOpen (i / 4) now r)); [by apply flow_opens|]. }
  destruct (send_response _ _ _ _ _) as [[u|e] [h c]]; cbn [ss_flows ss_rt]; [apply Ho|].
  eapply via_trans; [apply Ho|]. rewrite abs_flows_delete. by eapply (via_one _ _ (FClose (i / 4))); [apply flow_closes|].
Qed.

Lemma on_event_via fuel now rnd t from k st :
  match on_event linux fuel now t from k st with
  | inl st' | inr (Some st') => flows_via now rnd t (abs_flows (ss_flows st)) (abs_flows (ss_flows st'))
  | inr None => True
  end.
Proof.
  unfold on_event. destruct (poll _ _) as [[[i ev]|e] [h c]]; [|apply via_refl].
  destruct ev; try apply via_refl.
  - apply (handle_connect_request_via _ _ _ _ _ _ _ (mkSession c h (ss_flows st) (ss_rt st))).
  - destruct (drain_body _ _ _ _) as [[h' c']|]; [apply via_refl|done].
  - cbn. rewrite abs_flows_delete. by eapply (via_one _ _ (FClose (i / 4))); [apply flow_closes|].
  - cbn. rewrite abs_flows_delete. by eapply (via_one _ _ (FClose (i / 4))); [apply flow_closes|].
Qed.

Lemma on_datagram_via now rnd t buf st st' :
  on_datagram now buf st = Returns st' →
  flows_via now rnd t (abs_flows (ss_flows st)) (abs_flows (ss_flows st')).
Proof.
  unfold on_datagram. destruct (Dgram.decode buf) as [[p|]|]; [| |done]; cbn [mbind panics_bind].
  2:{ intros [= <-]. apply via_refl. }
  destruct (negb _); [intros [= <-]; apply via_refl|].
  destruct (ss_flows st !! flow_id p) as [f|] eqn:E; intros [= <-]; [|apply via_refl].
  cbn [ss_flows]. rewrite abs_flows_insert.
  eapply (via_one _ _ (FTouch (flow_id p) now)); [|done].
  apply (flow_touched _ _ _ _ (abs_flow f)). unfold abs_flows. by rewrite lookup_fmap, E.
Qed.

Lemma drain_client_datagrams_via fuel now rnd t st st' :
  drain_client_datagrams fuel now st = Some (Returns st') →
  flows_via now rnd t (abs_flows (ss_flows st)) (abs_flows (ss_flows st')).
Proof.
  unfold drain_client_datagrams. intros H.
  eapply (loop_invariant _ (λ s, flows_via now rnd t (abs_flows (ss_flows st)) (abs_flows (ss_flows s)))
    (λ r, match r with
          | Returns s => flows_via now rnd t (abs_flows (ss_flows st)) (abs_flows (ss_flows s))
          | Panics => True
          end)) in H; [exact H|..|apply via_refl].
  - intros s s' Hs. destruct (dgram_recv _ _) as [[buf|e] c]; [|done].
    destruct (on_datagram _ _ _) as [s1|] eqn:E; [|done]. intros [= <-].
    eapply via_trans; [exact Hs|]. by eapply on_datagram_via in E.
  - intros s r Hs. destruct (dgram_recv _ _) as [[buf|e] c].
    + destruct (on_datagram _ _ _); [done|]. by intros [= <-].
    + intros [= <-]. exact Hs.
Qed.

Lemma process_client_via fuel now rnd k h3c t cl rt cl' rt' :
  process_client linux fuel now k h3c t cl rt = Some (Returns (cl', rt')) →
  flows_via now rnd t (abs_flows (cl_flows cl)) (abs_flows (cl_flows cl')).
Proof.
  unfold process_client. destruct (negb _); [intros [= <- _]; apply via_refl|].
  destruct (match cl_http3 cl with Some h3 => _ | None => _ end) as [[h3|] c];
    [|intros [= <- _]; apply via_refl].
  destruct (mjoin _) as [st|] eqn:E; [|done].
  destruct (drain_client_datagrams _ _ _) as [[st'|]|] eqn:Ed; [|done..]. intros [= <- _].
  cbn [cl_flows]. eapply via_trans; [|by eapply drain_client_datagrams_via].
  destruct (loop _ _ _) as [o|] eqn:El; [|done]. cbn in E. subst o.
  eapply (loop_invariant _ (λ s, flows_via now rnd t (abs_flows (cl_flows cl)) (abs_flows (ss_flows s)))
    (λ r, match r with
          | Some s => flows_via now rnd t (abs_flows (cl_flows cl)) (abs_flows (ss_flows s))
          | None => True
          end)) in El; [exact El|..|apply via_refl].
  - intros s s' Hs H. pose proof (on_event_via fuel now rnd t (cl_peer cl) k s) as Ho. rewrite H in Ho.
    by eapply via_trans.
  - intros s [s'|] Hs H; [|done]. pose proof (on_event_via fuel now rnd t (cl_peer cl) k s) as Ho. rewrite H in Ho.
    by eapply via_trans.
Qed.

(** ** From flows to the table *)
Lemma flows_via_table (K : kind) k t C F F' :
  C !! k = Some F → via (flow_step t) (flow_permits K) F F' →
  via table_step (λ l, ∃ fl, l = OnFlow k fl ∧ flow_permits K fl) (mkTable t C) (mkTable t (<[k := F']> C)).
Proof.
  intros HC (ls & Ht & HP). revert C HC.
  induction Ht as [F|l ls F1 F2 F3 Hs _ IH]; intros C HC.
  - rewrite insert_id by done. apply via_refl.
  - apply Forall_cons in HP as [Hl HP]. eapply via_trans.
    + eapply (via_one _ _ (OnFlow k l)); [by eapply table_flow|by eexists].
    + rewrite <- (insert_insert_eq C k F3 F2). apply IH; [done|]. by rewrite lookup_insert_eq.
Qed.

Lemma via_impl {L S} (R : L → S → S → Prop) (P P' : L → Prop) s s' :
  (∀ l, P l → P' l) → via R P s s' → via R P' s s'.
Proof. intros HP (ls & H & Hls). exists ls. split; [done|]. by eapply Forall_impl. Qed.

Definition only_on (k : Scid) (K : kind) (l : label) : Prop :=
  permits K l ∧ (l = Connect k ∨ ∃ fl, l = OnFlow k fl).

Lemma only_on_flow k K l : (∃ fl, l = OnFlow k fl ∧ flow_permits K fl) → only_on k K l.
Proof. intros (fl & -> & H). split; [|eauto]. by destruct K. Qed.

Lemma abs_lookup sv k c :
  sv_clients sv !! k = Some c → tb_conns (abs sv) !! k = Some (abs_flows (cl_flows c)).
Proof. intros H. cbn. by rewrite lookup_fmap, H. Qed.

Lemma abs_set_client sv k c rt :
  abs (set_clients sv (<[k := c]> (sv_clients sv)) rt) =
  mkTable (sv_rules sv) (<[k := abs_flows (cl_flows c)]> (tb_conns (abs sv))).
Proof. unfold abs. cbn. by rewrite fmap_insert. Qed.

(** Replacing the client of [k] by one whose flows went through steps. *)
Lemma set_client_via (K : kind) sv k c c' rt :
  sv_clients sv !! k = Some c →
  via (flow_step (sv_rules sv)) (flow_permits K) (abs_flows (cl_flows c)) (abs_flows (cl_flows c')) →
  via table_step (only_on k K) (abs sv) (abs (set_clients sv (<[k := c']> (sv_clients sv)) rt)).
Proof.
  intros Hc Hv. rewrite abs_set_client. eapply via_impl; [apply only_on_flow|].
  eapply flows_via_table; [by apply abs_lookup|done].
Qed.

Lemma deliver_via fuel now rnd sv k pkt from sv' :
  deliver linux fuel now sv k pkt from = Some (Returns sv') →
  via table_step (only_on k (ByPacket now rnd)) (abs sv) (abs sv').
Proof.
  unfold deliver. destruct (sv_clients sv !! k) as [cl|] eqn:E; [|done].
  destruct (recv _ _ _ _) as [[n|e] c].
  - destruct (process_client _ _ _ _ _ _ _ _) as [[[cl' rt']|]|] eqn:Ep; [|done..].
    intros [= <-]. eapply set_client_via; [done|]. by apply (process_client_via _ _ rnd) in Ep.
  - intros [= <-]. eapply set_client_via; [done|]. apply via_refl.
Qed.

Lemma on_packet_via fuel now rnd sv pkt from sv' :
  on_packet linux fuel now rnd sv pkt from = Some (Returns sv') →
  ∃ k, via table_step (only_on k (ByPacket now rnd)) (abs sv) (abs sv').
Proof.
  unfold on_packet. destruct (header_from_slice _ _) as [hdr|e].
  2:{ intros [= <-]. exists []. apply via_refl. }
  destruct (route _ _) as [k|].
  { intros H. exists k. by eapply deliver_via. }
  destruct (negb _); [intros [= <-]; exists []; apply via_refl|]. destruct (negb _).
  - unfold send_version_negotiation.
    destruct (negotiate_version _ _ _); [|intros [= <-]; exists []; apply via_refl].
    destruct (send_udp _ _ _ _ _) as [[r s]|]; [|done]. intros [= <-]. exists []. apply via_refl.
  - unfold accept. destruct (quiche_accept _ _ _ _) as [[c|e] cfg].
    2:{ intros [= <-]. exists []. apply via_refl. }
    intros H. exists rnd. eapply via_trans; [|by eapply deliver_via].
    eapply (via_one _ _ (Connect rnd)); [|split; [done|by left]].
    unfold abs. cbn [sv_rules sv_clients]. rewrite fmap_insert. cbn [cl_flows].
    unfold abs_flows at 2. rewrite fmap_empty. apply table_connect.
Qed.

Lemma only_on_permits k K l : only_on k K l → permits K l.
Proof. by intros []. Qed.

Lemma alter_lookup {K A} `{Countable K} (f : A → A) (m : gmap K A) k :
  alter f k m = match m !! k with Some a => <[k := f a]> m | None => m end.
Proof.
  apply map_eq. intros k'. destruct (decide (k = k')) as [->|Hne].
  - rewrite lookup_alter_eq. destruct (m !! k') eqn:E; cbn; by rewrite ?lookup_insert_eq, ?E.
  - rewrite lookup_alter_ne by done. destruct (m !! k); [by rewrite lookup_insert_ne|done].
Qed.

Lemma on_target_payload_via tc now sv :
  via table_step (permits (ByTargets now)) (abs sv) (abs (on_target_payload tc now sv)).
Proof.
  unfold on_target_payload. destruct (sv_clients sv !! tc_conn_id tc) as [cl|] eqn:E; [|apply via_refl].
  destruct (dgram_send _ _) as [r c]. eapply via_impl; [apply only_on_permits|].
  eapply set_client_via; [done|]. cbn [cl_flows]. rewrite alter_lookup.
  destruct (cl_flows cl !! tc_flow_id tc) as [f|] eqn:Ef.
  - rewrite abs_flows_insert.
    eapply (via_one _ _ (FTouch (tc_flow_id tc) now)); [|done].
    apply (flow_touched _ _ _ _ (abs_flow f)). unfold abs_flows. by rewrite lookup_fmap, Ef.
  - apply via_refl.
Qed.

Lemma drain_targets_via fuel now sv sv' :
  drain_targets fuel now sv = Some sv' → via table_step (permits (ByTargets now)) (abs sv) (abs sv').
Proof.
  unfold drain_targets.
  apply (loop_invariant _ (λ s, via table_step (permits (ByTargets now)) (abs sv) (abs s))
    (λ s, via table_step (permits (ByTargets now)) (abs sv) (abs s))); [..|apply via_refl].
  - intros s s' H. destruct (try_recv _) as [[tc|] ch]; [|done]. intros [= <-].
    eapply via_trans; [exact H|]. eapply via_trans; [|apply on_target_payload_via]. apply via_refl.
  - intros s s' H. by destruct (try_recv _) as [[tc|] ch]; [|intros [= <-]].
Qed.

(** Expiring a list of flows that are all due. *)
Lemma expire_flows_via now t (l : list Z) (c : Conn) F (rt : Runtime Sock Os Chan) :
  NoDup l → (∀ fid, fid ∈ l → ∃ f, F !! fid = Some f ∧ idle_expired now f = true) →
  let '(_, F', _) := fold_left expire_flow l (c, F, rt) in
  via (flow_step t) (flow_permits (BySweep now)) (abs_flows F) (abs_flows F').
Proof.
  revert c F rt. induction l as [|fid l IH]; intros c F rt Hnd Hl; [apply via_refl|].
  apply NoDup_cons in Hnd as [Hni Hnd]. cbn [fold_left]. unfold expire_flow at 2.
  destruct (remove_flow fid F rt) as [F1 rt1] eqn:E. unfold remove_flow in E. injection E as <- _.
  match goal with |- context [fold_left expire_flow l (?c1, _, _)] =>
    specialize (IH c1 (delete fid F) rt1 Hnd) end.
  destruct (fold_left _ _ _) as [[c2 F2] rt2]. eapply via_trans; [|apply IH].
  - destruct (Hl fid) as (f & Hf & Hi); [by left|]. rewrite abs_flows_delete.
    unfold idle_expired in Hi. destruct (fl_idle_timeout f) as [d|] eqn:Ed; [|done].
    apply Z.leb_le in Hi. eapply (via_one _ _ (FExpire fid now)); [|done].
    apply (flow_expires _ _ _ _ (abs_flow f) d); [|done|done]. unfold abs_flows. by rewrite lookup_fmap, Hf.
  - intros fid' Hin. destruct (Hl fid') as (f & Hf & Hi); [by right|]. exists f. split; [|done].
    rewrite lookup_delete_ne; [done|]. by intros ->.
Qed.

Lemma sweep_client_via now sv p :
  sv_clients sv !! p.1 = Some p.2 →
  via table_step (permits (BySweep now)) (abs sv) (abs (sweep_client now sv p)).
Proof.
  intros Hp. unfold sweep_client.
  pose proof (expire_flows_via now (sv_rules sv) (expired now (cl_flows p.2)) (cl_conn p.2)
    (cl_flows p.2) (sv_rt sv) (expired_nodup _ _) (λ fid, proj1 (elem_of_expired _ _ fid))) as Hv.
  destruct (fold_left _ _ _) as [[c F] rt]. eapply via_impl; [apply only_on_permits|].
  by eapply set_client_via.
Qed.

Lemma sweep_via now sv : via table_step (permits (BySweep now)) (abs sv) (abs (sweep_idle_flows now sv)).
Proof.
  unfold sweep_idle_flows.
  apply (fold_clients_ok (λ s, via table_step (permits (BySweep now)) (abs sv) (abs s)));
    [..|apply via_refl].
  - intros s p H Hp. eapply via_trans; [exact H|]. by apply sweep_client_via.
  - intros s p k Hk. unfold sweep_client. destruct (fold_left _ _ _) as [[c F] rt]. cbn.
    by rewrite lookup_insert_ne.
Qed.

Lemma reap_via sv : via table_step (permits ByReap) (abs sv) (abs (reap_closed sv)).
Proof.
  unfold reap_closed.
  apply (fold_clients_ok (λ s, via table_step (permits ByReap) (abs sv) (abs s))); [..|apply via_refl].
  - intros s p H _. eapply via_trans; [exact H|]. unfold reap_client.
    destruct (is_closed _); [|apply via_refl]. eapply (via_one _ _ (Disconnect p.1)); [|done].
    unfold abs. cbn. rewrite fmap_delete. apply table_disconnect.
  - intros s p k Hk. unfold reap_client. destruct (is_closed _); [|done]. cbn. by rewrite lookup_delete_ne.
Qed.

(** Silent handlers leave the table as it is. *)
Lemma flush_client_abs fuel k sv sv' : flush_client linux fuel k sv = Some sv' → abs sv' = abs sv.
Proof.
  unfold flush_client. destruct (sv_clients sv !! k) as [cl|] eqn:E; [|by intros [= <-]].
  destruct (flush_connection _ _ _ _) as [[r st]|]; [|done]. intros [= <-].
  unfold abs. cbn. f_equal. rewrite fmap_insert. cbn. apply insert_id. by rewrite lookup_fmap, E.
Qed.

Lemma flush_all_abs fuel sv sv' : flush_all linux fuel sv = Some sv' → abs sv' = abs sv.
Proof.
  unfold flush_all. generalize (iter (sv_clients sv)). intros l. revert sv.
  induction l as [|p l IH]; intros sv; cbn [fold_left]; [by intros [= <-]|].
  cbn [mbind option_bind]. destruct (flush_client linux fuel p.1 sv) as [sv1|] eqn:E.
  - intros H%IH. apply flush_client_abs in E. congruence.
  - intros H. exfalso. clear -H. by induction l.
Qed.

Lemma on_timeouts_abs sv : abs (on_timeouts sv) = abs sv.
Proof.
  unfold abs, on_timeouts, for_clients. cbn. f_equal. apply map_eq. intros k.
  rewrite !lookup_fmap, map_lookup_imap. by destruct (sv_clients sv !! k).
Qed.

Lemma run_task_abs fuel i w sv sv' : run_task fuel i w sv = Some sv' → abs sv' = abs sv.
Proof.
  unfold run_task. destruct (rt_tasks (sv_rt sv) !! i); [|by intros [= <-]].
  destruct (target_task _ _ _ _) as [[o ch]|]; [|done]. by intros [= <-].
Qed.

(** ** Connection ids *)
Lemma abs_clients sv k : is_Some (tb_conns (abs sv) !! k) ↔ is_Some (sv_clients sv !! k).
Proof. cbn. by rewrite lookup_fmap, fmap_is_Some. Qed.

(** New connections are only those a packet may make. *)
Lemma via_conns K T T' k :
  via table_step (permits K) T T' → is_Some (tb_conns T' !! k) →
  is_Some (tb_conns T !! k) ∨ ∃ now, K = ByPacket now k.
Proof.
  intros (ls & Ht & HP). induction Ht as [|l ls T1 T2 T3 Hs _ IH]; [auto|].
  apply Forall_cons in HP as [Hl HP]. intros [H|H]%(IH HP); [|by right].
  destruct Hs; cbn [tb_conns] in *; [| |left..].
  - destruct (decide (k0 = k)) as [->|Hne]; [|left; by rewrite lookup_insert_ne in H].
    right. destruct K; cbn in Hl; try done. subst. eauto.
  - left. destruct H as [x Hx]. by apply lookup_delete_Some in Hx as [_ ?].
  - destruct (decide (k0 = k)) as [->|Hne]; [eauto|by rewrite lookup_insert_ne in H].
  - done.
Qed.

Lemma handles_via K sv sv' : handles K sv sv' → via table_step (permits K) (abs sv) (abs sv').
Proof.
  destruct 1 as [fuel now rnd pkt from sv sv' H|fuel now sv sv' H|now sv|sv|cfg t sv|sv
    |fuel sv sv' H|fuel i w sv sv' H].
  - apply on_packet_via in H as [k H]. eapply via_impl; [apply only_on_permits|exact H].
  - by eapply drain_targets_via.
  - apply sweep_via.
  - apply reap_via.
  - eapply (via_one _ _ (Reload t)); [apply table_reload|done].
  - rewrite on_timeouts_abs. apply via_refl.
  - apply flush_all_abs in H. rewrite H. apply via_refl.
  - apply run_task_abs in H. rewrite H. apply via_refl.
Qed.

Definition keys_sized sv : Prop := ∀ k, is_Some (sv_clients sv !! k) → length k = LOCAL_CONN_ID_LEN.

Lemma handles_sized K sv sv' :
  (∀ now scid, K = ByPacket now scid → length scid = LOCAL_CONN_ID_LEN) →
  handles K sv sv' → keys_sized sv → keys_sized sv'.
Proof.
  intros HK H%handles_via Hs k Hk. apply abs_clients in Hk.
  destruct (via_conns _ _ _ _ H Hk) as [Ho|[now ->]]; [by apply Hs, abs_clients|by eapply HK].
Qed.

Lemma step_sized Allowed sv sv' : step linux Allowed sv sv' → keys_sized sv → keys_sized sv'.
Proof.
  destruct 1 as [fuel now rnd pkt from sv' Hl H|fuel now sv' H| |now|fuel k sv' H| |fuel i w sv' H|cfg t _|].
  - eapply (handles_sized (ByPacket now rnd)); [by intros ?? [= _ <-]|by eapply handles_packet].
  - eapply (handles_sized (ByTargets now)); [done|by eapply handles_targets].
  - eapply (handles_sized Silent); [done|apply handles_timeout].
  - eapply (handles_sized (BySweep now)); [done|apply handles_sweep].
  - intros Hs k' Hk. apply abs_clients in Hk. apply flush_client_abs in H. rewrite H in Hk.
    by apply Hs, abs_clients.
  - eapply (handles_sized ByReap); [done|apply handles_reap].
  - eapply (handles_sized Silent); [done|by eapply handles_task].
  - eapply (handles_sized ByReload); [done|apply handles_reload].
  - done.
Qed.

Lemma reachable_sized Allowed sv : reachable linux Allowed sv → keys_sized sv.
Proof.
  intros (sv0 & so & ad & h3 & cf & ru & os & Hn & _ & Hr).
  assert (keys_sized sv0) as H0.
  { unfold server_new in Hn. apply result_bind_Ok in Hn as (a & _ & Hn).
    apply result_bind_Ok in Hn as (h & _ & [= <-]). intros k [c Hc]. cbn [sv_clients] in Hc. by rewrite lookup_empty in Hc. }
  clear Hn. induction Hr as [|a b c Hab _ IH]; [done|]. apply IH. by eapply step_sized.
Qed.

(** C4: The server implements the table of flows.  Whatever a handler does is a sequence
    of steps of the table, of the kinds the handler is there for: a packet connects under the drawn id,
    opens flows under rules in force, closes and touches them, all on one connection;
    replies only touch flows; a sweep only expires flows that have been idle for their
    timeout, reaping only drops connections, a reload only changes the rules; flushes,
    connection timers and target tasks do not change the table at all. *)
Theorem server_refines_table (K : kind) sv sv' :
  handles K sv sv' →
  via table_step (permits K) (abs sv) (abs sv') ∧
  (∀ now scid, K = ByPacket now scid → ∃ k, via table_step (only_on k K) (abs sv) (abs sv')) ∧
  (K = Silent → abs sv' = abs sv).
Proof.
  intros H. split; [by apply handles_via|].
  destruct H as [fuel now rnd pkt from sv sv' H|fuel now sv sv' H|now sv|sv|cfg t sv|sv
    |fuel sv sv' H|fuel i w sv sv' H]; (split; [try done|done || intros _]).
  - intros ?? _. by apply on_packet_via in H.
  - apply on_timeouts_abs.
  - by apply flush_all_abs in H.
  - by apply run_task_abs in H.
Qed.
End Kinds.

Section Typed.
Context {Conn H3 H3Config Config Sock Os : Type} {Chan : Type → Type}.
Context `{QS : QuicheStreams Conn H3 H3Config} `{QV : QuicheServer Conn Config}.
Context `{U : UdpSys Sock} `{SA : SocketApi Sock Os} `{M : Mpsc Chan} `{HI : HashIter}.
Context (linux : bool).
Local Abbreviation Server := (Server Conn H3 H3Config Config Sock Os Chan).
Implicit Types (sv : Server).

(** C30: Connection ids are [Scid]s: in every reachable state the ids under which
    connections are kept, to which routes lead and for which tasks with a sender run
    have [LOCAL_CONN_ID_LEN] bytes, so a packet that names a live connection by its id
    is routed to it whatever the table of original ids says; and the ids of the flows
    are quarters of stream ids, so [flow_id * 4] does not overflow. *)
Theorem ids_well_typed (Allowed : RuleTable → Prop) sv :
  reachable linux Allowed sv →
  (∀ k c, sv_clients sv !! k = Some c →
     length k = LOCAL_CONN_ID_LEN ∧ route sv k = ToConnection k ∧
     ∀ fid f, cl_flows c !! fid = Some f → (0 ≤ fid * 4 < 2 ^ 62 ∧ wrap 64 (fid * 4) = fid * 4)%Z) ∧
  (∀ d k, sv_routes sv !! d = Some k → length k = LOCAL_CONN_ID_LEN ∧ route sv k = ToConnection k) ∧
  (∀ i t, rt_tasks (sv_rt sv) !! i = Some t → t_sender t = true →
     length (t_conn_id t) = LOCAL_CONN_ID_LEN ∧ (0 ≤ t_flow_id t < 2 ^ 60)%Z).
Proof.
  intros H. pose proof (reachable_sized linux Allowed sv H) as Hs.
  apply reachable_anything in H as [Hr Ho Hk Hf Ha].
  assert (∀ k, is_Some (sv_clients sv !! k) → length k = LOCAL_CONN_ID_LEN ∧ route sv k = ToConnection k) as Hl.
  { intros k Hc. split; [by apply Hs|]. unfold route, scid_try_from.
    rewrite (Hs k Hc), Nat.eqb_refl. cbn. by rewrite bool_decide_true. }
  split_and!.
  - intros k c Hc. destruct (Hl k) as [H1 H2]; [eauto|]. split_and!; [done..|]. intros fid f Hfid.
    specialize (Hf k). rewrite (flows_of_Some _ _ _ Hc) in Hf. apply Hf in Hfid.
    split; [lia|]. unfold wrap. rewrite Z.mod_small; lia.
  - intros d k Hd. apply Hl. by eapply Hr.
  - intros i t Ht Hse. destruct (owned_flow _ _ _ (Ho (t_conn_id t)) i t Ht eq_refl Hse) as (f & Hfl & _).
    split; [|by apply (Hf (t_conn_id t)) in Hfl]. apply Hs. unfold flows_of in Hfl.
    by destruct (sv_clients sv !! t_conn_id t); [eauto|rewrite lookup_empty in Hfl].
Qed.
End Typed.

Lemma ids_well_typed_witness :
  ∃ c, sv_clients sample_sv1 !! replicate 16 (z2b 7) = Some c ∧
    route sample_sv1 (replicate 16 (z2b 7)) = ToConnection (replicate 16 (z2b 7)).
Proof.
  assert (is_Some (sv_clients sample_sv1 !! replicate 16 (z2b 7))) as [c H]
    by (apply (bool_decide_unpack _); vm_compute; exact I).
  exists c. split; [exact H|].
  exact (proj1 (proj2 (proj1 (ids_well_typed (QS := LoopStreams) (HI := HashIterStd) true sample_allowed
    sample_sv1 sample_reachable) (replicate 16 (z2b 7)) c H))).
Defined.

(** The sample packet connects a client and opens flow 0 with an idle timeout of 35
    seconds. *)
Lemma server_refines_table_witness :
  ∃ ls, trace table_step ls (abs sample_sv0) (abs sample_sv1) ∧ Forall (permits (ByPacket 1000 (replicate 16 (z2b 7)))) ls ∧
    tb_conns (abs sample_sv1) !! replicate 16 (z2b 7) = Some {[ 0%Z := mkAFlow 1000 (Some (from_secs 35)) ]}.
Proof.
  destruct (proj1 (server_refines_table (Q := LoopQuiche) (QV := LoopServer) (U := LoopUdp)
    (SA := LoopSockets) (M := LoopMpsc) (HI := HashIterStd) true (ByPacket 1000 (replicate 16 (z2b 7))) sample_sv0 sample_sv1
    (handles_packet true 9 1000 (replicate 16 (z2b 7)) (sample_pkt (z2b 7)) (SockV4 5 5) sample_sv0
      sample_sv1 sample_step))) as (ls & H1 & H2).
  exists ls. split_and!; [exact H1|exact H2|vm_compute; reflexivity].
Defined.
