(* ===== verification/Timing.v ===== *)
(** * When the loops wake up (src/util.rs, src/server.rs, src/client.rs)

    The arms of a [select!] are futures that complete at an instant or never; the
    [select!] takes an arm that completes first, and which one when several do is left
    open.  On top of it: the turns of the server's main loop in time, what they do to
    idle flows, and the deadlines that both loops keep. *)

From S2P Require Import Prelude.
From S2P Require Import Net.
From S2P Require Import Rules.
From S2P Require Import Quiche.
From S2P Require Import Loopback.
From S2P Require Import Io.
From S2P Require Import Sockets.
From S2P Require Import Client.
From S2P Require Import Server.
From S2P Require Import ServerInv.
From S2P Require Import ServerRuns.
From S2P Require Import ServerProps.
From S2P Require Import Refine.

Definition FLOW_SWEEP_INTERVAL : Z := from_secs 1.

(** The instant at which [sleep_opt(timeout)] completes when it starts at [start]. *)
Definition sleep_opt (start : Z) (timeout : option Z) : option Z :=
  match timeout with
  | Some d => Some (start + d)%Z
  | None => None
  end.

(** ** Selecting *)

Section Select.
Context {A : Type}.

(** [a] completes at [t], and no other arm before. *)
Definition selects (arms : list (A * option Z)) (a : A) (t : Z) : Prop :=
  (a, Some t) ∈ arms ∧ ∀ b t', (b, Some t') ∈ arms → (t ≤ t')%Z.

Lemma selects_here c w (arms : list (A * option Z)) :
  (∀ b u, (b, Some u) ∈ arms → (w ≤ u)%Z) → selects ((c, Some w) :: arms) c w.
Proof.
  intros H. split; [by left|]. intros d v [[= _ ->]|Hd]%elem_of_cons; [lia|eauto].
Qed.

Lemma selects_later c o (arms : list (A * option Z)) b u :
  selects arms b u → (∀ w, o = Some w → (u ≤ w)%Z) → selects ((c, o) :: arms) b u.
Proof.
  intros [Hb Hmin] Ho. split; [by right|]. intros d v [[= _ <-]|Hd]%elem_of_cons; eauto.
Qed.

Lemma selects_some (arms : list (A * option Z)) :
  (∀ b u, (b, Some u) ∉ arms) ∨ ∃ b u, selects arms b u.
Proof.
  induction arms as [|[c [w|]] arms [Hn|(b & u & Hs)]].
  - left. intros b u. apply not_elem_of_nil.
  - right. exists c, w. apply selects_here. by intros b u ?%Hn.
  - right. destruct (decide (u ≤ w)%Z) as [Hw|Hw].
    + exists b, u. apply selects_later; [done|]. by intros ? [= <-].
    + exists c, w. apply selects_here. intros d v Hd%(proj2 Hs). lia.
  - left. intros b u [[= ]|H]%elem_of_cons. by apply Hn in H.
  - right. exists b, u. by apply selects_later.
Qed.

(** Some arm is taken, by the time of any arm that completes at all. *)
Lemma selects_by (arms : list (A * option Z)) a t :
  (a, Some t) ∈ arms → ∃ b u, selects arms b u ∧ (u ≤ t)%Z.
Proof.
  intros Ha. destruct (selects_some arms) as [Hn|(b & u & Hs)]; [by apply Hn in Ha|].
  exists b, u. split; [done|]. by apply (proj2 Hs) in Ha.
Qed.

(** An arm before which all others lie strictly is the one taken. *)
Lemma selects_only arms (a b : A) t u :
  (a, Some t) ∈ arms → (∀ c v, (c, Some v) ∈ arms → c = a ∨ (t < v)%Z) →
  selects arms b u → b = a.
Proof.
  intros Ha Hall [Hb Hmin]. apply Hmin in Ha. apply Hall in Hb as [->|Hb]; [done|lia].
Qed.
End Select.

(** ** The server's turns *)

Inductive server_arm := OnPackets | OnTarget | OnTimeout | OnSweep.

Section ServerTurns.
Context {Conn H3 H3Config Config Sock Os : Type} {Chan : Type → Type}.
Context `{Q : Quiche Conn H3 H3Config} `{QV : QuicheServer Conn Config}.
Context `{U : UdpSys Sock} `{SA : SocketApi Sock Os} `{M : Mpsc Chan} `{HI : HashIter}.
Context (linux : bool).
Local Abbreviation Server := (Server Conn H3 H3Config Config Sock Os Chan).
Implicit Types (sv : Server).

(** The arms of the [select!] of [Server::run] in a turn that starts at [start];
    [packet] and [reply] are when the two channels have something to give. *)
Definition server_arms (start : Z) (packet reply : option Z) sv : list (server_arm * option Z) :=
  [(OnPackets, packet); (OnTarget, reply);
   (OnTimeout, sleep_opt start (min_timeout sv));
   (OnSweep, sleep_opt start (Some FLOW_SWEEP_INTERVAL))].

Lemma elem_of_server_arms start packet reply sv n o :
  (n, o) ∈ server_arms start packet reply sv ↔
  o = match n with
      | OnPackets => packet
      | OnTarget => reply
      | OnTimeout => sleep_opt start (min_timeout sv)
      | OnSweep => sleep_opt start (Some FLOW_SWEEP_INTERVAL)
      end.
Proof.
  unfold server_arms. rewrite !elem_of_cons. split.
  - intros [[= -> ->]|[[= -> ->]|[[= -> ->]|[[= -> ->]|[]%not_elem_of_nil]]]]; done.
  - intros ->. destruct n; auto.
Qed.

(** The handler of an arm, woken at [t]: clocks are read afterwards. *)
Definition arm_at (t : Z) (n : server_arm) (a : arm) : Prop :=
  match n, a with
  | OnPackets, ArmPackets first burst =>
      Forall (λ p, t ≤ ar_now p ∧ length (ar_rnd p) = LOCAL_CONN_ID_LEN)%Z (option_list first ++ burst)
  | OnTarget, ArmTarget now => (t ≤ now)%Z
  | OnTimeout, ArmTimeout => True
  | OnSweep, ArmSweep now => (t ≤ now)%Z
  | _, _ => False
  end.

Record Turn := mkTurn {
  tu_start : Z;
  tu_packet : option Z;
  tu_reply : option Z;
  tu_arm : arm;
}.

(** A turn of the loop that goes on. *)
Definition turn_ok (u : Turn) sv sv' : Prop :=
  ∃ n t fuel, selects (server_arms (tu_start u) (tu_packet u) (tu_reply u) sv) n t ∧
    arm_at t n (tu_arm u) ∧ run_turn linux fuel (tu_arm u) sv = Some (Returns (inl sv')).

(** Between turns, target tasks run, configurations are reloaded and the receive task
    uses the socket. *)
Inductive between sv : Server → Prop :=
| between_none : between sv sv
| between_task fuel i w sv1 sv' : run_task fuel i w sv = Some sv1 → between sv1 sv' → between sv sv'
| between_reload config rules sv' : between (set_server_config config rules sv) sv' → between sv sv'
| between_recv s sv' : between (set_socket sv s) sv' → between sv sv'.

Inductive turns : list Turn → Server → Server → Prop :=
| turns_nil sv : turns [] sv sv
| turns_cons u us sv1 sv2 sv3 sv4 :
    turn_ok u sv1 sv2 → between sv2 sv3 → turns us sv3 sv4 → turns (u :: us) sv1 sv4.

(** The [select!] always wakes up: at the latest when the interval is over, and at the
    latest when the first connection timer is due. *)
Lemma turn_wakes (start : Z) (packet reply : option Z) sv :
  ∃ n t, selects (server_arms start packet reply sv) n t ∧ (t ≤ start + FLOW_SWEEP_INTERVAL)%Z ∧
    (∀ d, min_timeout sv = Some d → t ≤ start + d)%Z.
Proof.
  destruct (selects_by (server_arms start packet reply sv) OnSweep (start + FLOW_SWEEP_INTERVAL))
    as (n & t & Hs & Ht); [by apply elem_of_server_arms|].
  exists n, t. split_and!; [done..|]. intros d Hd.
  apply (proj2 Hs OnTimeout), elem_of_server_arms. by rewrite Hd.
Qed.

Definition not_expiry (l : label) : Prop :=
  match l with OnFlow _ (FExpire _ _) => False | _ => True end.

Lemma permits_not_expiry K l : (∀ now, K ≠ BySweep now) → permits K l → not_expiry l.
Proof.
  intros HK. destruct l as [| |k fl|]; [done|done| |done]. destruct fl; [done..|].
  destruct K; cbn; try done. by edestruct HK.
Qed.

Lemma handles_not_expiry K sv sv' :
  (∀ now, K ≠ BySweep now) → handles linux K sv sv' → via table_step not_expiry (abs sv) (abs sv').
Proof.
  intros HK H%handles_via. eapply via_impl; [|exact H]. intros l. by apply permits_not_expiry.
Qed.

Lemma on_packets_via fuel l sv sv' :
  on_packets linux fuel l sv = Some (Returns sv') → via table_step not_expiry (abs sv) (abs sv').
Proof.
  unfold on_packets. revert sv. induction l as [|a l IH]; intros sv; cbn [fold_left].
  - intros [= <-]. apply via_refl.
  - destruct (on_packet _ _ _ _ _ _ _) as [[sv1|]|] eqn:E.
    + intros H%IH. eapply via_trans; [|exact H].
      by eapply handles_not_expiry; [|by eapply handles_packet].
    + intros H. exfalso. clear -H. by induction l.
    + intros H. exfalso. clear -H. by induction l.
Qed.

Lemma run_turn_via fuel a sv sv' :
  (∀ now, a ≠ ArmSweep now) → run_turn linux fuel a sv = Some (Returns (inl sv')) →
  via table_step not_expiry (abs sv) (abs sv').
Proof.
  intros Ha.
  assert (∀ s, (λ s, Returns (inl (reap_closed s)) : panics (Server + Server)) <$> flush_all linux fuel s =
    Some (Returns (inl sv')) → via table_step not_expiry (abs s) (abs sv')) as Hfin.
  { intros s (s' & Hf & [= ->])%fmap_Some. apply flush_all_abs in Hf. rewrite <- Hf.
    by eapply handles_not_expiry; [|apply handles_reap]. }
  unfold run_turn. destruct a as [[first|] burst|now| |now]; [|done|..].
  - destruct (on_packets _ _ _ _) as [[s|]|] eqn:E; [|done..]. intros H%Hfin.
    eapply via_trans; [by eapply on_packets_via|exact H].
  - intros (s & Hd & H%Hfin)%bind_Some. eapply via_trans; [|exact H].
    by eapply handles_not_expiry; [|by eapply handles_targets].
  - intros H%Hfin. by rewrite on_timeouts_abs in H.
  - by destruct (Ha now).
Qed.

Lemma between_via sv sv' : between sv sv' → via table_step not_expiry (abs sv) (abs sv').
Proof.
  induction 1 as [sv|sv fuel i w sv1 sv' H _ IH|sv config t sv' _ IH|sv s sv' _ IH]; [apply via_refl|..|exact IH].
  - apply run_task_abs in H. by rewrite <- H.
  - eapply via_trans; [|exact IH]. by eapply handles_not_expiry; [|apply (handles_reload _ config t)].
Qed.

(** Something to read before the interval of the turn is over. *)
Definition busy (u : Turn) : Prop :=
  ∃ t, (tu_packet u = Some t ∨ tu_reply u = Some t) ∧ (t < tu_start u + FLOW_SWEEP_INTERVAL)%Z.

Lemma busy_no_sweep u sv sv' now : busy u → turn_ok u sv sv' → tu_arm u ≠ ArmSweep now.
Proof.
  intros (t & Hp & Ht) (n & t' & fuel & Hs & Ha & _) E. rewrite E in Ha.
  destruct n; try done. destruct Hs as [Hin Hmin].
  assert ((t' ≤ t)%Z) as Hle.
  { destruct Hp as [Hp|Hp]; [apply (Hmin OnPackets)|apply (Hmin OnTarget)];
      by apply elem_of_server_arms. }
  apply elem_of_server_arms in Hin. cbn in Hin. injection Hin as Hin. lia.
Qed.

(** As long as in every turn of the main loop a packet (of any client, or none) or a
    reply comes before the sweep interval is over, nothing is ever swept: the interval
    starts anew with every turn.  Whatever else happens in such a run, no flow expires,
    however long it has been idle. *)
Theorem sweep_starved (us : list Turn) sv sv' :
  turns us sv sv' → Forall busy us →
  via table_step not_expiry (abs sv) (abs sv').
Proof.
  induction 1 as [|u us sv1 sv2 sv3 sv4 Hu Hb _ IH]; [intros; apply via_refl|].
  intros [Hbu Hbus]%Forall_cons. pose proof (λ now, busy_no_sweep _ _ _ now Hbu Hu) as Hn.
  destruct Hu as (n & t & fuel & _ & _ & Hr).
  eapply via_trans; [by eapply run_turn_via|]. eapply via_trans; [by apply between_via|]. by apply IH.
Qed.
End ServerTurns.

(** ** Quiet turns *)

Section Quiet.
Context {Conn H3 H3Config Config Sock Os : Type} {Chan : Type → Type}.
Context `{Q : Quiche Conn H3 H3Config} {QD : QuicheDrains Q} {QSe : QuicheSends Q}.
Context `{QV : QuicheServer Conn Config}.
Context {U : UdpSys Sock} {UP : UdpProgress U} `{SA : SocketApi Sock Os}.
Context `{ML : MpscLaws Chan} `{HI : HashIter}.
Context (linux : bool).
Local Abbreviation Server := (Server Conn H3 H3Config Config Sock Os Chan).
Implicit Types (sv : Server).

Definition af_expired (now : Z) (f : AFlow) : bool :=
  match af_timeout f with
  | Some d => (d <=? Z.max 0 (now - af_active f))%Z
  | None => false
  end.

Lemma abs_flows_swept now (F : gmap Z Flow) :
  abs_flows (filter (λ q, q.1 ∉ expired now F) F) =
  filter (λ p, af_expired now p.2 = false) (abs_flows F).
Proof.
  unfold abs_flows. apply map_eq. intros i. apply option_eq. intros a.
  rewrite map_lookup_filter_Some, !lookup_fmap, !fmap_Some.
  setoid_rewrite map_lookup_filter_Some. cbn [fst snd]. setoid_rewrite elem_of_expired. split.
  - intros (f & [Hf Hn] & ->). split; [eauto|].
    change (idle_expired now f = false). destruct (idle_expired now f) eqn:E; [|done]. exfalso; eauto.
  - intros [(f & Hf & ->) He]. exists f. split_and!; [done| |done].
    intros (f' & Hf' & He'). change (idle_expired now f = false) in He. congruence.
Qed.

Lemma sweep_abs now sv k F' :
  tb_conns (abs (sweep_idle_flows now sv)) !! k = Some F' →
  ∃ F, tb_conns (abs sv) !! k = Some F ∧ F' = filter (λ p, af_expired now p.2 = false) F.
Proof.
  cbn. rewrite !lookup_fmap, sweep_lookup. destruct (sv_clients sv !! k) as [c|]; [|done].
  intros [= <-]. eexists. split; [reflexivity|]. apply abs_flows_swept.
Qed.

(** C27: In a quiet turn, one in which neither a packet nor a reply nor a connection timer
    comes within the sweep interval, the server wakes up when the interval is over and
    sweeps: the turn ends, and the flows of the connections that are left are exactly
    those that have not been idle for their timeout. *)
Theorem quiet_turn_sweeps (start : Z) (packet reply : option Z) sv :
  (∀ t, packet = Some t ∨ reply = Some t → start + FLOW_SWEEP_INTERVAL < t)%Z →
  (∀ d, min_timeout sv = Some d → FLOW_SWEEP_INTERVAL < d)%Z →
  (∃ n t, selects (server_arms start packet reply sv) n t) ∧
  ∀ n t a, selects (server_arms start packet reply sv) n t → arm_at t n a →
    t = (start + FLOW_SWEEP_INTERVAL)%Z ∧
    ∃ now fuel0 sv', a = ArmSweep now ∧ (t ≤ now)%Z ∧
      (∀ fuel, fuel0 ≤ fuel → run_turn linux fuel a sv = Some (Returns (inl sv'))) ∧
      ∀ k F', tb_conns (abs sv') !! k = Some F' →
        ∃ F, tb_conns (abs sv) !! k = Some F ∧ F' = filter (λ p, af_expired now p.2 = false) F.
Proof.
  intros Hq Hd. split.
  { destruct (turn_wakes start packet reply sv) as (n & t & Hs & _). eauto. }
  intros n t a Hs Ha. assert (n = OnSweep) as ->.
  { eapply selects_only; [|..|exact Hs]; [by apply elem_of_server_arms|].
    intros c v Hin%elem_of_server_arms. destruct c; [right..|by left].
    - apply Hq. by left.
    - apply Hq. by right.
    - unfold sleep_opt in Hin. destruct (min_timeout sv) as [d|] eqn:E; [|done].
      injection Hin as Hin. specialize (Hd d eq_refl). lia. }
  destruct a as [| | |now]; try done. destruct Hs as [Hin%elem_of_server_arms _].
  cbn in Hin. injection Hin as Hin. split; [done|].
  destruct (run_turn_settles linux (ArmSweep now) sv) as (f & r & Hf).
  pose proof (Hf f (le_n f)) as Hrun. cbn [run_turn] in Hrun.
  apply fmap_Some in Hrun as (s & Hfl & ->).
  exists now, f, (reap_closed s). split_and!; [done..|]. intros k F' HF.
  apply flush_all_abs in Hfl. apply (sweep_abs now). rewrite <- Hfl. revert HF. cbn.
  rewrite !lookup_fmap, (proj1 (reap_closed_exact s)). destruct (sv_clients s !! k) as [c|]; [|done].
  cbn. by destruct (is_closed _).
Qed.
End Quiet.

(** ** Runs *)

Local Abbreviation LServer := (Server lconn Z unit lconn lsock (list SocketAddr) lchan).

(** Every half second a datagram that is not a QUIC packet, long after flow 0 of the
    sample has been idle for its 35 seconds. *)
Definition junk_arm (start : Z) : arm :=
  ArmPackets (Some (mkArrival [] (SockV4 9 9) (start + from_millis 500) (replicate 16 (z2b 0)))) [].

Definition junk_turn (start : Z) : Turn :=
  mkTurn start (Some (start + from_millis 500)%Z) None (junk_arm start).

Local Abbreviation lrun_turn :=
  (run_turn (Q := LoopQuiche) (QV := LoopServer) (U := LoopUdp) (SA := LoopSockets) (M := LoopMpsc)
    (HI := HashIterStd) true 9).
Local Abbreviation lturns :=
  (turns (Q := LoopQuiche) (QV := LoopServer) (U := LoopUdp) (SA := LoopSockets) (M := LoopMpsc)
    (HI := HashIterStd) true).

Definition after_junk (start : Z) (sv : LServer) : LServer :=
  match lrun_turn (junk_arm start) sv with Some (Returns (inl sv)) => sv | _ => sv end.

Definition returns_on (start : Z) (sv : LServer) : bool :=
  match lrun_turn (junk_arm start) sv with Some (Returns (inl _)) => true | _ => false end.

Lemma loop_min_timeout (sv : LServer) : min_timeout (Q := LoopQuiche) (HI := HashIterStd) sv = None.
Proof.
  unfold min_timeout. cbn [timeout LoopQuiche].
  assert (∀ l : list (Scid * Server.Client lconn Z), omap (λ _, @None Z) l = []) as H
    by (intros l; by induction l).
  by rewrite H.
Qed.

Lemma junk_turns start us sv sv' :
  returns_on start sv = true → lturns us (after_junk start sv) sv' → lturns (junk_turn start :: us) sv sv'.
Proof.
  intros Hr Hus. eapply turns_cons; [|apply between_none|exact Hus].
  exists OnPackets, (start + from_millis 500)%Z, 9. split_and!.
  - split; [by apply elem_of_server_arms|]. intros b t Hb%elem_of_server_arms. revert Hb.
    rewrite loop_min_timeout. unfold junk_turn, FLOW_SWEEP_INTERVAL, from_secs, from_millis.
    destruct b; cbn; intros [= ->]; lia.
  - repeat constructor. cbn. lia.
  - unfold returns_on in Hr. unfold after_junk. cbn [tu_arm junk_turn].
    by destruct (lrun_turn (junk_arm start) sv) as [[[s|s]|]|].
Qed.

Definition junk_starts : list Z := [from_secs 100; from_millis 100500; from_secs 101].

(** The idle flow is still there. *)
Lemma sweep_starved_witness :
  ∃ sv' F f, lturns (junk_turn <$> junk_starts) sample_sv1 sv' ∧
    via table_step not_expiry (abs sample_sv1) (abs sv') ∧
    tb_conns (abs sv') !! replicate 16 (z2b 7) = Some F ∧ F !! 0%Z = Some f ∧
    af_expired (from_secs 101) f = true.
Proof.
  exists (fold_left (λ sv start, after_junk start sv) junk_starts sample_sv1),
    {[ 0%Z := mkAFlow 1000 (Some (from_secs 35)) ]}, (mkAFlow 1000 (Some (from_secs 35))).
  assert (lturns (junk_turn <$> junk_starts) sample_sv1
    (fold_left (λ sv start, after_junk start sv) junk_starts sample_sv1)) as Hrun.
  { repeat (apply junk_turns; [vm_compute; reflexivity|]). apply turns_nil. }
  split_and!; [exact Hrun| |vm_compute; reflexivity..].
  apply (sweep_starved (Q := LoopQuiche) (QV := LoopServer) (U := LoopUdp) (SA := LoopSockets)
    (M := LoopMpsc) (HI := HashIterStd) true _ _ _ Hrun).
  repeat constructor; eexists; (split; [left; reflexivity|]); vm_compute; reflexivity.
Defined.

(** With nothing to read, the same flow is gone a second later. *)
Lemma quiet_turn_sweeps_witness :
  ∃ fuel sv', run_turn (Q := LoopQuiche) (QV := LoopServer) (U := LoopUdp) (SA := LoopSockets) (M := LoopMpsc)
      (HI := HashIterStd) true fuel (ArmSweep (from_secs 102)) sample_sv1 = Some (Returns (inl sv')) ∧
    ∀ F, tb_conns (abs sv') !! replicate 16 (z2b 7) = Some F → F = ∅.
Proof.
  destruct (proj2 (quiet_turn_sweeps (Q := LoopQuiche) (QD := LoopDrains)
    (QSe := LoopSends) (QV := LoopServer) (UP := LoopUdpProgress) (SA := LoopSockets) (ML := LoopMpscLaws) (HI := HashIterStd)
    true (from_secs 100) None None sample_sv1 ltac:(intros t [H|H]; discriminate H)
    ltac:(rewrite loop_min_timeout; intros d H; discriminate H)) OnSweep (from_secs 101)
    (ArmSweep (from_secs 102))) as (_ & now & f & sv' & Hn & _ & Hr & HF).
  - split; [by apply elem_of_server_arms|]. intros b t Hb%elem_of_server_arms. revert Hb.
    rewrite loop_min_timeout. destruct b; cbn; intros [= ->]; vm_compute; discriminate.
  - vm_compute. discriminate.
  - exists f, sv'. split; [exact (Hr f (le_n f))|]. injection Hn as <-. intros F HF'.
    destruct (HF _ _ HF') as (F0 & H0 & ->).
    assert (tb_conns (abs sample_sv1) !! replicate 16 (z2b 7) =
      Some {[ 0%Z := mkAFlow 1000 (Some (from_secs 35)) ]}) as H1 by (vm_compute; reflexivity).
    rewrite H1 in H0. injection H0 as <-. vm_compute. reflexivity.
Defined.
