(* ===== verification/Proxy.v ===== *)
(** * The reconnecting client (src/client.rs, [run_proxy])

    The whole client: the local socket with its receive task, which live as long as the
    process, the sessions that come and go with their own receive tasks, and the pauses
    between them.  The [select!] of a session and the draining of the two channels are
    written out here; the rest of a turn is [session_turn] of Client.v. *)

From S2P Require Import Prelude.
From S2P Require Import Net.
From S2P Require Import Endpoint.
From S2P Require Import Quiche.
From S2P Require Import Loopback.
From S2P Require Import Io.
From S2P Require Import Sockets.
From S2P Require Import EchKey.
From S2P Require Import Tls.
From S2P Require Import Client.
From S2P Require Import ClientProps.
From S2P Require Import Timing.

(** ** The turn of a session up to the draining of the channels *)

(** The arm of [select!] that is taken. *)
Inductive session_arm := QuicNext | LocalNext | TimerDue | KeepaliveDue.

Section Select.
Context {Chan : Type → Type} `{M : Mpsc Chan}.
Local Abbreviation Rx := (Chan (bytes * SocketAddr)%type).

(** [while let Ok(p) = rx.try_recv() { pkts.push(p) }]. *)
Definition drain (fuel : nat) (pkts : list (bytes * SocketAddr)) (rx : Rx) :
    option (list (bytes * SocketAddr) * Rx) :=
  loop fuel (λ s : list (bytes * SocketAddr) * Rx,
    match try_recv s.2 with
    | (Some p, rx) => inl (s.1 ++ [p], rx)
    | (None, rx) => inr (s.1, rx)
    end) (pkts, rx).

Definition drain_both (fuel : nat) (proxy_pkts local_pkts : list (bytes * SocketAddr))
    (do_timeout do_keepalive : bool) (qpkt_rx lrx : Rx) : option (Wakeup * Rx * Rx) :=
  match drain fuel proxy_pkts qpkt_rx with
  | None => None
  | Some (proxy_pkts, qpkt_rx) =>
      match drain fuel local_pkts lrx with
      | None => None
      | Some (local_pkts, lrx) =>
          Some (mkWakeup proxy_pkts local_pkts do_timeout do_keepalive false, qpkt_rx, lrx)
      end
  end.

(** [Some None] when the arm is not ready: a channel is ready when it holds something or
    its sender, the receive task, is gone. *)
Definition select_wakeup (fuel : nat) (a : session_arm) (qtask ltask : bool)
    (timeout : option Z) (qpkt_rx lrx : Rx) : option (option (Wakeup * Rx * Rx)) :=
  match a with
  | QuicNext =>
      match try_recv qpkt_rx with
      | (Some p, qpkt_rx) => Some <$> drain_both fuel [p] [] false false qpkt_rx lrx
      | (None, qpkt_rx) =>
          Some (if qtask then None else Some (mkWakeup [] [] false false true, qpkt_rx, lrx))
      end
  | LocalNext =>
      match try_recv lrx with
      | (Some p, lrx) => Some <$> drain_both fuel [] [p] false false qpkt_rx lrx
      | (None, lrx) =>
          if ltask then Some None else Some <$> drain_both fuel [] [] false false qpkt_rx lrx
      end
  | TimerDue =>
      match timeout with
      | Some _ => Some <$> drain_both fuel [] [] true false qpkt_rx lrx
      | None => Some None
      end
  | KeepaliveDue => Some <$> drain_both fuel [] [] false true qpkt_rx lrx
  end.

(** When the arms complete, in a turn that starts at [start]. *)
Definition session_arms (start : Z) (quic local timeout : option Z) : list (session_arm * option Z) :=
  [(QuicNext, quic); (LocalNext, local); (TimerDue, sleep_opt start timeout);
   (KeepaliveDue, sleep_opt start (Some KEEPALIVE))].
End Select.

(** ** The process *)

Record ProxyOptions := mkProxyOptions { po_conn : ConnectParams; po_listen : SocketAddr }.

(** What a dial finds outside of the program. *)
Record DialEnv (Sock IoError H3Config E : Type) := mkDialEnv {
  en_scid : bytes;
  en_resolve : bytes → result IoError (list SocketAddr);
  en_accepts : list call → call → bool;
  en_exists : Path → bool;
  en_local_addr : Sock → result io_error SocketAddr;
  en_h3_new : result E H3Config;
}.
Arguments mkDialEnv {Sock IoError H3Config E}.
Arguments en_scid {Sock IoError H3Config E}.
Arguments en_resolve {Sock IoError H3Config E}.
Arguments en_accepts {Sock IoError H3Config E}.
Arguments en_exists {Sock IoError H3Config E}.
Arguments en_local_addr {Sock IoError H3Config E}.
Arguments en_h3_new {Sock IoError H3Config E}.

Section Proxy.
Context {Conn H3 H3Config Sock Os IoError E : Type} {Chan : Type → Type}.
Context `{Q : Quiche Conn H3 H3Config} {QC : QuicheClient Conn Config}.
Context `{U : UdpSys Sock} `{SA : SocketApi Sock Os} `{M : Mpsc Chan} `{HI : HashIter}.
Context (linux : bool) (enable_extended_connect : H3Config → bool → H3Config).
Context (opts : ProxyOptions).
Local Abbreviation Rx := (Chan (bytes * SocketAddr)%type).
Local Abbreviation Session := (Client.Session (Conn := Conn) (H3 := H3) (Sock := Sock)).
Local Abbreviation DialEnv := (DialEnv Sock IoError H3Config E).

(** Where [run_proxy] is: at the start of [run_session], in its loop (with the HTTP/3
    configuration, the channel of the QUIC receive task and whether that task runs),
    or in [sleep(backoff)]. *)
Inductive phase :=
| Dialing
| Running (h3_config : H3Config) (s : Session) (qpkt_rx : Rx) (qtask : bool)
| Sleeping (d : Z).

Record Proxy := mkProxy {
  px_lsock : Sock;
  px_lrx : Rx;
  px_ltask : bool;
  px_os : Os;
  px_backoff : Z;
  px_phase : phase;
}.

(** [run_proxy] up to its loop. *)
Definition run_proxy (os : Os) : result BindError Proxy * Os :=
  match bind_udp linux os (po_listen opts) with
  | (Err e, os) => (Err e, os)
  | (Ok lsock, os) =>
      (Ok (mkProxy (enlarge_udp_buffers lsock) (channel CHANNEL_CAP) true os RECONNECT_MIN Dialing), os)
  end.

(** The session has returned [established]. *)
Definition session_ended (established : bool) (lsock : Sock) (lrx : Rx) (px : Proxy) : Proxy :=
  let '(d, backoff) := reconnect established (px_backoff px) in
  mkProxy lsock lrx (px_ltask px) (px_os px) backoff (Sleeping d).

(** [run_session] up to its loop: the receive task is started after the initial flush. *)
Definition start_session (fuel : nat) (env : DialEnv) (px : Proxy) : option Proxy :=
  let '(dialed, os) := dial linux (en_resolve env) (en_accepts env) (en_exists env)
    (en_local_addr env) (po_conn opts) (en_scid env) (px_os px) in
  let px := mkProxy (px_lsock px) (px_lrx px) (px_ltask px) os (px_backoff px) (px_phase px) in
  match dialed with
  | Err _ => Some (session_ended false (px_lsock px) (px_lrx px) px)
  | Ok d =>
      match build_h3_config (en_h3_new env) enable_extended_connect with
      | Err _ => Some (session_ended false (px_lsock px) (px_lrx px) px)
      | Ok h3_config =>
          match session_start linux fuel d (px_lsock px) with
          | None => None
          | Some (inr established) => Some (session_ended established (px_lsock px) (px_lrx px) px)
          | Some (inl s) =>
              Some (mkProxy (px_lsock px) (px_lrx px) (px_ltask px) (px_os px) (px_backoff px)
                      (Running h3_config s (channel CHANNEL_CAP) true))
          end
      end
  end.

(** One turn of the loop of [run_session]. *)
Definition session_wakes (fuel : nat) (a : session_arm) (h3_config : H3Config) (s : Session)
    (qpkt_rx : Rx) (qtask : bool) (px : Proxy) : option (panics Proxy) :=
  match select_wakeup fuel a qtask (px_ltask px) (timeout (tn_conn (se_tunnel s))) qpkt_rx (px_lrx px) with
  | None => None
  | Some None => Some (Returns px)
  | Some (Some (w, qpkt_rx, lrx)) =>
      match session_turn linux fuel h3_config w (set_sockets s (se_qsock s) (px_lsock px)) with
      | None => None
      | Some Panics => Some Panics
      | Some (Returns (inl s)) =>
          Some (Returns (mkProxy (se_lsock s) lrx (px_ltask px) (px_os px) (px_backoff px)
                           (Running h3_config s qpkt_rx qtask)))
      | Some (Returns (inr s)) => Some (Returns (session_ended (se_established s) (se_lsock s) lrx px))
      end
  end.

(** What can happen next. *)
Inductive event :=
| LocalRecv (w : wake)
| QuicRecv (w : wake)
| Wake (a : session_arm)
| Dial (env : DialEnv)
| Slept.

(** An event that does not fit the phase changes nothing. *)
Definition px_step (fuel : nat) (ev : event) (px : Proxy) : option (panics Proxy) :=
  match ev, px_phase px with
  | LocalRecv w, _ =>
      if px_ltask px then
        let '(running, (lsock, lrx)) := spawn_udp_recv linux RECV_BUF w (px_lsock px, px_lrx px) in
        Some (Returns (mkProxy lsock lrx running (px_os px) (px_backoff px) (px_phase px)))
      else Some (Returns px)
  | QuicRecv w, Running h3_config s qpkt_rx true =>
      let '(running, (qsock, qpkt_rx)) :=
        spawn_udp_recv linux MAX_DATAGRAM_SIZE w (se_qsock s, qpkt_rx) in
      Some (Returns (mkProxy (px_lsock px) (px_lrx px) (px_ltask px) (px_os px) (px_backoff px)
        (Running h3_config (set_sockets s qsock (se_lsock s)) qpkt_rx running)))
  | Wake a, Running h3_config s qpkt_rx qtask => session_wakes fuel a h3_config s qpkt_rx qtask px
  | Dial env, Dialing => Returns <$> start_session fuel env px
  | Slept, Sleeping _ =>
      Some (Returns (mkProxy (px_lsock px) (px_lrx px) (px_ltask px) (px_os px) (px_backoff px) Dialing))
  | _, _ => Some (Returns px)
  end.

Fixpoint px_run (fuel : nat) (evs : list event) (px : Proxy) : option (panics Proxy) :=
  match evs with
  | [] => Some (Returns px)
  | ev :: evs =>
      match px_step fuel ev px with
      | Some (Returns px) => px_run fuel evs px
      | r => r
      end
  end.
End Proxy.
