(* ===== verification/ProxyProps.v ===== *)
(** * What the reconnecting client does

    The process of Proxy.v never stops and never panics, keeps its pauses within bounds,
    and hands the datagrams of local applications to its sessions in the order in which
    they came, across reconnects. *)

From S2P Require Import Prelude.
From S2P Require Import Net.
From S2P Require Import Endpoint.
From S2P Require Import Quiche.
From S2P Require Import Loopback.
From S2P Require Import Io.
From S2P Require Import Sockets.
From S2P Require Import Tls.
From S2P Require Import Client.
From S2P Require Import ClientProps.
From S2P Require Import Timing.
From S2P Require Import Proxy.

Section Wakeups.
Context {Chan : Type → Type} `{ML : MpscLaws Chan}.
Local Abbreviation Rx := (Chan (bytes * SocketAddr)%type).
Implicit Types (rx : Rx).

(** Draining takes everything, in order. *)
Lemma drain_all fuel l rx l' rx' :
  drain fuel l rx = Some (l', rx') → l' = l ++ queued rx ∧ queued rx' = [].
Proof.
  unfold drain. intros H.
  eapply (loop_invariant _ (λ s : _ * Rx, s.1 ++ queued s.2 = l ++ queued rx)
    (λ s : _ * Rx, s.1 = l ++ queued rx ∧ queued s.2 = [])) in H; [exact H|..|done].
  - intros s s' Hs. destruct (try_recv s.2) as [[p|] c] eqn:E; [|done]. intros [= <-].
    apply try_recv_queued in E as [E _]. cbn [fst snd]. rewrite <- Hs, E. cbn. by rewrite <- app_assoc.
  - intros s s' Hs. destruct (try_recv s.2) as [[p|] c] eqn:E; [done|]. intros [= <-].
    apply try_recv_queued in E as [E En]. cbn [fst snd]. specialize (En eq_refl).
    rewrite <- Hs, E, En. by rewrite app_nil_r.
Qed.

Lemma drain_settles l rx : settles (λ f, drain f l rx).
Proof.
  unfold drain. set (body := λ s : list (bytes * SocketAddr) * Rx, _).
  destruct (loop_terminates body (λ _, True) (λ s, length (queued s.2)))
    with (S (length (queued rx))) (l, rx) as [r Hr]; [|done|cbn; lia|].
  - intros s s' _. unfold body. destruct (try_recv _) as [[p|] c] eqn:E; [|done].
    apply try_recv_queued in E as [E _]. intros [= <-]. split; [done|]. cbn [snd]. rewrite E. cbn. lia.
  - exists (S (length (queued rx))), r. intros f Hf. by eapply loop_mono.
Qed.

Lemma drain_both_settles lq ll b1 b2 qrx lrx : settles (λ f, drain_both f lq ll b1 b2 qrx lrx).
Proof.
  unfold drain_both. destruct (drain_settles lq qrx) as (f1 & [l1 r1] & H1).
  destruct (drain_settles ll lrx) as (f2 & [l2 r2] & H2).
  exists (max f1 f2). eexists. intros f Hf. by rewrite H1, H2 by lia.
Qed.

Lemma drain_both_all fuel lq ll b1 b2 qrx lrx w qrx' lrx' :
  drain_both fuel lq ll b1 b2 qrx lrx = Some (w, qrx', lrx') →
  w = mkWakeup (lq ++ queued qrx) (ll ++ queued lrx) b1 b2 false ∧ queued qrx' = [] ∧ queued lrx' = [].
Proof.
  unfold drain_both. destruct (drain fuel lq qrx) as [[l1 r1]|] eqn:E1; [|done].
  destruct (drain fuel ll lrx) as [[l2 r2]|] eqn:E2; [|done]. intros [= <- <- <-].
  apply drain_all in E1 as [-> ?]. by apply drain_all in E2 as [-> ?].
Qed.

(** What a turn finds: everything that was queued on both sides, or the end of the QUIC
    receive task. *)
Definition found (qrx lrx : Rx) (w : Wakeup) (qrx' lrx' : Rx) : Prop :=
  if wk_recv_ended w then wk_local_pkts w = [] ∧ queued lrx' = queued lrx ∧ queued qrx = []
  else wk_proxy_pkts w = queued qrx ∧ wk_local_pkts w = queued lrx ∧
       queued qrx' = [] ∧ queued lrx' = [].

Lemma select_wakeup_found fuel a qt lt tm qrx lrx w qrx' lrx' :
  select_wakeup fuel a qt lt tm qrx lrx = Some (Some (w, qrx', lrx')) → found qrx lrx w qrx' lrx'.
Proof.
  assert (∀ lq ll b1 b2 (q l : Rx), queued qrx = lq ++ queued q → queued lrx = ll ++ queued l →
    Some <$> drain_both fuel lq ll b1 b2 q l = Some (Some (w, qrx', lrx')) → found qrx lrx w qrx' lrx') as Hd.
  { intros lq ll b1 b2 q l Hq Hl ([[w0 q0] l0] & H & [= <- <- <-])%fmap_Some.
    apply drain_both_all in H as (-> & ? & ?). unfold found. cbn. by rewrite Hq, Hl. }
  unfold select_wakeup. destruct a.
  - destruct (try_recv qrx) as [[p|] q] eqn:E; apply try_recv_queued in E as [E En]; [by apply Hd|].
    destruct qt; [done|]. intros [= <- <- <-]. unfold found. cbn. by rewrite E, En.
  - destruct (try_recv lrx) as [[p|] l] eqn:E; apply try_recv_queued in E as [E En]; [by apply Hd|].
    destruct lt; [done|]. by apply Hd.
  - destruct tm; [by apply Hd|done].
  - by apply Hd.
Qed.

Lemma select_wakeup_settles a qt lt tm qrx lrx :
  settles (λ f, select_wakeup f a qt lt tm qrx lrx).
Proof.
  assert (∀ lq ll b1 b2 (q l : Rx), settles (λ f, Some <$> drain_both f lq ll b1 b2 q l)) as Hd.
  { intros lq ll b1 b2 q l. destruct (drain_both_settles lq ll b1 b2 q l) as (f & r & H).
    exists f. eexists. intros f' Hf'. by rewrite (H f' Hf'). }
  unfold select_wakeup. destruct a.
  - destruct (try_recv qrx) as [[p|] q]; [apply Hd|apply settles_const].
  - destruct (try_recv lrx) as [[p|] l]; [apply Hd|]. destruct lt; [apply settles_const|apply Hd].
  - destruct tm; [apply Hd|apply settles_const].
  - apply Hd.
Qed.
End Wakeups.

Lemma elem_of_session_arms start quic local tm n o :
  (n, o) ∈ session_arms start quic local tm ↔
  o = match n with
      | QuicNext => quic
      | LocalNext => local
      | TimerDue => sleep_opt start tm
      | KeepaliveDue => sleep_opt start (Some KEEPALIVE)
      end.
Proof.
  unfold session_arms. rewrite !elem_of_cons. split.
  - intros [[= -> ->]|[[= -> ->]|[[= -> ->]|[[= -> ->]|[]%not_elem_of_nil]]]]; done.
  - intros ->. destruct n; auto.
Qed.

(** A session never waits for more than [KEEPALIVE], nor past the connection's timer. *)
Lemma session_arms_wake start quic local tm :
  ∃ a t, selects (session_arms start quic local tm) a t ∧ (t ≤ start + KEEPALIVE)%Z ∧
    ∀ d, tm = Some d → (t ≤ start + d)%Z.
Proof.
  destruct (selects_by (session_arms start quic local tm) KeepaliveDue (start + KEEPALIVE))
    as (a & t & Hs & Ht); [by apply elem_of_session_arms|].
  exists a, t. split_and!; [done..|]. intros d ->. by apply (proj2 Hs TimerDue), elem_of_session_arms.
Qed.

(** ** The process *)

Section Process.
Context {Conn H3 H3Config Sock Os IoError E : Type} {Chan : Type → Type}.
Context `{Q : Quiche Conn H3 H3Config} {QT : QuicheStreams Q} {QD : QuicheDrains Q} {QSe : QuicheSends Q}.
Context {QC : QuicheClient Conn Config}.
Context {U : UdpSys Sock} {UP : UdpProgress U} `{SA : SocketApi Sock Os}.
Context `{ML : MpscLaws Chan} `{HI : HashIter}.
Context (linux : bool) (enable_extended_connect : H3Config → bool → H3Config).
Context (opts : ProxyOptions).
Local Abbreviation Proxy := (Proxy (Conn := Conn) (H3 := H3) (H3Config := H3Config) (Sock := Sock)
  (Os := Os) (Chan := Chan)).
Local Abbreviation event := (event (H3Config := H3Config) (Sock := Sock) (IoError := IoError) (E := E)).
Local Abbreviation px_step := (px_step (IoError := IoError) (E := E) linux enable_extended_connect opts).
Local Abbreviation px_run := (px_run (IoError := IoError) (E := E) linux enable_extended_connect opts).
Local Abbreviation datagrams := (list (bytes * SocketAddr)).
Implicit Types (px : Proxy) (ev : event) (evs : list event).

(** Sessions are in reachable states and pauses within their bounds. *)
Definition px_ok px : Prop :=
  (RECONNECT_MIN ≤ px_backoff px ≤ RECONNECT_MAX)%Z ∧
  match px_phase px with
  | Dialing => True
  | Running _ s _ _ => session_reachable linux s
  | Sleeping d => (RECONNECT_MIN ≤ d ≤ RECONNECT_MAX)%Z
  end.

Lemma session_ended_ok b lsock lrx px : px_ok px → px_ok (session_ended b lsock lrx px).
Proof.
  intros [Hb _]. unfold session_ended, reconnect, px_ok in *. cbn [px_backoff px_phase].
  assert (RECONNECT_MIN = 100000000 ∧ RECONNECT_MAX = 5000000000)%Z as [HL HM] by done.
  rewrite HL, HM in *. destruct b; lia.
Qed.

Lemma start_session_ok fuel (env : DialEnv Sock IoError H3Config E) px px' :
  px_ok px → start_session linux enable_extended_connect opts fuel env px = Some px' →
  px_ok px' ∧ px_phase px' ≠ Dialing.
Proof.
  intros [Hb Hp]. unfold start_session. destruct (dial _ _ _ _ _ _ _ _) as [dialed os].
  set (px1 := mkProxy _ _ _ os _ _). assert (px_ok px1) as H1 by done. clearbody px1.
  assert (∀ b l r, px_ok (session_ended b l r px1) ∧ px_phase (session_ended b l r px1) ≠ Dialing) as He.
  { intros b l r. split; [by apply session_ended_ok|done]. }
  destruct dialed as [d|]; [|intros [= <-]; apply He].
  destruct (build_h3_config _ _) as [h|]; [|intros [= <-]; apply He].
  destruct (session_start _ _ _ _) as [[s|b]|] eqn:Es; [| |done]; intros [= <-]; [|apply He].
  split; [|done]. split; [by destruct H1|]. cbn. by eapply session_begins.
Qed.

Lemma px_step_ok fuel ev px r :
  px_ok px → px_step fuel ev px = Some r → ∃ px', r = Returns px' ∧ px_ok px'.
Proof.
  intros Hok. unfold Proxy.px_step. destruct ev as [w|w|a|env|].
  - destruct (px_ltask px); [|intros [= <-]; by eauto].
    destruct (spawn_udp_recv _ _ _ _) as [b [ls lrx]]. intros [= <-]. eexists. by split.
  - destruct (px_phase px) as [|h s q [|]|d] eqn:Ep; try (intros [= <-]; by eauto).
    destruct (spawn_udp_recv _ _ _ _) as [b [qs q']]. intros [= <-]. eexists. split; [done|].
    destruct Hok as [Hb Hp]. rewrite Ep in Hp. split; [done|]. by apply session_receives.
  - destruct (px_phase px) as [|h s q qt|d] eqn:Ep; try (intros [= <-]; by eauto).
    unfold session_wakes. destruct (select_wakeup _ _ _ _ _ _ _) as [[[[w q'] l']|]|]; [| |done].
    2:{ intros [= <-]. eauto. }
    pose proof Hok as [Hb Hp]. rewrite Ep in Hp.
    pose proof (session_receives linux s (se_qsock s) (px_lsock px) Hp) as Hs.
    destruct (session_turn _ _ _ _ _) as [r'|] eqn:Et; [|done].
    destruct (session_turn_ok _ _ _ _ _ _ (session_reachable_ok _ _ Hs) Et) as (x & -> & _).
    destruct x as [s'|s']; intros [= <-]; eexists; (split; [reflexivity|]); [|by apply session_ended_ok].
    split; [done|]. cbn. by eapply session_goes_on.
  - destruct (px_phase px) eqn:Ep; try (intros [= <-]; by eauto).
    intros (px' & Hs & ->)%fmap_Some. apply start_session_ok in Hs as [Hs _]; [by eauto|done].
  - destruct (px_phase px) eqn:Ep; intros [= <-]; eauto.
    eexists. split; [done|]. destruct Hok as [Hb _]. by split.
Qed.

Lemma start_session_settles (env : DialEnv Sock IoError H3Config E) px :
  settles (λ f, start_session linux enable_extended_connect opts f env px).
Proof.
  unfold start_session. destruct (dial _ _ _ _ _ _ _ _) as [[d|] os]; [|apply settles_const].
  destruct (build_h3_config _ _) as [h|]; [|apply settles_const].
  cbn [px_lsock]. destruct (session_start_settles linux d (px_lsock px)) as (f & [s|b] & H);
    exists f; eexists; intros f' Hf'; rewrite (H f' Hf'); reflexivity.
Qed.

Lemma px_step_settles ev px : settles (λ f, px_step f ev px).
Proof.
  unfold Proxy.px_step. destruct ev as [w|w|a|env|], (px_phase px) as [|h s q qt|d] eqn:Ep;
    try apply settles_const.
  1-3: destruct (px_ltask px); [|apply settles_const];
    destruct (spawn_udp_recv _ _ _ _) as [b [ls lrx]]; apply settles_const.
  - destruct qt; [|apply settles_const]. destruct (spawn_udp_recv _ _ _ _) as [b [ls lrx]].
    apply settles_const.
  - unfold session_wakes.
    destruct (select_wakeup_settles a qt (px_ltask px) (timeout (tn_conn (se_tunnel s))) q (px_lrx px))
      as (f1 & [[[w q'] l']|] & H1).
    2:{ exists f1. eexists. intros f Hf. by rewrite H1. }
    destruct (session_turn_settles linux h w (set_sockets s (se_qsock s) (px_lsock px)))
      as (f2 & [[s'|s']|] & H2);
      exists (max f1 f2); eexists; intros f Hf; rewrite H1, H2 by lia; reflexivity.
  - destruct (start_session_settles env px) as (f & px' & H). exists f. eexists.
    intros f' Hf'. by rewrite (H f' Hf').
Qed.

Lemma px_run_returns evs px :
  px_ok px → ∃ fuel0 px', (∀ fuel, fuel0 ≤ fuel → px_run fuel evs px = Some (Returns px')) ∧ px_ok px'.
Proof.
  revert px. induction evs as [|ev evs IH]; intros px Hok; cbn [Proxy.px_run].
  { by exists 0, px. }
  destruct (px_step_settles ev px) as (f & r & H).
  destruct (px_step_ok f ev px r Hok (H f (le_n f))) as (px1 & -> & H1).
  destruct (IH px1 H1) as (f1 & px' & H2 & H4). exists (max f f1), px'. split; [|done].
  intros fuel Hf. rewrite H by lia. apply H2. lia.
Qed.

Lemma run_proxy_ok os px os' : run_proxy linux opts os = (Ok px, os') → px_ok px ∧ queued (px_lrx px) = [].
Proof.
  unfold run_proxy. destruct (bind_udp _ _ _) as [[s|e] o]; [|done]. intros [= <- _].
  split; [done|]. apply channel_queued.
Qed.

(** C14: The client never gives up.  Once the local socket is bound, then whatever happens,
    in whatever order and however often (datagrams or errors on either socket, timers,
    failing or succeeding dials), the process comes to a state, without a panic, from
    which it goes on: a dial leads to a session or a pause; a pause is between
    [RECONNECT_MIN] and [RECONNECT_MAX] and leads to the next dial; and a session, whose
    state is coherent, wakes up within [KEEPALIVE] and by its connection's timer. *)
Theorem client_never_gives_up (os os' : Os) px (evs : list event) :
  run_proxy linux opts os = (Ok px, os') →
  ∃ fuel0 px', (∀ fuel, fuel0 ≤ fuel → px_run fuel evs px = Some (Returns px')) ∧
    match px_phase px' with
    | Dialing => ∀ env, ∃ f px2, px_step f (Dial env) px' = Some (Returns px2) ∧ px_phase px2 ≠ Dialing
    | Sleeping d =>
        (RECONNECT_MIN ≤ d ≤ RECONNECT_MAX)%Z ∧
        ∃ px2, px_step 0 Slept px' = Some (Returns px2) ∧ px_phase px2 = Dialing
    | Running h s q qt =>
        session_reachable linux s ∧
        (∀ start quic local, ∃ a t,
           selects (session_arms start quic local (timeout (tn_conn (se_tunnel s)))) a t ∧
           (t ≤ start + KEEPALIVE)%Z ∧
           ∀ d, timeout (tn_conn (se_tunnel s)) = Some d → (t ≤ start + d)%Z)
    end.
Proof.
  intros [Hok _]%run_proxy_ok. destruct (px_run_returns evs px Hok) as (f & px' & H & Hok').
  exists f, px'. split; [done|]. pose proof Hok' as [_ Hp]. destruct (px_phase px') as [|h s q qt|d] eqn:Ep.
  - intros env. destruct (start_session_settles env px') as (f1 & px2 & H1).
    exists f1, px2. unfold Proxy.px_step. rewrite Ep, (H1 f1 (le_n f1)). split; [done|].
    by destruct (start_session_ok _ _ _ _ Hok' (H1 f1 (le_n f1))).
  - split; [done|]. intros start quic local. apply session_arms_wake.
  - split; [done|]. unfold Proxy.px_step. rewrite Ep. by eexists.
Qed.

(** ** Local datagrams *)

(** What the kernel delivers to one wake-up of a receive task. *)
Fixpoint deliveries (n : nat) (bs : nat) (s : Sock) : datagrams :=
  match n with
  | O => []
  | S n =>
      match recv_udp_segments linux s bs with
      | (Ok segments, s) => segments ++ deliveries n bs s
      | (Err e, s) => if would_block e then [] else if interrupted e then deliveries n bs s else []
      end
  end.

Lemma recv_round_queue n bs (st st' : Sock * Chan (bytes * SocketAddr)%type) b :
  recv_round linux n bs st = (b, st') →
  ∃ acc, sublist acc (deliveries n bs st.1) ∧ queued st'.2 = queued st.2 ++ acc.
Proof.
  revert st. induction n as [|n IH]; intros [s tx]; cbn [recv_round deliveries fst snd].
  - intros [= _ <-]. exists []. by rewrite app_nil_r.
  - destruct (recv_udp_segments linux s bs) as [[segs|e] s1].
    + intros (acc & Ha & Hq)%IH. destruct (forward_queued segs tx) as (l & Hl & Hf).
      exists (l ++ acc). split; [by apply sublist_app|]. cbn [snd] in Hq. by rewrite Hq, Hf, app_assoc.
    + destruct (would_block e); [|destruct (interrupted e)].
      * intros [= _ <-]. exists []. by rewrite app_nil_r.
      * intros (acc & Ha & Hq)%IH. eauto.
      * intros [= _ <-]. exists []. by rewrite app_nil_r.
Qed.

Definition delivered (w : wake) (bs : nat) (s : Sock) : datagrams :=
  match w with Readable => deliveries RECV_BATCH bs s | _ => [] end.

Lemma spawn_udp_recv_queue w bs s tx b s' (tx' : Chan (bytes * SocketAddr)%type) :
  spawn_udp_recv linux bs w (s, tx) = (b, (s', tx')) →
  ∃ acc, sublist acc (delivered w bs s) ∧ queued tx' = queued tx ++ acc.
Proof.
  destruct w; cbn [spawn_udp_recv delivered].
  - apply (recv_round_queue RECV_BATCH bs (s, tx) (s', tx')).
  - intros [= _ _ <-]. exists []. by rewrite app_nil_r.
  - intros [= _ _ <-]. exists []. by rewrite app_nil_r.
Qed.

(** The local datagrams an event delivers to the process, and those it hands to the
    session. *)
Definition arriving ev px : datagrams :=
  match ev with
  | LocalRecv w => if px_ltask px then delivered w RECV_BUF (px_lsock px) else []
  | _ => []
  end.

Definition handing (fuel : nat) ev px : datagrams :=
  match ev, px_phase px with
  | Wake a, Running _ s q qt =>
      match select_wakeup fuel a qt (px_ltask px) (timeout (tn_conn (se_tunnel s))) q (px_lrx px) with
      | Some (Some (w, _, _)) => wk_local_pkts w
      | _ => []
      end
  | _, _ => []
  end.

(** The same over a run. *)
Fixpoint over_run (f : event → Proxy → datagrams) (fuel : nat) (evs : list event) px : datagrams :=
  match evs with
  | [] => []
  | ev :: evs =>
      f ev px ++ match px_step fuel ev px with
                 | Some (Returns px) => over_run f fuel evs px
                 | _ => []
                 end
  end.

Lemma start_session_queue fuel (env : DialEnv Sock IoError H3Config E) px px' :
  start_session linux enable_extended_connect opts fuel env px = Some px' →
  px_lrx px' = px_lrx px ∧ px_ltask px' = px_ltask px.
Proof.
  unfold start_session. destruct (dial _ _ _ _ _ _ _ _) as [[d|] os]; [|by intros [= <-]].
  destruct (build_h3_config _ _) as [h|]; [|by intros [= <-]].
  by destruct (session_start _ _ _ _) as [[s|b]|]; [intros [= <-]..|].
Qed.

Lemma px_step_queue fuel ev px px' :
  px_step fuel ev px = Some (Returns px') →
  ∃ acc, sublist acc (arriving ev px) ∧
    queued (px_lrx px) ++ acc = handing fuel ev px ++ queued (px_lrx px').
Proof.
  assert (queued (px_lrx px) ++ [] = [] ++ queued (px_lrx px)) as Hsame by by rewrite app_nil_r.
  unfold Proxy.px_step, handing. intros H. destruct ev as [w|w|a|env|].
  - cbn [arriving]. destruct (px_ltask px); [|injection H as <-; by exists []].
    destruct (spawn_udp_recv _ _ _ _) as [b [ls lrx]] eqn:Er. injection H as <-. cbn [px_lrx app].
    apply spawn_udp_recv_queue in Er as (acc & Ha & Hq). by exists acc.
  - exists []. split; [constructor|]. destruct (px_phase px) as [|h s q [|]|d]; try by simplify_eq.
    destruct (spawn_udp_recv _ _ _ _) as [b [qs q']]. by simplify_eq.
  - exists []. split; [constructor|]. destruct (px_phase px) as [|h s q qt|d]; try by simplify_eq.
    unfold session_wakes in *. destruct (select_wakeup _ _ _ _ _ _ _) as [[[[w q'] l']|]|] eqn:Es; try by simplify_eq.
    apply select_wakeup_found in Es.
    assert (queued (px_lrx px) = wk_local_pkts w ++ queued l') as ->.
    { unfold found in Es. destruct (wk_recv_ended w); [by destruct Es as (-> & -> & _)|].
      destruct Es as (_ & -> & _ & ->). by rewrite app_nil_r. }
    rewrite app_nil_r. by destruct (session_turn _ _ _ _ _) as [[[s'|s']|]|]; simplify_eq.
  - exists []. split; [constructor|]. destruct (px_phase px); try by simplify_eq.
    apply fmap_Some in H as (px1 & H & [= ->]). by apply start_session_queue in H as [-> _].
  - exists []. split; [constructor|]. by destruct (px_phase px); simplify_eq.
Qed.

(** C16: The datagrams of local applications reach the sessions in the order in which they
    arrived: over any run, what was handed to sessions, however many there were, followed
    by what still waits in the channel, is what was waiting at the start followed by the
    datagrams received since; of the latter some may be missing (the channel is bounded),
    but none is reordered, duplicated or made up. *)
Theorem local_in_order (fuel : nat) (evs : list event) px px' :
  px_run fuel evs px = Some (Returns px') →
  ∃ acc, sublist acc (over_run arriving fuel evs px) ∧
    queued (px_lrx px) ++ acc = over_run (handing fuel) fuel evs px ++ queued (px_lrx px').
Proof.
  revert px. induction evs as [|ev evs IH]; intros px; cbn [Proxy.px_run over_run].
  { intros [= <-]. exists []. by rewrite app_nil_r. }
  destruct (px_step fuel ev px) as [[px1|]|] eqn:Es; [|done..].
  intros (acc & Ha & Hq)%IH. apply px_step_queue in Es as (acc1 & Ha1 & Hq1).
  exists (acc1 ++ acc). split; [by apply sublist_app|].
  by rewrite app_assoc, Hq1, <- app_assoc, Hq, app_assoc.
Qed.

Lemma px_step_dead fuel ev px px' :
  px_ltask px = false → px_step fuel ev px = Some (Returns px') → px_ltask px' = false.
Proof.
  intros Hd. unfold Proxy.px_step. destruct ev as [w|w|a|env|].
  - rewrite Hd. by intros [= <-].
  - destruct (px_phase px) as [|h s q [|]|d]; try by intros [= <-].
    destruct (spawn_udp_recv _ _ _ _) as [b [qs q']]. by intros [= <-].
  - destruct (px_phase px) as [|h s q qt|d]; try by intros [= <-].
    unfold session_wakes. destruct (select_wakeup _ _ _ _ _ _ _) as [[[[w q'] l']|]|]; try by intros [= <-].
    by destruct (session_turn _ _ _ _ _) as [[[s'|s']|]|]; try (by intros [= <-]).
  - destruct (px_phase px); try by intros [= <-].
    intros (px1 & H & [= ->])%fmap_Some. by apply start_session_queue in H as [_ ->].
  - by destruct (px_phase px); intros [= <-].
Qed.

(** The one failure from which the client does not recover: once the receive task of
    the local socket has ended, which any receive error other than "would block" and
    "interrupted" makes it do, then no later dial or session starts it again, no local
    datagram is ever handed to a session any more when the channel is empty, and the
    local arm of a session's [select!] is ready at once in every turn, with nothing to
    hand over, so that the loop of the session no longer waits. *)
Theorem local_task_gone (fuel : nat) (evs : list event) px px' :
  px_ltask px = false → queued (px_lrx px) = [] → px_run fuel evs px = Some (Returns px') →
  px_ltask px' = false ∧ queued (px_lrx px') = [] ∧
  over_run (handing fuel) fuel evs px = [] ∧
  ∀ qt tm (q : Chan (bytes * SocketAddr)%type), ∃ f w q' l',
    select_wakeup f LocalNext qt (px_ltask px') tm q (px_lrx px') = Some (Some (w, q', l')) ∧
    wk_local_pkts w = [].
Proof.
  revert px. induction evs as [|ev evs IH]; intros px Hd Hq; cbn [Proxy.px_run over_run].
  - intros [= <-]. split_and!; [done..|]. intros qt tm q.
    destruct (select_wakeup_settles LocalNext qt (px_ltask px) tm q (px_lrx px)) as (f & r & H).
    specialize (H f (le_n f)). exists f. pose proof H as H'. unfold select_wakeup in H'.
    destruct (try_recv (px_lrx px)) as [[p|] l] eqn:Er; apply try_recv_queued in Er as [Er _].
    + by rewrite Hq in Er.
    + rewrite Hd in H'. apply fmap_Some in H' as ([[w q'] l'] & Hb & ->).
      exists w, q', l'. split; [done|]. apply select_wakeup_found in H. unfold found in H.
      destruct (wk_recv_ended w); [by destruct H|]. destruct H as (_ & -> & _). done.
  - destruct (px_step fuel ev px) as [[px1|]|] eqn:Es; [|done..]. intros H.
    pose proof (px_step_queue _ _ _ _ Es) as (acc & Ha & Hacc). apply px_step_dead in Es; [|done].
    rewrite Hq in Hacc. assert (acc = []) as ->.
    { unfold arriving in Ha. rewrite Hd in Ha. destruct ev; by apply sublist_nil_r in Ha. }
    symmetry in Hacc. apply app_nil in Hacc as [-> Hq1]. by apply IH.
Qed.
End Process.

(** ** Runs *)

Definition loop_client : QuicheClient lconn Config := {|
  quiche_connect _ _ _ _ config := (Ok sample_conn, config);
|}.

Definition sample_options : ProxyOptions :=
  mkProxyOptions (mkParams (mkEndpoint (str "a.example.com:4433") (str "/masque")) None Insecure None)
    (SockV4 0 5353).

(** A world in which every call succeeds, and one in which the name does not resolve. *)
Definition sample_env : DialEnv lsock unit unit unit :=
  mkDialEnv (replicate 20 (z2b 1)) (λ _, Ok [SockV4 1 443]) (λ _ _, true) (λ _, true)
    (λ _, Ok (SockV4 9 9)) (Ok tt).

Definition no_dns_env : DialEnv lsock unit unit unit :=
  mkDialEnv (replicate 20 (z2b 1)) (λ _, Err tt) (λ _ _, true) (λ _, true) (λ _, Ok (SockV4 9 9)) (Ok tt).

Local Abbreviation LProxy := (Proxy (Conn := lconn) (H3 := Z) (H3Config := unit) (Sock := lsock)
  (Os := list SocketAddr) (Chan := lchan)).
Local Abbreviation lrun :=
  (px_run (IoError := unit) (E := unit) (Q := LoopQuiche) (QC := loop_client) (U := LoopUdp)
    (SA := LoopSockets) (M := LoopMpsc) (HI := HashIterStd) true (λ c _, c) sample_options).

Definition sample_px (queue : list (bytes * SocketAddr)) (ltask : bool) : LProxy :=
  mkProxy idle_sock (mkLchan queue CHANNEL_CAP) ltask [] RECONNECT_MIN Dialing.

Definition two_pings : list (bytes * SocketAddr) := [(str "ping", SockV4 2 7); (str "pong", SockV4 2 8)].

Definition ran (px : LProxy) (o : option (panics LProxy)) : LProxy :=
  match o with Some (Returns px) => px | _ => px end.

Definition has_run (o : option (panics LProxy)) : bool :=
  match o with Some (Returns _) => true | _ => false end.

Lemma ran_ok px o : has_run o = true → o = Some (Returns (ran px o)).
Proof. by destruct o as [[|]|]. Qed.

(** Two failing dials, then a session. *)
Definition sample_events : list (event (H3Config := unit) (Sock := lsock) (IoError := unit) (E := unit)) :=
  [Dial no_dns_env; Slept; Dial no_dns_env; Slept; Dial sample_env; Wake LocalNext].

Local Abbreviation lrun_proxy :=
  (run_proxy (SA := LoopSockets) (M := LoopMpsc) (Conn := lconn) (H3 := Z) (H3Config := unit)
    true sample_options []).

Definition sample_px0 : LProxy :=
  match lrun_proxy.1 with Ok px => px | Err _ => sample_px [] true end.

Lemma sample_px0_ok : lrun_proxy = (Ok sample_px0, []).
Proof. vm_compute. reflexivity. Qed.

Lemma client_never_gives_up_witness :
  ∃ fuel0 px', lrun (S fuel0) sample_events sample_px0 = Some (Returns px') ∧
    px_backoff (ran sample_px0 (lrun 9 sample_events sample_px0)) = from_millis 400.
Proof.
  destruct (client_never_gives_up (Q := LoopQuiche) (QT := LoopStreams) (QD := LoopDrains) (QSe := LoopSends)
    (QC := loop_client) (UP := LoopUdpProgress) (SA := LoopSockets) (ML := LoopMpscLaws) (HI := HashIterStd)
    true (λ c _, c) sample_options [] [] sample_px0 sample_events sample_px0_ok) as (f & px' & H & _).
  exists f, px'. split; [apply H; lia|]. vm_compute. reflexivity.
Defined.

Local Abbreviation lhanded evs px :=
  (over_run (IoError := unit) (E := unit) (Q := LoopQuiche) (QC := loop_client) (U := LoopUdp)
    (SA := LoopSockets) (M := LoopMpsc) (HI := HashIterStd) true (λ c _, c) sample_options
    (handing (Q := LoopQuiche) (M := LoopMpsc) 9) 9 evs px).

Lemma local_in_order_witness :
  ∃ px' acc, lrun 9 sample_events (sample_px two_pings true) = Some (Returns px') ∧
    queued (MpscLaws := LoopMpscLaws) (px_lrx (sample_px two_pings true)) ++ acc =
      lhanded sample_events (sample_px two_pings true) ++ queued (MpscLaws := LoopMpscLaws) (px_lrx px') ∧
    lhanded sample_events (sample_px two_pings true) = two_pings.
Proof.
  assert (has_run (lrun 9 sample_events (sample_px two_pings true)) = true) as H by (vm_compute; reflexivity).
  apply (ran_ok (sample_px two_pings true)) in H.
  destruct (local_in_order (Q := LoopQuiche) (QC := loop_client) (U := LoopUdp) (SA := LoopSockets)
    (ML := LoopMpscLaws) (HI := HashIterStd) true (λ c _, c) sample_options 9 sample_events
    (sample_px two_pings true) (ran (sample_px two_pings true) (lrun 9 sample_events (sample_px two_pings true)))
    H) as (acc & _ & Hq).
  exists (ran (sample_px two_pings true) (lrun 9 sample_events (sample_px two_pings true))), acc.
  split_and!; [exact H|exact Hq|vm_compute; reflexivity].
Defined.

Lemma local_task_gone_witness :
  ∃ px', lrun 9 sample_events (sample_px [] false) = Some (Returns px') ∧ px_ltask px' = false.
Proof.
  assert (has_run (lrun 9 sample_events (sample_px [] false)) = true) as H by (vm_compute; reflexivity).
  apply (ran_ok (sample_px [] false)) in H.
  exists (ran (sample_px [] false) (lrun 9 sample_events (sample_px [] false))). split; [exact H|].
  exact (proj1 (local_task_gone (Q := LoopQuiche) (QC := loop_client) (U := LoopUdp) (SA := LoopSockets)
    (ML := LoopMpscLaws) (HI := HashIterStd) true (λ c _, c) sample_options 9 sample_events
    (sample_px [] false) (ran (sample_px [] false) (lrun 9 sample_events (sample_px [] false)))
    eq_refl eq_refl H)).
Defined.
