(* ===== verification/Listen.v ===== *)
(** * The server process (src/server.rs, [Server::run])

    The main loop with the receive task that feeds it: the task reads the listening socket
    into a channel, the loop's [select!] takes what is there.  The handlers of the arms are
    those of Server.v; what the receive task queues while a turn works off its packets is
    left to the next turn. *)

From S2P Require Import Prelude.
From S2P Require Import Net.
From S2P Require Import Rules.
From S2P Require Import Quiche.
From S2P Require Import Loopback.
From S2P Require Import Io.
From S2P Require Import Sockets.
From S2P Require Import Server.
From S2P Require Import ServerInv.
From S2P Require Import ServerRuns.
From S2P Require Import ServerProps.
From S2P Require Import Orphans.
From S2P Require Import Timing.
From S2P Require Import Proxy.
From S2P Require Import ProxyProps.

Section Listen.
Context {Conn H3 H3Config Config Sock Os : Type} {Chan : Type → Type}.
Context `{Q : Quiche Conn H3 H3Config} `{QV : QuicheServer Conn Config}.
Context `{U : UdpSys Sock} `{SA : SocketApi Sock Os} `{M : Mpsc Chan} `{HI : HashIter}.
Context (linux : bool).
Local Abbreviation Server := (Server Conn H3 H3Config Config Sock Os Chan).
Local Abbreviation Rx := (Chan (bytes * SocketAddr)%type).

(** The server, the channel of received packets, and whether the receive task runs. *)
Record Listening := mkListening { li_server : Server; li_pkt_rx : Rx; li_task : bool }.

(** [run] up to its loop. *)
Definition run (sv : Server) : Listening := mkListening sv (channel CHANNEL_CAP) true.

(** The [i]-th packet of a turn finds the clock and the random bytes [stamp i]. *)
Definition arrivals (stamp : nat → Z * Scid) (pkts : list (bytes * SocketAddr)) : list Arrival :=
  imap (λ i p, mkArrival p.1 p.2 (stamp i).1 (stamp i).2) pkts.

(** The arm as it is taken, with the packets the turn works off; [Some None] when it is not
    ready.  The channel of replies always has a sender, the server itself. *)
Definition select_arm (fuel : nat) (n : server_arm) (now : Z) (stamp : nat → Z * Scid)
    (li : Listening) : option (option (arm * Rx)) :=
  let sv := li_server li in
  match n with
  | OnPackets =>
      match try_recv (li_pkt_rx li) with
      | (Some p, pkt_rx) =>
          (λ r, Some (ArmPackets (head (arrivals stamp r.1)) (tail (arrivals stamp r.1)), r.2))
          <$> drain fuel [p] pkt_rx
      | (None, pkt_rx) => Some (if li_task li then None else Some (ArmPackets None [], pkt_rx))
      end
  | OnTarget =>
      Some (match fst (try_recv (sv_to_client sv)) with
            | Some _ => Some (ArmTarget now, li_pkt_rx li)
            | None => None
            end)
  | OnTimeout =>
      Some (match min_timeout sv with Some _ => Some (ArmTimeout, li_pkt_rx li) | None => None end)
  | OnSweep => Some (Some (ArmSweep now, li_pkt_rx li))
  end.

Inductive server_event :=
| RecvTurn (w : wake)
| LoopTurn (n : server_arm) (now : Z) (stamp : nat → Z * Scid)
| TaskTurn (i : nat) (w : task_wake)
| Reloaded (config : Config) (rules : RuleTable).

(** [inr] when [run] has returned. *)
Definition listen_step (fuel : nat) (ev : server_event) (li : Listening) :
    option (panics (Listening + Listening)) :=
  let sv := li_server li in
  match ev with
  | RecvTurn w =>
      Some (Returns (inl (
        if li_task li then
          let '(running, (s, pkt_rx)) :=
            spawn_udp_recv linux MAX_DATAGRAM_SIZE w (sv_socket sv, li_pkt_rx li) in
          mkListening (set_socket sv s) pkt_rx running
        else li)))
  | LoopTurn n now stamp =>
      match select_arm fuel n now stamp li with
      | None => None
      | Some None => Some (Returns (inl li))
      | Some (Some (a, pkt_rx)) =>
          match run_turn linux fuel a sv with
          | None => None
          | Some Panics => Some Panics
          | Some (Returns (inl sv)) => Some (Returns (inl (mkListening sv pkt_rx (li_task li))))
          | Some (Returns (inr sv)) => Some (Returns (inr (mkListening sv pkt_rx (li_task li))))
          end
      end
  | TaskTurn i w => (λ sv, Returns (inl (mkListening sv (li_pkt_rx li) (li_task li)))) <$> run_task fuel i w sv
  | Reloaded config rules =>
      Some (Returns (inl (mkListening (set_server_config config rules sv) (li_pkt_rx li) (li_task li))))
  end.

Fixpoint listen (fuel : nat) (evs : list server_event) (li : Listening) :
    option (panics (Listening + Listening)) :=
  match evs with
  | [] => Some (Returns (inl li))
  | ev :: evs =>
      match listen_step fuel ev li with
      | Some (Returns (inl li)) => listen fuel evs li
      | r => r
      end
  end.
End Listen.

(** ** Properties *)

Section ListenProps.
Context {Conn H3 H3Config Config Sock Os : Type} {Chan : Type → Type}.
Context `{Q : Quiche Conn H3 H3Config} {QD : QuicheDrains Q} {QT : QuicheStreams Q} {QSe : QuicheSends Q}.
Context `{QV : QuicheServer Conn Config}.
Context {U : UdpSys Sock} {UP : UdpProgress U} `{SA : SocketApi Sock Os}.
Context `{ML : MpscLaws Chan} `{HI : HashIter}.
Context (linux : bool) (Allowed : RuleTable → Prop).
Local Abbreviation Server := (Server Conn H3 H3Config Config Sock Os Chan).
Local Abbreviation Listening := (Listening (Conn := Conn) (H3 := H3) (H3Config := H3Config)
  (Config := Config) (Sock := Sock) (Os := Os) (Chan := Chan)).
Local Abbreviation server_event := (server_event (Config := Config)).
Implicit Types (sv : Server) (li : Listening) (ev : server_event) (evs : list server_event).

(** Random connection ids have their length, and reloads bring allowed rules. *)
Definition event_ok ev : Prop :=
  match ev with
  | LoopTurn _ _ stamp => ∀ i, length (stamp i).2 = LOCAL_CONN_ID_LEN
  | Reloaded _ rules => Allowed rules
  | _ => True
  end.

Definition arm_sized (a : arm) : Prop :=
  match a with
  | ArmPackets first burst => Forall (λ p, length (ar_rnd p) = LOCAL_CONN_ID_LEN) (option_list first ++ burst)
  | _ => True
  end.

Local Abbreviation steps := (rtc (step linux Allowed)).

Lemma on_packets_steps fuel l sv sv' :
  Forall (λ p, length (ar_rnd p) = LOCAL_CONN_ID_LEN) l →
  on_packets linux fuel l sv = Some (Returns sv') → steps sv sv'.
Proof.
  unfold on_packets. intros Hl. revert sv. induction Hl as [|a l Ha _ IH]; intros sv; cbn [fold_left].
  - intros [= <-]. apply rtc_refl.
  - destruct (on_packet _ _ _ _ _ _ _) as [[sv1|]|] eqn:E.
    + intros H%IH. eapply rtc_l; [|exact H]. by eapply step_packet.
    + intros H. exfalso. clear -H. by induction l.
    + intros H. exfalso. clear -H. by induction l.
Qed.

Lemma flush_all_steps fuel sv sv' : flush_all linux fuel sv = Some sv' → steps sv sv'.
Proof.
  unfold flush_all. generalize (iter (sv_clients sv)). intros l. revert sv.
  induction l as [|p l IH]; intros sv; cbn [fold_left]; [intros [= <-]; apply rtc_refl|].
  cbn [mbind option_bind]. destruct (flush_client linux fuel p.1 sv) as [sv1|] eqn:E.
  - intros H%IH. eapply rtc_l; [by eapply step_flush|exact H].
  - intros H. exfalso. clear -H. by induction l.
Qed.

(** A turn of the main loop is a sequence of steps of the system. *)
Lemma run_turn_steps fuel a sv x :
  arm_sized a → run_turn linux fuel a sv = Some (Returns x) →
  match x with inl sv' => steps sv sv' | inr sv' => sv' = sv ∧ ∃ l, a = ArmPackets None l end.
Proof.
  intros Ha.
  assert (∀ s r, (λ s, Returns (inl (reap_closed s)) : panics (Server + Server)) <$> flush_all linux fuel s =
    Some (Returns r) → match r with inl sv' => steps s sv' | inr sv' => False end) as Hfin.
  { intros s r (s' & Hf & [= ->])%fmap_Some. apply flush_all_steps in Hf.
    eapply rtc_r; [exact Hf|]. apply step_reap. }
  assert (∀ s, steps sv s → ((λ s, Returns (inl (reap_closed s)) : panics (Server + Server)) <$>
    flush_all linux fuel s = Some (Returns x)) →
    match x with inl sv' => steps sv sv' | inr sv' => sv' = sv ∧ ∃ l, a = ArmPackets None l end) as Hthen.
  { intros s Hs Hf%Hfin. destruct x; [|done]. by etrans. }
  unfold run_turn. destruct a as [[first|] burst|now| |now].
  - destruct (on_packets _ _ _ _) as [[s|]|] eqn:E; [|done..]. apply Hthen. by eapply on_packets_steps.
  - intros [= <-]. eauto.
  - intros (s & Hd & H)%bind_Some. eapply Hthen; [|exact H]. apply rtc_once. by eapply step_targets.
  - apply Hthen. apply rtc_once, step_timeout.
  - apply Hthen. apply rtc_once, step_sweep.
Qed.

Lemma arrivals_sized stamp pkts :
  (∀ i, length (stamp i).2 = LOCAL_CONN_ID_LEN) →
  Forall (λ p, length (ar_rnd p) = LOCAL_CONN_ID_LEN) (arrivals stamp pkts).
Proof.
  intros Hs. apply Forall_lookup. intros i a Ha. unfold arrivals in Ha.
  rewrite list_lookup_imap in Ha. apply fmap_Some in Ha as (p & _ & ->). apply Hs.
Qed.

Lemma head_tail {A} (l : list A) : l ≠ [] → option_list (head l) ++ tail l = l.
Proof. by destruct l. Qed.

Lemma arrivals_head_tail stamp pkts :
  pkts ≠ [] → option_list (head (arrivals stamp pkts)) ++ tail (arrivals stamp pkts) = arrivals stamp pkts.
Proof. intros H. apply head_tail. by destruct pkts. Qed.

(** The packets an arm works off. *)
Definition worked_off (a : arm) : list (bytes * SocketAddr) :=
  match a with
  | ArmPackets first burst => (λ p, (ar_data p, ar_from p)) <$> (option_list first ++ burst)
  | _ => []
  end.

Lemma arrivals_packets stamp pkts : (λ p, (ar_data p, ar_from p)) <$> arrivals stamp pkts = pkts.
Proof.
  unfold arrivals. revert stamp. induction pkts as [|[d f] pkts IH]; intros stamp; [done|].
  cbn. f_equal. apply (IH (λ i, stamp (S i))).
Qed.

(** What an arm finds: all the packets that were queued, in order. *)
Lemma select_arm_found fuel n now stamp li a rx :
  select_arm fuel n now stamp li = Some (Some (a, rx)) →
  (queued (li_pkt_rx li) = worked_off a ++ queued rx) ∧
  ((∀ i, length (stamp i).2 = LOCAL_CONN_ID_LEN) → arm_sized a) ∧
  (∀ l, a = ArmPackets None l → li_task li = false ∧ queued (li_pkt_rx li) = [] ∧ queued rx = []).
Proof.
  unfold select_arm. destruct n.
  - destruct (try_recv _) as [[p|] q] eqn:E; apply try_recv_queued in E as [E En].
    + intros ([pkts q'] & Hd & [= -> ->])%fmap_Some. apply drain_all in Hd as [-> Hq'].
      cbn [fst snd worked_off arm_sized]. rewrite arrivals_head_tail by done.
      rewrite arrivals_packets, Hq', app_nil_r, E. split_and!; [done|apply arrivals_sized|done].
    + destruct (li_task li); [done|]. intros [= <- <-]. specialize (En eq_refl).
      rewrite E, En. split_and!; [done|constructor|done].
  - destruct (fst _); [|done]. by intros [= <- <-].
  - destruct (min_timeout _); [|done]. by intros [= <- <-].
  - by intros [= <- <-].
Qed.

Lemma select_arm_settles n now stamp li : settles (λ f, select_arm f n now stamp li).
Proof.
  unfold select_arm. destruct n; try apply settles_const.
  destruct (try_recv _) as [[p|] q]; [|apply settles_const].
  destruct (drain_settles [p] q) as (f & r & H). exists f. eexists. intros f' Hf'. by rewrite (H f' Hf').
Qed.

Lemma run_task_settles i w sv : settles (λ f, run_task f i w sv).
Proof.
  unfold run_task. destruct (rt_tasks (sv_rt sv) !! i) as [t|]; [|apply settles_const].
  destruct (target_task_settles w t (sv_to_client sv)) as (f & [o ch] & H).
  exists f. eexists. intros f' Hf'. by rewrite (H f' Hf').
Qed.
Lemma reachable_steps sv sv' : reachable linux Allowed sv → steps sv sv' → reachable linux Allowed sv'.
Proof.
  intros (s0 & so & ad & h3 & cf & ru & os & H1 & H2 & H4) Hs.
  exists s0, so, ad, h3, cf, ru, os. split_and!; [done..|]. by etrans.
Qed.

Definition state_of (x : Listening + Listening) : Listening := match x with inl li | inr li => li end.

Lemma listen_step_ok fuel ev li r :
  reachable linux Allowed (li_server li) → event_ok ev → listen_step linux fuel ev li = Some r →
  ∃ x, r = Returns x ∧ reachable linux Allowed (li_server (state_of x)) ∧
    match x with inl _ => True | inr li' => li_task li' = false ∧ queued (li_pkt_rx li') = [] end.
Proof.
  intros Hr He. unfold listen_step. destruct ev as [w|n now stamp|i w|config rules].
  - intros [= <-]. eexists. split; [reflexivity|]. split; [|done]. cbn [state_of].
    destruct (li_task li); [|done]. destruct (spawn_udp_recv _ _ _ _) as [b [s rx]] eqn:E.
    eapply reachable_steps; [exact Hr|]. apply rtc_once. by eapply step_recv.
  - destruct (select_arm _ _ _ _ _) as [[[a rx]|]|] eqn:Es; [| |done].
    2:{ intros [= <-]. by eexists. }
    apply select_arm_found in Es as (_ & Hsz & Hend). specialize (Hsz He).
    destruct (run_turn _ _ _ _) as [p|] eqn:Et; [|done].
    destruct (run_turn_ok linux a _ _ _ (reachable_anything _ _ _ Hr) Et) as (x & -> & _).
    apply run_turn_steps in Et; [|done]. destruct x as [sv'|sv']; intros [= <-]; eexists; (split; [reflexivity|]).
    + split; [|done]. by eapply reachable_steps.
    + destruct Et as [-> [l ->]]. split; [done|]. by destruct (Hend l eq_refl) as (? & _ & ?).
  - intros (sv' & Ht & ->)%fmap_Some. eexists. split; [reflexivity|]. split; [|done].
    eapply reachable_steps; [exact Hr|]. apply rtc_once. by eapply step_task.
  - intros [= <-]. eexists. split; [reflexivity|]. split; [|done].
    eapply reachable_steps; [exact Hr|]. apply rtc_once. by apply step_reload.
Qed.

Lemma listen_step_settles ev li : settles (λ f, listen_step linux f ev li).
Proof.
  unfold listen_step. destruct ev as [w|n now stamp|i w|config rules]; try apply settles_const.
  - destruct (select_arm_settles n now stamp li) as (f1 & [[a rx]|] & H1).
    2:{ exists f1. eexists. intros f Hf. by rewrite H1. }
    destruct (run_turn_settles linux a (li_server li)) as (f2 & [[sv'|sv']|] & H2);
      exists (max f1 f2); eexists; intros f Hf; rewrite H1, H2 by lia; reflexivity.
  - destruct (run_task_settles i w (li_server li)) as (f & sv' & H). exists f. eexists.
    intros f' Hf'. by rewrite (H f' Hf').
Qed.

(** C3: The server keeps serving.  Whatever the receive task, the target tasks, the reloads
    and the arms of the main loop do, in whatever order, every turn comes to its end
    without a panic and in a reachable state, so that all the invariants hold; and [run]
    returns only when its receive task has ended and every packet it had queued has been
    worked off. *)
Theorem server_keeps_serving evs li :
  reachable linux Allowed (li_server li) → Forall event_ok evs →
  ∃ fuel0 x, (∀ fuel, fuel0 ≤ fuel → listen linux fuel evs li = Some (Returns x)) ∧
    reachable linux Allowed (li_server (state_of x)) ∧
    match x with inl _ => True | inr li' => li_task li' = false ∧ queued (li_pkt_rx li') = [] end.
Proof.
  intros Hr Hevs. revert li Hr. induction Hevs as [|ev evs He _ IH]; intros li Hr; cbn [listen].
  { by exists 0, (inl li). }
  destruct (listen_step_settles ev li) as (f & r & H).
  destruct (listen_step_ok f ev li r Hr He (H f (le_n f))) as (x & -> & Hx & Hend).
  destruct x as [li1|li1].
  - destruct (IH li1 Hx) as (f1 & y & H1 & H2). exists (max f f1), y. split; [|done].
    intros fuel Hf. rewrite H by lia. apply H1. lia.
  - exists f, (inr li1). split; [|done]. intros fuel Hf. by rewrite H.
Qed.

(** The packets an event delivers to the process, and those it works off. *)
Definition receiving ev li : list (bytes * SocketAddr) :=
  match ev with
  | RecvTurn w => if li_task li then delivered linux w MAX_DATAGRAM_SIZE (sv_socket (li_server li)) else []
  | _ => []
  end.

Definition working (fuel : nat) ev li : list (bytes * SocketAddr) :=
  match ev with
  | LoopTurn n now stamp =>
      match select_arm fuel n now stamp li with Some (Some (a, _)) => worked_off a | _ => [] end
  | _ => []
  end.

Fixpoint while_listening (f : server_event → Listening → list (bytes * SocketAddr)) (fuel : nat) evs li :
    list (bytes * SocketAddr) :=
  match evs with
  | [] => []
  | ev :: evs =>
      f ev li ++ match listen_step linux fuel ev li with
                 | Some (Returns (inl li)) => while_listening f fuel evs li
                 | _ => []
                 end
  end.

Lemma listen_step_queue fuel ev li x :
  listen_step linux fuel ev li = Some (Returns x) →
  ∃ acc, sublist acc (receiving ev li) ∧
    queued (li_pkt_rx li) ++ acc = working fuel ev li ++ queued (li_pkt_rx (state_of x)).
Proof.
  assert (queued (li_pkt_rx li) ++ [] = [] ++ queued (li_pkt_rx li)) as Hsame by by rewrite app_nil_r.
  unfold listen_step, working. intros H. destruct ev as [w|n now stamp|i w|config rules].
  - cbn [receiving]. injection H as <-. cbn [state_of].
    destruct (li_task li); [|by exists []].
    destruct (spawn_udp_recv _ _ _ _) as [b [s rx]] eqn:Er.
    apply spawn_udp_recv_queue in Er as (acc & Ha & Hq). by exists acc.
  - exists []. split; [constructor|].
    destruct (select_arm _ _ _ _ _) as [[[a rx]|]|] eqn:Es; try by simplify_eq.
    apply select_arm_found in Es as (-> & _ & _). rewrite app_nil_r.
    by destruct (run_turn _ _ _ _) as [[[sv'|sv']|]|]; simplify_eq.
  - exists []. split; [constructor|]. by apply fmap_Some in H as (sv' & _ & [= ->]).
  - exists []. split; [constructor|]. by simplify_eq.
Qed.

(** Packets are worked off in the order in which they came: over any run, the packets
    the main loop has handled, followed by those still queued, are what was queued at the
    start followed by what the receive task has read since, except for packets that were
    dropped because the channel was full; none is reordered, duplicated or made up. *)
Theorem packets_in_order (fuel : nat) evs li x :
  listen linux fuel evs li = Some (Returns x) →
  ∃ acc, sublist acc (while_listening receiving fuel evs li) ∧
    queued (li_pkt_rx li) ++ acc =
    while_listening (working fuel) fuel evs li ++ queued (li_pkt_rx (state_of x)).
Proof.
  revert li. induction evs as [|ev evs IH]; intros li; cbn [listen while_listening].
  { intros [= <-]. exists []. by rewrite app_nil_r. }
  destruct (listen_step linux fuel ev li) as [[[li1|li1]|]|] eqn:Es; try done.
  - intros (acc & Ha & Hq)%IH. apply listen_step_queue in Es as (acc1 & Ha1 & Hq1).
    exists (acc1 ++ acc). split; [by apply sublist_app|].
    cbn [state_of] in Hq1. by rewrite app_assoc, Hq1, <- app_assoc, Hq, app_assoc.
  - intros [= <-]. apply listen_step_queue in Es as (acc1 & Ha1 & Hq1). exists acc1.
    by rewrite !app_nil_r.
Qed.
End ListenProps.

(** ** A run *)

Definition sample_stamp (i : nat) : Z * Scid := (1000%Z, replicate 16 (z2b 7)).

Local Abbreviation LListening := (Listening (Conn := lconn) (H3 := Z) (H3Config := unit) (Config := lconn)
  (Sock := lsock) (Os := list SocketAddr) (Chan := lchan)).

(** A client's first packet waits in the channel; the receive task then fails. *)
Definition sample_li : LListening :=
  mkListening sample_sv0 (mkLchan [(sample_pkt (z2b 7), SockV4 5 5)] CHANNEL_CAP) true.

Definition sample_server_events : list (server_event (Config := lconn)) :=
  [RecvTurn ReadableErr; LoopTurn OnPackets 1000 sample_stamp; LoopTurn OnSweep 1000 sample_stamp;
   LoopTurn OnPackets 1000 sample_stamp].

Lemma sample_sv0_reachable :
  reachable (Q := LoopQuiche) (QV := LoopServer) (U := LoopUdp) (SA := LoopSockets)
    (M := LoopMpsc) (HI := HashIterStd) true sample_allowed sample_sv0.
Proof.
  exists sample_sv0, idle_sock, (Ok (SockV4 1 443)), (Ok tt), sample_template, sample_table, [].
  split; [reflexivity|]. split; [reflexivity|]. apply rtc_refl.
Qed.

Local Abbreviation llisten :=
  (listen (Q := LoopQuiche) (QV := LoopServer) (U := LoopUdp) (SA := LoopSockets) (M := LoopMpsc)
    (HI := HashIterStd) true).

Lemma server_keeps_serving_witness :
  ∃ fuel0 x, llisten (S fuel0) sample_server_events sample_li = Some (Returns x) ∧
    match llisten 9 sample_server_events sample_li with
    | Some (Returns (inr li)) => size (sv_clients (li_server li)) = 1
    | _ => False
    end.
Proof.
  destruct (server_keeps_serving (Q := LoopQuiche) (QD := LoopDrains) (QT := LoopStreams)
    (QSe := LoopSends) (QV := LoopServer) (UP := LoopUdpProgress) (SA := LoopSockets) (ML := LoopMpscLaws)
    (HI := HashIterStd) true sample_allowed sample_server_events sample_li sample_sv0_reachable)
    as (f & x & H & _).
  - repeat constructor.
  - exists f, x. split; [apply H; lia|vm_compute; reflexivity].
Defined.

Definition listened (o : option (panics (LListening + LListening))) : LListening + LListening :=
  match o with Some (Returns x) => x | _ => inl sample_li end.

Lemma packets_in_order_witness :
  ∃ x acc, llisten 9 sample_server_events sample_li = Some (Returns x) ∧
    queued (MpscLaws := LoopMpscLaws) (li_pkt_rx sample_li) ++ acc =
    while_listening (Q := LoopQuiche) (QV := LoopServer) (U := LoopUdp) (SA := LoopSockets)
      (M := LoopMpsc) (HI := HashIterStd) true
      (working (Q := LoopQuiche) (M := LoopMpsc) (HI := HashIterStd) 9) 9 sample_server_events sample_li
    ++ queued (MpscLaws := LoopMpscLaws) (li_pkt_rx (state_of x)).
Proof.
  assert (match llisten 9 sample_server_events sample_li with Some (Returns _) => true | _ => false end = true)
    as Hc by (vm_compute; reflexivity).
  assert (llisten 9 sample_server_events sample_li =
    Some (Returns (listened (llisten 9 sample_server_events sample_li)))) as H.
  { by destruct (llisten 9 sample_server_events sample_li) as [[y|]|]. }
  clear Hc.
  destruct (packets_in_order (Q := LoopQuiche) (QV := LoopServer) (U := LoopUdp) (SA := LoopSockets)
    (ML := LoopMpscLaws) (HI := HashIterStd) true 9 sample_server_events sample_li
    (listened (llisten 9 sample_server_events sample_li)) H) as (acc & _ & Hq).
  exists (listened (llisten 9 sample_server_events sample_li)), acc. split; [exact H|exact Hq].
Defined.
