(* ===== verification/Reload.v ===== *)
(** * Hot reload (src/reload.rs)

    The configuration and the rule table are rebuilt from the files on every SIGHUP and
    swapped in together.  What the files, the resolver and the TLS library say during
    one rebuild is a [World]; each file is read once, so a rebuild that overlaps with
    changes to the files still sees one world. *)

From S2P Require Import Prelude.
From S2P Require Import RustStr.
From S2P Require Import Net.
From S2P Require Import Endpoint.
From S2P Require Import Rules.
From S2P Require Import Base64.
From S2P Require Import EchKey.
From S2P Require Import Quiche.
From S2P Require Import Io.
From S2P Require Import Tls.
From S2P Require Import Server.
From S2P Require Import ServerInv.

Record ReloadPaths := mkReloadPaths {
  rp_cert : Path;
  rp_key : Path;
  rp_ech_key : option Path;
  rp_rules : Path;
}.

Record World (IoError JsonError : Type) := mkWorld {
  w_fs : FileSystem IoError;
  w_read_to_string : Path → result IoError bytes;
  w_from_str : bytes → result JsonError (list RuleFields);
  w_to_socket_addrs : bytes → result IoError (list SocketAddr);
  w_accepts : list call → call → bool;
}.
Arguments mkWorld {IoError JsonError}.
Arguments w_fs {IoError JsonError}.
Arguments w_read_to_string {IoError JsonError}.
Arguments w_from_str {IoError JsonError}.
Arguments w_to_socket_addrs {IoError JsonError}.
Arguments w_accepts {IoError JsonError}.

Inductive SpawnError := CreatingSignalfd (e : io_error) | WrappingSignalfd (e : io_error).

(** Given the answers of [signalfd] and [File::from_std]; the result says whether the
    reload task runs, which it does on Linux only. *)
Definition spawn_reload (linux : bool) (signalfd from_std : result io_error unit) :
    result SpawnError bool :=
  if linux then
    _ ← map_err CreatingSignalfd signalfd;
    _ ← map_err WrappingSignalfd from_std;
    mret true
  else Ok false.

Section Reload.
Context `{B : Base64} {IoError JsonError : Type}.
Local Abbreviation World := (World IoError JsonError).

Inductive ReloadError :=
| LoadingEchKeys (e : KeyError IoError)
| LoadingRules (e : LoadError IoError JsonError)
| BuildingConfig (e : TlsError).

Definition load_table (w : World) (path : Path) : result (LoadError IoError JsonError) RuleTable :=
  Rules.load (w_read_to_string w) (w_from_str w) (w_to_socket_addrs w) path.

Definition build_config (w : World) (cert key : Path) (ech : option EchKeySet) (hosts : list bytes) :
    result TlsError Config :=
  run_build (build_server_config (w_accepts w) cert key ech hosts).

Definition rebuild (paths : ReloadPaths) (w : World) : result ReloadError (Config * RuleTable) :=
  ech ← (match rp_ech_key paths with
         | Some path => ks ← map_err LoadingEchKeys (EchKey.load (w_fs w) path); mret (Some ks)
         | None => mret None
         end);
  rules ← map_err LoadingRules (load_table w (rp_rules paths));
  config ← map_err BuildingConfig
    (build_config w (rp_cert paths) (rp_key paths) ech (allowed_sni_hosts rules));
  mret (config, rules).

Context {Conn H3 H3Config Sock Os : Type} {Chan : Type → Type}.
Local Abbreviation Server := (Server Conn H3 H3Config Config Sock Os Chan).

(** One turn of [reload_task]: [res] is the outcome of reading the signal. *)
Definition reload_task (res : result io_error unit) (paths : ReloadPaths) (w : World)
    (sv : Server) : panics Server :=
  match res with
  | Err _ => Returns sv
  | Ok _ =>
      match rebuild paths w with
      | Ok (config, rules) => Returns (set_server_config config rules sv)
      | Err (BuildingConfig Panicked) => Panics
      | Err _ => Returns sv
      end
  end.

(** ** What is loaded *)

(** The key set and the rule table that the files hold. *)
Definition on_disk (paths : ReloadPaths) (w : World) (ech : option EchKeySet) (t : RuleTable) : Prop :=
  match rp_ech_key paths, ech with
  | Some path, Some ks => EchKey.load (w_fs w) path = Ok ks
  | None, None => True
  | _, _ => False
  end ∧ load_table w (rp_rules paths) = Ok t.

Lemma on_disk_keys_ok paths w ech t : on_disk paths w ech t → keys_ok ech.
Proof.
  intros [H _]. destruct (rp_ech_key paths), ech; try done. by apply load_pairs_ok in H.
Qed.

(** The configuration that belongs to a key set and a rule table. *)
Definition config_for (paths : ReloadPaths) (ech : option EchKeySet) (t : RuleTable) : Config :=
  server_calls (rp_cert paths) (rp_key paths) ech (allowed_sni_hosts t).

Lemma build_config_for paths w ech t :
  keys_ok ech →
  match build_config w (rp_cert paths) (rp_key paths) ech (allowed_sni_hosts t) with
  | Ok cfg => cfg = config_for paths ech t
  | Err e => ∃ c, e = Refused c ∧ c ∈ config_for paths ech t
  end.
Proof. intros Hk. by apply run_build_makes, makes_server. Qed.

Lemma rebuild_cases paths w :
  match rebuild paths w with
  | Ok (cfg, t) => ∃ ech, on_disk paths w ech t ∧ cfg = config_for paths ech t
  | Err (BuildingConfig e) => ∃ ech t c, on_disk paths w ech t ∧ e = Refused c ∧ c ∈ config_for paths ech t
  | Err _ => ∀ ech t, ¬ on_disk paths w ech t
  end.
Proof.
  unfold rebuild.
  assert (∀ ech, (match rp_ech_key paths, ech with
      | Some path, Some ks => EchKey.load (w_fs w) path = Ok ks
      | None, None => True | _, _ => False end) →
    match (rules ← map_err LoadingRules (load_table w (rp_rules paths));
           config ← map_err BuildingConfig
             (build_config w (rp_cert paths) (rp_key paths) ech (allowed_sni_hosts rules));
           mret (config, rules)) with
    | Ok (cfg, t) => ∃ ech, on_disk paths w ech t ∧ cfg = config_for paths ech t
    | Err (BuildingConfig e) => ∃ ech t c, on_disk paths w ech t ∧ e = Refused c ∧ c ∈ config_for paths ech t
    | Err _ => ∀ ech t, ¬ on_disk paths w ech t
    end) as H.
  { intros ech He. destruct (load_table w (rp_rules paths)) as [t|e] eqn:Et; cbn.
    - assert (on_disk paths w ech t) as Hd by by split.
      pose proof (build_config_for paths w ech t (on_disk_keys_ok _ _ _ _ Hd)) as Hb.
      destruct (build_config _ _ _ _ _) as [cfg|e]; cbn; [by exists ech|].
      destruct Hb as (c & -> & Hc). by exists ech, t, c.
    - intros ech' t [_ Ht]. congruence. }
  destruct (rp_ech_key paths) as [path|] eqn:Ep; [|by apply (H None)].
  destruct (EchKey.load (w_fs w) path) as [ks|e] eqn:Ek; cbn; [by apply (H (Some ks))|].
  intros [ks|] t [Hk _]; rewrite Ep in Hk; [congruence|done].
Qed.

Lemma rebuild_complete paths w ech t cfg :
  on_disk paths w ech t →
  build_config w (rp_cert paths) (rp_key paths) ech (allowed_sni_hosts t) = Ok cfg →
  rebuild paths w = Ok (config_for paths ech t, t).
Proof.
  intros Hd Hb. pose proof (build_config_for paths w ech t (on_disk_keys_ok _ _ _ _ Hd)) as Hc.
  rewrite Hb in Hc. subst cfg. destruct Hd as [He Ht]. unfold rebuild.
  destruct (rp_ech_key paths), ech; try done; rewrite ?He, Ht; cbn; by rewrite Hb.
Qed.

(** C23: A reload is all or nothing and never panics.  When the signal was read, the
    key set and the rules load and the TLS library accepts the calls, the new
    configuration is the one that belongs to exactly these keys and rules, its SNI
    guard included, and takes the place of the old one together with the rules; in
    every other case the server is left as it was.  Connections, flows and tasks
    are untouched either way. *)
Theorem reload_all_or_nothing (res : result io_error unit) (paths : ReloadPaths) (w : World)
    (sv : Server) :
  ∃ sv', reload_task res paths w sv = Returns sv' ∧
  (sv' = sv ∨
   is_ok res = true ∧ ∃ ech t, on_disk paths w ech t ∧
     sv' = set_server_config (config_for paths ech t) t sv) ∧
  (∀ ech t cfg, is_ok res = true → on_disk paths w ech t →
     build_config w (rp_cert paths) (rp_key paths) ech (allowed_sni_hosts t) = Ok cfg →
     sv' = set_server_config (config_for paths ech t) t sv) ∧
  sv_clients sv' = sv_clients sv ∧ sv_routes sv' = sv_routes sv ∧ sv_rt sv' = sv_rt sv.
Proof.
  pose proof (rebuild_cases paths w) as Hr. unfold reload_task.
  destruct res as [u|e0]; [|by exists sv; split_and!; auto].
  assert (∀ ech t cfg, on_disk paths w ech t →
    build_config w (rp_cert paths) (rp_key paths) ech (allowed_sni_hosts t) = Ok cfg →
    rebuild paths w = Ok (config_for paths ech t, t)) as Hok by apply rebuild_complete.
  destruct (rebuild paths w) as [[cfg t]|e] eqn:E.
  - destruct Hr as (ech & Hd & ->). eexists. split; [done|]. split_and!; try done.
    + right. split; [done|]. by exists ech, t.
    + intros ech' t' cfg' _ Hd' Hb. specialize (Hok _ _ _ Hd' Hb). congruence.
  - destruct e as [e|e|e].
    3: destruct Hr as (ech0 & t0 & c & _ & -> & _).
    all: exists sv; split_and!; try done; [by left|]; intros ech t cfg _ Hd Hb;
      by specialize (Hok _ _ _ Hd Hb).
Qed.
End Reload.
