(* ===== verification/Signals.v ===== *)
(** * SIGHUP (src/reload.rs)

    The signal that asks for a reload, from the process's signal mask to the reload task:
    on Linux it is blocked and read from a signalfd, elsewhere it is ignored.  A standard
    signal that is pending is pending once, however often it was raised. *)

From S2P Require Import Prelude.
From S2P Require Import Rules.
From S2P Require Import Base64.
From S2P Require Import EchKey.
From S2P Require Import Quiche.
From S2P Require Import Loopback.
From S2P Require Import Tls.
From S2P Require Import Server.
From S2P Require Import ServerProps.
From S2P Require Import Reload.

(** SIGHUP as the process sees it: blocked by the mask, ignored by its disposition,
    pending. *)
Record Signals := mkSignals { sg_blocked : bool; sg_ignored : bool; sg_pending : bool }.

(** How a process starts. *)
Definition default_signals : Signals := mkSignals false false false.

(** [SighupBlocked::new]: [sigprocmask(SIG_BLOCK, {SIGHUP})] on Linux, and
    [signal(SIGHUP, SIG_IGN)], which also discards a pending signal, elsewhere. *)
Definition sighup_blocked_new (linux : bool) (s : Signals) : Signals :=
  if linux then mkSignals true (sg_ignored s) (sg_pending s)
  else mkSignals (sg_blocked s) true false.

(** Raising SIGHUP: a blocked signal stays pending, an ignored one is dropped, and the
    default action ends the process ([None]). *)
Definition raise (s : Signals) : option Signals :=
  if sg_blocked s then Some (mkSignals (sg_blocked s) (sg_ignored s) true)
  else if sg_ignored s then Some s
  else None.

Section Signals.
Context `{B : Base64} {IoError JsonError : Type}.
Context {Conn H3 H3Config Sock Os : Type} {Chan : Type → Type}.
Local Abbreviation World := (World IoError JsonError).
Local Abbreviation Server := (Server Conn H3 H3Config Config Sock Os Chan).
Context (paths : ReloadPaths).

(** A signal, or a turn of the reload task, whose read succeeds or fails and whose
    rebuild finds the world [w]. *)
Inductive happening :=
| Hup
| Turn (res : result io_error unit) (w : World).

Record Reloading := mkReloading { rl_signals : Signals; rl_task : bool; rl_server : Server }.

(** Reading the signalfd waits for a pending signal and takes it; a failed read takes
    nothing, and the task goes round its loop. *)
Definition reload_turn (res : result io_error unit) (w : World) (st : Reloading) : panics Reloading :=
  let s := rl_signals st in
  if rl_task st && sg_pending s then
    sv ← reload_task res paths w (rl_server st);
    mret (mkReloading
            (match res with
             | Ok _ => mkSignals (sg_blocked s) (sg_ignored s) false
             | Err _ => s
             end) (rl_task st) sv)
  else mret st.

(** [None] is the death of the process. *)
Definition happens (ev : happening) (st : Reloading) : option (panics Reloading) :=
  match ev with
  | Hup => (λ s, Returns (mkReloading s (rl_task st) (rl_server st))) <$> raise (rl_signals st)
  | Turn res w => Some (reload_turn res w st)
  end.

Fixpoint happen (evs : list happening) (st : Reloading) : option (panics Reloading) :=
  match evs with
  | [] => Some (Returns st)
  | ev :: evs =>
      match happens ev st with
      | Some (Returns st) => happen evs st
      | r => r
      end
  end.

(** The process once [SighupBlocked::new] and [spawn_reload] have run. *)
Definition reloading (linux : bool) (sv : Server) : Reloading :=
  mkReloading (sighup_blocked_new linux default_signals) linux sv.

(** ** Properties *)
Lemma reload_task_returns res (w : World) (sv : Server) : ∃ sv', reload_task res paths w sv = Returns sv'.
Proof.
  pose proof (rebuild_cases paths w) as Hr. unfold reload_task. destruct res; [|by eexists].
  destruct (rebuild paths w) as [[cfg t]|[e|e|e]]; [by eexists..|].
  destruct Hr as (ech0 & t0 & c & _ & -> & _). by eexists.
Qed.

Definition safe (linux : bool) (st : Reloading) : Prop :=
  rl_task st = linux ∧
  if linux then sg_blocked (rl_signals st) = true
  else sg_blocked (rl_signals st) = false ∧ sg_ignored (rl_signals st) = true ∧
       sg_pending (rl_signals st) = false.

Lemma happens_safe linux ev st :
  safe linux st → ∃ st', happens ev st = Some (Returns st') ∧ safe linux st'.
Proof.
  intros [Ht Hs]. destruct ev as [|res w]; cbn [happens].
  - unfold raise. destruct linux.
    + rewrite Hs. eexists. by split.
    + destruct Hs as (Hb & Hi & Hp). rewrite Hb, Hi. eexists. by split_and!.
  - unfold reload_turn. destruct (rl_task st && sg_pending _) eqn:E; [|by exists st].
    destruct (reload_task_returns res w (rl_server st)) as [sv' ->]. eexists. split; [reflexivity|].
    apply andb_true_iff in E as [E1 E2]. rewrite E1 in Ht. subst linux.
    split; [done|]. cbn. by destruct res.
Qed.

Lemma happen_snoc evs ev st st' :
  happen evs st = Some (Returns st') → happen (evs ++ [ev]) st = happens ev st'.
Proof.
  revert st. induction evs as [|e evs IH]; intros st; cbn [app happen].
  - intros [= ->]. by destruct (happens ev st') as [[]|].
  - destruct (happens e st) as [[st1|]|]; [apply IH|done..].
Qed.

(** The last signal was followed by a reload, which left the server as it is in [st']. *)
Definition reloaded (linux : bool) (evs : list happening) (sv : Server) (st' : Reloading) : Prop :=
  ∃ evs1 w evs2 st1, evs = evs1 ++ Turn (Ok tt) w :: evs2 ∧ Hup ∈ evs1 ∧ (Hup ∉ evs2) ∧
    happen evs1 (reloading linux sv) = Some (Returns st1) ∧
    reload_task (Ok tt) paths w (rl_server st1) = Returns (rl_server st').

(** C24: A SIGHUP is neither deadly nor lost.  Once the signal is set up, no sequence of
    signals and turns of the reload task ends or panics the process.  Elsewhere than on
    Linux the server is left as it was.  On Linux, after a signal either one is still
    pending for the reload task, or a reload has been made for it: one that read the
    files after the last signal, and the server now is as that reload left it. *)
Theorem sighup_not_lost (linux : bool) (evs : list happening) (sv : Server) :
  ∃ st', happen evs (reloading linux sv) = Some (Returns st') ∧
    (linux = false → rl_server st' = sv) ∧
    (linux = true → Hup ∈ evs → sg_pending (rl_signals st') = false → reloaded linux evs sv st').
Proof.
  assert (∃ st', happen evs (reloading linux sv) = Some (Returns st') ∧ safe linux st' ∧
    (linux = false → rl_server st' = sv) ∧
    (linux = true → Hup ∈ evs → sg_pending (rl_signals st') = false → reloaded linux evs sv st'))
    as (st' & H1 & _ & H2 & H4); [|by exists st'].
  induction evs as [|ev evs (st & Hr & Hs & Hn & Hl)] using rev_ind.
  { exists (reloading linux sv). split_and!; [done|by destruct linux|done|]. by intros _ ?%not_elem_of_nil. }
  destruct (happens_safe linux ev st Hs) as (st' & He & Hs'). exists st'.
  rewrite (happen_snoc _ _ _ _ Hr). split_and!; [done|done|..].
  - intros ->. rewrite <- Hn by done. destruct ev as [|res w]; cbn [happens] in He.
    + by apply fmap_Some in He as (s & _ & [= ->]).
    + unfold reload_turn in He. destruct Hs as [Ht _]. rewrite Ht in He. by injection He as <-.
  - intros -> Hin Hp. destruct ev as [|res w]; cbn [happens] in He.
    { apply fmap_Some in He as (s & Hs1 & [= ->]). unfold raise in Hs1. destruct Hs as [_ Hb].
      rewrite Hb in Hs1. injection Hs1 as <-. done. }
    apply elem_of_app in Hin as [Hin|[=]%list_elem_of_singleton].
    unfold reload_turn in He. destruct Hs as [Ht _]. rewrite Ht in He. cbn [andb] in He.
    destruct (sg_pending (rl_signals st)) eqn:Ep.
    + destruct (reload_task res paths w (rl_server st)) as [sv'|] eqn:Et; [|done].
      injection He as <-. destruct res as [[]|e]; [|cbn in Hp; congruence].
      exists evs, w, [], st. split_and!; try done. by intros ?%not_elem_of_nil.
    + injection He as <-. destruct (Hl eq_refl Hin eq_refl) as (evs1 & w' & evs2 & st1 & -> & H1 & H2 & H4 & H5).
      exists evs1, w', (evs2 ++ [Turn res w]), st1. split_and!; try done.
      * by rewrite <- app_assoc.
      * rewrite elem_of_app, list_elem_of_singleton. by intros [|].
Qed.
End Signals.
