(* ===== verification/Main.v ===== *)
(** * The commands (src/main.rs, src/cli.rs)

    [serve] up to the main loop, which Server.v and Listen.v model, and the states the
    running server goes through with its reload task; [client] up to [run_proxy] of
    Proxy.v; [gen_ech_key]; and [main], which chooses between them. *)

From Stdlib Require Import Strings.Byte.
From S2P Require Import Prelude.
From S2P Require Import RustStr.
From S2P Require Import Net.
From S2P Require Import Endpoint.
From S2P Require Import Rules.
From S2P Require Import EchConfig.
From S2P Require Import Base64.
From S2P Require Import EchKey.
From S2P Require Import Keygen.
From S2P Require Import Quiche.
From S2P Require Import Loopback.
From S2P Require Import Io.
From S2P Require Import Sockets.
From S2P Require Import Tls.
From S2P Require Import Client.
From S2P Require Import Server.
From S2P Require Import ServerInv.
From S2P Require Import ServerProps.
From S2P Require Import Proxy.
From S2P Require Import Reload.
From S2P Require Import Signals.

Record ServeArgs := mkServeArgs {
  sa_addr : SocketAddr;
  sa_rules : Path;
  sa_cert : Path;
  sa_key : Path;
  sa_ech_key : option Path;
}.

Record ClientArgs := mkClientArgs {
  ca_endpoint : bytes;
  ca_listen : SocketAddr;
  ca_proxy_addr : option SocketAddr;
  ca_insecure : bool;
  ca_ca : option Path;
  ca_ech_config : option bytes;
  ca_ech_config_file : option Path;
}.

Record GenEchArgs := mkGenEchArgs { ga_public_name : bytes }.

Definition reload_paths (args : ServeArgs) : ReloadPaths :=
  mkReloadPaths (sa_cert args) (sa_key args) (sa_ech_key args) (sa_rules args).

(** ** Logging *)

Inductive LevelFilter := LevelOff | LevelError | LevelWarn | LevelInfo | LevelDebug | LevelTrace.

(** [level] is the value of [RUST_LOG]. *)
Definition init_logging (level : option bytes) : LevelFilter :=
  match level with
  | Some l =>
      if bool_decide (l = str "off") then LevelOff
      else if bool_decide (l = str "error") then LevelError
      else if bool_decide (l = str "warn") then LevelWarn
      else if bool_decide (l = str "debug") then LevelDebug
      else if bool_decide (l = str "trace") then LevelTrace
      else LevelInfo
  | None => LevelInfo
  end.

(** ** serve *)

Section Serve.
Context `{B : Base64} {IoError JsonError : Type}.
Context {Conn H3 H3Config Sock Os : Type} {Chan : Type → Type}.
Context `{SA : SocketApi Sock Os} `{M : Mpsc Chan}.
Context (linux : bool) (sock_local_addr : Sock → result io_error SocketAddr).
Context (h3_new : result H3Error H3Config) (enable_extended_connect : H3Config → bool → H3Config).
Local Abbreviation World := (World IoError JsonError).
Local Abbreviation Server := (Server Conn H3 H3Config Config Sock Os Chan).

Inductive ServeError :=
| ServeRules (e : LoadError IoError JsonError)
| ServeEchKeys (e : KeyError IoError)
| ServeConfig (e : TlsError)
| ServeBind (e : BindError)
| ServeSpawn (e : SpawnError)
| ServeNew (e : NewError).

(** The key set and the base64 text of its configurations that is printed to be
    published. *)
Definition serve_ech (ech_key : option Path) (w : World) :
    panics (result ServeError (option (EchKeySet * bytes))) :=
  match ech_key with
  | None => Returns (Ok None)
  | Some path =>
      match EchKey.load (w_fs w) path with
      | Err e => Returns (Err (ServeEchKeys e))
      | Ok set =>
          list ← config_list_bytes set;
          Returns (Ok (Some (set, encode_string list)))
      end
  end.

(** [serve] before the runtime is up: the configuration, the rules, and what was
    printed. *)
Definition serve_setup (args : ServeArgs) (w : World) :
    panics (result ServeError (Config * RuleTable * option bytes)) :=
  match load_table w (sa_rules args) with
  | Err e => Returns (Err (ServeRules e))
  | Ok rule_table =>
      ech ← serve_ech (sa_ech_key args) w;
      match ech with
      | Err e => Returns (Err e)
      | Ok ech =>
          match build_config w (sa_cert args) (sa_key args) (fst <$> ech) (allowed_sni_hosts rule_table) with
          | Ok config => Returns (Ok (config, rule_table, snd <$> ech))
          | Err Panicked => Panics
          | Err e => Returns (Err (ServeConfig e))
          end
      end
  end.

(** The future that [block_on] runs, up to [server.run()]. *)
Definition serve_start (args : ServeArgs) (config : Config) (rule_table : RuleTable)
    (signalfd from_std : result io_error unit) (os : Os) : result ServeError Server * Os :=
  match bind_udp linux os (sa_addr args) with
  | (Err e, os) => (Err (ServeBind e), os)
  | (Ok socket, os) =>
      let socket := enlarge_udp_buffers socket in
      match spawn_reload linux signalfd from_std with
      | Err e => (Err (ServeSpawn e), os)
      | Ok _ =>
          (map_err ServeNew (server_new socket (sock_local_addr socket)
             (build_h3_config h3_new enable_extended_connect) config rule_table os), os)
      end
  end.

Definition serve (args : ServeArgs) (w : World) (signalfd from_std : result io_error unit) (os : Os) :
    panics (result ServeError Server * Os) :=
  setup ← serve_setup args w;
  match setup with
  | Err e => Returns (Err e, os)
  | Ok (config, rule_table, _) =>
      Returns (serve_start args config rule_table signalfd from_std os)
  end.
End Serve.

(** ** client and gen-ech-key *)

Section ClientCommand.
Context `{B : Base64} {IoError : Type} (read_to_string : Path → result IoError bytes).

Inductive ClientError :=
| BadClientEndpoint (e : EndpointError)
| ReadingEchFile (e : IoError)
| InvalidEchBase64.

(** clap rejects giving both the list and the file. *)
Definition load_ech_config (args : ClientArgs) : result ClientError (option bytes) :=
  let decode (b64 : bytes) :=
    match decode_vec b64 with Some l => Ok (Some l) | None => Err InvalidEchBase64 end in
  match ca_ech_config args, ca_ech_config_file args with
  | Some s, _ => decode (trim s)
  | None, Some path => s ← map_err ReadingEchFile (read_to_string path); decode (trim s)
  | None, None => Ok None
  end.

(** The options [client] hands to [run_proxy]. *)
Definition client (args : ClientArgs) : result ClientError ProxyOptions :=
  endpoint ← map_err BadClientEndpoint (Endpoint.parse (ca_endpoint args));
  let verify := if ca_insecure args then Insecure else Roots (ca_ca args) in
  ech ← load_ech_config args;
  mret (mkProxyOptions (mkParams endpoint (ca_proxy_addr args) verify ech) (ca_listen args)).
End ClientCommand.

Definition gen_ech_key `{Base64} (ffi : HpkeFfi) (random : byte) (stdout_ok stderr_ok : bool)
    (args : GenEchArgs) : panics (result KeygenError Output) :=
  Keygen.run ffi random stdout_ok stderr_ok (ga_public_name args).

(** ** main *)

Module Cli.
Inductive Command :=
| Serve (args : ServeArgs)
| Client (args : ClientArgs)
| GenEchKey (args : GenEchArgs).
End Cli.

Section Dispatch.
Context `{B : Base64} {IoError JsonError : Type}.
Context {Conn H3 H3Config Sock Os : Type} {Chan : Type → Type}.
Context `{SA : SocketApi Sock Os} `{M : Mpsc Chan}.
Context (linux : bool) (sock_local_addr : Sock → result io_error SocketAddr).
Context (h3_new : result H3Error H3Config) (enable_extended_connect : H3Config → bool → H3Config).

(** What the process is when [main] has got to its loop: a server together with its
    SIGHUP handling, a client, or the output of the key generator. *)
Inductive Outcome :=
| Serving (r : result (ServeError (IoError := IoError) (JsonError := JsonError))
                (Reloading (Conn := Conn) (H3 := H3) (H3Config := H3Config) (Sock := Sock) (Os := Os)
                   (Chan := Chan)))
| Proxying (r : result (ClientError (IoError := IoError)) 
                  (result BindError (Proxy (Conn := Conn) (H3 := H3) (H3Config := H3Config) (Sock := Sock)
                     (Os := Os) (Chan := Chan))))
| Generating (r : result KeygenError Output).

(** [main], given what the process finds outside: the files and resolver, the answers of
    [signalfd] and [File::from_std], the operating system, and the parts of the key
    generator. *)
Definition main (rust_log : option bytes) (cmd : Cli.Command) (w : World IoError JsonError)
    (signalfd from_std : result io_error unit) (os : Os) (ffi : HpkeFfi) (random : byte)
    (stdout_ok stderr_ok : bool) : LevelFilter * panics Outcome :=
  (init_logging rust_log,
   match cmd with
   | Cli.Serve args =>
       r ← serve linux sock_local_addr h3_new enable_extended_connect args w signalfd from_std os;
       mret (Serving (reloading linux <$> r.1))
   | Cli.Client args =>
       mret (Proxying ((λ opts, (run_proxy linux opts os).1) <$> client (w_read_to_string w) args))
   | Cli.GenEchKey args =>
       r ← gen_ech_key ffi random stdout_ok stderr_ok args;
       mret (Generating r)
   end).
End Dispatch.

(** ** Starting up *)

Section Startup.
Context `{BL : Base64Laws} {IoError JsonError : Type}.
Local Abbreviation World := (World IoError JsonError).

Lemma encode_list_body_ok ps :
  Forall pair_ok ps → ∃ body, encode_list_body (map config ps) = Returns body.
Proof.
  induction 1 as [|p ps [_ [b Hb]] _ [body IH]]; cbn [map encode_list_body]; [by eexists|].
  rewrite Hb, IH. by eexists.
Qed.

(** The list of a loaded key set fails to encode only because of its length. *)
Lemma config_list_outcome ks :
  Forall pair_ok (pairs ks) →
  ∃ body, encode_list_body (map config (pairs ks)) = Returns body ∧
    config_list_bytes ks =
    if (Z.of_nat (length body) <=? 65535)%Z then Returns (to_be_bytes 2 (Z.of_nat (length body)) ++ body)
    else Panics.
Proof.
  intros [body Hb]%encode_list_body_ok. exists body. split; [done|].
  unfold config_list_bytes, encode_list. rewrite Hb. cbn [mbind panics_bind].
  destruct (Z.leb_spec (Z.of_nat (length body)) 65535).
  - by rewrite try_from_in_width by (unfold in_width; lia).
  - destruct (try_from 16 _) eqn:E; [|done]. apply try_from_Some in E as [_ E]. unfold in_width in E. lia.
Qed.

(** How the files and the TLS library decide the outcome of the setup. *)
Lemma serve_setup_cases args (w : World) ech t :
  on_disk (reload_paths args) w ech t →
  serve_setup args w =
  match (match ech with Some ks => l ← config_list_bytes ks; Returns (Some l) | None => Returns None end) with
  | Panics => Panics
  | Returns o =>
      match build_config w (sa_cert args) (sa_key args) ech (allowed_sni_hosts t) with
      | Ok config => Returns (Ok (config, t, encode_string <$> o))
      | Err e => Returns (Err (ServeConfig e))
      end
  end.
Proof.
  intros Hd. pose proof (build_config_for (reload_paths args) w ech t (on_disk_keys_ok _ _ _ _ Hd)) as Hb.
  destruct Hd as [He Ht]. unfold serve_setup, serve_ech. cbn [reload_paths rp_cert rp_key rp_ech_key rp_rules] in *.
  rewrite Ht. destruct (sa_ech_key args) as [path|], ech as [ks|]; try done.
  - rewrite He. destruct (config_list_bytes ks) as [l|]; cbn; [|done].
    destruct (build_config _ _ _ _ _); [done|]. by destruct Hb as (c & -> & _).
  - cbn. destruct (build_config _ _ _ _ _); [done|]. by destruct Hb as (c & -> & _).
Qed.

Lemma serve_setup_disk args (w : World) cfg t p :
  serve_setup args w = Returns (Ok (cfg, t, p)) → ∃ ech, on_disk (reload_paths args) w ech t.
Proof.
  unfold serve_setup. destruct (load_table w (sa_rules args)) as [t'|e] eqn:Et; [|done].
  unfold serve_ech. destruct (sa_ech_key args) as [path|] eqn:Ep; cbn.
  - destruct (EchKey.load (w_fs w) path) as [ks|e] eqn:Ek; [|done]. cbn.
    destruct (config_list_bytes ks); [|done]. cbn.
    destruct (build_config _ _ _ _ _) as [|[]]; try done. intros [= _ <- _].
    exists (Some ks). unfold on_disk. cbn. by rewrite Ep.
  - destruct (build_config _ _ _ _ _) as [|[]]; try done. intros [= _ <- _].
    exists None. unfold on_disk. cbn. by rewrite Ep.
Qed.

(** The configurations of the keys fit one ECHConfigList. *)
Definition list_fits (ech : option EchKeySet) : Prop :=
  match ech with
  | Some ks => ∃ body, encode_list_body (map config (pairs ks)) = Returns body ∧
      (Z.of_nat (length body) ≤ 65535)%Z
  | None => True
  end.

Lemma serve_setup_decides args (w : World) ech t :
  on_disk (reload_paths args) w ech t →
  (list_fits ech ∧ ∃ o, serve_setup args w =
     match build_config w (sa_cert args) (sa_key args) ech (allowed_sni_hosts t) with
     | Ok config => Returns (Ok (config, t, o))
     | Err e => Returns (Err (ServeConfig e))
     end) ∨
  (¬ list_fits ech ∧ serve_setup args w = Panics).
Proof.
  intros Hd. rewrite (serve_setup_cases _ _ _ _ Hd).
  pose proof (on_disk_keys_ok _ _ _ _ Hd) as Hk. destruct ech as [ks|]; [|by left; eauto].
  destruct (config_list_outcome ks Hk) as (body & Hb & ->). unfold list_fits.
  destruct (Z.leb_spec (Z.of_nat (length body)) 65535).
  - left. split; [by exists body|]. by eexists.
  - right. split; [|done]. intros (body' & Hb' & Hl). assert (body' = body) as -> by congruence. lia.
Qed.

Lemma serve_setup_panics_disk args (w : World) :
  serve_setup args w = Panics → ∃ ech t, on_disk (reload_paths args) w ech t.
Proof.
  unfold serve_setup, serve_ech, on_disk. cbn [reload_paths rp_ech_key rp_rules].
  destruct (load_table w (sa_rules args)) as [t|]; [|done].
  destruct (sa_ech_key args) as [path|]; [|by exists None, t].
  destruct (EchKey.load (w_fs w) path) as [ks|]; [by exists (Some ks), t|done].
Qed.

(** C25: The setup of [serve] succeeds exactly when the rules and the ECH keys load, the
    configurations of the keys fit one ECHConfigList (65535 bytes) and the TLS library
    accepts the calls; it then has the rules that were loaded and the configuration
    that belongs to them and the keys.  It panics exactly when everything loads
    but the list is too long. *)
Theorem serve_setup_iff args (w : World) :
  (∀ cfg t, (∃ p, serve_setup args w = Returns (Ok (cfg, t, p))) ↔
     ∃ ech, on_disk (reload_paths args) w ech t ∧ list_fits ech ∧
       cfg = config_for (reload_paths args) ech t ∧
       build_config w (sa_cert args) (sa_key args) ech (allowed_sni_hosts t) = Ok cfg) ∧
  (serve_setup args w = Panics ↔ ∃ ech t, on_disk (reload_paths args) w ech t ∧ ¬ list_fits ech).
Proof.
  split.
  - intros cfg t. split.
    + intros [p Hs]. destruct (serve_setup_disk _ _ _ _ _ Hs) as [ech Hd].
      pose proof (build_config_for (reload_paths args) w ech t (on_disk_keys_ok _ _ _ _ Hd)) as Hb.
      cbn [reload_paths rp_cert rp_key] in Hb.
      exists ech. destruct (serve_setup_decides _ _ _ _ Hd) as [[Hf [o Ho]]|[_ Ho]]; [|congruence].
      destruct (build_config _ _ _ _ _) as [cfg'|e]; [|congruence].
      assert (cfg' = cfg) as -> by congruence. done.
    + intros (ech & Hd & Hf & _ & Hb). destruct (serve_setup_decides _ _ _ _ Hd) as [[_ [o Ho]]|[Hn _]]; [|done].
      rewrite Hb in Ho. by exists o.
  - split.
    + intros Hs. destruct (serve_setup_panics_disk _ _ Hs) as (ech & t & Hd). exists ech, t.
      split; [done|]. destruct (serve_setup_decides _ _ _ _ Hd) as [[_ [o Ho]]|[Hn _]]; [|done].
      rewrite Hs in Ho. by destruct (build_config _ _ _ _ _).
    + intros (ech & t & Hd & Hn). by destruct (serve_setup_decides _ _ _ _ Hd) as [[Hf _]|[_ Ho]].
Qed.

Lemma load_ech_config_padded (rts : Path → result IoError bytes) args (l pre post : bytes) :
  forallb ws1 pre = true → forallb ws1 post = true →
  ca_ech_config args = Some (pre ++ encode_string l ++ post) →
  load_ech_config rts args = Ok (Some l).
Proof.
  intros H1 H2 Ha. unfold load_ech_config. rewrite Ha.
  rewrite trim_padded by (done || apply b64_graphic, encode_string_alphabet).
  by rewrite decode_encode_string.
Qed.

(** C26: What a server with ECH prints to be published is what a client can use.  Given
    as the client's --ech-config, with any ASCII whitespace around it, it decodes to an
    ECHConfigList whose body holds exactly the configurations of the server's keys,
    in order. *)
Theorem published_ech_usable args (w : World) cfg t (text pre post : bytes)
    (rts : Path → result IoError bytes) (cargs : ClientArgs) :
  serve_setup args w = Returns (Ok (cfg, t, Some text)) →
  forallb ws1 pre = true → forallb ws1 post = true →
  ca_ech_config cargs = Some (pre ++ text ++ post) →
  ∃ ks list body r, on_disk (reload_paths args) w (Some ks) t ∧
    load_ech_config rts cargs = Ok (Some list) ∧
    list = to_be_bytes 2 (Z.of_nat (length body)) ++ body ∧
    decode_many (length (pairs ks)) (Reader.new body) = (Ok (map config (pairs ks)), r) ∧
    Reader.is_empty r = true.
Proof.
  intros Hs Hpre Hpost Ha. destruct (serve_setup_disk _ _ _ _ _ Hs) as [ech Hd].
  rewrite (serve_setup_cases _ _ _ _ Hd) in Hs.
  destruct ech as [ks|]; [|by destruct (build_config _ _ _ _ _)].
  destruct (config_list_bytes ks) as [l|] eqn:El; [|done]. cbn in Hs.
  destruct (build_config _ _ _ _ _); [|done]. simplify_eq/=.
  destruct (encode_list_decodes (map config (pairs ks)) l) as (body & r & Hl & _ & Hdec & He); [|done|].
  { apply Forall_map. eapply Forall_impl; [exact (on_disk_keys_ok _ _ _ _ Hd)|]. by intros p [? _]. }
  rewrite length_map in Hdec. exists ks, l, body, r. split_and!; try done.
  eapply load_ech_config_padded; [exact Hpre|exact Hpost|exact Ha].
Qed.
End Startup.

(** ** The running server *)

Section Running.
Context `{B : Base64} {IoError JsonError : Type}.
Context {Conn H3 H3Config Sock Os : Type} {Chan : Type → Type}.
Context `{Q : Quiche Conn H3 H3Config} {QT : QuicheStreams Q}.
Context {QV : QuicheServer Conn Config} {QA : QuicheAccepts QV}.
Context {U : UdpSys Sock} {SA : SocketApi Sock Os} {M : Mpsc Chan} `{HI : HashIter}.
Context (linux : bool) (sock_local_addr : Sock → result io_error SocketAddr).
Context (h3_new : result H3Error H3Config) (enable_extended_connect : H3Config → bool → H3Config).
Local Abbreviation World := (World IoError JsonError).
Local Abbreviation Server := (Server Conn H3 H3Config Config Sock Os Chan).
Implicit Types (sv : Server).

(** The steps of the server other than those of the reload task leave the
    configuration and the rules alone. *)
Definition same_setup sv sv' : Prop := sv_config sv' = sv_config sv ∧ sv_rules sv' = sv_rules sv.

Lemma same_setup_refl sv : same_setup sv sv.
Proof. done. Qed.

Lemma same_setup_trans sv1 sv2 sv3 : same_setup sv1 sv2 → same_setup sv2 sv3 → same_setup sv1 sv3.
Proof. unfold same_setup. intuition congruence. Qed.

Lemma fold_same_setup {A} (f : Server → A → Server) l sv :
  (∀ sv a, same_setup sv (f sv a)) → same_setup sv (fold_left f l sv).
Proof.
  intros Hf. revert sv. induction l as [|a l IH]; intros sv; simpl; [done|].
  eapply same_setup_trans; [apply Hf|apply IH].
Qed.

Lemma deliver_same fuel now sv k pkt from sv' :
  deliver linux fuel now sv k pkt from = Some (Returns sv') → same_setup sv sv'.
Proof.
  unfold deliver. destruct (sv_clients sv !! k) as [cl0|]; [|done].
  destruct (recv _ _ _ _) as [[n|e] c]; [|by intros [= <-]].
  destruct (process_client _ _ _ _ _ _ _ _) as [[[cl rt]|]|]; try done. by intros [= <-].
Qed.

Lemma accept_same sv rnd d from r sv' : accept sv rnd d from = (r, sv') → same_setup sv sv'.
Proof.
  unfold accept. destruct (quiche_accept _ _ _ _) as [r0 cfg] eqn:E. apply accept_keeps in E as ->.
  by destruct r0; intros [= <- <-].
Qed.

Lemma on_packet_same fuel now rnd sv pkt from sv' :
  on_packet linux fuel now rnd sv pkt from = Some (Returns sv') → same_setup sv sv'.
Proof.
  unfold on_packet. destruct (header_from_slice _ _) as [hdr|e]; [|by intros [= <-]].
  destruct (route _ _); [by apply deliver_same|].
  destruct (negb _); [by intros [= <-]|]. destruct (negb _).
  - unfold send_version_negotiation. destruct (negotiate_version _ _ _); [|by intros [= <-]].
    destruct (send_udp _ _ _ _ _) as [[r s]|]; [|done]. by intros [= <-].
  - destruct (accept _ _ _ _) as [[k|e] sv1] eqn:E; apply accept_same in E; [|by intros [= <-]].
    intros H%deliver_same. by eapply same_setup_trans.
Qed.

Lemma drain_targets_same fuel now sv sv' : drain_targets fuel now sv = Some sv' → same_setup sv sv'.
Proof.
  unfold drain_targets.
  apply (loop_invariant _ (same_setup sv) (same_setup sv)); [..|apply same_setup_refl].
  - intros sv1 sv2 H. destruct (try_recv _) as [[tc|] ch]; [|done]. intros [= <-].
    eapply same_setup_trans; [exact H|]. unfold on_target_payload. cbn [sv_clients].
    destruct (sv_clients sv1 !! _); [|done]. by destruct (dgram_send _ _).
  - intros sv1 sv2 H. by destruct (try_recv _) as [[tc|] ch]; intros [= <-].
Qed.

Lemma step_same sv sv' : step linux (λ _, False) sv sv' → same_setup sv sv'.
Proof.
  destruct 1 as [fuel now rnd pkt from sv' _ H|fuel now sv' H| |now|fuel k sv' H| |fuel i wk sv' H|cfg t []|];
    [by apply on_packet_same in H|by apply drain_targets_same in H|done| | | | |done].
  - apply fold_same_setup. intros s p. unfold sweep_client. by destruct (fold_left _ _ _) as [[c F] rt].
  - unfold flush_client in H. destruct (sv_clients sv !! k); [|by injection H as <-].
    destruct (flush_connection _ _ _ _) as [[r st]|]; [|done]. by injection H as <-.
  - apply fold_same_setup. intros s p. unfold reap_client. by destruct (is_closed _).
  - unfold run_task in H. destruct (rt_tasks (sv_rt sv) !! i); [|by injection H as <-].
    destruct (target_task _ _ _ _) as [[o ch]|]; [|done]. by injection H as <-.
Qed.

Lemma step_allows (A1 A2 : RuleTable → Prop) sv sv' :
  (∀ t, A1 t → A2 t) → step linux A1 sv sv' → step linux A2 sv sv'.
Proof.
  intros HA. destruct 1;
    [eapply step_packet|eapply step_targets|apply step_timeout|apply step_sweep|eapply step_flush
    |apply step_reap|eapply step_task|apply step_reload|eapply step_recv]; eauto.
Qed.

(** The states of a server started by [serve], with what it has read: the world as
    [serve] found it, then the worlds that the reloads have found, in order.  In between
    are steps of the main loop and of the target tasks.  A reload whose signal could not
    be read does not look at the files. *)
Inductive serving (args : ServeArgs) : list World → Server → Prop :=
| serving_starts (w : World) signalfd from_std os os' sv :
    serve linux sock_local_addr h3_new enable_extended_connect args w signalfd from_std os
      = Returns (Ok sv, os') → serving args [w] sv
| serving_steps ws sv sv' : serving args ws sv → step linux (λ _, False) sv sv' → serving args ws sv'
| serving_reloads ws (res : result io_error unit) (w : World) sv sv' :
    linux = true → serving args ws sv → reload_task res (reload_paths args) w sv = Returns sv' →
    serving args (if is_ok res then ws ++ [w] else ws) sv'.

(** The rule file held the table [t] when one of the worlds [ws] was read. *)
Definition was_read (args : ServeArgs) (ws : list World) (t : RuleTable) : Prop :=
  ∃ w, w ∈ ws ∧ load_table w (sa_rules args) = Ok t.

(** The last of the worlds [ws] of which everything was accepted. *)
Definition last_accepted (args : ServeArgs) (ws : list World) (w : World) : Prop :=
  ∃ ws1 ws2, ws = ws1 ++ w :: ws2 ∧ ∀ w', w' ∈ ws2 → is_ok (rebuild (reload_paths args) w') = false.

Lemma was_read_app args ws ws' t : was_read args ws t → was_read args (ws ++ ws') t.
Proof. intros (w & Hw & Ht). exists w. split; [|done]. apply elem_of_app. by left. Qed.

Lemma last_accepted_fails args ws w w' :
  last_accepted args ws w → is_ok (rebuild (reload_paths args) w') = false →
  last_accepted args (ws ++ [w']) w.
Proof.
  intros (ws1 & ws2 & -> & Hf) Hw. exists ws1, (ws2 ++ [w']). split; [by rewrite <- app_assoc|].
  intros v [Hv| ->%list_elem_of_singleton]%elem_of_app; [by apply Hf|done].
Qed.

Lemma last_accepted_snoc args ws w : last_accepted args (ws ++ [w]) w.
Proof. exists ws, []. split; [done|]. by intros w' Hw%not_elem_of_nil. Qed.

Lemma reload_task_cases (res : result io_error unit) paths (w : World) sv sv' :
  reload_task res paths w sv = Returns sv' →
  sv' = sv ∧ (is_ok res = true → is_ok (rebuild paths w) = false) ∨
  is_ok res = true ∧ ∃ ech t, on_disk paths w ech t ∧
    sv' = set_server_config (config_for paths ech t) t sv.
Proof.
  pose proof (rebuild_cases paths w) as Hr. unfold reload_task.
  destruct res; [|intros [= <-]; by left]. destruct (rebuild paths w) as [[cfg t]|[| |[]]];
    try done; intros [= <-]; [right|by left..].
  destruct Hr as (ech & Hd & ->). split; [done|]. by exists ech, t.
Qed.

Lemma serve_Ok args (w : World) sfd fst os os' sv :
  serve linux sock_local_addr h3_new enable_extended_connect args w sfd fst os = Returns (Ok sv, os') →
  ∃ ech t so ad h3, on_disk (reload_paths args) w ech t ∧
    server_new so ad h3 (config_for (reload_paths args) ech t) t os' = Ok sv.
Proof.
  unfold serve. intros H. unbind H as (setup & Hs & H). destruct setup as [[[cfg t] p]|e]; [|done].
  destruct (serve_setup_disk _ _ _ _ _ Hs) as [ech Hd]. rewrite (serve_setup_cases _ _ _ _ Hd) in Hs.
  pose proof (build_config_for (reload_paths args) w ech t (on_disk_keys_ok _ _ _ _ Hd)) as Hb.
  cbn [reload_paths rp_cert rp_key] in Hb.
  assert (cfg = config_for (reload_paths args) ech t) as ->.
  { destruct (match ech with Some _ => _ | None => _ end) as [o|]; [|done].
    destruct (build_config _ _ _ _ _); [|done]. congruence. }
  injection H as H. unfold serve_start in H. destruct (bind_udp _ _ _) as [[so|e] os1]; [|done].
  destruct (spawn_reload _ _ _); [|done]. injection H as H <-.
  exists ech, t. eexists _, _, _. split; [done|].
  destruct (server_new _ _ _ _ _ _) eqn:E; [|done]. injection H as ->. exact E.
Qed.

Lemma serving_setup args ws sv :
  serving args ws sv → ∃ (w : World) ech, last_accepted args ws w ∧
    on_disk (reload_paths args) w ech (sv_rules sv) ∧
    sv_config sv = config_for (reload_paths args) ech (sv_rules sv).
Proof.
  induction 1 as [w sfd fst os os' sv H|ws sv sv' _ IH H|ws res w sv sv' _ _ IH H].
  - apply serve_Ok in H as (ech & t & so & ad & h3 & Hd & Hn). exists w, ech.
    split; [apply (last_accepted_snoc args [])|].
    unfold server_new in Hn. unbind Hn as (a & _ & Hn). unbind Hn as (h & _ & [= <-]). done.
  - apply step_same in H as [-> ->]. done.
  - apply reload_task_cases in H as [[-> Hf]|[Hr (ech & t & Hd & ->)]].
    + destruct IH as (w0 & ech & Hl & IH). exists w0, ech. split; [|done].
      destruct (is_ok res); [|done]. by apply last_accepted_fails; [|apply Hf].
    + exists w, ech. rewrite Hr. split; [apply last_accepted_snoc|done].
Qed.

(** Serving is one of the ways a server runs in ServerInv.v, with the tables that were
    read from the rule file. *)
Lemma reachable_extend (A1 A2 : RuleTable → Prop) sv :
  (∀ t, A1 t → A2 t) → reachable linux A1 sv → reachable linux A2 sv.
Proof.
  intros HA (sv0 & a & b & c & d & e & f & H1 & H2 & H4).
  exists sv0, a, b, c, d, e, f. split; [done|]. split; [by apply HA|].
  clear -HA H4. induction H4 as [|x y z Hxy _ IH]; [done|].
  eapply rtc_l; [|exact IH]. by apply (step_allows A1).
Qed.

Lemma reachable_next (A : RuleTable → Prop) sv sv' :
  reachable linux A sv → step linux A sv sv' → reachable linux A sv'.
Proof.
  intros (sv0 & a & b & c & d & e & f & H1 & H2 & H4) Hs.
  exists sv0, a, b, c, d, e, f. split; [done|]. split; [done|]. by eapply rtc_r.
Qed.

Lemma serving_reachable args ws sv : serving args ws sv → reachable linux (was_read args ws) sv.
Proof.
  induction 1 as [w sfd fst os os' sv H|ws sv sv' _ IH H|ws res w sv sv' _ _ IH H].
  - apply serve_Ok in H as (ech & t & so & ad & h3 & Hd & Hn).
    eexists sv, _, _, _, _, _, _. split; [exact Hn|]. split; [|done].
    exists w. split; [by apply list_elem_of_singleton|]. by destruct Hd.
  - eapply reachable_next; [exact IH|]. by apply (step_allows (λ _, False)).
  - apply reload_task_cases in H as [[-> _]|[-> (ech & t & Hd & ->)]].
    + destruct (is_ok res); [|done]. eapply reachable_extend; [|exact IH]. intros t. apply was_read_app.
    + eapply reachable_next; [eapply reachable_extend; [|exact IH]; intros t'; apply was_read_app|].
      apply step_reload. exists w. split; [set_solver|]. by destruct Hd.
Qed.

(** C2: Whatever the clients, the targets and the operator do, the server is
    always set up from its files as it last accepted them: the rule table in force and
    the configuration are those of the last reading, by [serve] or by a reload, in which
    everything loaded and was accepted.  The SNI guard is the one of that table: a
    handshake started now is let through exactly when its server name is the host of a
    current rule.  And every target task is connected to the target of a rule that one
    of these readings found in the rule file, and to nothing else. *)
Theorem serving_consistent {SL : SocketLaws SA} {SI : SocketIoLaws _ SL U} args ws sv :
  serving args ws sv →
  (∃ w ech, last_accepted args ws w ∧ on_disk (reload_paths args) w ech (sv_rules sv) ∧
     sv_config sv = config_for (reload_paths args) ech (sv_rules sv)) ∧
  (∀ hosts, SelectCertificateCallback hosts ∈ sv_config sv ↔ hosts = allowed_sni_hosts (sv_rules sv)) ∧
  (∀ i t, rt_tasks (sv_rt sv) !! i = Some t →
     ∃ w table r, w ∈ ws ∧ load_table w (sa_rules args) = Ok table ∧ r ∈ rules table ∧
       ∀ a, ConnectedTo a ∈ history (t_sock t) ↔ a = target r).
Proof.
  intros Hs. destruct (serving_setup _ _ _ Hs) as (w & ech & Hl & Hd & Hc). split_and!.
  - by exists w, ech.
  - intros hosts. rewrite Hc. unfold config_for, server_calls.
    assert (∀ h, SelectCertificateCallback h ∉ ech_calls ech) as Hn by apply ech_calls_no_guard.
    specialize (Hn hosts). unfold transport_calls. set_solver.
  - intros i t Ht.
    apply serving_reachable in Hs. destruct (reachable_pinned linux _ _ _ _ Hs Ht)
      as (table & r & (w' & Hw & Hload) & Hr & Hpin).
    by exists w', table, r.
Qed.
End Running.

(** ** A run *)

Definition sample_world : World unit unit :=
  mkWorld sample_fs (λ _, Ok (str "[..]"))
    (λ _, Ok [mkRuleFields (str "https://a.example.com:4433/masque") (str "t") None None None])
    (λ _, Ok [SockV4 0x7f000001 1234]) (λ _ _, true).

Definition sample_args : ServeArgs :=
  mkServeArgs (SockV4 0 4433) [str "rules.json"] [str "c.pem"] [str "key.pem"] (Some [str "k.pem"]).

Definition sample_setup : option (Config * RuleTable * option bytes) :=
  match serve_setup (B := Base64Std) sample_args sample_world with
  | Returns (Ok x) => Some x
  | _ => None
  end.

Definition sample_client_args (text : bytes) : ClientArgs :=
  mkClientArgs (str "https://a.example.com:4433/masque") (SockV4 0x7f000001 1) None false None
    (Some (x20 :: text ++ [x0a])) None.

Lemma published_ech_usable_witness :
  ∃ text ks list, option_map snd sample_setup = Some (Some text) ∧
    load_ech_config (B := Base64Std) (λ _, Err tt) (sample_client_args text) = Ok (Some list) ∧
    on_disk (B := Base64Std) (reload_paths sample_args) sample_world (Some ks)
      (default (mkRuleTable []) (option_map (λ x, x.1.2) sample_setup)).
Proof.
  assert (match sample_setup with Some (_, _, Some _) => true | _ => false end = true) as Hc
    by (vm_compute; reflexivity).
  unfold sample_setup in *.
  destruct (serve_setup sample_args sample_world) as [[[[cfg t] [text|]]|e]|] eqn:E;
    [|exfalso; discriminate Hc..].
  destruct (published_ech_usable (BL := Base64Std_laws) sample_args sample_world cfg t text
    [x20] [x0a] (λ _, Err tt) (sample_client_args text) E eq_refl eq_refl eq_refl)
    as (ks & list & _ & _ & Hd & Hl & _).
  exists text, ks, list. split; [reflexivity|]. split; [exact Hl|exact Hd].
Defined.

Local Abbreviation LServer := (Server lconn Z unit Config lsock (list SocketAddr) lchan).

Definition sample_serve : panics (result ServeError LServer * list SocketAddr) :=
  serve (B := Base64Std) (SA := LoopSockets) (M := LoopMpsc) true (λ _, Ok (SockV4 1 4433)) (Ok tt)
    (λ c _, c) sample_args sample_world (Ok tt) (Ok tt) [].

(** A world whose rule file can not be read. *)
Definition broken_world : World unit unit :=
  mkWorld sample_fs (λ _, Err tt) (λ _, Err tt) (λ _, Err tt) (λ _ _, true).

(** After a reload that finds a broken rule file, the server still has the setup of its
    start. *)
Lemma serving_consistent_witness :
  ∃ sv os ech, sample_serve = Returns (Ok sv, os) ∧
    on_disk (B := Base64Std) (reload_paths sample_args) sample_world ech (sv_rules sv) ∧
    ∀ hosts, SelectCertificateCallback hosts ∈ sv_config sv ↔ hosts = allowed_sni_hosts (sv_rules sv).
Proof.
  assert (match sample_serve with Returns (Ok _, _) => true | _ => false end = true) as Hc
    by (vm_compute; reflexivity).
  destruct sample_serve as [[[sv|e] os]|] eqn:E; [|exfalso; discriminate Hc..].
  assert (rebuild (B := Base64Std) (reload_paths sample_args) broken_world =
    Err (LoadingRules (ReadingTable tt))) as Hb by (vm_compute; reflexivity).
  assert (reload_task (B := Base64Std) (Ok tt) (reload_paths sample_args) broken_world sv = Returns sv) as Hr.
  { unfold reload_task. rewrite Hb. reflexivity. }
  destruct (serving_consistent (B := Base64Std) (Q := LoopQuiche) (QT := LoopStreams)
    (QV := LoopServerOf (λ _, idle_conn)) (QA := LoopAccepts _) (U := LoopUdp) (HI := HashIterStd)
    (SL := LoopSocketLaws) (SI := LoopSocketIo) true (λ _, Ok (SockV4 1 4433)) (Ok tt) (λ c _, c)
    sample_args [sample_world; broken_world] sv
    (serving_reloads _ _ _ _ sample_args [sample_world] (Ok tt) broken_world sv sv eq_refl
      (serving_starts _ _ _ _ sample_args sample_world (Ok tt) (Ok tt) [] os sv E) Hr))
    as ((w & ech & (ws1 & ws2 & Hws & Hf) & Hd & _) & Hg & _).
  exists sv, os, ech. split; [reflexivity|]. split; [|exact Hg].
  destruct ws1 as [|w1 [|w2 ws1]]; cbn in Hws.
  - injection Hws as <- _. exact Hd.
  - injection Hws as _ <- _. exfalso. destruct Hd as [_ Hd]. vm_compute in Hd. discriminate Hd.
  - exfalso. injection Hws as _ _ Hws. by destruct ws1.
Defined.
