(* ===== verification/Tunnel.v ===== *)
(** * The two ends together

    What the client sends is what the server understands and the other way round: the
    server name and the request of an endpoint, the answers, the flow ids and the
    datagrams of a flow. *)

From Stdlib Require Import Strings.Byte.
From S2P Require Import Prelude.
From S2P Require Import RustStr.
From S2P Require Import Net.
From S2P Require Import Dgram.
From S2P Require Import Endpoint.
From S2P Require Import Rules.
From S2P Require Import Quiche.
From S2P Require Import Loopback.
From S2P Require Import Io.
From S2P Require Import Sockets.
From S2P Require Import Tls.
From S2P Require Import Client.
From S2P Require Import Server.
From S2P Require Import ServerInv.

(** ** Opening a flow *)

(** Both sources cut the host out of an authority in the same way. *)
Lemma host_of_agrees (a : bytes) : host_of a = host_of_authority a.
Proof.
  unfold host_of, host_of_authority. destruct (strip_prefix [x5b] a) as [rest|]; [|done]. cbn.
  destruct (split_once_byte x5d rest) as [[h t]|] eqn:E.
  - apply split_once_byte_Some in E as [-> Hh].
    rewrite (proj2 (find_byte_Some x5d (h ++ x5d :: t) (length h))) by eauto 6. cbn.
    by rewrite take_app_length.
  - apply split_once_byte_None in E. by rewrite (proj2 (find_byte_None _ _)).
Qed.

(** The parts of an endpoint parsed from a text are texts. *)
Lemma endpoint_utf8 raw e :
  utf8_valid raw = true → Endpoint.parse raw = Ok e →
  utf8_valid (Endpoint.authority e) = true ∧ utf8_valid (path e) = true.
Proof.
  intros Hu (scheme & tail & -> & _ & _ & _ & Ht)%parse_Ok.
  change (str "://") with (x3a :: str "//") in Hu. rewrite <- app_comm_cons in Hu.
  apply utf8_valid_cut in Hu as [_ Hu]; [|done].
  rewrite utf8_valid_ascii_app in Hu by done.
  destruct Ht as [[-> ->]|[-> [t Ht]]].
  - rewrite app_nil_r in Hu. by split.
  - rewrite Ht in *. pose proof (utf8_valid_cut _ t x2f eq_refl Hu) as [Ha Hb]. split; [done|].
    change (utf8_valid ([x2f] ++ t) = true). by rewrite utf8_valid_ascii_app.
Qed.

Lemma parse_connect_headers a p :
  utf8_valid a = true → utf8_valid p = true →
  parse_request (connect_headers a p) = Ok (mkRequest a p).
Proof.
  intros Ha Hp.
  assert (fold_left read_header (connect_headers a p) (mkPseudo None None None None) =
    mkPseudo (Some (str "CONNECT")) (Some (str "connect-udp")) (Some a) (Some p)) as E
    by (vm_compute; reflexivity).
  unfold parse_request. rewrite E. cbn [ps_method ps_protocol ps_authority ps_path].
  rewrite !bool_decide_true by done. cbn. unfold from_utf8. by rewrite Ha, Hp.
Qed.

(** C17: A client and a server given the same endpoint URI find each other.  Whatever the
    other rules are, the server's SNI guard lets the name through that the client
    offers, the client's request is understood as it was meant, and it is sent to
    the target of the first rule with this authority and path. *)
Theorem same_endpoint_served (raw : bytes) (e : Endpoint) (t : RuleTable) (r : Rule) :
  utf8_valid raw = true → Endpoint.parse raw = Ok e → r ∈ rules t → endpoint r = e →
  sni_guard (allowed_sni_hosts t) (Some (host_of (Endpoint.authority e))) = true ∧
  parse_request (connect_headers (Endpoint.authority e) (path e)) =
    Ok (mkRequest (Endpoint.authority e) (path e)) ∧
  ∃ r', r' ∈ rules t ∧ match_target t (Endpoint.authority e) (path e) = Some (match_of r') ∧
    Endpoint.authority (endpoint r') = Endpoint.authority e ∧
    path_only (path (endpoint r')) = path_only (path e).
Proof.
  intros Hu Hp Hr He. destruct (endpoint_utf8 _ _ Hu Hp) as [Hua Hup]. split_and!.
  - cbn [sni_guard]. apply existsb_exists. setoid_rewrite <- list_elem_of_In.
    eexists. split; [apply allowed_sni_hosts_spec; by exists r|].
    rewrite host_of_agrees, He. apply bool_decide_eq_true. by rewrite to_ascii_lowercase_idemp.
  - by apply parse_connect_headers.
  - unfold match_target. destruct (List.find _ _) as [r'|] eqn:E.
    + apply find_some in E as [Hin Hm]. exists r'. apply list_elem_of_In in Hin.
      unfold rule_matches, matches in Hm. apply andb_true_iff in Hm as [H1 H2].
      apply bool_decide_eq_true in H1, H2. done.
    + exfalso. apply list_elem_of_In in Hr. apply (find_none _ _ E) in Hr.
      unfold rule_matches, matches in Hr. by rewrite He, !bool_decide_true in Hr.
Qed.

Lemma same_endpoint_served_witness :
  sni_guard (allowed_sni_hosts sample_table) (Some (host_of (str "a.example.com:4433"))) = true.
Proof.
  exact (proj1 (same_endpoint_served (str "https://a.example.com:4433/masque")
    (mkEndpoint (str "a.example.com:4433") (str "/masque")) sample_table
    (mkRule (mkEndpoint (str "a.example.com:4433") (str "/masque")) (SockV4 1 53) false None
       (Some (from_secs 35)))
    eq_refl ltac:(vm_compute; reflexivity) ltac:(by left) eq_refl)).
Defined.

Lemma status_of_status_headers (s : Z) :
  in_width 16 s → Client.status_of (status_headers s) = Some s.
Proof.
  intros Hs. unfold Client.status_of, status_headers. cbn [List.find h_name h_value].
  rewrite bool_decide_true by done. cbn [mbind option_bind h_value]. unfold from_utf8.
  rewrite u16_to_string_utf8 by done. cbn [mbind option_bind]. by apply parse_u16_to_string.
Qed.

(** The client understands every answer of the server: the 200 of an accepted
    request releases what waits for the flow of that stream, and the final answer of a
    refused one, whatever its status, closes that flow. *)
Theorem answers_understood {Conn H3 H3Config} `{Q : Quiche Conn H3 H3Config} (i status : Z)
    (t : Tunnel Conn) :
  in_width 16 status → (status < 200 ∨ 300 ≤ status)%Z →
  on_response i (Headers accepted_headers) t = establish (i / 4) t ∧
  on_response i (Headers (status_headers status)) t = close_flow (i / 4) t.
Proof.
  intros Hs Hr. unfold on_response. split.
  - assert (Client.status_of accepted_headers = Some 200%Z) as -> by (vm_compute; reflexivity). done.
  - rewrite status_of_status_headers by done.
    destruct (Z.leb_spec 200 status), (Z.ltb_spec status 300); try done. lia.
Qed.

Lemma answers_understood_witness :
  on_response (Q := LoopQuiche) 0 (Headers (status_headers 404)) (mkTunnel idle_conn ∅ ∅) =
  close_flow 0 (mkTunnel idle_conn ∅ ∅).
Proof.
  exact (proj2 (answers_understood (Q := LoopQuiche) 0 404 (mkTunnel idle_conn ∅ ∅)
    ltac:(unfold in_width; lia) ltac:(lia))).
Defined.

(** ** The datagrams of a flow *)

Section Uplink.
Context {Conn H3 H3Config Sock Os : Type} {Chan : Type → Type}.
Context `{Q : Quiche Conn H3 H3Config} `{M : Mpsc Chan} {ML : MpscLaws M}.
Local Abbreviation Session := (Server.Session Conn H3 Sock Os Chan).
Implicit Types (st : Session) (c : Conn).

(** The datagrams a connection hands out until it has no more. *)
Inductive received : Conn → list bytes → Conn → Prop :=
| received_done c e c' : dgram_recv c MAX_DATAGRAM_SIZE = (Err e, c') → received c [] c'
| received_one c b c1 l c' :
    dgram_recv c MAX_DATAGRAM_SIZE = (Ok b, c1) → received c1 l c' → received c (b :: l) c'.

(** Different flows lead to different running tasks. *)
Definition apart st : Prop :=
  ∀ fid1 fid2 f1 f2, ss_flows st !! fid1 = Some f1 → ss_flows st !! fid2 = Some f2 →
    fl_to_target f1 = fl_to_target f2 → is_Some (rt_tasks (ss_rt st) !! fl_to_target f1) →
    fid1 = fid2.

Lemma owned_apart k st : owned k (ss_flows st) (ss_rt st) → apart st.
Proof.
  intros [Ho _] fid1 fid2 f1 f2 H1 H2 E [t Ht].
  destruct (Ho _ _ H1) as [_ Hf1], (Ho _ _ H2) as [_ Hf2]. rewrite <- E in Hf2.
  destruct (Hf1 t Ht) as (_ & _ & <-), (Hf2 t Ht) as (_ & _ & <-). done.
Qed.

(** A flow whose task has [q] waiting. *)
Definition waiting fid st (q : list bytes) : Prop :=
  ∃ f t, ss_flows st !! fid = Some f ∧ rt_tasks (ss_rt st) !! fl_to_target f = Some t ∧
    queued (t_inbox t) = q.

Lemma try_send_queue {A} (ch : Chan A) a :
  ∃ l, sublist l [a] ∧ queued (try_send ch a).2 = queued ch ++ l.
Proof.
  destruct (try_send ch a) as [b ch'] eqn:E. apply try_send_queued in E. cbn [snd]. rewrite E. destruct b.
  - by exists [a].
  - exists []. rewrite app_nil_r. split; [apply sublist_nil_l|done].
Qed.

Lemma on_datagram_cases now buf st :
  on_datagram now buf st = Returns st ∨
  ∃ fid pl f, payload_for fid buf = Some pl ∧ (∀ fid', fid' ≠ fid → payload_for fid' buf = None) ∧
    ss_flows st !! fid = Some f ∧
    on_datagram now buf st = Returns (Server.mkSession (ss_conn st) (ss_http3 st)
      (<[fid := mkFlow (fl_to_target f) now (fl_idle_timeout f)]> (ss_flows st))
      (send_to_target (fl_to_target f) pl (ss_rt st))).
Proof.
  unfold on_datagram, payload_for. destruct (decode_never_panics buf) as [[p|] ->];
    cbn [mbind panics_bind]; [|by left].
  destruct (context_id p =? CONTEXT_ID_UDP)%Z; cbn [negb]; [|by left].
  destruct (ss_flows st !! flow_id p) as [f|] eqn:E; [|by left]. right.
  exists (flow_id p), (payload p), f. rewrite Z.eqb_refl. split_and!; try done.
  intros fid' Hne. by rewrite (proj2 (Z.eqb_neq _ _)).
Qed.

Lemma on_datagram_waiting now buf st fid q :
  apart st → waiting fid st q →
  ∃ st' l, on_datagram now buf st = Returns st' ∧ ss_conn st' = ss_conn st ∧ apart st' ∧
    waiting fid st' (q ++ l) ∧ sublist l (option_list (payload_for fid buf)).
Proof.
  intros Ha Hw. destruct (on_datagram_cases now buf st) as [->|(fid0 & pl & g & Hp & Hno & Hg & ->)].
  { exists st, []. rewrite app_nil_r. split_and!; try done. apply sublist_nil_l. }
  destruct Hw as (f & t & Hf & Ht & <-). set (g' := mkFlow _ _ _).
  assert (apart (Server.mkSession (ss_conn st) (ss_http3 st) (<[fid0 := g']> (ss_flows st))
    (send_to_target (fl_to_target g) pl (ss_rt st)))) as Ha'.
  { intros fid1 fid2 f1 f2. cbn [ss_flows ss_rt send_to_target rt_tasks].
    rewrite !lookup_insert_Some, lookup_alter_is_Some.
    intros [[<- <-]|[? H1]] [[<- <-]|[? H2]]; [done|..]; cbn; eauto. }
  eexists. destruct (decide (fid = fid0)) as [->|Hne].
  - assert (g = f) as -> by congruence. destruct (try_send_queue (t_inbox t) pl) as (l & Hl & Hq).
    exists l. split_and!; [done..| |by rewrite Hp].
    eexists g', _. cbn [ss_flows ss_rt send_to_target rt_tasks fl_to_target g'].
    rewrite lookup_insert_eq, lookup_alter_eq, Ht. split; [done|]. split; [done|exact Hq].
  - exists []. rewrite app_nil_r. split_and!; [done..| |apply sublist_nil_l].
    exists f, t. cbn [ss_flows ss_rt send_to_target rt_tasks]. rewrite lookup_insert_ne by done.
    rewrite lookup_alter_ne; [done|]. intros Heq. apply Hne. eapply Ha; [done..|by rewrite Ht].
Qed.

Lemma drain_waiting fuel now st fid q r :
  apart st → waiting fid st q → drain_client_datagrams fuel now st = Some r →
  ∃ st' bufs l, r = Returns st' ∧ received (ss_conn st) bufs (ss_conn st') ∧ waiting fid st' (q ++ l) ∧
    sublist l (omap (payload_for fid) bufs).
Proof.
  unfold drain_client_datagrams. revert st q.
  induction fuel as [|fuel IH]; intros st q Ha Hw; cbn [loop]; [done|].
  destruct (dgram_recv (ss_conn st) MAX_DATAGRAM_SIZE) as [[buf|e] c] eqn:E.
  - destruct (on_datagram_waiting now buf (Server.mkSession c (ss_http3 st) (ss_flows st) (ss_rt st)) fid q)
      as (st1 & l1 & -> & Hc & Ha1 & Hw1 & Hl1); [done..|].
    intros H. destruct (IH _ _ Ha1 Hw1 H) as (st' & bufs & l2 & -> & Hr & Hw2 & Hl2).
    exists st', (buf :: bufs), (l1 ++ l2). split_and!; [done| |by rewrite app_assoc|].
    + eapply received_one; [exact E|]. cbn in Hc. by rewrite <- Hc.
    + cbn [omap list_omap]. destruct (payload_for fid buf) as [pl|].
      * by apply (sublist_app _ [pl]).
      * apply sublist_nil_r in Hl1 as ->. done.
  - intros [= <-]. eexists _, [], []. rewrite app_nil_r. split_and!; [done| |done|done].
    by eapply received_done.
Qed.

(** Towards the target each flow is a queue.  Draining the datagrams of a connection
    never panics, and adds to the channel of a flow's task, in the order of arrival, the
    payloads of that flow and nothing else; some may be dropped when the channel is
    full.  So if everything that arrived had been sent by the client, everything that
    is queued for the target is a payload the client sent on this flow. *)
Theorem uplink_in_order (k : Scid) (fuel : nat) (now : Z) st (fid : Z) (q : list bytes)
    (r : panics Session) :
  owned k (ss_flows st) (ss_rt st) → waiting fid st q →
  drain_client_datagrams fuel now st = Some r →
  ∃ st' bufs l, r = Returns st' ∧ received (ss_conn st) bufs (ss_conn st') ∧
    waiting fid st' (q ++ l) ∧ sublist l (omap (payload_for fid) bufs) ∧
    ∀ sent, bufs ⊆+ sent → l ⊆+ omap (payload_for fid) sent.
Proof.
  intros Ho%owned_apart Hw Hd. destruct (drain_waiting _ _ _ _ _ _ Ho Hw Hd)
    as (st' & bufs & l & -> & Hr & Hw' & Hl).
  exists st', bufs, l. split_and!; try done. intros sent (rest & Hs)%submseteq_Permutation.
  rewrite (omap_Permutation _ _ _ Hs), omap_app. apply submseteq_inserts_r.
  by apply sublist_submseteq.
Qed.
End Uplink.

Lemma uplink_in_order_witness :
  ∃ st' bufs l,
    drain_client_datagrams (Q := LoopQuiche) (M := LoopMpsc) 9 5
      (Server.mkSession
        (mkLconn [] [Dgram.encode 0 (str "a"); Dgram.encode 1 (str "x"); Dgram.encode 0 (str "b")] [] [] [] [] []
           true false []) 0%Z {[0%Z := mkFlow 3 0 None]}
        (mkRuntime {[3 := mkTask idle_sock (mkLchan [str "0"] 5) true (str "k") 0]} 4 ([] : list SocketAddr)))
    = Some (Returns st') ∧
    waiting (ML := LoopMpscLaws) 0 st' ([str "0"] ++ l) ∧ sublist l (omap (payload_for 0) bufs).
Proof.
  set (st := Server.mkSession _ _ _ _).
  assert (is_Some (drain_client_datagrams (Q := LoopQuiche) (M := LoopMpsc) 9 5 st)) as [r Hr]
    by (vm_compute; eauto).
  assert (owned (str "k") (ss_flows st) (ss_rt st)) as Ho.
  { split; unfold st; cbn [ss_flows ss_rt rt_tasks rt_next].
    - intros fid f [<- <-]%lookup_singleton_Some. split; [simpl; lia|]. by intros t [= <-].
    - intros i t [<- <-]%lookup_singleton_Some _ _. by eexists. }
  assert (waiting (ML := LoopMpscLaws) 0 st [str "0"]) as Hw by (by eexists _, _).
  destruct (uplink_in_order (Q := LoopQuiche) (ML := LoopMpscLaws) (str "k") 9 5 st 0 [str "0"] r Ho Hw Hr)
    as (st' & bufs & l & -> & _ & Hw' & Hl & _).
  exists st', bufs, l. split; [exact Hr|]. split; [exact Hw'|exact Hl].
Defined.

Section Downlink.
Context {Conn H3 H3Config Config Sock Os : Type} {Chan : Type → Type}.
Context {Q : Quiche Conn H3 H3Config} {QG : QuicheDgrams Q} `{M : Mpsc Chan}.
Local Abbreviation Server := (Server Conn H3 H3Config Config Sock Os Chan).

Lemma tunnel_target_iff (flows : gmap Z SocketAddr) (b : bytes) (src : SocketAddr) (pl : bytes) :
  tunnel_target flows b = Returns (Some (src, pl)) ↔
  ∃ fid, flows !! fid = Some src ∧ payload_for fid b = Some pl.
Proof.
  unfold tunnel_target, payload_for. destruct (decode_never_panics b) as [[p|] ->]; cbn.
  2:{ split; [done|]. by intros (? & _ & ?). }
  destruct (context_id p =? CONTEXT_ID_UDP)%Z; cbn.
  - split.
    + intros [= H]. destruct (flows !! flow_id p) as [s|] eqn:E; [|done]. cbn in H.
      injection H as -> <-. exists (flow_id p). by rewrite Z.eqb_refl.
    + intros (fid & Hf & Hp). destruct (Z.eqb_spec (flow_id p) fid) as [->|]; [|done].
      cbn in Hp. rewrite Hf. by injection Hp as <-.
  - split; [done|]. intros (fid & _ & H). by rewrite andb_false_r in H.
Qed.

(** Back to the client.  A payload a target task hands over is offered to the
    connection of that task as one datagram of the task's flow, and to no other
    connection; and from a datagram the client recovers exactly this flow's source
    and this payload, or drops it when the flow is not open any more. *)
Theorem downlink_addressed (sv : Server) (k : Scid) (c : Client Conn H3) (fid : Z) (pl : bytes)
    (now : Z) (flows : gmap Z SocketAddr) :
  in_width 62 fid → sv_clients sv !! k = Some c →
  let sv' := on_target_payload (mkToClient k fid pl) now sv in
  (∃ c' l, sv_clients sv' !! k = Some c' ∧ sublist l [Dgram.encode fid pl] ∧
     dg_log (cl_conn c') = dg_log (cl_conn c) ++ l) ∧
  (∀ k', k' ≠ k → sv_clients sv' !! k' = sv_clients sv !! k') ∧
  tunnel_target flows (Dgram.encode fid pl) = Returns ((λ src, (src, pl)) <$> flows !! fid).
Proof.
  intros Hf Hc. cbv zeta. unfold on_target_payload. cbn [tc_conn_id tc_flow_id tc_payload]. rewrite Hc.
  destruct (dgram_send _ _) as [r conn] eqn:E. apply dgram_send_log in E.
  cbn [sv_clients set_clients]. split_and!.
  - eexists. exists (if is_ok r then [Dgram.encode fid pl] else []). rewrite lookup_insert_eq.
    split; [done|]. cbn [cl_conn]. rewrite E. destruct (is_ok r); [done|].
    rewrite app_nil_r. split; [apply sublist_nil_l|done].
  - intros k' Hk. by rewrite lookup_insert_ne.
  - unfold tunnel_target. by rewrite decode_encode.
Qed.
End Downlink.

Definition sample_client : Client lconn Z := mkClient idle_conn (Some 0%Z) ∅ (SockV4 5 5).

Definition sample_server : Server lconn Z unit unit lsock unit lchan :=
  mkServer idle_sock (SockV4 1 443) tt sample_table tt {[str "k" := sample_client]} ∅ (mkLchan [] 1)
    (mkRuntime ∅ 0 tt).

Lemma downlink_addressed_witness :
  tunnel_target {[3%Z := SockV4 1 1]} (Dgram.encode 3 (str "x")) = Returns (Some (SockV4 1 1, str "x")).
Proof.
  exact (proj2 (proj2 (downlink_addressed (Q := LoopQuiche) (QG := LoopDgrams) sample_server
    (str "k") sample_client 3 (str "x") 0 {[3%Z := SockV4 1 1]}
    ltac:(unfold in_width; lia) ltac:(vm_compute; reflexivity)))).
Defined.
