(* ===== verification/History.v ===== *)
(** * What connections and sockets have carried

    The end-to-end theorems speak of histories: the datagrams a QUIC connection has
    handed out and accepted, and the datagrams a socket has received (what it has sent is
    its [wire]).  The classes state which operations add to a history and that the
    others leave it alone; the connections and sockets of Loopback.v meet them.  The
    lemmas carry them through the code that sends, flushes and opens sockets. *)

From S2P Require Import Prelude.
From S2P Require Import Net.
From S2P Require Import Quiche.
From S2P Require Import Loopback.
From S2P Require Import Io.
From S2P Require Import Sockets.

(** ** Connections *)

(** The datagrams handed to the application and those taken from it. *)
Class QuicheHistory {Conn H3 H3Config : Type} (Q : Quiche Conn H3 H3Config) := {
  logs : Conn → list bytes * list bytes;
  recv_logs c p to from r c' : recv c p to from = (r, c') → logs c' = logs c;
  send_logs c n r c' : send c n = (r, c') → logs c' = logs c;
  on_timeout_logs c : logs (on_timeout c) = logs c;
  ack_logs c : logs (send_ack_eliciting c) = logs c;
  shutdown_logs c i d code : logs (stream_shutdown c i d code) = logs c;
  transport_logs c cfg r c' : with_transport c cfg = (r, c') → logs c' = logs c;
  poll_logs h c r h' c' : poll h c = (r, (h', c')) → logs c' = logs c;
  body_logs h c i n r h' c' : recv_body h c i n = (r, (h', c')) → logs c' = logs c;
  response_logs h c i hs fin r h' c' :
    send_response h c i hs fin = (r, (h', c')) → logs c' = logs c;
  request_logs h c hs fin r h' c' : send_request h c hs fin = (r, (h', c')) → logs c' = logs c;
  dgram_send_logs c b r c' : dgram_send c b = (r, c') →
    logs c' = ((logs c).1, (logs c).2 ++ if is_ok r then [b] else []);
  dgram_recv_logs c n r c' : dgram_recv c n = (r, c') →
    logs c' = ((logs c).1 ++ match r with Ok b => [b] | Err _ => [] end, (logs c).2);
  request_small h c hs fin i hc : send_request h c hs fin = (Ok i, hc) → (i < 2 ^ 62)%Z;
}.

Definition rx_log `{QuicheHistory Conn H3 H3Config} (c : Conn) : list bytes := (logs c).1.
Definition tx_log `{QuicheHistory Conn H3 H3Config} (c : Conn) : list bytes := (logs c).2.

(** A new connection has carried nothing. *)
Class AcceptsFresh {Conn H3 H3Config Config : Type} {Q : Quiche Conn H3 H3Config}
    (QH : QuicheHistory Q) (QV : QuicheServer Conn Config) : Prop :=
  accept_logs scid to from cfg c cfg' :
    quiche_accept scid to from cfg = (Ok c, cfg') → logs c = ([], []).

(** ** Sockets *)

(** What a socket has received; setting it up carries nothing either way. *)
Class SocketTraffic {Sock Os : Type} (A : SocketApi Sock Os) {U : UdpSys Sock} (L : UdpLaws U) := {
  rcvd : Sock → list bytes;
  udp_bind_fresh os a s os' : udp_bind os a = (Ok s, os') → wire s = [] ∧ rcvd s = [];
  socket_new_fresh os v6 s os' : socket_new os v6 = (Ok s, os') → wire s = [] ∧ rcvd s = [];
  setsockopt_quiet s l o v r s' :
    setsockopt s l o v = (r, s') → wire s' = wire s ∧ rcvd s' = rcvd s;
  sock_bind_quiet s a r s' : sock_bind s a = (r, s') → wire s' = wire s ∧ rcvd s' = rcvd s;
  sock_connect_quiet s a r s' :
    sock_connect s a = (r, s') → wire s' = wire s ∧ rcvd s' = rcvd s;
  set_nonblocking_quiet s r s' :
    set_nonblocking s = (r, s') → wire s' = wire s ∧ rcvd s' = rcvd s;
  set_reuse_quiet s r s' : set_reuse_address s = (r, s') → wire s' = wire s ∧ rcvd s' = rcvd s;
  from_std_quiet s s' : from_std s = Ok s' → wire s' = wire s ∧ rcvd s' = rcvd s;
  sendmsg_rcvd s to p control r s' : sendmsg s to p control = (r, s') → rcvd s' = rcvd s;
  writable_rcvd s r s' : writable s = (r, s') → rcvd s' = rcvd s;
  recvmsg_traffic s n r s' : recvmsg s n = (r, s') →
    wire s' = wire s ∧
    rcvd s' = rcvd s ++ match r with Ok (b, _, _) => [b] | Err _ => [] end;
}.

(** ** Instances *)

Definition LoopHistory : QuicheHistory LoopQuiche.
Proof.
  refine {| logs := λ c, (l_dg_seen c, l_dg_out c) |}; simpl.
  - by intros ???? r c' [= _ <-].
  - intros c n r c'. unfold l_send. destruct (l_out c) as [|[p to] l]; [by intros [= _ <-]|].
    destruct (_ && _); by intros [= _ <-].
  - done.
  - done.
  - done.
  - by intros c cfg r c' [= _ <-].
  - intros h c r h' c'. unfold l_poll. destruct (l_events c) as [|[i e] l]; by intros [= _ _ <-].
  - by intros h c i n r h' c' [= _ _ <-].
  - by intros h c i hs fin r h' c' [= _ _ <-].
  - intros h c hs fin r h' c'. destruct (negb _); by intros [= _ _ <-].
  - by intros c b r c' [= <- <-].
  - intros c n r c'. unfold l_dgram_recv. destruct (l_dg_in c) as [|b l].
    + intros [= <- <-]. by rewrite app_nil_r.
    + destruct (length b <=? n); by intros [= <- <-].
  - intros h c hs fin i hc. destruct (Z.ltb_spec (l_next h) (2 ^ 62)); by intros [= <- _].
Defined.

Lemma LoopFresh {Config : Type} (start : Config → lconn) :
  AcceptsFresh LoopHistory (LoopServerOf start).
Proof. by intros scid to from cfg c cfg' [= <- _]. Qed.

Definition LoopTraffic : SocketTraffic LoopSockets LoopUdpLaws.
Proof.
  refine {| rcvd := ls_seen |}; simpl.
  - by intros os a s os' [= <- _].
  - by intros os v6 s os' [= <- _].
  - by intros s l o v r s' [= _ <-].
  - intros s a r s'. case_bool_decide; by intros [= _ <-].
  - by intros s a r s' [= _ <-].
  - by intros s r s' [= _ <-].
  - by intros s r s' [= _ <-].
  - by intros s s' [= <-].
  - intros s to p control r s'. unfold l_sendmsg. cbv zeta. repeat case_match; by intros [= _ <-].
  - by intros s r s' [= _ <-].
  - intros s n r s'. destruct (ls_inbox s) as [|[[b a] c] l]; intros [= <- <-]; [|done].
    by rewrite app_nil_r.
Defined.

(** ** Lemmas: opening sockets *)

Section Traffic.
Context {Sock Os : Type} `{T : SocketTraffic Sock Os} (linux : bool).
Implicit Types (s : Sock) (os : Os).

(** A socket that has carried nothing, and code that carries nothing. *)
Definition unused s : Prop := wire s = [] ∧ rcvd s = [].

Definition quietly {E X} (m : stm Sock E X) : Prop :=
  ∀ s r s', m s = (r, s') → unused s → unused s'.

Lemma quiet_unused s s' : wire s' = wire s ∧ rcvd s' = rcvd s → unused s → unused s'.
Proof. unfold unused. by intros [-> ->]. Qed.

Lemma quietly_ret {E X} (x : X) : quietly (mret x : stm Sock E X).
Proof. by intros s r s' [= _ <-]. Qed.

Lemma quietly_then {E X Y} (m : stm Sock E X) (k : stm Sock E Y) :
  quietly m → quietly k → quietly (stm_then m k).
Proof.
  intros Hm Hk s r s'. unfold stm_then, mbind, stm_bind.
  destruct (m s) as [[x|e] s1] eqn:Em; intros H Hs.
  - eapply Hk; [exact H|]. by eapply Hm.
  - injection H as _ <-. by eapply Hm.
Qed.

Lemma quietly_sockopt l o v : quietly (set_sockopt_int l o v).
Proof.
  intros s r s'. unfold set_sockopt_int. destruct (setsockopt s l o v) as [rc s1] eqn:E.
  destruct rc as [rc en]. apply setsockopt_quiet in E. intros [= _ <-]. by apply quiet_unused.
Qed.

Lemma quietly_fwmark m : quietly (apply_fwmark m).
Proof. destruct m; [apply quietly_sockopt|apply quietly_ret]. Qed.

Lemma quietly_fwmark_linux m : quietly (apply_fwmark_linux linux m).
Proof. unfold apply_fwmark_linux. destruct linux; [apply quietly_fwmark|apply quietly_ret]. Qed.

Lemma quietly_reuse : quietly set_reuse_address.
Proof. intros s r s' H%set_reuse_quiet. by apply quiet_unused. Qed.

Lemma quietly_bind a : quietly (λ s, sock_bind s a).
Proof. intros s r s' H%sock_bind_quiet. by apply quiet_unused. Qed.

Lemma quietly_connect a : quietly (λ s, sock_connect s a).
Proof. intros s r s' H%sock_connect_quiet. by apply quiet_unused. Qed.

Lemma quietly_nonblocking : quietly set_nonblocking.
Proof. intros s r s' H%set_nonblocking_quiet. by apply quiet_unused. Qed.

#[local] Hint Resolve quietly_then quietly_sockopt quietly_fwmark quietly_fwmark_linux
  quietly_reuse quietly_bind quietly_connect quietly_nonblocking : rust.

Lemma transparent_setup_quietly v6 m src target : quietly (transparent_setup v6 m src target).
Proof. unfold transparent_setup. destruct v6; eauto 10 with rust. Qed.

Lemma enlarge_unused s : unused s → unused (enlarge_udp_buffers s).
Proof.
  intros Hs. unfold enlarge_udp_buffers. cbn [fold_left].
  destruct (set_sockopt_int SOL_SOCKET SO_RCVBUF _ s) as [r1 s1] eqn:E1. cbn [snd].
  destruct (set_sockopt_int SOL_SOCKET SO_SNDBUF _ s1) as [r2 s2] eqn:E2. cbn [snd].
  apply quietly_sockopt in E1, E2. auto.
Qed.

Lemma adopted_unused s r : unused s → map_err Adopting (from_std s) = Ok r → unused r.
Proof.
  intros Hs. destruct (from_std s) as [s1|e] eqn:E; [|done]. apply from_std_quiet in E.
  cbn. intros [= <-]. by eapply quiet_unused.
Qed.

Lemma make_unused v6 m target os src s os' :
  make v6 m target os src = (Ok s, os') → unused s.
Proof.
  unfold make. destruct (socket_new os v6) as [[s0|e] os0] eqn:E0; [|done].
  apply socket_new_fresh in E0. destruct (transparent_setup _ _ _ _ _) as [[u|e] s1] eqn:E1; [|done].
  intros [= <- _]. eapply transparent_setup_quietly; [exact E1|]. by apply enlarge_unused.
Qed.

(** The socket of a new flow has carried nothing. *)
Lemma bind_target_unused os target client transparent m s os' :
  bind_target linux os target client transparent m = (Ok s, os') → unused s.
Proof.
  unfold bind_target. destruct transparent.
  - unfold bind_target_transparent. destruct linux; [|done].
    destruct (shared_family _ _) as [v6|]; [|done].
    destruct (make _ _ _ _ (sock_new _ (addr_port client))) as [[s1|e] os1] eqn:E1.
    + apply make_unused in E1. intros [= H _]. by eapply adopted_unused.
    + destruct (addr_in_use e); [|done].
      destruct (make _ _ _ _ (sock_new _ 0)) as [[s1|e2] os2] eqn:E2; [|done].
      apply make_unused in E2. intros [= H _]. by eapply adopted_unused.
  - destruct (negb linux && _); [done|].
    destruct (udp_bind _ _) as [[s0|e] os0] eqn:E0; [|done]. apply udp_bind_fresh in E0.
    destruct (apply_fwmark_linux linux m _) as [[u|e] s1] eqn:E1; [|done].
    apply quietly_fwmark_linux in E1.
    destruct (sock_connect _ _) as [[u2|e] s2] eqn:E2; [|done].
    apply (quietly_connect target) in E2.
    destruct (set_nonblocking _) as [[u3|e] s3] eqn:E3; [|done].
    apply quietly_nonblocking in E3.
    intros [= H _]. eapply adopted_unused; [|exact H]. auto using enlarge_unused.
Qed.

(** ** Lemmas: sending and receiving *)
Lemma send_udp_connected_rcvd fuel p s r s' :
  send_udp_connected fuel p s = Some (r, s') → rcvd s' = rcvd s.
Proof.
  unfold send_udp_connected. intros Hl.
  eapply (loop_invariant _ (λ x, rcvd x = rcvd s) (λ o, rcvd o.2 = rcvd s)) in Hl; [done|..|done].
  - intros x x' <-. unfold retry, sendmsg_udp_connected.
    destruct (sendmsg _ _ _ _) as [r0 y] eqn:E. apply sendmsg_rcvd in E.
    destruct (check_sent _ _); [done|]. destruct (would_block _); [|done].
    destruct (writable y) as [[u|e'] z] eqn:E2; [|done]. apply writable_rcvd in E2.
    intros [= <-]. congruence.
  - intros x o <-. unfold retry, sendmsg_udp_connected.
    destruct (sendmsg _ _ _ _) as [r0 y] eqn:E. apply sendmsg_rcvd in E.
    destruct (check_sent _ _); [by intros [= <-]|].
    destruct (would_block _); [|by intros [= <-]].
    destruct (writable y) as [[u|e'] z] eqn:E2; [done|]. apply writable_rcvd in E2.
    intros [= <-]. cbn. congruence.
Qed.

Lemma recv_udp_connected_traffic s n r s' :
  recv_udp_connected s n = (r, s') →
  wire s' = wire s ∧ rcvd s' = rcvd s ++ match r with Ok b => [b] | Err _ => [] end.
Proof.
  unfold recv_udp_connected. destruct (recvmsg s n) as [[[[b a] c]|e] s1] eqn:E;
    apply recvmsg_traffic in E; by intros [= <- <-].
Qed.
End Traffic.

(** ** Lemmas: flushing *)

Section FlushLogs.
Context {Conn H3 H3Config Sock : Type} `{QH : QuicheHistory Conn H3 H3Config}.
Context `{U : UdpSys Sock} (linux : bool).
Implicit Types (c : Conn) (s : Sock).

(** Code that leaves the history of the connection alone: flushing calls only [send]. *)
Definition calm {X} (m : fstm (flushing (Sock := Sock) (Conn := Conn)) FlushError X) : Prop :=
  ∀ st r st', m st = Some (r, st') → logs (f_conn st') = logs (f_conn st).

Lemma calm_ret {X} (x : X) : calm (mret x).
Proof. by intros st r st' [= _ <-]. Qed.

Lemma calm_bind {X Y} (m : fstm flushing FlushError X) (k : X → fstm flushing FlushError Y) :
  calm m → (∀ x, calm (k x)) → calm (m ≫= k).
Proof.
  intros Hm Hk st r st' [(x & st1 & H1 & H2)|(e & H1 & _)]%fstm_bind_Some.
  - apply Hk in H2. apply Hm in H1. congruence.
  - by apply Hm in H1.
Qed.

Lemma calm_batch fuel : calm (flush_batch linux fuel).
Proof. intros st r st' H. by rewrite (flush_batch_conn _ _ _ _ _ H). Qed.

Lemma calm_push fuel out to : calm (flush_push linux fuel out to).
Proof.
  intros st r st'. unfold flush_push. destruct (SendBatch.try_push _ _ _) as [[p|] b].
  - intros H. apply (calm_bind _ (λ _, flush_pending p to)) in H; [done|apply calm_batch|].
    intros _ st1 r1 st1' [= _ <-]. done.
  - by intros [= _ <-].
Qed.

Lemma calm_short fuel : calm (flush_short linux fuel).
Proof. intros st r st'. unfold flush_short. case_match; [apply calm_batch|by intros [= _ <-]]. Qed.

Lemma calm_one fuel : calm (flush_one linux fuel).
Proof.
  intros st r st'. unfold flush_one.
  destruct (send _ _) as [[[out to]|e] c] eqn:E; apply send_logs in E.
  - intros H. rewrite <- E. change c with (f_conn (mkFlushing (f_batch st) c (f_sock st))).
    revert H. apply calm_bind; [apply calm_push|]. intros _.
    apply calm_bind; [apply calm_short|]. intros _. apply calm_ret.
  - destruct e; intros [= _ <-]; exact E.
Qed.

Lemma calm_round fuel n : calm (flush_round linux fuel n).
Proof.
  induction n as [|n IH]; cbn [flush_round]; [apply calm_ret|].
  apply calm_bind; [apply calm_one|]. intros []; [exact IH|apply calm_ret].
Qed.

Lemma flush_connection_logs fuel s c r st :
  flush_connection linux fuel s c = Some (r, st) → logs (f_conn st) = logs c.
Proof.
  unfold flush_connection. destruct (loop _ _ _) as [o|] eqn:El; [|done]. cbn. intros ->.
  eapply (loop_invariant _ (λ st, logs (f_conn st) = logs c)
    (λ o, match o with Some (_, st) => logs (f_conn st) = logs c | None => True end)) in El;
    [exact El|..|done].
  - intros st1 st2 H. unfold flush_turn.
    destruct (flush_round _ _ _ _) as [[[[]|e] st3]|] eqn:Er; try done; apply calm_round in Er.
    destruct (flush_batch linux fuel st3) as [[[u|e] st4]|] eqn:Eb; try done.
    apply calm_batch in Eb. intros [= <-]. congruence.
  - intros st1 o H. unfold flush_turn.
    destruct (flush_round _ _ _ _) as [[[[]|e] st3]|] eqn:Er; try apply calm_round in Er.
    + destruct (flush_batch linux fuel st3) as [[[u|e] st4]|] eqn:Eb; [done| |by intros [= <-]].
      apply calm_batch in Eb. intros [= <-]. congruence.
    + intros [= <-]. destruct (flush_batch linux fuel st3) as [[r' st']|] eqn:Hb; [|done].
      apply calm_batch in Hb. congruence.
    + intros [= <-]. congruence.
    + by intros [= <-].
Qed.
End FlushLogs.
