(* ===== verification/ServerFlow.v ===== *)
(** * What a target is sent

    Every datagram that a target task has sent, or has queued, is the payload of a
    datagram of the task's flow that the task's own connection had received, in the
    order of arrival: an invariant of all the steps of the server. *)

From S2P Require Import Prelude.
From S2P Require Import Net.
From S2P Require Import Dgram.
From S2P Require Import Rules.
From S2P Require Import Quiche.
From S2P Require Import Loopback.
From S2P Require Import Io.
From S2P Require Import Sockets.
From S2P Require Import Server.
From S2P Require Import ServerInv.
From S2P Require Import ServerProps.
From S2P Require Import Orphans.
From S2P Require Import Tunnel.
From S2P Require Import History.

(** A payload added at the end of both sides. *)
Lemma sublist_snoc {A} (l1 l2 x y : list A) :
  sublist l1 l2 → sublist x y → sublist (l1 ++ x) (l2 ++ y).
Proof. apply sublist_app. Qed.

Section Flow.
Context {Conn H3 H3Config Config Sock Os : Type} {Chan : Type → Type}.
Context {Q : Quiche Conn H3 H3Config} {QT : QuicheStreams Q} {QH : QuicheHistory Q}.
Context {QV : QuicheServer Conn Config}.
Context {U : UdpSys Sock} {UL : UdpLaws U} {SA : SocketApi Sock Os} {ST : SocketTraffic SA UL}.
Context {M : Mpsc Chan} {ML : MpscLaws M} {HI : HashIter}.
Context (linux : bool).
Local Abbreviation Session := (Server.Session Conn H3 Sock Os Chan).
Local Abbreviation Server := (Server Conn H3 H3Config Config Sock Os Chan).
Local Abbreviation Runtime := (Runtime Sock Os Chan).
Local Abbreviation Task := (Task Sock Chan).
Local Abbreviation anything := (λ _ : Sock, True).
Implicit Types (sv : Server) (st : Session) (rt : Runtime) (t : Task) (c : Conn) (k : Scid).

(** What a task has sent to its target, then what it has queued. *)
Definition carried t : list bytes := (wire (t_sock t)).*2 ++ queued (t_inbox t).

(** It came out of connection [c], on the flow of the task. *)
Definition justified c t : Prop :=
  (0 ≤ t_flow_id t < 2 ^ 60)%Z ∧
  sublist (carried t) (omap (payload_for (t_flow_id t)) (rx_log c)).

Lemma justified_logs c c' t : logs c' = logs c → justified c t → justified c' t.
Proof. unfold justified, rx_log. by intros ->. Qed.

Lemma justified_app c c' l t : rx_log c' = rx_log c ++ l → justified c t → justified c' t.
Proof.
  unfold justified. intros -> [H1 H]. split; [done|]. rewrite omap_app.
  by apply sublist_inserts_r.
Qed.

(** Carrying less under the same ids. *)
Definition lesser t t' : Prop :=
  t_conn_id t' = t_conn_id t ∧ t_flow_id t' = t_flow_id t ∧ sublist (carried t') (carried t).

Lemma justified_lesser c t t' : lesser t t' → justified c t → justified c t'.
Proof. unfold justified. intros (_ & -> & H) [H1 Hj]. split; [done|]. by etransitivity. Qed.

Lemma lesser_close t : lesser t (close_sender t).
Proof. by split_and!. Qed.

(** ** One connection *)

(** Since the runtime was [rt0]: the tasks of connection [k] are justified by what it
    has received so far, except those that had lost their flow before. *)
Definition served k rt0 c rt : Prop :=
  ∀ i t, rt_tasks rt !! i = Some t →
    (rt_tasks rt0 !! i = Some t ∧ (t_conn_id t ≠ k ∨ t_sender t = false)) ∨
    (t_conn_id t = k ∧ justified c t).

Lemma served_logs k rt0 c c' rt : logs c' = logs c → served k rt0 c rt → served k rt0 c' rt.
Proof. intros Hl Hs i t Ht. destruct (Hs i t Ht) as [H|[H1 H2]]; [by left|right]. eauto using justified_logs. Qed.

Lemma served_drop k rt0 c rt F fid f :
  owned k F rt → F !! fid = Some f → served k rt0 c rt → served k rt0 c (drop_flow f rt).
Proof.
  intros Ho Hf Hs i t'. cbn [drop_flow rt_tasks]. rewrite lookup_alter_Some.
  intros [[<- (t & Ht & ->)]|[_ Ht]]; [|by apply Hs].
  destruct (owned_task _ _ _ Ho fid f Hf) as [_ Hto]. destruct (Hto t Ht) as (Hse & Hk & _).
  destruct (Hs _ t Ht) as [[_ [?|?]]|[_ Hj]]; [congruence..|]. right. split; [done|].
  eapply justified_lesser; [apply lesser_close|done].
Qed.

Lemma served_remove k rt0 c rt F fid F' rt' :
  owned k F rt → remove_flow fid F rt = (F', rt') → served k rt0 c rt → served k rt0 c rt'.
Proof.
  unfold remove_flow. intros Ho [= _ <-] Hs. destruct (F !! fid) as [f|] eqn:Hf; [|done].
  by eapply served_drop.
Qed.

Lemma served_spawn k rt0 c rt sock fid :
  unused sock → (0 ≤ fid < 2 ^ 60)%Z → served k rt0 c rt →
  served k rt0 c (spawn_target sock k fid rt).2.
Proof.
  intros [Hw _] Hfid Hs i t. cbn [spawn_target snd rt_tasks]. rewrite lookup_insert_Some.
  intros [[_ <-]|[_ Ht]]; [|by apply Hs]. right. split; [done|].
  unfold justified, carried. cbn [t_sock t_inbox t_flow_id]. rewrite Hw, channel_queued.
  split; [done|]. apply sublist_nil_l.
Qed.

(** The invariant of a session with its history. *)
Definition flowing k rt0 st : Prop :=
  sess_ok anything k rt0 st ∧ served k rt0 (ss_conn st) (ss_rt st).

Lemma flowing_conn k rt0 st c h :
  logs c = logs (ss_conn st) → flowing k rt0 st →
  flowing k rt0 (Server.mkSession c h (ss_flows st) (ss_rt st)).
Proof. intros Hl [H1 H2]. split; [by apply sess_ok_conn|]. by eapply served_logs. Qed.

Lemma flowing_os k rt0 st os :
  flowing k rt0 st →
  flowing k rt0 (Server.mkSession (ss_conn st) (ss_http3 st) (ss_flows st) (set_os (ss_rt st) os)).
Proof. intros [H1 H2]. split; [by apply sess_ok_os|exact H2]. Qed.

Lemma respond_flowing k rt0 st i hs fin r st' :
  flowing k rt0 st → respond st i hs fin = (r, st') → flowing k rt0 st'.
Proof.
  unfold respond. destruct (send_response _ _ _ _ _) as [r' [h c]] eqn:E. apply response_logs in E.
  intros H [= _ <-]. by apply flowing_conn.
Qed.

Lemma respond_status_flowing k rt0 st i status :
  flowing k rt0 st → flowing k rt0 (respond_status st i status).
Proof.
  intros H. unfold respond_status. destruct (respond _ _ _ _) eqn:E. by eapply respond_flowing.
Qed.

Lemma remove_flowing k rt0 st fid F' rt' :
  flowing k rt0 st → remove_flow fid (ss_flows st) (ss_rt st) = (F', rt') →
  flowing k rt0 (Server.mkSession (ss_conn st) (ss_http3 st) F' rt').
Proof.
  intros [H1 H2] E. split; [by eapply remove_ok|].
  eapply served_remove; [apply (so_owned _ _ _ _ H1)|exact E|exact H2].
Qed.

Lemma open_flow_flowing k rt0 st now i rule sock :
  flowing k rt0 st → (0 ≤ i < 2 ^ 62)%Z → unused sock →
  flowing k rt0 (open_flow now k i rule sock st).
Proof.
  intros [H1 H2] Hi Hu. unfold open_flow.
  destruct (spawn_target sock k (i / 4) (ss_rt st)) as [j rt1] eqn:Es.
  destruct (insert_flow _ _ _ rt1) as [F' rt'] eqn:E. injection Es as <- <-.
  assert (flowing k rt0 (Server.mkSession (ss_conn st) (ss_http3 st) F' rt')) as Hf.
  { split; [eapply (insert_ok anything); [exact H1|exact Hi|done|exact E]|]. pose proof (so_owned _ _ _ _ H1) as Ho.
    cbn [ss_conn ss_rt].
    change (mkRuntime _ _ _) with (spawn_target sock k (i / 4) (ss_rt st)).2 in E.
    rewrite (insert_spawned k) in E by done. injection E as _ <-. apply served_spawn; [done|by apply quarter_range|].
    destruct (remove_flow (i / 4) (ss_flows st) (ss_rt st)) as [F0 rt0'] eqn:Er.
    by eapply served_remove. }
  destruct (respond _ _ _ _) as [[u|e] st'] eqn:Er; [by eapply respond_flowing|].
  eapply respond_flowing in Er; [|exact Hf].
  destruct (remove_flow _ _ _) as [F'' rt''] eqn:Ed. by eapply remove_flowing.
Qed.

Lemma handle_connect_request_flowing k rt0 st now rules from i hs :
  flowing k rt0 st → (0 ≤ i < 2 ^ 62)%Z →
  flowing k rt0 (handle_connect_request linux now rules from k i hs st).
Proof.
  intros Hs Hi. unfold handle_connect_request.
  destruct (parse_request hs) as [req|status]; [|by apply respond_status_flowing].
  destruct (match_target _ _ _) as [rule|]; [|by apply respond_status_flowing].
  destruct (bind_target _ _ _ _ _ _) as [[sock|e] os] eqn:Eb.
  - apply open_flow_flowing; [by apply flowing_os|done|by eapply bind_target_unused].
  - by apply respond_status_flowing, flowing_os.
Qed.

Lemma drain_body_logs fuel i (h : H3) c h' c' :
  drain_body fuel i h c = Some (h', c') → logs c' = logs c.
Proof.
  unfold drain_body. intros Hl.
  eapply (loop_invariant _ (λ hc : H3 * Conn, logs hc.2 = logs c) (λ hc, logs hc.2 = logs c)) in Hl;
    [done|..|done].
  - intros [h1 c1] [h2 c2] H. cbn [fst snd] in *. destruct (recv_body _ _ _ _) as [[n|e] [h4 c4]] eqn:E; [|done].
    apply body_logs in E. destruct (n =? 0); [done|]. intros [= _ <-]. congruence.
  - intros [h1 c1] [h2 c2] H. cbn [fst snd] in *. destruct (recv_body _ _ _ _) as [[n|e] [h4 c4]] eqn:E;
      apply body_logs in E; [destruct (n =? 0); [|done]|]; intros [= _ <-]; congruence.
Qed.

Lemma on_event_flowing k rt0 st fuel now rules from :
  flowing k rt0 st →
  match on_event linux fuel now rules from k st with
  | inl st' | inr (Some st') => flowing k rt0 st'
  | inr None => True
  end.
Proof.
  intros Hs. unfold on_event.
  destruct (poll _ _) as [[[i ev]|e] [h c]] eqn:Ep; pose proof Ep as Hl; apply poll_logs in Hl;
    [|by apply flowing_conn].
  apply poll_stream in Ep as Hi.
  pose proof (flowing_conn k rt0 st c h Hl Hs) as Hs'. destruct ev.
  - by apply handle_connect_request_flowing.
  - destruct (drain_body _ _ _ _) as [[h' c']|] eqn:Ed; [|done]. apply drain_body_logs in Ed.
    cbn [ss_flows ss_rt]. apply flowing_conn; [congruence|done].
  - destruct (remove_flow _ _ _) as [F' rt'] eqn:E. by apply (remove_flowing _ _ _ _ _ _ Hs') in E.
  - destruct (remove_flow _ _ _) as [F' rt'] eqn:E. by apply (remove_flowing _ _ _ _ _ _ Hs') in E.
  - done.
Qed.

(** A datagram received and the payload it adds. *)
Lemma on_datagram_flowing k rt0 st c now buf :
  flowing k rt0 st → rx_log c = rx_log (ss_conn st) ++ [buf] →
  ∃ st', on_datagram now buf (Server.mkSession c (ss_http3 st) (ss_flows st) (ss_rt st)) = Returns st' ∧
    flowing k rt0 st'.
Proof.
  intros [H1 H2] Hl. set (st1 := Server.mkSession c (ss_http3 st) (ss_flows st) (ss_rt st)).
  assert (served k rt0 c (ss_rt st)) as Hs.
  { intros i t Ht. destruct (H2 i t Ht) as [H|[H H']]; [by left|right]. eauto using justified_app. }
  destruct (on_datagram_ok anything k rt0 st1 now buf) as (st' & E & Hok); [by apply sess_ok_conn|].
  exists st'. split; [done|]. split; [done|].
  destruct (on_datagram_cases now buf st1) as [E'|(fid & pl & f & Hp & _ & Hf & E')];
    rewrite E in E'; injection E' as ->; [exact Hs|].
  cbn [ss_conn ss_rt st1]. intros i t'. cbn [send_to_target rt_tasks]. rewrite lookup_alter_Some.
  intros [[<- (t & Ht & ->)]|[_ Ht]]; [|by apply Hs].
  destruct (owned_task _ _ _ (so_owned _ _ _ _ H1) fid f Hf) as [_ Hto].
  destruct (Hto t Ht) as (Hse & Hk & Hfid).
  destruct (H2 _ t Ht) as [[_ [?|?]]|[_ Hj]]; [congruence..|]. right. split; [done|].
  destruct Hj as [Hrange Hj]. split; [done|]. unfold carried. cbn [t_sock t_inbox t_flow_id].
  destruct (try_send_queue (t_inbox t) pl) as (l & Hsub & ->).
  rewrite Hl, omap_app, app_assoc. apply sublist_app; [exact Hj|].
  cbn. by rewrite Hfid, Hp.
Qed.

Lemma drain_flowing k rt0 st fuel now r :
  flowing k rt0 st → drain_client_datagrams fuel now st = Some r →
  ∃ st', r = Returns st' ∧ flowing k rt0 st'.
Proof.
  intros Hs. unfold drain_client_datagrams.
  apply (loop_invariant _ (flowing k rt0) (λ r, ∃ st', r = Returns st' ∧ flowing k rt0 st'));
    [..|exact Hs].
  - intros s s' H. destruct (dgram_recv _ _) as [[b|e] c] eqn:E; [|done]. apply dgram_recv_logs in E.
    destruct (on_datagram_flowing k rt0 s c now b H) as (s1 & -> & H1);
      [unfold rx_log; by rewrite E|]. by intros [= <-].
  - intros s r' H. destruct (dgram_recv _ _) as [[b|e] c] eqn:E; apply dgram_recv_logs in E.
    + destruct (on_datagram_flowing k rt0 s c now b H) as (s1 & -> & H1);
        [unfold rx_log; by rewrite E|]. done.
    + intros [= <-]. eexists. split; [reflexivity|]. apply flowing_conn; [|done].
      rewrite app_nil_r in E. rewrite E. by destruct (logs (ss_conn s)).
Qed.

(** What [process_client] leaves behind, with the history. *)
Lemma process_client_flowing k rt0 fuel now h3c rules (cl : Client Conn H3) rt r :
  client_ok anything k rt0 cl rt → served k rt0 (cl_conn cl) rt →
  process_client linux fuel now k h3c rules cl rt = Some r →
  ∃ cl' rt', r = Returns (cl', rt') ∧ served k rt0 (cl_conn cl') rt'.
Proof.
  intros Hc Hs. unfold process_client.
  destruct (negb _); [intros [= <-]; by eexists _, _|].
  destruct (match cl_http3 cl with Some h3 => _ | None => _ end) as [o c] eqn:Eh.
  assert (logs c = logs (cl_conn cl)) as Hlc.
  { destruct (cl_http3 cl); [by injection Eh as _ <-|].
    destruct (with_transport _ _) as [[h|e] c'] eqn:E; apply transport_logs in E;
      by injection Eh as _ <-. }
  destruct o as [h3|].
  2:{ intros [= <-]. eexists _, _. split; [reflexivity|]. by eapply served_logs. }
  destruct (mjoin _) as [st|] eqn:El; [|done].
  assert (flowing k rt0 st) as Hst.
  { destruct (loop _ _ _) as [o|] eqn:E; [|done]. simpl in El. subst o.
    eapply (loop_invariant _ (flowing k rt0)
      (λ o, match o with Some s => flowing k rt0 s | None => True end)) in E; [done|..].
    - intros s s' H He. pose proof (on_event_flowing _ _ _ fuel now rules (cl_peer cl) H) as H'.
      by rewrite He in H'.
    - intros s o H He. pose proof (on_event_flowing _ _ _ fuel now rules (cl_peer cl) H) as H'.
      by rewrite He in H'.
    - split; [destruct Hc as (? & ? & ? & ? & ?); by split|]. by eapply served_logs. }
  destruct (drain_client_datagrams _ _ _) as [p|] eqn:Ed; [|done].
  eapply drain_flowing in Ed as (st' & -> & [_ Hf]); [|exact Hst].
  intros [= <-]. eexists _, _. by split.
Qed.

(** ** The whole server *)

(** A task is justified by its connection as it is now. *)
Definition now_justified sv t : Prop :=
  ∃ cl, sv_clients sv !! t_conn_id t = Some cl ∧ justified (cl_conn cl) t.

(** Every task is accounted for by [Past], and the tasks with a flow by their connection. *)
Definition accounted (Past : Task → Prop) sv : Prop :=
  ∀ i t, rt_tasks (sv_rt sv) !! i = Some t →
    Past t ∧ (t_sender t = true → now_justified sv t).

(** [Past] does not mind a task that carries less. *)
Definition closed_past (Past : Task → Prop) : Prop := ∀ t t', lesser t t' → Past t → Past t'.

Section Accounted.
Context (Past : Task → Prop) (HPast : closed_past Past).

(** Connections may do anything that leaves their history alone. *)
Lemma accounted_logs sv sv' :
  sv_rt sv' = sv_rt sv →
  (∀ k cl, sv_clients sv !! k = Some cl →
     ∃ cl', sv_clients sv' !! k = Some cl' ∧ logs (cl_conn cl') = logs (cl_conn cl)) →
  accounted Past sv → accounted Past sv'.
Proof.
  intros Hrt Hc Ha i t. rewrite Hrt. intros Ht. destruct (Ha i t Ht) as [Hp Hn]. split; [done|].
  intros Hs. destruct (Hn Hs) as (cl & Hcl & Hj). destruct (Hc _ _ Hcl) as (cl' & Hcl' & Hl).
  exists cl'. split; [done|]. by eapply justified_logs.
Qed.

(** The history of one connection may grow, with its tasks served from it. *)
Lemma accounted_served sv k cl cl' rt' :
  server_ok anything sv → sv_clients sv !! k = Some cl →
  served k (sv_rt sv) (cl_conn cl') rt' → accounted Past sv →
  let sv' := set_clients sv (<[k := cl']> (sv_clients sv)) rt' in
  accounted (λ t, Past t ∨ now_justified sv' t) sv'.
Proof.
  intros Hok Hcl Hs Ha sv' i t Ht.
  destruct (Hs i t Ht) as [[Ht0 Hor]|[Hk Hj]].
  - destruct (Ha i t Ht0) as [Hp Hn]. split; [by left|]. intros Hse.
    destruct Hor as [Hne|?]; [|congruence]. destruct (Hn Hse) as (cl0 & Hcl0 & Hj).
    exists cl0. split; [|done]. cbn [sv' set_clients sv_clients]. by rewrite lookup_insert_ne.
  - assert (now_justified sv' t) as Hn.
    { exists cl'. split; [|done]. cbn [sv' set_clients sv_clients]. by rewrite Hk, lookup_insert_eq. }
    split; [by right|done].
Qed.

(** Before a packet is processed the tasks of its connection are served. *)
Lemma accounted_start sv k cl c :
  sv_clients sv !! k = Some cl → logs c = logs (cl_conn cl) → accounted Past sv →
  served k (sv_rt sv) c (sv_rt sv).
Proof.
  intros Hcl Hl Ha i t Ht. destruct (Ha i t Ht) as [_ Hn].
  destruct (t_sender t) eqn:Hs; [|by left; auto].
  destruct (decide (t_conn_id t = k)) as [Hk|Hk]; [|by left; auto].
  right. split; [done|]. destruct (Hn eq_refl) as (cl0 & Hcl0 & Hj).
  rewrite Hk, Hcl in Hcl0. injection Hcl0 as <-. by eapply justified_logs.
Qed.

Lemma deliver_accounted sv fuel now k pkt from sv' :
  server_ok anything sv → accounted Past sv →
  deliver linux fuel now sv k pkt from = Some (Returns sv') →
  accounted (λ t, Past t ∨ now_justified sv' t) sv'.
Proof.
  intros Hok Ha. unfold deliver. destruct (sv_clients sv !! k) as [cl|] eqn:Hcl; [|done].
  destruct (recv _ _ _ _) as [[n|e] c] eqn:Er; apply recv_logs in Er.
  - destruct (process_client _ _ _ _ _ _ _ _) as [p|] eqn:Ep; [|done].
    eapply process_client_flowing in Ep as (cl' & rt' & -> & Hs);
      [|by apply client_ok_of|by eapply accounted_start].
    intros [= <-]. by eapply accounted_served.
  - intros [= <-]. eapply accounted_served; [done|exact Hcl| |done]. by eapply accounted_start.
Qed.

(** Tasks that are closed carry what they carried. *)
Lemma dropped_task F rt i t' :
  rt_tasks (drop_flows F rt) !! i = Some t' →
  ∃ t, rt_tasks rt !! i = Some t ∧ lesser t t' ∧ (t_sender t' = true → t' = t).
Proof.
  unfold drop_flows. revert t'. induction (map_to_list F) as [|p l IH]; intros t'; cbn [foldr].
  - intros H. by exists t'.
  - cbn [drop_flow rt_tasks]. rewrite lookup_alter_Some. intros [[<- (t & Ht & ->)]|[_ Ht]]; [|by auto].
    destruct (IH _ Ht) as (t0 & Ht0 & (H1 & H2 & H4) & _). exists t0. by split_and!.
Qed.

(** Dropping the flows of a connection that is replaced or gone. *)
Lemma accounted_dropped sv sv' k F :
  server_ok anything sv' → sv_rt sv' = drop_flows F (sv_rt sv) → flows_of sv' k = ∅ →
  (∀ k', k' ≠ k → sv_clients sv' !! k' = sv_clients sv !! k') →
  accounted Past sv → accounted Past sv'.
Proof.
  intros Hok Hrt HF Hc Ha i t' Ht'. pose proof Ht' as Ht2. rewrite Hrt in Ht2.
  apply dropped_task in Ht2 as (t & Ht & Hless & Hsame).
  destruct (Ha i t Ht) as [Hp Hn]. split; [by eapply HPast|]. intros Hs.
  assert (t_conn_id t' ≠ k) as Hne.
  { intros Hk. destruct (owned_flow _ _ _ (sv_owned _ _ Hok k) i t' Ht' Hk Hs) as (f & Hf & _).
    by rewrite HF in Hf. }
  specialize (Hsame Hs) as ->. destruct (Hn Hs) as (cl & Hcl & Hj).
  exists cl. split; [|done]. by rewrite Hc.
Qed.

Lemma accept_accounted sv rnd d from r sv' :
  server_ok anything sv → accounted Past sv → accept sv rnd d from = (r, sv') →
  accounted Past sv'.
Proof.
  intros Hok Ha E. pose proof E as (Hok' & _ & _)%(accept_ok anything); [|done].
  unfold accept in E. destruct (quiche_accept _ _ _ _) as [[c|e] cfg] eqn:Eq.
  2:{ injection E as _ <-. eapply accounted_logs; [..|exact Ha]; [done|]. eauto. }
  injection E as _ <-. destruct (sv_clients sv !! rnd) as [old|] eqn:Ec.
  - eapply (accounted_dropped sv _ rnd (cl_flows old)); [done|done|..|exact Ha].
    + unfold flows_of. cbn [sv_clients]. by rewrite lookup_insert_eq.
    + intros k' Hk. cbn [sv_clients]. by rewrite lookup_insert_ne.
  - eapply accounted_logs; [..|exact Ha]; [done|]. intros k cl Hk. exists cl. cbn [sv_clients].
    split; [|done]. rewrite lookup_insert_ne; [done|]. intros <-. congruence.
Qed.

Lemma on_packet_accounted sv fuel now rnd pkt from sv' :
  server_ok anything sv → accounted Past sv →
  on_packet linux fuel now rnd sv pkt from = Some (Returns sv') →
  accounted (λ t, Past t ∨ now_justified sv' t) sv'.
Proof.
  intros Hok Ha. assert (accounted (λ t, Past t ∨ now_justified sv t) sv) as Ha0.
  { intros i t Ht. destruct (Ha i t Ht). by auto. }
  unfold on_packet. destruct (header_from_slice _ _) as [hdr|e]; [|by intros [= <-]].
  destruct (route _ _) as [k|].
  - by apply deliver_accounted.
  - destruct (negb _); [by intros [= <-]|]. destruct (negb _).
    + unfold send_version_negotiation.
      destruct (negotiate_version _ _ _) as [out|e]; [|by intros [= <-]].
      destruct (send_udp _ _ _ _ _) as [[r' s]|]; [|done]. intros [= <-]. exact Ha0.
    + destruct (accept _ _ _ _) as [[k|e] sv1] eqn:Ea;
        pose proof (accept_accounted _ _ _ _ _ _ Hok Ha Ea) as Ha1;
        apply (accept_ok anything) in Ea as (Hok1 & _); try done.
      * by apply deliver_accounted.
      * intros [= <-]. intros i t Ht. destruct (Ha1 i t Ht). by auto.
Qed.

(** The handlers that only drop flows or talk to connections. *)
Lemma drain_targets_accounted sv fuel now sv' :
  accounted Past sv → drain_targets fuel now sv = Some sv' → accounted Past sv'.
Proof.
  intros Ha Hl. unfold drain_targets in Hl.
  eapply (loop_invariant _ (accounted Past) (accounted Past)) in Hl; [done|..|done].
  - intros s s' H. destruct (try_recv _) as [[tc|] ch]; [|done]. intros [= <-].
    unfold on_target_payload. cbn [sv_clients].
    destruct (sv_clients s !! tc_conn_id tc) as [cl|] eqn:Ec.
    2:{ eapply accounted_logs; [..|exact H]; [done|]. eauto. }
    destruct (dgram_send _ _) as [r c] eqn:E. apply dgram_send_logs in E.
    intros i t Ht. destruct (H i t Ht) as [Hp Hn]. split; [done|]. intros Hs.
    destruct (Hn Hs) as (cl0 & Hcl0 & Hj). unfold now_justified. cbn [set_clients sv_clients].
    destruct (decide (t_conn_id t = tc_conn_id tc)) as [Heq|Hne].
    + rewrite Heq, lookup_insert_eq. eexists. split; [done|]. cbn [cl_conn].
      rewrite Heq, Ec in Hcl0. injection Hcl0 as <-.
      eapply (justified_app _ _ []); [|exact Hj]. unfold rx_log. rewrite E. by rewrite app_nil_r.
    + rewrite lookup_insert_ne by done. eauto.
  - intros s s' H. destruct (try_recv _) as [[tc|] ch]; [done|]. intros [= <-].
    eapply accounted_logs; [..|exact H]; [done|]. eauto.
Qed.

Lemma on_timeouts_accounted sv : accounted Past sv → accounted Past (on_timeouts sv).
Proof.
  apply accounted_logs; [done|]. intros k cl Hcl. unfold on_timeouts, for_clients.
  cbn [set_clients sv_clients]. rewrite map_lookup_imap, Hcl. eexists. split; [done|].
  cbn. apply on_timeout_logs.
Qed.

Lemma flush_client_accounted sv fuel k sv' :
  accounted Past sv → flush_client linux fuel k sv = Some sv' → accounted Past sv'.
Proof.
  intros Ha. unfold flush_client. destruct (sv_clients sv !! k) as [cl|] eqn:Ec; [|by intros [= <-]].
  destruct (flush_connection _ _ _ _) as [[r st]|] eqn:E; [|done]. apply flush_connection_logs in E.
  intros [= <-]. eapply accounted_logs; [..|exact Ha]; [done|]. intros k' cl' Hcl'.
  cbn [set_socket set_clients sv_clients]. destruct (decide (k' = k)) as [->|Hne].
  - rewrite lookup_insert_eq. eexists. split; [done|]. cbn. by rewrite Ec in Hcl'; injection Hcl' as <-.
  - rewrite lookup_insert_ne by done. eauto.
Qed.

Lemma reap_accounted sv :
  server_ok anything sv → accounted Past sv → accounted Past (reap_closed sv).
Proof.
  intros Hok Ha.
  assert (server_ok anything (reap_closed sv) ∧ accounted Past (reap_closed sv)) as [_ H]; [|exact H].
  unfold reap_closed.
  apply (fold_clients_ok (λ s, server_ok anything s ∧ accounted Past s)); [..|done].
  - intros s p [H1 H2] Hp. pose proof (reap_client_ok anything s p H1 Hp) as H4. split; [done|].
    unfold reap_client in *. destruct (is_closed _); [|done].
    eapply (accounted_dropped s _ p.1 (cl_flows p.2)); [done|done|..|exact H2].
    + unfold flows_of. cbn [sv_clients]. by rewrite lookup_delete_eq.
    + intros k' Hk. cbn [sv_clients]. by rewrite lookup_delete_ne.
  - intros s p k Hk. unfold reap_client. destruct (is_closed _); [|done]. cbn. by rewrite lookup_delete_ne.
Qed.

(** Removing expired flows. *)
Lemma expired_task l c F rt i t' :
  let '(c', F', rt') := fold_left expire_flow l (c, F, rt) in
  logs c' = logs c ∧ (rt_tasks rt' !! i = Some t' →
    ∃ t, rt_tasks rt !! i = Some t ∧ lesser t t' ∧ (t_sender t' = true → t' = t)).
Proof.
  revert c F rt. induction l as [|fid l IH]; intros c F rt; cbn [fold_left].
  - split; [done|]. intros H. by exists t'.
  - unfold expire_flow at 2. destruct (remove_flow fid F rt) as [F1 rt1] eqn:E.
    specialize (IH (stream_shutdown (stream_shutdown c (wrap 64 (fid * 4)) ShutdownWrite 0x100)
      (wrap 64 (fid * 4)) ShutdownRead 0x100) F1 rt1).
    destruct (fold_left _ _ _) as [[c' F'] rt']. rewrite !shutdown_logs in IH.
    destruct IH as [Hl IH]. split; [done|]. intros H. destruct (IH H) as (t1 & Ht1 & Hless & Hs).
    unfold remove_flow in E. injection E as _ <-. destruct (F !! fid) as [f|]; [|by eauto].
    cbn [drop_flow rt_tasks] in Ht1. apply lookup_alter_Some in Ht1 as [[<- (t & Ht & ->)]|[_ Ht]]; [|by eauto].
    exists t. split; [done|]. destruct Hless as (H1 & H2 & H4). split; [by split_and!|].
    intros Hse. by rewrite (Hs Hse) in Hse.
Qed.

Lemma sweep_accounted now sv :
  server_ok anything sv → accounted Past sv → accounted Past (sweep_idle_flows now sv).
Proof.
  intros Hok Ha.
  assert (server_ok anything (sweep_idle_flows now sv) ∧ accounted Past (sweep_idle_flows now sv))
    as [_ H]; [|exact H].
  unfold sweep_idle_flows.
  apply (fold_clients_ok (λ s, server_ok anything s ∧ accounted Past s)); [..|done].
  - intros s p [H1 H2] Hp. unfold sweep_client.
    pose proof (expire_flows_ok anything p.1 (sv_rt s) (cl_conn p.2) (cl_http3 p.2) (cl_peer p.2)
      (cl_flows p.2) (sv_rt s) (expired now (cl_flows p.2)) (client_ok_of _ _ _ _ _ _ _ H1 Hp)) as H.
    pose proof (expired_task (expired now (cl_flows p.2)) (cl_conn p.2) (cl_flows p.2) (sv_rt s)) as He.
    destruct (fold_left _ _ _) as [[c F] rt]. split; [by apply set_client_ok|].
    intros i t' Ht'. destruct (He i t') as [Hl Htask]. destruct (Htask Ht') as (t & Ht & Hless & Hs).
    destruct (H2 i t Ht) as [Hp' Hn]. split; [by eapply HPast|]. intros Hse.
    specialize (Hs Hse) as ->. destruct (Hn Hse) as (cl & Hcl & Hj).
    unfold now_justified. cbn [set_clients sv_clients].
    destruct (decide (t_conn_id t = p.1)) as [Heq|Hne].
    + rewrite Heq, lookup_insert_eq. eexists. split; [done|]. rewrite Heq, Hp in Hcl.
      injection Hcl as <-. by eapply justified_logs.
    + rewrite lookup_insert_ne by done. eauto.
  - intros s p k Hk. unfold sweep_client. destruct (fold_left _ _ _) as [[c F] rt]. cbn.
    by rewrite lookup_insert_ne.
Qed.

(** A turn of a task moves payloads from its queue to its socket, or loses them. *)
Lemma recv_target_wire n t ch b t' ch' :
  recv_target n t ch = (b, t', ch') →
  wire (t_sock t') = wire (t_sock t) ∧ t_inbox t' = t_inbox t ∧ t_sender t' = t_sender t ∧
  t_conn_id t' = t_conn_id t ∧ t_flow_id t' = t_flow_id t.
Proof.
  revert t ch. induction n as [|n IH]; intros t ch; cbn [recv_target]; [by intros [= _ <- _]|].
  destruct (recv_udp_connected _ _) as [[buf|e] s] eqn:E; apply recv_udp_connected_traffic in E as [Hw _].
  - destruct (try_send _ _) as [sent ch1]. destruct (_ && _); [by intros [= _ <- _]|].
    intros (Hw' & ? & ? & ? & ?)%IH. split_and!; try done. cbn [set_sock t_sock] in Hw'. congruence.
  - destruct (would_block e); [by intros [= _ <- _]|]. destruct (interrupted e); [|by intros [= _ <- _]].
    intros (Hw' & ? & ? & ? & ?)%IH. split_and!; try done. cbn [set_sock t_sock] in Hw'. congruence.
Qed.

Lemma target_task_lesser fuel w t ch t' ch' :
  target_task fuel w t ch = Some (Some t', ch') → lesser t t' ∧ t_sender t' = t_sender t.
Proof.
  destruct w; cbn [target_task].
  - destruct (try_recv _) as [[pl|] c] eqn:E; apply try_recv_queued in E as [E _].
    + destruct (send_udp_connected _ _ _) as [[r s]|] eqn:Es; [|done]. apply send_udp_connected_wire in Es.
      intros [= <- _]. split; [|done]. split_and!; [done..|]. unfold carried. cbn [t_sock t_inbox].
      rewrite Es, E, fmap_app. cbn [option_list app]. rewrite <- app_assoc. apply sublist_app; [done|].
      destruct (is_ok r); cbn; [done|]. by apply sublist_cons.
    + destruct (t_sender t) eqn:Hs; [|done]. intros [= <- _]. by split; [split_and!|].
  - destruct (recv_target _ _ _) as [[b t1] c] eqn:E. apply recv_target_wire in E as (Hw & Hi & Hs & Hk & Hf).
    destruct b; [|done]. intros [= <- _]. split; [|done]. split_and!; [done..|].
    unfold carried. by rewrite Hw, Hi.
  - done.
Qed.

Lemma run_task_accounted sv fuel i w sv' :
  accounted Past sv → run_task fuel i w sv = Some sv' → accounted Past sv'.
Proof.
  intros Ha. unfold run_task. destruct (rt_tasks (sv_rt sv) !! i) as [t|] eqn:Et; [|by intros [= <-]].
  destruct (target_task _ _ _ _) as [[o ch]|] eqn:E; [|done]. intros [= <-].
  intros j t' Hj. cbn [sv_rt rt_tasks] in Hj. destruct (decide (i = j)) as [<-|Hne].
  - rewrite lookup_partial_alter_eq in Hj. subst o. apply target_task_lesser in E as [Hl Hs].
    destruct (Ha i t Et) as [Hp Hn]. split; [by eapply HPast|]. intros Hse.
    destruct Hn as (cl & Hcl & Hjust); [congruence|]. exists cl. cbn [sv_clients].
    destruct Hl as (H1 & H2 & H4). rewrite H1. split; [done|]. eapply justified_lesser; [|done]. by split_and!.
  - rewrite lookup_partial_alter_ne in Hj by done. by destruct (Ha j t' Hj) as [Hp Hn].
Qed.
End Accounted.

(** ** Runs *)

Context (Allowed : RuleTable → Prop).

Lemma accounted_weaken (P1 P2 : Task → Prop) sv :
  (∀ t, P1 t → P2 t) → accounted P1 sv → accounted P2 sv.
Proof. intros Hw Ha i t Ht. destruct (Ha i t Ht). auto. Qed.

Lemma step_accounted Past sv sv' :
  closed_past Past → server_ok anything sv → accounted Past sv → step linux Allowed sv sv' →
  accounted (λ t, Past t ∨ now_justified sv' t) sv'.
Proof.
  intros Hc Hok Ha Hst.
  destruct Hst as [fuel now rnd pkt from sv' Hl H|fuel now sv' H| |now|fuel k sv' H| |fuel j w sv' H| |].
  - by eapply on_packet_accounted.
  - eapply accounted_weaken; [by left|]. by eapply drain_targets_accounted.
  - eapply accounted_weaken; [by left|]. by apply on_timeouts_accounted.
  - eapply accounted_weaken; [by left|]. by apply sweep_accounted.
  - eapply accounted_weaken; [by left|]. by eapply flush_client_accounted.
  - eapply accounted_weaken; [by left|]. by apply reap_accounted.
  - eapply accounted_weaken; [by left|]. by eapply run_task_accounted.
  - eapply accounted_weaken; [by left|]. eapply accounted_logs; [..|exact Ha]; [done|]. eauto.
  - eapply accounted_weaken; [by left|]. eapply accounted_logs; [..|exact Ha]; [done|]. eauto.
Qed.

(** At some point of the run that led to [sv] the task's connection accounted for it. *)
Definition past sv t : Prop :=
  ∃ sv1, reachable linux Allowed sv1 ∧ rtc (step linux Allowed) sv1 sv ∧ now_justified sv1 t.

Lemma past_closed sv : closed_past (past sv).
Proof.
  intros t t' Hl (sv1 & Hr & Hs & cl & Hcl & Hj). exists sv1. split_and!; [done..|].
  exists cl. split; [by destruct Hl as (-> & _)|]. by eapply justified_lesser.
Qed.

Lemma reachable_step sv sv' :
  reachable linux Allowed sv → step linux Allowed sv sv' → reachable linux Allowed sv'.
Proof.
  intros (s0 & so & ad & h3 & cf & ru & os & H1 & H2 & H4) Hs.
  exists s0, so, ad, h3, cf, ru, os. split_and!; [done..|]. by eapply rtc_r.
Qed.

Lemma reachable_accounted sv : reachable linux Allowed sv → accounted (past sv) sv.
Proof.
  intros (sv0 & so & ad & h3 & cf & ru & os & Hn & Hal & Hr).
  assert (reachable linux Allowed sv0) as H0.
  { exists sv0, so, ad, h3, cf, ru, os. by split_and!. }
  assert (accounted (past sv0) sv0) as Ha0.
  { intros i t. unfold server_new in Hn. apply result_bind_Ok in Hn as (a & _ & Hn).
    apply result_bind_Ok in Hn as (h & _ & [= <-]). cbn. by rewrite lookup_empty. }
  clear Hn Hal. assert (reachable linux Allowed sv ∧ accounted (past sv) sv) as [_ H]; [|exact H].
  revert sv Hr. apply rtc_ind_r; [done|]. intros y z _ Hst [Hy Ha].
  pose proof (reachable_step _ _ Hy Hst) as Hz. split; [done|].
  pose proof (reachable_anything linux Allowed y Hy) as Hok.
  eapply accounted_weaken; [|by eapply step_accounted; [apply past_closed|..]].
  intros t [(sv1 & Hr1 & Hs1 & Hj)|Hj].
  - exists sv1. split_and!; [done| |done]. by eapply rtc_r.
  - exists z. by split_and!; [|constructor|].
Qed.

(** C11: What a target is sent.  In every state a server can reach, everything a target
    task has put on its socket, followed by everything queued for it, is a selection,
    in the order of arrival and with nothing added, of the payloads that the task's own
    connection had received on the task's flow.  While the flow exists this is the
    connection the server has under the task's id now; when the flow is gone it is the
    connection as it was at some point of the run. *)
Theorem target_sent_received sv (i : nat) t :
  reachable linux Allowed sv → rt_tasks (sv_rt sv) !! i = Some t →
  ∃ sv1 cl, reachable linux Allowed sv1 ∧ rtc (step linux Allowed) sv1 sv ∧
    sv_clients sv1 !! t_conn_id t = Some cl ∧ (t_sender t = true → sv1 = sv) ∧
    sublist ((wire (t_sock t)).*2 ++ queued (t_inbox t))
      (omap (payload_for (t_flow_id t)) (rx_log (cl_conn cl))).
Proof.
  intros Hr Ht. destruct (reachable_accounted sv Hr i t Ht) as [(sv1 & H1 & H2 & cl & Hcl & Hj) Hn].
  destruct (t_sender t).
  - destruct (Hn eq_refl) as (cl' & Hcl' & _ & Hj'). exists sv, cl'. by split_and!.
  - destruct Hj as [_ Hj]. exists sv1, cl. by split_and!.
Qed.
End Flow.

(** The flow of the sample server: "ping" was received on flow 0 and is queued for the
    target. *)
Lemma target_sent_received_witness :
  ∃ t cl, rt_tasks (sv_rt sample_sv1) !! 0 = Some t ∧ sv_clients sample_sv1 !! t_conn_id t = Some cl ∧
    sublist ((wire (UdpLaws := LoopUdpLaws) (t_sock t)).*2 ++ queued (MpscLaws := LoopMpscLaws) (t_inbox t))
      (omap (payload_for (t_flow_id t)) (rx_log (H := LoopHistory) (cl_conn cl))).
Proof.
  pose proof sample_task as Hs. destruct (rt_tasks (sv_rt sample_sv1) !! 0) as [t|] eqn:E; [|destruct Hs].
  destruct (target_sent_received (QT := LoopStreams) (QH := LoopHistory)
    (UL := LoopUdpLaws) (ST := LoopTraffic) (ML := LoopMpscLaws) (HI := HashIterStd)
    true sample_allowed sample_sv1 0 t sample_reachable E) as (sv1 & cl & _ & _ & Hcl & Heq & Hsub).
  exists t, cl. rewrite (Heq (proj2 Hs)) in Hcl.
  split; [reflexivity|]. split; [exact Hcl|exact Hsub].
Defined.
