(* ===== verification/ClientFlow.v ===== *)
(** * What a session carries

    Every flow of a session belongs to one local source: what has been sent on the flow,
    and what still waits for it, was received from this source, in the order of its
    arrival, and what comes out of the tunnel on the flow is addressed to this source.
    Both are invariants of all the turns of a session. *)

From stdpp Require Import functions.
From S2P Require Import Prelude.
From S2P Require Import Net.
From S2P Require Import Dgram.
From S2P Require Import Quiche.
From S2P Require Import Loopback.
From S2P Require Import Io.
From S2P Require Import Client.
From S2P Require Import ClientProps.
From S2P Require Import History.

(** The datagrams of one source. *)
Definition from_source (src : SocketAddr) (l : list (bytes * SocketAddr)) : list bytes :=
  omap (λ p, if bool_decide (p.2 = src) then Some p.1 else None) l.

Lemma from_source_snoc src l data src' :
  from_source src (l ++ [(data, src')]) =
  from_source src l ++ (if bool_decide (src' = src) then [data] else []).
Proof. unfold from_source. rewrite omap_app. cbn. by case_bool_decide. Qed.

Section Fed.
Context {Conn H3 H3Config : Type} {Q : Quiche Conn H3 H3Config}.
Context {QT : QuicheStreams Q} {QH : QuicheHistory Q} {HI : HashIter}.
Local Abbreviation Tunnel := (Tunnel Conn).
Implicit Types (t : Tunnel) (c : Conn) (l : list (bytes * SocketAddr)).

(** What has been sent on a flow. *)
Definition sent_on (fid : Z) c : list bytes := omap (payload_for fid) (tx_log c).

(** What a source has waiting, and what the source of a flow has. *)
Definition pending_of t (src : SocketAddr) : list bytes :=
  fs_pending (default new_flow (tn_by_addr t !! src)).

Definition pending_on t (fid : Z) : list bytes :=
  match tn_flows t !! fid with Some src => pending_of t src | None => [] end.

(** The session has been given [l]: what a flow has sent and has waiting comes from its
    owner, what a source has waiting from itself, and streams from [bound] on are
    unused; and there are no sources but those in [l]. *)
Record fed (own : Z → SocketAddr) (bound : Z) l t : Prop := {
  fed_owner fid src : tn_flows t !! fid = Some src → own fid = src;
  fed_flow fid : sublist (sent_on fid (tn_conn t) ++ pending_on t fid) (from_source (own fid) l);
  fed_source src : sublist (pending_of t src) (from_source src l);
  fed_fresh fid : (0 ≤ fid)%Z → (bound ≤ 4 * fid)%Z → sent_on fid (tn_conn t) = [];
  fed_small fid src : tn_flows t !! fid = Some src → (fid < 2 ^ 60)%Z;
  fed_met src : is_Some (tn_by_addr t !! src) → src ∈ l.*2;
}.

Section Owned.
Context (own : Z → SocketAddr).
Local Abbreviation fed := (fed own).

Lemma fed_known b l t fid src :
  fed b l t → tn_flows t !! fid = Some src →
  sublist (sent_on fid (tn_conn t) ++ pending_of t src) (from_source src l).
Proof.
  intros Hf Hfl. pose proof (fed_flow _ _ _ _ Hf fid) as Hsub. unfold pending_on in Hsub.
  by rewrite Hfl, (fed_owner _ _ _ _ Hf fid src Hfl) in Hsub.
Qed.

(** Other operations on the connection. *)
Lemma fed_conn b l t c :
  tx_log c = tx_log (tn_conn t) → fed b l t → fed b l (mkTunnel c (tn_by_addr t) (tn_flows t)).
Proof.
  intros Hl [H0 H1 H2 H4 H5 H6].
  split; unfold sent_on, pending_on, pending_of in *; cbn [tn_conn tn_by_addr tn_flows];
    rewrite ?Hl; done.
Qed.

Lemma tx_of_logs c c' : logs c' = logs c → tx_log c' = tx_log c.
Proof. unfold tx_log. by intros ->. Qed.

(** More datagrams may be given later. *)
Lemma fed_more b l l' t : fed b l t → fed b (l ++ l') t.
Proof.
  assert (∀ src, sublist (from_source src l) (from_source src (l ++ l'))) as Hs.
  { intros src. unfold from_source. rewrite omap_app. by apply sublist_inserts_r. }
  intros [H0 H1 H2 H4 H5 H6]. split; [done|..|done|done|].
  - intros fid. etransitivity; [apply H1|apply Hs].
  - intros src. etransitivity; [apply H2|apply Hs].
  - intros src Hi%H6. rewrite fmap_app. apply elem_of_app. by left.
Qed.

(** A flow's datagrams on the connection. *)
Lemma sent_on_send fid fid' c data :
  in_width 62 fid → ∃ x, sublist x [data] ∧
    sent_on fid' (send_datagram c fid data) =
    sent_on fid' c ++ (if bool_decide (fid = fid') then x else []).
Proof.
  intros Hw. unfold sent_on, send_datagram, tx_log. destruct (dgram_send _ _) as [r c'] eqn:E.
  apply dgram_send_logs in E. cbn [snd]. rewrite E. cbn [snd]. rewrite omap_app.
  exists (if is_ok r then [data] else []). destruct (is_ok r); cbn.
  - split; [done|]. rewrite payload_for_encode by done.
    by case_bool_decide as Hc; [rewrite (proj2 (Z.eqb_eq _ _))|rewrite (proj2 (Z.eqb_neq _ _))].
  - split; [apply sublist_nil_l|]. by case_bool_decide.
Qed.

Lemma sent_on_sends fid fid' ds c :
  in_width 62 fid → ∃ x, sublist x ds ∧
    sent_on fid' (fold_left (λ c data, send_datagram c fid data) ds c) =
    sent_on fid' c ++ (if bool_decide (fid = fid') then x else []).
Proof.
  intros Hw. revert c. induction ds as [|d ds IH]; intros c; cbn [fold_left].
  - exists []. split; [done|]. by case_bool_decide; rewrite app_nil_r.
  - destruct (sent_on_send fid fid' c d Hw) as (x1 & Hx1 & H1).
    destruct (IH (send_datagram c fid d)) as (x2 & Hx2 & H2). exists (x1 ++ x2).
    split; [by apply (sublist_app _ [d])|]. rewrite H2, H1, <- app_assoc. f_equal.
    by case_bool_decide.
Qed.

(** The flow ids in use are small, and belong to one source each. *)
Lemma flow_id_small b l t fid src :
  tunnel_ok b t → fed b l t → tn_flows t !! fid = Some src → in_width 62 fid.
Proof.
  intros Hok Hf Hfl. pose proof (fed_small _ _ _ _ Hf _ _ Hfl). apply (to_bound _ _ Hok) in Hfl.
  unfold in_width. lia.
Qed.

(** ** The operations on the tables *)

(** Replacing the state of a source, with nothing sent. *)
Lemma pending_of_insert t c src st fl src' :
  pending_of (mkTunnel c (<[src := st]> (tn_by_addr t)) fl) src' =
  if decide (src' = src) then fs_pending st else pending_of t src'.
Proof.
  unfold pending_of. cbn [tn_by_addr]. destruct (decide (src' = src)) as [->|Hne].
  - by rewrite lookup_insert_eq.
  - by rewrite lookup_insert_ne.
Qed.

(** One more datagram of [src]: sent on its flow, or at the end of what waits. *)
Lemma fed_queue b l t c st src data x y :
  fed b l t → sublist (x ++ y) [data] →
  fs_pending st = pending_of t src ++ y → (x ≠ [] → pending_of t src = []) →
  (∀ fid, sent_on fid c = sent_on fid (tn_conn t) ++
     (if bool_decide (tn_flows t !! fid = Some src) then x else [])) →
  (∀ fid, x ≠ [] → tn_flows t !! fid = Some src → (4 * fid < b)%Z) →
  fed b (l ++ [(data, src)]) (mkTunnel c (<[src := st]> (tn_by_addr t)) (tn_flows t)).
Proof.
  intros Hf Hxy Hp Hx Hs Hlt.
  assert (∀ fid, tn_flows t !! fid = Some src →
    sublist (sent_on fid c ++ fs_pending st) (from_source src (l ++ [(data, src)]))) as Hsrc.
  { intros fid Hfl. pose proof (fed_known _ _ _ _ _ Hf Hfl) as Hk.
    rewrite from_source_snoc, bool_decide_true by done.
    rewrite Hs, bool_decide_true, Hp by done. destruct x as [|x0 x].
    - rewrite app_nil_r, app_assoc. by apply sublist_app.
    - rewrite Hx in Hk |- * by done. rewrite app_nil_r in Hk. rewrite <- !app_assoc.
      cbn [app]. by apply sublist_app. }
  split; cbn [tn_conn].
  - apply (fed_owner _ _ _ _ Hf).
  - intros fid. unfold pending_on. cbn [tn_flows].
    destruct (decide (tn_flows t !! fid = Some src)) as [Hfl|Hfl].
    + rewrite Hfl, pending_of_insert, decide_True, (fed_owner _ _ _ _ Hf fid src Hfl) by done. auto.
    + pose proof (fed_flow _ _ _ _ (fed_more _ _ [(data, src)] _ Hf) fid) as Hsub.
      rewrite Hs, bool_decide_false, app_nil_r by done.
      unfold pending_on in Hsub. destruct (tn_flows t !! fid) as [src1|]; [|done].
      rewrite pending_of_insert, decide_False by congruence. done.
  - intros src'. rewrite pending_of_insert. destruct (decide (src' = src)) as [->|Hne].
    + rewrite from_source_snoc, bool_decide_true, Hp by done.
      apply sublist_app; [apply (fed_source _ _ _ _ Hf)|].
      etransitivity; [|exact Hxy]. by apply sublist_inserts_l.
    + apply (fed_source _ _ _ _ (fed_more _ _ [(data, src)] _ Hf)).
  - intros fid H0 Hb. rewrite Hs, (fed_fresh _ _ _ _ Hf) by done. case_bool_decide as Hfl; [|done].
    destruct x as [|x0 x]; [done|]. specialize (Hlt fid ltac:(done) Hfl). lia.
  - apply (fed_small _ _ _ _ Hf).
  - intros src'. cbn [tn_by_addr]. rewrite fmap_app, elem_of_app. destruct (decide (src' = src)) as [->|Hne].
    + right. by left.
    + rewrite lookup_insert_ne by done. intros Hi. left. by apply (fed_met _ _ _ _ Hf).
Qed.

Lemma queue_local_fed b l t p :
  tunnel_ok b t → fed b l t → fed b (l ++ [p]) (queue_local t p).
Proof.
  destruct p as [data src]. intros Hok Hf. unfold queue_local.
  set (st := default new_flow (tn_by_addr t !! src)).
  assert (pending_of t src = fs_pending st) as Hpe by done.
  assert (∀ fid, sent_on fid (tn_conn t) = sent_on fid (tn_conn t) ++
    (if bool_decide (tn_flows t !! fid = Some src) then [] else [])) as Hnone.
  { intros fid. case_bool_decide; by rewrite app_nil_r. }
  assert (fed b (l ++ [(data, src)]) (mkTunnel (tn_conn t)
    (<[src := if length (fs_pending st) <? MAX_PENDING
              then mkFlowState (fs_flow_id st) (fs_established st) (fs_pending st ++ [data]) else st]>
       (tn_by_addr t)) (tn_flows t))) as Hq.
  { destruct (length (fs_pending st) <? MAX_PENDING).
    - by apply (fed_queue _ _ _ _ _ _ _ [] [data]).
    - apply (fed_queue _ _ _ _ _ _ _ [] []); try done; [apply sublist_nil_l|].
      by rewrite app_nil_r. }
  destruct (fs_established st) eqn:He; [|exact Hq].
  destruct (fs_flow_id st) as [fid|] eqn:Hfid; [|exact Hq]. clear Hq.
  assert (tn_by_addr t !! src = Some st) as Hst.
  { unfold st in *. by destruct (tn_by_addr t !! src). }
  assert (tn_flows t !! fid = Some src) as Hfl by (apply (to_inverse _ _ Hok); eauto).
  pose proof (flow_id_small _ _ _ _ _ Hok Hf Hfl) as Hw.
  assert (fs_pending st = []) as Hemp by (by apply (to_flow _ _ Hok src st Hst)).
  destruct (sent_on_send fid fid (tn_conn t) data Hw) as (x & Hx & Hsx).
  assert (∀ fid', tn_flows t !! fid' = Some src → fid' = fid) as Huniq.
  { intros fid' (st' & Hst' & Hid)%(to_inverse _ _ Hok). congruence. }
  apply (fed_queue _ _ _ _ _ _ _ x []); try done.
  - by rewrite app_nil_r.
  - by rewrite app_nil_r.
  - intros fid'. destruct (decide (fid = fid')) as [<-|Hne].
    + rewrite Hsx, !bool_decide_true by done. done.
    + destruct (sent_on_send fid fid' (tn_conn t) data Hw) as (x' & _ & Hsx').
      rewrite Hsx', bool_decide_false by done. rewrite bool_decide_false; [done|].
      intros Hc%Huniq. congruence.
  - intros fid' _ Hfl'. by apply (to_bound _ _ Hok) in Hfl' as [_ ?].
Qed.

Lemma queue_locals_fed b l pkts t :
  tunnel_ok b t → fed b l t → fed b (l ++ pkts) (fold_left queue_local pkts t).
Proof.
  revert l t. induction pkts as [|p pkts IH]; intros l t Hok Hf; cbn [fold_left].
  - by rewrite app_nil_r.
  - rewrite cons_middle, app_assoc. apply IH; [by apply queue_local_ok|by apply queue_local_fed].
Qed.

(** Forgetting sources, or flows with their sources. *)
Lemma fed_forget b l t by' fl' :
  (∀ src, by' !! src = tn_by_addr t !! src ∨ by' !! src = None) →
  (∀ fid, fl' !! fid = tn_flows t !! fid ∨ fl' !! fid = None) →
  fed b l t → fed b l (mkTunnel (tn_conn t) by' fl').
Proof.
  intros Hby Hfl [H0 H1 H2 H4 H5 H6].
  assert (∀ src, sublist (pending_of (mkTunnel (tn_conn t) by' fl') src) (pending_of t src)) as Hp.
  { intros src. unfold pending_of. cbn [tn_by_addr].
    destruct (Hby src) as [-> | ->]; [done|]. apply sublist_nil_l. }
  split; [|..|done| |].
  - intros fid src. cbn [tn_flows]. destruct (Hfl fid) as [-> | ->]; [apply H0|done].
  - intros fid. cbn [tn_conn]. etransitivity; [|exact (H1 fid)]. apply sublist_app; [done|].
    unfold pending_on. cbn [tn_flows]. destruct (Hfl fid) as [-> | ->]; [|apply sublist_nil_l].
    destruct (tn_flows t !! fid); [apply Hp|done].
  - intros src. etransitivity; [apply Hp|apply H2].
  - intros fid src. cbn [tn_flows]. destruct (Hfl fid) as [-> | ->]; [apply H5|done].
  - intros src. cbn [tn_by_addr]. destruct (Hby src) as [-> | ->]; [apply H6|by intros [? ?]].
Qed.

Lemma close_flow_fed b l t fid : fed b l t → fed b l (close_flow fid t).
Proof.
  intros Hf. unfold close_flow. destruct (tn_flows t !! fid) as [src|]; [|done].
  apply fed_forget; [..|done].
  - intros s. destruct (decide (s = src)) as [->|Hne]; [right; apply lookup_delete_eq|left].
    by rewrite lookup_delete_ne.
  - intros s. destruct (decide (s = fid)) as [->|Hne]; [right; apply lookup_delete_eq|left].
    by rewrite lookup_delete_ne.
Qed.

(** The proxy's answer releases what waits, in order. *)
Lemma establish_fed b l t fid : tunnel_ok b t → fed b l t → fed b l (establish fid t).
Proof.
  intros Hok Hf. unfold establish. destruct (tn_flows t !! fid) as [src|] eqn:Hfl; [|done].
  destruct (tn_by_addr t !! src) as [st|] eqn:Hst; [|done].
  pose proof (flow_id_small _ _ _ _ _ Hok Hf Hfl) as Hw.
  assert (pending_of t src = fs_pending st) as Hpe by (unfold pending_of; by rewrite Hst).
  pose proof (fed_known _ _ _ _ _ Hf Hfl) as Hk. rewrite Hpe in Hk.
  assert (∀ fid', tn_flows t !! fid' = Some src → fid' = fid) as Huniq.
  { intros fid' (st' & Hst' & Hid)%(to_inverse _ _ Hok).
    apply (to_inverse _ _ Hok) in Hfl as (st2 & Hst2 & Hid2). congruence. }
  split; cbn [tn_conn]; [apply (fed_owner _ _ _ _ Hf)|..].
  - intros fid'. destruct (sent_on_sends fid fid' (fs_pending st) (tn_conn t) Hw) as (x & Hx & ->).
    unfold pending_on. cbn [tn_flows]. destruct (decide (fid' = fid)) as [->|Hne].
    + rewrite Hfl, pending_of_insert, decide_True, (fed_owner _ _ _ _ Hf fid src Hfl) by done.
      cbn [fs_pending]. rewrite bool_decide_true, app_nil_r by done.
      etransitivity; [|exact Hk]. by apply sublist_app.
    + pose proof (fed_flow _ _ _ _ Hf fid') as Hsub. rewrite bool_decide_false, app_nil_r by done. unfold pending_on in Hsub.
      destruct (tn_flows t !! fid') as [src1|] eqn:Hfl1; [|done].
      rewrite pending_of_insert, decide_False; [done|]. intros ->. by apply Hne, Huniq.
  - intros src'. rewrite pending_of_insert. destruct (decide (src' = src)) as [->|Hne].
    + apply sublist_nil_l.
    + apply (fed_source _ _ _ _ Hf).
  - intros fid' H0 Hb. destruct (sent_on_sends fid fid' (fs_pending st) (tn_conn t) Hw) as (x & Hx & ->).
    rewrite (fed_fresh _ _ _ _ Hf), bool_decide_false; [done| |done..]. intros <-.
    apply (to_bound _ _ Hok) in Hfl. lia.
  - apply (fed_small _ _ _ _ Hf).
  - intros src'. cbn [tn_by_addr]. rewrite lookup_insert_is_Some'. intros Hi.
    apply (fed_met _ _ _ _ Hf). destruct Hi as [<-|Hi]; [by eexists|done].
Qed.

Lemma on_response_fed b l t i ev : tunnel_ok b t → fed b l t → fed b l (on_response i ev t).
Proof.
  intros Hok Hf. unfold on_response. destruct ev; try done; try by apply close_flow_fed.
  destruct (status_of _); [|done]. destruct (_ && _); [by apply establish_fed|by apply close_flow_fed].
Qed.

Lemma poll_responses_fed fuel l h t h' t' :
  tunnel_ok (next_request h) t → fed (next_request h) l t → poll_responses fuel h t = Some (h', t') →
  next_request h' = next_request h ∧ fed (next_request h) l t'.
Proof.
  intros Hok Hf Hl. unfold poll_responses in Hl.
  eapply (loop_invariant _
    (λ s, next_request s.1 = next_request h ∧ tunnel_ok (next_request h) s.2 ∧ fed (next_request h) l s.2)
    (λ s, next_request s.1 = next_request h ∧ fed (next_request h) l s.2)) in Hl; [done|..|done].
  - intros [h1 t1] [h2 t2] (H0 & H1 & H2). cbn [fst snd] in *.
    destruct (poll _ _) as [[[i ev]|e] [h3 c3]] eqn:E; [|done].
    pose proof (tx_of_logs _ _ (poll_logs _ _ _ _ _ E)) as Hlog. apply poll_next in E.
    intros [= <- <-]. split; [congruence|]. split; [by apply on_response_ok, tunnel_ok_conn|].
    apply on_response_fed; [by apply tunnel_ok_conn|by apply fed_conn].
  - intros [h1 t1] [h2 t2] (H0 & H1 & H2). cbn [fst snd] in *.
    destruct (poll _ _) as [[[i ev]|e] [h3 c3]] eqn:E; [done|].
    pose proof (tx_of_logs _ _ (poll_logs _ _ _ _ _ E)) as Hlog. apply poll_next in E.
    intros [= <- <-]. split; [congruence|]. by apply fed_conn.
Qed.
End Owned.

(** ** Owners *)

(** The flows that have been opened so far keep their owners. *)
Definition known (bound fid : Z) : Prop := (0 ≤ fid)%Z ∧ (4 * fid < bound)%Z.

Definition later (b : Z) (own : Z → SocketAddr) (b' : Z) (own' : Z → SocketAddr) : Prop :=
  ∀ fid, known b fid → known b' fid ∧ own' fid = own fid.

Lemma later_refl b own : later b own b own.
Proof. done. Qed.

Lemma later_trans b own b1 own1 b2 own2 :
  later b own b1 own1 → later b1 own1 b2 own2 → later b own b2 own2.
Proof.
  intros H1 H2 fid Hk. destruct (H1 fid Hk) as [Hk1 <-]. by apply H2.
Qed.

(** A source without a flow gets the next stream, which has carried nothing. *)
Lemma opened_fed own l t c src st next :
  tunnel_ok next t → fed own next l t → tx_log c = tx_log (tn_conn t) →
  tn_by_addr t !! src = Some st → fs_flow_id st = None →
  (0 ≤ next < 2 ^ 62)%Z → (next mod 4 = 0)%Z →
  let own' := <[(next / 4)%Z := src]> own in
  later next own (next + 4) own' ∧
  fed own' (next + 4) l
    (mkTunnel c (<[src := mkFlowState (Some (next / 4)%Z) (fs_established st) (fs_pending st)]> (tn_by_addr t))
       (<[(next / 4)%Z := src]> (tn_flows t))).
Proof.
  intros Hok Hf Hl Hst Hid Hr Hm. cbv zeta. set (fid := (next / 4)%Z).
  assert (4 * fid = next)%Z as H4.
  { unfold fid. apply Z.mod_divide in Hm as [k Hk]; [|done]. rewrite Hk, Z.div_mul by done. lia. }
  split.
  { intros fid' [Hk0 Hk]. split; [unfold known; lia|]. rewrite fn_lookup_insert_ne; [done|lia]. }
  assert (pending_of t src = fs_pending st) as Hpe by (unfold pending_of; by rewrite Hst).
  assert (∀ fid', sent_on fid' c = sent_on fid' (tn_conn t)) as Hs by (unfold sent_on; by rewrite Hl).
  assert (∀ src', pending_of (mkTunnel c
    (<[src := mkFlowState (Some fid) (fs_established st) (fs_pending st)]> (tn_by_addr t))
    (<[fid := src]> (tn_flows t))) src' = pending_of t src') as Hp.
  { intros src'. rewrite pending_of_insert. destruct (decide (src' = src)) as [->|]; done. }
  split; cbn [tn_conn].
  - intros fid' src'. cbn [tn_flows]. rewrite lookup_insert_Some. intros [[<- <-]|[Hne Hfl]].
    + apply fn_lookup_insert.
    + rewrite fn_lookup_insert_ne by done. by apply (fed_owner _ _ _ _ Hf).
  - intros fid'. unfold pending_on. cbn [tn_flows]. rewrite Hs.
    destruct (decide (fid' = fid)) as [->|Hne].
    + rewrite lookup_insert_eq, Hp, fn_lookup_insert, (fed_fresh _ _ _ _ Hf) by lia.
      apply (fed_source _ _ _ _ Hf).
    + rewrite lookup_insert_ne, fn_lookup_insert_ne by done.
      pose proof (fed_flow _ _ _ _ Hf fid') as Hsub. unfold pending_on in Hsub.
      destruct (tn_flows t !! fid'); [|done]. by rewrite Hp.
  - intros src'. rewrite Hp. apply (fed_source _ _ _ _ Hf).
  - intros fid' H0 Hb. rewrite Hs. apply (fed_fresh _ _ _ _ Hf); lia.
  - intros fid' src'. cbn [tn_flows]. rewrite lookup_insert_Some.
    intros [[<- _]|[_ Hfl]]; [lia|]. by apply (fed_small _ _ _ _ Hf) in Hfl.
  - intros src'. cbn [tn_by_addr]. rewrite lookup_insert_is_Some'. intros Hi.
    apply (fed_met _ _ _ _ Hf). destruct Hi as [<-|Hi]; [by eexists|done].
Qed.

Lemma open_one_fed own hs p rest l (s : H3 * Tunnel * list SocketAddr) :
  opening (p :: rest) s → fed own (next_request s.1.1) l s.1.2 →
  let s' := open_one hs s p in
  ∃ own', later (next_request s.1.1) own (next_request s'.1.1) own' ∧
    fed own' (next_request s'.1.1) l s'.1.2.
Proof.
  destruct s as [[h t] dropped], p as [src st]. intros [Hok Hr _ _] Hf. cbn [fst snd] in *.
  assert (tn_by_addr t !! src = Some st) as Hst by (apply (Hr (src, st)); by left).
  cbn [open_one]. destruct (fs_flow_id st) as [fid0|] eqn:Hid; [by exists own|].
  destruct (send_request h (tn_conn t) hs false) as [r [h' c]] eqn:E.
  pose proof (tx_of_logs _ _ (request_logs _ _ _ _ _ _ _ E)) as Hl.
  pose proof (request_next _ _ _ _ _ _ _ E) as (H0 & Hm & Hn). destruct r as [i|e].
  - pose proof (request_small _ _ _ _ _ _ E) as Hi. destruct Hn as [-> Hn]. cbn [fst snd].
    rewrite Hn. eexists. by apply opened_fed.
  - exists own. destruct e; cbn [fst snd]; rewrite Hn; (split; [apply later_refl|by apply fed_conn]).
Qed.

Lemma open_fold_fed own hs rest l (s : H3 * Tunnel * list SocketAddr) :
  opening rest s → fed own (next_request s.1.1) l s.1.2 →
  let s' := fold_left (open_one hs) rest s in
  ∃ own', later (next_request s.1.1) own (next_request s'.1.1) own' ∧
    fed own' (next_request s'.1.1) l s'.1.2.
Proof.
  revert own s. induction rest as [|p rest IH]; intros own s Ho Hf; [by exists own|]. cbn [fold_left].
  destruct (open_one_fed _ hs _ _ _ _ Ho Hf) as (own1 & H1 & Hf1).
  destruct (IH own1 (open_one hs s p)) as (own2 & H2 & Hf2); [by apply open_one_ok|done|].
  exists own2. split; [by eapply later_trans|done].
Qed.

Lemma open_pending_flows_fed own au pa l h t h' t' :
  tunnel_ok (next_request h) t → fed own (next_request h) l t →
  open_pending_flows au pa h t = (h', t') →
  ∃ own', later (next_request h) own (next_request h') own' ∧ fed own' (next_request h') l t'.
Proof.
  intros Hok Hf. unfold open_pending_flows. pose proof (iter_perm (tn_by_addr t)) as Hp.
  assert (opening (iter (tn_by_addr t)) (h, t, [])) as Ho.
  { split; cbn [fst snd]; [done|..].
    - intros [src st]. rewrite Hp. apply elem_of_map_to_list.
    - rewrite Hp. apply NoDup_fst_map_to_list.
    - by intros src ?%not_elem_of_nil. }
  clear Hp. pose proof (open_fold_fed own (connect_headers au pa) _ l _ Ho Hf) as (own' & Hl & Hfold).
  destruct (fold_left _ _ _) as [[h1 t1] dropped]. cbn [fst snd] in *. intros [= <- <-].
  exists own'. split; [done|].
  unfold remove_sources. apply fed_forget; [|by left|done]. intros src. rewrite fold_delete_lookup.
  case_decide; [by right|by left].
Qed.

(** ** Sending receives nothing *)
Lemma rx_of_logs c c' : logs c' = logs c → rx_log c' = rx_log c.
Proof. unfold rx_log. by intros ->. Qed.

Lemma send_datagram_rx c fid data : rx_log (send_datagram c fid data) = rx_log c.
Proof.
  unfold send_datagram, rx_log. destruct (dgram_send _ _) as [r c'] eqn:E.
  apply dgram_send_logs in E. cbn [snd]. by rewrite E.
Qed.

Lemma queue_locals_rx pkts t : rx_log (tn_conn (fold_left queue_local pkts t)) = rx_log (tn_conn t).
Proof.
  revert t. induction pkts as [|[data src] pkts IH]; intros t; cbn [fold_left]; [done|]. rewrite IH.
  unfold queue_local. destruct (fs_established _), (fs_flow_id _); cbn [tn_conn]; try done.
  apply send_datagram_rx.
Qed.

Lemma close_flow_rx fid t : tn_conn (close_flow fid t) = tn_conn t.
Proof. unfold close_flow. by destruct (tn_flows t !! fid). Qed.

Lemma on_response_rx i ev t : rx_log (tn_conn (on_response i ev t)) = rx_log (tn_conn t).
Proof.
  unfold on_response. destruct ev; try done; try by rewrite close_flow_rx.
  destruct (status_of _); [|done]. destruct (_ && _); [|by rewrite close_flow_rx].
  unfold establish. destruct (tn_flows t !! _) as [src|]; [|done].
  destruct (tn_by_addr t !! src) as [st|]; [|done]. cbn [tn_conn].
  generalize (tn_conn t). induction (fs_pending st) as [|d ds IH]; intros c; cbn [fold_left]; [done|].
  by rewrite IH, send_datagram_rx.
Qed.

Lemma poll_responses_rx fuel h t h' t' :
  poll_responses fuel h t = Some (h', t') → rx_log (tn_conn t') = rx_log (tn_conn t).
Proof.
  intros Hl. unfold poll_responses in Hl.
  eapply (loop_invariant _ (λ s, rx_log (tn_conn s.2) = rx_log (tn_conn t))
    (λ s, rx_log (tn_conn s.2) = rx_log (tn_conn t))) in Hl; [done|..|done].
  - intros [h1 t1] [h2 t2] <-. cbn [fst snd] in *.
    destruct (poll _ _) as [[[i ev]|e] [h3 c3]] eqn:E; [|done]. apply poll_logs, rx_of_logs in E.
    intros [= _ <-]. by rewrite on_response_rx.
  - intros [h1 t1] [h2 t2] <-. cbn [fst snd] in *.
    destruct (poll _ _) as [[[i ev]|e] [h3 c3]] eqn:E; [done|]. apply poll_logs, rx_of_logs in E.
    by intros [= _ <-].
Qed.

Lemma open_pending_flows_rx au pa h t h' t' :
  open_pending_flows au pa h t = (h', t') → rx_log (tn_conn t') = rx_log (tn_conn t).
Proof.
  assert (∀ hs rest (s : H3 * Tunnel * list SocketAddr),
    rx_log (tn_conn (fold_left (open_one hs) rest s).1.2) = rx_log (tn_conn s.1.2)) as Hfold.
  { intros hs rest. induction rest as [|[src st] rest IH]; intros s; cbn [fold_left]; [done|]. rewrite IH.
    destruct s as [[h1 t1] dropped]. cbn [open_one fst snd]. destruct (fs_flow_id st); [done|].
    destruct (send_request _ _ _ _) as [r [h2 c]] eqn:E. apply request_logs, rx_of_logs in E.
    by destruct r as [|[]]. }
  unfold open_pending_flows.
  pose proof (Hfold (connect_headers au pa) (iter (tn_by_addr t)) (h, t, [])) as H.
  destruct (fold_left _ _ _) as [[h1 t1] dropped]. intros [= _ <-]. exact H.
Qed.
End Fed.

(** ** What comes out of the tunnel *)

(** A UDP datagram of the tunnel: its flow and its payload. *)
Definition flow_payload (b : bytes) : option (Z * bytes) :=
  match decode b with
  | Returns (Some p) =>
      if (context_id p =? CONTEXT_ID_UDP)%Z then Some (flow_id p, payload p) else None
  | _ => None
  end.

Lemma flow_payload_encode fid pl :
  in_width 62 fid → flow_payload (Dgram.encode fid pl) = Some (fid, pl).
Proof. intros Hf. unfold flow_payload. by rewrite decode_encode. Qed.

Lemma tunnel_target_flow (flows : gmap Z SocketAddr) buf src pl :
  tunnel_target flows buf = Returns (Some (src, pl)) →
  ∃ fid, flows !! fid = Some src ∧ flow_payload buf = Some (fid, pl).
Proof.
  unfold tunnel_target, flow_payload. destruct (decode_never_panics buf) as [[p|] ->]; cbn; [|done].
  destruct (_ =? _)%Z; cbn; [|done]. destruct (flows !! flow_id p) as [src'|] eqn:E; [|done].
  intros [= -> <-]. eauto.
Qed.

Section Delivered.
Context {Conn H3 H3Config Sock : Type} {Q : Quiche Conn H3 H3Config} {QH : QuicheHistory Q}.
Context {U : UdpSys Sock} {UL : UdpLaws U} (linux : bool).
Implicit Types (c : Conn) (ls : Sock).

(** Since the local socket had sent [w0], it has sent payloads received on flows that
    have been opened, each to the owner of its flow, who is one of the sources of [l]. *)
Definition delivered (own : Z → SocketAddr) (bound : Z) (l : list (bytes * SocketAddr)) w0 c ls : Prop :=
  ∃ d, wire ls = w0 ++ map (λ p, (Some (own p.1), p.2)) d ∧
    sublist d (omap flow_payload (rx_log c)) ∧
    Forall (λ p, known bound p.1 ∧ own p.1 ∈ l.*2) d.

Lemma delivered_later own b own' b' l l' w0 c c' ls :
  later b own b' own' → rx_log c' = rx_log c →
  delivered own b l w0 c ls → delivered own' b' (l ++ l') w0 c' ls.
Proof.
  intros Hl Hc (d & Hw & Hs & Hk). exists d. rewrite Hc, Hw. split_and!; [|done|].
  - f_equal. apply map_ext_Forall. eapply Forall_impl; [exact Hk|]. intros p [H _]. f_equal. f_equal.
    symmetry. by apply Hl.
  - eapply Forall_impl; [exact Hk|]. intros p [H Hin]. apply Hl in H as [H ->].
    rewrite fmap_app, elem_of_app. auto.
Qed.

Lemma delivered_same own b own' b' l w0 c c' ls :
  later b own b' own' → rx_log c' = rx_log c →
  delivered own b l w0 c ls → delivered own' b' l w0 c' ls.
Proof.
  intros Hl Hc Hd. rewrite <- (app_nil_r l). by eapply delivered_later.
Qed.

Lemma send_udp_wire fuel ls buf to r ls' :
  send_udp linux fuel ls buf to = Some (r, ls') →
  wire ls' = wire ls ++ (if is_ok r then [(Some to, buf)] else []).
Proof.
  unfold send_udp, send_batch, SendBatch.push_first, SendBatch.take. cbn [SendBatch.to].
  unfold send_packets.
  cbn [SendBatch.packets SendBatch.segment_size SendBatch.new app length concat].
  change (1 <? 1) with false. rewrite app_nil_r, !andb_false_r. cbn [andb].
  destruct (send_payload _ _ _ _ _ _) as [[[u|e] s1]|] eqn:E; [..|done];
    apply send_payload_wire in E; try done; by intros [= <- <-].
Qed.

(** One datagram of the tunnel. *)
Lemma route_one_delivers own b l w0 flows fuel c ls :
  (∀ fid src, flows !! fid = Some src → own fid = src ∧ known b fid ∧ src ∈ l.*2) →
  delivered own b l w0 c ls →
  match route_one linux fuel flows (c, ls) with
  | inl (c', ls') | inr (Some (Returns (c', ls'))) => delivered own b l w0 c' ls'
  | inr _ => True
  end.
Proof.
  intros Hf (d & Hw & Hs & Hk). unfold route_one.
  destruct (dgram_recv _ _) as [[buf|e] c1] eqn:E; apply dgram_recv_logs in E.
  2:{ exists d. split_and!; [done| |done]. unfold rx_log in *. rewrite E. cbn. by rewrite app_nil_r. }
  assert (rx_log c1 = rx_log c ++ [buf]) as Hr by (unfold rx_log; by rewrite E).
  destruct (tunnel_target flows buf) as [[[src pl]|]|] eqn:Et; [| |done].
  2:{ exists d. split_and!; [done| |done]. rewrite Hr, omap_app. by apply sublist_inserts_r. }
  apply tunnel_target_flow in Et as (fid & Hfl & Hp). destruct (Hf _ _ Hfl) as (Ho & Hkn & Hin).
  destruct (send_udp _ _ _ _ _) as [[r ls']|] eqn:Es; [|done]. apply send_udp_wire in Es.
  exists (d ++ if is_ok r then [(fid, pl)] else []). split_and!.
  - rewrite Es, Hw, map_app, app_assoc. f_equal. destruct (is_ok r); [|done]. cbn. by rewrite Ho.
  - rewrite Hr, omap_app. apply sublist_app; [done|]. cbn. rewrite Hp.
    destruct (is_ok r); [done|apply sublist_nil_l].
  - apply Forall_app. split; [done|]. destruct (is_ok r); [|constructor].
    apply Forall_singleton. cbn. by rewrite Ho.
Qed.

Lemma route_delivers own b l w0 flows fuel c ls c' ls' :
  (∀ fid src, flows !! fid = Some src → own fid = src ∧ known b fid ∧ src ∈ l.*2) →
  delivered own b l w0 c ls →
  route_tunnel_datagrams linux fuel flows c ls = Some (Returns (c', ls')) →
  delivered own b l w0 c' ls'.
Proof.
  unfold route_tunnel_datagrams. intros Hf Hd H. destruct (loop _ _ _) as [o|] eqn:E; [|done].
  simpl in H. subst o.
  eapply (loop_invariant _ (λ x : Conn * Sock, delivered own b l w0 x.1 x.2)
    (λ o, match o with Some (Returns x) => delivered own b l w0 x.1 x.2 | _ => True end)) in E;
    [done|..|done].
  - intros [c1 s1] [c2 s2] H He. pose proof (route_one_delivers _ _ _ _ _ fuel c1 s1 Hf H) as Hd1.
    by rewrite He in Hd1.
  - intros [c1 s1] o H He. pose proof (route_one_delivers _ _ _ _ _ fuel c1 s1 Hf H) as Hd1.
    rewrite He in Hd1. by destruct o as [[[]|]|].
Qed.
End Delivered.

(** ** Turns of a session *)

Section Turns.
Context {Conn H3 H3Config Sock : Type} {Q : Quiche Conn H3 H3Config}.
Context {QT : QuicheStreams Q} {QH : QuicheHistory Q} {U : UdpSys Sock} {UL : UdpLaws U}.
Context {HI : HashIter} (linux : bool).
Local Abbreviation Tunnel := (Tunnel Conn).
Local Abbreviation Session := (Session (Conn := Conn) (H3 := H3) (Sock := Sock)).
Implicit Types (t : Tunnel) (s : Session) (c : Conn) (l : list (bytes * SocketAddr)).

Definition stream_bound s : Z := match se_http3 s with Some h => next_request h | None => 0%Z end.

Record session_fed own w0 l s : Prop := {
  sf_ok : session_ok s;
  sf_fed : fed own (stream_bound s) l (se_tunnel s);
  sf_delivered : delivered own (stream_bound s) l w0 (tn_conn (se_tunnel s)) (se_lsock s);
}.

(** Receiving from the tunnel sends nothing into it. *)
Lemma route_tx fuel flows c (ls : Sock) c' ls' :
  route_tunnel_datagrams linux fuel flows c ls = Some (Returns (c', ls')) → tx_log c' = tx_log c.
Proof.
  unfold route_tunnel_datagrams. intros H. destruct (loop _ _ _) as [o|] eqn:E; [|done].
  simpl in H. subst o.
  eapply (loop_invariant _ (λ x : Conn * Sock, tx_log x.1 = tx_log c)
    (λ o, match o with Some (Returns x) => tx_log x.1 = tx_log c | _ => True end)) in E; [done|..|done].
  - intros [c1 s1] [c2 s2] H. cbn [fst] in *. unfold route_one.
    destruct (dgram_recv _ _) as [[buf|e] c4] eqn:Ed; [|done]. apply dgram_recv_logs in Ed.
    assert (tx_log c4 = tx_log c) as Hc by (unfold tx_log in *; by rewrite Ed).
    destruct (tunnel_target flows buf) as [[[src data]|]|]; [|by intros [= <- _]|done].
    destruct (send_udp _ _ _ _ _) as [[r0 s4]|]; [|done]. by intros [= <- _].
  - intros [c1 s1] o H. cbn [fst] in *. unfold route_one.
    destruct (dgram_recv _ _) as [[buf|e] c4] eqn:Ed; apply dgram_recv_logs in Ed.
    + destruct (tunnel_target flows buf) as [[[src data]|]|]; [|done|by intros [= <-]].
      destruct (send_udp _ _ _ _ _) as [[r0 s4]|]; [done|]. by intros [= <-].
    + intros [= <-]. cbn. unfold tx_log in *. by rewrite Ed.
Qed.

Lemma recv_packets_logs a pkts c : logs (recv_packets a pkts c) = logs c.
Proof.
  unfold recv_packets. revert c. induction pkts as [|p pkts IH]; intros c; cbn [fold_left]; [done|].
  rewrite IH. destruct (recv c p.1 a p.2) as [r c'] eqn:E. by apply recv_logs in E.
Qed.

(** Other operations on the connection. *)
Lemma session_fed_conn own w0 l s c :
  logs c = logs (tn_conn (se_tunnel s)) → session_fed own w0 l s →
  session_fed own w0 l (set_tunnel_conn s c).
Proof.
  intros Hl [H1 H2 Hd]. split; [by apply tunnel_ok_conn| |].
  - apply fed_conn; [by apply tx_of_logs|done].
  - eapply delivered_same; [apply later_refl|by apply rx_of_logs|exact Hd].
Qed.

Lemma start_http3_fed h3c own w0 l s s' :
  session_fed own w0 l s → start_http3 h3c s = Some s' →
  later (stream_bound s) own (stream_bound s') own ∧ session_fed own w0 l s'.
Proof.
  intros [Hok Hf Hd] E. pose proof E as Hok'. apply start_http3_ok in Hok'; [|done].
  unfold start_http3 in E. destruct (_ && _) eqn:Ec; [|by injection E as <-]. bools.
  destruct (with_transport _ _) as [[h|e] c] eqn:Et; [|done]. injection E as <-.
  apply transport_logs in Et. unfold stream_bound in *. cbn [se_http3 se_tunnel].
  match goal with H : se_http3 s = None |- _ => rewrite H in * end.
  assert (later 0 own (next_request h) own) as Hlat by (intros fid [? ?]; lia).
  split; [done|]. split; [done|..]; cbn [se_tunnel se_http3 se_lsock tn_conn].
  - apply (fed_conn _ _ _ _ c (tx_of_logs _ _ Et)) in Hf. destruct Hf as [Hown H1 H2 H4 H5 H6].
    split; try done. intros fid Hge _. apply H4; lia.
  - eapply delivered_same; [exact Hlat|by apply rx_of_logs|exact Hd].
Qed.

Lemma serve_http3_fed fuel own w0 l s r :
  session_fed own w0 l s → serve_http3 linux fuel s = Some r →
  ∃ s' own', r = Returns s' ∧ later (stream_bound s) own (stream_bound s') own' ∧
    session_fed own' w0 l s'.
Proof.
  intros [Hok Hf Hd] E. pose proof E as E2. apply serve_http3_ok in E2 as (s' & -> & Hok'); [|done].
  exists s'. unfold session_ok, stream_bound, serve_http3 in *.
  destruct (se_http3 s) as [h|] eqn:Eh.
  2:{ injection E as <-. exists own. split; [done|]. rewrite Eh. split; [done|].
      split; unfold stream_bound, session_ok; by rewrite Eh. }
  destruct (open_pending_flows _ _ _ _) as [h1 t1] eqn:Eo.
  pose proof (open_pending_flows_fed _ _ _ _ _ _ _ _ Hok Hf Eo) as (own1 & Hlat & Hf1).
  pose proof (open_pending_flows_rx _ _ _ _ _ _ Eo) as Hr1.
  eapply open_pending_flows_ok in Eo; [|done].
  destruct (poll_responses _ _ _) as [[h2 t2]|] eqn:Ep; [|done].
  pose proof (poll_responses_rx _ _ _ _ _ Ep) as Hr2.
  pose proof (poll_responses_fed _ _ _ _ _ _ _ Eo Hf1 Ep) as [Hn Hf2].
  apply poll_responses_ok in Ep as [Ep _]; [|done].
  destruct (route_tunnel_datagrams _ _ _ _ _) as [[[c ls]|]|] eqn:Er; try done.
  pose proof (route_tx _ _ _ _ _ _ Er) as Htx. injection E as <-. cbn [se_http3] in *.
  exists own1. rewrite Hn in *. split; [done|]. split; [done|].
  split; cbn [se_tunnel se_lsock tn_conn]; unfold stream_bound; cbn [se_http3]; rewrite ?Hn.
  - unfold session_ok. cbn [se_http3 se_tunnel]. rewrite Hn. by apply tunnel_ok_conn.
  - by apply fed_conn.
  - eapply route_delivers in Er; [exact Er| |].
    + intros fid src Hfl. split; [by apply (fed_owner _ _ _ _ Hf2)|].
      split; [apply (to_bound _ _ Ep) in Hfl; unfold known; lia|].
      apply (to_inverse _ _ Ep) in Hfl as (st & Hst & _). apply (fed_met _ _ _ _ Hf2). by eexists.
    + eapply delivered_same; [exact Hlat| |exact Hd]. congruence.
Qed.

(** A turn keeps the invariant, whether or not it ends the session; flows that were
    open keep their owners. *)
Lemma session_turn_fed fuel h3c w own w0 l s x :
  session_fed own w0 l s → session_turn linux fuel h3c w s = Some (Returns x) →
  ∃ own', match x with
  | inl s' | inr s' =>
      later (stream_bound s) own (stream_bound s') own' ∧
      session_fed own' w0 (l ++ wk_local_pkts w) s'
  end.
Proof.
  intros Hs. unfold session_turn.
  assert (∀ own s', session_fed own w0 l s' → session_fed own w0 (l ++ wk_local_pkts w) s') as Hmore.
  { intros own' s' [H1 H2 H4]. split; [done|by apply fed_more|].
    by eapply delivered_later; [apply later_refl| |]. }
  destruct (wk_recv_ended w); [intros [= <-]; exists own; auto using later_refl|].
  cbv zeta. set (c := if wk_keepalive w then _ else _).
  assert (logs c = logs (tn_conn (se_tunnel s))) as Hc.
  { unfold c. destruct (wk_keepalive w), (wk_timeout w);
      rewrite ?ack_logs, ?on_timeout_logs; apply recv_packets_logs. }
  apply (session_fed_conn _ _ _ _ _ Hc) in Hs.
  change (stream_bound s) with (stream_bound (set_tunnel_conn s c)).
  destruct (is_closed _); [intros [= <-]; exists own; auto using later_refl|].
  destruct (start_http3 _ _) as [s1|] eqn:E1; [|intros [= <-]; exists own; auto using later_refl].
  eapply start_http3_fed in E1 as [Hl1 Hs1]; [|exact Hs].
  destruct (serve_http3 _ _ _) as [r2|] eqn:E2; [|done].
  eapply (serve_http3_fed _ own w0 (l ++ wk_local_pkts w)) in E2 as (s2 & own2 & -> & Hl2 & H2).
  2:{ destruct Hs1 as [Ha Hb Hd]. split; [by apply queue_locals_ok|by apply queue_locals_fed|].
      eapply delivered_later; [apply later_refl| |exact Hd]. apply queue_locals_rx. }
  assert (later (stream_bound (set_tunnel_conn s c)) own (stream_bound s2) own2) as Hl
    by (by eapply later_trans).
  destruct (flush_connection _ _ _ _) as [[[u|e] st]|] eqn:Efl; [| |done].
  - apply flush_connection_logs in Efl. intros [= <-]. exists own2. split; [exact Hl|].
    apply (session_fed_conn _ _ _ _ _ Efl) in H2. destruct H2 as [Ha Hb Hd]. by split.
  - intros [= <-]. by exists own2.
Qed.

(** The states of a session together with the local datagrams it has been given so
    far; [run_session] starts from a connection that has carried nothing, with a local
    socket that has sent [w0]. *)
Inductive session_given w0 : list (bytes * SocketAddr) → Session → Prop :=
| given_start fuel d lsock s :
    logs (di_conn d) = ([], []) → wire lsock = w0 →
    session_start linux fuel d lsock = Some (inl s) → session_given w0 [] s
| given_turn fuel h3c w l s s' :
    session_given w0 l s → session_turn linux fuel h3c w s = Some (Returns (inl s')) →
    session_given w0 (l ++ wk_local_pkts w) s'
| given_receives l s qsock lsock :
    session_given w0 l s → wire lsock = wire (se_lsock s) →
    session_given w0 l (set_sockets s qsock lsock).

(** The same with the state in which the session has ended. *)
Definition session_over w0 (l : list (bytes * SocketAddr)) s : Prop :=
  session_given w0 l s ∨
  ∃ fuel h3c w l0 s0, session_given w0 l0 s0 ∧ l = l0 ++ wk_local_pkts w ∧
    session_turn linux fuel h3c w s0 = Some (Returns (inr s)).

Lemma session_given_fed w0 l s : session_given w0 l s → ∃ own, session_fed own w0 l s.
Proof.
  induction 1 as [fuel d ls s Hl Hw H|fuel h3c w l s s' _ [own IH] H|l s q ls _ [own IH] Hw].
  - exists (λ _, SockV4 0 0).
    assert (session_reachable linux s) as Hr%session_reachable_ok by by econstructor.
    unfold session_start in H.
    destruct (flush_connection _ _ _ _) as [[[u|e] st]|] eqn:E; try done. injection H as <-.
    apply flush_connection_logs in E.
    assert (∀ fid, sent_on fid (f_conn st) = []) as Hn.
    { intros fid. unfold sent_on, tx_log. by rewrite E, Hl. }
    split; [done| |].
    + split; cbn [se_tunnel tn_conn tn_flows].
      * by intros ? ? ?%lookup_empty_Some.
      * intros fid. unfold pending_on. cbn [tn_flows]. rewrite Hn, lookup_empty. apply sublist_nil_l.
      * intros src. unfold pending_of. cbn [tn_by_addr]. rewrite lookup_empty. apply sublist_nil_l.
      * done.
      * by intros ? ? ?%lookup_empty_Some.
      * cbn [tn_by_addr]. by intros ? [? ?%lookup_empty_Some].
    + exists []. cbn [se_lsock]. rewrite app_nil_r. split_and!; [done|apply sublist_nil_l|constructor].
  - eapply session_turn_fed in H as (own' & _ & H); [|done]. eauto.
  - exists own. destruct IH as [H1 H2 (d & Hd & Hs & Hk)]. split; [done..|].
    exists d. cbn [se_lsock set_sockets]. rewrite Hw. by split_and!.
Qed.

Lemma session_over_fed w0 l s : session_over w0 l s → ∃ own, session_fed own w0 l s.
Proof.
  intros [H|(fuel & h3c & w & l0 & s0 & H & -> & Ht)]; [by apply session_given_fed|].
  apply session_given_fed in H as [own H]. eapply session_turn_fed in Ht as (own' & _ & ?); eauto.
Qed.

(** What a session carries on each flow, in both directions. *)
Lemma session_carries w0 (l : list (bytes * SocketAddr)) s :
  session_over w0 l s →
  ∃ own : Z → SocketAddr,
    (∀ fid src, tn_flows (se_tunnel s) !! fid = Some src → own fid = src) ∧
    (∀ fid, sublist (omap (payload_for fid) (tx_log (tn_conn (se_tunnel s))) ++
                     pending_on (se_tunnel s) fid)
              (from_source (own fid) l)) ∧
    ∃ d, wire (se_lsock s) = w0 ++ map (λ p, (Some (own p.1), p.2)) d ∧
      sublist d (omap flow_payload (rx_log (tn_conn (se_tunnel s)))) ∧
      Forall (λ p, own p.1 ∈ l.*2) d.
Proof.
  intros (own & [_ Hf (d & Hw & Hs & Hk)])%session_over_fed.
  exists own. split_and!; [apply (fed_owner _ _ _ _ Hf)|apply (fed_flow _ _ _ _ Hf)|].
  exists d. split_and!; [done|done|]. eapply Forall_impl; [exact Hk|]. by intros p [_ ?].
Qed.

(** C8: Local applications are kept apart.  Whatever a session has done, there is one
    local source to every flow such that: what has been sent into the tunnel on the
    flow, followed by what waits for it, was received from that source, in the order of
    arrival and with nothing added; and what the session has sent on the local socket
    are payloads of datagrams received from the tunnel, in the order of their arrival
    and each addressed to the source of its own flow, which had sent something to the
    session before.  So no application is ever sent what was meant for another, nobody
    else is sent anything, and no traffic is mixed into another's flow; this holds
    through every turn of the session, the last one included. *)
Theorem sources_kept_apart w0 (l : list (bytes * SocketAddr)) s :
  session_over w0 l s →
  ∃ own : Z → SocketAddr,
    (∀ fid src, tn_flows (se_tunnel s) !! fid = Some src → own fid = src) ∧
    (∀ fid, sublist (omap (payload_for fid) (tx_log (tn_conn (se_tunnel s))) ++
                     pending_on (se_tunnel s) fid)
              (from_source (own fid) l)) ∧
    ∃ d, wire (se_lsock s) = w0 ++ map (λ p, (Some (own p.1), p.2)) d ∧
      sublist d (omap flow_payload (rx_log (tn_conn (se_tunnel s)))) ∧
      Forall (λ p, own p.1 ∈ l.*2) d.
Proof. apply session_carries. Qed.
End Turns.

(** In the sample session "ping" was received from one source and sent on flow 0, and
    "pong" came back. *)
Lemma sample_given :
  session_given (QH := LoopHistory) (UL := LoopUdpLaws) (HI := HashIterStd) true []
    [(str "ping", SockV4 2 7)] sample_se1.
Proof.
  apply (given_turn (QH := LoopHistory) (UL := LoopUdpLaws) (HI := HashIterStd) true [] 9 tt
    (mkWakeup [] [(str "ping", SockV4 2 7)] false false false) [] sample_se0).
  - eapply given_start; [| |exact sample_start_ok]; reflexivity.
  - exact sample_turn_ok.
Qed.

Lemma sources_kept_apart_witness :
  ∃ own : Z → SocketAddr, ∃ d,
    sublist (omap (payload_for 0) (tx_log (H := LoopHistory) (tn_conn (se_tunnel sample_se1))) ++
      pending_on (se_tunnel sample_se1) 0) (from_source (own 0%Z) [(str "ping", SockV4 2 7)]) ∧
    ls_wire (se_lsock sample_se1) = map (λ p, (Some (own p.1), p.2)) d.
Proof.
  destruct (sources_kept_apart (QT := LoopStreams) (QH := LoopHistory) (UL := LoopUdpLaws)
    (HI := HashIterStd) true [] [(str "ping", SockV4 2 7)] sample_se1 (or_introl sample_given))
    as (own & _ & Hs & d & Hw & _ & _).
  exists own, d. split; [exact (Hs 0%Z)|exact Hw].
Defined.
