(* ===== verification/ClientRefine.v ===== *)
(** * A session as a table of sources

    What a session of the client promises, without packets, streams and HTTP/3 events: a
    table of local sources, each waiting for a flow, waiting for the proxy's answer, or
    open.  Every turn of Client.v is a sequence of steps of this table that takes every
    local datagram it was given, in order, and offers to the connection what these steps
    put out. *)

From S2P Require Import Prelude.
From S2P Require Import Net.
From S2P Require Import Dgram.
From S2P Require Import Quiche.
From S2P Require Import Loopback.
From S2P Require Import Io.
From S2P Require Import Client.
From S2P Require Import ClientProps.
From S2P Require Import History.
From S2P Require Import ClientFlow.

(** ** The specification *)

Inductive source :=
| Waiting (buf : list bytes)
| Asked (fid : Z) (buf : list bytes)
| Open (fid : Z).

Definition flow_of (a : source) : option Z :=
  match a with Waiting _ => None | Asked fid _ | Open fid => Some fid end.

Abbreviation Sources := (gmap SocketAddr source).

Inductive slabel :=
| Queued (src : SocketAddr) (data : bytes)
| Overflowed (src : SocketAddr) (data : bytes)
| Passed (src : SocketAddr) (fid : Z) (data : bytes)
| Requested (src : SocketAddr) (fid : Z)
| Refused (src : SocketAddr)
| Accepted (src : SocketAddr) (fid : Z) (buf : list bytes)
| Closed (src : SocketAddr) (fid : Z).

(** Appending to the buffer of a source that is not open. *)
Definition push (a : source) (data : bytes) : source :=
  match a with
  | Waiting buf => Waiting (buf ++ [data])
  | Asked fid buf => Asked fid (buf ++ [data])
  | Open fid => Open fid
  end.

Definition buffer (a : source) : list bytes :=
  match a with Waiting buf | Asked _ buf => buf | Open _ => [] end.

Definition is_open (a : source) : bool := match a with Open _ => true | _ => false end.

Inductive source_step : slabel → Sources → Sources → Prop :=
| source_queues src data A a :
    default (Waiting []) (A !! src) = a → is_open a = false → length (buffer a) < MAX_PENDING →
    source_step (Queued src data) A (<[src := push a data]> A)
| source_overflows src data A a :
    A !! src = Some a → is_open a = false → MAX_PENDING ≤ length (buffer a) →
    source_step (Overflowed src data) A A
| source_passes src fid data A :
    A !! src = Some (Open fid) → source_step (Passed src fid data) A A
| source_asks src fid buf A :
    A !! src = Some (Waiting buf) → (∀ src' a, A !! src' = Some a → flow_of a ≠ Some fid) →
    source_step (Requested src fid) A (<[src := Asked fid buf]> A)
| source_refused src buf A :
    A !! src = Some (Waiting buf) → source_step (Refused src) A (delete src A)
| source_opens src fid buf A :
    A !! src = Some (Asked fid buf) →
    source_step (Accepted src fid buf) A (<[src := Open fid]> A)
| source_closes src fid A a :
    A !! src = Some a → flow_of a = Some fid → source_step (Closed src fid) A (delete src A).

(** The local datagrams a step takes, and what it puts out. *)
Definition taken (l : slabel) : list (bytes * SocketAddr) :=
  match l with Queued src d | Overflowed src d | Passed src _ d => [(d, src)] | _ => [] end.

Definition put_out (l : slabel) : list (Z * bytes) :=
  match l with
  | Passed _ fid d => [(fid, d)]
  | Accepted _ fid buf => map (pair fid) buf
  | _ => []
  end.

(** ** The abstraction *)

Definition abs_source (st : FlowState) : source :=
  match fs_flow_id st with
  | None => Waiting (fs_pending st)
  | Some fid => if fs_established st then Open fid else Asked fid (fs_pending st)
  end.

Section Refine.
Context {Conn H3 H3Config : Type} {Q : Quiche Conn H3 H3Config}.
Context {QT : QuicheStreams Q} {QH : QuicheHistory Q} {HI : HashIter}.
Local Abbreviation Tunnel := (Tunnel Conn).
Implicit Types (t : Tunnel) (c : Conn) (h : H3).

Definition abs t : Sources := abs_source <$> tn_by_addr t.

Definition encoded (o : list (Z * bytes)) : list bytes := map (λ p, Dgram.encode p.1 p.2) o.

(** The datagrams [l] have been offered to a connection, each by one call of
    [dgram_send], which takes it or refuses it, and no others. *)
Inductive offers : Conn → list bytes → Conn → Prop :=
| offers_nil c c' : tx_log c' = tx_log c → offers c [] c'
| offers_cons c c1 b r c2 l c' :
    tx_log c1 = tx_log c → dgram_send c1 b = (r, c2) → offers c2 l c' → offers c (b :: l) c'.

Lemma offers_log c c1 l c' : tx_log c1 = tx_log c → offers c1 l c' → offers c l c'.
Proof.
  intros H Ho. destruct Ho as [c1 c' H1|c1 c2 b r c3 l c' H1 E Ho]; [constructor; congruence|].
  eapply offers_cons; [|exact E|exact Ho]. congruence.
Qed.

Lemma offers_app c l1 c1 l2 c2 : offers c l1 c1 → offers c1 l2 c2 → offers c (l1 ++ l2) c2.
Proof.
  induction 1 as [c c' H|c c' b r c3 l c4 H E _ IH]; intros Ho; cbn [app].
  - by eapply offers_log.
  - eapply offers_cons; [exact H|exact E|by apply IH].
Qed.

(** The steps [ls] of the table, and what they put out offered to the connection. *)
Definition implements (ls : list slabel) t t' : Prop :=
  trace source_step ls (abs t) (abs t') ∧
  offers (tn_conn t) (encoded (concat (map put_out ls))) (tn_conn t').

Lemma implements_nil t t' :
  abs t' = abs t → tx_log (tn_conn t') = tx_log (tn_conn t) → implements [] t t'.
Proof.
  intros Ha Hl. split; [rewrite Ha; constructor|by apply offers_nil].
Qed.

Lemma implements_app ls1 ls2 t1 t2 t3 :
  implements ls1 t1 t2 → implements ls2 t2 t3 → implements (ls1 ++ ls2) t1 t3.
Proof.
  intros [H1 Ho1] [H2 Ho2]. split; [by eapply trace_app|].
  unfold encoded. rewrite map_app, concat_app, map_app. by eapply offers_app.
Qed.

Lemma implements_one l t t' :
  source_step l (abs t) (abs t') →
  offers (tn_conn t) (encoded (put_out l)) (tn_conn t') → implements [l] t t'.
Proof.
  intros H Ho. split; [by apply trace_one|]. cbn. by rewrite app_nil_r.
Qed.

(** Steps that put nothing out. *)
Lemma implements_quiet l t t' :
  put_out l = [] → source_step l (abs t) (abs t') → tx_log (tn_conn t') = tx_log (tn_conn t) →
  implements [l] t t'.
Proof.
  intros Hp H Hl. apply implements_one; [done|]. rewrite Hp. by apply offers_nil.
Qed.

Lemma abs_insert c src st t fl :
  abs (mkTunnel c (<[src := st]> (tn_by_addr t)) fl) = <[src := abs_source st]> (abs t).
Proof. apply fmap_insert. Qed.

Lemma sources_lookup t src st : tn_by_addr t !! src = Some st → abs t !! src = Some (abs_source st).
Proof. intros H. unfold abs. by rewrite lookup_fmap, H. Qed.

Lemma sends_offered fid ds c :
  offers c (encoded (map (pair fid) ds)) (fold_left (λ c data, send_datagram c fid data) ds c).
Proof.
  revert c. induction ds as [|d ds IH]; intros c; cbn [fold_left map]; [by apply offers_nil|].
  eapply offers_cons; [reflexivity| |apply IH]. unfold send_datagram. apply surjective_pairing.
Qed.

(** ** The operations *)
Lemma queue_local_implements b t p :
  tunnel_ok b t → ∃ l, taken l = [p] ∧ implements [l] t (queue_local t p).
Proof.
  destruct p as [data src]. intros Hok. unfold queue_local.
  set (st := default new_flow (tn_by_addr t !! src)).
  assert (default (Waiting []) (abs t !! src) = abs_source st) as Ha.
  { unfold abs, st. rewrite lookup_fmap. by destruct (tn_by_addr t !! src). }
  assert (is_open (abs_source st) = false → buffer (abs_source st) = fs_pending st →
    (∀ p, abs_source (mkFlowState (fs_flow_id st) (fs_established st) p) = match abs_source st with
       Waiting _ => Waiting p | Asked fid _ => Asked fid p | Open fid => Open fid end) →
    ∃ l, taken l = [(data, src)] ∧ implements [l] t (mkTunnel (tn_conn t)
      (<[src := if length (fs_pending st) <? MAX_PENDING
         then mkFlowState (fs_flow_id st) (fs_established st) (fs_pending st ++ [data]) else st]> (tn_by_addr t))
      (tn_flows t))) as Hq.
  { intros Ho Hb Hp. destruct (Nat.ltb_spec (length (fs_pending st)) MAX_PENDING) as [Hlt|Hge].
    - exists (Queued src data). split; [done|]. apply implements_quiet; [done| |done].
      rewrite abs_insert, Hp. rewrite <- Hb in Hlt.
      replace (match abs_source st with Waiting _ => _ | Asked fid _ => _ | Open fid => _ end)
        with (push (abs_source st) data) by (rewrite <- Hb; by destruct (abs_source st)).
      by apply source_queues.
    - exists (Overflowed src data). split; [done|].
      destruct (tn_by_addr t !! src) as [st0|] eqn:E.
      2:{ unfold st in Hge. cbn in Hge. unfold MAX_PENDING in Hge. lia. }
      change st with st0 in *. apply implements_quiet; [done| |done].
      rewrite abs_insert, insert_id by by apply sources_lookup.
      eapply source_overflows; [by apply sources_lookup|done|by rewrite Hb]. }
  destruct (fs_established st) eqn:He, (fs_flow_id st) as [fid|] eqn:Hid.
  2,4: apply Hq; unfold abs_source; by rewrite Hid.
  2: apply Hq; unfold abs_source; cbn [fs_flow_id fs_established]; by rewrite Hid, ?He.
  destruct (tn_by_addr t !! src) as [st0|] eqn:E; [|done]. change st with st0 in *.
  exists (Passed src fid data). split; [done|]. apply implements_one.
  - rewrite abs_insert, insert_id by by apply sources_lookup. apply source_passes.
    rewrite (sources_lookup _ _ _ E). unfold abs_source. by rewrite Hid, He.
  - apply (sends_offered fid [data]).
Qed.

Lemma queue_locals_implement b pkts t :
  tunnel_ok b t → ∃ ls, concat (map taken ls) = pkts ∧ implements ls t (fold_left queue_local pkts t).
Proof.
  revert t. induction pkts as [|p pkts IH]; intros t Hok; cbn [fold_left].
  - exists []. split; [done|]. by apply implements_nil.
  - destruct (queue_local_implements b t p Hok) as (l & Hl & H1).
    destruct (IH (queue_local t p)) as (ls & Hls & H2); [by apply queue_local_ok|].
    exists (l :: ls). split; [cbn; by rewrite Hl, Hls|]. by apply (implements_app [l]) with (t2 := queue_local t p).
Qed.

(** Steps other than the arrival of local datagrams. *)
Definition internal (ls : list slabel) : Prop := Forall (λ l, taken l = []) ls.

Lemma close_flow_implements b t fid :
  tunnel_ok b t → ∃ ls, internal ls ∧ implements ls t (close_flow fid t).
Proof.
  intros Hok. unfold close_flow. destruct (tn_flows t !! fid) as [src|] eqn:E.
  2:{ exists []. split; [constructor|by apply implements_nil]. }
  apply (to_inverse _ _ Hok) in E as (st & Hst & Hid).
  exists [Closed src fid]. split; [by repeat constructor|]. apply implements_quiet; [done| |done].
  assert (abs (mkTunnel (tn_conn t) (delete src (tn_by_addr t)) (delete fid (tn_flows t))) =
    delete src (abs t)) as -> by apply fmap_delete.
  eapply source_closes; [by apply sources_lookup|]. unfold abs_source. rewrite Hid.
  by destruct (fs_established st).
Qed.

Lemma establish_implements b t fid :
  tunnel_ok b t → ∃ ls, internal ls ∧ implements ls t (establish fid t).
Proof.
  intros Hok. unfold establish. destruct (tn_flows t !! fid) as [src|] eqn:E.
  2:{ exists []. split; [constructor|by apply implements_nil]. }
  apply (to_inverse _ _ Hok) in E as (st & Hst & Hid). rewrite Hst.
  pose proof (to_flow _ _ Hok src st Hst) as [_ Hopen].
  assert (abs_source (mkFlowState (fs_flow_id st) true []) = Open fid) as Ha
    by (unfold abs_source; cbn; by rewrite Hid).
  destruct (fs_established st) eqn:He.
  - destruct (Hopen eq_refl) as [Hp _]. exists []. split; [constructor|]. apply implements_nil.
    + rewrite abs_insert, Ha, insert_id; [done|]. rewrite (sources_lookup _ _ _ Hst).
      unfold abs_source. by rewrite Hid, He.
    + cbn [tn_conn]. by rewrite Hp.
  - exists [Accepted src fid (fs_pending st)]. split; [by repeat constructor|]. apply implements_one.
    + rewrite abs_insert, Ha. apply source_opens. rewrite (sources_lookup _ _ _ Hst).
      unfold abs_source. by rewrite Hid, He.
    + cbn [tn_conn put_out]. apply sends_offered.
Qed.

Lemma on_response_implements b t i ev :
  tunnel_ok b t → ∃ ls, internal ls ∧ implements ls t (on_response i ev t).
Proof.
  intros Hok. unfold on_response.
  assert (∃ ls, internal ls ∧ implements ls t t) as Hnone.
  { exists []. split; [constructor|by apply implements_nil]. }
  destruct ev; try done; try by eapply close_flow_implements.
  destruct (status_of _); [|done].
  destruct (_ && _); [by eapply establish_implements|by eapply close_flow_implements].
Qed.

Lemma implements_conn t c : tx_log c = tx_log (tn_conn t) →
  implements [] t (mkTunnel c (tn_by_addr t) (tn_flows t)).
Proof. intros H. by apply implements_nil. Qed.

Lemma internal_app ls1 ls2 : internal ls1 → internal ls2 → internal (ls1 ++ ls2).
Proof. intros. by apply Forall_app. Qed.

Lemma poll_responses_implement fuel h t h' t' :
  tunnel_ok (next_request h) t → poll_responses fuel h t = Some (h', t') →
  ∃ ls, internal ls ∧ implements ls t t'.
Proof.
  intros Hok Hl. unfold poll_responses in Hl.
  eapply (loop_invariant _
    (λ s, next_request s.1 = next_request h ∧ tunnel_ok (next_request h) s.2 ∧
       ∃ ls, internal ls ∧ implements ls t s.2)
    (λ s, ∃ ls, internal ls ∧ implements ls t s.2)) in Hl; [done|..].
  - intros [h1 t1] [h2 t2] (H0 & H1 & ls & Hi & H2). cbn [fst snd] in *.
    destruct (poll _ _) as [[[i ev]|e] [h3 c3]] eqn:E; [|done].
    pose proof (tx_of_logs _ _ (poll_logs _ _ _ _ _ E)) as Hlog. apply poll_next in E.
    intros [= <- <-]. set (t2 := mkTunnel c3 (tn_by_addr t1) (tn_flows t1)).
    assert (tunnel_ok (next_request h) t2) as Ht2 by by apply tunnel_ok_conn.
    destruct (on_response_implements _ _ i ev Ht2) as (ls2 & Hi2 & H4).
    split; [congruence|]. split; [by apply on_response_ok|]. exists (ls ++ ls2).
    split; [by apply internal_app|]. eapply implements_app; [exact H2|].
    by apply (implements_app [] ls2 t1 t2); [apply implements_conn|].
  - intros [h1 t1] [h2 t2] (H0 & H1 & ls & Hi & H2). cbn [fst snd] in *.
    destruct (poll _ _) as [[[i ev]|e] [h3 c3]] eqn:E; [done|].
    pose proof (tx_of_logs _ _ (poll_logs _ _ _ _ _ E)) as Hlog.
    intros [= <- <-]. exists (ls ++ []). split; [by apply internal_app; [|constructor]|].
    eapply implements_app; [exact H2|by apply implements_conn].
  - split; [done|]. split; [done|]. exists []. split; [constructor|by apply implements_nil].
Qed.

(** ** Opening flows *)
Lemma open_one_implements hs p rest (s : H3 * Tunnel * list SocketAddr) :
  opening (p :: rest) s → ∃ ls, internal ls ∧ implements ls s.1.2 (open_one hs s p).1.2.
Proof.
  destruct s as [[h t] dropped], p as [src st]. intros [Hok Hr _ _]. cbn [fst snd] in *.
  assert (tn_by_addr t !! src = Some st) as Hst by (apply (Hr (src, st)); by left).
  cbn [open_one]. destruct (fs_flow_id st) as [fid0|] eqn:Hid.
  { exists []. split; [constructor|by apply implements_nil]. }
  destruct (send_request h (tn_conn t) hs false) as [r [h' c]] eqn:E.
  pose proof (tx_of_logs _ _ (request_logs _ _ _ _ _ _ _ E)) as Hl.
  pose proof (request_next _ _ _ _ _ _ _ E) as (H0 & Hm & Hn). destruct r as [i|e].
  2:{ exists []. split; [constructor|]. destruct e; by apply implements_conn. }
  destruct Hn as [-> _]. set (fid := (next_request h / 4)%Z). cbn [fst snd].
  pose proof (to_flow _ _ Hok src st Hst) as [_ Hopen].
  assert (fs_established st = false) as He.
  { destruct (fs_established st); [|done]. destruct (Hopen eq_refl) as [_ [x Hx]]. congruence. }
  exists [Requested src fid]. split; [by repeat constructor|]. apply implements_quiet; [done| |exact Hl].
  rewrite abs_insert. unfold abs_source at 1. cbn [fs_flow_id fs_established fs_pending]. rewrite He.
  apply source_asks.
  - rewrite (sources_lookup _ _ _ Hst). unfold abs_source. by rewrite Hid.
  - intros src' a Ha Hf. unfold abs in Ha. rewrite lookup_fmap in Ha.
    destruct (tn_by_addr t !! src') as [st'|] eqn:E'; [|done]. injection Ha as <-.
    assert (fs_flow_id st' = Some fid) as Hid'.
    { revert Hf. unfold abs_source. destruct (fs_flow_id st'); [|done]. by destruct (fs_established st'). }
    assert (tn_flows t !! fid = Some src') as Hfl by (apply (to_inverse _ _ Hok); eauto).
    apply (to_bound _ _ Hok) in Hfl. unfold fid in Hfl.
    apply Z.mod_divide in Hm as [k Hk]; [|done]. rewrite Hk, Z.div_mul in Hfl by done. lia.
Qed.

Lemma open_fold_implement hs rest (s : H3 * Tunnel * list SocketAddr) :
  opening rest s → ∃ ls, internal ls ∧ implements ls s.1.2 (fold_left (open_one hs) rest s).1.2.
Proof.
  revert s. induction rest as [|p rest IH]; intros s Ho; cbn [fold_left].
  { exists []. split; [constructor|by apply implements_nil]. }
  destruct (open_one_implements hs _ _ _ Ho) as (ls1 & Hi1 & H1).
  destruct (IH (open_one hs s p)) as (ls2 & Hi2 & H2); [by apply open_one_ok|].
  exists (ls1 ++ ls2). split; [by apply internal_app|by eapply implements_app].
Qed.

Lemma remove_sources_implement dropped t :
  (∀ src st, src ∈ dropped → tn_by_addr t !! src = Some st → fs_flow_id st = None) →
  ∃ ls, internal ls ∧ implements ls t (remove_sources dropped t).
Proof.
  unfold remove_sources. intros Hd.
  assert (∃ ls, internal ls ∧ trace source_step ls (abs t)
    (abs (mkTunnel (tn_conn t) (fold_left (λ m src, delete src m) dropped (tn_by_addr t)) (tn_flows t))) ∧
    concat (map put_out ls) = []) as (ls & Hi & Ht & Hp).
  { unfold abs. cbn [tn_by_addr]. revert Hd. generalize (tn_by_addr t) as m.
    induction dropped as [|src dropped IH]; intros m Hd; cbn [fold_left].
    - exists []. split_and!; constructor.
    - destruct (IH (delete src m)) as (ls & Hi & Ht & Hp).
      { intros src' st Hin [_ Hl]%lookup_delete_Some. apply (Hd src'); [by right|done]. }
      rewrite fmap_delete in Ht. destruct (m !! src) as [st|] eqn:E.
      + exists (Refused src :: ls). split_and!; [by constructor| |exact Hp].
        eapply trace_cons; [|exact Ht]. apply (source_refused _ (fs_pending st)).
        rewrite lookup_fmap, E. cbn. unfold abs_source.
        by rewrite (Hd src st) by first [by left|done].
      + exists ls. split_and!; [done| |done]. rewrite delete_id in Ht; [done|]. by rewrite lookup_fmap, E. }
  exists ls. split; [done|]. split; [exact Ht|]. rewrite Hp. by apply offers_nil.
Qed.

Lemma open_pending_flows_implement au pa h t h' t' :
  tunnel_ok (next_request h) t → open_pending_flows au pa h t = (h', t') →
  ∃ ls, internal ls ∧ implements ls t t'.
Proof.
  intros Hok. unfold open_pending_flows. pose proof (iter_perm (tn_by_addr t)) as Hp.
  assert (opening (iter (tn_by_addr t)) (h, t, [])) as Ho.
  { split; cbn [fst snd]; [done|..].
    - intros [src st]. rewrite Hp. apply elem_of_map_to_list.
    - rewrite Hp. apply NoDup_fst_map_to_list.
    - by intros src ?%not_elem_of_nil. }
  clear Hp. pose proof (open_fold_ok (connect_headers au pa) _ _ Ho) as [_ _ _ Hd].
  destruct (open_fold_implement (connect_headers au pa) _ _ Ho) as (ls1 & Hi1 & H1).
  destruct (fold_left _ _ _) as [[h1 t1] dropped]. cbn [fst snd] in *. intros [= <- <-].
  destruct (remove_sources_implement dropped t1) as (ls2 & Hi2 & H2).
  { intros src st Hin. by apply Hd. }
  exists (ls1 ++ ls2). split; [by apply internal_app|by eapply implements_app].
Qed.
End Refine.

(** ** Turns of a session *)

Section Turns.
Context {Conn H3 H3Config Sock : Type} {Q : Quiche Conn H3 H3Config}.
Context {QT : QuicheStreams Q} {QH : QuicheHistory Q} {U : UdpSys Sock} {HI : HashIter} (linux : bool).
Local Abbreviation Session := (Session (Conn := Conn) (H3 := H3) (Sock := Sock)).
Implicit Types (s : Session) (c : Conn).

Local Abbreviation does ls s s' := (implements ls (se_tunnel s) (se_tunnel s')).

Lemma set_conn_does s c : logs c = logs (tn_conn (se_tunnel s)) → does [] s (set_tunnel_conn s c).
Proof. intros H. by apply implements_conn, tx_of_logs. Qed.

Lemma start_http3_does h3c s s' : start_http3 h3c s = Some s' → does [] s s'.
Proof.
  unfold start_http3. destruct (_ && _); [|intros [= <-]; by apply implements_nil].
  destruct (with_transport _ _) as [[h|e] c] eqn:E; [|done]. intros [= <-].
  by eapply implements_conn, tx_of_logs, transport_logs.
Qed.

Lemma serve_http3_does fuel s r :
  session_ok s → serve_http3 linux fuel s = Some r →
  ∃ s' ls, r = Returns s' ∧ internal ls ∧ does ls s s'.
Proof.
  intros Hok E. pose proof E as E2. apply serve_http3_ok in E2 as (s' & -> & _); [|done].
  exists s'. unfold session_ok, serve_http3 in *. destruct (se_http3 s) as [h|] eqn:Eh.
  2:{ injection E as <-. exists []. split; [done|]. split; [constructor|by apply implements_nil]. }
  destruct (open_pending_flows _ _ _ _) as [h1 t1] eqn:Eo.
  destruct (open_pending_flows_implement _ _ _ _ _ _ Hok Eo) as (ls1 & Hi1 & H1).
  eapply open_pending_flows_ok in Eo; [|done].
  destruct (poll_responses _ _ _) as [[h2 t2]|] eqn:Ep; [|done].
  destruct (poll_responses_implement _ _ _ _ _ Eo Ep) as (ls2 & Hi2 & H2).
  destruct (route_tunnel_datagrams _ _ _ _ _) as [[[c ls]|]|] eqn:Er; try done.
  apply route_tx in Er. injection E as <-. cbn [se_tunnel].
  exists ((ls1 ++ ls2) ++ []). split; [done|]. split; [by repeat apply internal_app; [..|constructor]|].
  eapply implements_app; [by eapply implements_app|by apply implements_conn].
Qed.

Lemma internal_taken ls : internal ls → concat (map taken ls) = [].
Proof. induction 1 as [|l ls H _ IH]; [done|]. cbn. by rewrite H, IH. Qed.

(** C9: A session implements the table of sources.  A turn that goes on is a sequence of
    steps of the table: it takes every local datagram of the turn, in the order of
    arrival, which is queued with its source, lost only when the source's buffer is full,
    or passed on when the source is open; and flows are requested under ids that no
    other source has, refused, accepted and closed.  What these steps put out, the
    passed datagrams and the buffers of the accepted sources, is offered to the
    connection as datagrams of their flows, each once and in this order, and nothing
    else is.  A turn that ends the session does the same, or nothing at all. *)
Theorem session_refines_sources fuel h3c w s x :
  session_ok s → session_turn linux fuel h3c w s = Some (Returns x) →
  match x with
  | inl s' => ∃ ls, implements ls (se_tunnel s) (se_tunnel s') ∧ concat (map taken ls) = wk_local_pkts w
  | inr s' => ∃ ls, implements ls (se_tunnel s) (se_tunnel s') ∧
      (ls = [] ∨ concat (map taken ls) = wk_local_pkts w)
  end.
Proof.
  intros Hs. unfold session_turn.
  destruct (wk_recv_ended w); [intros [= <-]; exists []; split; [by apply implements_nil|by left]|].
  cbv zeta. set (c := if wk_keepalive w then _ else _).
  assert (logs c = logs (tn_conn (se_tunnel s))) as Hc.
  { unfold c. destruct (wk_keepalive w), (wk_timeout w);
      rewrite ?ack_logs, ?on_timeout_logs; apply recv_packets_logs. }
  apply set_conn_does in Hc as H0. assert (session_ok (set_tunnel_conn s c)) as Hok by by apply tunnel_ok_conn.
  destruct (is_closed _); [intros [= <-]; exists []; split; [exact H0|by left]|].
  destruct (start_http3 _ _) as [s1|] eqn:E1; [|intros [= <-]; exists []; split; [exact H0|by left]].
  pose proof (start_http3_does _ _ _ E1) as H1. eapply start_http3_ok in E1; [|done].
  destruct (queue_locals_implement _ (wk_local_pkts w) _ E1) as (ls2 & Htk & H2).
  set (s2 := set_tunnel s1 (fold_left queue_local (wk_local_pkts w) (se_tunnel s1))).
  assert (session_ok s2) as Hok2 by by apply queue_locals_ok.
  destruct (serve_http3 _ _ _) as [r|] eqn:E2; [|done].
  apply serve_http3_does in E2 as (s3 & ls3 & -> & Hi & Hd3); [|done].
  assert (does (([] ++ [] ++ ls2) ++ ls3) s s3) as Hall.
  { eapply implements_app; [|exact Hd3]. eapply implements_app; [exact H0|].
    by eapply implements_app. }
  assert (concat (map taken (([] ++ [] ++ ls2) ++ ls3)) = wk_local_pkts w) as Htaken.
  { cbn [app]. rewrite map_app, concat_app, (internal_taken ls3), app_nil_r by done. exact Htk. }
  destruct (flush_connection _ _ _ _) as [[[u|e] st]|] eqn:Efl; [| |done]; intros [= <-].
  - apply flush_connection_logs in Efl. exists ((([] ++ [] ++ ls2) ++ ls3) ++ []).
    split; [|by rewrite app_nil_r]. eapply implements_app; [exact Hall|]. by apply implements_conn, tx_of_logs.
  - exists (([] ++ [] ++ ls2) ++ ls3). split; [exact Hall|by right].
Qed.
End Turns.

(** The sample turn takes "ping". *)
Lemma session_refines_sources_witness :
  ∃ ls, implements (QH := LoopHistory) ls (se_tunnel sample_se0) (se_tunnel sample_se1) ∧
    concat (map taken ls) = [(str "ping", SockV4 2 7)].
Proof.
  apply (session_refines_sources (QT := LoopStreams) (QH := LoopHistory) (U := LoopUdp) (HI := HashIterStd)
    true 9 tt (mkWakeup [] [(str "ping", SockV4 2 7)] false false false) sample_se0 (inl sample_se1)).
  - apply (session_reachable_ok (QT := LoopStreams) (U := LoopUdp) (HI := HashIterStd) true).
    eapply session_begins. exact sample_start_ok.
  - exact sample_turn_ok.
Defined.
