(* ===== verification/Replies.v ===== *)
(** * What a client is sent

    The way back on the server: every datagram a connection has been given was received
    on the socket of a target task that was started for this connection and flow.  It is
    an invariant of all the steps of the server. *)

From S2P Require Import Prelude.
From S2P Require Import Net.
From S2P Require Import Dgram.
From S2P Require Import Rules.
From S2P Require Import Quiche.
From S2P Require Import Loopback.
From S2P Require Import Io.
From S2P Require Import Sockets.
From S2P Require Import Server.
From S2P Require Import ServerInv.
From S2P Require Import ServerProps.
From S2P Require Import Tunnel.
From S2P Require Import History.
From S2P Require Import ServerFlow.
From S2P Require Client.
From S2P Require ClientProps.

Section Replies.
Context {Conn H3 H3Config Config Sock Os : Type} {Chan : Type → Type}.
Context {Q : Quiche Conn H3 H3Config} {QT : QuicheStreams Q} {QH : QuicheHistory Q}.
Context {QV : QuicheServer Conn Config} {QF : AcceptsFresh QH QV}.
Context {U : UdpSys Sock} {UL : UdpLaws U} {SA : SocketApi Sock Os} {ST : SocketTraffic SA UL}.
Context {M : Mpsc Chan} {ML : MpscLaws M} {HI : HashIter}.
Context (linux : bool).
Local Abbreviation Session := (Server.Session Conn H3 Sock Os Chan).
Local Abbreviation Server := (Server Conn H3 H3Config Config Sock Os Chan).
Local Abbreviation Runtime := (Runtime Sock Os Chan).
Local Abbreviation Task := (Task Sock Chan).
Local Abbreviation anything := (λ _ : Sock, True).
Implicit Types (sv : Server) (st : Session) (rt : Runtime) (t : Task) (c : Conn) (k : Scid).

(** ** Handling a packet sends no datagram *)
Lemma tx_same c c' : logs c' = logs c → tx_log c' = tx_log c.
Proof. unfold tx_log. by intros ->. Qed.

Lemma respond_tx st i hs fin r st' :
  respond st i hs fin = (r, st') → tx_log (ss_conn st') = tx_log (ss_conn st).
Proof.
  unfold respond. destruct (send_response _ _ _ _ _) as [r' [h c]] eqn:E.
  apply response_logs in E. intros [= _ <-]. by apply tx_same.
Qed.

Lemma respond_status_tx st i status :
  tx_log (ss_conn (respond_status st i status)) = tx_log (ss_conn st).
Proof. unfold respond_status. destruct (respond _ _ _ _) eqn:E. by eapply respond_tx. Qed.

Lemma handle_connect_request_tx now rules from k i hs st :
  tx_log (ss_conn (handle_connect_request linux now rules from k i hs st)) = tx_log (ss_conn st).
Proof.
  unfold handle_connect_request.
  destruct (parse_request hs) as [req|status]; [|apply respond_status_tx].
  destruct (match_target _ _ _) as [rule|]; [|apply respond_status_tx].
  destruct (bind_target _ _ _ _ _ _) as [[sock|e] os]; [|by rewrite respond_status_tx].
  unfold open_flow. destruct (spawn_target _ _ _ _) as [j rt1].
  destruct (insert_flow _ _ _ rt1) as [F' rt'].
  destruct (respond _ _ _ _) as [[u|e] st'] eqn:Er; apply respond_tx in Er; [done|].
  by destruct (remove_flow _ _ _) as [F'' rt''].
Qed.

Lemma on_event_tx fuel now rules from k st :
  match on_event linux fuel now rules from k st with
  | inl st' | inr (Some st') => tx_log (ss_conn st') = tx_log (ss_conn st)
  | inr None => True
  end.
Proof.
  unfold on_event. destruct (poll _ _) as [[[i ev]|e] [h c]] eqn:Ep; apply poll_logs, tx_same in Ep;
    [|done].
  destruct ev.
  - by rewrite handle_connect_request_tx.
  - destruct (drain_body _ _ _ _) as [[h' c']|] eqn:Ed; [|done]. apply drain_body_logs, tx_same in Ed.
    cbn [ss_conn]. congruence.
  - by destruct (remove_flow _ _ _) as [F' rt'].
  - by destruct (remove_flow _ _ _) as [F' rt'].
  - done.
Qed.

Lemma drain_tx fuel now st st' :
  drain_client_datagrams fuel now st = Some (Returns st') →
  tx_log (ss_conn st') = tx_log (ss_conn st).
Proof.
  unfold drain_client_datagrams. intros Hl.
  eapply (loop_invariant _ (λ s : Session, tx_log (ss_conn s) = tx_log (ss_conn st))
    (λ r, match r with Returns s => tx_log (ss_conn s) = tx_log (ss_conn st) | Panics => True end))
    in Hl; [done|..|done].
  - intros s s' H. destruct (dgram_recv _ _) as [[b|e] c] eqn:E; [|done]. apply dgram_recv_logs in E.
    assert (tx_log c = tx_log (ss_conn s)) as Hc by (unfold tx_log; by rewrite E).
    destruct (on_datagram_cases now b (Server.mkSession c (ss_http3 s) (ss_flows s) (ss_rt s)))
      as [->|(fid & pl & f & _ & _ & _ & ->)]; intros [= <-]; cbn [ss_conn]; congruence.
  - intros s r H. destruct (dgram_recv _ _) as [[b|e] c] eqn:E; apply dgram_recv_logs in E.
    + destruct (on_datagram_cases now b (Server.mkSession c (ss_http3 s) (ss_flows s) (ss_rt s)))
        as [->|(fid & pl & f & _ & _ & _ & ->)]; done.
    + intros [= <-]. cbn [ss_conn]. unfold tx_log in *. by rewrite E.
Qed.

Lemma process_client_tx fuel now k h3c rules (cl cl' : Client Conn H3) rt rt' :
  process_client linux fuel now k h3c rules cl rt = Some (Returns (cl', rt')) →
  tx_log (cl_conn cl') = tx_log (cl_conn cl).
Proof.
  unfold process_client. destruct (negb _); [by intros [= <- _]|].
  destruct (match cl_http3 cl with Some h3 => _ | None => _ end) as [o c] eqn:Eh.
  assert (tx_log c = tx_log (cl_conn cl)) as Hlc.
  { destruct (cl_http3 cl); [by injection Eh as _ <-|].
    destruct (with_transport _ _) as [[h|e] c'] eqn:E; apply transport_logs, tx_same in E;
      by injection Eh as _ <-. }
  destruct o as [h3|]; [|by intros [= <- _]].
  destruct (mjoin _) as [st|] eqn:El; [|done].
  assert (tx_log (ss_conn st) = tx_log c) as Hst.
  { destruct (loop _ _ _) as [o|] eqn:E; [|done]. simpl in El. subst o.
    eapply (loop_invariant _ (λ s : Session, tx_log (ss_conn s) = tx_log c)
      (λ o, match o with Some s => tx_log (ss_conn s) = tx_log c | None => True end)) in E; [done|..|done].
    - intros s s' H He. pose proof (on_event_tx fuel now rules (cl_peer cl) k s) as H'.
      rewrite He in H'. congruence.
    - intros s o H He. pose proof (on_event_tx fuel now rules (cl_peer cl) k s) as H'.
      rewrite He in H'. destruct o; [congruence|done]. }
  destruct (drain_client_datagrams _ _ _) as [[st'|]|] eqn:Ed; try done.
  apply drain_tx in Ed. intros [= <- _]. cbn [cl_conn]. congruence.
Qed.

(** ** Where a connection's datagrams come from *)

(** Every reply on its way to a connection, and every datagram a connection was given,
    is one that [Heard] accounts for. *)
Definition told (Heard : Scid → Z → bytes → Prop) sv : Prop :=
  (∀ tc, tc ∈ queued (sv_to_client sv) → Heard (tc_conn_id tc) (tc_flow_id tc) (tc_payload tc)) ∧
  (∀ k cl b, sv_clients sv !! k = Some cl → b ∈ tx_log (cl_conn cl) →
     ∃ fid pl, b = Dgram.encode fid pl ∧ Heard k fid pl).

Lemma told_weaken (H1 H2 : Scid → Z → bytes → Prop) sv :
  (∀ k fid pl, H1 k fid pl → H2 k fid pl) → told H1 sv → told H2 sv.
Proof.
  intros Hw [Hq Hc]. split; [by auto|]. intros k cl b Hcl Hb.
  destruct (Hc k cl b Hcl Hb) as (fid & pl & Heq & Hh). eauto.
Qed.

Section Told.
Context (Heard : Scid → Z → bytes → Prop).

(** Connections that are given nothing new. *)
Lemma told_keep sv sv' :
  queued (sv_to_client sv') = queued (sv_to_client sv) →
  (∀ k cl', sv_clients sv' !! k = Some cl' → tx_log (cl_conn cl') = [] ∨
     ∃ cl, sv_clients sv !! k = Some cl ∧ tx_log (cl_conn cl') = tx_log (cl_conn cl)) →
  told Heard sv → told Heard sv'.
Proof.
  intros Hq Hc [H1 H2]. split; [by rewrite Hq|]. intros k cl' b Hcl' Hb.
  destruct (Hc k cl' Hcl') as [Hn|(cl & Hcl & Hl)].
  - rewrite Hn in Hb. by apply not_elem_of_nil in Hb.
  - rewrite Hl in Hb. by eapply H2.
Qed.

Lemma told_set sv k cl cl' rt' :
  sv_clients sv !! k = Some cl → tx_log (cl_conn cl') = tx_log (cl_conn cl) →
  told Heard sv → told Heard (set_clients sv (<[k := cl']> (sv_clients sv)) rt').
Proof.
  intros Hcl Hl. apply told_keep; [done|]. intros k' cl0. cbn [set_clients sv_clients].
  rewrite lookup_insert_Some. intros [[<- <-]|[_ H]]; right; eauto.
Qed.

Lemma deliver_told sv fuel now k pkt from sv' :
  told Heard sv → deliver linux fuel now sv k pkt from = Some (Returns sv') → told Heard sv'.
Proof.
  intros Ht. unfold deliver. destruct (sv_clients sv !! k) as [cl|] eqn:Hcl; [|done].
  destruct (recv _ _ _ _) as [[n|e] c] eqn:Er; apply recv_logs, tx_same in Er.
  - destruct (process_client _ _ _ _ _ _ _ _) as [[[cl' rt']|]|] eqn:Ep; try done.
    apply process_client_tx in Ep. intros [= <-]. eapply told_set; [exact Hcl| |done].
    cbn [cl_conn] in Ep. congruence.
  - intros [= <-]. by eapply told_set.
Qed.

Lemma accept_told sv rnd d from r sv' :
  told Heard sv → accept sv rnd d from = (r, sv') → told Heard sv'.
Proof.
  intros Ht. unfold accept. destruct (quiche_accept _ _ _ _) as [[c|e] cfg] eqn:Eq.
  - apply accept_logs in Eq. intros [= _ <-]. revert Ht. apply told_keep; [done|].
    intros k cl'. cbn [sv_clients]. rewrite lookup_insert_Some. intros [[_ <-]|[_ H]].
    + left. unfold tx_log. cbn [cl_conn]. by rewrite Eq.
    + right. eauto.
  - intros [= _ <-]. revert Ht. apply told_keep; [done|]. eauto.
Qed.

Lemma on_packet_told sv fuel now rnd pkt from sv' :
  told Heard sv → on_packet linux fuel now rnd sv pkt from = Some (Returns sv') → told Heard sv'.
Proof.
  intros Ht. unfold on_packet. destruct (header_from_slice _ _) as [hdr|e]; [|by intros [= <-]].
  destruct (route _ _) as [k|]; [by apply deliver_told|].
  destruct (negb _); [by intros [= <-]|]. destruct (negb _).
  - unfold send_version_negotiation.
    destruct (negotiate_version _ _ _) as [out|e]; [|by intros [= <-]].
    by destruct (send_udp _ _ _ _ _) as [[r' s]|]; [intros [= <-]|].
  - destruct (accept _ _ _ _) as [[k|e] sv1] eqn:Ea; apply accept_told in Ea; try done.
    + by apply deliver_told.
    + by intros [= <-].
Qed.

(** A reply leaves the channel for its connection. *)
Lemma drain_targets_told sv fuel now sv' :
  told Heard sv → drain_targets fuel now sv = Some sv' → told Heard sv'.
Proof.
  intros Ht Hl. unfold drain_targets in Hl.
  eapply (loop_invariant _ (told Heard) (told Heard)) in Hl; [done|..|done].
  - intros s s' [H1 H2]. destruct (try_recv _) as [[tc|] ch] eqn:Er; [|done].
    apply try_recv_queued in Er as [Er _]. intros [= <-].
    assert (∀ tc', tc' ∈ queued ch → Heard (tc_conn_id tc') (tc_flow_id tc') (tc_payload tc')) as Hq.
    { intros tc' Hin. apply H1. rewrite Er. by right. }
    assert (Heard (tc_conn_id tc) (tc_flow_id tc) (tc_payload tc)) as Htc.
    { apply H1. rewrite Er. by left. }
    unfold on_target_payload. cbn [sv_clients].
    destruct (sv_clients s !! tc_conn_id tc) as [cl|] eqn:Ec; [|by split].
    destruct (dgram_send _ _) as [r c] eqn:Es. apply dgram_send_logs in Es.
    split; [done|]. intros k cl' b. cbn [set_clients sv_clients]. rewrite lookup_insert_Some.
    intros [[<- <-]|[_ Hcl']] Hb; [|by eapply H2]. unfold tx_log in Hb. cbn [cl_conn] in Hb.
    rewrite Es in Hb. cbn [snd] in Hb. apply elem_of_app in Hb as [Hb|Hb]; [by eapply H2|].
    destruct (is_ok r); [|by apply not_elem_of_nil in Hb].
    apply list_elem_of_singleton in Hb as ->. eauto.
  - intros s s' [H1 H2]. destruct (try_recv _) as [[tc|] ch] eqn:Er; [done|].
    apply try_recv_queued in Er as [Er _]. intros [= <-]. split; [|exact H2].
    cbn [sv_to_client]. intros tc Hin. apply H1. by rewrite Er.
Qed.

Lemma on_timeouts_told sv : told Heard sv → told Heard (on_timeouts sv).
Proof.
  apply told_keep; [done|]. intros k cl'. unfold on_timeouts, for_clients.
  cbn [set_clients sv_clients]. rewrite map_lookup_imap.
  destruct (sv_clients sv !! k) as [cl|]; [|done]. cbn. intros [= <-]. right. exists cl.
  split; [done|]. apply tx_same, on_timeout_logs.
Qed.

Lemma flush_client_told sv fuel k sv' :
  told Heard sv → flush_client linux fuel k sv = Some sv' → told Heard sv'.
Proof.
  intros Ht. unfold flush_client. destruct (sv_clients sv !! k) as [cl|] eqn:Ec; [|by intros [= <-]].
  destruct (flush_connection _ _ _ _) as [[r st]|] eqn:E; [|done].
  apply flush_connection_logs, tx_same in E. intros [= <-].
  assert (told Heard (set_clients sv (<[k := set_conn cl (f_conn st)]> (sv_clients sv)) (sv_rt sv)))
    as H by by eapply told_set. exact H.
Qed.

Lemma reap_told sv : told Heard sv → told Heard (reap_closed sv).
Proof.
  intros Ht. unfold reap_closed. apply (fold_clients_ok (told Heard)); [..|done].
  - intros s p H Hp. unfold reap_client. destruct (is_closed _); [|done]. revert H.
    apply told_keep; [done|]. intros k cl'. cbn [sv_clients]. rewrite lookup_delete_Some.
    intros [_ H]. eauto.
  - intros s p k Hk. unfold reap_client. destruct (is_closed _); [|done]. cbn. by rewrite lookup_delete_ne.
Qed.

Lemma sweep_told now sv : told Heard sv → told Heard (sweep_idle_flows now sv).
Proof.
  intros Ht. unfold sweep_idle_flows. apply (fold_clients_ok (told Heard)); [..|done].
  - intros s p H Hp. unfold sweep_client.
    pose proof (expired_task (expired now (cl_flows p.2)) (cl_conn p.2) (cl_flows p.2) (sv_rt s) 0) as He.
    destruct (fold_left _ _ _) as [[c F] rt]. eapply told_set; [exact Hp| |done]. apply tx_same.
    by destruct (He (mkTask (sv_socket s) (channel 0) false [] 0)) as [? _].
  - intros s p k Hk. unfold sweep_client. destruct (fold_left _ _ _) as [[c F] rt]. cbn.
    by rewrite lookup_insert_ne.
Qed.

End Told.

(** ** What a target task receives *)
Lemma recv_target_rcvd n t ch b t' ch' :
  recv_target n t ch = (b, t', ch') →
  rcvd (t_sock t) `prefix_of` rcvd (t_sock t') ∧
  ∃ l, queued ch' = queued ch ++ l ∧
    Forall (λ tc, tc_conn_id tc = t_conn_id t ∧ tc_flow_id tc = t_flow_id t ∧
      tc_payload tc ∈ rcvd (t_sock t')) l.
Proof.
  revert t ch. induction n as [|n IH]; intros t ch; cbn [recv_target].
  { intros [= _ <- <-]. split; [done|]. exists []. by rewrite app_nil_r. }
  destruct (recv_udp_connected _ _) as [[buf|e] s] eqn:E; apply recv_udp_connected_traffic in E as [_ Hr].
  - destruct (try_send _ _) as [sent ch1] eqn:Es. apply try_send_queued in Es.
    assert (∀ t2, rcvd s `prefix_of` rcvd (t_sock t2) → rcvd (t_sock t) `prefix_of` rcvd (t_sock t2) ∧
      ∃ l, queued ch1 = queued ch ++ l ∧ Forall (λ tc, tc_conn_id tc = t_conn_id t ∧
        tc_flow_id tc = t_flow_id t ∧ tc_payload tc ∈ rcvd (t_sock t2)) l) as Hone.
    { intros t2 Hp. split; [etransitivity; [|exact Hp]; rewrite Hr; by apply prefix_app_r|].
      exists (if sent then [mkToClient (t_conn_id t) (t_flow_id t) buf] else []). rewrite Es.
      destruct sent; [|by rewrite app_nil_r]. split; [done|]. constructor; [|constructor].
      split_and!; [done..|]. cbn [tc_payload]. eapply elem_of_prefix; [|exact Hp]. rewrite Hr. set_solver. }
    destruct (_ && _); [intros [= _ <- <-]; by apply Hone|].
    intros [Hp (l & Hl & Hf)]%IH. destruct (Hone _ Hp) as [Hp1 (l1 & Hl1 & Hf1)].
    split; [done|]. exists (l1 ++ l). split; [by rewrite Hl, Hl1, app_assoc|]. by apply Forall_app.
  - rewrite app_nil_r in Hr.
    assert (rcvd (t_sock t) `prefix_of` rcvd s) as Hp by by rewrite Hr.
    destruct (would_block e); [|destruct (interrupted e)].
    + intros [= _ <- <-]. split; [done|]. exists []. by rewrite app_nil_r.
    + intros [Hp' (l & Hl & Hf)]%IH. cbn [set_sock t_sock] in Hp'. rewrite Hr in Hp'. eauto.
    + intros [= _ <- <-]. split; [done|]. exists []. by rewrite app_nil_r.
Qed.

(** ** Runs *)

Context {SL : SocketLaws SA} {SI : SocketIoLaws _ SL U} (Allowed : RuleTable → Prop).

(** A turn of a task of flow [fid] of connection [k] receives, after which its socket
    has received [pl]. *)
Definition heard_now sv k (fid : Z) (pl : bytes) : Prop :=
  ∃ (i : nat) t (b : bool) t' ch', rt_tasks (sv_rt sv) !! i = Some t ∧
    t_conn_id t = k ∧ t_flow_id t = fid ∧
    recv_target RECV_BATCH t (sv_to_client sv) = (b, t', ch') ∧ pl ∈ rcvd (t_sock t').

(** At some point of the run that led to [sv]. *)
Definition heard sv k fid pl : Prop :=
  ∃ sv1, reachable linux Allowed sv1 ∧ rtc (step linux Allowed) sv1 sv ∧ heard_now sv1 k fid pl.

(** What a turn of a task adds to the replies. *)
Lemma target_task_replies fuel w t ch o ch' :
  target_task fuel w t ch = Some (o, ch') →
  queued ch' = queued ch ∨
  ∃ b t', recv_target RECV_BATCH t ch = (b, t', ch').
Proof.
  destruct w; cbn [target_task].
  - destruct (try_recv _) as [[pl|] c]; [|intros [= _ <-]; by left].
    destruct (send_udp_connected _ _ _) as [[r s]|]; [|done]. intros [= _ <-]; by left.
  - destruct (recv_target _ _ _) as [[b t1] c]. intros [= _ <-]. eauto.
  - intros [= _ <-]. by left.
Qed.

Lemma run_task_told Heard sv fuel i w sv' :
  told Heard sv → run_task fuel i w sv = Some sv' →
  told (λ k fid pl, Heard k fid pl ∨ heard_now sv k fid pl) sv'.
Proof.
  intros Ht. assert (told (λ k fid pl, Heard k fid pl ∨ heard_now sv k fid pl) sv) as [Hq Hc].
  { eapply told_weaken; [|exact Ht]. by left. }
  unfold run_task. destruct (rt_tasks (sv_rt sv) !! i) as [t|] eqn:Et; [|by intros [= <-]].
  destruct (target_task _ _ _ _) as [[o ch]|] eqn:E; [|done]. intros [= <-].
  split; [|exact Hc]. cbn [sv_to_client].
  apply target_task_replies in E as [->|(b & t1 & Er)]; [exact Hq|].
  pose proof Er as [_ (l & -> & Hl)]%recv_target_rcvd.
  intros tc [Hin|Hin]%elem_of_app; [by apply Hq|]. right.
  rewrite Forall_forall in Hl. destruct (Hl tc Hin) as (-> & -> & Hp).
  exists i, t, b, t1, ch. exact (conj Et (conj eq_refl (conj eq_refl (conj Er Hp)))).
Qed.

Lemma step_told Heard sv sv' :
  told Heard sv → step linux Allowed sv sv' →
  told (λ k fid pl, Heard k fid pl ∨ heard_now sv k fid pl) sv'.
Proof.
  intros Ht Hst. assert (∀ s, told Heard s → told (λ k fid pl, Heard k fid pl ∨ heard_now sv k fid pl) s)
    as Hw by (intros s; apply told_weaken; by left).
  destruct Hst as [fuel now rnd pkt from sv' _ H|fuel now sv' H| |now|fuel k sv' H| |fuel j w sv' H| |].
  - eapply Hw, on_packet_told; done.
  - eapply Hw, drain_targets_told; done.
  - by apply Hw, on_timeouts_told.
  - by apply Hw, sweep_told.
  - eapply Hw, flush_client_told; done.
  - by apply Hw, reap_told.
  - by eapply run_task_told.
  - by apply Hw.
  - by apply Hw.
Qed.

Lemma reachable_told sv : reachable linux Allowed sv → told (heard sv) sv.
Proof.
  intros (sv0 & so & ad & h3 & cf & ru & os & Hn & Hal & Hr).
  assert (reachable linux Allowed sv0) as H0 by (exists sv0, so, ad, h3, cf, ru, os; by split_and!).
  assert (told (heard sv0) sv0) as Ht0.
  { unfold server_new in Hn. apply result_bind_Ok in Hn as (a & _ & Hn).
    apply result_bind_Ok in Hn as (h & _ & [= <-]). split; cbn [sv_to_client sv_clients].
    - intros tc. rewrite channel_queued. by intros ?%not_elem_of_nil.
    - by intros k cl b ?%lookup_empty_Some. }
  clear Hn Hal. assert (reachable linux Allowed sv ∧ told (heard sv) sv) as [_ H]; [|exact H].
  revert sv Hr. apply rtc_ind_r; [done|]. intros y z _ Hst [Hy Ht].
  split; [by eapply reachable_step|]. eapply told_weaken; [|by eapply step_told].
  intros k fid pl [(sv1 & Hr1 & Hs1 & Hh)|Hh].
  - exists sv1. split_and!; [done| |done]. by eapply rtc_r.
  - exists y. split_and!; [done| |done]. by apply rtc_once.
Qed.

(** The flow ids of all tasks fit a datagram. *)
Lemma heard_in_width sv k fid pl : heard sv k fid pl → (0 ≤ fid < 2 ^ 60)%Z.
Proof.
  intros (sv1 & Hr & _ & i & t & b & t' & ch' & Ht & _ & <- & _).
  by destruct (reachable_accounted linux Allowed sv1 Hr i t Ht) as [(sv2 & _ & _ & cl & _ & Hw & _) _].
Qed.

(** At some point of the run a task of flow [fid] of connection [k] had received [pl] on
    its socket, which is connected to the target of a rule that was in force, and to
    nothing else. *)
Definition from_target sv k fid pl : Prop :=
  ∃ sv1 (i : nat) t (running : bool) t' ch' table r,
    reachable linux Allowed sv1 ∧ rtc (step linux Allowed) sv1 sv ∧
    rt_tasks (sv_rt sv1) !! i = Some t ∧ t_conn_id t = k ∧ t_flow_id t = fid ∧
    recv_target RECV_BATCH t (sv_to_client sv1) = (running, t', ch') ∧ pl ∈ rcvd (t_sock t') ∧
    Allowed table ∧ r ∈ rules table ∧ ∀ a, ConnectedTo a ∈ history (t_sock t) ↔ a = target r.

Lemma heard_from_target sv k fid pl : heard sv k fid pl → from_target sv k fid pl.
Proof.
  intros (sv1 & Hr1 & Hs1 & i & t & run & t' & ch' & Ht & Hk & Hf & Hrecv & Hp).
  destruct (reachable_pinned linux Allowed sv1 i t Hr1 Ht) as (table & r & Ha & Hin & Hc).
  exists sv1, i, t, run, t', ch', table, r.
  exact (conj Hr1 (conj Hs1 (conj Ht (conj Hk (conj Hf (conj Hrecv
    (conj Hp (conj Ha (conj Hin Hc))))))))).
Qed.

Lemma reply_heard sv k (cl : Client Conn H3) b :
  reachable linux Allowed sv → sv_clients sv !! k = Some cl → b ∈ tx_log (cl_conn cl) →
  ∃ fid pl, b = Dgram.encode fid pl ∧ (0 ≤ fid < 2 ^ 60)%Z ∧ from_target sv k fid pl.
Proof.
  intros Hr Hcl Hb. destruct (proj2 (reachable_told sv Hr) k cl b Hcl Hb) as (fid & pl & -> & Hh).
  exists fid, pl. split; [done|]. split; [by eapply heard_in_width|by apply heard_from_target].
Qed.

(** C10: What a connection is sent back.  In every state a server can reach, every
    datagram it has given to one of its connections is a payload under a flow id, where
    a task that was running for this connection and this flow had received the payload
    on its own socket, and that socket is connected to the target of a rule of a table
    that was in force and to nothing else.  The server makes up no datagram, alters
    none, and gives none to another connection or flow. *)
Theorem replies_heard sv k (cl : Client Conn H3) (b : bytes) :
  reachable linux Allowed sv → sv_clients sv !! k = Some cl → b ∈ tx_log (cl_conn cl) →
  ∃ fid pl, b = Dgram.encode fid pl ∧ (0 ≤ fid < 2 ^ 60)%Z ∧ from_target sv k fid pl.
Proof. apply reply_heard. Qed.
End Replies.

(** ** A run *)

(** The sample server goes on: the task sends "ping", the echo service answers, the task
    receives the answer and the main loop gives it to the connection. *)
Local Abbreviation LServer := (Server lconn Z unit lconn lsock (list SocketAddr) lchan).
Local Abbreviation loop_task :=
  (run_task (Conn := lconn) (H3 := Z) (H3Config := unit) (Config := lconn) (Os := list SocketAddr)
     (U := LoopUdp) (M := LoopMpsc)).

Definition some_server (o : option LServer) (sv : LServer) : LServer :=
  match o with Some sv' => sv' | None => sv end.

Definition sample_sent : LServer := some_server (loop_task 9 0 FromClient sample_sv1) sample_sv1.
Definition sample_heard : LServer := some_server (loop_task 9 0 TargetReadable sample_sent) sample_sent.
Definition sample_told : LServer :=
  some_server (drain_targets (Q := LoopQuiche) (M := LoopMpsc) 9 1001 sample_heard) sample_heard.

Lemma some_server_eq o sv :
  match o with Some _ => true | None => false end = true → o = Some (some_server o sv).
Proof. by destruct o. Qed.

Lemma sample_sent_eq : loop_task 9 0 FromClient sample_sv1 = Some sample_sent.
Proof. apply some_server_eq. vm_compute. reflexivity. Qed.

Lemma sample_heard_eq : loop_task 9 0 TargetReadable sample_sent = Some sample_heard.
Proof. apply some_server_eq. vm_compute. reflexivity. Qed.

Lemma sample_told_eq :
  drain_targets (Q := LoopQuiche) (M := LoopMpsc) 9 1001 sample_heard = Some sample_told.
Proof. apply some_server_eq. vm_compute. reflexivity. Qed.

Lemma sample_told_reachable :
  reachable (Q := LoopQuiche) (QV := LoopServer) (U := LoopUdp) (SA := LoopSockets)
    (M := LoopMpsc) (HI := HashIterStd) true sample_allowed sample_told.
Proof.
  apply (reachable_step true sample_allowed sample_heard);
    [apply (reachable_step true sample_allowed sample_sent);
      [apply (reachable_step true sample_allowed sample_sv1); [exact sample_reachable|]|]|].
  - exact (step_task _ _ _ 9 0 FromClient _ sample_sent_eq).
  - exact (step_task _ _ _ 9 0 TargetReadable _ sample_heard_eq).
  - exact (step_targets _ _ _ 9 1001 _ sample_told_eq).
Qed.

Definition sample_k : Scid := replicate 16 (z2b 7).

Lemma sample_told_log :
  match sv_clients sample_told !! sample_k with
  | Some cl => l_dg_out (cl_conn cl) = [Dgram.encode 0 (str "ping")]
  | None => False
  end.
Proof. vm_compute. reflexivity. Qed.

(** The answer "ping" was received from the target of the sample rule. *)
Lemma replies_heard_witness :
  ∃ fid pl, Dgram.encode 0 (str "ping") = Dgram.encode fid pl ∧ (0 ≤ fid < 2 ^ 60)%Z ∧
    from_target (Q := LoopQuiche) (QV := LoopServer) (M := LoopMpsc) (SA := LoopSockets) (ST := LoopTraffic) (HI := HashIterStd)
      (SL := LoopSocketLaws) true sample_allowed sample_told sample_k fid pl.
Proof.
  pose proof sample_told_log as Hl.
  destruct (sv_clients sample_told !! sample_k) as [cl|] eqn:Hcl; [|destruct Hl].
  apply (replies_heard (QT := LoopStreams) (QH := LoopHistory) (QF := LoopFresh id)
    (UL := LoopUdpLaws) (ST := LoopTraffic) (ML := LoopMpscLaws) (HI := HashIterStd)
    (SL := LoopSocketLaws) (SI := LoopSocketIo)
    true sample_allowed sample_told sample_k cl (Dgram.encode 0 (str "ping"))
    sample_told_reachable Hcl).
  change (tx_log (H := LoopHistory) (cl_conn cl)) with (l_dg_out (cl_conn cl)). rewrite Hl. by left.
Defined.
