(* ===== verification/EndToEnd.v ===== *)
(** * From an application to its target and back

    One session of the client and one connection of the server, whose QUIC connections
    are the two ends of one: what a target is sent comes from a single local
    application, and what that application is sent comes from this target, through
    every interleaving of the server's steps and every turn of the session. *)

From S2P Require Import Prelude.
From S2P Require Import Net.
From S2P Require Import Dgram.
From S2P Require Import Rules.
From S2P Require Import Quiche.
From S2P Require Import Loopback.
From S2P Require Import Io.
From S2P Require Import Sockets.
From S2P Require Import Client.
From S2P Require Import ClientProps.
From S2P Require Import Server.
From S2P Require Import ServerInv.
From S2P Require Import ServerProps.
From S2P Require Import Tunnel.
From S2P Require Import History.
From S2P Require Import ServerFlow.
From S2P Require Import ClientFlow.
From S2P Require Import Replies.

Section EndToEnd.
Context {Conn H3 H3Config Config Sock Os : Type} {Chan : Type → Type}.
Context {Q : Quiche Conn H3 H3Config} {QT : QuicheStreams Q} {QH : QuicheHistory Q}.
Context {QV : QuicheServer Conn Config} {QF : AcceptsFresh QH QV}.
Context {U : UdpSys Sock} {UL : UdpLaws U} {SA : SocketApi Sock Os} {ST : SocketTraffic SA UL}.
Context {SL : SocketLaws SA} {SI : SocketIoLaws _ SL U}.
Context {M : Mpsc Chan} {ML : MpscLaws M} {HI : HashIter}.
Context (linux : bool) (Allowed : RuleTable → Prop).
Local Abbreviation Session := (Client.Session (Conn := Conn) (H3 := H3) (Sock := Sock)).
Local Abbreviation Server := (Server Conn H3 H3Config Config Sock Os Chan).
Implicit Types (s : Session) (sv : Server) (c : Conn) (k : Scid).

(** The two ends of a QUIC connection: datagrams may be lost and overtake each other
    (RFC 9221), but none is made up or delivered twice. *)
Record linked (near far : Conn) : Prop := {
  link_up : rx_log far ⊆+ tx_log near;
  link_down : rx_log near ⊆+ tx_log far;
}.

(** Decoding all datagrams of a flow. *)
Lemma payloads_submseteq fid (l l' : list bytes) :
  l ⊆+ l' → omap (payload_for fid) l ⊆+ omap (payload_for fid) l'.
Proof.
  intros (rest & Hs)%submseteq_Permutation. rewrite (omap_Permutation _ _ _ Hs), omap_app.
  by apply submseteq_inserts_r.
Qed.

Lemma payloads_sublist fid (l l' : list bytes) :
  sublist l l' → sublist (omap (payload_for fid) l) (omap (payload_for fid) l').
Proof.
  induction 1 as [|x l l' _ IH|x l l' _ IH]; cbn [omap list_omap]; [done|..];
    destruct (payload_for fid x); auto using sublist_skip, sublist_cons.
Qed.

(** C1: An application and its target.  Let the QUIC connection of a client session and
    connection [k] of a server be the two ends of one.  Then every flow belongs to one
    local source such that, for every task of [k] whose flow is open: what it has put on
    its socket and has queued was received by the client from this source, nothing
    added and nothing duplicated, and in order when the link keeps the order; that
    socket is connected to the target of one rule that was in force and to nothing
    else.  Conversely all that the session has put on the local socket are payloads
    addressed to the source of their flow, which had sent something itself, and received
    from such a target by a task of this connection and flow. *)
Theorem end_to_end w0 (l : list (bytes * SocketAddr)) s sv k (cl : Server.Client Conn H3) :
  session_over linux w0 l s → reachable linux Allowed sv → sv_clients sv !! k = Some cl →
  linked (tn_conn (se_tunnel s)) (cl_conn cl) →
  ∃ own : Z → SocketAddr,
    (∀ fid src, tn_flows (se_tunnel s) !! fid = Some src → own fid = src) ∧
    (∀ (i : nat) t, rt_tasks (sv_rt sv) !! i = Some t → t_conn_id t = k → t_sender t = true →
       let sent := (wire (t_sock t)).*2 ++ queued (t_inbox t) in
       sent ⊆+ from_source (own (t_flow_id t)) l ∧
       (sublist (rx_log (cl_conn cl)) (tx_log (tn_conn (se_tunnel s))) →
        sublist sent (from_source (own (t_flow_id t)) l)) ∧
       ∃ table r, Allowed table ∧ r ∈ rules table ∧
         ∀ a, ConnectedTo a ∈ history (t_sock t) ↔ a = target r) ∧
    ∃ d, wire (se_lsock s) = w0 ++ map (λ p, (Some (own p.1), p.2)) d ∧
      Forall (λ p, own p.1 ∈ l.*2 ∧ from_target linux Allowed sv k p.1 p.2) d.
Proof.
  intros Hs Hr Hcl [Hup Hdown]. apply session_carries in Hs as (own & Ho & Hsent & d & Hw & Hd & Hmet).
  exists own. split; [done|]. split.
  - intros i t Ht Hk Hse. cbv zeta.
    destruct (proj2 (reachable_accounted linux Allowed sv Hr i t Ht) Hse) as (cl' & Hcl' & _ & Hj).
    rewrite Hk, Hcl in Hcl'. injection Hcl' as <-. unfold carried in Hj.
    assert (sublist (omap (payload_for (t_flow_id t)) (tx_log (tn_conn (se_tunnel s))))
      (from_source (own (t_flow_id t)) l)) as Hl.
    { etransitivity; [|apply Hsent]. by apply sublist_inserts_r. }
    split_and!; [| |by eapply reachable_pinned].
    + etransitivity; [by apply sublist_submseteq|].
      etransitivity; [by apply payloads_submseteq|by apply sublist_submseteq].
    + intros Hin. etransitivity; [exact Hj|]. etransitivity; [by apply payloads_sublist|exact Hl].
  - exists d. split; [done|]. apply Forall_forall. intros [fid pl] Hin.
    split; [by eapply Forall_forall in Hmet|].
    eapply sublist_submseteq, elem_of_submseteq in Hd; [|exact Hin].
    apply list_elem_of_omap in Hd as (b & Hb & Hp).
    eapply elem_of_submseteq in Hb; [|exact Hdown].
    destruct (reply_heard linux Allowed sv k cl b Hr Hcl Hb) as (fid' & pl' & -> & Hf & Hh).
    rewrite flow_payload_encode in Hp by (unfold in_width; lia). by injection Hp as <- <-.
Qed.
End EndToEnd.

(** ** A run *)

(** A session that sends "ping" and gets the echo, together with the sample server. *)
Definition echo_conn : lconn :=
  mkLconn [(str "hello", SockV4 1 443)] [Dgram.encode 0 (str "ping")] []
    [(0%Z, Headers [mkHeader (str ":status") (str "200")])] [] [] [] true false [].

Local Abbreviation LSession := (Client.Session (Conn := lconn) (H3 := Z) (Sock := lsock)).

Definition echo_start : option (LSession + bool) :=
  session_start (Q := LoopQuiche) (U := LoopUdp) true 9
    (mkDialed idle_sock echo_conn (SockV4 9 9) (str "/masque") (str "a.example.com:4433")) idle_sock.

Definition echo_se0 : LSession :=
  match echo_start with Some (inl s) => s | _ => sample_se0 end.

Lemma echo_start_ok : echo_start = Some (inl echo_se0).
Proof.
  assert (match echo_start with Some (inl _) => true | _ => false end = true)
    as H by (vm_compute; reflexivity).
  unfold echo_se0. by destruct echo_start as [[s|]|].
Qed.

Definition echo_turn : option (panics (LSession + LSession)) :=
  session_turn (Q := LoopQuiche) (U := LoopUdp) (HI := HashIterStd) true 9 tt
    (mkWakeup [] [(str "ping", SockV4 2 7)] false false false) echo_se0.

Definition echo_se1 : LSession :=
  match echo_turn with Some (Returns (inl s)) => s | _ => echo_se0 end.

Lemma echo_turn_ok : echo_turn = Some (Returns (inl echo_se1)).
Proof.
  assert (match echo_turn with Some (Returns (inl _)) => true | _ => false end = true)
    as H by (vm_compute; reflexivity).
  unfold echo_se1. by destruct echo_turn as [[[s|]|]|].
Qed.

Lemma echo_given :
  session_given (QH := LoopHistory) (UL := LoopUdpLaws) (HI := HashIterStd) true []
    [(str "ping", SockV4 2 7)] echo_se1.
Proof.
  apply (given_turn (QH := LoopHistory) (UL := LoopUdpLaws) (HI := HashIterStd) true [] 9 tt
    (mkWakeup [] [(str "ping", SockV4 2 7)] false false false) [] echo_se0).
  - eapply given_start; [| |exact echo_start_ok]; reflexivity.
  - exact echo_turn_ok.
Qed.

Lemma echo_logs :
  logs (QuicheHistory := LoopHistory) (tn_conn (se_tunnel echo_se1)) =
    ([Dgram.encode 0 (str "ping")], [Dgram.encode 0 (str "ping")]) ∧
  match sv_clients sample_told !! sample_k with
  | Some cl => logs (QuicheHistory := LoopHistory) (cl_conn cl) =
      ([Dgram.encode 0 (str "ping")], [Dgram.encode 0 (str "ping")])
  | None => False
  end.
Proof. vm_compute. split; reflexivity. Qed.

Lemma end_to_end_witness :
  ∃ own : Z → SocketAddr,
    (∀ (i : nat) t, rt_tasks (sv_rt sample_told) !! i = Some t → t_conn_id t = sample_k →
       t_sender t = true →
       (ls_wire (t_sock t)).*2 ++ lc_queue (t_inbox t) ⊆+
         from_source (own (t_flow_id t)) [(str "ping", SockV4 2 7)]) ∧
    ∃ d, ls_wire (se_lsock echo_se1) = map (λ p, (Some (own p.1), p.2)) d.
Proof.
  pose proof echo_logs as [Hn Hf].
  destruct (sv_clients sample_told !! sample_k) as [cl|] eqn:Hcl; [|destruct Hf].
  destruct (end_to_end (QT := LoopStreams) (QH := LoopHistory) (QF := LoopFresh id)
    (UL := LoopUdpLaws) (ST := LoopTraffic) (ML := LoopMpscLaws) (HI := HashIterStd)
    (SL := LoopSocketLaws) (SI := LoopSocketIo) true sample_allowed [] [(str "ping", SockV4 2 7)]
    echo_se1 sample_told sample_k cl (or_introl echo_given) sample_told_reachable Hcl)
    as (own & _ & Ht & d & Hd & _).
  - split; unfold rx_log, tx_log; rewrite Hn, Hf; done.
  - exists own. split; [|by exists d]. intros i t H1 H2 H3. exact (proj1 (Ht i t H1 H2 H3)).
Defined.
