(* ===== verification/Delivery.v ===== *)
(** * What is delivered when nothing has to be dropped

    The theorems of EndToEnd.v say that nothing is added, mixed up or duplicated.  These
    say that nothing is lost without a reason: when the channels have room, and QUIC and
    the sockets take the datagrams in question, the sockets after blocking for a while
    if they have to, every payload of an open flow arrives, once and in order. *)

From S2P Require Import Prelude.
From S2P Require Import Net.
From S2P Require Import Dgram.
From S2P Require Import Rules.
From S2P Require Import Quiche.
From S2P Require Import Loopback.
From S2P Require Import Io.
From S2P Require Import Sockets.
From S2P Require Import Client.
From S2P Require Import ClientProps.
From S2P Require Import Server.
From S2P Require Import ServerInv.
From S2P Require Import ServerProps.
From S2P Require Import Tunnel.
From S2P Require Import History.
From S2P Require Import ClientFlow.
From S2P Require Import Replies.

(** ** When nothing is refused *)

(** A bounded channel takes a message while it has room and its receiver exists. *)
Class MpscRoom {Chan : Type → Type} {M : Mpsc Chan} (ML : MpscLaws M) := {
  room {A} : Chan A → nat → Prop;
  channel_room {A} n : room (channel n : Chan A) n;
  room_less {A} (t : Chan A) n n' : n' ≤ n → room t n → room t n';
  try_send_room {A} (t : Chan A) a n :
    room t (S n) → ∃ t', try_send t a = (true, t') ∧ room t' n;
}.

Section Accepting.
Context {Conn H3 H3Config Sock : Type} {Q : Quiche Conn H3 H3Config} {U : UdpSys Sock}.

(** QUIC takes these datagrams, one after the other: there is room in the queue and they
    are not too long. *)
Inductive takes : Conn → list bytes → Conn → Prop :=
| takes_nil c : takes c [] c
| takes_cons c b u c1 l c' : dgram_send c b = (Ok u, c1) → takes c1 l c' → takes c (b :: l) c'.

(** The socket takes a datagram at one of [n] attempts; in between it is full, and then
    becomes writable. *)
Inductive taken (to : option SocketAddr) (b : bytes) : nat → Sock → Sock → Prop :=
| taken_now n s s' : sendmsg s to b [] = (Ok (Z.of_nat (length b)), s') → taken to b (S n) s s'
| taken_later n s e s1 u s2 s' :
    sendmsg s to b [] = (Err e, s1) → would_block e = true → writable s1 = (Ok u, s2) →
    taken to b n s2 s' → taken to b (S n) s s'.

(** The socket takes these datagrams, one after the other. *)
Inductive sends (n : nat) : Sock → list (option SocketAddr * bytes) → Sock → Prop :=
| sends_nil s : sends n s [] s
| sends_cons s to b s1 l s' : taken to b n s s1 → sends n s1 l s' → sends n s ((to, b) :: l) s'.

Lemma taken_retry to b n s s' (m : Sock → result io_error unit * Sock) fuel :
  (∀ s, m s = let '(r, s) := sendmsg s to b [] in (check_sent b r, s)) →
  taken to b n s s' → n ≤ fuel → loop fuel (retry m) s = Some (Ok tt, s').
Proof.
  intros Hm Ht. revert fuel. induction Ht as [n s s' E|n s e s1 u s2 s' E Hb Hw _ IH];
    intros [|fuel] Hf; try lia; cbn [loop]; unfold retry at 1; rewrite Hm, E; cbn [check_sent].
  - by rewrite Z.eqb_refl.
  - rewrite Hb, Hw. apply IH. lia.
Qed.

Lemma takes_log {QH : QuicheHistory Q} c l c' : takes c l c' → tx_log c' = tx_log c ++ l.
Proof.
  induction 1 as [c|c b u c1 l c' E _ IH]; [by rewrite app_nil_r|].
  apply dgram_send_logs in E. rewrite IH. unfold tx_log. rewrite E. cbn. by rewrite <- app_assoc.
Qed.
End Accepting.

(** ** From the application to the target *)

Section ClientUp.
Context {Conn H3 H3Config : Type} {Q : Quiche Conn H3 H3Config} {QH : QuicheHistory Q}.
Local Abbreviation Tunnel := (Tunnel Conn).
Implicit Types (t : Tunnel) (c : Conn).

(** A source whose flow the proxy has accepted. *)
Definition flowing t (src : SocketAddr) (fid : Z) : Prop :=
  ∃ p, tn_by_addr t !! src = Some (mkFlowState (Some fid) true p).

Lemma queue_locals_send t src fid ds c' :
  flowing t src fid → takes (tn_conn t) (map (Dgram.encode fid) ds) c' →
  let t' := fold_left queue_local (map (λ d, (d, src)) ds) t in flowing t' src fid ∧ tn_conn t' = c'.
Proof.
  revert t. induction ds as [|d ds IH]; intros t [p Hs] Ht; cbn [map fold_left];
    inversion Ht as [|? ? u c1 ? ? E Ht']; subst.
  - split; [by exists p|done].
  - assert (tn_conn (queue_local t (d, src)) = c1) as Hc.
    { unfold queue_local. rewrite Hs. cbn. unfold send_datagram. by rewrite E. }
    apply IH; [|by rewrite Hc]. exists p. unfold queue_local. rewrite Hs.
    cbn [from_option id fs_established fs_flow_id tn_by_addr]. by rewrite lookup_insert_eq.
Qed.
End ClientUp.

Section ServerUp.
Context {Conn H3 H3Config Sock Os : Type} {Chan : Type → Type}.
Context {Q : Quiche Conn H3 H3Config}.
Context {M : Mpsc Chan} {ML : MpscLaws M} {MR : MpscRoom ML}.
Local Abbreviation Session := (Server.Session Conn H3 Sock Os Chan).
Implicit Types (st : Session).

(** The task of a flow, on the socket [s], has [q] waiting and room for [n] more. *)
Definition waiting_room (fid : Z) (s : Sock) st (q : list bytes) (n : nat) : Prop :=
  ∃ f t, ss_flows st !! fid = Some f ∧ rt_tasks (ss_rt st) !! fl_to_target f = Some t ∧
    t_sock t = s ∧ queued (t_inbox t) = q ∧ room (t_inbox t) n.

(** One datagram: a payload of the flow is queued, others leave the queue alone. *)
Lemma on_datagram_queues now buf st fid s q n :
  apart st → waiting_room fid s st q (length (option_list (payload_for fid buf)) + n) →
  ∃ st', on_datagram now buf st = Returns st' ∧ ss_conn st' = ss_conn st ∧ apart st' ∧
    waiting_room fid s st' (q ++ option_list (payload_for fid buf)) n.
Proof.
  intros Ha (f & t & Hf & Ht & Hs & Hq & Hr).
  destruct (on_datagram_waiting now buf st fid q Ha) as (st' & l & E & Hc & Ha' & _ & _).
  { by exists f, t. }
  exists st'. split_and!; try done.
  unfold on_datagram, payload_for in *. destruct (decode_never_panics buf) as [[p|] Hd];
    rewrite Hd in *; cbn [mbind panics_bind] in E.
  2:{ injection E as <-. rewrite app_nil_r. by exists f, t. }
  destruct (context_id p =? CONTEXT_ID_UDP)%Z; cbn [negb] in E.
  2:{ injection E as <-. rewrite andb_false_r in *. cbn. rewrite app_nil_r. by exists f, t. }
  rewrite andb_true_r in *. destruct (Z.eqb_spec (flow_id p) fid) as [<-|Hne].
  - rewrite Hf in E. injection E as <-. cbn [option_list length Nat.add] in *.
    destruct (try_send_room _ (payload p) _ Hr) as (ch & Es & Hr').
    eexists _, _. cbn [ss_flows ss_rt send_to_target rt_tasks]. rewrite lookup_insert_eq.
    split; [done|]. cbn [fl_to_target]. rewrite lookup_alter_eq, Ht. split; [done|].
    cbn [t_inbox t_sock]. rewrite Es. cbn [snd]. split; [done|]. split; [|done]. apply try_send_queued in Es. by rewrite Es, Hq.
  - cbn [option_list]. rewrite app_nil_r. destruct (ss_flows st !! flow_id p) as [g|] eqn:Hg.
    2:{ injection E as <-. by exists f, t. }
    injection E as <-. exists f, t. cbn [ss_flows ss_rt send_to_target rt_tasks].
    rewrite lookup_insert_ne by done. rewrite lookup_alter_ne; [done|].
    intros Heq. apply Hne. eapply Ha; [done..|]. by rewrite Heq, Ht.
Qed.

Lemma drain_queues fuel now st fid s q bufs c' :
  apart st → received (ss_conn st) bufs c' →
  waiting_room fid s st q (length (omap (payload_for fid) bufs)) → length bufs < fuel →
  ∃ st', drain_client_datagrams fuel now st = Some (Returns st') ∧
    waiting_room fid s st' (q ++ omap (payload_for fid) bufs) 0.
Proof.
  unfold drain_client_datagrams. intros Ha Hr. remember (ss_conn st) as c eqn:Hc. revert fuel st q Hc Ha.
  induction Hr as [c e c' E|c b c1 bufs c' E _ IH]; intros [|fuel] st q -> Ha Hw Hf;
    cbn [length] in Hf; try lia; cbn [loop]; rewrite E.
  - eexists. split; [done|]. cbn in *. rewrite app_nil_r.
    destruct Hw as (f & t & H). by exists f, t.
  - assert (omap (payload_for fid) (b :: bufs) =
      option_list (payload_for fid b) ++ omap (payload_for fid) bufs) as Hsplit.
    { cbn. by destruct (payload_for fid b). }
    rewrite Hsplit, length_app in Hw.
    destruct (on_datagram_queues now b (Server.mkSession c1 (ss_http3 st) (ss_flows st) (ss_rt st))
      fid s q _ Ha Hw) as (st1 & -> & Hc1 & Ha1 & Hw1).
    destruct (IH fuel st1 _ (eq_sym Hc1) Ha1 Hw1) as (st' & -> & Hw'); [lia|].
    exists st'. split; [done|]. by rewrite Hsplit, app_assoc.
Qed.
End ServerUp.

Section TaskUp.
Context {Sock : Type} {Chan : Type → Type} {U : UdpSys Sock} {UL : UdpLaws U}.
Context {M : Mpsc Chan} {ML : MpscLaws M}.
Local Abbreviation Task := (Task Sock Chan).

(** [n] turns of a task that is woken by its channel. *)
Fixpoint task_turns (n fuel : nat) (t : Task) (ch : Chan ToClient) : option (option Task * Chan ToClient) :=
  match n with
  | O => Some (Some t, ch)
  | S n =>
      match target_task fuel FromClient t ch with
      | Some (Some t, ch) => task_turns n fuel t ch
      | r => r
      end
  end.

Lemma task_turns_relay n fuel q (t : Task) ch s' :
  queued (t_inbox t) = q → sends n (t_sock t) (map (pair None) q) s' → n ≤ fuel →
  ∃ t', task_turns (length q) fuel t ch = Some (Some t', ch) ∧ queued (t_inbox t') = [] ∧
    t_sock t' = s' ∧ wire s' = wire (t_sock t) ++ map (pair None) q.
Proof.
  intros Hq Hs Hn. revert t Hq Hs. induction q as [|b q IH]; intros t Hq Hs; cbn [length task_turns];
    inversion Hs as [|? ? ? s1 ? ? Hb Hs']; subst.
  { exists t. by rewrite app_nil_r. }
  cbn [target_task]. destruct (try_recv (t_inbox t)) as [o inbox] eqn:E.
  apply try_recv_queued in E as [E Hnone]. rewrite Hq in E.
  destruct o as [pl|]; [|by rewrite Hnone in E]. injection E as <- E.
  assert (send_udp_connected fuel b (t_sock t) = Some (Ok tt, s1)) as Es
    by by eapply taken_retry.
  rewrite Es. apply send_udp_connected_wire in Es. cbn [is_ok] in Es.
  destruct (IH (mkTask s1 inbox (t_sender t) (t_conn_id t) (t_flow_id t))) as (t' & -> & Hn' & Ht' & Hw);
    [done|done|]. exists t'. split_and!; [done|done|done|]. rewrite Hw. cbn [t_sock map].
  rewrite Es, <- app_assoc. done.
Qed.
End TaskUp.

Lemma payload_for_encodes fid ds :
  in_width 62 fid → omap (payload_for fid) (map (Dgram.encode fid) ds) = ds.
Proof.
  intros Hf. induction ds as [|d ds IH]; [done|]. cbn [map omap list_omap].
  rewrite payload_for_encode, Z.eqb_refl by done. by f_equal.
Qed.

Section Uplink.
Context {Conn H3 H3Config Sock Os : Type} {Chan : Type → Type}.
Context {Q : Quiche Conn H3 H3Config} {QH : QuicheHistory Q}.
Context {U : UdpSys Sock} {UL : UdpLaws U} {M : Mpsc Chan} {ML : MpscLaws M} {MR : MpscRoom ML}.

(** C12: From the application to its target nothing is lost without a reason.  Let the
    proxy have accepted the flow of a source, whose payloads are [ds], and let QUIC take
    the datagrams of the flow that carry them.  Then exactly these datagrams are what the
    client gives to QUIC for [ds], at once and in order.  On the server, whatever else a
    connection has received, if its datagrams of an open flow carry [ds], and the channel
    of the flow's task, where [q] waits, has room for them, draining the connection
    returns and has queued all of [ds]; and when the socket of the task takes [q] and
    [ds], each after at most [n] attempts, then the task puts exactly [q] and then [ds] on
    the wire to the target, each as one datagram. *)
Theorem uplink_lossless (k : Scid) (fid : Z) (ds : list bytes) (t : Tunnel Conn) (src : SocketAddr)
    (c1 : Conn) (st : Server.Session Conn H3 Sock Os Chan) (s s' : Sock) (q bufs : list bytes)
    (c2 : Conn) (n fuel1 fuel2 : nat) (now : Z) (ch : Chan ToClient) :
  in_width 62 fid → flowing t src fid → takes (tn_conn t) (map (Dgram.encode fid) ds) c1 →
  owned k (ss_flows st) (ss_rt st) → received (ss_conn st) bufs c2 →
  omap (payload_for fid) bufs = ds → waiting_room fid s st q (length ds) →
  sends n s (map (pair None) (q ++ ds)) s' → length bufs < fuel1 → n ≤ fuel2 →
  (∃ sent, tn_conn (fold_left queue_local (map (λ d, (d, src)) ds) t) = c1 ∧
     tx_log c1 = tx_log (tn_conn t) ++ sent ∧ length sent = length ds ∧
     omap (payload_for fid) sent = ds) ∧
  ∃ st' f task task', drain_client_datagrams fuel1 now st = Some (Returns st') ∧
    ss_flows st' !! fid = Some f ∧
    rt_tasks (ss_rt st') !! fl_to_target f = Some task ∧ t_sock task = s ∧
    task_turns (length (q ++ ds)) fuel2 task ch = Some (Some task', ch) ∧
    wire (t_sock task') = wire s ++ map (pair None) (q ++ ds).
Proof.
  intros Hfid Hfl Hc Ho Hr Hds Hw Hs Hf1 Hf2. split.
  - destruct (queue_locals_send t src fid ds c1 Hfl Hc) as [_ Hc1].
    exists (map (Dgram.encode fid) ds). split_and!;
      [done|by apply takes_log|apply length_map|by apply payload_for_encodes].
  - rewrite <- Hds in Hw.
    destruct (drain_queues fuel1 now st fid s q bufs c2 (owned_apart _ _ Ho) Hr Hw Hf1)
      as (st' & E & f & task & Hf & Ht & Hsk & Hq & _). rewrite Hds in Hq. rewrite <- Hsk in Hs.
    destruct (task_turns_relay n fuel2 (q ++ ds) task ch s' Hq Hs Hf2) as (task' & Hturns & _ & Hs' & Hwire).
    exists st', f, task, task'. rewrite Hs', <- Hsk. by split_and!.
Qed.
End Uplink.

(** ** From the target to the application *)

Section ServerDown.
Context {Conn H3 H3Config Config Sock Os : Type} {Chan : Type → Type}.
Context {Q : Quiche Conn H3 H3Config} {QH : QuicheHistory Q} {U : UdpSys Sock}.
Context {M : Mpsc Chan} {ML : MpscLaws M} {MR : MpscRoom ML}.
Local Abbreviation Server := (Server Conn H3 H3Config Config Sock Os Chan).
Local Abbreviation Task := (Task Sock Chan).
Implicit Types (sv : Server) (t : Task).

(** The datagrams that wait on a connected socket. *)
Inductive arriving : Sock → list bytes → Sock → Prop :=
| arriving_done s e s' :
    recv_udp_connected s RECV_BUF = (Err e, s') → would_block e = true → arriving s [] s'
| arriving_one s b s1 l s' :
    recv_udp_connected s RECV_BUF = (Ok b, s1) → arriving s1 l s' → arriving s (b :: l) s'.

(** One turn of the task reads everything, or a whole batch of it. *)
Lemma recv_target_batch n t ds s' ch :
  arriving (t_sock t) ds s' → room ch (length ds) →
  ∃ s1 ch', recv_target n t ch = (true, set_sock t s1, ch') ∧
    queued ch' = queued ch ++ map (mkToClient (t_conn_id t) (t_flow_id t)) (take n ds) ∧
    (n ≤ length ds → arriving s1 (drop n ds) s' ∧ room ch' (length (drop n ds))).
Proof.
  intros Ha. remember (t_sock t) as s eqn:Hs. revert n t ch Hs.
  induction Ha as [s e s' E Hb|s b s1 l s' E Ha IH]; intros [|n] t ch -> Hr; cbn [recv_target take drop map].
  - exists (t_sock t), ch. rewrite app_nil_r. split; [by destruct t|]. split; [done|].
    intros _. split; [by eapply arriving_done|done].
  - rewrite E, Hb. exists s', ch. rewrite app_nil_r. split_and!; [done..|cbn; lia].
  - exists (t_sock t), ch. rewrite app_nil_r. split; [by destruct t|]. split; [done|].
    intros _. split; [by eapply arriving_one|done].
  - rewrite E.
    destruct (try_send_room ch (mkToClient (t_conn_id t) (t_flow_id t) b) _ Hr) as (ch1 & Es & Hr1).
    rewrite Es. cbn [negb andb]. apply try_send_queued in Es.
    destruct (IH n (set_sock t s1) ch1 eq_refl Hr1) as (s2 & ch' & -> & Hq & Hd).
    exists s2, ch'. split; [done|]. rewrite Hq, Es, <- app_assoc. split; [done|].
    intros Hn. apply Hd. cbn in Hn. lia.
Qed.

(** The datagrams for connection [k] among the replies. *)
Definition for_conn (k : Scid) (l : list ToClient) : list bytes :=
  omap (λ tc, if bool_decide (tc_conn_id tc = k)
              then Some (Dgram.encode (tc_flow_id tc) (tc_payload tc)) else None) l.

Lemma for_conn_own k fid ds : for_conn k (map (mkToClient k fid) ds) = map (Dgram.encode fid) ds.
Proof.
  induction ds as [|d ds IH]; [done|]. unfold for_conn in *. cbn [map omap list_omap tc_conn_id].
  rewrite bool_decide_true by done. cbn. by f_equal.
Qed.

Lemma drain_targets_all fuel now sv k (cl : Server.Client Conn H3) c' :
  sv_clients sv !! k = Some cl → takes (cl_conn cl) (for_conn k (queued (sv_to_client sv))) c' →
  length (queued (sv_to_client sv)) < fuel →
  ∃ sv' cl', drain_targets fuel now sv = Some sv' ∧ sv_clients sv' !! k = Some cl' ∧ cl_conn cl' = c'.
Proof.
  unfold drain_targets. revert sv cl.
  induction fuel as [|fuel IH]; intros sv cl Hcl Ht Hf; cbn [loop]; [lia|].
  destruct (try_recv (sv_to_client sv)) as [[tc|] ch] eqn:E; apply try_recv_queued in E as [E Hn].
  - change (queued (sv_to_client sv) = tc :: queued ch) in E. rewrite E in Ht, Hf.
    unfold for_conn in Ht. cbn [omap list_omap length] in Ht, Hf. unfold on_target_payload. cbn [sv_clients].
    destruct (decide (tc_conn_id tc = k)) as [<-|Hne].
    + rewrite bool_decide_true in Ht by done. inversion Ht as [|? ? u c1 ? ? Es Ht']; subst.
      rewrite Hcl, Es. eapply IH; [cbn [set_clients sv_clients]; apply lookup_insert_eq|exact Ht'|].
      cbn [set_clients sv_to_client]. lia.
    + rewrite bool_decide_false in Ht by done.
      destruct (sv_clients sv !! tc_conn_id tc) as [cl2|].
      * destruct (dgram_send _ _). apply (IH _ cl); [|exact Ht|cbn [set_clients sv_to_client]; lia].
        cbn [set_clients sv_clients]. by rewrite lookup_insert_ne.
      * apply (IH _ cl); [exact Hcl|exact Ht|cbn [sv_to_client]; lia].
  - rewrite E, Hn in Ht by done. inversion Ht; subst. eexists _, cl. by split_and!.
Qed.
End ServerDown.

Section ClientDown.
Context {Conn H3 H3Config Sock : Type} {Q : Quiche Conn H3 H3Config}.
Context {U : UdpSys Sock} {UL : UdpLaws U} (linux : bool).
Implicit Types (c : Conn) (s : Sock).

(** Where a datagram of the tunnel goes. *)
Definition addressed (flows : gmap Z SocketAddr) (b : bytes) : option (option SocketAddr * bytes) :=
  '(fid, pl) ← flow_payload b; src ← flows !! fid; Some (Some src, pl).

Lemma tunnel_target_addressed flows b :
  ∃ o, tunnel_target flows b = Returns o ∧
    addressed flows b = (λ p, (Some p.1, p.2)) <$> o.
Proof.
  unfold tunnel_target, addressed, flow_payload. destruct (decode_never_panics b) as [[p|] ->]; cbn.
  - destruct (_ =? _)%Z; cbn; [|by exists None].
    destruct (flows !! flow_id p); cbn; eauto.
  - by exists None.
Qed.

Lemma send_udp_taken n fuel s b to s' :
  taken (Some to) b n s s' → n ≤ fuel → send_udp linux fuel s b to = Some (Ok tt, s').
Proof.
  intros Ht Hn. unfold send_udp, send_batch, SendBatch.push_first, SendBatch.take. cbn [SendBatch.to].
  unfold send_packets. cbn [SendBatch.packets SendBatch.segment_size SendBatch.new app length concat].
  change (1 <? 1) with false. rewrite app_nil_r, !andb_false_r. cbn [andb].
  unfold send_payload.
  by rewrite (taken_retry (Some to) b n s s' (λ s, sendmsg_udp linux s to b None) fuel (λ s, eq_refl) Ht Hn).
Qed.

Lemma route_all n fuel flows c bufs c' s s' :
  received c bufs c' → sends n s (omap (addressed flows) bufs) s' → length bufs < fuel → n ≤ fuel →
  route_tunnel_datagrams linux fuel flows c s = Some (Returns (c', s')) ∧
  wire s' = wire s ++ omap (addressed flows) bufs.
Proof.
  unfold route_tunnel_datagrams. intros Hr Hs Hl Hn.
  assert (∀ s fuel', sends n s (omap (addressed flows) bufs) s' → length bufs < fuel' →
    loop fuel' (route_one linux fuel flows) (c, s) = Some (Some (Returns (c', s'))) ∧
    wire s' = wire s ++ omap (addressed flows) bufs) as H.
  { clear s Hs Hl. induction Hr as [c e c' E|c b c1 bufs c' E _ IH]; intros s [|fuel'] Hs Hf;
      cbn [length] in Hf; try lia; cbn [loop]; unfold route_one at 1; rewrite E.
    - cbn in *. inversion Hs; subst. by rewrite app_nil_r.
    - destruct (tunnel_target_addressed flows b) as (o & -> & Ho). cbn [omap list_omap] in *.
      rewrite Ho in *. destruct o as [[src pl]|]; cbn [fmap option_fmap option_map fst snd] in *.
      + inversion Hs as [|? ? ? s1 ? ? Hb Hs']; subst.
        pose proof (send_udp_taken n fuel s pl src s1 Hb Hn) as Es. rewrite Es.
        apply send_udp_wire in Es. cbn [is_ok] in Es.
        destruct (IH s1 fuel' Hs' ltac:(lia)) as [-> Hw].
        split; [done|]. rewrite Hw, Es, <- app_assoc. done.
      + apply IH; [done|lia]. }
  destruct (H s fuel Hs Hl) as [-> Hw]. done.
Qed.

(** What is addressed to a source is what its flow carries. *)
Definition sent_to (src : SocketAddr) (l : list (option SocketAddr * bytes)) : list bytes :=
  omap (λ p, if bool_decide (p.1 = Some src) then Some p.2 else None) l.

Lemma sent_to_flow flows fid src bufs :
  flows !! fid = Some src → (∀ fid', flows !! fid' = Some src → fid' = fid) →
  sent_to src (omap (addressed flows) bufs) = omap (payload_for fid) bufs.
Proof.
  intros Hf Hinj. unfold sent_to. induction bufs as [|b bufs IH]; [done|].
  cbn [omap list_omap]. unfold addressed at 1, payload_for at 1, flow_payload.
  destruct (decode_never_panics b) as [[p|] ->]; cbn [mbind option_bind]; [|exact IH].
  destruct (_ =? CONTEXT_ID_UDP)%Z; rewrite ?andb_true_r, ?andb_false_r; cbn [mbind option_bind]; [|exact IH].
  destruct (Z.eqb_spec (flow_id p) fid) as [->|Hne].
  - rewrite Hf. cbn [mbind option_bind omap list_omap fst snd].
    rewrite bool_decide_true by done. by f_equal.
  - destruct (flows !! flow_id p) as [src'|] eqn:E; cbn [mbind option_bind omap list_omap fst snd]; [|exact IH].
    rewrite bool_decide_false; [exact IH|]. intros [= ->]. by apply Hne, Hinj.
Qed.
End ClientDown.

Section Downlink.
Context {Conn H3 H3Config Config Sock Os : Type} {Chan : Type → Type}.
Context {Q : Quiche Conn H3 H3Config} {QH : QuicheHistory Q}.
Context {U : UdpSys Sock} {UL : UdpLaws U} {M : Mpsc Chan} {ML : MpscLaws M} {MR : MpscRoom ML}.
Context (linux : bool).
Local Abbreviation Server := (Server Conn H3 H3Config Config Sock Os Chan).

(** [k] turns of a task whose socket is readable. *)
Fixpoint read_turns (k fuel i : nat) (sv : Server) : option Server :=
  match k with
  | O => Some sv
  | S k => sv ← run_task fuel i TargetReadable sv; read_turns k fuel i sv
  end.

(** One turn for every full batch and one for the rest. *)
Definition turns_for (ds : list bytes) : nat := S (length ds / RECV_BATCH).

Lemma turns_for_batch ds : RECV_BATCH ≤ length ds → turns_for ds = S (turns_for (drop RECV_BATCH ds)).
Proof.
  assert (0 < RECV_BATCH) by (unfold RECV_BATCH; lia). intros Hl. unfold turns_for. f_equal.
  rewrite length_drop. set (m := length ds - RECV_BATCH).
  replace (length ds) with (m + 1 * RECV_BATCH) by (subst m; lia).
  rewrite Nat.div_add by lia. lia.
Qed.

Lemma read_turns_all fuel (i : nat) (sv : Server) t ds s' :
  rt_tasks (sv_rt sv) !! i = Some t → arriving (t_sock t) ds s' →
  room (sv_to_client sv) (length ds) →
  ∃ sv', read_turns (turns_for ds) fuel i sv = Some sv' ∧ sv_clients sv' = sv_clients sv ∧
    queued (sv_to_client sv') =
      queued (sv_to_client sv) ++ map (mkToClient (t_conn_id t) (t_flow_id t)) ds.
Proof.
  remember (length ds) as m eqn:Hm. revert ds Hm sv t.
  induction (lt_wf m) as [m _ IH]; intros ds -> sv t Ht Ha Hr.
  destruct (recv_target_batch RECV_BATCH t ds s' (sv_to_client sv) Ha Hr) as (s1 & ch & E & Hq & Hd).
  destruct (le_lt_dec RECV_BATCH (length ds)) as [Hl|Hl].
  - rewrite (turns_for_batch ds Hl). cbn [read_turns]. unfold run_task at 1. rewrite Ht.
    cbn [target_task]. rewrite E. cbn [mbind option_bind].
    destruct (Hd Hl) as [Ha1 Hr1].
    assert (length (drop RECV_BATCH ds) < length ds) as Hlt.
    { assert (0 < RECV_BATCH) by (unfold RECV_BATCH; lia). rewrite length_drop. lia. }
    edestruct (IH _ Hlt (drop RECV_BATCH ds) eq_refl) as (sv' & -> & Hsame & Hq');
      [cbn [sv_rt rt_tasks]; rewrite lookup_partial_alter_eq; reflexivity|exact Ha1|exact Hr1|].
    exists sv'. split; [done|]. split; [exact Hsame|]. rewrite Hq'. cbn [sv_to_client set_sock t_conn_id t_flow_id].
    rewrite Hq, <- app_assoc, <- map_app, take_drop. done.
  - unfold turns_for. rewrite Nat.div_small by done. cbn [read_turns]. unfold run_task. rewrite Ht.
    cbn [target_task]. rewrite E. cbn [mbind option_bind]. eexists. split; [reflexivity|].
    split; [done|]. cbn [sv_to_client]. rewrite Hq, take_ge by lia. done.
Qed.

(** C13: From the target back to the application nothing is lost without a reason.  On
    the server, let any number of datagrams [ds] wait on the socket of the task of a flow,
    let the reply channel have room for them and let QUIC take the datagrams of the
    connection's flows that carry the replies already waiting and [ds].  Then the turns of
    the task, one for every full batch and one for the rest, and a turn of the main loop
    return and give exactly these datagrams to the connection of that task, in order, those
    of [ds] as datagrams of its flow.  On the client, whatever else the connection
    has received, if its datagrams of an open flow carry [ds] and the local socket takes
    what the connection's datagrams are addressed to, each after at most [n] attempts, then
    the source of the flow is sent exactly [ds]. *)
Theorem downlink_lossless (sv : Server) (i : nat) (t : Task Sock Chan) (ds : list bytes) (s' : Sock)
    (cl : Server.Client Conn H3) (c1 : Conn) (n fuel fuel' : nat) (now : Z)
    (c c' : Conn) (bufs : list bytes) (flows : gmap Z SocketAddr) (src : SocketAddr) (ls ls' : Sock) :
  rt_tasks (sv_rt sv) !! i = Some t → arriving (t_sock t) ds s' →
  room (sv_to_client sv) (length ds) → sv_clients sv !! t_conn_id t = Some cl →
  takes (cl_conn cl) (for_conn (t_conn_id t) (queued (sv_to_client sv)) ++
    map (Dgram.encode (t_flow_id t)) ds) c1 →
  length (queued (sv_to_client sv)) + length ds < fuel →
  received c bufs c' → omap (payload_for (t_flow_id t)) bufs = ds →
  flows !! t_flow_id t = Some src → (∀ fid, flows !! fid = Some src → fid = t_flow_id t) →
  sends n ls (omap (addressed flows) bufs) ls' → length bufs < fuel' → n ≤ fuel' →
  (∃ sv1 sv2 cl', read_turns (turns_for ds) fuel i sv = Some sv1 ∧
     drain_targets fuel now sv1 = Some sv2 ∧
     sv_clients sv2 !! t_conn_id t = Some cl' ∧
     tx_log (cl_conn cl') = tx_log (cl_conn cl) ++
       for_conn (t_conn_id t) (queued (sv_to_client sv)) ++ map (Dgram.encode (t_flow_id t)) ds) ∧
  ∃ out, route_tunnel_datagrams linux fuel' flows c ls = Some (Returns (c', ls')) ∧
    wire ls' = wire ls ++ out ∧ sent_to src out = ds.
Proof.
  intros Ht Ha Hr Hcl Hc Hf Hrec Hds Hflow Hinj Hls Hf' Hn. split.
  - destruct (read_turns_all fuel i sv t ds s' Ht Ha Hr) as (sv1 & E & Hsame & Hq).
    destruct (drain_targets_all fuel now sv1 (t_conn_id t) cl c1) as (sv2 & cl' & Ed & Hcl' & Hc1).
    + by rewrite Hsame.
    + rewrite Hq. unfold for_conn. rewrite omap_app.
      change (omap _ (map (mkToClient (t_conn_id t) (t_flow_id t)) ds))
        with (for_conn (t_conn_id t) (map (mkToClient (t_conn_id t) (t_flow_id t)) ds)).
      rewrite for_conn_own. exact Hc.
    + rewrite Hq, length_app, length_map. exact Hf.
    + exists sv1, sv2, cl'. split_and!; [done..|]. rewrite Hc1. by apply takes_log.
  - destruct (route_all linux n fuel' flows c bufs c' ls ls' Hrec Hls Hf' Hn) as [E Hw].
    exists (omap (addressed flows) bufs). split_and!; [exact E|exact Hw|].
    by rewrite (sent_to_flow flows (t_flow_id t) src bufs Hflow Hinj).
Qed.
End Downlink.

(** ** Instances and runs *)

Definition LoopRoom : MpscRoom LoopMpscLaws.
Proof.
  refine {| room A (t : lchan A) n := length (lc_queue t) + n ≤ lc_cap t |}; simpl; [lia..|].
  intros A t a n Hr. destruct (Nat.ltb_spec (length (lc_queue t)) (lc_cap t)); [|lia].
  eexists. split; [reflexivity|]. cbn. rewrite length_app. cbn. lia.
Defined.

Lemma loop_takes (c : lconn) l : ∃ c', takes (Q := LoopQuiche) c l c'.
Proof.
  revert c. induction l as [|b l IH]; intros c; [eexists; apply takes_nil|].
  edestruct IH as [c' Hc']. exists c'. eapply takes_cons; [reflexivity|exact Hc'].
Qed.

(** A socket of Loopback.v takes a datagram after the sends that block. *)
Lemma loop_taken n (s : lsock) to b :
  ls_blocks s < n → ∃ s', taken (U := LoopUdp) to b n s s' ∧ ls_blocks s' = 0.
Proof.
  revert s. induction n as [|n IH]; intros s Hb; [lia|]. destruct (ls_blocks s) as [|k] eqn:E.
  - eexists. split; [apply taken_now; cbn; unfold l_sendmsg; rewrite E; reflexivity|reflexivity].
  - edestruct (IH (snd (writable (UdpSys := LoopUdp) s))) as (s' & Hs' & H0); [cbn; rewrite E; cbn; lia|].
    exists s'. split; [|exact H0]. eapply taken_later; [cbn; unfold l_sendmsg; rewrite E; reflexivity
      |reflexivity|reflexivity|exact Hs'].
Qed.

Lemma loop_sends n (s : lsock) l : ls_blocks s < n → ∃ s', sends (U := LoopUdp) n s l s'.
Proof.
  revert s. induction l as [|[to b] l IH]; intros s Hb; [eexists; apply sends_nil|].
  destruct (loop_taken n s to b Hb) as (s1 & Hs1 & H0).
  destruct (IH s1) as [s' Hs']; [lia|]. exists s'. eapply sends_cons; [exact Hs1|exact Hs'].
Qed.

(** Two payloads among those of another flow, with one waiting already, and a socket that
    blocks twice. *)
Lemma uplink_lossless_witness :
  ∃ (st' : Server.Session lconn Z lsock (list SocketAddr) lchan) f task task',
    ss_flows st' !! 0%Z = Some f ∧
    rt_tasks (ss_rt st') !! fl_to_target f = Some task ∧
    task_turns (U := LoopUdp) (M := LoopMpsc) 3 3 task (mkLchan [] 5) = Some (Some task', mkLchan [] 5) ∧
    ls_wire (t_sock task') = [(None, str "0"); (None, str "a"); (None, str "b")].
Proof.
  set (sock := mkLsock [] [] 2 true [] [] []).
  set (bufs := [Dgram.encode 0 (str "a"); Dgram.encode 1 (str "x"); Dgram.encode 0 (str "b")]).
  set (st := Server.mkSession (mkLconn [] bufs [] [] [] [] [] true false []) 0%Z {[0%Z := mkFlow 3 0 None]}
    (mkRuntime {[3 := mkTask sock (mkLchan [str "0"] 5) true (str "k") 0]} 4 ([] : list SocketAddr))).
  set (t := mkTunnel idle_conn {[SockV4 1 1 := mkFlowState (Some 0%Z) true []]} {[0%Z := SockV4 1 1]}).
  assert (owned (str "k") (ss_flows st) (ss_rt st)) as Ho.
  { split; unfold st; cbn [ss_flows ss_rt rt_tasks rt_next].
    - intros fid f [<- <-]%lookup_singleton_Some. split; [simpl; lia|]. by intros t0 [= <-].
    - intros i t0 [<- <-]%lookup_singleton_Some _ _. by eexists. }
  destruct (loop_takes idle_conn (map (Dgram.encode 0) [str "a"; str "b"])) as [c1 Hc1].
  destruct (loop_sends 3 sock (map (pair None) ([str "0"] ++ [str "a"; str "b"]))) as [s' Hs']; [cbn; lia|].
  destruct (uplink_lossless (Q := LoopQuiche) (QH := LoopHistory) (UL := LoopUdpLaws) (MR := LoopRoom)
    (str "k") 0 [str "a"; str "b"] t (SockV4 1 1) c1 st sock s' [str "0"] bufs
    (mkLconn [] [] [] [] [] [] [] true false bufs) 3 9 3 5 (mkLchan [] 5))
    as [_ (st' & f & task & task' & _ & Hf & Ht & _ & Hturns & Hw)].
  - unfold in_width. lia.
  - by exists [].
  - exact Hc1.
  - exact Ho.
  - do 3 (eapply received_one; [vm_compute; reflexivity|]).
    eapply received_done. vm_compute. reflexivity.
  - vm_compute. reflexivity.
  - eexists _, _. split; [reflexivity|]. split; [reflexivity|]. split; [reflexivity|].
    split; [reflexivity|]. cbn. lia.
  - exact Hs'.
  - cbn. lia.
  - lia.
  - exists st', f, task, task'. split; [exact Hf|]. split; [exact Ht|]. split; [exact Hturns|exact Hw].
Defined.

(** The echo of "ping" waits on the socket of the sample task. *)
Lemma sample_sent_state :
  ∃ t cl, rt_tasks (sv_rt sample_sent) !! 0 = Some t ∧ sv_clients sample_sent !! sample_k = Some cl ∧
    t_conn_id t = sample_k ∧ t_flow_id t = 0%Z ∧
    ls_inbox (t_sock t) = [(str "ping", mkStorage 0 [], [])] ∧ l_dg_out (cl_conn cl) = [] ∧
    lc_queue (sv_to_client sample_sent) = [].
Proof.
  eexists _, _. split; [vm_compute; reflexivity|]. split; [vm_compute; reflexivity|].
  vm_compute. do 4 (split; [reflexivity|]). reflexivity.
Qed.

Lemma sample_sent_room : room (MpscRoom := LoopRoom) (sv_to_client sample_sent) 1.
Proof. vm_compute. lia. Qed.

(** One datagram that waits on a socket of Loopback.v. *)
Lemma arriving_loop (s : lsock) b a cm :
  ls_inbox s = [(b, a, cm)] → length b ≤ RECV_BUF →
  ∃ s', arriving (U := LoopUdp) s [b] s'.
Proof.
  intros Hi Hb. eexists. eapply arriving_one; [|eapply arriving_done].
  - unfold recv_udp_connected. cbn [recvmsg LoopUdp]. rewrite Hi, (take_ge b) by done. reflexivity.
  - unfold recv_udp_connected. cbn [recvmsg LoopUdp ls_inbox]. reflexivity.
  - reflexivity.
Qed.

(** The client's connection has received the echo together with a datagram of another
    flow, and the local socket blocks once. *)
Lemma downlink_lossless_witness :
  ∃ sv1 sv2 (cl' : Server.Client lconn Z) ls' out,
    read_turns (U := LoopUdp) (M := LoopMpsc) 1 9 0 sample_sent = Some sv1 ∧
    drain_targets (Q := LoopQuiche) (M := LoopMpsc) 9 1001 sv1 = Some sv2 ∧
    sv_clients sv2 !! sample_k = Some cl' ∧
    l_dg_out (cl_conn cl') = [Dgram.encode 0 (str "ping")] ∧
    ls_wire ls' = out ∧ sent_to (SockV4 2 7) out = [str "ping"].
Proof.
  destruct sample_sent_state as (t & cl & Ht & Hcl & Hk & Hf & Hi & Hout & Hq).
  destruct (arriving_loop (t_sock t) (str "ping") (mkStorage 0 []) [] Hi) as [s1 Hs1].
  { unfold RECV_BUF. change (length (str "ping")) with 4. lia. }
  set (bufs := [Dgram.encode 1 (str "x"); Dgram.encode 0 (str "ping")]).
  set (flows := {[0%Z := SockV4 2 7; 1%Z := SockV4 2 8]} : gmap Z SocketAddr).
  set (sock := mkLsock [] [] 1 true [] [] []).
  destruct (loop_takes (cl_conn cl) (for_conn (t_conn_id t) (queued (MpscLaws := LoopMpscLaws) (sv_to_client sample_sent)) ++
    map (Dgram.encode (t_flow_id t)) [str "ping"])) as [c1 Hc1].
  destruct (loop_sends 2 sock (omap (addressed flows) bufs)) as [ls' Hls']; [cbn; lia|].
  assert (length (queued (MpscLaws := LoopMpscLaws) (sv_to_client sample_sent)) = 0) as Hq0.
  { change (length (lc_queue (sv_to_client sample_sent)) = 0). rewrite Hq. reflexivity. }
  destruct (downlink_lossless (Q := LoopQuiche) (QH := LoopHistory) (UL := LoopUdpLaws) (MR := LoopRoom)
    true sample_sent 0 t [str "ping"] s1 cl c1 2 9 9 1001
    (mkLconn [] bufs [] [] [] [] [] true false []) (mkLconn [] [] [] [] [] [] [] true false bufs) bufs
    flows (SockV4 2 7) sock ls' Ht Hs1 sample_sent_room)
    as ((sv1 & sv2 & cl' & E1 & E2 & Hcl' & Htx) & out & _ & Hw & Hs).
  - rewrite Hk. exact Hcl.
  - exact Hc1.
  - rewrite Hq0. cbn. lia.
  - do 2 (eapply received_one; [vm_compute; reflexivity|]).
    eapply received_done. vm_compute. reflexivity.
  - rewrite Hf. vm_compute. reflexivity.
  - rewrite Hf. reflexivity.
  - rewrite Hf. intros fid. unfold flows. rewrite lookup_insert_Some. intros [[<- _]|[_ H]]; [reflexivity|].
    apply lookup_singleton_Some in H as [_ H]. discriminate H.
  - exact Hls'.
  - cbn. lia.
  - lia.
  - exists sv1, sv2, cl', ls', out. split; [exact E1|]. split; [exact E2|]. rewrite Hk in Hcl'.
    split; [exact Hcl'|]. split; [|split; [exact Hw|exact Hs]].
    change (l_dg_out (cl_conn cl') = l_dg_out (cl_conn cl) ++
      for_conn (t_conn_id t) (lc_queue (sv_to_client sample_sent)) ++
      map (Dgram.encode (t_flow_id t)) [str "ping"]) in Htx.
    rewrite Htx, Hout, Hf, Hq. vm_compute. reflexivity.
Defined.
