(* ===== verification/UnitTests.v ===== *)
(** * The repository's unit tests

    The [#[cfg(test)]] modules of src/varint.rs, src/dgram.rs, src/endpoint.rs,
    src/rules.rs, src/ech/config.rs, src/ech/key.rs and src/client.rs, as programs of
    the type [panics]: a failed assertion and an [unwrap] of an error panic, so a test
    passes when it returns.  What the tests call outside the repository stays a
    parameter: the tests of the rule table pass for every JSON parser that reads the
    three documents as written and every resolver that maps a literal address to
    itself, those of the key bundles for every base64 codec with the laws of
    Base64.v. *)

From Stdlib Require Import Strings.Byte.
From S2P Require Import Prelude.
From S2P Require Import RustStr.
From S2P Require Import Net.
From S2P Require Varint.
From S2P Require Dgram.
From S2P Require Import Endpoint.
From S2P Require Import Rules.
From S2P Require Import EchConfig.
From S2P Require Import Base64.
From S2P Require Import EchKey.
From S2P Require Import Client.

(** ** Assertions *)

(** [assert!(c)]. *)
Definition assert (c : bool) : panics unit := if c then Returns tt else Panics.

(** [assert_eq!(a, b)]. *)
Definition assert_eq {A} `{EqDecision A} (a b : A) : panics unit :=
  assert (bool_decide (a = b)).

(** [r.unwrap()]. *)
Definition unwrap {E A} (r : result E A) : panics A :=
  match r with Ok a => Returns a | Err _ => Panics end.

(** A test passes when it does not panic. *)
Definition passes (t : panics unit) : Prop := t = Returns tt.

(** [for x in l { body(x) }]. *)
Fixpoint each {A} (body : A → panics unit) (l : list A) : panics unit :=
  match l with
  | [] => Returns tt
  | x :: l => body x ≫= λ _, each body l
  end.

Notation "m ;; k" := (mbind (M := panics) (λ _, k) m)
  (at level 100, right associativity, only parsing) : rust_scope.
Local Open Scope rust_scope.

(** ** src/varint.rs *)

Module VarintTests.
Definition boundaries : list Z :=
  [0; 63; 64; 16383; 16384; 1073741823; 1073741824; Z.shiftr (2 ^ 64 - 1) 2]%Z.

Definition roundtrip_boundaries : panics unit :=
  each (λ v,
    let out := Varint.encode v in
    assert_eq (length out) (Varint.encoded_len v) ;;
    '(decoded, n) ← expect (Varint.decode out);
    assert_eq decoded v ;;
    assert_eq n (length out)) boundaries.

Definition decode_short_buffer_is_none : panics unit :=
  assert_eq (Varint.decode [z2b 0x80; z2b 0x00]) None ;;
  assert_eq (Varint.decode []) None.

Definition known_vectors : panics unit :=
  a ← expect (Varint.decode [z2b 0x25]);
  assert_eq a.1 37%Z ;;
  b ← expect (Varint.decode [z2b 0x7b; z2b 0xbd]);
  assert_eq b.1 15293%Z.
End VarintTests.

(** ** src/dgram.rs *)

Module DgramTests.
Definition encode_decode_roundtrip : panics unit :=
  let d := Dgram.encode 0 (str "hello") in
  o ← Dgram.decode d;
  p ← expect o;
  assert_eq (Dgram.flow_id p) 0%Z ;;
  assert_eq (Dgram.context_id p) Dgram.CONTEXT_ID_UDP ;;
  assert_eq (Dgram.payload p) (str "hello").

Definition nonzero_flow_and_context : panics unit :=
  let d := Dgram.encode 7 (str "x") in
  o ← Dgram.decode d;
  p ← expect o;
  assert_eq (Dgram.flow_id p) 7%Z ;;
  assert_eq (Dgram.context_id p) 0%Z ;;
  assert_eq (Dgram.payload p) (str "x").
End DgramTests.

(** ** src/endpoint.rs *)

Module EndpointTests.
Definition parses_authority_and_path : panics unit :=
  e ← unwrap (parse (str "https://localhost:4433/connect"));
  assert_eq (authority e) (str "localhost:4433") ;;
  assert_eq (path e) (str "/connect") ;;
  assert (matches e (str "/connect")) ;;
  assert (matches e (str "/connect?x=1")) ;;
  assert (negb (matches e (str "/other"))).

Definition query_is_ignored_when_matching : panics unit :=
  e ← unwrap (parse (str "https://proxy:4433/masque"));
  assert (matches e (str "/masque?h=127.0.0.1&p=53")) ;;
  assert (matches e (str "/masque")) ;;
  assert (negb (matches e (str "/other?h=127.0.0.1&p=53"))) ;;
  e2 ← unwrap (parse (str "https://proxy:4433/masque?ignored=1"));
  assert (matches e2 (str "/masque?h=1&p=2")) ;;
  assert (matches e2 (str "/masque")).

Definition defaults_path_when_absent : panics unit :=
  e ← unwrap (parse (str "https://proxy:4433"));
  assert_eq (authority e) (str "proxy:4433") ;;
  assert_eq (path e) (str "/").

Definition rejects_relative_uri : panics unit :=
  assert (negb (is_ok (parse (str "/connect")))).
End EndpointTests.

(** ** src/client.rs *)

Module ClientTests.
Definition host_of_strips_port_and_brackets : panics unit :=
  assert_eq (host_of (str "localhost:4433")) (str "localhost") ;;
  assert_eq (host_of (str "example.com")) (str "example.com") ;;
  assert_eq (host_of (str "[2001:db8::1]:443")) (str "2001:db8::1").
End ClientTests.

(** ** src/ech/config.rs *)

Module EchConfigTests.
Definition cfg (id : Z) (key : byte) : EchConfig := {|
  config_id := z2b id;
  kem_id := HPKE_KEM_DHKEM_X25519;
  public_key := replicate 32 key;
  cipher_suites := [mkCipherSuite HPKE_KDF_HKDF_SHA256 HPKE_AEAD_AES_128_GCM];
  maximum_name_length := z2b 0;
  public_name := str "example.com";
|}.

Definition roundtrip_minimal : panics unit :=
  bytes ← encode (cfg 42 (z2b 0x11));
  parsed ← unwrap (decode bytes);
  assert_eq (config_id parsed) (z2b 42) ;;
  assert_eq (kem_id parsed) HPKE_KEM_DHKEM_X25519 ;;
  assert_eq (public_key parsed) (replicate 32 (z2b 0x11)) ;;
  assert_eq (length (cipher_suites parsed)) 1 ;;
  assert_eq (public_name parsed) (str "example.com").

(** [r.op().unwrap()] on a reader: the value and the reader moved on. *)
Definition read_unwrap {A} (m : stm Reader.t EchError A) (r : Reader.t) : panics (A * Reader.t) :=
  match m r with
  | (Ok a, r) => Returns (a, r)
  | (Err _, _) => Panics
  end.

Definition list_roundtrip : panics unit :=
  let c := cfg 1 (z2b 0x22) in
  lst ← encode_list [c; c];
  '(list_len, r) ← read_unwrap Reader.read_u16 (Reader.new lst);
  assert_eq list_len (Z.of_nat (length lst - 2)) ;;
  '(body, r) ← read_unwrap (Reader.read_slice (Z.to_nat list_len)) r;
  '(a, br) ← read_unwrap decode_from (Reader.new body);
  '(b, br) ← read_unwrap decode_from br;
  assert (Reader.is_empty br) ;;
  assert_eq (config_id a) (z2b 1) ;;
  assert_eq (config_id b) (z2b 1).
End EchConfigTests.

(** ** src/ech/key.rs *)

Module EchKeyTests.
Definition sample_config (id : Z) : EchConfig := EchConfigTests.cfg id (z2b 0xab).

Section Base64.
Context `{Base64}.

Definition pem_roundtrip_single_pair : panics unit :=
  let c := sample_config 7 in
  pem ← encode_pair_pem (replicate 32 (z2b 0x55)) c;
  ps ← unwrap (parse_pem_bundle pem);
  assert_eq (length ps) 1 ;;
  p ← expect (ps !! 0);
  assert_eq (private_key p) (replicate 32 (z2b 0x55)) ;;
  assert_eq (config_id (config p)) (z2b 7).

Definition pem_roundtrip_multiple_pairs : panics unit :=
  let a := sample_config 1 in
  let b := sample_config 2 in
  pem1 ← encode_pair_pem (replicate 32 (z2b 0x01)) a;
  pem2 ← encode_pair_pem (replicate 32 (z2b 0x02)) b;
  ps ← unwrap (parse_pem_bundle (pem1 ++ [x0a] ++ pem2));
  assert_eq (length ps) 2 ;;
  p ← expect (ps !! 0);
  assert_eq (config_id (config p)) (z2b 1) ;;
  q ← expect (ps !! 1);
  assert_eq (config_id (config q)) (z2b 2).
End Base64.

Lemma sample_config_ok (id : Z) : config_ok (sample_config id).
Proof. split; try done. constructor; [by split; split | constructor]. Qed.

Lemma sample_config_encodes (id : Z) : ∃ b, encode (sample_config id) = Returns b.
Proof. unfold encode. cbn -[z2b]. eauto. Qed.

Section Base64Facts.
Context `{Base64Laws}.

Lemma pem_pair (key : bytes) (id : Z) :
  ∃ text, encode_pair_pem key (sample_config id) = Returns text.
Proof.
  destruct (sample_config_encodes id) as [b Hb]. unfold encode_pair_pem. rewrite Hb.
  eexists. reflexivity.
Qed.

Lemma pem_roundtrip_single_pair_passes : passes pem_roundtrip_single_pair.
Proof.
  unfold pem_roundtrip_single_pair.
  destruct (pem_pair (replicate 32 (z2b 0x55)) 7) as [text Ht]. rewrite Ht.
  assert (parse_pem_bundle text = Ok [mkEchKeyPair (replicate 32 (z2b 0x55)) (sample_config 7)])
    as Hp.
  { apply (parse_print_pairs [(mkEchKeyPair _ (sample_config 7), 0)]).
    - repeat (constructor; [apply sample_config_ok|]). constructor.
    - cbn [print_pairs private_key config]. rewrite Ht. cbn. by rewrite app_nil_r. }
  cbn [mbind panics_bind]. by rewrite Hp.
Qed.

Lemma pem_roundtrip_multiple_pairs_passes : passes pem_roundtrip_multiple_pairs.
Proof.
  unfold pem_roundtrip_multiple_pairs.
  destruct (pem_pair (replicate 32 (z2b 0x01)) 1) as [t1 H1].
  destruct (pem_pair (replicate 32 (z2b 0x02)) 2) as [t2 H2]. rewrite H1, H2.
  assert (parse_pem_bundle (t1 ++ [x0a] ++ t2) =
    Ok [mkEchKeyPair (replicate 32 (z2b 0x01)) (sample_config 1);
        mkEchKeyPair (replicate 32 (z2b 0x02)) (sample_config 2)]) as Hp.
  { apply (parse_print_pairs [(mkEchKeyPair _ (sample_config 1), 1);
                              (mkEchKeyPair _ (sample_config 2), 0)]).
    - repeat (constructor; [apply sample_config_ok|]). constructor.
    - cbn [print_pairs private_key config]. rewrite H1, H2. cbn. by rewrite app_nil_r. }
  cbn [mbind panics_bind]. by rewrite Hp.
Qed.
End Base64Facts.
End EchKeyTests.

(** ** src/rules.rs *)

Module RulesTests.
(** The raw string literals of the tests; a grave accent stands for the quotation
    mark. *)
Definition quoted (s : string) : bytes :=
  map (λ b, if bool_decide (b = x60) then x22 else b) (str s).

(** The files of the temporary directory; the directory and the process id are
    those of the run. *)
Abbreviation Files := (gmap bytes bytes).

Section Temp.
Context (temp_dir pid : bytes).

Definition write_temp (name contents : bytes) (fs : Files) : bytes * Files :=
  let p := temp_dir ++ str "/zeromasque-rules-" ++ pid ++ str "-" ++ name ++ str ".json" in
  (p, <[p := contents]> fs).

Definition read_to_string (fs : Files) (p : bytes) : result unit bytes :=
  ok_or tt (fs !! p ≫= from_utf8).

Definition remove_file (p : bytes) (fs : Files) : Files := delete p fs.

Definition target (t : RuleTable) (authority path : bytes) : option SocketAddr :=
  m_target <$> match_target t authority path.

(** [format!("127.0.0.1:{port}").parse().ok()]. *)
Definition loopback (port : Z) : SocketAddr := SockV4 0x7f000001 port.

Context {JsonError : Type} (from_str : bytes → result JsonError (list RuleFields)).
Context (to_socket_addrs : bytes → result unit (list SocketAddr)).

Definition load (fs : Files) (p : bytes) :=
  Rules.load (read_to_string fs) from_str to_socket_addrs p.

Definition match_json : bytes := quoted "[
              {`endpoint`:`https://a.example.com/masque`,`target`:`127.0.0.1:1234`},
              {`endpoint`:`https://b.example.com/connect`,`target`:`127.0.0.1:5678`}
            ]".

Definition matches_authority_and_path_ignoring_query (fs : Files) : panics Files :=
  let '(p, fs) := write_temp (str "match") match_json fs in
  t ← unwrap (load fs p);
  assert_eq (len t) 2 ;;
  assert_eq (target t (str "a.example.com") (str "/masque")) (Some (loopback 1234)) ;;
  assert_eq (target t (str "a.example.com") (str "/masque?h=1.2.3.4&p=53"))
    (Some (loopback 1234)) ;;
  assert_eq (target t (str "b.example.com") (str "/connect")) (Some (loopback 5678)) ;;
  assert_eq (allowed_sni_hosts t) [str "a.example.com"; str "b.example.com"] ;;
  assert_eq (target t (str "b.example.com") (str "/masque")) None ;;
  assert_eq (target t (str "a.example.com") (str "/other")) None ;;
  Returns (remove_file p fs).

Definition flags_json : bytes := quoted "[
              {`endpoint`:`https://a/x`,`target`:`127.0.0.1:1`,`transparent`:true,`fwmark`:7,`idle_timeout`:90},
              {`endpoint`:`https://b/y`,`target`:`127.0.0.1:2`},
              {`endpoint`:`https://c/z`,`target`:`127.0.0.1:3`,`idle_timeout`:0}
            ]".

Definition transparent_fwmark_and_idle_timeout_parse (fs : Files) : panics Files :=
  let '(p, fs) := write_temp (str "flags") flags_json fs in
  t ← unwrap (load fs p);
  a ← expect (match_target t (str "a") (str "/x"));
  assert (m_transparent a) ;;
  assert_eq (m_fwmark a) (Some 7%Z) ;;
  assert_eq (m_idle_timeout a) (Some (from_secs 90)) ;;
  b ← expect (match_target t (str "b") (str "/y"));
  assert (negb (m_transparent b)) ;;
  assert_eq (m_fwmark b) None ;;
  assert_eq (m_idle_timeout b) (Some (from_secs 35)) ;;
  c ← expect (match_target t (str "c") (str "/z"));
  assert_eq (m_idle_timeout c) None ;;
  assert_eq (privileged_count t) 1 ;;
  Returns (remove_file p fs).

Definition sni_json : bytes := quoted "[
              {`endpoint`:`https://Example.com:4433/x`,`target`:`127.0.0.1:1`},
              {`endpoint`:`https://example.com:8443/y`,`target`:`127.0.0.1:2`},
              {`endpoint`:`https://[::1]:443/z`,`target`:`127.0.0.1:3`}
            ]".

Definition allowed_sni_hosts_strip_ports_and_brackets (fs : Files) : panics Files :=
  let '(p, fs) := write_temp (str "sni") sni_json fs in
  t ← unwrap (load fs p);
  assert_eq (allowed_sni_hosts t) [str "example.com"; str "::1"] ;;
  Returns (remove_file p fs).

Definition rejects_empty_table (fs : Files) : panics Files :=
  let '(p, fs) := write_temp (str "empty") (str "[]") fs in
  assert (negb (is_ok (load fs p))) ;;
  Returns (remove_file p fs).
End Temp.

(** What the documents of the tests say. *)
Definition match_fields : list RuleFields := [
  mkRuleFields (str "https://a.example.com/masque") (str "127.0.0.1:1234") None None None;
  mkRuleFields (str "https://b.example.com/connect") (str "127.0.0.1:5678") None None None ].

Definition flags_fields : list RuleFields := [
  mkRuleFields (str "https://a/x") (str "127.0.0.1:1") (Some true) (Some 7%Z) (Some 90%Z);
  mkRuleFields (str "https://b/y") (str "127.0.0.1:2") None None None;
  mkRuleFields (str "https://c/z") (str "127.0.0.1:3") None None (Some 0%Z) ].

Definition sni_fields : list RuleFields := [
  mkRuleFields (str "https://Example.com:4433/x") (str "127.0.0.1:1") None None None;
  mkRuleFields (str "https://example.com:8443/y") (str "127.0.0.1:2") None None None;
  mkRuleFields (str "https://[::1]:443/z") (str "127.0.0.1:3") None None None ].

(** A JSON parser that reads them so, and a resolver that takes a literal address
    for itself. *)
Record reads_documents {JsonError} (from_str : bytes → result JsonError (list RuleFields))
    (to_socket_addrs : bytes → result unit (list SocketAddr)) : Prop := {
  reads_match : from_str match_json = Ok match_fields;
  reads_flags : from_str flags_json = Ok flags_fields;
  reads_sni : from_str sni_json = Ok sni_fields;
  reads_empty : from_str (str "[]") = Ok [];
  resolves_literal port : in_width 16 port →
    to_socket_addrs (str "127.0.0.1:" ++ u16_to_string port) = Ok [loopback port];
}.

Section Facts.
Context (temp_dir pid : bytes).
Context {JsonError : Type} (from_str : bytes → result JsonError (list RuleFields)).
Context (to_socket_addrs : bytes → result unit (list SocketAddr)).
Context (Hlib : reads_documents from_str to_socket_addrs).

(** A test that passes and removes the file it has written. *)
Definition passes_clean (t : Files → panics Files) : Prop :=
  ∀ fs, ∃ p, t fs = Returns (delete p fs).

Lemma then_assert {A} (c : bool) (k : panics A) :
  c = true → mbind (M := panics) (λ _, k) (assert c) = k.
Proof. by intros ->. Qed.

Lemma then_expect {A B} (o : option A) (a : A) (k : A → panics B) :
  o = Some a → mbind (M := panics) k (expect o) = k a.
Proof. by intros ->. Qed.

(** What [load] reads of a file just written. *)
Lemma load_written (name contents : bytes) (fs : Files) :
  utf8_valid contents = true →
  let '(p, fs) := write_temp temp_dir pid name contents fs in
  load from_str to_socket_addrs fs p =
  Rules.load (λ _, Ok contents) from_str to_socket_addrs p.
Proof.
  intros Hu. cbn. unfold load, Rules.load, read_to_string.
  rewrite lookup_insert_eq. cbn. unfold from_utf8. by rewrite Hu.
Qed.

Lemma resolves (port : Z) (lit : bytes) :
  in_width 16 port → lit = str "127.0.0.1:" ++ u16_to_string port →
  to_socket_addrs lit = Ok [loopback port].
Proof. intros Hp ->. by apply (resolves_literal _ _ Hlib). Qed.

(** The tables the documents load to. *)
Definition plain (authority path : string) (port : Z) : Rule :=
  mkRule (mkEndpoint (str authority) (str path)) (loopback port) false None
    (Some (from_secs 35)).

Definition match_table : RuleTable :=
  mkRuleTable [plain "a.example.com" "/masque" 1234; plain "b.example.com" "/connect" 5678].

Definition flags_table : RuleTable := mkRuleTable [
  mkRule (mkEndpoint (str "a") (str "/x")) (loopback 1) true (Some 7%Z) (Some (from_secs 90));
  plain "b" "/y" 2;
  mkRule (mkEndpoint (str "c") (str "/z")) (loopback 3) false None None ].

Definition sni_table : RuleTable := mkRuleTable
  [plain "Example.com:4433" "/x" 1; plain "example.com:8443" "/y" 2; plain "[::1]:443" "/z" 3].

(** A loopback literal as target, and the rule of such an object. *)
Definition loopback_target (f : RuleFields) (port : Z) : Prop :=
  in_width 16 port ∧ f_target f = str "127.0.0.1:" ++ u16_to_string port.

Definition names_rule (fp : RuleFields * Z) (r : Rule) : Prop :=
  parse (f_endpoint fp.1) = Ok (endpoint r) ∧
  r = mkRule (endpoint r) (loopback fp.2) (default false (f_transparent fp.1)) (f_fwmark fp.1)
        (if bool_decide (default 35 (f_idle_timeout fp.1) ≠ 0)%Z
         then Some (from_secs (default 35%Z (f_idle_timeout fp.1))) else None).

(** A list of fields whose targets are loopback literals loads to the rules it says. *)
Lemma load_literals (fields : list RuleFields) (ports : list Z) (rs : list Rule)
    (contents p : bytes) :
  from_str contents = Ok fields → fields ≠ [] →
  Forall2 loopback_target fields ports → Forall2 names_rule (zip fields ports) rs →
  Rules.load (λ _, Ok contents) from_str to_socket_addrs p =
    (Ok (mkRuleTable rs) : result (LoadError unit JsonError) RuleTable).
Proof.
  intros Hfs Hne Hports Hrs. unfold Rules.load. cbn. rewrite Hfs. cbn -[load_rules].
  rewrite bool_decide_false by (by destruct fields).
  assert (load_rules (JsonError := JsonError) to_socket_addrs (map spec_of_fields fields) = Ok rs)
    as ->; [|done].
  clear Hfs Hne. revert rs Hrs.
  induction Hports as [|f port fields ports [Hw Ht] _ IH]; intros rs Hrs; cbn in Hrs.
  - by inversion Hrs.
  - inversion Hrs as [|? r ? rs' [He Hr] Hrs']; subst. cbn in He, Hr.
    cbn [map load_rules]. unfold load_rule.
    cbn -[load_rules parse]. rewrite He. cbn -[load_rules].
    unfold resolve. rewrite (resolves port (f_target f)) by done.
    cbn -[load_rules]. rewrite (IH _ Hrs'). cbn. by rewrite Hr at 2.
Qed.

(** A document whose rules are known, loaded from the file a test has written. *)
Lemma load_document (name contents : bytes) (fields : list RuleFields) (ports : list Z)
    (rs : list Rule) (fs : Files) :
  utf8_valid contents = true → from_str contents = Ok fields → fields ≠ [] →
  Forall2 loopback_target fields ports → Forall2 names_rule (zip fields ports) rs →
  let '(p, fs) := write_temp temp_dir pid name contents fs in
  load from_str to_socket_addrs fs p = Ok (mkRuleTable rs).
Proof.
  intros Hu Hc Hne Hp Hr. pose proof (load_written name contents fs Hu) as Hl.
  cbn [write_temp] in *. rewrite Hl. exact (load_literals fields ports rs contents [] Hc Hne Hp Hr).
Qed.

(** Replay a test on the table its document loads to. *)
Ltac finish :=
  repeat first
    [ etransitivity; [apply then_assert; vm_compute; reflexivity|]
    | etransitivity; [eapply then_expect; vm_compute; reflexivity|] ];
  apply (f_equal Returns), delete_insert_eq.

Ltac replay test name contents Hdoc fields ports table :=
  intros fs; eexists; unfold test;
  let Hload := fresh in
  pose proof (load_document name contents fields ports (rules table) fs
    ltac:(vm_compute; reflexivity) (Hdoc _ _ _ Hlib) ltac:(discriminate)
    ltac:(repeat (constructor; [split; [by vm_compute|reflexivity]|]); constructor)
    ltac:(repeat (constructor; [split; reflexivity|]); constructor)) as Hload;
  cbn [write_temp] in *; rewrite Hload; cbn [unwrap mbind panics_bind];
  finish.

Lemma match_passes :
  passes_clean (matches_authority_and_path_ignoring_query temp_dir pid from_str to_socket_addrs).
Proof.
  replay @matches_authority_and_path_ignoring_query (str "match") match_json @reads_match
    match_fields [1234; 5678]%Z match_table.
Qed.

Lemma flags_passes :
  passes_clean (transparent_fwmark_and_idle_timeout_parse temp_dir pid from_str to_socket_addrs).
Proof.
  replay @transparent_fwmark_and_idle_timeout_parse (str "flags") flags_json @reads_flags
    flags_fields [1; 2; 3]%Z flags_table.
Qed.

Lemma sni_passes :
  passes_clean (allowed_sni_hosts_strip_ports_and_brackets temp_dir pid from_str to_socket_addrs).
Proof.
  replay @allowed_sni_hosts_strip_ports_and_brackets (str "sni") sni_json @reads_sni
    sni_fields [1; 2; 3]%Z sni_table.
Qed.

Lemma empty_passes :
  passes_clean (rejects_empty_table temp_dir pid from_str to_socket_addrs).
Proof.
  intros fs. eexists. unfold rejects_empty_table.
  pose proof (load_written (str "empty") (str "[]") fs eq_refl) as Hl.
  cbn [write_temp] in *. rewrite Hl. unfold Rules.load. cbn [mbind result_bind map_err].
  rewrite (reads_empty _ _ Hlib). finish.
Qed.
End Facts.
End RulesTests.

(** ** Property *)

(** The tests that call nothing outside the repository. *)
Definition pure_tests : list (panics unit) := [
  VarintTests.roundtrip_boundaries; VarintTests.decode_short_buffer_is_none;
  VarintTests.known_vectors;
  DgramTests.encode_decode_roundtrip; DgramTests.nonzero_flow_and_context;
  EndpointTests.parses_authority_and_path; EndpointTests.query_is_ignored_when_matching;
  EndpointTests.defaults_path_when_absent; EndpointTests.rejects_relative_uri;
  ClientTests.host_of_strips_port_and_brackets;
  EchConfigTests.roundtrip_minimal; EchConfigTests.list_roundtrip ].

(** The tests of the rule table. *)
Definition rules_tests {JsonError} (temp_dir pid : bytes)
    (from_str : bytes → result JsonError (list RuleFields))
    (to_socket_addrs : bytes → result unit (list SocketAddr)) :
    list (gmap bytes bytes → panics (gmap bytes bytes)) := [
  RulesTests.matches_authority_and_path_ignoring_query temp_dir pid from_str to_socket_addrs;
  RulesTests.transparent_fwmark_and_idle_timeout_parse temp_dir pid from_str to_socket_addrs;
  RulesTests.allowed_sni_hosts_strip_ports_and_brackets temp_dir pid from_str to_socket_addrs;
  RulesTests.rejects_empty_table temp_dir pid from_str to_socket_addrs ].

(** The unit tests of the repository pass on the model: those that call nothing
    outside it return; those of the key bundles return for every base64 codec with the
    documented laws; those of the rule table return, and leave the temporary directory
    without their file, for every JSON parser that reads the test documents as written
    and every resolver that maps a literal address to itself. *)
Theorem unit_tests_pass `{HB : Base64Laws} {JsonError : Type} (temp_dir pid : bytes)
    (from_str : bytes → result JsonError (list RuleFields))
    (to_socket_addrs : bytes → result unit (list SocketAddr)) :
  RulesTests.reads_documents from_str to_socket_addrs →
  Forall passes pure_tests ∧
  Forall passes [EchKeyTests.pem_roundtrip_single_pair;
                 EchKeyTests.pem_roundtrip_multiple_pairs] ∧
  Forall RulesTests.passes_clean (rules_tests temp_dir pid from_str to_socket_addrs).
Proof.
  intros Hlib. split_and!.
  - repeat (constructor; [vm_compute; reflexivity|]). constructor.
  - constructor; [apply EchKeyTests.pem_roundtrip_single_pair_passes|].
    constructor; [apply EchKeyTests.pem_roundtrip_multiple_pairs_passes|constructor].
  - constructor; [by apply RulesTests.match_passes|].
    constructor; [by apply RulesTests.flags_passes|].
    constructor; [by apply RulesTests.sni_passes|].
    constructor; [by apply RulesTests.empty_passes|constructor].
Qed.

(** A parser for the four documents and a resolver for loopback literals. *)
Definition sample_from_str (text : bytes) : result unit (list RuleFields) :=
  if bool_decide (text = RulesTests.match_json) then Ok RulesTests.match_fields
  else if bool_decide (text = RulesTests.flags_json) then Ok RulesTests.flags_fields
  else if bool_decide (text = RulesTests.sni_json) then Ok RulesTests.sni_fields
  else if bool_decide (text = str "[]") then Ok [] else Err tt.

Definition sample_to_socket_addrs (s : bytes) : result unit (list SocketAddr) :=
  match strip_prefix (str "127.0.0.1:") s ≫= parse_u16 with
  | Some port => Ok [RulesTests.loopback port]
  | None => Err tt
  end.

Lemma sample_reads_documents :
  RulesTests.reads_documents sample_from_str sample_to_socket_addrs.
Proof.
  split; [vm_compute; reflexivity..|].
  intros port Hp. unfold sample_to_socket_addrs.
  rewrite strip_prefix_app. cbn [mbind option_bind]. by rewrite parse_u16_to_string.
Qed.

Lemma unit_tests_pass_witness :
  Forall RulesTests.passes_clean
    (rules_tests (str "/tmp") (str "1") sample_from_str sample_to_socket_addrs).
Proof.
  apply (@unit_tests_pass Base64Std Base64Std_laws unit (str "/tmp") (str "1")
    sample_from_str sample_to_socket_addrs sample_reads_documents).
Defined.
