(* ===== verification/EchTest.v ===== *)
(** * The ECH test (src/ech_test.rs)

    Two TLS endpoints that talk through memory: the buffers, the driver of the
    handshake, and the setting of both tests.  BoringSSL is a parameter; what it does
    during a call of [handshake] is an interaction with the transport, of which it knows
    the [Read] and [Write] traits only. *)

From S2P Require Import Prelude.
From S2P Require Import RustStr.
From S2P Require Import EchConfig.
From S2P Require Import EchKey.
From S2P Require Import Keygen.
From S2P Require Import Tls.
From S2P Require Import UnitTests.
From Stdlib Require Import Strings.Byte.
Local Open Scope rust_scope.

(** ** The transport *)

Record Mem := mkMem { inbound : bytes; pos : nat; outbound : bytes }.

Definition Mem_new : Mem := mkMem [] 0 [].

Inductive ReadError := WouldBlock.

(** [Read::read] with a buffer of [n] bytes. *)
Definition mem_read (n : nat) (m : Mem) : panics (result ReadError bytes * Mem) :=
  avail ← slice_from (inbound m) (pos m);
  if bool_decide (avail = []) then Returns (Err WouldBlock, m)
  else
    let n := min (length avail) n in
    Returns (Ok (take n avail), mkMem (inbound m) (pos m + n) (outbound m)).

Definition mem_write (buf : bytes) (m : Mem) : nat * Mem :=
  (length buf, mkMem (inbound m) (pos m) (outbound m ++ buf)).

(** What generic code over [Read + Write] can do before it returns. *)
Inductive io (A : Type) : Type :=
| Ret (a : A)
| DoRead (n : nat) (k : result ReadError bytes → io A)
| DoWrite (buf : bytes) (k : nat → io A)
| DoFlush (k : io A).
Arguments Ret {A}.
Arguments DoRead {A}.
Arguments DoWrite {A}.
Arguments DoFlush {A}.

Fixpoint run_io {A} (p : io A) (m : Mem) : panics (A * Mem) :=
  match p with
  | Ret a => Returns (a, m)
  | DoRead n k => '(r, m) ← mem_read n m; run_io (k r) m
  | DoWrite buf k => let '(n, m) := mem_write buf m in run_io (k n) m
  | DoFlush k => run_io k m
  end.

(** ** The library *)

Inductive Handshake (Ssl : Type) : Type :=
| HsDone (s : Ssl)
| HsWouldBlock (s : Ssl)
| HsFailure
| HsSetupFailure.
Arguments HsDone {Ssl}.
Arguments HsWouldBlock {Ssl}.
Arguments HsFailure {Ssl}.
Arguments HsSetupFailure {Ssl}.

Inductive HandshakeError := Failure | SetupFailure.

Class Boring (Ssl : Type) := {
  setup_accept : Config → Ssl;
  setup_connect : Config → Ssl;
  handshake : Ssl → io (Handshake Ssl);
  ech_accepted : Ssl → bool;
  servername : Ssl → option bytes;
}.

(** ** The driver *)

Section Driver.
Context {Ssl : Type} {L : Boring Ssl}.

Inductive Side := Mid (s : Ssl) (m : Mem) | Done (s : Ssl) (m : Mem).

Definition mem (x : Side) : Mem := match x with Mid _ m | Done _ m => m end.
Definition set_mem (x : Side) (m : Mem) : Side :=
  match x with Mid s _ => Mid s m | Done s _ => Done s m end.

Definition try_pump (x : Side) : panics (result HandshakeError (Side * option bool)) :=
  match x with
  | Done _ _ => Returns (Ok (x, None))
  | Mid s m =>
      '(r, m) ← run_io (handshake s) m;
      Returns match r with
      | HsDone s => Ok (Done s m, Some (ech_accepted s))
      | HsWouldBlock s => Ok (Mid s m, None)
      | HsFailure => Err Failure
      | HsSetupFailure => Err SetupFailure
      end
  end.

Definition pump (x : Side) : panics (Side * option bool) :=
  r ← try_pump x; unwrap r.

Definition move_bytes (from to : Side) : Side * Side :=
  let out := outbound (mem from) in
  let from := set_mem from (mkMem (inbound (mem from)) (pos (mem from)) []) in
  if bool_decide (out = []) then (from, to)
  else
    let m := mem to in
    let m := if bool_decide (pos m = length (inbound m)) then mkMem [] 0 (outbound m) else m in
    (from, set_mem to (mkMem (inbound m ++ out) (pos m) (outbound m))).

(** [if let Some(e) = e { v = Some(e) }]. *)
Definition update (v e : option bool) : option bool := match e with Some _ => e | None => v end.

(** The loop of [ech_accepted_end_to_end]. *)
Fixpoint accept_loop (n : nat) (cli srv : Side) (client_ech server_ech : option bool) :
    panics (Side * Side * option bool * option bool) :=
  match n with
  | O => Returns (cli, srv, client_ech, server_ech)
  | S n =>
      '(cli, e) ← pump cli;
      let client_ech := update client_ech e in
      let '(cli, srv) := move_bytes cli srv in
      '(srv, e) ← pump srv;
      let server_ech := update server_ech e in
      let '(srv, cli) := move_bytes srv cli in
      match client_ech, server_ech with
      | Some _, Some _ => Returns (cli, srv, client_ech, server_ech)
      | _, _ => accept_loop n cli srv client_ech server_ech
      end
  end.

(** The loop of [unmatched_inner_sni_is_rejected_during_tls_handshake]. *)
Fixpoint reject_loop (n : nat) (cli srv : Side) : panics unit :=
  match n with
  | O => Panics
  | S n =>
      '(cli, _) ← pump cli;
      let '(cli, srv) := move_bytes cli srv in
      r ← try_pump srv;
      match r with
      | Ok (srv, _) => let '(srv, cli) := move_bytes srv cli in reject_loop n cli srv
      | Err Failure => Returns tt
      | Err _ => Panics
      end
  end.
End Driver.

(** ** The setting of the tests *)

Definition secret_internal : bytes := str "secret.internal".

Definition ech_config_list_and_key_set (ffi : HpkeFfi) : panics (bytes * EchKeySet) :=
  r ← generate_hpke_x25519_keypair ffi;
  '(public_key, private_key) ← unwrap r;
  let config := {|
    config_id := z2b 0x2a;
    kem_id := HPKE_KEM_DHKEM_X25519;
    public_key := public_key;
    cipher_suites := [mkCipherSuite HPKE_KDF_HKDF_SHA256 HPKE_AEAD_AES_128_GCM];
    maximum_name_length := z2b 0;
    public_name := str "public.example.com";
  |} in
  config_list ← encode_list [config];
  Returns (config_list, mkEchKeySet [mkEchKeyPair private_key config]).

Section Setting.
Context (accepts : list call → call → bool).

(** The certificate and its key are those of [self_signed]. *)
Definition server_context (cert key : bytes) (key_set : EchKeySet) (allowed_sni_hosts : list bytes) :
    stm Config TlsError unit :=
  try_call accepts NewContext >>!
  try_call accepts (SetMinProto TLS1_3) >>!
  try_call accepts (SetMaxProto TLS1_3) >>!
  try_call accepts (SetCertificate cert) >>!
  try_call accepts (SetPrivateKey key) >>!
  install_ech_keys accepts key_set >>!
  install_sni_guard allowed_sni_hosts.

Definition client_ssl (config_list server_name : bytes) : stm Config TlsError unit :=
  try_call accepts NewConnector >>!
  do_call (SetVerify VerifyNone) >>!
  install_client_ech config_list >>!
  try_call accepts (IntoSsl server_name).

Context {Ssl : Type} {L : Boring Ssl}.

(** Both sides before the handshake. *)
Definition endpoints (ffi : HpkeFfi) (cert key : bytes) (hosts : list bytes) :
    panics (Side (Ssl := Ssl) * Side (Ssl := Ssl)) :=
  '(config_list, key_set) ← ech_config_list_and_key_set ffi;
  server_ctx ← unwrap (run_build (server_context cert key key_set hosts));
  client_cfg ← unwrap (run_build (client_ssl config_list secret_internal));
  Returns (Mid (setup_connect client_cfg) Mem_new, Mid (setup_accept server_ctx) Mem_new).

Definition ech_accepted_end_to_end (ffi : HpkeFfi) (cert key : bytes) : panics unit :=
  '(cli, srv) ← endpoints ffi cert key [secret_internal];
  '(cli, srv, client_ech, server_ech) ← accept_loop 30 cli srv None None;
  assert_eq client_ech (Some true) ;;
  assert_eq server_ech (Some true) ;;
  match srv with
  | Done s _ => assert_eq (servername s) (Some secret_internal)
  | Mid _ _ => Panics
  end.

Definition unmatched_inner_sni_is_rejected_during_tls_handshake (ffi : HpkeFfi) (cert key : bytes) : panics unit :=
  '(cli, srv) ← endpoints ffi cert key [str "other.internal"];
  reject_loop 30 cli srv.
End Setting.

(** ** Two reliable byte streams *)

(** One way through an interaction: it reads [r] and writes [w]. *)
Inductive performs {A} : io A → A → bytes → bytes → Prop :=
| performs_ret a : performs (Ret a) a [] []
| performs_read n k b a r w :
    length b ≤ n → performs (k (Ok b)) a r w → performs (DoRead n k) a (b ++ r) w
| performs_block n k a r w :
    performs (k (Err WouldBlock)) a r w → performs (DoRead n k) a r w
| performs_write buf k a r w :
    performs (k (length buf)) a r w → performs (DoWrite buf k) a r (buf ++ w)
| performs_flush k a r w : performs k a r w → performs (DoFlush k) a r w.

Definition mem_ok (m : Mem) : Prop := pos m ≤ length (inbound m).
Definition unread (m : Mem) : bytes := drop (pos m) (inbound m).

(** A read takes the front of what is unread, and does not panic. *)
Lemma mem_read_cases n m :
  mem_ok m → ∃ r m', mem_read n m = Returns (r, m') ∧ mem_ok m' ∧ outbound m' = outbound m ∧
    match r with
    | Ok b => length b ≤ n ∧ unread m = b ++ unread m'
    | Err _ => m' = m
    end.
Proof.
  intros Hm. unfold mem_read. rewrite slice_from_le by done. cbn [mbind panics_bind].
  fold (unread m). case_bool_decide as He; [by eexists _, _|].
  eexists _, _. split; [reflexivity|]. cbn [mem_ok outbound]. unfold mem_ok, unread in *.
  cbn [pos inbound]. rewrite length_drop in *. split; [lia|]. split; [done|].
  rewrite length_take, length_drop. split; [lia|]. rewrite <- drop_drop.
  symmetry. apply take_drop.
Qed.

Lemma run_io_performs {A} (p : io A) m :
  mem_ok m → ∃ a m' r w, run_io p m = Returns (a, m') ∧ performs p a r w ∧ mem_ok m' ∧
    unread m = r ++ unread m' ∧ outbound m' = outbound m ++ w.
Proof.
  revert m. induction p as [a|n k IH|buf k IH|k IH]; intros m Hm; cbn [run_io].
  - exists a, m, [], []. rewrite app_nil_r. split_and!; try done. constructor.
  - destruct (mem_read_cases n m Hm) as (r & m1 & -> & Hm1 & Ho & Hr). cbn [mbind panics_bind].
    destruct (IH r m1 Hm1) as (a & m' & r' & w & -> & Hp & Hm' & Hu & Hw). destruct r as [b|[]].
    + destruct Hr as [Hn Hr]. exists a, m', (b ++ r'), w. split_and!; [done|by constructor|done|..].
      * by rewrite Hr, Hu, app_assoc.
      * by rewrite Hw, Ho.
    + subst m1. exists a, m', r', w. split_and!; [done|by constructor|done..].
  - cbn [mem_write]. destruct (IH (length buf) (mkMem (inbound m) (pos m) (outbound m ++ buf)) Hm)
      as (a & m' & r & w & -> & Hp & Hm' & Hu & Hw).
    exists a, m', r, (buf ++ w). split_and!; [done|by constructor|done|done|].
    by rewrite Hw, app_assoc.
  - destruct (IH m Hm) as (a & m' & r & w & E & Hp & H). exists a, m', r, w.
    split_and!; [done|by constructor|apply H..].
Qed.

Section Pipes.
Context {Ssl : Type} {L : Boring Ssl}.
Local Abbreviation Side := (Side (Ssl := Ssl)).
Implicit Types (s : Ssl) (x : Side).

Definition ssl x : Ssl := match x with Mid s _ | Done s _ => s end.

(** From [s] on, calls of [handshake] that have read [r] and written [w] led to [s']. *)
Inductive talked s : Ssl → bytes → bytes → Prop :=
| talked_start : talked s s [] []
| talked_on s1 s2 h r w r' w' :
    talked s s1 r w → performs (handshake s1) h r' w' → (h = HsWouldBlock s2 ∨ h = HsDone s2) →
    talked s s2 (r ++ r') (w ++ w').

(** The handshake of the end that started as [s0] fails, having read nothing but what the
    end that started as [p0] has written. *)
Definition fails s0 p0 : Prop :=
  ∃ s r w h r' w', talked s0 s r w ∧ performs (handshake s) h r' w' ∧
    (h = HsFailure ∨ h = HsSetupFailure) ∧
    ∃ p rp wp, talked p0 p rp wp ∧ r ++ r' `prefix_of` wp.

(** What one side has written is what the other has read, then what waits in its buffer,
    then what has not been moved. *)
Definition piped (c0 s0 : Ssl) (cli srv : Side) : Prop :=
  ∃ rc wc rs ws, talked c0 (ssl cli) rc wc ∧ talked s0 (ssl srv) rs ws ∧
    mem_ok (mem cli) ∧ mem_ok (mem srv) ∧
    wc = rs ++ unread (mem srv) ++ outbound (mem cli) ∧
    ws = rc ++ unread (mem cli) ++ outbound (mem srv).

Lemma piped_sym c0 s0 cli srv : piped c0 s0 cli srv → piped s0 c0 srv cli.
Proof. intros (rc & wc & rs & ws & H1 & H2 & H3 & H4 & H5 & H6). by exists rs, ws, rc, wc. Qed.

Lemma try_pump_piped c0 s0 cli srv :
  piped c0 s0 cli srv →
  (∃ cli' e, try_pump cli = Returns (Ok (cli', e)) ∧ piped c0 s0 cli' srv) ∨
  ∃ e s r w h r' w', try_pump cli = Returns (Err e) ∧ talked c0 s r w ∧
    performs (handshake s) h r' w' ∧ (h = match e with Failure => HsFailure | SetupFailure => HsSetupFailure end) ∧
    ∃ rs ws, talked s0 (ssl srv) rs ws ∧ ∃ rest, ws = r ++ r' ++ rest.
Proof.
  intros (rc & wc & rs & ws & H1 & H2 & H3 & H4 & H5 & H6).
  destruct cli as [s m|s m]; cbn [try_pump ssl mem] in *.
  2:{ left. eexists _, _. split; [done|]. by exists rc, wc, rs, ws. }
  destruct (run_io_performs (handshake s) m H3) as (h & m' & r & w & -> & Hp & Hm & Hu & Ho).
  cbn [mbind panics_bind].
  assert (∀ s2 (x : Side), (h = HsWouldBlock s2 ∨ h = HsDone s2) → ssl x = s2 → mem x = m' →
    piped c0 s0 x srv) as Hgo.
  { intros s2 x Hh Hs Hx. exists (rc ++ r), (wc ++ w), rs, ws. rewrite Hs, Hx. split_and!; try done.
    - by eapply talked_on.
    - by rewrite H5, Ho, <- !app_assoc.
    - by rewrite H6, Hu, <- !app_assoc. }
  destruct h as [s2|s2| |]; [left; eexists _, _; split; [reflexivity|]; eapply Hgo; eauto..| |].
  all: right; eexists _, s, rc, wc, _, r, w; (split; [reflexivity|]); (split; [done|]);
    (split; [exact Hp|]); (split; [reflexivity|]); exists rs, ws; (split; [done|]);
    rewrite H6, Hu, <- !app_assoc; by eexists.
Qed.

Lemma move_bytes_piped c0 s0 cli srv cli' srv' :
  piped c0 s0 cli srv → move_bytes cli srv = (cli', srv') →
  piped c0 s0 cli' srv' ∧ outbound (mem cli') = [] ∧ outbound (mem srv') = outbound (mem srv).
Proof.
  intros (rc & wc & rs & ws & H1 & H2 & H3 & H4 & H5 & H6). unfold move_bytes.
  assert (∀ x m, mem (set_mem x m) = m) as Hmem by by intros [] ?.
  assert (∀ x m, ssl (set_mem x m) = ssl x) as Hssl by by intros [] ?.
  case_bool_decide as Ho; intros [= <- <-].
  - rewrite Hmem. split_and!; [|done|done]. exists rc, wc, rs, ws. rewrite Hssl, Hmem.
    rewrite Ho in H5. by split_and!.
  - rewrite !Hmem. cbn [outbound]. split_and!; [| |by case_bool_decide].
    2:{ done. }
    exists rc, wc, rs, ws. rewrite !Hssl, !Hmem. cbn [outbound]. split_and!; try done.
    + unfold mem_ok in *. cbn [pos inbound]. case_bool_decide; cbn [pos inbound]; [lia|].
      rewrite length_app. lia.
    + rewrite H5, app_nil_r. f_equal. unfold unread, mem_ok in *. cbn [pos inbound].
      case_bool_decide as Hp; cbn [pos inbound].
      * rewrite Hp, drop_all. done.
      * by rewrite drop_app_le.
    + rewrite H6. f_equal. f_equal. by case_bool_decide.
Qed.

Lemma pump_piped c0 s0 cli srv :
  piped c0 s0 cli srv →
  match pump cli with
  | Returns (cli', _) => piped c0 s0 cli' srv
  | Panics => fails c0 s0
  end.
Proof.
  intros Hp. unfold pump.
  destruct (try_pump_piped _ _ _ _ Hp)
    as [(cli' & e & -> & H)|(e & s & r & w & h & r' & w' & -> & Ht & Hh & He & rs & ws & Hs & rest & Hw)];
    [done|]. exists s, r, w, h, r', w'. split_and!; [done|done|destruct e; auto|].
  exists (ssl srv), rs, ws. split; [done|]. exists rest. by rewrite Hw, app_assoc.
Qed.

(** After a move from each side nothing is left to be moved. *)
Definition settled (cli srv : Side) : Prop := outbound (mem cli) = [] ∧ outbound (mem srv) = [].

Lemma accept_loop_piped c0 s0 n cli srv ce se :
  piped c0 s0 cli srv → settled cli srv →
  match accept_loop n cli srv ce se with
  | Returns (cli', srv', _, _) => piped c0 s0 cli' srv' ∧ settled cli' srv'
  | Panics => fails c0 s0 ∨ fails s0 c0
  end.
Proof.
  revert cli srv ce se. induction n as [|n IH]; intros cli srv ce se Hp Hs; cbn [accept_loop]; [done|].
  pose proof (pump_piped _ _ _ _ Hp) as H1. destruct (pump cli) as [[cli1 e1]|]; [|by left].
  cbn [mbind panics_bind]. destruct (move_bytes cli1 srv) as [cli2 srv2] eqn:Em.
  apply (move_bytes_piped c0 s0) in Em as (H2 & Ho & _); [|done]. apply piped_sym in H2.
  pose proof (pump_piped _ _ _ _ H2) as H4. destruct (pump srv2) as [[srv3 e2]|]; [|by right].
  cbn [mbind panics_bind]. destruct (move_bytes srv3 cli2) as [srv4 cli4] eqn:Em2.
  apply (move_bytes_piped s0 c0) in Em2 as (H5 & Ho1 & Ho2); [|done]. apply piped_sym in H5.
  assert (settled cli4 srv4) as Hs4 by (split; congruence).
  destruct (update ce e1), (update se e2); first [by split|by apply IH].
Qed.

Lemma reject_loop_piped c0 s0 n cli srv :
  piped c0 s0 cli srv → reject_loop n cli srv = Returns tt →
  ∃ s rs ws r w c rc wc, talked s0 s rs ws ∧ performs (handshake s) HsFailure r w ∧
    talked c0 c rc wc ∧ rs ++ r `prefix_of` wc.
Proof.
  revert cli srv. induction n as [|n IH]; intros cli srv Hp; cbn [reject_loop]; [done|].
  pose proof (pump_piped _ _ _ _ Hp) as H1. destruct (pump cli) as [[cli1 e1]|]; [|done].
  cbn [mbind panics_bind]. destruct (move_bytes cli1 srv) as [cli2 srv2] eqn:Em.
  apply (move_bytes_piped c0 s0) in Em as (H2 & _ & _); [|done]. apply piped_sym in H2.
  destruct (try_pump_piped _ _ _ _ H2)
    as [(srv3 & e & -> & H4)|(e & s & r & w & h & r' & w' & -> & Ht & Hh & He & rc & wc & Hc & rest & Hw)];
    cbn [mbind panics_bind].
  - destruct (move_bytes srv3 cli2) as [srv4 cli4] eqn:Em2.
    apply (move_bytes_piped s0 c0) in Em2 as (H5 & _ & _); [|done]. apply piped_sym in H5. by apply IH.
  - destruct e; [|done]. intros _. subst h. exists s, r, w, r', w', (ssl cli2), rc, wc.
    split_and!; [done..|]. exists rest. by rewrite Hw, app_assoc.
Qed.

Lemma piped_start c0 s0 : piped c0 s0 (Mid c0 Mem_new) (Mid s0 Mem_new).
Proof. exists [], [], [], []. split_and!; try done; constructor. Qed.

(** C40: The handshake tests.  Whatever the TLS library does, the driver joins its two
    ends by two reliable byte streams: after any number of rounds, all that one end has
    written is what the other has read, in order, followed by what waits in its buffer.
    The loop of the first test panics only when the handshake of one end failed, on bytes
    that the other had written, and the second test passes only when the server's
    handshake failed, on bytes that the client had written. *)
Theorem handshake_piped (n : nat) (c0 s0 : Ssl) :
  match accept_loop n (Mid c0 Mem_new) (Mid s0 Mem_new) None None with
  | Returns (cli, srv, _, _) =>
      ∃ rc wc rs ws, talked c0 (ssl cli) rc wc ∧ talked s0 (ssl srv) rs ws ∧
        wc = rs ++ unread (mem srv) ∧ ws = rc ++ unread (mem cli)
  | Panics => fails c0 s0 ∨ fails s0 c0
  end ∧
  (reject_loop n (Mid c0 Mem_new) (Mid s0 Mem_new) = Returns tt →
   ∃ s rs ws r w c rc wc, talked s0 s rs ws ∧ performs (handshake s) HsFailure r w ∧
     talked c0 c rc wc ∧ rs ++ r `prefix_of` wc).
Proof.
  split; [|by apply reject_loop_piped, piped_start].
  pose proof (accept_loop_piped c0 s0 n _ _ None None (piped_start c0 s0) (conj eq_refl eq_refl)) as H.
  destruct (accept_loop _ _ _ _ _) as [[[[cli srv] ce] se]|]; [|done].
  destruct H as [(rc & wc & rs & ws & H1 & H2 & _ & _ & H5 & H6) [Ho1 Ho2]].
  exists rc, wc, rs, ws. rewrite Ho1, app_nil_r in H5. rewrite Ho2, app_nil_r in H6. by split_and!.
Qed.
End Pipes.

(** ** The setting *)

(** What the tests configure: the client is given the list of exactly the configuration
    whose key the server installs, and the guard of the first test lets the protected
    name through, the one of the second does not. *)
Lemma ech_setting accepts ffi cert key hosts list key_set cfg :
  ech_config_list_and_key_set ffi = Returns (list, key_set) →
  run_build (server_context accepts cert key key_set hosts) = Ok cfg →
  config_list_bytes key_set = Returns list ∧
  ∃ pub priv b, generate_hpke_x25519_keypair ffi = Returns (Ok (pub, priv)) ∧
    length (pairs key_set) = 1 ∧ map private_key (pairs key_set) = [priv] ∧
    map (public_key ∘ config) (pairs key_set) = [pub] ∧
    map (λ p, encode (config p)) (pairs key_set) = [Returns b] ∧
    cfg = [NewContext; SetMinProto TLS1_3; SetMaxProto TLS1_3; SetCertificate cert; SetPrivateKey key;
           EchKeysNew; HpkeKey priv; EchAddKey true b priv; SetEchKeys; SelectCertificateCallback hosts].
Proof.
  unfold ech_config_list_and_key_set. intros H.
  apply panics_bind_Returns in H as (r & Hg & H). apply panics_bind_Returns in H as ([pub priv] & Hr & H).
  destruct r as [kp|]; [|done]. injection Hr as ->.
  set (c := {| config_id := _ |}) in H.
  apply panics_bind_Returns in H as (l & Hl & [= <- <-]). intros Hrun.
  split; [exact Hl|].
  unfold encode_list in Hl. apply panics_bind_Returns in Hl as (body & Hb & _).
  cbn [encode_list_body] in Hb. apply panics_bind_Returns in Hb as (b & Hb & _).
  exists pub, priv, b. split; [done|]. split; [done|]. split; [done|]. split; [done|].
  cbn [pairs map config]. rewrite Hb. split; [done|].
  unfold run_build in Hrun. destruct (server_context _ _ _ _ _ []) as [[u|e] log] eqn:E; [|done].
  injection Hrun as <-.
  unfold server_context, install_ech_keys in E.
  do 5 (eapply (stm_then_makes _ _ [_]) in E; [|apply makes_try]).
  eapply (stm_then_makes _ _ (EchKeysNew :: [HpkeKey priv; EchAddKey true b priv] ++ [SetEchKeys])) in E.
  - injection E as _ <-. reflexivity.
  - eapply (makes_then _ _ [_]); [apply makes_try|].
    eapply (makes_then _ _ [_; _] [_]); [|apply makes_try].
    cbn [pairs add_ech_keys]. eapply (makes_then _ _ [_] [_]); [apply makes_try|].
    eapply (makes_then _ _ [_] []); [|apply makes_ret].
    unfold add_ech_key. cbn [config private_key]. rewrite Hb. apply makes_try.
Qed.

(** ** A library *)

(** A library whose hello carries the name and the list in the clear, and whose server
    accepts ECH when the list is the one of its keys and then asks the callback. *)
Record toy := mkToy { ty_cfg : Config; ty_client : bool; ty_hello : bool; ty_name : bytes; ty_ech : bool }.

Definition toy_list (cfg : Config) : bytes :=
  let body := concat (omap (λ c, match c with EchAddKey _ b _ => Some b | _ => None end) cfg) in
  to_be_bytes 2 (Z.of_nat (length body)) ++ body.

Definition toy_guard (cfg : Config) (name : bytes) : bool :=
  forallb (λ c, match c with SelectCertificateCallback hosts => sni_guard hosts (Some name) | _ => true end) cfg.

Definition toy_hello (cfg : Config) : bytes :=
  let name := mjoin (omap (λ c, match c with IntoSsl n => Some n | _ => None end) cfg) in
  let list := mjoin (omap (λ c, match c with InfoCallback l => client_ech_callback l HandshakeStart | _ => None end) cfg) in
  z2b (Z.of_nat (length name)) :: name ++ list.

Definition toy_wait (s : toy) : io (Handshake toy) :=
  DoRead 16 (λ r, match r with
    | Ok _ => Ret (HsDone (mkToy (ty_cfg s) true true (ty_name s) true))
    | Err _ => Ret (HsWouldBlock (mkToy (ty_cfg s) true true (ty_name s) false))
    end).

Definition toy_handshake (s : toy) : io (Handshake toy) :=
  if ty_client s then
    if ty_hello s then toy_wait s else DoWrite (toy_hello (ty_cfg s)) (λ _, DoFlush (toy_wait s))
  else
    DoRead 4096 (λ r, match r with
      | Err _ => Ret (HsWouldBlock s)
      | Ok [] => Ret HsFailure
      | Ok (n :: hello) =>
          let name := take (Z.to_nat (b2z n)) hello in
          let list := drop (Z.to_nat (b2z n)) hello in
          if toy_guard (ty_cfg s) name then
            DoWrite [x01] (λ _, Ret (HsDone (mkToy (ty_cfg s) false true name
              (bool_decide (list = toy_list (ty_cfg s))))))
          else Ret HsFailure
      end).

Definition Toy : Boring toy := {|
  setup_accept cfg := mkToy cfg false false [] false;
  setup_connect cfg := mkToy cfg true false [] false;
  handshake := toy_handshake;
  ech_accepted := ty_ech;
  servername s := Some (ty_name s);
|}.

Definition sample_hpke : HpkeFfi :=
  mkHpkeFfi false true (Some (replicate 32 x11, 32)) (Some (replicate 32 x22, 32)).

(** Both tests pass with it. *)
Lemma toy_tests_pass :
  passes (ech_accepted_end_to_end (λ _ _, true) (L := Toy) sample_hpke (str "cert") (str "key")) ∧
  passes (unmatched_inner_sni_is_rejected_during_tls_handshake (λ _ _, true) (L := Toy) sample_hpke (str "cert") (str "key")).
Proof. split; vm_compute; reflexivity. Qed.
